(* ===== verification/_CoqProject ===== *)
-Q . S2P
Prelude.v
StateError.v
Str.v
Encoding.v
FileTree.v
FileOps.v
Machine.v
Patch.v
PatchTheory.v
PackageImage.v
PackageImageTheory.v
Archive.v
ArchiveTheory.v
PathSafety.v
Yaml.v
YamlTheory.v
Hoist.v
Worklist.v
ResolverModel.v
Platform.v
Semver.v
Integrity.v
Registry.v
Fetch.v
Json.v
ManifestEdit.v
Publish.v
Peer.v
Overrides.v
Lockfile.v
Manifest.v
Workspaces.v
Diagnostic.v
Config.v
Http.v
Sources.v
NpmLock.v
NpmLockTheory.v
Pnpm.v
PnpmTheory.v
PnpmRuns.v
Install.v
InstallTheory.v
Yarn.v
YarnTheory.v
InstallRuns.v
Graph.v
GraphIdentity.v
DerivedKey.v
DerivedStore.v
DerivedStoreTheory.v
GraphClosure.v
Placement.v
PlacementInv.v
PlacementRuns.v
Resolve.v
ResolveInv.v
Termination.v
Completeness.v
GcPolicy.v
Metadata.v
MetadataRepo.v
MetadataTheory.v
MetadataSafety.v
MetadataRepair.v
MetadataRuns.v
Materialize.v
MaterializeTheory.v
View.v
ViewTheory.v
ViewRuns.v
