(* ===== verification/Prelude.v ===== *)
(** * bpm: a verification library for the package manager's resolution core

    bpm is an npm-compatible package manager in Rust (sources under [src/]).
    A command reads [package.json] and the npm configuration, resolves the
    dependency graph against a registry, writes [bpm.lock], and installs from a
    content store.  This library models the part that decides what is
    installed and what is fetched, and proves what makes it correct.

    ** Components and files

    - [Prelude]: results, loops over results, stable sorting, tactics.
    - [StateError]: the state-and-error monad for [&mut self] methods that
      return [Result]; the state survives an error.  [steps I R P m Q] is the
      rule set used for every stateful proof.
    - [Str], [Machine]: the Rust string functions and the machine integers the
      code uses ([u16], [u32], [u64], [i64], [Duration]) with their checked,
      saturating and wrapping operations written out.  A [BTreeMap<String, _>]
      is a [gmap] whose iteration order is [bt_list].
    - [PathSafety] ([src/path_safety.rs]), [Hoist] ([src/hoist.rs]),
      [ResolverModel] ([src/resolver/model.rs]), [Platform]
      ([src/resolver/platform.rs]), [Semver] (the semver crate as a class with
      its documented laws), [Integrity] ([src/integrity.rs]), [Registry]
      ([src/registry/mod.rs]: specs, ranges, packuments, selection), [Json].
    - [Peer], [Overrides], [Workspaces], [Sources] ([src/resolver/peer.rs],
      [overrides.rs], [workspaces.rs], [sources.rs]): the four policies the
      placement core consults.
    - [Lockfile] ([src/lockfile.rs]), [Manifest] ([src/manifest.rs]),
      [Diagnostic] ([src/diagnostic.rs]).
    - [Graph] ([src/graph.rs] and the canonical workspace bytes of
      [src/workspace.rs]): graph ids, install plans, their validation, the
      closure digest.  [GraphIdentity] proves what an id identifies and when a
      plan is reused, [GraphClosure] what a closure digest depends on.
    - [Patch] ([src/patch.rs]): unified patches; [PatchTheory] relates the
      hunk loops to a relational reading of a diff and to its printed form.
    - [ManifestEdit], [Publish] ([src/manifest_edit.rs]): edits of
      [package.json], and its publication together with the lock over a file
      system whose operations may fail or be cut by a crash.
    - [NpmLock], [NpmLockTheory] ([src/npm_lock.rs], part of
      [src/project_lock.rs]): npm's [package-lock.json], both ways.
    - [Yarn], [YarnTheory] ([src/yarn_lock.rs]): the Yarn v1 parser and the
      walk that places its packages with [Hoist].
    - [Install], [InstallTheory] ([src/cli/install.rs]): the frozen gate, the
      projection without development packages, the platform filter, the
      download list and the outcome map.  [InstallRuns] has the witnesses and
      the cases in which an import and the gate disagree.
    - [Config] ([src/config.rs]), [Http] ([src/http/mod.rs],
      [src/http/retry.rs]), [GcPolicy] ([src/gc/policy.rs]).
    - [Placement] ([src/resolver/placement.rs]): [GraphResolver] as a state
      ([graph]: nodes by path, diagnostics, announced downloads) and
      [resolve_dependency] with its branches ([place_workspace],
      [resolve_source_dependency], [place_registry]) in the monad.
    - [PlacementInv]: the graph invariant [graph_inv], the order [ext] in which
      graphs evolve, and that every operation keeps both.
    - [PlacementRuns]: a concrete registry, the witnesses of the placement
      theorems, and runs that show where the code departs from its intent.
    - [Resolve] and [ResolveInv] ([src/resolver/mod.rs]): a whole resolution,
      from manifest to lockfile, and what the lockfile guarantees.
    - [Termination], [Completeness]: liveness of placement and the absence of
      dropped dependencies.

    ** How the parts meet

    [resolve_manifest] normalises the overrides, then runs [resolve_graph] on
    the empty graph: root requests, workspace links, at most sixteen peer
    repair rounds, peer contexts; [build_lock] turns the final graph into the
    lockfile.  The placement core asks [effective_spec_for] (overrides), then
    the workspace index, then the source parser, then the registry.  The
    lockfile's own gate [validate_v2] is proved equivalent to the predicate
    [lock_wf], and [resolve_manifest_lock_wf] shows that what the resolver
    builds satisfies it: the two sides of the file meet in that predicate.
    [import_sound] shows the same of the npm importer, and
    [omit_dev_projection] that the install projection preserves it.

    ** What the theorems show

    Safety of names and paths (confinement below the install root), vetting of
    artifacts and sources (integrity, schemes, bounded downloads, full commit
    ids), credentials that stay in their scope over redirects and retries;
    invariants of the placement graph, of the lockfile and of a loaded
    configuration; exactness of the lockfile gate, of peer binding, of version
    selection, of workspace requests and of the platform check; round trips of
    lockfile text, specs, digests and limits; bounds on retries, delays and
    sizes; determinism of the workspace index, of garbage collection and of
    lockfile text; termination of the request loops and of placement; identity
    of graphs and reuse of plans; exactness of patches, of the npm round trip,
    of the download list and of the frozen gate; atomicity of publication
    under every failure and crash.

    ** Conventions

    Fallible code returns [result E A] with the source's error constructors;
    messages assembled only for display are kept as the data they are built
    from.  A panic of the source is a value of its own ([RPanic], [SPanic]),
    so its absence is a theorem and its presence a finding.  [HashMap] and
    [HashSet] values whose order is never observed are [gmap] and [gset].

    ** Fuel

    [resolve_dependency] recurses on fuel; [ROutOfFuel] is the only result the
    code does not have.  [Termination.resolve_dependency_terminates] gives a
    depth that always suffices for registry packages; for directories that
    depend on each other none does ([PlacementRuns.source_cycle_diverges]), as
    in the code.  The lookup chain takes the length of the path as fuel, since
    each parent path is shorter; [node_style_fuel] likewise.  [hop_loop] takes
    one more than the hop limit and never runs out.  [closure_digest] needs the
    number of resolution entries plus two, the patch loops the number of lines,
    [retain_loop] the number of packages, [prune_loop] one more; each has a
    theorem that this is enough.  [yarn_walk] returns for lockfiles without
    dependency cycles ([yarn_walk_terminates]); for mutual versions it never
    does ([yarn_mutual_versions_diverge]).

    ** What stands for code outside these sources

    The semver crate ([Semver]), base64 and hex ([Codecs]), URL parsing
    ([UrlParser], [UrlLib]), serde ([LockCodec], [NpmCodec], [JsonText]) are
    classes whose laws state documented behaviour; each that a theorem uses has
    a concrete instance for the witnesses.
    The registry's answers, the network, the file system, the [git] process,
    archive unpacking and patch application are arguments: [resolver_env],
    [source_io], the [net] function of [Http], the [faults] of [Publish], the
    BLAKE3 [hash] of [Graph].  [env_laws] lists what the placement theorems
    assume of them.

    ** What is not modelled

    The asynchronous resolver (the same placement core behind tokio), the
    packument cache and prefetch threads (they change no result), the SQL
    metadata database, the content store, volumes, archive extraction and the
    materializer (file-system effects), lifecycle scripts (processes), the
    command line, benchmarks and diagnostics output.  Planned next: the pnpm
    lockfile, workspace glob patterns, derived-artifact keys, the order of
    lifecycle scripts and the paths of extracted archives. *)

From stdpp Require Export base gmap strings list sorting fin_maps pretty.
From Stdlib Require Export Lia.

(** ** Notation scope of the development *)

Declare Scope bpm_scope.
Delimit Scope bpm_scope with bpm.
#[global] Open Scope bpm_scope.

(** ** Fallible computations

    Rust's [Result<A, E>]; the [?] operator is the monadic bind. *)

Inductive result (E A : Type) : Type :=
  | Ok (a : A)
  | Err (e : E).
Arguments Ok {E A} a.
Arguments Err {E A} e.

#[global] Instance result_ret E : MRet (result E) := λ A a, Ok a.
#[global] Instance result_bind E : MBind (result E) := λ A B f m,
  match m with Ok a => f a | Err e => Err e end.
#[global] Instance result_fmap E : FMap (result E) := λ A B f m,
  match m with Ok a => Ok (f a) | Err e => Err e end.
#[global] Instance result_eq_dec {E A} `{EqDecision E, EqDecision A} :
  EqDecision (result E A).
Proof. solve_decision. Defined.

(** [Option::ok_or]. *)
Definition ok_or {E A} (e : E) (o : option A) : result E A :=
  match o with Some a => Ok a | None => Err e end.

(** [Result::ok]. *)
Definition ok {E A} (r : result E A) : option A :=
  match r with Ok a => Some a | Err _ => None end.

(** [Result::map_err]. *)
Definition map_err {E F A} (f : E → F) (r : result E A) : result F A :=
  match r with Ok a => Ok a | Err e => Err (f e) end.

Definition is_ok {E A} (r : result E A) : bool :=
  match r with Ok _ => true | Err _ => false end.

(** [if guard { return Err(e) }]. *)
Notation "'fail_if' b 'with_err' e ; k" := (if b then Err e else k)
  (at level 10, b at level 100, e at level 100, k at level 200) : bpm_scope.

Lemma bind_Ok {E A B} (m : result E A) (f : A → result E B) b :
  m ≫= f = Ok b ↔ ∃ a, m = Ok a ∧ f a = Ok b.
Proof. destruct m; simpl; naive_solver. Qed.

Lemma bind_Err {E A B} (m : result E A) (f : A → result E B) e :
  m ≫= f = Err e ↔ m = Err e ∨ ∃ a, m = Ok a ∧ f a = Err e.
Proof. destruct m; simpl; naive_solver. Qed.

Lemma ok_or_Ok {E A} (e : E) (o : option A) a : ok_or e o = Ok a ↔ o = Some a.
Proof. destruct o; naive_solver. Qed.

Lemma ok_or_Err {E A} (e e' : E) (o : option A) :
  ok_or e o = Err e' ↔ o = None ∧ e' = e.
Proof. destruct o; naive_solver. Qed.

Lemma map_err_Ok {E F A} (f : E → F) (r : result E A) a :
  map_err f r = Ok a ↔ r = Ok a.
Proof. destruct r; naive_solver. Qed.

Lemma ok_Some {E A} (r : result E A) a : ok r = Some a ↔ r = Ok a.
Proof. destruct r; naive_solver. Qed.

Lemma is_ok_true {E A} (r : result E A) : is_ok r = true ↔ ∃ a, r = Ok a.
Proof. destruct r; naive_solver. Qed.

(** A [for] loop whose body may fail with [?]: left to right, first error wins. *)
Fixpoint fold_res {E A B} (f : B → A → result E B) (b : B) (l : list A) : result E B :=
  match l with
  | [] => Ok b
  | a :: l => f b a ≫= λ b, fold_res f b l
  end.

(** [iter().map(f).collect::<Result<Vec<_>, _>>()]. *)
Fixpoint traverse_res {E A B} (f : A → result E B) (l : list A) : result E (list B) :=
  match l with
  | [] => Ok []
  | a :: l => f a ≫= λ b, traverse_res f l ≫= λ bs, Ok (b :: bs)
  end.

(** A loop that only validates. *)
Definition each_res {E A} (f : A → result E ()) (l : list A) : result E () :=
  fold_res (λ _ a, f a) () l.

Lemma foldl_inv {A B} (P : B → Prop) (f : B → A → B) l b :
  (∀ b a, a ∈ l → P b → P (f b a)) → P b → P (foldl f b l).
Proof.
  revert b. induction l as [|a l IH]; intros b Hf Hb; [done|]. simpl. apply IH.
  - intros b' a' Ha. apply Hf. by right.
  - apply Hf; [by left|done].
Qed.

Lemma fold_res_inv {E A B} (P : B → Prop) (f : B → A → result E B) l b b' :
  P b →
  (∀ b a b', a ∈ l → P b → f b a = Ok b' → P b') →
  fold_res f b l = Ok b' → P b'.
Proof.
  revert b. induction l as [|a l IH]; intros b Hb Hf; simpl.
  - by intros [= <-].
  - intros (b1 & Hb1 & Hl)%bind_Ok. apply (IH b1); [|set_solver|done].
    apply (Hf b a b1); [set_solver|done|done].
Qed.

(** The same with the processed prefix visible to the invariant. *)
Lemma fold_res_prefix_inv {E A B} (P : list A → B → Prop) (f : B → A → result E B) l b b' :
  P [] b →
  (∀ done b a b', P done b → a ∈ l → f b a = Ok b' → P (done ++ [a]) b') →
  fold_res f b l = Ok b' → P l b'.
Proof.
  intros Hb Hf. cut (∀ l2 pre b, (∀ a, a ∈ l2 → a ∈ l) → P pre b →
    fold_res f b l2 = Ok b' → P (pre ++ l2) b').
  { intros H. apply (H l [] b); [done|done]. }
  clear Hb b. induction l2 as [|a l2 IH]; intros pre b Hl Hb; simpl.
  - intros [= <-]. by rewrite app_nil_r.
  - intros (b1 & Hb1 & Hl2)%bind_Ok. rewrite cons_middle, (assoc_L (++)).
    apply (IH (pre ++ [a]) b1); [set_solver| |done].
    eapply Hf; [done|set_solver|done].
Qed.

(** A failing loop: the prefix before the failing element succeeded. *)
Lemma fold_res_Err {E A B} (f : B → A → result E B) l b e :
  fold_res f b l = Err e → ∃ pre a post b', l = pre ++ a :: post ∧
    fold_res f b pre = Ok b' ∧ f b' a = Err e.
Proof.
  revert b. induction l as [|a l IH]; intros b; simpl; [done|].
  intros [Ha|(b1 & Hb1 & Hl)]%bind_Err.
  - by exists [], a, l, b.
  - destruct (IH _ Hl) as (pre & a' & post & b' & -> & Hpre & Ha').
    exists (a :: pre), a', post, b'. simpl. by rewrite Hb1.
Qed.

Lemma each_res_Ok {E A} (f : A → result E ()) l :
  each_res f l = Ok () ↔ ∀ a, a ∈ l → f a = Ok ().
Proof.
  unfold each_res. induction l as [|a l IH]; simpl; [set_solver|].
  split.
  - intros ([] & Ha & Hl)%bind_Ok a' [->|Hin]%elem_of_cons; [done|].
    by apply IH.
  - intros H. rewrite (H a) by set_solver. simpl. apply IH. set_solver.
Qed.

Lemma each_res_Ok_unit {E A} (f : A → result E ()) l u :
  each_res f l = Ok u ↔ ∀ a, a ∈ l → f a = Ok ().
Proof. destruct u. apply each_res_Ok. Qed.

Lemma traverse_res_Ok {E A B} (f : A → result E B) l bs :
  traverse_res f l = Ok bs ↔ Forall2 (λ a b, f a = Ok b) l bs.
Proof.
  revert bs. induction l as [|a l IH]; intros bs; simpl.
  - split; [by intros [= <-]|by inversion 1].
  - rewrite bind_Ok. setoid_rewrite bind_Ok. split.
    + intros (b & Hb & bs' & Hbs & [= <-]). constructor; [done|by apply IH].
    + inversion 1; subst. eexists. split; [done|]. eexists. split; [by apply IH|done].
Qed.

Lemma filter_nil_ext {A} (l : list A) (P : A → Prop) `{∀ x, Decision (P x)} :
  (∀ x, x ∈ l → ¬ P x) → filter P l = [].
Proof.
  induction l as [|x l IH]; intros Hl; [done|]. rewrite filter_cons.
  rewrite decide_False by (apply Hl; by left). apply IH. intros y Hy. apply Hl. by right.
Qed.

Lemma filter_ext_in {A} (l : list A) (P Q : A → Prop) `{∀ x, Decision (P x)}
    `{∀ x, Decision (Q x)} :
  (∀ x, x ∈ l → P x ↔ Q x) → filter P l = filter Q l.
Proof.
  induction l as [|x l IH]; intros Hl; [done|]. rewrite !filter_cons.
  rewrite IH by (intros y Hy; apply Hl; by right).
  by rewrite (decide_ext (P x) (Q x)) by (apply Hl; by left).
Qed.

(** ** Stable sorting

    [slice::sort_by] is stable; insertion before the first strictly greater
    element gives the same list. *)

Section sort.
Context {A : Type} (leb : A → A → bool).

Fixpoint insert_by (x : A) (l : list A) : list A :=
  match l with
  | [] => [x]
  | y :: l' => if leb x y then x :: l else y :: insert_by x l'
  end.

Definition sort_by (l : list A) : list A := foldr insert_by [] l.

Lemma insert_by_perm x l : insert_by x l ≡ₚ x :: l.
Proof.
  induction l as [|y l IH]; simpl; [done|]. destruct (leb x y); [done|].
  rewrite IH. apply Permutation_swap.
Qed.

Lemma sort_by_perm l : sort_by l ≡ₚ l.
Proof. induction l as [|x l IH]; simpl; [done|]. by rewrite insert_by_perm, IH. Qed.

Lemma elem_of_sort_by x l : x ∈ sort_by l ↔ x ∈ l.
Proof. by rewrite sort_by_perm. Qed.

Lemma length_sort_by l : length (sort_by l) = length l.
Proof. by rewrite sort_by_perm. Qed.

(** Elements that compare equal keep their order. *)
Lemma insert_by_filter (P : A → Prop) `{∀ x, Decision (P x)} x l :
  (∀ a b, P a → P b → leb a b = true) →
  filter P (insert_by x l) = filter P (x :: l).
Proof.
  intros HP. induction l as [|y l IH]; [done|]. cbn [insert_by].
  destruct (leb x y) eqn:Hxy; [done|]. rewrite filter_cons, IH, !filter_cons.
  destruct (decide (P x)), (decide (P y)); try done. rewrite HP in Hxy by done. done.
Qed.

Lemma sort_by_stable (P : A → Prop) `{∀ x, Decision (P x)} l :
  (∀ a b, P a → P b → leb a b = true) → filter P (sort_by l) = filter P l.
Proof.
  intros HP. induction l as [|x l IH]; [done|]. simpl sort_by.
  rewrite insert_by_filter by done. rewrite !filter_cons, IH. done.
Qed.

Context (leb_total : ∀ x y, leb x y = true ∨ leb y x = true).
Context (leb_trans : ∀ x y z, leb x y = true → leb y z = true → leb x z = true).

Let R x y := leb x y = true.

Lemma insert_by_sorted x l : StronglySorted R l → StronglySorted R (insert_by x l).
Proof using leb_total leb_trans.
  induction 1 as [|y l Hl IH Hy]; simpl; [by repeat constructor|].
  destruct (leb x y) eqn:Hxy.
  - constructor; [by constructor|]. constructor; [done|].
    eapply Forall_impl; [exact Hy|]. intros z Hz. by eapply leb_trans.
  - constructor; [done|]. rewrite insert_by_perm. constructor; [|done].
    destruct (leb_total x y); [congruence|done].
Qed.

Lemma sort_by_sorted l : StronglySorted R (sort_by l).
Proof using leb_total leb_trans.
  induction l; simpl; [constructor|by apply insert_by_sorted].
Qed.

(** A sorted list is a fixed point, so canonicalising twice changes nothing. *)
Lemma sort_by_id l : StronglySorted R l → sort_by l = l.
Proof using Type.
  induction 1 as [|y l Hl IH Hy]; simpl; [done|]. rewrite IH.
  destruct l as [|z l]; simpl; [done|]. apply Forall_cons in Hy as [Hz _].
  unfold R in Hz. by rewrite Hz.
Qed.

(** The order of insertion does not show when the elements have distinct keys. *)
Lemma sort_by_unique {K} (key : A → K) l1 l2 :
  (∀ x y, leb x y = true → leb y x = true → key x = key y) →
  l1 ≡ₚ l2 → NoDup (key <$> l1) → sort_by l1 = sort_by l2.
Proof using leb_total leb_trans.
  intros Hanti Hp Hnd. eapply (StronglySorted_unique_strong R).
  - intros x y Hx Hy H1 H2. rewrite elem_of_sort_by in Hx, Hy. rewrite <- Hp in Hy.
    pose proof (Hanti x y H1 H2) as Heq.
    apply list_elem_of_lookup in Hx as [i Hi]. apply list_elem_of_lookup in Hy as [j Hj].
    assert (i = j) as ->; [|by simplify_eq].
    eapply (NoDup_lookup _ _ _ _ Hnd); rewrite list_lookup_fmap; [by rewrite Hi|].
    rewrite Hj. simpl. by rewrite Heq.
  - apply sort_by_sorted.
  - apply sort_by_sorted.
  - by rewrite !sort_by_perm.
Qed.
End sort.

(** [StronglySorted] for a relation that refines another. *)
Lemma StronglySorted_impl {A} (R1 R2 : relation A) l :
  (∀ x y, R1 x y → R2 x y) → StronglySorted R1 l → StronglySorted R2 l.
Proof.
  intros H. induction 1; constructor; [done|]. eapply Forall_impl; eauto.
Qed.

Lemma StronglySorted_map {A B} (f : A → B) (R : relation B) l :
  StronglySorted R (f <$> l) ↔ StronglySorted (λ x y, R (f x) (f y)) l.
Proof.
  induction l as [|x l IH]; csimpl; [split; constructor|].
  split; inversion 1; subst; constructor; try (by apply IH); by apply Forall_fmap.
Qed.

Lemma StronglySorted_lookup {A} (R : relation A) (l : list A) i j x y :
  StronglySorted R l → i < j → l !! i = Some x → l !! j = Some y → R x y.
Proof.
  intros Hl. revert i j. induction Hl as [|z l Hl IH Hz]; intros i j Hij Hx Hy; [done|].
  destruct j as [|j]; [lia|]. destruct i as [|i]; simpl in *; simplify_eq.
  - rewrite Forall_lookup in Hz. by eapply Hz.
  - eapply (IH i j); [lia|done|done].
Qed.

Fixpoint StronglySorted_dec_go {A} (R : relation A) (dec : ∀ x y, Decision (R x y))
    (l : list A) : Decision (StronglySorted R l).
Proof.
  destruct l as [|x l]; [left; constructor|].
  destruct (StronglySorted_dec_go A R dec l) as [Hl|Hl].
  - destruct (decide (Forall (R x) l)) as [Hx|Hx].
    + left. by constructor.
    + right. abstract (by inversion 1).
  - right. abstract (by inversion 1).
Defined.
#[global] Instance StronglySorted_dec {A} (R : relation A) `{∀ x y, Decision (R x y)} l :
  Decision (StronglySorted R l) := StronglySorted_dec_go R _ l.

(** Prove a closed decidable proposition by evaluating its decision procedure. *)
Ltac decided :=
  match goal with |- ?P => refine (bool_decide_unpack P _); vm_compute; exact I end.
