(* ===== verification/StateError.v ===== *)
(** * State and errors

    [&mut self] methods returning [Result]: the state survives an error, since a
    caller may catch it and go on with what was already changed. *)

From S2P Require Export Prelude.

Definition M (S E A : Type) : Type := S → S * result E A.

#[global] Instance M_ret S E : MRet (M S E) := λ A a s, (s, Ok a).
#[global] Instance M_bind S E : MBind (M S E) := λ A B k m s,
  match m s with
  | (s, Ok a) => k a s
  | (s, Err e) => (s, Err e)
  end.

Section ops.
Context {S E : Type}.

Definition gets {A} (f : S → A) : M S E A := λ s, (s, Ok (f s)).
Definition modify (f : S → S) : M S E () := λ s, (f s, Ok ()).
Definition throw {A} (e : E) : M S E A := λ s, (s, Err e).
Definition lift {A} (r : result E A) : M S E A := λ s, (s, r).
(** [match m { Err(e) if p(e) => handler, other => other }]. *)
Definition catch {A} (m : M S E A) (p : E → bool) (handler : M S E A) : M S E A := λ s,
  match m s with
  | (s, Err e) => if p e then handler s else (s, Err e)
  | r => r
  end.
Definition recover {A} (m : M S E A) (f : E → E) : M S E A := λ s,
  match m s with
  | (s, Ok a) => (s, Ok a)
  | (s, Err e) => (s, Err (f e))
  end.

(** [for x in l { f(x)?; }]. *)
Fixpoint each_m {A} (f : A → M S E ()) (l : list A) : M S E () :=
  match l with
  | [] => mret ()
  | a :: l => _ ← f a; each_m f l
  end.

(** [for x in l { b = f(b, x)?; }]. *)
Fixpoint fold_m {A B} (f : B → A → M S E B) (b : B) (l : list A) : M S E B :=
  match l with
  | [] => mret b
  | a :: l => b ← f b a; fold_m f b l
  end.

(** ** Reasoning

    Every computation of the resolver only extends its state: [steps I R P m Q]
    says that from a state with the invariant [I] and the precondition [P] the
    computation keeps [I], moves along [R], and establishes [Q] of the final
    state and the result, error or not. *)

(** One relation for every step: [R] is reflexive, transitive and carries the
    invariant. *)
Context (I : S → Prop) (R : S → S → Prop).
Context (R_refl : ∀ s, R s s) (R_trans : ∀ a b c, R a b → R b c → R a c).

Definition steps {A} (P : S → Prop) (m : M S E A) (Q : S → result E A → Prop) : Prop :=
  ∀ s, I s → P s → I (m s).1 ∧ R s (m s).1 ∧ Q (m s).1 (m s).2.

Lemma steps_ret {A} (P : S → Prop) (a : A) (Q : S → result E A → Prop) :
  (∀ s, I s → P s → Q s (Ok a)) → steps P (mret a) Q.
Proof using R_refl. intros H s Hi Hp. simpl. auto. Qed.

Lemma steps_bind {A B} (P : S → Prop) (m : M S E A) (k : A → M S E B)
    (Q : S → result E A → Prop) (Q' : S → result E B → Prop) :
  steps P m Q →
  (∀ a, steps (λ s, Q s (Ok a)) (k a) Q') →
  (∀ s e, I s → Q s (Err e) → Q' s (Err e)) →
  steps P (m ≫= k) Q'.
Proof using R_trans.
  intros Hm Hk He s Hi Hp. destruct (Hm s Hi Hp) as (Hi1 & Hr1 & Hq1).
  unfold mbind, M_bind. destruct (m s) as [s1 [a|e]]; simpl in *.
  - destruct (Hk a s1 Hi1 Hq1) as (Hi2 & Hr2 & Hq2). eauto.
  - eauto.
Qed.

Lemma steps_gets {A} (P : S → Prop) (f : S → A) (Q : S → result E A → Prop) :
  (∀ s, I s → P s → Q s (Ok (f s))) → steps P (gets f) Q.
Proof using R_refl. intros H s Hi Hp. simpl. auto. Qed.

Lemma steps_throw {A} (P : S → Prop) (e : E) (Q : S → result E A → Prop) :
  (∀ s, I s → P s → Q s (Err e)) → steps P (throw e) Q.
Proof using R_refl. intros H s Hi Hp. simpl. auto. Qed.

Lemma steps_lift {A} (P : S → Prop) (r : result E A) (Q : S → result E A → Prop) :
  (∀ s, I s → P s → Q s r) → steps P (lift r) Q.
Proof using R_refl. intros H s Hi Hp. simpl. auto. Qed.

Lemma steps_modify (P : S → Prop) (f : S → S) (Q : S → result E () → Prop) :
  (∀ s, I s → P s → I (f s) ∧ R s (f s) ∧ Q (f s) (Ok ())) → steps P (modify f) Q.
Proof using Type. intros H s Hi Hp. simpl. auto. Qed.

Lemma steps_catch {A} (P P' : S → Prop) (m : M S E A) (p : E → bool) (handler : M S E A)
    (Q : S → result E A → Prop) :
  steps P m (λ s r, match r with
                    | Ok _ => Q s r
                    | Err e => if p e then P' s else Q s r
                    end) →
  steps P' handler Q → steps P (catch m p handler) Q.
Proof using R_trans.
  intros Hm Hh s Hi Hp. destruct (Hm s Hi Hp) as (Hi1 & Hr1 & Hq1). unfold catch.
  destruct (m s) as [s1 [a|e]]; simpl in *; [done|].
  destruct (p e); [|done]. destruct (Hh s1 Hi1 Hq1) as (? & ? & ?). eauto.
Qed.

(** Reading the state: what follows knows the value that was read. *)
Lemma steps_read {A B} (P : S → Prop) (f : S → A) (k : A → M S E B)
    (Q : S → result E B → Prop) :
  (∀ a, steps (λ s, P s ∧ f s = a) (k a) Q) → steps P (gets f ≫= k) Q.
Proof using Type. intros Hk s Hi Hp. apply (Hk (f s) s Hi). done. Qed.

Lemma steps_weaken {A} (P P' : S → Prop) (m : M S E A) (Q Q' : S → result E A → Prop) :
  steps P m Q → (∀ s, I s → P' s → P s) → (∀ s r, I s → Q s r → Q' s r) → steps P' m Q'.
Proof using Type. intros Hm HP HQ s Hi Hp. destruct (Hm s Hi (HP s Hi Hp)) as (? & ? & ?). auto. Qed.

(** A precondition stable under [R] holds afterwards as well. *)
Lemma steps_frame {A} (P F : S → Prop) (m : M S E A) (Q : S → result E A → Prop) :
  (∀ s s', R s s' → F s → F s') → steps P m Q →
  steps (λ s, P s ∧ F s) m (λ s r, Q s r ∧ F s).
Proof using Type. intros HF Hm s Hi [Hp Hf]. destruct (Hm s Hi Hp) as (? & ? & ?). eauto. Qed.

Lemma steps_each {A} (F : S → Prop) (f : A → M S E ()) (l : list A)
    (Qe : S → result E () → Prop) :
  (∀ s s', R s s' → F s → F s') →
  (∀ a, a ∈ l → steps F (f a) (λ s r, match r with Ok _ => True | Err _ => Qe s r end)) →
  steps F (each_m f l) (λ s r, match r with Ok _ => F s | Err _ => Qe s r end).
Proof using R_refl R_trans.
  intros HF. induction l as [|a l IH]; intros Hf; simpl.
  - by apply steps_ret.
  - eapply steps_bind.
    + apply (steps_weaken (λ s, F s ∧ F s) F (f a)
        (λ s r, (match r with Ok _ => True | Err _ => Qe s r end) ∧ F s)).
      * apply steps_frame; [done|]. apply Hf. by left.
      * done.
      * intros s r _ H. exact H.
    + intros []. eapply steps_weaken; [apply IH| |].
      * intros b Hb. apply Hf. by right.
      * by intros s _ [_ ?].
      * done.
    + by intros s e _ [? _].
Qed.

Lemma steps_fold {A B} (F : S → Prop) (f : B → A → M S E B) (l : list A) b (Qe : E → Prop) :
  (∀ b a, a ∈ l → steps F (f b a) (λ s r, match r with Ok _ => F s | Err e => Qe e end)) →
  steps F (fold_m f b l) (λ s r, match r with Ok _ => F s | Err e => Qe e end).
Proof using R_refl R_trans.
  revert b. induction l as [|a l IH]; intros b Hf; simpl; [by apply steps_ret|].
  eapply steps_bind; [apply Hf; by left| |done].
  intros b'. apply IH. intros b'' a' Ha. apply Hf. by right.
Qed.
End ops.


(** ** Running and inverting *)

Lemma mret_bind {S E A B} (a : A) (k : A → M S E B) s : (mret a ≫= k) s = k a s.
Proof. done. Qed.
Lemma bind_run {S E A B} (m : M S E A) (k : A → M S E B) s s' a :
  m s = (s', Ok a) → (m ≫= k) s = k a s'.
Proof. unfold mbind, M_bind. by intros ->. Qed.
Lemma lift_bind {S E A B} (r : result E A) (k : A → M S E B) s :
  (lift r ≫= k) s = match r with Ok a => k a s | Err e => (s, Err e) end.
Proof. by destruct r. Qed.
Lemma bind_Ok_inv {S E A B} (m : M S E A) (k : A → M S E B) s s' b :
  (m ≫= k) s = (s', Ok b) → ∃ s1 a, m s = (s1, Ok a) ∧ k a s1 = (s', Ok b).
Proof. unfold mbind, M_bind. destruct (m s) as [s1 [a|e]]; [|done]. eauto. Qed.
Lemma lift_Ok {S E A} (r : result E A) (s s' : S) a : lift r s = (s', Ok a) → r = Ok a ∧ s' = s.
Proof. unfold lift. by intros [= -> ->]. Qed.
Lemma bind_Err_inv {S E A B} (m : M S E A) (k : A → M S E B) s s' e :
  (m ≫= k) s = (s', Err e) → m s = (s', Err e) ∨ ∃ s1 a, m s = (s1, Ok a) ∧ k a s1 = (s', Err e).
Proof. unfold mbind, M_bind. destruct (m s) as [s1 [a|e']]; [eauto|]. intros [= <- <-]. by left. Qed.
Lemma run_Ok {S E A} (m : M S E A) s a : (m s).2 = Ok a → ∃ s', m s = (s', Ok a).
Proof. destruct (m s) as [s' r]. cbn [snd]. intros ->. by exists s'. Qed.
Lemma bind_run_err {S E A B} (m : M S E A) (k : A → M S E B) s s' e :
  m s = (s', Err e) → (m ≫= k) s = (s', Err e).
Proof. unfold mbind, M_bind. by intros ->. Qed.
