(* ===== verification/Str.v ===== *)
(** * Rust [str] operations

    A [str] is its UTF-8 byte sequence.  Every pattern the program searches for
    is ASCII, so searching bytes and searching characters agree; the two places
    where Rust looks at non-ASCII characters ([trim]/[split_whitespace] with
    Unicode white space, [char::is_control]) decode the multi-byte sequences
    explicitly.  [str::cmp] is the byte-wise lexicographic order, which is
    [String.leb]. *)

From S2P Require Export Prelude.
From Stdlib Require Import Ascii.

(** ** Characters *)

Definition code (c : ascii) : N := N_of_ascii c.
Definition in_range (lo hi : N) (c : ascii) : bool := (lo <=? code c)%N && (code c <=? hi)%N.

Definition is_ascii_lowercase (c : ascii) : bool := in_range 97 122 c.
Definition is_ascii_uppercase (c : ascii) : bool := in_range 65 90 c.
Definition is_ascii_digit (c : ascii) : bool := in_range 48 57 c.
Definition is_ascii_alphabetic (c : ascii) : bool :=
  is_ascii_lowercase c || is_ascii_uppercase c.
Definition is_ascii_hexdigit (c : ascii) : bool :=
  is_ascii_digit c || in_range 97 102 c || in_range 65 70 c.

Definition ascii_lower (c : ascii) : ascii :=
  if is_ascii_uppercase c then ascii_of_N (code c + 32) else c.

Definition chr (n : N) : ascii := ascii_of_N n.
Definition dquote : ascii := chr 34.
Definition nul : ascii := chr 0.

Notation ceqb := Ascii.eqb.

Lemma ceqb_eq a b : ceqb a b = true ↔ a = b.
Proof. apply Ascii.eqb_eq. Qed.
Lemma ceqb_neq a b : ceqb a b = false ↔ a ≠ b.
Proof. apply Ascii.eqb_neq. Qed.

(** ** Folds over the bytes *)

Fixpoint all_chars (p : ascii → bool) (s : string) : bool :=
  match s with "" => true | String c s => p c && all_chars p s end.
Fixpoint any_char (p : ascii → bool) (s : string) : bool :=
  match s with "" => false | String c s => p c || any_char p s end.
Fixpoint map_chars (f : ascii → ascii) (s : string) : string :=
  match s with "" => "" | String c s => String (f c) (map_chars f s) end.

Definition is_empty (s : string) : bool := match s with "" => true | _ => false end.
Definition contains_char (c : ascii) : string → bool := any_char (ceqb c).
Definition is_ascii (s : string) : bool := all_chars (λ c, (code c <? 128)%N) s.
Definition to_ascii_lowercase : string → string := map_chars ascii_lower.
Definition replace_char (a b : ascii) : string → string :=
  map_chars (λ c, if ceqb c a then b else c).

Definition strlen (s : string) : nat := String.length s.

Lemma app_nil_l_s (s : string) : "" +:+ s = s.
Proof. done. Qed.
Lemma app_cons_s c (s t : string) : String c s +:+ t = String c (s +:+ t).
Proof. done. Qed.
Lemma app_nil_r_s (s : string) : s +:+ "" = s.
Proof. induction s as [|c s IH]; [done|]. by rewrite app_cons_s, IH. Qed.
Lemma app_assoc_s (a b c : string) : a +:+ (b +:+ c) = (a +:+ b) +:+ c.
Proof. induction a as [|x a IH]; [done|]. by rewrite !app_cons_s, IH. Qed.
Lemma length_app_s (a b : string) :
  String.length (a +:+ b) = String.length a + String.length b.
Proof. induction a as [|x a IH]; [done|]. rewrite app_cons_s. simpl. by rewrite IH. Qed.
Lemma app_eq_nil_s (a b : string) : a +:+ b = "" ↔ a = "" ∧ b = "".
Proof. destruct a; split; try naive_solver. Qed.

Lemma is_empty_true s : is_empty s = true ↔ s = "".
Proof. by destruct s. Qed.
Lemma is_empty_false s : is_empty s = false ↔ s ≠ "".
Proof. by destruct s. Qed.
Lemma is_empty_app a b : is_empty (a +:+ b) = is_empty a && is_empty b.
Proof. by destruct a. Qed.

Lemma all_chars_app p a b : all_chars p (a +:+ b) = all_chars p a && all_chars p b.
Proof.
  induction a as [|c a IH]; [done|]. rewrite app_cons_s. simpl. rewrite IH.
  by rewrite andb_assoc.
Qed.
Lemma any_char_app p a b : any_char p (a +:+ b) = any_char p a || any_char p b.
Proof.
  induction a as [|c a IH]; [done|]. rewrite app_cons_s. simpl. rewrite IH.
  by rewrite orb_assoc.
Qed.
Lemma any_char_false p s : any_char p s = false ↔ all_chars (λ c, negb (p c)) s = true.
Proof.
  induction s as [|c s IH]; [done|]. simpl.
  rewrite orb_false_iff, andb_true_iff, negb_true_iff, IH. done.
Qed.
Lemma all_chars_impl (p q : ascii → bool) s :
  (∀ c, p c = true → q c = true) → all_chars p s = true → all_chars q s = true.
Proof.
  intros H. induction s as [|c s IH]; [done|]. simpl.
  rewrite !andb_true_iff. naive_solver.
Qed.
Lemma contains_char_app c a b :
  contains_char c (a +:+ b) = contains_char c a || contains_char c b.
Proof. apply any_char_app. Qed.
Lemma contains_char_all (p : ascii → bool) c s :
  p c = false → all_chars p s = true → contains_char c s = false.
Proof.
  intros Hc. induction s as [|d s IH]; [done|]. simpl.
  intros [Hd Hs]%andb_true_iff. unfold contains_char in *. simpl.
  rewrite (IH Hs), orb_false_r. apply ceqb_neq. intros ->. congruence.
Qed.

(** ** Prefixes and suffixes *)

Fixpoint strip_prefix (p s : string) : option string :=
  match p, s with
  | "", _ => Some s
  | String a p, String b s => if ceqb a b then strip_prefix p s else None
  | _, _ => None
  end.
Definition starts_with (p s : string) : bool := bool_decide (is_Some (strip_prefix p s)).
Definition starts_with_char (c : ascii) (s : string) : bool :=
  match s with String d _ => ceqb c d | "" => false end.

Fixpoint strip_suffix (p s : string) : option string :=
  if bool_decide (s = p) then Some ""
  else match s with "" => None | String c s => String c <$> strip_suffix p s end.
Definition ends_with (p s : string) : bool := bool_decide (is_Some (strip_suffix p s)).

Lemma strip_prefix_Some p s r : strip_prefix p s = Some r ↔ s = p +:+ r.
Proof.
  revert s. induction p as [|a p IH]; intros s; simpl; [naive_solver|].
  destruct s as [|b s]; [done|]. rewrite app_cons_s.
  destruct (ceqb a b) eqn:Hab.
  - apply ceqb_eq in Hab as ->. rewrite IH. naive_solver.
  - apply ceqb_neq in Hab. naive_solver.
Qed.
Lemma strip_prefix_app p r : strip_prefix p (p +:+ r) = Some r.
Proof. by apply strip_prefix_Some. Qed.
Lemma starts_with_true p s : starts_with p s = true ↔ ∃ r, s = p +:+ r.
Proof.
  unfold starts_with. rewrite bool_decide_eq_true. split.
  - intros [r Hr]. exists r. by apply strip_prefix_Some.
  - intros [r ->]. exists r. apply strip_prefix_app.
Qed.
Lemma starts_with_app p r : starts_with p (p +:+ r) = true.
Proof. apply starts_with_true. eauto. Qed.

Lemma strip_suffix_Some p s r : strip_suffix p s = Some r ↔ s = r +:+ p.
Proof.
  revert r. induction s as [|c s IH]; intros r; simpl; case_bool_decide as Hp.
  - subst. split; [intros [= <-]; done|]. by intros [-> _]%symmetry%app_eq_nil_s.
  - split; [done|]. intros [-> ->]%symmetry%app_eq_nil_s. done.
  - subst p. split; [intros [= <-]; done|]. intros H. destruct r as [|d r]; [done|].
    exfalso. apply (f_equal String.length) in H. rewrite app_cons_s in H. simpl in H.
    rewrite length_app_s in H. simpl in H. lia.
  - split.
    + intros (r' & Hr' & ->)%fmap_Some. apply IH in Hr' as ->. done.
    + destruct r as [|d r]; [naive_solver|]. rewrite app_cons_s. intros [= -> Hr].
      apply fmap_Some. exists r. split; [by apply IH|done].
Qed.
Lemma ends_with_true p s : ends_with p s = true ↔ ∃ r, s = r +:+ p.
Proof.
  unfold ends_with. rewrite bool_decide_eq_true. split.
  - intros [r Hr]. exists r. by apply strip_suffix_Some.
  - intros [r ->]. exists r. by apply strip_suffix_Some.
Qed.

(** ** Searching *)

(** [str::split_once], [str::rsplit_once] with a non-empty string pattern. *)
Fixpoint split_once (pat s : string) : option (string * string) :=
  match strip_prefix pat s with
  | Some r => Some ("", r)
  | None => match s with
            | "" => None
            | String c s => (λ ab, (String c ab.1, ab.2)) <$> split_once pat s
            end
  end.

Fixpoint rsplit_once (pat s : string) : option (string * string) :=
  match s with
  | "" => (λ r, ("", r)) <$> strip_prefix pat ""
  | String c s' =>
      match rsplit_once pat s' with
      | Some ab => Some (String c ab.1, ab.2)
      | None => (λ r, ("", r)) <$> strip_prefix pat s
      end
  end.

Definition contains_str (pat s : string) : bool := bool_decide (is_Some (split_once pat s)).

Lemma split_once_Some pat s a b : split_once pat s = Some (a, b) → s = a +:+ pat +:+ b.
Proof.
  revert a b. induction s as [|c s IH]; intros a b; simpl.
  - destruct (strip_prefix pat "") eqn:Hp; [|done]. intros [= <- <-].
    by apply strip_prefix_Some in Hp.
  - destruct (strip_prefix pat (String c s)) eqn:Hp.
    + intros [= <- <-]. by apply strip_prefix_Some in Hp.
    + intros ([a' b'] & Hs & [= -> ->])%fmap_Some. simpl. by rewrite app_cons_s, <- (IH a' b').
Qed.

Lemma rsplit_once_Some pat s a b : rsplit_once pat s = Some (a, b) → s = a +:+ pat +:+ b.
Proof.
  revert a b. induction s as [|c s IH]; intros a b; simpl.
  - intros (r & Hr & [= -> ->])%fmap_Some. by apply strip_prefix_Some in Hr.
  - destruct (rsplit_once pat s) as [[a' b']|] eqn:Hs.
    + intros [= <- <-]. simpl. by rewrite app_cons_s, <- (IH a' b').
    + intros (r & Hr & [= -> ->])%fmap_Some. by apply strip_prefix_Some in Hr.
Qed.

(** The split point is the rightmost occurrence. *)
Lemma rsplit_once_app pat a s b c :
  rsplit_once pat s = Some (b, c) → rsplit_once pat (a +:+ s) = Some (a +:+ b, c).
Proof.
  intros Hs. induction a as [|x a IH]; [done|]. rewrite app_cons_s. simpl. by rewrite IH.
Qed.

(** ** Splitting on one character *)

Fixpoint split_char (c : ascii) (s : string) : list string :=
  match s with
  | "" => [""]
  | String d s =>
      if ceqb c d then "" :: split_char c s
      else match split_char c s with
           | h :: t => String d h :: t
           | [] => [String d ""]
           end
  end.

Fixpoint join (sep : string) (l : list string) : string :=
  match l with
  | [] => ""
  | [x] => x
  | x :: l => x +:+ sep +:+ join sep l
  end.

Lemma split_char_nonempty c s : split_char c s ≠ [].
Proof. destruct s; simpl; [done|]. destruct (ceqb _ _); [done|]. by destruct (split_char _ _). Qed.

Lemma split_char_none c s : contains_char c s = false → split_char c s = [s].
Proof.
  unfold contains_char. induction s as [|d s IH]; [done|]. simpl.
  intros [Hd Hs]%orb_false_iff. by rewrite Hd, (IH Hs).
Qed.

Lemma split_char_app c a b :
  contains_char c a = false → split_char c (a +:+ String c b) = a :: split_char c b.
Proof.
  unfold contains_char. induction a as [|d a IH]; intros Ha.
  - rewrite app_nil_l_s. simpl. by rewrite Ascii.eqb_refl.
  - rewrite app_cons_s. simpl in *. apply orb_false_iff in Ha as [Hd Ha].
    by rewrite Hd, (IH Ha).
Qed.

Lemma join_split c s : join (String c "") (split_char c s) = s.
Proof.
  induction s as [|d s IH]; [done|]. simpl.
  pose proof (split_char_nonempty c s) as Hne.
  destruct (ceqb c d) eqn:Hc.
  - apply ceqb_eq in Hc as ->. destruct (split_char d s) as [|h t] eqn:Hs; [done|].
    simpl in *. by rewrite IH.
  - destruct (split_char c s) as [|h t] eqn:Hs; [done|].
    destruct t; simpl in *; rewrite <- IH; [done|]. by rewrite app_cons_s.
Qed.

Lemma split_join c l :
  l ≠ [] → Forall (λ x, contains_char c x = false) l →
  split_char c (join (String c "") l) = l.
Proof.
  intros Hne Hl. induction Hl as [|x l Hx Hl IH]; [done|]. destruct l as [|y l].
  - by apply split_char_none.
  - change (join _ (x :: y :: l)) with (x +:+ String c "" +:+ join (String c "") (y :: l)).
    rewrite app_cons_s, app_nil_l_s, split_char_app by done. by rewrite IH.
Qed.

Lemma split_char_pieces c s : Forall (λ x, contains_char c x = false) (split_char c s).
Proof.
  unfold contains_char. induction s as [|d s IH]; simpl; [by repeat constructor|].
  destruct (ceqb c d) eqn:Hc; [by constructor|].
  destruct (split_char c s) as [|h t]; [by repeat constructor; simpl; rewrite Hc|].
  apply Forall_cons in IH as [Hh Ht]. constructor; [|done]. simpl. by rewrite Hc.
Qed.

(** Splitting a concatenation: the pieces meet at the boundary. *)
Lemma split_char_app_sep c a b :
  split_char c (a +:+ String c b) = split_char c a ++ split_char c b.
Proof.
  induction a as [|d a IH].
  - rewrite app_nil_l_s. simpl. by rewrite Ascii.eqb_refl.
  - rewrite app_cons_s. simpl. destruct (ceqb c d); [by rewrite IH|].
    rewrite IH. pose proof (split_char_nonempty c a). by destruct (split_char c a).
Qed.

(** ** White space

    [char::is_whitespace] is the Unicode property White_Space: U+0009-U+000D,
    U+0020, U+0085, U+00A0, U+1680, U+2000-U+200A, U+2028, U+2029, U+202F,
    U+205F and U+3000, here in UTF-8. *)

Definition ws1 (a : ascii) : bool := in_range 9 13 a || ceqb a " ".
Definition ws2 (a b : ascii) : bool :=
  (code a =? 194)%N && ((code b =? 133)%N || (code b =? 160)%N).
Definition ws3 (a b c : ascii) : bool :=
  ((code a =? 225)%N && (code b =? 154)%N && (code c =? 128)%N)
  || ((code a =? 226)%N && (code b =? 128)%N
      && (in_range 128 138 c || (code c =? 168)%N || (code c =? 169)%N || (code c =? 175)%N))
  || ((code a =? 226)%N && (code b =? 129)%N && (code c =? 159)%N)
  || ((code a =? 227)%N && (code b =? 128)%N && (code c =? 128)%N).

(** One leading white-space character, if there is one. *)
Fixpoint trim_start (s : string) : string :=
  match s with
  | "" => ""
  | String a s1 =>
      if ws1 a then trim_start s1
      else match s1 with
           | "" => s
           | String b s2 =>
               if ws2 a b then trim_start s2
               else match s2 with
                    | "" => s
                    | String c s3 => if ws3 a b c then trim_start s3 else s
                    end
           end
  end.

Fixpoint trim_end (s : string) : string :=
  match s with
  | "" => ""
  | String c s' => if is_empty (trim_start s) then "" else String c (trim_end s')
  end.

Definition trim (s : string) : string := trim_end (trim_start s).

Definition newline : ascii := chr 10.
Definition carriage_return : ascii := chr 13.

(** [str::split_inclusive(c)]: every piece but the last ends in [c]. *)
Fixpoint split_inclusive (c : ascii) (s : string) : list string :=
  match s with
  | "" => []
  | String a s =>
      if ceqb a c then String a "" :: split_inclusive c s
      else match split_inclusive c s with
           | [] => [String a ""]
           | x :: xs => String a x :: xs
           end
  end.

(** [str::lines]: the end of a line is a newline, with one carriage return
    before it; an unterminated last line keeps its carriage return. *)
Definition line_text (l : string) : string :=
  match strip_suffix (String newline "") l with
  | Some l => default l (strip_suffix (String carriage_return "") l)
  | None => l
  end.
Definition lines (s : string) : list string := line_text <$> split_inclusive newline s.

Fixpoint split_ws_go (cur s : string) : list string :=
  let emit := if is_empty cur then [] else [cur] in
  match s with
  | "" => emit
  | String a s1 =>
      if ws1 a then emit ++ split_ws_go "" s1
      else match s1 with
           | "" => split_ws_go (cur +:+ String a "") s1
           | String b s2 =>
               if ws2 a b then emit ++ split_ws_go "" s2
               else match s2 with
                    | "" => split_ws_go (cur +:+ String a "") s1
                    | String c s3 =>
                        if ws3 a b c then emit ++ split_ws_go "" s3
                        else split_ws_go (cur +:+ String a "") s1
                    end
           end
  end.
Definition split_whitespace (s : string) : list string := split_ws_go "" s.

(** [char::is_control]: U+0000-U+001F, U+007F and U+0080-U+009F. *)
Fixpoint has_control (s : string) : bool :=
  match s with
  | "" => false
  | String a s' =>
      (code a <? 32)%N || (code a =? 127)%N
      || match s' with
         | String b _ => (code a =? 194)%N && in_range 128 159 b
         | "" => false
         end
      || has_control s'
  end.

(** [trim_end_matches], [trim_start_matches] with a character class. *)
Fixpoint trim_end_matches (p : ascii → bool) (s : string) : string :=
  match s with
  | "" => ""
  | String c s => let t := trim_end_matches p s in
                  if is_empty t && p c then "" else String c t
  end.
Fixpoint trim_start_matches (p : ascii → bool) (s : string) : string :=
  match s with
  | "" => ""
  | String c s' => if p c then trim_start_matches p s' else s
  end.

(** Printable ASCII without the space. *)
Definition is_graph (c : ascii) : bool := in_range 33 126 c.

Lemma in_range_true lo hi c : in_range lo hi c = true ↔ (lo ≤ code c ≤ hi)%N.
Proof. unfold in_range. rewrite andb_true_iff, N.leb_le, N.leb_le. done. Qed.

Lemma ws1_space c : ws1 c = true ↔ (9 ≤ code c ≤ 13)%N ∨ c = " "%char.
Proof. unfold ws1. by rewrite orb_true_iff, in_range_true, ceqb_eq. Qed.

Lemma graph_not_ws1 c : is_graph c = true → ws1 c = false.
Proof.
  unfold is_graph. rewrite in_range_true. intros Hc. apply not_true_is_false.
  rewrite ws1_space. intros [? | ->]; [lia|]. unfold code in Hc. simpl in Hc. lia.
Qed.

Lemma graph_not_ws2 a b : is_graph a = true → ws2 a b = false.
Proof.
  unfold is_graph, ws2. rewrite in_range_true. intros Ha.
  apply andb_false_iff. left. apply N.eqb_neq. lia.
Qed.

Lemma graph_not_ws3 a b c : is_graph a = true → ws3 a b c = false.
Proof.
  unfold is_graph, ws3. rewrite in_range_true. intros Ha.
  assert ((code a =? 225)%N = false) as -> by (apply N.eqb_neq; lia).
  assert ((code a =? 226)%N = false) as -> by (apply N.eqb_neq; lia).
  assert ((code a =? 227)%N = false) as -> by (apply N.eqb_neq; lia). done.
Qed.

Lemma trim_start_graph c s : is_graph c = true → trim_start (String c s) = String c s.
Proof.
  intros Hc. simpl. rewrite graph_not_ws1 by done. destruct s as [|b s]; [done|].
  rewrite graph_not_ws2 by done. destruct s as [|d s]; [done|].
  by rewrite graph_not_ws3.
Qed.

Lemma trim_end_graph s : all_chars is_graph s = true → trim_end s = s.
Proof.
  induction s as [|c s IH]; [done|]. simpl all_chars. intros [Hc Hs]%andb_true_iff.
  cbn [trim_end]. rewrite (trim_start_graph c s Hc). simpl. by rewrite IH.
Qed.

Lemma trim_graph s : all_chars is_graph s = true → trim s = s.
Proof.
  intros Hs. unfold trim. destruct s as [|c s]; [done|].
  rewrite trim_start_graph; [by apply trim_end_graph|].
  simpl in Hs. by apply andb_true_iff in Hs as [? _].
Qed.

Lemma trim_end_matches_spec p s :
  ∃ t, s = trim_end_matches p s +:+ t ∧ all_chars p t = true.
Proof.
  induction s as [|c s (t & IH & Ht)]; [by exists ""|]. simpl.
  destruct (is_empty (trim_end_matches p s)) eqn:He; simpl.
  - apply is_empty_true in He. rewrite He, app_nil_l_s in IH. subst t.
    destruct (p c) eqn:Hc.
    + exists (String c s). by rewrite app_nil_l_s; simpl; rewrite Hc.
    + exists s. by rewrite He, app_cons_s, app_nil_l_s.
  - exists t. by rewrite app_cons_s, <- IH.
Qed.

Lemma trim_end_matches_idem p s :
  trim_end_matches p (trim_end_matches p s) = trim_end_matches p s.
Proof.
  induction s as [|c s IH]; [done|]. simpl.
  destruct (is_empty (trim_end_matches p s) && p c) eqn:He; [done|].
  simpl. by rewrite IH, He.
Qed.

(** The trimmed string does not end in a trimmed character. *)
Lemma trim_end_matches_last p s r c :
  trim_end_matches p s = r +:+ String c "" → p c = false.
Proof.
  intros Hs. assert (trim_end_matches p (r +:+ String c "") = r +:+ String c "") as Hi.
  { rewrite <- Hs. apply trim_end_matches_idem. }
  clear Hs. induction r as [|d r IH].
  - rewrite app_nil_l_s in Hi. simpl in Hi. by destruct (p c).
  - apply IH. rewrite app_cons_s in Hi. simpl in Hi.
    destruct (is_empty _ && p d); [done|]. by injection Hi.
Qed.

Lemma has_control_app_l a b : has_control (a +:+ b) = false → has_control a = false.
Proof.
  induction a as [|c a IH]; [done|]. rewrite app_cons_s. simpl.
  intros [[Hc H2]%orb_false_iff Hab]%orb_false_iff.
  rewrite (IH Hab), Hc, orb_false_r. destruct a as [|d a]; [done|].
  rewrite app_cons_s in H2. by rewrite H2.
Qed.

(** ** Decimal numerals *)

(** [str::parse::<u64>] on a non-empty all-digit string (an optional [+] sign is
    also accepted); [None] on anything else or on overflow of [bits] bits. *)
Fixpoint parse_digits (bits acc : N) (s : string) : option N :=
  match s with
  | "" => Some acc
  | String c s =>
      if is_ascii_digit c then
        let acc := (acc * 10 + (code c - 48))%N in
        if (acc <? 2 ^ bits)%N then parse_digits bits acc s else None
      else None
  end.
Definition parse_uint (bits : N) (s : string) : option N :=
  match s with
  | "" => None
  | String "+" "" => None
  | String "+" s => parse_digits bits 0 s
  | _ => parse_digits bits 0 s
  end.

Lemma parse_digits_bound bits s acc n :
  (acc < 2 ^ bits)%N → parse_digits bits acc s = Some n → (n < 2 ^ bits)%N.
Proof.
  revert acc. induction s as [|c s IH]; intros acc Hacc; cbn [parse_digits].
  - by intros [= <-].
  - destruct (is_ascii_digit c); [|done]. destruct (_ <? _)%N eqn:Hlt; [|done].
    apply IH. by apply N.ltb_lt.
Qed.

Lemma parse_uint_bound bits s n : parse_uint bits s = Some n → (n < 2 ^ bits)%N.
Proof.
  assert (0 < 2 ^ bits)%N by (apply N.neq_0_lt_0, N.pow_nonzero; lia).
  unfold parse_uint. destruct s as [|c s]; [done|].
  intros Hn. assert (∃ t, parse_digits bits 0 t = Some n) as [t Ht].
  { repeat case_match; simplify_eq; eauto. }
  by eapply parse_digits_bound.
Qed.

(** ** Ordered maps

    [BTreeMap<String, A>] is [gmap string A]; [bt_list] is its iteration order
    (ascending keys). *)

Definition bt_list {A} (m : gmap string A) : list (string * A) :=
  sort_by (λ x y, String.leb x.1 y.1) (map_to_list m).
Definition bt_keys {A} (m : gmap string A) : list string := (bt_list m).*1.
Definition bt_values {A} (m : gmap string A) : list A := (bt_list m).*2.

Definition str_lt (a b : string) : Prop := String.ltb a b = true.

Lemma leb_total_s a b : String.leb a b = true ∨ String.leb b a = true.
Proof. apply String.leb_total. Qed.
Lemma leb_trans_s a b c :
  String.leb a b = true → String.leb b c = true → String.leb a c = true.
Proof.
  intros H1%Is_true_true H2%Is_true_true. apply Is_true_true.
  change (String.le a c). by transitivity b.
Qed.
Lemma leb_antisym_s a b : String.leb a b = true → String.leb b a = true → a = b.
Proof. apply String.leb_antisym. Qed.
Lemma leb_refl_s a : String.leb a a = true.
Proof. by destruct (leb_total_s a a). Qed.

Lemma ltb_leb a b : String.ltb a b = true ↔ String.leb a b = true ∧ a ≠ b.
Proof.
  unfold String.ltb, String.leb. destruct (String.compare a b) eqn:Hc.
  - apply String.compare_eq_iff in Hc. naive_solver.
  - split; [|done]. intros _. split; [done|]. intros ->.
    pose proof (String.compare_antisym b b) as Ha. rewrite Hc in Ha. discriminate.
  - naive_solver.
Qed.

Lemma str_lt_irrefl a : ¬ str_lt a a.
Proof. unfold str_lt. rewrite ltb_leb. naive_solver. Qed.
Lemma str_lt_trans a b c : str_lt a b → str_lt b c → str_lt a c.
Proof.
  unfold str_lt. rewrite !ltb_leb. intros [H1 N1] [H2 N2]. split.
  - by eapply leb_trans_s.
  - intros ->. apply N1. by apply leb_antisym_s.
Qed.
Lemma leb_ltb a b : String.leb a b = negb (String.ltb b a).
Proof.
  destruct (String.ltb b a) eqn:Hba; simpl.
  - apply ltb_leb in Hba as [Hba Hne]. apply not_true_is_false. intros Hab.
    apply Hne. by apply leb_antisym_s.
  - apply not_true_iff_false in Hba. rewrite ltb_leb in Hba.
    destruct (leb_total_s a b) as [|Hle]; [done|].
    destruct (decide (b = a)) as [->|]; [apply leb_refl_s|]. naive_solver.
Qed.

Lemma str_lt_NoDup l : StronglySorted str_lt l → NoDup l.
Proof.
  induction 1 as [|k ks _ IH Hk]; constructor; [|done].
  intros Hin. rewrite Forall_forall in Hk. by apply (str_lt_irrefl k), Hk.
Qed.
Lemma sorted_sublist {A} (R : A → A → Prop) l1 l2 :
  sublist l1 l2 → StronglySorted R l2 → StronglySorted R l1.
Proof.
  induction 1 as [|x l1 l2 Hl IH|x l1 l2 Hl IH]; [done|..]; intros [Hs Hx]%StronglySorted_inv; [|auto].
  constructor; [auto|]. rewrite Forall_forall in *. intros y Hy. apply Hx. by eapply elem_of_sublist.
Qed.

Section btree.
Context {A : Type}.
Implicit Types m : gmap string A.

Lemma elem_of_bt_list m k v : (k, v) ∈ bt_list m ↔ m !! k = Some v.
Proof. unfold bt_list. by rewrite elem_of_sort_by, elem_of_map_to_list. Qed.

Lemma bt_list_pair_sorted m :
  StronglySorted (λ x y, String.leb x.1 y.1 = true) (bt_list m).
Proof.
  apply (sort_by_sorted (λ x y : string * A, String.leb x.1 y.1)).
  - intros. apply leb_total_s.
  - intros x y z. apply leb_trans_s.
Qed.

Lemma bt_keys_NoDup m : NoDup (bt_keys m).
Proof.
  unfold bt_keys, bt_list. rewrite sort_by_perm. apply NoDup_fst_map_to_list.
Qed.

Lemma elem_of_bt_keys m k : k ∈ bt_keys m ↔ is_Some (m !! k).
Proof.
  unfold bt_keys. rewrite list_elem_of_fmap. split.
  - intros ([k' v] & -> & Hkv). apply elem_of_bt_list in Hkv. by eexists.
  - intros [v Hv]. exists (k, v). by rewrite elem_of_bt_list.
Qed.

Lemma bt_keys_sorted m : StronglySorted str_lt (bt_keys m).
Proof.
  pose proof (bt_list_pair_sorted m) as Hs. pose proof (bt_keys_NoDup m) as Hn.
  unfold bt_keys in *. apply StronglySorted_map. revert Hn.
  induction Hs as [|x l Hl IH Hx]; [constructor|]. csimpl.
  intros [Hnx Hnd]%NoDup_cons. constructor; [by apply IH|].
  rewrite Forall_forall in *. intros y Hy. unfold str_lt. apply ltb_leb. split.
  - by apply Hx.
  - intros Heq. apply Hnx. apply list_elem_of_fmap. exists y. by rewrite <- Heq.
Qed.

Lemma bt_list_empty : bt_list (∅ : gmap string A) = [].
Proof. done. Qed.

(** The iteration order is the only one with these entries. *)
Lemma bt_list_unique m l :
  StronglySorted str_lt l.*1 → (∀ k v, (k, v) ∈ l ↔ m !! k = Some v) → bt_list m = l.
Proof.
  intros Hs Hl. pose proof (str_lt_NoDup _ Hs) as Hnd.
  assert (map_to_list m ≡ₚ l) as Hp.
  { apply NoDup_Permutation; [apply NoDup_map_to_list|by eapply NoDup_fmap_1|].
    intros [k v]. by rewrite elem_of_map_to_list, Hl. }
  unfold bt_list. rewrite (sort_by_unique (λ x y : string * A, String.leb x.1 y.1)
    (λ x y, leb_total_s x.1 y.1) (λ x y z, leb_trans_s x.1 y.1 z.1) fst _ l).
  - apply sort_by_id. clear -Hs. induction l as [|x l IH]; [constructor|]. csimpl in Hs.
    apply StronglySorted_inv in Hs as [Hs Hx]. constructor; [by apply IH|].
    rewrite Forall_fmap in Hx. eapply Forall_impl; [exact Hx|]. intros y Hy.
    by apply ltb_leb in Hy as [? _].
  - intros x y. apply leb_antisym_s.
  - exact Hp.
  - by rewrite Hp.
Qed.

(** [BTreeMap::len]. *)
Lemma length_bt_list m : length (bt_list m) = size m.
Proof. unfold bt_list. by rewrite length_sort_by, length_map_to_list. Qed.
End btree.

Lemma bt_list_fmap {A B} (f : A → B) (m : gmap string A) :
  bt_list (f <$> m) = (λ kv, (kv.1, f kv.2)) <$> bt_list m.
Proof.
  apply bt_list_unique.
  - rewrite <- list_fmap_compose. apply (bt_keys_sorted m).
  - intros k v. rewrite list_elem_of_fmap, lookup_fmap, fmap_Some. split.
    + intros ([k' a] & [= -> ->] & Ha%elem_of_bt_list). by exists a.
    + intros (a & Ha & ->). exists (k, a). by rewrite elem_of_bt_list.
Qed.

(** Insertions of distinct keys in a row. *)
Lemma foldl_insert_lookup {A} (l : list (string * A)) (m : gmap string A) k v :
  NoDup l.*1 →
  foldl (λ m kv, <[kv.1 := kv.2]> m) m l !! k = Some v ↔ (k, v) ∈ l ∨ k ∉ l.*1 ∧ m !! k = Some v.
Proof.
  revert m. induction l as [|[k1 v1] l IH]; intros m Hnd; csimpl in *; [set_solver|].
  apply NoDup_cons in Hnd as [Hk1 Hnd]. rewrite IH, lookup_insert_Some by done. simpl. clear IH. split.
  - intros [?|[Hk [[-> ->]|[? ?]]]]; [left; by right|left; by left|].
    right. split; [|done]. by intros [->|?]%elem_of_cons.
  - intros [[[= -> ->]|?]%elem_of_cons|[Hk ?]]; [right; split; [done|by left]|by left|].
    apply not_elem_of_cons in Hk as [? ?]. right. split; [done|]. by right.
Qed.

Definition is_empty_map {A} (m : gmap string A) : bool := bool_decide (m = ∅).
Definition contains_key {A} (k : string) (m : gmap string A) : bool :=
  bool_decide (is_Some (m !! k)).

(** A [BTreeSet<String>] iterates in ascending order. *)
Definition bs_list (s : gset string) : list string :=
  sort_by String.leb (elements s).

Lemma elem_of_bs_list s x : x ∈ bs_list s ↔ x ∈ s.
Proof. unfold bs_list. by rewrite elem_of_sort_by, elem_of_elements. Qed.

Create HintDb bpm discriminated.
#[export] Hint Resolve str_lt_trans leb_refl_s leb_trans_s : bpm.
#[export] Hint Rewrite @bind_Ok @ok_or_Ok @map_err_Ok @ok_Some : bpm.
#[export] Hint Rewrite @elem_of_bt_list @elem_of_bt_keys @elem_of_bs_list : bpm.

(** Invert a chain of successful binds. *)
Ltac inv_ok :=
  repeat match goal with
  | H : _ ≫= _ = Ok _ |- _ => apply bind_Ok in H as (? & ? & H)
  | H : ok_or _ _ = Ok _ |- _ => apply ok_or_Ok in H
  | H : map_err _ _ = Ok _ |- _ => apply map_err_Ok in H
  | H : (if ?b then Err _ else _) = Ok _ |- _ => destruct b eqn:?; [discriminate H|]
  | H : Ok _ = Ok _ |- _ => injection H as H
  | H : Err _ = Ok _ |- _ => discriminate H
  end; subst.

(** [str::split] with a non-empty string pattern.  Every piece but the first
    starts after an occurrence, so the length of the text bounds the pieces. *)
Fixpoint split_str_fuel (fuel : nat) (pat s : string) : list string :=
  match fuel with
  | 0 => [s]
  | S fuel =>
      match split_once pat s with
      | Some (a, b) => a :: split_str_fuel fuel pat b
      | None => [s]
      end
  end.
Definition split_str (pat s : string) : list string := split_str_fuel (strlen s) pat s.

Lemma split_str_fuel_enough pat s n m :
  pat ≠ "" → strlen s ≤ n → strlen s ≤ m → split_str_fuel n pat s = split_str_fuel m pat s.
Proof.
  intros Hp. assert (0 < strlen pat) as Hlen by (destruct pat; [done|simpl; lia]).
  revert m s. induction n as [|n IH]; intros m s Hn Hm.
  - destruct s; [|simpl in Hn; lia]. destruct m; [done|]. simpl.
    destruct (strip_prefix pat "") eqn:He; [|done].
    apply strip_prefix_Some in He. symmetry in He. by apply app_eq_nil_s in He as [? _].
  - destruct (split_once pat s) as [[a b]|] eqn:Hs.
    + pose proof (split_once_Some _ _ _ _ Hs) as ->. unfold strlen in *.
      rewrite !length_app_s in Hn, Hm. destruct m as [|m]; [lia|]. cbn [split_str_fuel].
      rewrite Hs. f_equal. apply IH; lia.
    + simpl. rewrite Hs. destruct m; simpl; [done|]. by rewrite Hs.
Qed.

Lemma split_str_unfold pat s :
  pat ≠ "" →
  split_str pat s = match split_once pat s with
                    | Some (a, b) => a :: split_str pat b
                    | None => [s]
                    end.
Proof.
  intros Hp. unfold split_str. destruct (split_once pat s) as [[a b]|] eqn:Hs.
  - pose proof (split_once_Some _ _ _ _ Hs) as Heq.
    assert (0 < strlen pat) by (destruct pat; [done|simpl; lia]).
    assert (strlen s = strlen a + (strlen pat + strlen b))
      by (rewrite Heq; unfold strlen; by rewrite !length_app_s).
    destruct (strlen s) as [|n] eqn:Hn; [lia|]. cbn [split_str_fuel]. rewrite Hs. f_equal.
    apply split_str_fuel_enough; [done|lia|lia].
  - destruct (strlen s); simpl; [done|]. by rewrite Hs.
Qed.

(** [trim_start_matches] with a string; a non-empty pattern is stripped at most
    once per character. *)
Fixpoint trim_start_str_fuel (fuel : nat) (pat s : string) : string :=
  match fuel with
  | 0 => s
  | S fuel => match strip_prefix pat s with
              | Some r => trim_start_str_fuel fuel pat r
              | None => s
              end
  end.
Definition trim_start_str (pat s : string) : string := trim_start_str_fuel (S (strlen s)) pat s.

Lemma trim_start_str_none pat s : strip_prefix pat s = None → trim_start_str pat s = s.
Proof. intros Hs. unfold trim_start_str. simpl. by rewrite Hs. Qed.

(** Well-formed UTF-8, the check of [String::from_utf8]. *)
Definition is_cont (c : ascii) : bool := in_range 128 191 c.
Fixpoint utf8_valid (s : string) : bool :=
  match s with
  | "" => true
  | String a s1 =>
      if (code a <? 128)%N then utf8_valid s1
      else match s1 with
           | "" => false
           | String b s2 =>
               if in_range 194 223 a then is_cont b && utf8_valid s2
               else match s2 with
                    | "" => false
                    | String c s3 =>
                        if in_range 224 239 a then
                          is_cont b && is_cont c &&
                          (if (code a =? 224)%N then (160 <=? code b)%N else true) &&
                          (if (code a =? 237)%N then (code b <? 160)%N else true) && utf8_valid s3
                        else match s3 with
                             | "" => false
                             | String d s4 =>
                                 in_range 240 244 a && is_cont b && is_cont c && is_cont d &&
                                 (if (code a =? 240)%N then (144 <=? code b)%N else true) &&
                                 (if (code a =? 244)%N then (code b <? 144)%N else true) &&
                                 utf8_valid s4
                             end
                    end
           end
  end.

(** Unbounded decimal numerals, the inverse of [pretty] on [N]. *)
Fixpoint digits_N (acc : N) (s : string) : option N :=
  match s with
  | "" => Some acc
  | String c s =>
      if is_ascii_digit c then digits_N (acc * 10 + (code c - 48))%N s else None
  end.

Lemma pretty_N_char_code x : (x < 10)%N → code (pretty_N_char x) = (48 + x)%N.
Proof.
  intros Hx. destruct x as [|p]; [done|].
  do 9 (destruct p as [p|p|]; try done; try (simpl in Hx; lia)).
Qed.

Lemma digits_pretty_go x s : digits_N 0 (pretty_N_go x s) = digits_N x s.
Proof.
  revert s. induction (N.lt_wf_0 x) as [x _ IH]. intros s.
  destruct (decide (x = 0)%N) as [->|Hx]; [by rewrite pretty_N_go_0|].
  rewrite pretty_N_go_step by lia. rewrite IH by (apply N.div_lt; lia). cbn [digits_N].
  assert (x `mod` 10 < 10)%N as Hm by (apply N.mod_lt; lia).
  pose proof (N.div_mod x 10 ltac:(lia)) as Hdm.
  unfold is_ascii_digit, in_range. rewrite (pretty_N_char_code _ Hm).
  revert Hm Hdm. generalize (x `div` 10)%N (x `mod` 10)%N. intros q r Hm Hdm.
  rewrite (proj2 (N.leb_le 48 (48 + r))), (proj2 (N.leb_le (48 + r) 57)) by lia.
  cbn [andb]. f_equal. lia.
Qed.

Lemma digits_pretty x : digits_N 0 (pretty x) = Some x.
Proof.
  unfold pretty, pretty_N. case_decide; [by subst|]. by rewrite digits_pretty_go.
Qed.

Lemma pretty_N_go_digits x s :
  all_chars is_ascii_digit s = true → all_chars is_ascii_digit (pretty_N_go x s) = true.
Proof.
  revert s. induction (N.lt_wf_0 x) as [x _ IH]. intros s Hs.
  destruct (decide (x = 0)%N) as [->|Hx]; [by rewrite pretty_N_go_0|].
  rewrite pretty_N_go_step by lia. apply IH; [apply N.div_lt; lia|]. cbn [all_chars].
  assert (x `mod` 10 < 10)%N as Hm by (apply N.mod_lt; lia).
  rewrite Hs, andb_true_r. apply in_range_true. rewrite pretty_N_char_code by done.
  revert Hm. generalize (x `mod` 10)%N. lia.
Qed.

Lemma pretty_N_digits (x : N) : all_chars is_ascii_digit (pretty x) = true.
Proof.
  unfold pretty, pretty_N. case_decide; [done|]. by apply pretty_N_go_digits.
Qed.

Lemma pretty_N_nonempty (x : N) : pretty x ≠ "".
Proof.
  intros H. pose proof (digits_pretty x) as Hd. rewrite H in Hd. simpl in Hd.
  injection Hd as <-. done.
Qed.

(** ** [split_whitespace] on graphic tokens *)

Lemma split_ws_go_graph cur a s :
  is_graph a = true → split_ws_go cur (String a s) = split_ws_go (cur +:+ String a "") s.
Proof.
  intros Ha. cbn [split_ws_go]. rewrite graph_not_ws1 by done. destruct s as [|b s]; [done|].
  rewrite graph_not_ws2 by done. destruct s as [|c s]; [done|]. by rewrite graph_not_ws3.
Qed.

Lemma split_ws_go_word cur w s :
  all_chars is_graph w = true → split_ws_go cur (w +:+ s) = split_ws_go (cur +:+ w) s.
Proof.
  revert cur. induction w as [|a w IH]; intros cur Hw.
  - by rewrite app_nil_l_s, app_nil_r_s.
  - simpl in Hw. apply andb_true_iff in Hw as [Ha Hw].
    rewrite app_cons_s, split_ws_go_graph, IH by done.
    by rewrite <- app_assoc_s, app_cons_s, app_nil_l_s.
Qed.

Lemma split_whitespace_join ws :
  Forall (λ w, all_chars is_graph w = true ∧ w ≠ "") ws →
  split_whitespace (join " " ws) = ws.
Proof.
  unfold split_whitespace. intros H. induction H as [|w ws [Hw Hne] H IH]; [done|].
  apply is_empty_false in Hne. destruct ws as [|v ws].
  - change (join " " [w]) with w. rewrite <- (app_nil_r_s w) at 1.
    rewrite split_ws_go_word, app_nil_l_s by done. simpl. by rewrite Hne.
  - change (join " " (w :: v :: ws)) with (w +:+ " " +:+ join " " (v :: ws)).
    rewrite split_ws_go_word, app_nil_l_s by done.
    rewrite app_cons_s, app_nil_l_s. cbn [split_ws_go]. rewrite IH.
    replace (ws1 " ") with true by reflexivity. by rewrite Hne.
Qed.

(** [str::split_once] on a text whose head does not contain the character. *)
Lemma split_once_char c a b :
  contains_char c a = false → split_once (String c "") (a +:+ String c b) = Some (a, b).
Proof.
  unfold contains_char. induction a as [|d a IH]; intros Ha.
  - rewrite app_nil_l_s. simpl. by rewrite Ascii.eqb_refl; destruct b.
  - simpl in Ha. apply orb_false_iff in Ha as [Hd Ha]. rewrite app_cons_s. simpl.
    rewrite Hd, (IH Ha). done.
Qed.
Lemma split_once_char_none c s :
  contains_char c s = false → split_once (String c "") s = None.
Proof.
  unfold contains_char. induction s as [|d s IH]; [done|]. simpl.
  intros [Hd Hs]%orb_false_iff. by rewrite Hd, (IH Hs).
Qed.
Lemma rsplit_once_char_none c s :
  contains_char c s = false → rsplit_once (String c "") s = None.
Proof.
  unfold contains_char. induction s as [|d s IH]; [done|]. simpl.
  intros [Hd Hs]%orb_false_iff. by rewrite (IH Hs), Hd.
Qed.
Lemma rsplit_once_char c a b :
  contains_char c b = false → rsplit_once (String c "") (a +:+ String c b) = Some (a, b).
Proof.
  intros Hb. rewrite <- (app_nil_r_s a) at 2. apply rsplit_once_app.
  simpl. rewrite rsplit_once_char_none by done. by rewrite Ascii.eqb_refl; destruct b.
Qed.

Lemma parse_digits_digits_N bits a acc n :
  all_chars is_ascii_digit a = true →
  digits_N acc a = Some n → (n < 2 ^ bits)%N → parse_digits bits acc a = Some n.
Proof.
  revert acc. induction a as [|c a IH]; intros acc Ha Hd Hn; cbn [digits_N parse_digits] in *; [done|].
  simpl in Ha. apply andb_true_iff in Ha as [Hc Ha]. rewrite Hc in *. cbv zeta.
  assert (∀ acc a n, digits_N acc a = Some n → (acc <= n)%N) as Hmono.
  { clear. intros acc a. revert acc. induction a as [|c a IH]; intros acc n; cbn [digits_N].
    - by intros [= ->].
    - destruct (is_ascii_digit c); [|done]. intros H%IH. lia. }
  rewrite (proj2 (N.ltb_lt _ _)); [by apply IH|]. apply Hmono in Hd. lia.
Qed.

Lemma parse_uint_pretty bits (n : N) : (n < 2 ^ bits)%N → parse_uint bits (pretty n) = Some n.
Proof.
  intros Hn. pose proof (pretty_N_digits n) as Hd. pose proof (digits_pretty n) as Hp.
  pose proof (pretty_N_nonempty n) as Hne. revert Hd Hp Hne. generalize (pretty n : string) as s.
  intros s Hd Hp Hne. pose proof (parse_digits_digits_N bits s 0 n Hd Hp Hn) as H.
  unfold parse_uint. destruct s as [|c s]; [done|].
  simpl in Hd. apply andb_true_iff in Hd as [Hc _].
  assert (c ≠ "+"%char) by (intros ->; done). repeat case_match; simplify_eq; done.
Qed.

(** ** Text as a sequence of lines *)

Definition concat_s (l : list string) : string := foldr String.append "" l.

(** One line with its newline. *)
Definition full_line (l : string) : Prop :=
  ∃ v, l = v +:+ String newline "" ∧ contains_char newline v = false.

(** A text whose last line is terminated. *)
Definition terminated (s : string) : Prop := s = "" ∨ ∃ t, s = t +:+ String newline "".

Lemma concat_s_app a b : concat_s (a ++ b) = concat_s a +:+ concat_s b.
Proof. induction a as [|x a IH]; [done|]. simpl. by rewrite IH, app_assoc_s. Qed.

Lemma concat_split_inclusive c s : concat_s (split_inclusive c s) = s.
Proof.
  induction s as [|a s IH]; [done|]. cbn [split_inclusive]. destruct (ceqb a c); simpl.
  - by rewrite IH.
  - destruct (split_inclusive c s) as [|x xs]; simpl in *; by rewrite <- IH.
Qed.

Lemma split_inclusive_line c v s :
  contains_char c v = false →
  split_inclusive c (v +:+ String c s) = (v +:+ String c "") :: split_inclusive c s.
Proof.
  induction v as [|a v IH]; intros Hv.
  - rewrite !app_nil_l_s. cbn [split_inclusive]. by rewrite Ascii.eqb_refl.
  - cbn [contains_char any_char] in Hv. apply orb_false_iff in Hv as [Ha Hv].
    rewrite !app_cons_s. cbn [split_inclusive]. rewrite Ascii.eqb_sym, Ha.
    by rewrite IH by exact Hv.
Qed.

Lemma split_concat_full l : Forall full_line l → split_inclusive newline (concat_s l) = l.
Proof.
  induction 1 as [|x l (v & -> & Hv) H IH]; [done|]. simpl.
  rewrite <- app_assoc_s, app_cons_s, app_nil_l_s, split_inclusive_line by done. by rewrite IH.
Qed.

Lemma split_inclusive_full s : terminated s → Forall full_line (split_inclusive newline s).
Proof.
  intros [-> | [t ->]]; [by constructor|].
  assert (∀ t pre, contains_char newline pre = false →
    Forall full_line (split_inclusive newline (pre +:+ t +:+ String newline ""))) as H;
    [|by apply (H t "")].
  clear t. induction t as [|a t IH]; intros pre Hp.
  - rewrite app_nil_l_s, split_inclusive_line by done. constructor; [by exists pre|constructor].
  - rewrite app_cons_s. destruct (ceqb a newline) eqn:Ha.
    + apply ceqb_eq in Ha as ->. rewrite split_inclusive_line by done.
      constructor; [by exists pre|]. by apply (IH "").
    + replace (pre +:+ String a (t +:+ String newline "")) with
        ((pre +:+ String a "") +:+ t +:+ String newline "")
        by (by rewrite <- app_assoc_s, app_cons_s, app_nil_l_s).
      apply IH. rewrite contains_char_app, Hp. cbn [contains_char any_char]. 
      by rewrite Ascii.eqb_sym, Ha.
Qed.

(** The text of a line without carriage return. *)
Lemma line_text_full v :
  (∀ r, v ≠ r +:+ String carriage_return "") → line_text (v +:+ String newline "") = v.
Proof.
  intros Hv. unfold line_text.
  assert (strip_suffix (String newline "") (v +:+ String newline "") = Some v) as ->
    by by apply strip_suffix_Some.
  destruct (strip_suffix _ v) as [r|] eqn:Hr; [|done].
  apply strip_suffix_Some in Hr. by apply Hv in Hr.
Qed.
