(* ===== verification/Encoding.v ===== *)
(** * Little-endian integers and byte readers

    [to_le_bytes] and [from_le_bytes] with their two inverse laws, and the
    lemmas on concatenated byte strings that the encodings of the program
    share. *)

From S2P Require Export Str.
From Stdlib Require Import Ascii.

(** ** Byte strings *)

Lemma same_length_app (a b r s : string) :
  strlen a = strlen b → a +:+ r = b +:+ s → a = b ∧ r = s.
Proof.
  revert b. induction a as [|c a IH]; intros [|d b]; try done.
  rewrite !app_cons_s. intros [= Hlen] Heq. injection Heq as -> Heq.
  apply IH in Heq as [-> ->]; [done|]. exact Hlen.
Qed.

(** A literal tag in front of both sides. *)
Lemma tag_inj (t r s : string) : t +:+ r = t +:+ s → r = s.
Proof. intros H. by apply same_length_app in H as [_ H]. Qed.

Lemma chr_inj (a b : N) : (a < 256)%N → (b < 256)%N → chr a = chr b → a = b.
Proof.
  intros Ha Hb H. apply (f_equal N_of_ascii) in H. unfold chr in H.
  by rewrite !N_ascii_embedding in H.
Qed.

Lemma strlen_app (a b : string) : strlen (a +:+ b) = strlen a + strlen b.
Proof. apply length_app_s. Qed.

(** [v.to_le_bytes()] of an integer of [count] bytes. *)
Fixpoint le_bytes (count : nat) (v : N) : string :=
  match count with
  | 0 => ""
  | S count => String (chr (v mod 256)) (le_bytes count (v / 256))
  end.
(** [from_le_bytes]. *)
Fixpoint of_le_bytes (s : string) : N :=
  match s with
  | "" => 0
  | String c s => N_of_ascii c + 256 * of_le_bytes s
  end.

Lemma le_bytes_length n v : strlen (le_bytes n v) = n.
Proof. revert v. induction n as [|n IH]; intros v; simpl; [done|]. by f_equal. Qed.

Lemma le_bytes_inj n (v w : N) :
  (v < 256 ^ N.of_nat n)%N → (w < 256 ^ N.of_nat n)%N → le_bytes n v = le_bytes n w → v = w.
Proof.
  revert v w. induction n as [|n IH]; intros v w Hv Hw Heq.
  { change (256 ^ N.of_nat 0)%N with 1%N in *. lia. }
  rewrite Nat2N.inj_succ, N.pow_succ_r' in Hv, Hw. cbn [le_bytes] in Heq.
  injection Heq as Hc Heq.
  assert (v mod 256 = w mod 256)%N as Hm.
  { apply chr_inj; [apply N.mod_lt; lia..|]. by unfold chr, ascii_of_N. }
  apply IH in Heq; [|apply N.Div0.div_lt_upper_bound; lia..].
  rewrite (N.div_mod' v 256), (N.div_mod' w 256). lia.
Qed.

Lemma of_le_bytes_le_bytes n v : (v < 256 ^ N.of_nat n)%N → of_le_bytes (le_bytes n v) = v.
Proof.
  revert v. induction n as [|n IH]; intros v Hv.
  { change (256 ^ N.of_nat 0)%N with 1%N in Hv. simpl. lia. }
  rewrite Nat2N.inj_succ, N.pow_succ_r' in Hv. cbn [le_bytes of_le_bytes]. unfold chr.
  rewrite N_ascii_embedding by (apply N.mod_lt; lia).
  rewrite IH by (apply N.Div0.div_lt_upper_bound; lia). rewrite (N.div_mod' v 256) at 3. lia.
Qed.

Lemma of_le_bytes_bound s : (of_le_bytes s < 256 ^ N.of_nat (strlen s))%N.
Proof.
  induction s as [|c s IH]; [done|]. cbn [of_le_bytes strlen String.length].
  rewrite Nat2N.inj_succ, N.pow_succ_r'. pose proof (N_ascii_bounded c). unfold strlen in IH. lia.
Qed.

Lemma le_bytes_of_le_bytes s : le_bytes (strlen s) (of_le_bytes s) = s.
Proof.
  induction s as [|c s IH]; [done|]. change (strlen (String c s)) with (S (strlen s)).
  cbn [le_bytes of_le_bytes]. pose proof (N_ascii_bounded c) as Hc.
  replace ((N_of_ascii c + 256 * of_le_bytes s) mod 256)%N with (N_of_ascii c).
  2: { rewrite (N.mul_comm 256), N.Div0.mod_add. by rewrite N.mod_small. }
  replace ((N_of_ascii c + 256 * of_le_bytes s) / 256)%N with (of_le_bytes s).
  2: { rewrite (N.mul_comm 256), N.div_add by lia. rewrite N.div_small by done. lia. }
  unfold chr. by rewrite ascii_N_embedding, IH.
Qed.

(** The first [n] bytes and the rest. *)
Fixpoint split_at_s (n : nat) (s : string) : option (string * string) :=
  match n, s with
  | 0, s => Some ("", s)
  | S n, String c s => '(a, b) ← split_at_s n s; Some (String c a, b)
  | S _, "" => None
  end.

Lemma split_at_s_Some n s a b : split_at_s n s = Some (a, b) ↔ s = a +:+ b ∧ strlen a = n.
Proof.
  revert s a b. induction n as [|n IH]; intros s a b; simpl.
  - split; [by intros [= <- <-]|]. intros [-> Ha]. by destruct a.
  - destruct s as [|c s]; simpl.
    + split; [done|]. intros [H Ha]. destruct a; [done|]. by rewrite app_cons_s in H.
    + destruct (split_at_s n s) as [[a' b']|] eqn:Hs; simpl.
      * apply IH in Hs as [-> Ha']. split.
        { intros [= <- <-]. split; [done|]. unfold strlen in *. simpl. by rewrite Ha'. }
        intros [H Ha]. destruct a as [|c' a]; [done|]. rewrite app_cons_s in H. injection H as -> H.
        apply same_length_app in H as [-> ->]; [done|]. unfold strlen in *. simpl in Ha. lia.
      * split; [done|]. intros [H Ha]. destruct a as [|c' a]; [done|]. rewrite app_cons_s in H.
        injection H as -> ->. assert (split_at_s n (a +:+ b) = Some (a, b)) as H'; [|congruence].
        apply IH. split; [done|]. unfold strlen in *. simpl in Ha. lia.
Qed.
Lemma split_at_s_app n a b : strlen a = n → split_at_s n (a +:+ b) = Some (a, b).
Proof. intros. by apply split_at_s_Some. Qed.
Lemma split_at_s_None n s : split_at_s n s = None ↔ strlen s < n.
Proof.
  revert s. induction n as [|n IH]; intros s; simpl; [split; [done|lia]|].
  destruct s as [|c s]; simpl; [split; [unfold strlen; simpl; lia|done]|].
  destruct (split_at_s n s) as [[a b]|] eqn:Hs; simpl.
  - split; [done|]. apply split_at_s_Some in Hs as [-> Ha]. unfold strlen in *. simpl.
    rewrite length_app_s. lia.
  - split; [|done]. intros _. apply IH in Hs. unfold strlen in *. simpl. lia.
Qed.
