(* ===== verification/FileTree.v ===== *)
(** * A file tree with symbolic links

    [std::fs] and [std::path] on Unix, as far as the sources use them: a tree of
    files, directories and links, name resolution the way the kernel does it
    (links are followed component by component, at most forty of them), the
    creating calls, and the components of a [Path]. *)

From S2P Require Export StateError Str.
From Stdlib Require Import Ascii.

(** ** [std::path::Component] *)

Inductive component := RootDir | CurDir | ParentDir | Normal (name : string).
#[global] Instance component_eq_dec : EqDecision component.
Proof. solve_decision. Defined.

(** One segment; empty segments and inner ["."] are not components. *)
Definition body_component (s : string) : list component :=
  if bool_decide (s = "") || bool_decide (s = ".") then []
  else if bool_decide (s = "..") then [ParentDir] else [Normal s].

(** [Path::components]. *)
Definition components (path : string) : list component :=
  let segments := split_char "/" path in
  (if starts_with_char "/" path then [RootDir]
   else match segments with "." :: _ => [CurDir] | _ => [] end)
  ++ (segments ≫= body_component).

(** ** The tree *)

Inductive node := NFile (content : string) (mode : N) | NDir (mode : N) | NLink (target : string).
#[global] Instance node_eq_dec : EqDecision node.
Proof. solve_decision. Defined.

(** Nodes by their path from the root directory, which always exists. *)
Notation tree := (gmap (list string) node).

Inductive errno := ENOENT | ENOTDIR | EEXIST | EISDIR | ELOOP | EINVAL | ENOTEMPTY.
#[global] Instance errno_eq_dec : EqDecision errno.
Proof. solve_decision. Defined.

Definition node_at (t : tree) (p : list string) : option node :=
  match p with [] => Some (NDir 493) | _ => t !! p end.
Definition is_dir_node (n : option node) : bool := match n with Some (NDir _) => true | _ => false end.

Definition parent_of (p : list string) : list string := take (length p - 1) p.

(** Linux's bound on the links of one lookup. *)
Definition MAX_LINKS : nat := 40.

(** Name resolution from the directory [cur].  The result is the path of the
    node named, which need not exist when only the last component is missing;
    [follow] says whether a link in the last place is followed. *)
Fixpoint namei (links : nat) (t : tree) (follow : bool) : list string → list string → result errno (list string) :=
  fix go cur comps :=
    match comps with
    | [] => Ok cur
    | c :: rest =>
        if bool_decide (c = "") || bool_decide (c = ".") then go cur rest
        else if bool_decide (c = "..") then go (parent_of cur) rest
        else
          let p := cur ++ [c] in
          match node_at t p with
          | None => if bool_decide (rest = []) then Ok p else Err ENOENT
          | Some (NFile _ _) => if bool_decide (rest = []) then Ok p else Err ENOTDIR
          | Some (NDir _) => go p rest
          | Some (NLink target) =>
              if bool_decide (rest = []) && negb follow then Ok p
              else match links with
                   | O => Err ELOOP
                   | S links =>
                       namei links t follow (if starts_with_char "/" target then [] else cur)
                         (split_char "/" target ++ rest)
                   end
          end
    end.

Definition lookup_path (t : tree) (follow : bool) (p : list string) : result errno (list string) :=
  namei MAX_LINKS t follow [] p.

(** ** Calls *)

Definition fs (A : Type) : Type := M tree errno A.

(** [mkdir(2)]. *)
Definition mkdir (umask : N) (p : list string) : fs () := λ t,
  match lookup_path t false p with
  | Err e => (t, Err e)
  | Ok q => match node_at t q with
            | Some _ => (t, Err EEXIST)
            | None => (<[q := NDir (N.ldiff 511 umask)]> t, Ok ())
            end
  end.

(** [Path::is_dir]: follows links, errors read as [false]. *)
Definition is_dir (t : tree) (p : list string) : bool :=
  match lookup_path t true p with Ok q => is_dir_node (node_at t q) | Err _ => false end.

(** [fs::create_dir_all], the loop of [std::fs::DirBuilder]; the path is given
    in reverse so that its parent is the tail. *)
Fixpoint create_dir_all_rev (umask : N) (rp : list string) : fs () := λ t,
  match rp with
  | [] => (t, Ok ())
  | _ :: parent =>
      let p := reverse rp in
      match mkdir umask p t with
      | (t, Ok _) => (t, Ok ())
      | (t, Err ENOENT) =>
          match create_dir_all_rev umask parent t with
          | (t, Ok _) =>
              match mkdir umask p t with
              | (t, Ok _) => (t, Ok ())
              | (t, Err e) => if is_dir t p then (t, Ok ()) else (t, Err e)
              end
          | r => r
          end
      | (t, Err e) => if is_dir t p then (t, Ok ()) else (t, Err e)
      end
  end.
Definition create_dir_all (umask : N) (p : list string) : fs () :=
  create_dir_all_rev umask (reverse p).

(** [File::create]: an existing file is emptied and keeps its mode.  The result
    is the node that was opened. *)
Definition file_create (umask : N) (p : list string) : fs (list string) := λ t,
  match lookup_path t true p with
  | Err e => (t, Err e)
  | Ok q => match node_at t q with
            | Some (NDir _) => (t, Err EISDIR)
            | Some (NLink _) => (t, Err ELOOP)
            | Some (NFile _ mode) => (<[q := NFile "" mode]> t, Ok q)
            | None => (<[q := NFile "" (N.ldiff 438 umask)]> t, Ok q)
            end
  end.

(** Writing to the open file. *)
Definition write_open (q : list string) (bytes : string) : fs () :=
  modify (λ t, match t !! q with Some (NFile old mode) => <[q := NFile (old +:+ bytes) mode]> t | _ => t end).
Definition mode_of (n : option node) : option N :=
  match n with Some (NFile _ m) | Some (NDir m) => Some m | _ => None end.

(** [os::unix::fs::symlink]. *)
Definition symlink (target : string) (p : list string) : fs () := λ t,
  if is_empty target then (t, Err ENOENT)
  else match lookup_path t false p with
       | Err e => (t, Err e)
       | Ok q => match node_at t q with
                 | Some _ => (t, Err EEXIST)
                 | None => (<[q := NLink target]> t, Ok ())
                 end
       end.

(** [fs::set_permissions]. *)
Definition chmod (p : list string) (mode : N) : fs () := λ t,
  match lookup_path t true p with
  | Err e => (t, Err e)
  | Ok q => match node_at t q with
            | Some (NFile bytes _) => (<[q := NFile bytes mode]> t, Ok ())
            | Some (NDir _) => (match q with [] => t | _ => <[q := NDir mode]> t end, Ok ())
            | _ => (t, Err ENOENT)
            end
  end.

(** ** Paths without links *)

Definition plain (c : string) : Prop := c ≠ "" ∧ c ≠ "." ∧ c ≠ "..".
#[global] Instance plain_dec c : Decision (plain c).
Proof. unfold plain. apply _. Defined.

(** No link at a path between [cur] and the last component of [comps]. *)
Definition no_link_on (t : tree) (cur comps : list string) : Prop :=
  ∀ pre post target, comps = pre ++ post → pre ≠ [] → post ≠ [] →
    node_at t (cur ++ pre) ≠ Some (NLink target).

Lemma no_link_on_cons t cur c comps :
  no_link_on t cur (c :: comps) → no_link_on t (cur ++ [c]) comps.
Proof.
  intros H pre post target -> Hne Hpost. rewrite <- (assoc_L (++)).
  apply (H ([c] ++ pre) post); [done|done|done].
Qed.

Lemma namei_plain links t follow cur comps q :
  Forall plain comps → no_link_on t cur comps →
  (∀ target, follow = true → comps ≠ [] → node_at t (cur ++ comps) ≠ Some (NLink target)) →
  namei links t follow cur comps = Ok q → q = cur ++ comps.
Proof.
  revert cur. induction comps as [|c comps IH]; intros cur Hp Hl Hf.
  { destruct links; simpl; intros [= <-]; by rewrite app_nil_r. }
  apply Forall_cons in Hp as [(H1 & H2 & H3) Hp].
  assert (namei links t follow cur (c :: comps) =
    match node_at t (cur ++ [c]) with
    | None => if bool_decide (comps = []) then Ok (cur ++ [c]) else Err ENOENT
    | Some (NFile _ _) => if bool_decide (comps = []) then Ok (cur ++ [c]) else Err ENOTDIR
    | Some (NDir _) => namei links t follow (cur ++ [c]) comps
    | Some (NLink target) =>
        if bool_decide (comps = []) && negb follow then Ok (cur ++ [c])
        else match links with
             | O => Err ELOOP
             | S links => namei links t follow (if starts_with_char "/" target then [] else cur)
                            (split_char "/" target ++ comps)
             end
    end) as ->.
  { destruct links; cbn [namei]; rewrite !bool_decide_eq_false_2 by done; reflexivity. }
  destruct (node_at t (cur ++ [c])) as [[by' m|m|target]|] eqn:Hn.
  - case_bool_decide; [|done]. subst. by intros [= <-].
  - intros Hq. rewrite (cons_middle c), (assoc_L (++)). apply IH; [done| | |done].
    + by apply no_link_on_cons.
    + intros target' Hfo _. rewrite <- (assoc_L (++)). by apply Hf.
  - destruct comps as [|c' comps].
    + destruct follow; simpl; [|by intros [= <-]]. by destruct (Hf target).
    + destruct (Hl [c] (c' :: comps) target); done.
  - case_bool_decide; [|done]. subst. by intros [= <-].
Qed.

Lemma namei_dirs links t follow cur pre comps :
  Forall plain pre →
  (∀ p s, pre = p ++ s → p ≠ [] → is_dir_node (node_at t (cur ++ p)) = true) →
  namei links t follow cur (pre ++ comps) = namei links t follow (cur ++ pre) comps.
Proof.
  revert cur. induction pre as [|c pre IH]; intros cur Hp Hd; simpl; [by rewrite app_nil_r|].
  apply Forall_cons in Hp as [(H1 & H2 & H3) Hp].
  assert (is_dir_node (node_at t (cur ++ [c])) = true) as Hc by (by apply (Hd [c] pre)).
  rewrite (cons_middle c), (assoc_L (++)), <- IH; [|done|].
  - destruct links; cbn [namei]; rewrite !bool_decide_eq_false_2 by done; simpl;
      destruct (node_at t (cur ++ [c])) as [[]|]; done.
  - intros p s -> Hne. rewrite <- (assoc_L (++)). apply (Hd ([c] ++ p) s); done.
Qed.
