(* ===== verification/FileOps.v ===== *)
(** * More calls of [std::fs]

    Looking at entries, listing and removing them, over the tree of FileTree.v,
    and the lemmas on paths of real directories that the attachments and the
    builds share.  Paths are absolute, as their names. *)

From S2P Require Export FileTree.
From Stdlib Require Import Ascii.

Notation path := (list string).

(** ** More calls *)

Definition lstat (t : tree) (p : path) : result errno node :=
  q ← lookup_path t false p; ok_or ENOENT (node_at t q).
(** [Path::exists]. *)
Definition exists_at (t : tree) (p : path) : bool :=
  match lookup_path t true p with Ok q => bool_decide (is_Some (node_at t q)) | Err _ => false end.
Definition read_link (t : tree) (p : path) : option string :=
  match lstat t p with Ok (NLink target) => Some target | _ => None end.

(** The names in the directory [q]. *)
Definition children (t : tree) (q : path) : list string :=
  omap (λ k, match k with
             | [] => None
             | _ => if bool_decide (parent_of k = q) then last k else None
             end) (map_to_list t).*1.
Definition read_dir (t : tree) (p : path) : result errno (list string) :=
  q ← lookup_path t true p;
  match node_at t q with
  | Some (NDir _) => Ok (children t q)
  | Some _ => Err ENOTDIR
  | None => Err ENOENT
  end.

Definition remove_file (p : path) : fs () := λ t,
  match lookup_path t false p with
  | Err e => (t, Err e)
  | Ok q => match node_at t q with
            | Some (NDir _) => (t, Err EISDIR)
            | Some _ => (delete q t, Ok ())
            | None => (t, Err ENOENT)
            end
  end.
(** A directory with everything below it. *)
Definition delete_below (q : path) (t : tree) : tree := filter (λ kv : path * node, ¬ q `prefix_of` kv.1) t.
Definition remove_dir_all (p : path) : fs () := λ t,
  match lookup_path t false p with
  | Err e => (t, Err e)
  | Ok q => match node_at t q with
            | Some (NDir _) => (delete_below q t, Ok ())
            | Some (NLink _) => (delete q t, Ok ())
            | Some (NFile _ _) => (t, Err ENOTDIR)
            | None => (t, Err ENOENT)
            end
  end.
(** [rmdir(2)]. *)
Definition remove_dir (p : path) : fs () := λ t,
  match lookup_path t false p with
  | Err e => (t, Err e)
  | Ok q => match node_at t q with
            | Some (NDir _) => if bool_decide (children t q = []) then (delete q t, Ok ()) else (t, Err ENOTEMPTY)
            | Some _ => (t, Err ENOTDIR)
            | None => (t, Err ENOENT)
            end
  end.

(** The call that fits the entry. *)
Definition remove_node (p : path) (n : node) : fs () :=
  match n with NDir _ => remove_dir_all p | _ => remove_file p end.

(** [remove_any] of materializer.rs and volume.rs: nothing there is fine. *)
Definition remove_any (p : path) : fs () := λ t,
  match lstat t p with
  | Ok n => remove_node p n t
  | Err ENOENT => (t, Ok ())
  | Err e => (t, Err e)
  end.

(** [Path::is_file] and [fs::read]. *)
Definition is_file (t : tree) (p : path) : bool :=
  match lookup_path t true p with
  | Ok q => match node_at t q with Some (NFile _ _) => true | _ => false end
  | Err _ => false
  end.
Definition read_file (t : tree) (p : path) : result errno string :=
  q ← lookup_path t true p;
  match node_at t q with
  | Some (NFile bytes _) => Ok bytes
  | Some (NDir _) => Err EISDIR
  | _ => Err ENOENT
  end.
(** [fs::metadata(p)?.permissions().mode()], the permission bits. *)
Definition mode_at (t : tree) (p : path) : option N :=
  match lookup_path t true p with Ok q => mode_of (node_at t q) | Err _ => None end.

(** [fs::copy] on Linux: the target is created or emptied, and gets the
    permissions of the source. *)
Definition copy_file (from to : path) : fs () := λ t,
  match lookup_path t true from with
  | Err e => (t, Err e)
  | Ok q =>
      match node_at t q with
      | Some (NFile bytes mode) =>
          match lookup_path t true to with
          | Err e => (t, Err e)
          | Ok q' =>
              match node_at t q' with
              | Some (NDir _) => (t, Err EISDIR)
              | Some (NLink _) => (t, Err ELOOP)
              | _ => (<[q' := NFile (if bool_decide (q = q') then "" else bytes) mode]> t, Ok ())
              end
          end
      | Some _ => (t, Err EINVAL)
      | None => (t, Err ENOENT)
      end
  end.
(** [fs::write]. *)
Definition write_file (umask : N) (p : path) (bytes : string) : fs () :=
  q ← file_create umask p; write_open q bytes.

(** [rename(2)] of a directory, onto nothing or an empty directory. *)
Definition moved (from to : path) (t : tree) : tree :=
  list_to_map ((λ kn : path * node,
    (if bool_decide (from `prefix_of` kn.1) then to ++ drop (length from) kn.1 else kn.1, kn.2)) <$> map_to_list t).
Definition rename_dir (from to : path) : fs () := λ t,
  match lookup_path t false from, lookup_path t false to with
  | Err e, _ | _, Err e => (t, Err e)
  | Ok q, Ok q' =>
      if negb (is_dir_node (node_at t q)) then (t, Err (match node_at t q with None => ENOENT | _ => ENOTDIR end))
      else if bool_decide (q `prefix_of` q') then (t, Err EINVAL)
      else match node_at t q' with
           | None => (moved q q' t, Ok ())
           | Some (NDir _) => if bool_decide (children t q' = []) then (moved q q' (delete q' t), Ok ()) else (t, Err ENOTEMPTY)
           | Some _ => (t, Err ENOTDIR)
           end
  end.

Definition path_display (p : path) : string := "/" +:+ join "/" p.
Definition sort_names (l : list string) : list string := sort_by String.leb l.

(** [Path::join] of a relative string. *)
Definition full_path (project : path) (rel : string) : path := project ++ split_char "/" rel.

(** [Path::join] of strings. *)
Definition path_join (a b : string) : string :=
  if starts_with_char "/" b then b
  else if is_empty a || ends_with "/" a then a +:+ b else a +:+ "/" +:+ b.

(** ** Calls as changes of the tree *)

Lemma remove_file_inv p t t' r :
  remove_file p t = (t', r) →
  t' = t ∨ ∃ q n, lookup_path t false p = Ok q ∧ node_at t q = Some n ∧ is_dir_node (Some n) = false ∧ t' = delete q t.
Proof.
  unfold remove_file. intros H. destruct (lookup_path t false p) as [q|] eqn:Hq; [|simplify_eq; by left].
  destruct (node_at t q) as [[]|] eqn:Hn; simplify_eq; try (by left); right; by eexists _, _.
Qed.
Lemma remove_dir_all_inv p t t' r :
  remove_dir_all p t = (t', r) →
  t' = t ∨ ∃ q n, lookup_path t false p = Ok q ∧ node_at t q = Some n ∧
    (t' = delete_below q t ∨ t' = delete q t).
Proof.
  unfold remove_dir_all. intros H. destruct (lookup_path t false p) as [q|] eqn:Hq; [|simplify_eq; by left].
  destruct (node_at t q) as [[]|] eqn:Hn; simplify_eq; try (by left); right; eexists _, _; eauto.
Qed.
Lemma remove_dir_inv p t t' r :
  remove_dir p t = (t', r) →
  t' = t ∨ ∃ q, lookup_path t false p = Ok q ∧ children t q = [] ∧ t' = delete q t.
Proof.
  unfold remove_dir. intros H. destruct (lookup_path t false p) as [q|] eqn:Hq; [|simplify_eq; by left].
  destruct (node_at t q) as [[]|] eqn:Hn; simplify_eq; try (by left).
  case_bool_decide; simplify_eq; [|by left]. right. eauto.
Qed.

Lemma delete_below_Some q t k n : delete_below q t !! k = Some n ↔ t !! k = Some n ∧ ¬ q `prefix_of` k.
Proof. unfold delete_below. by rewrite map_lookup_filter_Some. Qed.
Lemma delete_below_None q t k : delete_below q t !! k = None ↔ t !! k = None ∨ q `prefix_of` k.
Proof.
  destruct (delete_below q t !! k) as [n|] eqn:H.
  - apply delete_below_Some in H as [H1 H2]. rewrite H1. by split; [|intros [?|?]].
  - split; [intros _|done]. destruct (t !! k) as [n|] eqn:Hk; [|by left].
    destruct (decide (q `prefix_of` k)); [by right|]. exfalso.
    assert (delete_below q t !! k = Some n) by (by apply delete_below_Some). congruence.
Qed.
Lemma delete_below_sub q t : delete_below q t ⊆ t.
Proof. apply map_filter_subseteq. Qed.

(** ** Real directories *)

(** A path of real directories, all the way from the root. *)
Definition real_dir (t : tree) (p : path) : Prop :=
  Forall plain p ∧ ∀ pre post, p = pre ++ post → is_dir_node (node_at t pre) = true.

Lemma lookup_child t follow p c :
  real_dir t p → lookup_path t follow (p ++ [c]) = namei MAX_LINKS t follow p [c].
Proof.
  intros [Hp Hd]. unfold lookup_path. rewrite (namei_dirs _ _ _ [] p [c]); [done..|].
  intros pre post -> _. by apply (Hd pre post).
Qed.
Lemma lookup_real_dir t follow p : real_dir t p → lookup_path t follow p = Ok p.
Proof.
  intros [Hp Hd]. unfold lookup_path. rewrite <- (app_nil_r p) at 1.
  rewrite (namei_dirs _ _ _ [] p []); [done..|]. intros pre post -> _. by apply (Hd pre post).
Qed.
Lemma node_at_snoc t p c : node_at t (p ++ [c]) = t !! (p ++ [c]).
Proof. by destruct p. Qed.
Lemma node_at_app t p s : s ≠ [] → node_at t (p ++ s) = t !! (p ++ s).
Proof. intros Hs. destruct s as [|c s _] using rev_ind; [done|]. by rewrite (assoc_L (++)), node_at_snoc. Qed.

Lemma namei_last links t follow p c :
  plain c →
  (follow = true → ∀ target, t !! (p ++ [c]) ≠ Some (NLink target)) → namei links t follow p [c] = Ok (p ++ [c]).
Proof.
  intros (H1 & H2 & H3) Hl.
  destruct links; cbn [namei]; rewrite !bool_decide_eq_false_2 by done; rewrite node_at_snoc, ?(bool_decide_eq_true_2 ([] = [])) by done;
    destruct (t !! (p ++ [c])) as [[]|] eqn:Hn; try done; destruct follow; try done; by destruct (Hl eq_refl target).
Qed.
Lemma lookup_child_plain t p c : real_dir t p → plain c → lookup_path t false (p ++ [c]) = Ok (p ++ [c]).
Proof. intros Hp Hc. rewrite lookup_child by done. by apply namei_last. Qed.

Lemma lstat_child t p c : real_dir t p → plain c → lstat t (p ++ [c]) = ok_or ENOENT (t !! (p ++ [c])).
Proof. intros Hp Hc. unfold lstat. rewrite lookup_child_plain by done. cbn. by rewrite node_at_snoc. Qed.
Lemma is_dir_real t p : real_dir t p → is_dir t p = true.
Proof. intros Hp. unfold is_dir. rewrite lookup_real_dir by done. destruct Hp as [_ Hd]. apply (Hd p []). by rewrite app_nil_r. Qed.
Lemma read_dir_real t p : real_dir t p → read_dir t p = Ok (children t p).
Proof.
  intros Hp. unfold read_dir. rewrite lookup_real_dir by done. cbn.
  destruct Hp as [_ Hd]. specialize (Hd p [] ltac:(by rewrite app_nil_r)). by destruct (node_at t p) as [[]|].
Qed.

Lemma real_dir_frame t t' p :
  real_dir t p → (∀ pre post, p = pre ++ post → pre ≠ [] → t' !! pre = t !! pre) → real_dir t' p.
Proof.
  intros [Hp Hd] Hf. split; [done|]. intros pre post Heq. specialize (Hd pre post Heq).
  destruct pre as [|c pre]; [done|]. cbn in *. by rewrite (Hf (c :: pre) post).
Qed.

(** The names in a directory. *)
#[local] Arguments parent_of : simpl never.
Lemma parent_snoc p c : parent_of (p ++ [c]) = p.
Proof. unfold parent_of. rewrite length_app. cbn. rewrite Nat.add_sub. apply take_app_length. Qed.
Lemma snoc_parent k name : k ≠ [] → last k = Some name → k = parent_of k ++ [name].
Proof. intros Hk Hl. apply last_Some in Hl as [k' ->]. by rewrite parent_snoc. Qed.
Lemma elem_of_children t q name : name ∈ children t q ↔ is_Some (t !! (q ++ [name])).
Proof.
  unfold children. rewrite list_elem_of_omap. setoid_rewrite list_elem_of_fmap. split.
  - intros (k & ([k' n] & -> & Hk%elem_of_map_to_list) & Hsome). cbn in *.
    destruct k' as [|c k']; [done|]. case_bool_decide as Hp; [|done].
    apply snoc_parent in Hsome; [|done]. rewrite Hp in Hsome. rewrite <- Hsome. eauto.
  - intros [n Hn]. exists (q ++ [name]). split.
    { exists (q ++ [name], n). split; [done|]. by apply elem_of_map_to_list. }
    destruct (q ++ [name]) as [|c l] eqn:Hl; [by destruct q|]. rewrite <- Hl.
    rewrite bool_decide_eq_true_2 by apply parent_snoc. apply last_snoc.
Qed.

Lemma NoDup_omap_inj {A B} (f : A → option B) (l : list A) :
  (∀ x y z, f x = Some z → f y = Some z → x = y) → NoDup l → NoDup (omap f l).
Proof.
  intros Hf. induction 1 as [|x l Hx Hl IH]; [constructor|]. cbn. destruct (f x) as [z|] eqn:Hz; [|done].
  constructor; [|done]. rewrite list_elem_of_omap. intros (y & Hy & Hfy). by rewrite (Hf x y z) in Hx.
Qed.
Lemma children_NoDup t q : NoDup (children t q).
Proof.
  unfold children. apply NoDup_omap_inj; [|apply NoDup_fst_map_to_list].
  intros x y z Hx Hy. destruct x as [|cx x]; [done|]. destruct y as [|cy y]; [done|].
  case_bool_decide as Hpx; [|done]. case_bool_decide as Hpy; [|done].
  apply snoc_parent in Hx, Hy; [|done..]. congruence.
Qed.

(** An absolute target made of names resolves to them. *)
Lemma split_path_display p :
  p ≠ [] → Forall (λ c, contains_char "/" c = false) p → split_char "/" (path_display p) = "" :: p.
Proof. intros Hp Hf. unfold path_display.
  change (split_char "/" ("/" +:+ ?x)) with ("" :: split_char "/" x). by rewrite split_join. Qed.

Lemma namei_empty links t follow cur l : namei links t follow cur ("" :: l) = namei links t follow cur l.
Proof. by destruct links. Qed.
Lemma namei_link_last links t p c target :
  plain c → t !! (p ++ [c]) = Some (NLink target) →
  namei (S links) t true p [c] = namei links t true (if starts_with_char "/" target then [] else p) (split_char "/" target).
Proof.
  intros (H1 & H2 & H3) Hl. remember (split_char "/" target) as l eqn:Hs. cbn [namei].
  rewrite !(bool_decide_eq_false_2 (c = _)) by done. rewrite node_at_snoc, Hl.
  rewrite (bool_decide_eq_true_2 ([] = [])), <- Hs, app_nil_r by done. reflexivity.
Qed.

Lemma exists_link t p c q d n :
  real_dir t p → plain c → t !! (p ++ [c]) = Some (NLink (path_display (q ++ [d]))) →
  real_dir t q → plain d → Forall (λ c, contains_char "/" c = false) (q ++ [d]) →
  t !! (q ++ [d]) = Some n → (∀ target, n ≠ NLink target) → exists_at t (p ++ [c]) = true.
Proof.
  intros Hp (Hc1 & Hc2 & Hc3) Hl Hq Hd Hf Hn Hnl. unfold exists_at. rewrite lookup_child by done.
  assert (namei MAX_LINKS t true p [c] = Ok (q ++ [d])) as ->.
  { unfold MAX_LINKS. rewrite (namei_link_last _ _ _ _ _ (conj Hc1 (conj Hc2 Hc3)) Hl).
    rewrite split_path_display by (done || by destruct q). rewrite namei_empty.
    change (starts_with_char "/" (path_display _)) with true. cbv iota.
    destruct Hq as [Hqp Hqd]. rewrite (namei_dirs _ _ _ [] q [d]); [|done|].
    - apply namei_last; [done|]. intros _ target. rewrite Hn. intros [= ->]. by apply (Hnl target).
    - intros pre post -> _. by apply (Hqd pre post). }
  apply bool_decide_eq_true_2. rewrite node_at_snoc, Hn. eauto.
Qed.

(** A node at or below the entry [name] of [p]. *)
Definition below (p : path) (name : string) (k : path) : Prop := p ++ [name] `prefix_of` k.
Lemma below_dir p name pre post : p = pre ++ post → ¬ below p name pre.
Proof. intros -> [l H]. apply (f_equal length) in H. rewrite !length_app in H. cbn in H. lia. Qed.
Lemma below_self p name other : below p name (p ++ [other]) → name = other.
Proof. intros [l H]. rewrite <- (assoc_L (++)) in H. apply app_inv_head in H. by injection H. Qed.
Lemma below_app p name : below p name (p ++ [name]).
Proof. exists []. by rewrite app_nil_r. Qed.

Lemma symlink_child t p c target :
  real_dir t p → plain c → is_empty target = false → t !! (p ++ [c]) = None →
  symlink target (p ++ [c]) t = (<[p ++ [c] := NLink target]> t, Ok ()).
Proof.
  intros Hp Hc Ht Hn. unfold symlink. rewrite Ht, lookup_child_plain by done. by rewrite node_at_snoc, Hn.
Qed.
Lemma remove_node_frame t p c n :
  real_dir t p → plain c → t !! (p ++ [c]) = Some n →
  (∀ s, s ≠ [] → is_dir_node (Some n) = false → t !! ((p ++ [c]) ++ s) = None) →
  ∃ t', remove_node (p ++ [c]) n t = (t', Ok ()) ∧ (∀ s, t' !! ((p ++ [c]) ++ s) = None) ∧
    ∀ k, ¬ below p c k → t' !! k = t !! k.
Proof.
  intros Hp Hc Hn Hleaf. unfold remove_node, remove_dir_all, remove_file.
  destruct n; rewrite lookup_child_plain by done; rewrite node_at_snoc, Hn.
  1,3: eexists; split; [done|]; split;
    [intros s; destruct s as [|d s]; [rewrite app_nil_r; apply lookup_delete_eq|];
     apply lookup_delete_None; right; by apply Hleaf
    |intros k Hk; apply lookup_delete_ne; intros <-; apply Hk, below_app].
  eexists. split; [done|]. split; [intros s; apply delete_below_None; right; by eexists|].
  intros k Hk. destruct (t !! k) as [n|] eqn:Ht; [by apply delete_below_Some|].
  apply delete_below_None. by left.
Qed.
Lemma remove_node_child t p c n :
  real_dir t p → plain c → t !! (p ++ [c]) = Some n →
  ∃ t', remove_node (p ++ [c]) n t = (t', Ok ()) ∧ t' !! (p ++ [c]) = None ∧
    ∀ k, ¬ below p c k → t' !! k = t !! k.
Proof.
  intros Hp Hc Hn. unfold remove_node, remove_dir_all, remove_file.
  destruct n; rewrite lookup_child_plain by done; rewrite node_at_snoc, Hn.
  1,3: eexists; split; [done|]; split; [apply lookup_delete_eq|];
    intros k Hk; apply lookup_delete_ne; intros <-; apply Hk, below_app.
  eexists. split; [done|]. split; [apply delete_below_None; by right|].
  intros k Hk. destruct (t !! k) as [n|] eqn:Ht; [by apply delete_below_Some|].
  apply delete_below_None. by left.
Qed.

Lemma real_dir_snoc t p c : real_dir t p → plain c → is_dir_node (t !! (p ++ [c])) = true → real_dir t (p ++ [c]).
Proof.
  intros [Hp Hd] Hc Hn. split; [apply Forall_app; split; [done|by apply Forall_singleton]|].
  intros pre post Heq. destruct post as [|x post _] using rev_ind.
  - rewrite app_nil_r in Heq. by rewrite <- Heq, node_at_snoc.
  - rewrite (assoc_L (++)) in Heq. apply app_inj_tail in Heq as [Heq _]. by apply (Hd pre post).
Qed.

(** ** Making directories *)

Lemma create_real_dir umask t p : real_dir t p → create_dir_all umask p t = (t, Ok ()).
Proof.
  intros Hp. unfold create_dir_all. destruct p as [|c p _] using rev_ind; [done|].
  rewrite reverse_snoc. cbn [create_dir_all_rev]. rewrite reverse_cons, reverse_involutive.
  unfold mkdir at 1. rewrite lookup_real_dir by done. rewrite node_at_snoc.
  assert (is_dir_node (t !! (p ++ [c])) = true) as Hd.
  { destruct Hp as [_ Hd]. rewrite <- node_at_snoc. apply (Hd _ []). by rewrite app_nil_r. }
  destruct (t !! (p ++ [c])) as [n|]; [|done]. by rewrite is_dir_real.
Qed.

Lemma lookup_missing t follow base c rest :
  real_dir t base → plain c → t !! (base ++ [c]) = None → rest ≠ [] → lookup_path t follow (base ++ c :: rest) = Err ENOENT.
Proof.
  intros [Hbp Hbd] (H1 & H2 & H3) Hn Hr. unfold lookup_path.
  rewrite (namei_dirs _ _ _ [] base); [|done|intros pre post -> _; by apply (Hbd pre post)].
  cbn [app]. unfold MAX_LINKS. cbn [namei]. rewrite !bool_decide_eq_false_2 by done.
  by rewrite node_at_snoc, Hn.
Qed.

Section fresh.
Variable umask : N.
Notation newdir := (NDir (N.ldiff 511 umask)).

(** The directories [base/c1], [base/c1/c2], ... of [rest]. *)
Fixpoint fresh_dirs (base rest : path) (t : tree) : tree :=
  match rest with
  | [] => t
  | c :: rest => fresh_dirs (base ++ [c]) rest (<[base ++ [c] := newdir]> t)
  end.

Lemma fresh_dirs_snoc base rest c t :
  fresh_dirs base (rest ++ [c]) t = <[base ++ rest ++ [c] := newdir]> (fresh_dirs base rest t).
Proof using Type.
  revert base t. induction rest as [|d rest IH]; intros base t; [done|].
  cbn [app fresh_dirs]. rewrite IH. by rewrite <- (assoc_L (++)).
Qed.
Lemma fresh_dirs_lookup base rest t k :
  fresh_dirs base rest t !! k =
    if bool_decide (base `prefix_of` k ∧ k ≠ base ∧ k `prefix_of` base ++ rest) then Some newdir else t !! k.
Proof using Type.
  induction rest as [|c rest IH] using rev_ind.
  - cbn [fresh_dirs]. rewrite app_nil_r, bool_decide_eq_false_2; [done|].
    intros (H1 & H2 & H3). apply H2. by apply prefix_length_eq; [|apply prefix_length].
  - rewrite fresh_dirs_snoc. destruct (decide (k = base ++ rest ++ [c])) as [->|Hne].
    + rewrite lookup_insert_eq, bool_decide_eq_true_2; [done|]. split; [by eexists|]. split; [|done].
      intros Heq. apply (f_equal length) in Heq. rewrite !length_app in Heq. cbn in Heq. lia.
    + rewrite lookup_insert_ne, IH by done. erewrite bool_decide_ext; [done|].
      split; intros (H1 & H2 & H3); (split; [done|]); (split; [done|]).
      * rewrite (assoc_L (++)). by apply prefix_app_r.
      * rewrite (assoc_L (++)) in H3, Hne. destruct H3 as [s Hs].
        destruct s as [|x s _] using rev_ind; [by rewrite app_nil_r in Hs|].
        rewrite (assoc_L (++)) in Hs. apply app_inj_tail in Hs as [Hs _]. by exists s.
Qed.
Lemma fresh_dirs_real base rest t :
  real_dir t base → Forall plain rest → real_dir (fresh_dirs base rest t) (base ++ rest).
Proof using Type.
  intros [Hp Hd] Hr. split; [by apply Forall_app|]. intros pre post Heq.
  destruct pre as [|x pre]; [done|]. cbn [node_at]. rewrite fresh_dirs_lookup.
  case_bool_decide as Hb; [done|]. change (t !! (x :: pre)) with (node_at t (x :: pre)).
  destruct (decide (x :: pre `prefix_of` base)) as [[s Hs]|Hn]; [by apply (Hd _ s)|].
  exfalso. apply Hb. assert (x :: pre `prefix_of` base ++ rest) as Hpre by (by eexists).
  split; [|split; [|done]].
  - destruct (prefix_weak_total (x :: pre) base (base ++ rest)) as [?|?]; [done|by eexists|done|done].
  - intros Heq'. apply Hn. by rewrite Heq'.
Qed.

(** All the directories of [rest] are made below a real directory that has none of them. *)
Lemma create_fresh_dirs base rest t :
  real_dir t base → Forall plain rest → (∀ k, base `prefix_of` k → k ≠ base → k `prefix_of` base ++ rest → t !! k = None) →
  create_dir_all umask (base ++ rest) t = (fresh_dirs base rest t, Ok ()).
Proof using Type.
  intros Hb. induction rest as [|c rest IH] using rev_ind; intros Hp Hn.
  { rewrite app_nil_r. by apply create_real_dir. }
  apply Forall_app in Hp as Hpr. destruct Hpr as [Hpr [Hpc _]%Forall_cons].
  assert (create_dir_all umask (base ++ rest) t = (fresh_dirs base rest t, Ok ())) as Hrec.
  { apply IH; [done|]. intros k H1 H2 H3. apply Hn; [done|done|]. rewrite (assoc_L (++)). by apply prefix_app_r. }
  assert (mkdir umask ((base ++ rest) ++ [c]) (fresh_dirs base rest t) = (fresh_dirs base (rest ++ [c]) t, Ok ())) as Hlast.
  { unfold mkdir. rewrite lookup_child_plain by (done || by apply fresh_dirs_real). rewrite node_at_snoc.
    rewrite fresh_dirs_lookup, bool_decide_eq_false_2.
    - rewrite Hn; [by rewrite fresh_dirs_snoc, (assoc_L (++))|by rewrite <- (assoc_L (++)); eexists| |by rewrite <- (assoc_L (++))].
      intros Heq. apply (f_equal length) in Heq. rewrite !length_app in Heq. cbn in Heq. lia.
    - intros (_ & _ & H). apply prefix_length in H. rewrite length_app in H. cbn in H. lia. }
  unfold create_dir_all. rewrite (assoc_L (++)), reverse_snoc. cbn [create_dir_all_rev].
  fold (create_dir_all umask (base ++ rest)). rewrite <- reverse_snoc, reverse_involutive.
  change (create_dir_all_rev umask (reverse (base ++ rest)) t) with (create_dir_all umask (base ++ rest) t).
  destruct rest as [|d rest].
  - rewrite app_nil_r in *. cbn [fresh_dirs] in Hlast. by rewrite Hlast.
  - assert (mkdir umask ((base ++ d :: rest) ++ [c]) t = (t, Err ENOENT)) as ->.
    { assert (lookup_path t false ((base ++ d :: rest) ++ [c]) = Err ENOENT) as Hl.
      { apply Forall_cons in Hpr as [Hd _]. rewrite <- (assoc_L (++)). cbn [app]. apply lookup_missing; [done|done| |by destruct rest].
        apply Hn; [by eexists| |].
        - intros Heq. apply (f_equal length) in Heq. rewrite length_app in Heq. cbn in Heq. lia.
        - exists (rest ++ [c]). by rewrite <- !(assoc_L (++)). }
      unfold mkdir. by rewrite Hl. }
    rewrite Hrec. by rewrite Hlast.
Qed.
End fresh.

(** Some of the directories may exist already: [i] of them do. *)
Lemma missing_dirs base rest t :
  real_dir t base → Forall plain rest →
  (∀ pre n, pre `prefix_of` rest → t !! (base ++ pre) = Some n → pre ≠ [] → is_dir_node (Some n) = true) →
  (∀ pre c, t !! (base ++ pre) = None → pre ≠ [] → t !! (base ++ pre ++ [c]) = None) →
  ∃ i, real_dir t (base ++ take i rest) ∧
    (drop i rest ≠ [] → ∀ s, s ≠ [] → take 1 s = take 1 (drop i rest) → t !! (base ++ take i rest ++ s) = None).
Proof.
  revert base. induction rest as [|c rest IH]; intros base Hb Hp Hd Hc.
  { exists 0. cbn. by rewrite app_nil_r. }
  apply Forall_cons in Hp as [Hpc Hp]. destruct (t !! (base ++ [c])) as [n|] eqn:Hn.
  - destruct (IH (base ++ [c])) as (i & Hr & Hi).
    + apply real_dir_snoc; [done|done|]. rewrite Hn. apply (Hd [c] n); [by exists rest|done|done].
    + done.
    + intros pre m Hpre Hm Hne. apply (Hd (c :: pre) m); [by apply prefix_cons| |done]. by rewrite <- (assoc_L (++)) in Hm.
    + intros pre d Hpre Hne. rewrite <- (assoc_L (++)) in *. by apply (Hc (c :: pre) d).
    + exists (S i). cbn [take drop]. rewrite <- (assoc_L (++)) in Hr. split; [done|].
      intros Hne s Hs Ht. specialize (Hi Hne s Hs Ht). by rewrite <- (assoc_L (++)) in Hi.
  - exists 0. cbn [take drop]. rewrite app_nil_r. split; [done|]. intros _ [|d s] Hs Ht; [done|].
    cbn in Ht. injection Ht as ->. clear Hs. induction s as [|d s IHs] using rev_ind; [done|].
    change (c :: s ++ [d]) with ((c :: s) ++ [d]). by apply Hc.
Qed.

Lemma create_missing_dirs umask base rest i t :
  real_dir t (base ++ take i rest) → Forall plain rest →
  (drop i rest ≠ [] → ∀ s, s ≠ [] → take 1 s = take 1 (drop i rest) → t !! (base ++ take i rest ++ s) = None) →
  create_dir_all umask (base ++ rest) t = (fresh_dirs umask (base ++ take i rest) (drop i rest) t, Ok ()).
Proof.
  intros Hr Hp Hn. rewrite <- (take_drop i rest) at 1. rewrite (assoc_L (++)).
  apply create_fresh_dirs; [done|by apply Forall_drop|]. intros k [s ->] Hne Hk. apply prefix_app_inv in Hk.
  destruct s as [|d s]; [by rewrite app_nil_r in Hne|]. rewrite <- (assoc_L (++)).
  destruct (drop i rest) as [|c l]; [by apply prefix_nil_inv in Hk|].
  apply Hn; [done|done|]. pose proof (prefix_cons_inv_1 _ _ _ _ Hk) as ->. done.
Qed.
