(* ===== verification/Machine.v ===== *)
(** * Machine integers and durations

    Unsigned values are [N], signed ones [Z], with the width written at each
    operation.  A [Duration] is its number of nanoseconds; its whole seconds fit
    in 64 bits. *)

From S2P Require Export Str.

Definition U16_MAX : N := 65535.
Definition U32_MAX : N := 4294967295.
Definition U64_MAX : N := 18446744073709551615.
Definition I64_MAX : Z := 9223372036854775807.
Definition I64_MIN : Z := -9223372036854775808.

(** [checked_add], [checked_mul], [saturating_add], [saturating_sub] of an
    unsigned type with the given maximum. *)
Definition checked_add (max a b : N) : option N := if (a + b <=? max)%N then Some (a + b)%N else None.
Definition checked_mul (max a b : N) : option N := if (a * b <=? max)%N then Some (a * b)%N else None.
Definition saturating_add (max a b : N) : N := N.min max (a + b).
Definition saturating_sub (a b : N) : N := (a - b)%N.

(** [checked_pow]: every partial product of the loop stays in range exactly when
    the result does. *)
Definition checked_pow (max base exponent : N) : option N :=
  if (base ^ exponent <=? max)%N then Some (base ^ exponent)%N else None.

(** [i64::checked_sub] and [i64::try_from(u128)]. *)
Definition i64_checked_sub (a b : Z) : option Z :=
  if ((I64_MIN <=? a - b) && (a - b <=? I64_MAX))%Z then Some (a - b)%Z else None.
Definition i64_try_from (n : N) : option Z :=
  if (Z.of_N n <=? I64_MAX)%Z then Some (Z.of_N n) else None.

(** ** Durations *)

Definition Duration : Type := N.
Definition NANOS_PER_SEC : N := 1000000000.
Definition DURATION_MAX : N := (U64_MAX * NANOS_PER_SEC + 999999999)%N.
Definition from_secs (secs : N) : Duration := (secs * NANOS_PER_SEC)%N.
Definition from_millis (millis : N) : Duration := (millis * 1000000)%N.
Definition as_millis (d : Duration) : N := (d / 1000000)%N.
Definition as_secs (d : Duration) : N := (d / NANOS_PER_SEC)%N.
Definition duration_checked_mul (d : Duration) (k : N) : option Duration :=
  checked_mul DURATION_MAX d k.

Lemma checked_add_Some max a b c : checked_add max a b = Some c ↔ c = (a + b)%N ∧ (a + b <= max)%N.
Proof. unfold checked_add. destruct (N.leb_spec (a + b) max); naive_solver lia. Qed.
Lemma checked_mul_Some max a b c : checked_mul max a b = Some c ↔ c = (a * b)%N ∧ (a * b <= max)%N.
Proof. unfold checked_mul. destruct (N.leb_spec (a * b) max); naive_solver lia. Qed.
Lemma checked_pow_Some max a b c : checked_pow max a b = Some c ↔ c = (a ^ b)%N ∧ (a ^ b <= max)%N.
Proof. unfold checked_pow. destruct (N.leb_spec (a ^ b) max); naive_solver lia. Qed.
Lemma i64_checked_sub_Some a b c :
  i64_checked_sub a b = Some c ↔ c = (a - b)%Z ∧ (I64_MIN <= a - b <= I64_MAX)%Z.
Proof.
  unfold i64_checked_sub.
  destruct (Z.leb_spec I64_MIN (a - b)), (Z.leb_spec (a - b) I64_MAX); simpl; naive_solver lia.
Qed.
