(* ===== verification/Patch.v ===== *)
(** * [src/patch.rs]: unified diffs applied to a package tarball

    Parsing a patch, applying its hunks to the text of one file, and replacing
    the patched files of an archive.  Reading and writing the gzip tarball are
    the arguments [untar] and [tar]; everything between is the code.  A panic of
    the code is the error [PPanic]. *)

From S2P Require Export Str.
From Stdlib Require Import Ascii.

Definition LF : string := String newline "".
Definition no_newline_marker : string := "\ No newline at end of file".

Inductive MalformedReason :=
  | ExpectedPlus
  | BadHunkLine (line : string)
  | CreateOrDelete
  | UnsafePath (path : string)
  | BadHunkHeader (header : string).

Inductive PatchError :=
  | PEmpty
  | PMalformed (reason : MalformedReason)
  | PMissingTarget (target : string)
  | PHunkMismatch (path : string) (line : N)
  | PRead (message : string)
  | PWrite (message : string)
  | PUtf8 (path : string)
  | PPanic (message : string).

Record TarEntry := mk_TarEntry { te_path : string; te_mode : N; te_data : string }.

Inductive HunkLine := Context (value : string) | Remove (value : string) | Add (value : string).
Record Hunk := mk_Hunk { h_old_start : N; h_lines : list HunkLine }.
Record FilePatch := mk_FilePatch { fp_target : string; fp_hunks : list Hunk }.

(** ** Parsing *)

Definition normalize_patch_path (value : string) : result PatchError string :=
  let path := default value (head (split_whitespace value)) in
  fail_if (bool_decide (path = "/dev/null")) with_err (PMalformed CreateOrDelete);
  let path := trim_start_str "./"
                (default (default path (strip_prefix "b/" path)) (strip_prefix "a/" path)) in
  fail_if (is_empty path || contains_str ".." path) with_err (PMalformed (UnsafePath path));
  Ok path.

Definition parse_old_start (header : string) : result PatchError N :=
  old ← ok_or (PMalformed (BadHunkHeader header))
          (find (starts_with_char "-") (split_whitespace header));
  ok_or (PMalformed (BadHunkHeader header))
    (parse_uint 64 (default "1" (head (split_char "," (trim_start_matches (ceqb "-") old))))).

(** [line.split_at(1)] panics on an empty line and inside a character. *)
Definition hunk_line (line : string) : result PatchError HunkLine :=
  match line with
  | "" => Err (PPanic "failed to slice string")
  | String kind value =>
      fail_if (match value with String c _ => is_cont c | "" => false end)
        with_err (PPanic "failed to slice string");
      let value := value +:+ LF in
      if ceqb kind " " then Ok (Context value)
      else if ceqb kind "-" then Ok (Remove value)
      else if ceqb kind "+" then Ok (Add value)
      else Err (PMalformed (BadHunkLine line))
  end.

Definition is_file_header (line : string) : bool := starts_with "--- " line.
Definition is_hunk_header (line : string) : bool := starts_with "@@ " line.

(** The lines of one hunk and what follows them. *)
Fixpoint hunk_body (lines : list string) : result PatchError (list HunkLine * list string) :=
  match lines with
  | [] => Ok ([], [])
  | line :: rest =>
      if is_hunk_header line || is_file_header line then Ok ([], lines)
      else if bool_decide (line = no_newline_marker) then hunk_body rest
      else parsed ← hunk_line line;
           '(body, rest) ← hunk_body rest;
           Ok (parsed :: body, rest)
  end.

(** The hunks of one file; every round consumes a line, so the number of lines
    is enough fuel. *)
Fixpoint file_hunks (fuel : nat) (lines : list string)
    : result PatchError (list Hunk * list string) :=
  match fuel, lines with
  | S fuel, line :: rest =>
      if is_file_header line then Ok ([], lines)
      else if negb (is_hunk_header line) then file_hunks fuel rest
      else old_start ← parse_old_start line;
           '(body, rest) ← hunk_body rest;
           '(hunks, rest) ← file_hunks fuel rest;
           Ok (mk_Hunk old_start body :: hunks, rest)
  | _, _ => Ok ([], lines)
  end.

Fixpoint parse_files (fuel : nat) (lines : list string) : result PatchError (list FilePatch) :=
  match fuel, lines with
  | S fuel, line :: rest =>
      if negb (is_file_header line) then parse_files fuel rest
      else match rest with
           | plus :: rest =>
               fail_if (negb (starts_with "+++ " plus)) with_err (PMalformed ExpectedPlus);
               target ← normalize_patch_path (trim_start_str "+++ " plus);
               '(hunks, rest) ← file_hunks (length rest) rest;
               patches ← parse_files fuel rest;
               Ok (mk_FilePatch target hunks :: patches)
           | [] => Err (PMalformed ExpectedPlus)
           end
  | _, _ => Ok []
  end.

Definition parse_patch (text : string) : result PatchError (list FilePatch) :=
  let lines := lines text in
  patches ← parse_files (length lines) lines;
  fail_if (bool_decide (length patches = 0)) with_err PEmpty;
  Ok patches.

(** ** Applying *)

Definition split_lines (value : string) : list string :=
  if is_empty value then [] else split_inclusive newline value.

Definition expect_line (path : string) (original : list string) (cursor : nat) (expected : string)
    : result PatchError () :=
  if bool_decide (original !! cursor = Some expected) then Ok ()
  else Err (PHunkMismatch path (N.of_nat (cursor + 1))).

(** The state of the loops: the output so far and the cursor. *)
Definition apply_line (path : string) (original : list string) (st : list string * nat)
    (line : HunkLine) : result PatchError (list string * nat) :=
  let '(output, cursor) := st in
  match line with
  | Context value =>
      _ ← expect_line path original cursor value; Ok (output ++ [value], cursor + 1)
  | Remove value => _ ← expect_line path original cursor value; Ok (output, cursor + 1)
  | Add value => Ok (output ++ [value], cursor)
  end.

(** [old_start.saturating_sub(1)]. *)
Definition hunk_start (h : Hunk) : nat := N.to_nat (h_old_start h - 1).

Definition apply_hunk (path : string) (original : list string) (st : list string * nat) (h : Hunk)
    : result PatchError (list string * nat) :=
  let '(output, cursor) := st in
  fail_if ((hunk_start h <? cursor) || (length original <? hunk_start h))%nat
    with_err (PHunkMismatch path (h_old_start h));
  fold_res (apply_line path original)
    (output ++ take (hunk_start h - cursor) (drop cursor original), hunk_start h) (h_lines h).

Definition apply_file_patch (path original : string) (patch : FilePatch) : result PatchError string :=
  let original_lines := split_lines original in
  '(output, cursor) ← fold_res (apply_hunk path original_lines) ([], 0) (fp_hunks patch);
  Ok (concat_s (output ++ drop cursor original_lines)).

(** ** The archive *)

Definition slash : ascii := "/"%char.

(** The first entry whose path below its first component is the target. *)
Definition below_root (target : string) (e : TarEntry) : Prop :=
  snd <$> split_once "/" (te_path e) = Some target.
#[global] Instance below_root_dec target e : Decision (below_root target e).
Proof. unfold below_root. apply _. Defined.

(** [candidates] keeps the last entry of a path. *)
Definition find_target (entries : list TarEntry) (target : string) : option nat :=
  let candidates : gmap string nat :=
    foldl (λ m '(i, e), <[te_path e := i]> m) ∅ (imap pair entries) in
  match candidates !! target with
  | Some index => Some index
  | None =>
      match candidates !! ("package/" +:+ target) with
      | Some index => Some index
      | None => fst <$> list_find (below_root target) entries
      end
  end.

Definition apply_to_entries (entries : list TarEntry) (patch : FilePatch)
    : result PatchError (list TarEntry) :=
  index ← ok_or (PMissingTarget (fp_target patch)) (find_target entries (fp_target patch));
  match entries !! index with
  | None => Err (PPanic "index out of bounds")
  | Some entry =>
      fail_if (negb (utf8_valid (te_data entry))) with_err (PUtf8 (te_path entry));
      patched ← apply_file_patch (te_path entry) (te_data entry) patch;
      Ok (<[index := mk_TarEntry (te_path entry) (te_mode entry) patched]> entries)
  end.

Section archive.
(** A member of a tarball as the library reads it: whether it is a regular file,
    its path, its mode if readable, and its bytes. *)
Record RawEntry := mk_RawEntry { raw_file : bool; raw_path : string; raw_mode : option N; raw_data : string }.

Context (untar : string → result string (list RawEntry)).
Context (tar : list TarEntry → result string string).

(** The regular files, with forward slashes. *)
Definition tar_entry (e : RawEntry) : TarEntry :=
  mk_TarEntry (replace_char "\" slash (raw_path e)) (default 420%N (raw_mode e)) (raw_data e).
Definition tar_entries (raw : list RawEntry) : list TarEntry :=
  tar_entry <$> filter (λ e, raw_file e = true) raw.

Definition read_entries (tarball : string) : result PatchError (list TarEntry) :=
  tar_entries <$> map_err PRead (untar tarball).

Definition write_entries (entries : list TarEntry) : result PatchError string :=
  map_err PWrite (tar entries).

Definition apply_unified_patch_to_tgz (tarball patch_text : string) : result PatchError string :=
  patches ← parse_patch patch_text;
  entries ← read_entries tarball;
  entries ← fold_res apply_to_entries entries patches;
  write_entries entries.
End archive.
