(* ===== verification/PatchTheory.v ===== *)
(** * What applying a patch does

    The hunk loops compute exactly the relational reading of a unified diff
    ([applies]); a patch can be undone; and the printed form of a patch parses
    back to it. *)

From S2P Require Export Patch.
From Stdlib Require Import Ascii.

(** ** Specification *)

(** The lines a hunk expects and the lines it leaves. *)
Definition old_line (l : HunkLine) : list string :=
  match l with Context v | Remove v => [v] | Add _ => [] end.
Definition new_line (l : HunkLine) : list string :=
  match l with Context v | Add v => [v] | Remove _ => [] end.
Definition old_lines (ls : list HunkLine) : list string := ls ≫= old_line.
Definition new_lines (ls : list HunkLine) : list string := ls ≫= new_line.

(** [applies c hs a b]: at line [c] of the file, with [a] still to read, the
    hunks [hs] turn [a] into [b]: each hunk's old lines stand at its own
    position and give way to its new lines; everything between is kept. *)
Inductive applies : nat → list Hunk → list string → list string → Prop :=
  | applies_done c rest : applies c [] rest rest
  | applies_hunk c gap h hs rest out :
      hunk_start h = c + length gap →
      applies (hunk_start h + length (old_lines (h_lines h))) hs rest out →
      applies c (h :: hs) (gap ++ old_lines (h_lines h) ++ rest)
        (gap ++ new_lines (h_lines h) ++ out).

(** ** The loops *)

Lemma old_lines_cons l ls : old_lines (l :: ls) = old_line l ++ old_lines ls.
Proof. done. Qed.
Lemma new_lines_cons l ls : new_lines (l :: ls) = new_line l ++ new_lines ls.
Proof. done. Qed.

Lemma expect_line_Ok path original cursor v u :
  expect_line path original cursor v = Ok u ↔ original !! cursor = Some v.
Proof. unfold expect_line. destruct u. case_bool_decide; naive_solver. Qed.

(** One hunk line reads its old line and writes its new one. *)
Lemma apply_line_Ok path original out cur l out' cur' :
  apply_line path original (out, cur) l = Ok (out', cur') ↔
  (∃ rest, drop cur original = old_line l ++ rest) ∧
  cur' = cur + length (old_line l) ∧ out' = out ++ new_line l.
Proof.
  assert (∀ v, (∃ rest, drop cur original = [v] ++ rest) ↔ original !! cur = Some v) as Hd.
  { intros v. split.
    - intros [rest Hr]. rewrite <- (Nat.add_0_r cur), <- lookup_drop. by rewrite Hr.
    - intros Hv. exists (drop (S cur) original). by apply drop_S. }
  destruct l as [v|v|v]; unfold apply_line, old_line, new_line.
  - rewrite bind_Ok, Hd. setoid_rewrite expect_line_Ok. split.
    + intros (? & ? & [= <- <-]). done.
    + intros (? & -> & ->). exists (). done.
  - rewrite bind_Ok, Hd, app_nil_r. setoid_rewrite expect_line_Ok. split.
    + intros (? & ? & [= <- <-]). done.
    + intros (? & -> & ->). exists (). done.
  - simpl. rewrite Nat.add_0_r. split.
    + intros [= <- <-]. split; [by eexists|done].
    + intros (? & -> & ->). done.
Qed.

Lemma drop_prefix {A} (l a b : list A) c :
  (∃ rest, drop c l = (a ++ b) ++ rest) ↔
  (∃ rest, drop c l = a ++ rest) ∧ (∃ rest, drop (c + length a) l = b ++ rest).
Proof.
  split.
  - intros [rest Hr]. rewrite <- (assoc_L (++)) in Hr. split; [by eexists|].
    exists rest. by rewrite <- drop_drop, Hr, drop_app_length.
  - intros [[r Hr] [r' Hr']]. exists r'.
    rewrite <- drop_drop, Hr, drop_app_length in Hr'. by rewrite Hr, Hr', (assoc_L (++)).
Qed.

Lemma apply_lines_Ok path original ls out cur out' cur' :
  fold_res (apply_line path original) (out, cur) ls = Ok (out', cur') ↔
  (∃ rest, drop cur original = old_lines ls ++ rest) ∧
  cur' = cur + length (old_lines ls) ∧ out' = out ++ new_lines ls.
Proof.
  revert out cur. induction ls as [|l ls IH]; intros out cur.
  - simpl. rewrite Nat.add_0_r, app_nil_r. split.
    + intros [= <- <-]. split; [by eexists|done].
    + intros (_ & -> & ->). done.
  - cbn [fold_res]. rewrite bind_Ok, old_lines_cons, new_lines_cons, drop_prefix, length_app.
    rewrite Nat.add_assoc, (assoc_L (++)). split.
    + intros ([out1 cur1] & (? & -> & ->)%apply_line_Ok & (? & -> & ->)%IH). done.
    + intros ([? ?] & -> & ->). exists (out ++ new_line l, cur + length (old_line l)).
      by rewrite apply_line_Ok, IH.
Qed.

Lemma apply_hunk_Ok path original out cur h out' cur' :
  cur ≤ length original →
  apply_hunk path original (out, cur) h = Ok (out', cur') ↔
  ∃ gap rest, hunk_start h = cur + length gap ∧
    drop cur original = gap ++ old_lines (h_lines h) ++ rest ∧
    drop cur' original = rest ∧ cur' = hunk_start h + length (old_lines (h_lines h)) ∧
    cur' ≤ length original ∧ out' = out ++ gap ++ new_lines (h_lines h).
Proof.
  intros Hcur. unfold apply_hunk.
  destruct (_ || _)%nat eqn:Hg.
  - split; [done|]. intros (gap & rest & Hs & Hd & _).
    apply (f_equal length) in Hd. rewrite length_drop, !length_app in Hd.
    apply orb_true_iff in Hg as [Hg%Nat.ltb_lt|Hg%Nat.ltb_lt]; lia.
  - apply orb_false_iff in Hg as [Hg1%Nat.ltb_ge Hg2%Nat.ltb_ge].
    rewrite apply_lines_Ok. split.
    + intros ([rest Hr] & -> & ->).
      exists (take (hunk_start h - cur) (drop cur original)), rest.
      rewrite length_take, length_drop, <- drop_drop, Hr, drop_app_length.
      split; [lia|]. split.
      { rewrite <- Hr, <- (take_drop (hunk_start h - cur) (drop cur original)) at 1.
        rewrite drop_drop. do 2 f_equal. lia. }
      split; [done|]. split; [done|]. split; [|by rewrite (assoc_L (++))].
      apply (f_equal length) in Hr. rewrite length_drop, length_app in Hr. lia.
    + intros (gap & rest & Hs & Hd & _ & -> & _ & ->).
      replace (hunk_start h - cur) with (length gap) by lia.
      rewrite Hd, take_app_length. split; [|by rewrite (assoc_L (++))].
      exists rest. by rewrite Hs, <- drop_drop, Hd, drop_app_length.
Qed.

Lemma apply_hunks_sound path original hs out cur out' cur' :
  cur ≤ length original →
  fold_res (apply_hunk path original) (out, cur) hs = Ok (out', cur') →
  ∃ tail, out' ++ drop cur' original = out ++ tail ∧ applies cur hs (drop cur original) tail.
Proof.
  revert out cur. induction hs as [|h hs IH]; intros out cur Hcur; cbn [fold_res].
  - intros [= <- <-]. eexists. split; [done|constructor].
  - intros ([out1 cur1] & Hh & Hr)%bind_Ok.
    apply apply_hunk_Ok in Hh as (gap & rest & Hs & Hd & Hd' & Hc & Hle & ->); [|done].
    apply IH in Hr as (tail & Ht & Ha); [|done]. exists (gap ++ new_lines (h_lines h) ++ tail).
    split; [by rewrite Ht, <- !(assoc_L (++))|]. rewrite Hd. constructor; [done|].
    rewrite <- Hc. by rewrite Hd' in Ha.
Qed.

Lemma apply_hunks_complete path original hs out cur tail :
  cur ≤ length original → applies cur hs (drop cur original) tail →
  ∃ out' cur', fold_res (apply_hunk path original) (out, cur) hs = Ok (out', cur') ∧
               out' ++ drop cur' original = out ++ tail.
Proof.
  revert out cur tail. induction hs as [|h hs IH]; intros out cur tail Hcur Ha; cbn [fold_res].
  - inversion Ha; subst. by eexists _, _.
  - inversion Ha as [|c gap h' hs' rest out1 Hs Ha' Hc Hh Hd Ht]; subst. symmetry in Hd.
    set (cur1 := hunk_start h + length (old_lines (h_lines h))) in *.
    assert (cur1 ≤ length original) as Hle.
    { apply (f_equal length) in Hd. rewrite length_drop, !length_app in Hd. lia. }
    assert (drop cur1 original = rest) as Hr.
    { unfold cur1. rewrite Hs, <- !drop_drop, Hd. by rewrite drop_app_length, drop_app_length. }
    rewrite <- Hr in Ha'.
    destruct (IH (out ++ gap ++ new_lines (h_lines h)) cur1 out1 Hle Ha') as (o & c & Hf & He).
    exists o, c. rewrite He, <- !(assoc_L (++)). split; [|done].
    apply bind_Ok. exists (out ++ gap ++ new_lines (h_lines h), cur1). split; [|done].
    apply apply_hunk_Ok; [done|]. by exists gap, rest.
Qed.

Lemma apply_line_Err path original st l e :
  apply_line path original st l = Err e → ∃ n, e = PHunkMismatch path n.
Proof.
  destruct st as [out cur], l as [v|v|v]; unfold apply_line, expect_line; simpl; [..|done];
    case_bool_decide; simpl; intros [= <-]; by eexists.
Qed.

Lemma apply_hunk_Err path original st h e :
  apply_hunk path original st h = Err e → ∃ n, e = PHunkMismatch path n.
Proof.
  destruct st as [out cur]. unfold apply_hunk. destruct (_ || _)%nat.
  - intros [= <-]. by eexists.
  - intros (? & ? & ? & ? & _ & _ & He)%fold_res_Err. by eapply apply_line_Err.
Qed.


(** ** Undoing a patch *)

Definition reverse_line (l : HunkLine) : HunkLine :=
  match l with Context v => Context v | Remove v => Add v | Add v => Remove v end.

(** The hunks that turn the result back, at their positions in the result:
    [c] and [c'] are the lines already behind in the two files. *)
Fixpoint reverse_hunks (c c' : nat) (hs : list Hunk) : list Hunk :=
  match hs with
  | [] => []
  | h :: hs =>
      let at_new := c' + (hunk_start h - c) in
      mk_Hunk (N.of_nat (S at_new)) (reverse_line <$> h_lines h) ::
      reverse_hunks (hunk_start h + length (old_lines (h_lines h)))
        (at_new + length (new_lines (h_lines h))) hs
  end.
Definition reverse_patch (p : FilePatch) : FilePatch :=
  mk_FilePatch (fp_target p) (reverse_hunks 0 0 (fp_hunks p)).

Lemma old_reverse ls : old_lines (reverse_line <$> ls) = new_lines ls.
Proof.
  induction ls as [|l ls IH]; [done|].
  rewrite fmap_cons, old_lines_cons, new_lines_cons, IH. by destruct l.
Qed.
Lemma new_reverse ls : new_lines (reverse_line <$> ls) = old_lines ls.
Proof.
  induction ls as [|l ls IH]; [done|].
  rewrite fmap_cons, old_lines_cons, new_lines_cons, IH. by destruct l.
Qed.

Lemma hunk_start_at n ls : hunk_start (mk_Hunk (N.of_nat (S n)) ls) = n.
Proof. unfold hunk_start. cbn [h_old_start]. lia. Qed.

Lemma applies_reverse c c' hs a b : applies c hs a b → applies c' (reverse_hunks c c' hs) b a.
Proof.
  intros Ha. revert c'. induction Ha as [c rest|c gap h hs rest out Hs Ha IH]; intros c'; [constructor|].
  cbn [reverse_hunks]. set (h' := mk_Hunk _ _).
  assert (hunk_start h' = c' + length gap) as Hs' by (unfold h'; rewrite hunk_start_at; lia).
  assert (old_lines (h_lines h') = new_lines (h_lines h)) as E1 by apply old_reverse.
  assert (new_lines (h_lines h') = old_lines (h_lines h)) as E2 by apply new_reverse.
  pose proof (applies_hunk c' gap h'
    (reverse_hunks (hunk_start h + length (old_lines (h_lines h)))
       (c' + (hunk_start h - c) + length (new_lines (h_lines h))) hs) out rest Hs') as Hx.
  rewrite E1, E2 in Hx. apply Hx.
  replace (c' + (hunk_start h - c)) with (hunk_start h') by lia. apply IH.
Qed.

(** Every line a patch writes is a full line. *)
Definition writes_full (hs : list Hunk) : Prop :=
  Forall (λ h, Forall full_line (new_lines (h_lines h))) hs.

Lemma applies_full c hs a b :
  applies c hs a b → Forall full_line a → writes_full hs → Forall full_line b.
Proof.
  induction 1 as [|c gap h hs rest out _ _ IH]; [done|].
  intros Hf Hw. rewrite !Forall_app in Hf. destruct Hf as (Hg & _ & Hr).
  inversion Hw; subst. rewrite !Forall_app. auto.
Qed.

Lemma split_lines_concat l : Forall full_line l → split_lines (concat_s l) = l.
Proof.
  intros Hl. unfold split_lines. destruct (is_empty (concat_s l)) eqn:He.
  - destruct Hl as [|x l (v & -> & _) _]; [done|]. apply is_empty_true in He. simpl in He.
    apply app_eq_nil_s in He as [[_ ?]%app_eq_nil_s _]. done.
  - by apply split_concat_full.
Qed.

Lemma split_lines_full s : terminated s → Forall full_line (split_lines s).
Proof. intros Hs. unfold split_lines. destruct (is_empty s); [by constructor|]. by apply split_inclusive_full. Qed.

Lemma concat_split_lines s : concat_s (split_lines s) = s.
Proof.
  unfold split_lines. destruct (is_empty s) eqn:He; [by apply is_empty_true in He as ->|].
  apply concat_split_inclusive.
Qed.

(** A patch can be undone: when it applies to a text with terminated lines and
    writes full lines, the reversed patch applies to the result and gives back
    the original text, byte for byte. *)
Theorem apply_reverse_patch path original patch text :
  terminated original → writes_full (fp_hunks patch) →
  apply_file_patch path original patch = Ok text →
  apply_file_patch path text (reverse_patch patch) = Ok original.
Proof.
  intros Ht Hw Hok. unfold apply_file_patch in Hok.
  apply bind_Ok in Hok as ([out cur] & Hf & [= <-]).
  apply apply_hunks_sound in Hf as (tail & -> & Ha); [|lia]. rewrite drop_0 in Ha.
  rewrite app_nil_l. pose proof (applies_full _ _ _ _ Ha (split_lines_full _ Ht) Hw) as Hfull.
  apply (applies_reverse 0 0) in Ha. unfold apply_file_patch.
  rewrite (split_lines_concat tail) by done.
  destruct (apply_hunks_complete path tail (fp_hunks (reverse_patch patch)) [] 0 (split_lines original))
    as (o & c & Hf & He); [lia|done|]. rewrite Hf. simpl. rewrite He. simpl.
  by rewrite concat_split_lines.
Qed.

(** ** Printing *)

Definition print_line (l : HunkLine) : string :=
  match l with
  | Context v => String " " v
  | Remove v => String "-" v
  | Add v => String "+" v
  end.
Definition range (start : N) (n : nat) : string := pretty start +:+ "," +:+ pretty (N.of_nat n).
(** [new_start], where the hunk goes in the patched file, is not read back. *)
Definition hunk_words (new_start : N) (h : Hunk) : list string :=
  ["@@"; String "-" (range (h_old_start h) (length (old_lines (h_lines h))));
   String "+" (range new_start (length (new_lines (h_lines h)))); "@@"].
Definition print_hunk (h : Hunk) : list string :=
  (join " " (hunk_words (h_old_start h) h) +:+ LF) :: (print_line <$> h_lines h).
Definition print_file (p : FilePatch) : list string :=
  ("--- a/" +:+ fp_target p +:+ LF) :: ("+++ b/" +:+ fp_target p +:+ LF) ::
  (fp_hunks p ≫= print_hunk).
Definition print_patch (ps : list FilePatch) : string := concat_s (ps ≫= print_file).

(** A hunk line as a line-based diff can carry it. *)
Definition line_value (l : HunkLine) : string :=
  match l with Context v | Remove v | Add v => v end.
Definition printable_line (l : HunkLine) : Prop :=
  (∃ v, line_value l = v +:+ LF ∧ contains_char newline v = false ∧
        ends_with (String carriage_return "") v = false ∧
        match v with String c _ => is_cont c = false | "" => True end) ∧
  match l with Remove v => starts_with "-- " v = false | _ => True end.
Definition printable_target (t : string) : Prop :=
  t ≠ "" ∧ all_chars is_graph t = true ∧ strip_prefix "./" t = None ∧ contains_str ".." t = false.
Definition printable_hunk (h : Hunk) : Prop :=
  (h_old_start h < 2 ^ 64)%N ∧ Forall printable_line (h_lines h).
Definition printable (p : FilePatch) : Prop :=
  printable_target (fp_target p) ∧ Forall printable_hunk (fp_hunks p).

Lemma printed_line_text l v :
  line_value l = v +:+ LF → contains_char newline v = false →
  (∀ r, v ≠ r +:+ String carriage_return "") →
  full_line (print_line l) ∧
  line_text (print_line l) = match l with Context _ => String " " v | Remove _ => String "-" v | Add _ => String "+" v end.
Proof.
  intros Hv Hn Hc.
  assert (∀ k, k ≠ newline → full_line (String k (v +:+ LF)) ∧ line_text (String k (v +:+ LF)) = String k v ∨ v = "" ∧ k = carriage_return) as H.
  { intros k Hk. destruct (decide (v = "" ∧ k = carriage_return)) as [?|Hne]; [by right|]. left.
    rewrite <- app_cons_s. split.
    - exists (String k v). split; [done|]. cbn [contains_char any_char].
      apply orb_false_iff. split; [by apply ceqb_neq|done].
    - apply line_text_full. intros [|c r] Hr; [|by injection Hr as _ ?; eapply Hc].
      injection Hr as -> ->. by apply Hne. }
  destruct l; simpl in Hv; subst; cbn [print_line];
    (match goal with |- context [String ?k _] => destruct (H k) as [Hk|[_ Hk]] end); done.
Qed.

Lemma hunk_line_of (k : ascii) v :
  match v with String c _ => is_cont c = false | "" => True end →
  hunk_line (String k v) =
    if ceqb k " " then Ok (Context (v +:+ LF)) else if ceqb k "-" then Ok (Remove (v +:+ LF))
    else if ceqb k "+" then Ok (Add (v +:+ LF)) else Err (PMalformed (BadHunkLine (String k v))).
Proof. intros Hv. unfold hunk_line. destruct v as [|c v]; [done|]. by rewrite Hv. Qed.

(** The line of a printable hunk line reads back and ends no hunk. *)
Lemma printable_line_reads l :
  printable_line l →
  full_line (print_line l) ∧ hunk_line (line_text (print_line l)) = Ok l ∧
  is_hunk_header (line_text (print_line l)) = false ∧
  is_file_header (line_text (print_line l)) = false ∧
  line_text (print_line l) ≠ no_newline_marker.
Proof.
  intros [(v & Hv & Hn & Hc & Hb) Hr].
  assert (∀ r, v ≠ r +:+ String carriage_return "") as Hc'.
  { intros r Hv'. apply not_true_iff_false in Hc. apply Hc, ends_with_true. by exists r. }
  clear Hc. rename Hc' into Hc. destruct (printed_line_text l v Hv Hn Hc) as [Hf ->].
  split; [done|]. destruct l as [x|x|x]; simpl in Hv; subst x; rewrite hunk_line_of by done;
    (split; [done|]; split; [done|]; split; [|done]); try done.
  unfold is_file_header, starts_with in *. apply bool_decide_eq_false in Hr.
  apply bool_decide_eq_false. intros [r Hs]. apply Hr. apply strip_prefix_Some in Hs.
  injection Hs as Hs. exists (r +:+ LF). apply strip_prefix_Some.
  rewrite Hs. reflexivity.
Qed.

Definition ends_hunk (rest : list string) : Prop :=
  match rest with [] => True | l :: _ => is_hunk_header l = true ∨ is_file_header l = true end.
Definition ends_file (rest : list string) : Prop :=
  match rest with [] => True | l :: _ => is_file_header l = true end.

Lemma hunk_body_print ls rest :
  Forall printable_line ls → ends_hunk rest →
  hunk_body ((line_text <$> (print_line <$> ls)) ++ rest) = Ok (ls, rest).
Proof.
  intros Hls Hrest. induction Hls as [|l ls Hl Hls IH].
  - simpl. destruct rest as [|r rest]; [done|]. cbn [hunk_body].
    by destruct Hrest as [-> | ->]; rewrite ?orb_true_r.
  - destruct (printable_line_reads l Hl) as (_ & Hp & Hh & Hf & Hm).
    rewrite !fmap_cons. cbn [app hunk_body]. rewrite Hh, Hf. cbn [orb].
    rewrite bool_decide_eq_false_2, Hp by done. simpl. by rewrite IH.
Qed.

Definition is_plain (c : ascii) : bool := in_range 32 126 c.
Lemma graph_plain s : all_chars is_graph s = true → all_chars is_plain s = true.
Proof.
  apply all_chars_impl. intros c. unfold is_graph, is_plain. rewrite !in_range_true. lia.
Qed.

Lemma plain_line v :
  all_chars is_plain v = true → full_line (v +:+ LF) ∧ line_text (v +:+ LF) = v.
Proof.
  intros Hv. split.
  - exists v. split; [done|]. by apply (contains_char_all is_plain).
  - apply line_text_full. intros r ->. rewrite all_chars_app in Hv.
    apply andb_true_iff in Hv as [_ Hv]. done.
Qed.

Lemma range_graph start n : all_chars is_graph (range start n) = true.
Proof.
  assert (∀ x : N, all_chars is_graph (pretty x) = true) as Hd.
  { intros x. eapply all_chars_impl, pretty_N_digits. intros c. unfold is_ascii_digit, is_graph.
    rewrite !in_range_true. lia. }
  unfold range. by rewrite !all_chars_app, !Hd.
Qed.

Lemma hunk_words_ok n h : Forall (λ w, all_chars is_graph w = true ∧ w ≠ "") (hunk_words n h).
Proof.
  unfold hunk_words. rewrite !Forall_cons. pose proof range_graph as Hr.
  repeat split; try done; apply Hr.
Qed.

Lemma join_plain ws :
  Forall (λ w, all_chars is_graph w = true ∧ w ≠ "") ws → all_chars is_plain (join " " ws) = true.
Proof.
  induction 1 as [|w ws [Hw _] H IH]; [done|]. apply graph_plain in Hw. destruct ws as [|v ws]; [done|].
  change (join " " (w :: v :: ws)) with (w +:+ " " +:+ join " " (v :: ws)).
  by rewrite !all_chars_app, Hw, IH.
Qed.

Lemma hunk_header_reads n h :
  (h_old_start h < 2 ^ 64)%N → parse_old_start (join " " (hunk_words n h)) = Ok (h_old_start h).
Proof.
  intros Hb. unfold parse_old_start. rewrite split_whitespace_join by apply hunk_words_ok.
  assert (find (starts_with_char "-") (hunk_words n h) =
    Some (String "-" (range (h_old_start h) (length (old_lines (h_lines h)))))) as -> by reflexivity.
  simpl ok_or. unfold mbind at 1, result_bind.
  assert (∀ x n, trim_start_matches (ceqb "-") (String "-" (range x n)) = range x n) as ->.
  { intros x m. unfold range. pose proof (pretty_N_digits x) as Hd. pose proof (pretty_N_nonempty x) as Hne.
    destruct (pretty x) as [|c s] eqn:Hx; [done|]. rewrite app_cons_s. cbn [trim_start_matches].
    rewrite Ascii.eqb_refl. cbn [all_chars] in Hd. apply andb_true_iff in Hd as [Hc _].
    destruct (ceqb "-" c) eqn:He; [|done]. apply ceqb_eq in He as <-. done. }
  unfold range. match goal with |- context ["," +:+ ?x] => change ("," +:+ x) with (String "," x) end.
  rewrite split_char_app.
  - simpl head. simpl default. by rewrite parse_uint_pretty.
  - by apply (contains_char_all is_ascii_digit), pretty_N_digits.
Qed.

Lemma print_hunk_text h :
  line_text <$> print_hunk h =
  join " " (hunk_words (h_old_start h) h) :: (line_text <$> (print_line <$> h_lines h)).
Proof.
  unfold print_hunk. rewrite fmap_cons. f_equal. apply plain_line, join_plain, hunk_words_ok.
Qed.
Lemma print_hunks_cons h hs :
  line_text <$> ((h :: hs) ≫= print_hunk) =
  join " " (hunk_words (h_old_start h) h) ::
    (line_text <$> (print_line <$> h_lines h)) ++ (line_text <$> (hs ≫= print_hunk)).
Proof. by rewrite bind_cons, fmap_app, print_hunk_text. Qed.

Lemma file_hunks_print hs rest fuel :
  Forall printable_hunk hs → ends_file rest → length (line_text <$> (hs ≫= print_hunk)) ≤ fuel →
  file_hunks fuel ((line_text <$> (hs ≫= print_hunk)) ++ rest) = Ok (hs, rest).
Proof.
  intros Hhs Hrest. revert fuel. induction Hhs as [|h hs [Hb Hl] Hhs IH]; intros fuel Hfuel.
  - destruct fuel as [|fuel]; [done|]. simpl. destruct rest as [|r rest]; [done|].
    cbn [file_hunks]. by rewrite Hrest.
  - rewrite print_hunks_cons in *. rewrite length_cons, length_app in Hfuel.
    destruct fuel as [|fuel]; [lia|].
    rewrite <- app_comm_cons, <- (assoc_L (++)). cbn [file_hunks].
    set (header := join " " (hunk_words (h_old_start h) h)).
    replace (is_file_header header) with false by reflexivity.
    replace (is_hunk_header header) with true by reflexivity. cbn [negb].
    unfold header. rewrite hunk_header_reads by done. simpl ok_or. unfold mbind at 1, result_bind at 1.
    rewrite hunk_body_print; [|done|].
    + simpl. rewrite IH by lia. simpl. by destruct h.
    + destruct hs as [|h' hs]; [simpl; destruct rest; [done|by right]|].
      rewrite print_hunks_cons. by left.
Qed.

(** ** The round trip *)

Lemma strip_suffix_no_newline v r : contains_char newline v = false → v ≠ r +:+ LF.
Proof. intros Hv ->. rewrite contains_char_app in Hv. by apply orb_false_iff in Hv as [_ Hv]. Qed.

Lemma file_lines t :
  printable_target t →
  (full_line ("--- a/" +:+ t +:+ LF) ∧ line_text ("--- a/" +:+ t +:+ LF) = "--- a/" +:+ t) ∧
  (full_line ("+++ b/" +:+ t +:+ LF) ∧ line_text ("+++ b/" +:+ t +:+ LF) = "+++ b/" +:+ t).
Proof.
  intros (_ & Hg%graph_plain & _).
  rewrite !(app_assoc_s _ t LF). split; apply plain_line; by rewrite all_chars_app, Hg.
Qed.

Lemma target_reads t :
  printable_target t → normalize_patch_path (trim_start_str "+++ " ("+++ b/" +:+ t)) = Ok t.
Proof.
  intros (Hne & Hg & Hp & Hd).
  assert (trim_start_str "+++ " ("+++ b/" +:+ t) = "b/" +:+ t) as ->.
  { unfold trim_start_str. change ("+++ b/" +:+ t) with ("+++ " +:+ ("b/" +:+ t)).
    cbn [trim_start_str_fuel]. by rewrite strip_prefix_app. }
  unfold normalize_patch_path.
  set (path := "b/" +:+ t).
  assert (split_whitespace path = [path]) as ->.
  { apply (split_whitespace_join [path]). constructor; [|constructor]. split; [|done].
    unfold path. by rewrite all_chars_app, Hg. }
  change (default _ (list.head [path])) with path.
  rewrite bool_decide_eq_false_2 by done.
  assert (strip_prefix "b/" path = Some t) as -> by apply strip_prefix_app.
  change (strip_prefix "a/" path) with (@None string).
  cbn [default from_option id]. rewrite trim_start_str_none by done.
  apply is_empty_false in Hne. by rewrite Hne, Hd.
Qed.

Lemma print_files_ends ps : Forall printable ps → ends_file (line_text <$> (ps ≫= print_file)).
Proof.
  intros [|p ps' [Ht _] _]; [done|]. rewrite bind_cons, fmap_app. unfold print_file at 1.
  rewrite fmap_cons. destruct (file_lines _ Ht) as [[_ E] _]. simpl. by rewrite E.
Qed.

Lemma parse_files_print ps fuel :
  Forall printable ps → length (line_text <$> (ps ≫= print_file)) ≤ fuel →
  parse_files fuel (line_text <$> (ps ≫= print_file)) = Ok ps.
Proof.
  intros Hps. revert fuel. induction Hps as [|p ps [Ht Hh] Hps IH]; intros fuel Hfuel.
  - by destruct fuel.
  - rewrite bind_cons, fmap_app in *. rewrite length_app in Hfuel.
    unfold print_file at 1. unfold print_file at 1 in Hfuel.
    rewrite !fmap_cons in *. destruct (file_lines _ Ht) as [[_ E1] [_ E2]]. rewrite E1, E2 in *.
    rewrite !length_cons in Hfuel. destruct fuel as [|fuel]; [lia|].
    cbn [app parse_files]. change (is_file_header ("--- a/" +:+ fp_target p)) with true.
    change (starts_with "+++ " ("+++ b/" +:+ fp_target p)) with true. cbn [negb].
    rewrite target_reads by done. unfold mbind at 1, result_bind at 1.
    rewrite file_hunks_print; [|done|by apply print_files_ends|rewrite length_app; lia].
    simpl. rewrite IH by lia. simpl. by destruct p.
Qed.

Lemma printed_full ps : Forall printable ps → Forall full_line (ps ≫= print_file).
Proof.
  induction 1 as [|p ps [Ht Hh] Hps IH]; [constructor|]. rewrite bind_cons. apply Forall_app.
  split; [|done]. unfold print_file. destruct (file_lines _ Ht) as [[F1 _] [F2 _]].
  constructor; [done|]. constructor; [done|].
  induction Hh as [|h hs [_ Hl] Hhs IHh]; [constructor|]. rewrite bind_cons. apply Forall_app.
  split; [|done]. constructor; [apply plain_line, join_plain, hunk_words_ok|].
  rewrite Forall_fmap. eapply Forall_impl; [exact Hl|]. intros l Hpl. apply (printable_line_reads l Hpl).
Qed.

(** The printed form of a patch parses back to it: for any non-empty list of
    file patches whose targets are plain relative paths and whose hunk lines are
    single lines, no removed one starting with two dashes and a space, the
    parser returns exactly the same files, positions and lines. *)
Theorem parse_print_patch ps :
  ps ≠ [] → Forall printable ps → parse_patch (print_patch ps) = Ok ps.
Proof.
  intros Hne Hps. unfold parse_patch, print_patch, lines.
  rewrite split_concat_full by by apply printed_full.
  rewrite parse_files_print; [|done|by rewrite !length_fmap]. simpl.
  rewrite bool_decide_eq_false_2; [done|]. by destruct ps.
Qed.

(** ** Concrete patches *)
Module PatchSample.
Definition text (ls : list string) : string := concat_s ((λ l, l +:+ LF) <$> ls).
Definition original : string := text ["one"; "two"; "three"; "four"].
Definition patch : FilePatch :=
  mk_FilePatch "lib/x.js"
    [mk_Hunk 1 [Context ("one" +:+ LF); Remove ("two" +:+ LF); Add ("2" +:+ LF); Add ("2b" +:+ LF)];
     mk_Hunk 4 [Remove ("four" +:+ LF)]].
Definition patched : string := text ["one"; "2"; "2b"; "three"].

(** The outcome on a file of a patch given as text. *)
Definition run (original patch : string) : result PatchError string :=
  patches ← parse_patch patch;
  match patches with [p] => apply_file_patch "x" original p | _ => Err PEmpty end.

(** Code bug: a blank context line whose space was trimmed panics. *)
Lemma patch_blank_line_panics :
  run (text ["one"; ""; "two"]) (text ["--- a/x"; "+++ b/x"; "@@ -1,3 +1,3 @@"; "-one"; "+1"; ""; " two"])
  = Err (PPanic "failed to slice string").
Proof. vm_compute. reflexivity. Qed.

(** Code bug: removing a line that starts with two dashes and a space is read as
    the header of another file. *)
Lemma patch_removed_dashes_refused :
  run (text ["-- old"; "two"]) (text ["--- a/x"; "+++ b/x"; "@@ -1,2 +1,2 @@"; "--- old"; "+-- new"; " two"])
  = Err (PMalformed ExpectedPlus).
Proof. vm_compute. reflexivity. Qed.

(** Code bug: a hunk without old lines goes after its stated line in the unified
    format; the code puts it before. *)
Lemma patch_pure_insertion_misplaced :
  run (text ["one"; "three"]) (text ["--- a/x"; "+++ b/x"; "@@ -1,0 +2 @@"; "+two"])
  = Ok (text ["two"; "one"; "three"]).
Proof. vm_compute. reflexivity. Qed.

(** Code bug: the marker of an unterminated last line is skipped, but the line it
    marks is still expected with a newline. *)
Lemma patch_unterminated_line_refused :
  run "one" (text ["--- a/x"; "+++ b/x"; "@@ -1 +1 @@"; "-one"; no_newline_marker; "+two"; no_newline_marker])
  = Err (PHunkMismatch "x" 1).
Proof. vm_compute. reflexivity. Qed.
End PatchSample.

Lemma apply_reverse_patch_witness :
  apply_file_patch "x" PatchSample.patched (reverse_patch PatchSample.patch) = Ok PatchSample.original.
Proof.
  apply apply_reverse_patch.
  - right. exists (concat_s ["one"; LF; "two"; LF; "three"; LF; "four"]). vm_compute. reflexivity.
  - repeat constructor; (eexists; split; [reflexivity|vm_compute; reflexivity]).
  - vm_compute. reflexivity.
Defined.

Lemma parse_print_patch_witness :
  parse_patch (print_patch [PatchSample.patch]) = Ok [PatchSample.patch].
Proof.
  apply parse_print_patch; [discriminate|]. constructor; [|constructor]. split.
  - split; [discriminate|]. repeat split; vm_compute; reflexivity.
  - repeat constructor;
      (eexists; split; [reflexivity|]; split; [vm_compute; reflexivity|]; split; vm_compute; reflexivity).
Defined.

(** ** The archive *)

Lemma find_target_paths es es' t :
  te_path <$> es = te_path <$> es' → find_target es t = find_target es' t.
Proof.
  intros Hp.
  assert (∀ m : gmap string nat, ∀ f : nat → nat,
    foldl (λ m '(i, e), <[te_path e := i]> m) m (imap (λ n, pair (f n)) es) =
    foldl (λ m '(i, e), <[te_path e := i]> m) m (imap (λ n, pair (f n)) es')) as Hm.
  { revert es' Hp. induction es as [|e es IH]; intros [|e' es'] Hp m f; try done.
    rewrite !fmap_cons in Hp. injection Hp as He Hp. simpl. rewrite He.
    apply (IH es' Hp (<[te_path e' := f 0]> m) (λ n, f (S n))). }
  assert (fst <$> list_find (below_root t) es = fst <$> list_find (below_root t) es') as Hl.
  { clear Hm. revert es' Hp. induction es as [|e es IH]; intros [|e' es'] Hp; try done.
    rewrite !fmap_cons in Hp. injection Hp as He Hp. simpl.
    assert (below_root t e ↔ below_root t e') as Hb by (unfold below_root; by rewrite He).
    destruct (decide (below_root t e)), (decide (below_root t e')); try tauto; try done. specialize (IH es' Hp).
    destruct (list_find _ es) as [[]|], (list_find _ es') as [[]|]; simpl in *; congruence. }
  unfold find_target. by rewrite (Hm ∅ id), Hl.
Qed.

(** Patching an archive keeps its members, their order, paths and modes, and the
    bytes of every member that is not the target of a patch. *)
Lemma apply_patches_frame es ps es' :
  fold_res apply_to_entries es ps = Ok es' →
  te_path <$> es' = te_path <$> es ∧ te_mode <$> es' = te_mode <$> es ∧
  ∀ i, (∀ p, p ∈ ps → find_target es (fp_target p) ≠ Some i) → es' !! i = es !! i.
Proof.
  revert es. induction ps as [|p ps IH]; intros es; cbn [fold_res]; [by intros [= <-]|].
  intros (es1 & H1 & (P2 & M2 & D2)%IH)%bind_Ok. unfold apply_to_entries in H1.
  apply bind_Ok in H1 as (i & Hi%ok_or_Ok & H1).
  destruct (es !! i) as [e|] eqn:He; [|done]. destruct (negb _); [done|].
  apply bind_Ok in H1 as (d & _ & [= <-]).
  assert (∀ {B} (f : TarEntry → B), f (mk_TarEntry (te_path e) (te_mode e) d) = f e →
    f <$> <[i := mk_TarEntry (te_path e) (te_mode e) d]> es = f <$> es) as Hf.
  { intros B f Hfe. rewrite list_fmap_insert, Hfe. apply list_insert_id.
    by rewrite list_lookup_fmap, He. }
  rewrite P2, M2, !Hf by done. split; [done|]. split; [done|].
  intros j Hj. rewrite D2.
  - apply list_lookup_insert_ne. intros ->. apply (Hj p); [by left|done].
  - intros q Hq. rewrite (find_target_paths _ es) by by apply Hf. apply Hj. by right.
Qed.
