(* ===== verification/PackageImage.v ===== *)
(** * [src/package_image.rs]: the sealed form of a package image

    The byte format of an image with its file contents, the index without them
    that is written beside an extracted image, their two readers (one over a
    byte slice, one over a stream that seeks), and the walk of a directory that
    an index is made from. *)

From S2P Require Export FileTree Encoding Machine.
From Stdlib Require Import Ascii.

(** ** Data *)

Definition MAGIC : string := "BPMIMG01".
Definition INDEX_MAGIC : string := "BPMIDX01".
Definition MAX_INDEX_ENTRIES : N := 4000000.
Definition MAX_INDEX_STRING : N := 65536.

Inductive Entry :=
  | EFile (path : string) (bytes : string)
  | ESymlink (path : string) (target : string).
#[global] Instance Entry_eq_dec : EqDecision Entry.
Proof. solve_decision. Defined.
Definition path (e : Entry) : string := match e with EFile p _ | ESymlink p _ => p end.

Inductive IndexEntry :=
  | IFile (path : string)
  | ISymlink (path : string) (target : string).
#[global] Instance IndexEntry_eq_dec : EqDecision IndexEntry.
Proof. solve_decision. Defined.
Definition IndexEntry_path (e : IndexEntry) : string := match e with IFile p | ISymlink p _ => p end.

Inductive ImageError := Io (message : string) | Invalid (message : string).
#[global] Instance ImageError_eq_dec : EqDecision ImageError.
Proof. solve_decision. Defined.

(** ** Writing *)

(** [v.to_le_bytes()] of a [u32]; a length is cut to its low 32 bits by [as u32]. *)
Definition write_u32 (v : N) : string := le_bytes 4 v.
Definition write_bytes (v : string) : string := write_u32 (N.of_nat (strlen v)) +:+ v.
Definition write_str : string → string := write_bytes.

Definition entry_bytes (e : Entry) : string :=
  match e with
  | EFile path bytes => String (chr 0) (write_str path +:+ write_bytes bytes)
  | ESymlink path target => String (chr 1) (write_str path +:+ write_str target)
  end.
Definition encode_sorted (sorted : list Entry) : string :=
  MAGIC +:+ write_u32 (N.of_nat (length sorted)) +:+ concat_s (entry_bytes <$> sorted).
Definition encode (entries : list Entry) : string :=
  encode_sorted (sort_by (λ a b, String.leb (path a) (path b)) entries).

Definition index_entry_bytes (e : IndexEntry) : string :=
  match e with
  | IFile path => String (chr 0) (write_str path)
  | ISymlink path target => String (chr 1) (write_str path +:+ write_str target)
  end.
(** The second half of [from_directory_index]. *)
Definition encode_index (entries : list IndexEntry) : string :=
  INDEX_MAGIC +:+ write_u32 (N.of_nat (length entries)) +:+ concat_s (index_entry_bytes <$> entries).

(** ** [decode]: the state is the slice that remains *)

Notation dec := (M string ImageError).

Definition take (n : N) : dec string := λ input,
  match split_at_s (N.to_nat n) input with
  | Some (a, b) => (b, Ok a)
  | None => (input, Err (Invalid "truncated image"))
  end.
Definition take_u32 : dec N := s ← take 4; mret (of_le_bytes s).
Definition take_bytes : dec string := n ← take_u32; take n.
Definition from_utf8 {S} (v : string) : M S ImageError string :=
  if utf8_valid v then mret v else throw (Invalid "invalid utf-8").
Definition take_str : dec string := v ← take_bytes; from_utf8 v.

Definition decode_entry : dec Entry :=
  kind ← take 1;
  path ← take_str;
  match of_le_bytes kind with
  | 0%N => bytes ← take_bytes; mret (EFile path bytes)
  | 1%N => target ← take_str; mret (ESymlink path target)
  | _ => throw (Invalid "unknown entry kind")
  end.

(** [for _ in 0..count { entries.push(entry?) }]. *)
Fixpoint repeat_m {S E A} (m : M S E A) (count : nat) : M S E (list A) :=
  match count with
  | O => mret []
  | S count => a ← m; l ← repeat_m m count; mret (a :: l)
  end.

Definition decode_body : dec (list Entry) :=
  count ← take_u32;
  entries ← repeat_m decode_entry (N.to_nat count);
  rest ← gets id;
  if negb (is_empty rest) then throw (Invalid "trailing bytes") else mret entries.

Definition decode (bytes : string) : result ImageError (list Entry) :=
  match strip_prefix MAGIC bytes with
  | None => Err (Invalid "bad magic")
  | Some bytes => (decode_body bytes).2
  end.

(** ** [decode_index]: the state is the position in a stream *)

Section stream.
Variable data : string.
Notation rd := (M N ImageError).

Fixpoint drop_s (n : nat) (s : string) : string :=
  match n, s with S n, String _ s => drop_s n s | _, _ => s end.

Definition read_exact (n : N) : rd string := λ pos,
  match split_at_s (N.to_nat n) (drop_s (N.to_nat pos) data) with
  | Some (a, _) => ((pos + n)%N, Ok a)
  | None => (pos, Err (Io "failed to fill whole buffer"))
  end.
Definition read_u32_reader : rd N := s ← read_exact 4; mret (of_le_bytes s).
Definition read_u8_reader : rd N := s ← read_exact 1; mret (of_le_bytes s).
Definition read_bounded_string : rd string :=
  len ← read_u32_reader;
  if (MAX_INDEX_STRING <? len)%N then throw (Invalid "string length exceeds maximum")
  else buf ← read_exact len; from_utf8 buf.

Definition stream_end : N := N.of_nat (strlen data).

Definition read_index_entry : rd IndexEntry :=
  kind ← read_u8_reader;
  path ← read_bounded_string;
  match kind with
  | 0%N =>
      payload_len ← read_u32_reader;
      pos ← gets id;
      after_payload ← lift (ok_or (Invalid "file payload length overflows stream position")
                              (checked_add U64_MAX pos payload_len));
      if (stream_end <? after_payload)%N
      then throw (Invalid "file payload extent ends beyond stream end")
      else _ ← modify (λ _, after_payload); mret (IFile path)
  | 1%N => target ← read_bounded_string; mret (ISymlink path target)
  | _ => throw (Invalid "unknown entry kind")
  end.

Definition read_metadata_entry : rd IndexEntry :=
  kind ← read_u8_reader;
  path ← read_bounded_string;
  match kind with
  | 0%N => mret (IFile path)
  | 1%N => target ← read_bounded_string; mret (ISymlink path target)
  | _ => throw (Invalid "unknown kind")
  end.

(** The count, its two checks, the entries and the end of the stream. *)
Definition read_counted (min_entry : N) (entry : rd IndexEntry) : rd (list IndexEntry) :=
  count ← read_u32_reader;
  if (MAX_INDEX_ENTRIES <? count)%N then throw (Invalid "entry count exceeds maximum")
  else
    header_end ← gets id;
    if (stream_end <? header_end)%N then throw (Invalid "stream end precedes header end")
    else if (stream_end - header_end <? N.min U64_MAX (count * min_entry))%N
    then throw (Invalid "entry count implies more bytes than remain")
    else
      entries ← repeat_m entry (N.to_nat count);
      pos ← gets id;
      if negb (bool_decide (pos = stream_end)) then throw (Invalid "trailing bytes") else mret entries.

Definition decode_metadata_index : rd (list IndexEntry) := read_counted 5 read_metadata_entry.
Definition decode_index : rd (list IndexEntry) :=
  magic ← read_exact 8;
  if bool_decide (magic = INDEX_MAGIC) then decode_metadata_index
  else if negb (bool_decide (magic = MAGIC)) then throw (Invalid "bad magic")
  else read_counted 9 read_index_entry.
End stream.

(** ** Directories *)

Section directory.
Variable t : tree.
(** [to_string_lossy] of a file name. *)
Variable lossy : string → string.

(** [fs::read_dir], in some order. *)
Definition read_dir (dir : list string) : list string :=
  omap (λ kv : list string * node,
    if bool_decide (parent_of kv.1 = dir ∧ kv.1 ≠ []) then last kv.1 else None) (map_to_list t).

Definition replace_backslash : string → string := replace_char "\" "/".
Definition relative_name (rel : list string) : string :=
  replace_backslash (join "/" (lossy <$> rel)).

(** [collect_index]; [depth] bounds the nesting of directories. *)
Fixpoint collect_index (depth : nat) (root rel : list string) : list IndexEntry :=
  match depth with
  | O => []
  | S depth =>
      read_dir (root ++ rel) ≫= λ name,
        let rel := rel ++ [name] in
        match t !! (root ++ rel) with
        | Some (NDir _) => collect_index depth root rel
        | Some (NFile _ _) => [IFile (relative_name rel)]
        | Some (NLink target) => [ISymlink (relative_name rel) (lossy target)]
        | None => []
        end
  end.

Definition tree_depth : nat := map_fold (λ p _ n, length p `max` n) 0 t.

Definition from_directory_index (root : list string) : string :=
  encode_index (sort_by (λ a b, String.leb (IndexEntry_path a) (IndexEntry_path b))
    (collect_index (S tree_depth) root [])).

(** [collect]: the same walk with the contents of the files. *)
Fixpoint collect (depth : nat) (root rel : list string) : list Entry :=
  match depth with
  | O => []
  | S depth =>
      read_dir (root ++ rel) ≫= λ name,
        let rel := rel ++ [name] in
        match t !! (root ++ rel) with
        | Some (NDir _) => collect depth root rel
        | Some (NFile bytes _) => [EFile (relative_name rel) bytes]
        | Some (NLink target) => [ESymlink (relative_name rel) (lossy target)]
        | None => []
        end
  end.
Definition from_directory (root : list string) : string :=
  encode_sorted (sort_by (λ a b, String.leb (path a) (path b)) (collect (S tree_depth) root [])).
End directory.

Definition safe_join (root : list string) (path : string) : result ImageError (list string) :=
  if starts_with_char "/" path || bool_decide (ParentDir ∈ components path)
  then Err (Invalid ("unsafe path " +:+ path))
  else Ok (root ++ omap (λ c, match c with Normal n => Some n | _ => None end) (components path)).

Definition to_image_error (e : errno) : ImageError := Io "file system".
Definition on_fs {A} (m : fs A) : M tree ImageError A := λ t,
  ((m t).1, map_err to_image_error (m t).2).

Definition write_entry (umask : N) (root : list string) (e : Entry) : M tree ImageError () :=
  dest ← lift (safe_join root (path e));
  _ ← on_fs (create_dir_all umask (parent_of dest));
  match e with
  | EFile _ bytes => q ← on_fs (file_create umask dest); on_fs (write_open q bytes)
  | ESymlink _ target => on_fs (symlink target dest)
  end.
Definition to_directory (umask : N) (bytes : string) (root : list string) : M tree ImageError () :=
  _ ← on_fs (create_dir_all umask root);
  entries ← lift (decode bytes);
  each_m (write_entry umask root) entries.
