(* ===== verification/PackageImageTheory.v ===== *)
(** * Both readers accept exactly what the writers write

    [decode] is the inverse of [encode_sorted]; [decode_index] reads the same
    images without their contents and the indexes that [from_directory_index]
    writes; an index lists the files and links below its root. *)

From S2P Require Export PackageImage.
From Stdlib Require Import Ascii.

(** ** Valid entries *)

Definition fits32 (s : string) : Prop := (N.of_nat (strlen s) < 2 ^ 32)%N.
Definition text (s : string) : Prop := utf8_valid s = true ∧ fits32 s.
Definition valid (e : Entry) : Prop :=
  match e with EFile p b => text p ∧ fits32 b | ESymlink p t => text p ∧ text t end.
(** The strings of an index are bounded as well. *)
Definition small (s : string) : Prop := (N.of_nat (strlen s) <= MAX_INDEX_STRING)%N.
Definition small_entry (e : Entry) : Prop :=
  match e with EFile p _ => small p | ESymlink p t => small p ∧ small t end.
Definition index_of (e : Entry) : IndexEntry :=
  match e with EFile p _ => IFile p | ESymlink p t => ISymlink p t end.
Definition valid_index (e : IndexEntry) : Prop :=
  match e with IFile p => text p ∧ small p | ISymlink p t => text p ∧ small p ∧ text t ∧ small t end.

(** ** Formats

    What a reader accepts as a relation between the bytes it consumes and its
    result. *)

Notation format A := (string → A → Prop).

Definition f_ret {A} (a : A) : format A := λ c b, c = "" ∧ b = a.
Definition f_bind {A B} (f : format A) (k : A → format B) : format B := λ c b,
  ∃ c1 c2 a, c = c1 +:+ c2 ∧ f c1 a ∧ k a c2 b.
Definition f_take (n : N) : format string := λ c a, c = a ∧ N.of_nat (strlen a) = n.
Definition f_fail {A} : format A := λ _ _, False.
Definition f_u32 : format N := λ c v, c = write_u32 v ∧ (v < 2 ^ 32)%N.
Definition f_str (P : string → Prop) : format string := λ c v, c = write_str v ∧ P v.

Section slice.
Notation dec := (M string ImageError).
Definition reads {A} (m : dec A) (f : format A) : Prop :=
  ∀ s s' a, m s = (s', Ok a) ↔ ∃ c, s = c +:+ s' ∧ f c a.

Lemma reads_ret {A} (a : A) : reads (mret a) (f_ret a).
Proof.
  intros s s' b. split.
  - intros [= <- <-]. by exists "".
  - intros (c & -> & -> & ->). done.
Qed.
Lemma reads_bind {A B} (m : dec A) (k : A → dec B) f g :
  reads m f → (∀ a, reads (k a) (g a)) → reads (m ≫= k) (f_bind f g).
Proof.
  intros Hm Hk s s' b. split.
  - intros (s1 & a & (c1 & -> & H1)%Hm & (c2 & -> & H2)%Hk)%bind_Ok_inv.
    exists (c1 +:+ c2). rewrite app_assoc_s. split; [done|]. by exists c1, c2, a.
  - intros (c & -> & c1 & c2 & a & -> & H1 & H2). rewrite <- app_assoc_s.
    rewrite (bind_run m k _ (c2 +:+ s') a); [apply Hk; by exists c2|apply Hm; by exists c1].
Qed.
Lemma reads_throw {A} e : reads (throw e : dec A) f_fail.
Proof. intros s s' a. split; [done|]. by intros (c & _ & []). Qed.
Lemma reads_ext {A} (m : dec A) f g : reads m f → (∀ c a, f c a ↔ g c a) → reads m g.
Proof. intros Hm Hfg s s' a. rewrite (Hm s s' a). by setoid_rewrite Hfg. Qed.
Lemma reads_take n : reads (take n) (f_take n).
Proof.
  intros s s' a. unfold take. destruct (split_at_s (N.to_nat n) s) as [[x y]|] eqn:Hs.
  - apply split_at_s_Some in Hs as [-> Hx]. split.
    + intros [= <- <-]. exists x. split; [done|]. split; [done|lia].
    + intros (c & H & -> & Ha). apply same_length_app in H as [-> ->]; [done|lia].
  - split; [done|]. intros (c & -> & -> & Ha). rewrite split_at_s_app in Hs; [done|]. lia.
Qed.
End slice.

(** The same for a reader over a stream: it moves over what it consumes. *)
Section seek.
Variable data : string.
Notation rd := (M N ImageError).
Definition reads_at {A} (m : rd A) (f : format A) : Prop :=
  ∀ pos pos' a, (pos <= stream_end data)%N →
    m pos = (pos', Ok a) ↔
    ∃ c s', drop_s (N.to_nat pos) data = c +:+ s' ∧ f c a ∧ pos' = (pos + N.of_nat (strlen c))%N.

Lemma drop_s_app (n : nat) (s c s' : string) : n ≤ strlen s →
  drop_s n s = c +:+ s' → drop_s (n + strlen c) s = s' ∧ n + strlen c + strlen s' = strlen s.
Proof.
  revert s. induction n as [|n IH]; intros s Hn; simpl.
  - intros ->. unfold strlen. rewrite length_app_s. split; [|done]. clear Hn.
    induction c as [|x c IHc]; simpl; [by destruct s'|done].
  - destruct s as [|x s]; unfold strlen in *; simpl in *; [lia|].
    intros H. apply IH in H as [H1 H2]; [|lia]. split; [done|lia].
Qed.
Lemma reads_at_end pos c s' : (pos <= stream_end data)%N →
  drop_s (N.to_nat pos) data = c +:+ s' →
  drop_s (N.to_nat (pos + N.of_nat (strlen c))) data = s' ∧
  (pos + N.of_nat (strlen c) + N.of_nat (strlen s') = stream_end data)%N.
Proof.
  unfold stream_end. intros Hp Hd. apply drop_s_app in Hd as [Hd Hl]; [|lia].
  rewrite N2Nat.inj_add, Nat2N.id. split; [done|lia].
Qed.
Lemma reads_at_ret {A} (a : A) : reads_at (mret a) (f_ret a).
Proof.
  intros pos pos' b Hp. split.
  - intros [= <- <-]. exists "", (drop_s (N.to_nat pos) data). split; [done|]. split; [done|].
    simpl. lia.
  - intros (c & s' & _ & [-> ->] & ->). simpl. by rewrite N.add_0_r.
Qed.
Lemma reads_at_bind {A B} (m : rd A) (k : A → rd B) f g :
  reads_at m f → (∀ a, reads_at (k a) (g a)) → reads_at (m ≫= k) (f_bind f g).
Proof.
  intros Hm Hk pos pos' b Hp. split.
  - intros (p1 & a & (c1 & s1 & Hd & H1 & ->)%Hm & H)%bind_Ok_inv; [|done].
    destruct (reads_at_end pos c1 s1 Hp Hd) as [Hd1 He].
    apply Hk in H as (c2 & s2 & Hd2 & H2 & ->); [|lia].
    exists (c1 +:+ c2), s2. rewrite Hd1 in Hd2. subst s1. rewrite <- app_assoc_s.
    split; [done|]. split; [by exists c1, c2, a|]. unfold strlen. rewrite length_app_s. lia.
  - intros (c & s' & Hd & (c1 & c2 & a & -> & H1 & H2) & ->). rewrite <- app_assoc_s in Hd.
    destruct (reads_at_end pos c1 _ Hp Hd) as [Hd1 He].
    rewrite (bind_run m k pos (pos + N.of_nat (strlen c1))%N a); [|apply Hm; [done|by exists c1, (c2 +:+ s')]].
    apply Hk; [lia|]. exists c2, s'. split; [done|]. split; [done|]. unfold strlen. rewrite length_app_s. lia.
Qed.
Lemma reads_at_throw {A} e : reads_at (throw e : rd A) f_fail.
Proof. intros p p' a Hp. split; [done|]. by intros (c & s' & _ & [] & _). Qed.
Lemma reads_at_ext {A} (m : rd A) f g : reads_at m f → (∀ c a, f c a ↔ g c a) → reads_at m g.
Proof. intros Hm Hfg p p' a Hp. rewrite (Hm p p' a Hp). by setoid_rewrite Hfg. Qed.
Lemma reads_at_exact n : reads_at (read_exact data n) (f_take n).
Proof.
  intros pos pos' a Hp. unfold read_exact.
  destruct (split_at_s (N.to_nat n) _) as [[x y]|] eqn:Hs.
  - apply split_at_s_Some in Hs as [Hd Hx]. split.
    + intros [= <- <-]. exists x, y. split; [done|]. split; [split; [done|lia]|lia].
    + intros (c & s' & Hd' & [-> Ha] & ->). rewrite Hd in Hd'.
      apply same_length_app in Hd' as [-> _]; [|lia]. by rewrite Ha.
  - split; [done|]. intros (c & s' & Hd & [-> Ha] & _). rewrite Hd, split_at_s_app in Hs; [done|lia].
Qed.
End seek.

(** ** The formats of the parts *)

Lemma pow32 : (256 ^ N.of_nat 4 = 2 ^ 32)%N.
Proof. by vm_compute. Qed.

Lemma format_u32 c v : f_bind (f_take 4) (λ s, f_ret (of_le_bytes s)) c v ↔ f_u32 c v.
Proof.
  unfold f_bind, f_take, f_ret, f_u32, write_u32. split.
  - intros (c1 & c2 & a & -> & [-> Ha] & -> & ->). rewrite app_nil_r_s.
    assert (strlen a = 4) as Ha' by lia. pose proof (le_bytes_of_le_bytes a) as Hl.
    rewrite Ha' in Hl. rewrite Hl. split; [done|]. rewrite <- pow32, <- Ha'. apply of_le_bytes_bound.
  - intros [-> Hv]. exists (le_bytes 4 v), "", (le_bytes 4 v). rewrite app_nil_r_s.
    split; [done|]. split; [by rewrite le_bytes_length|]. split; [done|].
    by rewrite of_le_bytes_le_bytes by (by rewrite pow32).
Qed.

Lemma format_u8 c v : f_bind (f_take 1) (λ s, f_ret (of_le_bytes s)) c v ↔ c = le_bytes 1 v ∧ (v < 256)%N.
Proof.
  unfold f_bind, f_take, f_ret. split.
  - intros (c1 & c2 & a & -> & [-> Ha] & -> & ->). rewrite app_nil_r_s.
    assert (strlen a = 1) as Ha' by lia. pose proof (le_bytes_of_le_bytes a) as Hl.
    rewrite Ha' in Hl. rewrite Hl. split; [done|]. change 256%N with (256 ^ N.of_nat 1)%N.
    rewrite <- Ha'. apply of_le_bytes_bound.
  - intros [-> Hv]. exists (le_bytes 1 v), "", (le_bytes 1 v). rewrite app_nil_r_s.
    split; [done|]. split; [by rewrite le_bytes_length|]. split; [done|].
    by rewrite of_le_bytes_le_bytes.
Qed.

Lemma format_bytes c v : f_bind f_u32 f_take c v ↔ c = write_bytes v ∧ fits32 v.
Proof.
  unfold f_bind, f_take, f_u32, write_bytes, fits32. split.
  - intros (c1 & c2 & n & -> & [-> Hn] & [-> <-]). done.
  - intros [-> Hv]. by eexists _, _, _.
Qed.

Lemma format_str (f : format string) P c v : (∀ c v, f c v ↔ c = write_bytes v ∧ P v) →
  f_bind f (λ v, if utf8_valid v then f_ret v else f_fail) c v ↔
  f_str (λ v, utf8_valid v = true ∧ P v) c v.
Proof.
  intros Hf. unfold f_bind, f_str. split.
  - intros (c1 & c2 & a & -> & [-> HP]%Hf & H). destruct (utf8_valid a) eqn:Hu; [|done].
    destruct H as [-> ->]. by rewrite app_nil_r_s.
  - intros (-> & Hu & HP). exists (write_str v), "", v. rewrite app_nil_r_s, Hu.
    split; [done|]. split; [by apply Hf|done].
Qed.

(** A counted sequence. *)
Fixpoint f_repeat {A} (f : format A) (n : nat) : format (list A) :=
  match n with
  | O => f_ret []
  | S n => f_bind f (λ a, f_bind (f_repeat f n) (λ l, f_ret (a :: l)))
  end.

Lemma reads_repeat {A} (m : M string ImageError A) f n : reads m f → reads (repeat_m m n) (f_repeat f n).
Proof.
  intros Hm. induction n as [|n IH]; simpl; [apply reads_ret|].
  apply reads_bind; [done|]. intros a. apply reads_bind; [done|]. intros l. apply reads_ret.
Qed.
Lemma reads_at_repeat {A} data (m : M N ImageError A) f n :
  reads_at data m f → reads_at data (repeat_m m n) (f_repeat f n).
Proof.
  intros Hm. induction n as [|n IH]; simpl; [apply reads_at_ret|].
  apply reads_at_bind; [done|]. intros a. apply reads_at_bind; [done|]. intros l. apply reads_at_ret.
Qed.

Lemma format_repeat {A B} (f : format A) (enc : B → string) (g : B → A) (P : B → Prop) n c l :
  (∀ c a, f c a ↔ ∃ b, c = enc b ∧ P b ∧ a = g b) →
  f_repeat f n c l ↔ ∃ bs, c = concat_s (enc <$> bs) ∧ Forall P bs ∧ l = g <$> bs ∧ length bs = n.
Proof.
  intros Hf. revert c l. induction n as [|n IH]; intros c l; cbn [f_repeat].
  - unfold f_ret. split.
    + intros [-> ->]. by exists [].
    + intros (bs & -> & _ & -> & Hl). by destruct bs.
  - split.
    + intros (c1 & c2 & a & -> & (b & -> & Hb & ->)%Hf & c3 & c4 & l' & -> &
        (bs & -> & Hbs & -> & Hl)%IH & -> & ->).
      exists (b :: bs). rewrite app_nil_r_s. csimpl. repeat split; [by constructor|by f_equal].
    + intros (bs & -> & Hbs & -> & Hl). destruct bs as [|b bs]; [done|].
      apply Forall_cons in Hbs as [Hb Hbs]. csimpl. eexists _, _, (g b). split; [done|].
      split; [apply Hf; by exists b|]. exists (concat_s (enc <$> bs)), "", (g <$> bs).
      rewrite app_nil_r_s. split; [done|]. split; [|done]. apply IH. exists bs.
      repeat split; [done|]. by injection Hl.
Qed.

(** ** Entries *)

Lemma reads_take_u32 : reads take_u32 f_u32.
Proof.
  eapply reads_ext; [|apply format_u32]. apply reads_bind; [apply reads_take|]. intros. apply reads_ret.
Qed.
Lemma reads_take_bytes : reads take_bytes (λ c v, c = write_bytes v ∧ fits32 v).
Proof.
  eapply reads_ext; [|apply format_bytes]. apply reads_bind; [apply reads_take_u32|]. intros. apply reads_take.
Qed.
Lemma reads_from_utf8 v : reads (from_utf8 v) (if utf8_valid v then f_ret v else f_fail).
Proof. unfold from_utf8. destruct (utf8_valid v); [apply reads_ret|apply reads_throw]. Qed.
Lemma reads_take_str : reads take_str (f_str text).
Proof.
  eapply reads_ext; [apply reads_bind; [apply reads_take_bytes|apply reads_from_utf8]|].
  intros c v. by apply (format_str _ fits32).
Qed.

Definition f_entry_tail (kind : string) (p : string) : format Entry :=
  match of_le_bytes kind with
  | 0%N => f_bind (λ c v, c = write_bytes v ∧ fits32 v) (λ b, f_ret (EFile p b))
  | 1%N => f_bind (f_str text) (λ t, f_ret (ESymlink p t))
  | _ => f_fail
  end.
Lemma reads_decode_entry : reads decode_entry (λ c e, c = entry_bytes e ∧ valid e).
Proof.
  unfold decode_entry. eapply reads_ext.
  - apply (reads_bind _ _ (f_take 1) (λ kind, f_bind (f_str text) (f_entry_tail kind))); [apply reads_take|].
    intros kind. apply reads_bind; [apply reads_take_str|].
    intros p. unfold f_entry_tail. destruct (of_le_bytes kind) as [|[]].
    + apply reads_bind; [apply reads_take_bytes|intros; apply reads_ret].
    + apply reads_throw.
    + apply reads_throw.
    + apply reads_bind; [apply reads_take_str|intros; apply reads_ret].
  - intros c e. split.
    + intros (c1 & c2 & kind & -> & [-> Hk] & c3 & c4 & p & -> & [-> Hp] & H). unfold f_entry_tail in H.
      assert (kind = le_bytes 1 (of_le_bytes kind)) as Hkind.
      { pose proof (le_bytes_of_le_bytes kind) as Hl. replace (strlen kind) with 1 in Hl by lia. done. }
      rewrite Hkind. destruct (of_le_bytes kind) as [|[]]; try done.
      * destruct H as (c5 & c6 & b & -> & [-> Hb] & -> & ->). by rewrite app_nil_r_s.
      * destruct H as (c5 & c6 & tg & -> & [-> Htg] & -> & ->). by rewrite app_nil_r_s.
    + intros [-> He]. destruct e as [p b|p tg]; destruct He as [Hp Hb].
      * exists (le_bytes 1 0), (write_str p +:+ write_bytes b), (le_bytes 1 0).
        split; [done|]. split; [done|]. exists (write_str p), (write_bytes b), p.
        split; [done|]. split; [done|]. exists (write_bytes b), "", b. by rewrite app_nil_r_s.
      * exists (le_bytes 1 1), (write_str p +:+ write_str tg), (le_bytes 1 1).
        split; [done|]. split; [done|]. exists (write_str p), (write_str tg), p.
        split; [done|]. split; [done|]. exists (write_str tg), "", tg. by rewrite app_nil_r_s.
Qed.


(** ** [decode] inverts [encode_sorted] *)

Lemma decode_body_Ok s es : (decode_body s).2 = Ok es ↔
  s = write_u32 (N.of_nat (length es)) +:+ concat_s (entry_bytes <$> es) ∧
  Forall valid es ∧ (N.of_nat (length es) < 2 ^ 32)%N.
Proof.
  assert (∀ n c l, f_repeat (λ c e, c = entry_bytes e ∧ valid e) n c l ↔
    c = concat_s (entry_bytes <$> l) ∧ Forall valid l ∧ length l = n) as Hrep.
  { intros n c l. rewrite (format_repeat _ entry_bytes id valid); [|by intros; split; [intros []; eauto|naive_solver]].
    split.
    - intros (bs & -> & H & -> & <-). by rewrite list_fmap_id.
    - intros (-> & H & <-). exists l. by rewrite list_fmap_id. }
  pose proof (reads_bind take_u32 (λ n, repeat_m decode_entry (N.to_nat n)) f_u32 _ reads_take_u32
    (λ n, reads_repeat _ _ (N.to_nat n) reads_decode_entry)) as Hr.
  unfold decode_body. split.
  - intros [s' He]%run_Ok. apply bind_Ok_inv in He as (s1 & n & Hn & He).
    apply bind_Ok_inv in He as (s2 & l & Hl & He).
    apply bind_Ok_inv in He as (s3 & rest & Hg & He). injection Hg as <- <-.
    unfold id in He. destruct (is_empty s2) eqn:Hs2; [|done]. injection He as <- <-.
    apply is_empty_true in Hs2 as ->.
    assert ((take_u32 ≫= λ n, repeat_m decode_entry (N.to_nat n)) s = ("", Ok l)) as H
      by (by rewrite (bind_run _ _ _ _ _ Hn)).
    apply Hr in H as (c & -> & c1 & c2 & n' & -> & [-> Hn'] & (-> & Hv & Hlen)%Hrep).
    rewrite app_nil_r_s. replace (N.of_nat (length l)) with n' by lia. done.
  - intros (-> & Hv & Hlen).
    assert ((take_u32 ≫= λ n, repeat_m decode_entry (N.to_nat n))
      (write_u32 (N.of_nat (length es)) +:+ concat_s (entry_bytes <$> es)) = ("", Ok es)) as H.
    { apply Hr. eexists. split; [by rewrite app_nil_r_s|]. eexists _, _, (N.of_nat (length es)).
      split; [done|]. split; [done|]. apply Hrep. by rewrite Nat2N.id. }
    apply bind_Ok_inv in H as (s1 & n & Hn & H). rewrite (bind_run _ _ _ _ _ Hn).
    by rewrite (bind_run _ _ _ _ _ H).
Qed.

(** C26. [decode] accepts exactly the encodings of lists of entries with UTF-8
    paths and targets and lengths below 2^32, each as the list it encodes: it
    inverts the writer and refuses every other byte string. *)
Theorem decode_exact bytes es :
  decode bytes = Ok es ↔
  bytes = encode_sorted es ∧ Forall valid es ∧ (N.of_nat (length es) < 2 ^ 32)%N.
Proof.
  unfold decode, encode_sorted. destruct (strip_prefix MAGIC bytes) as [r|] eqn:Hs.
  - apply strip_prefix_Some in Hs as ->. rewrite decode_body_Ok. split; intros (H & ?).
    + by rewrite H.
    + by apply tag_inj in H as ->.
  - split; [done|]. intros [-> _]. by rewrite strip_prefix_app in Hs.
Qed.

Lemma decode_encode es : Forall valid es → (N.of_nat (length es) < 2 ^ 32)%N →
  decode (encode es) = Ok (sort_by (λ a b, String.leb (path a) (path b)) es).
Proof.
  intros Hv Hl. apply decode_exact. split; [done|]. split.
  - by rewrite sort_by_perm.
  - by rewrite (Permutation_length (sort_by_perm _ _)).
Qed.

(** ** The stream reader *)

Section stream_reader.
Variable data : string.
Hypothesis data_fits : (stream_end data <= U64_MAX)%N.

Lemma reads_at_u32 : reads_at data (read_u32_reader data) f_u32.
Proof using data_fits.
  eapply reads_at_ext; [|apply format_u32].
  apply reads_at_bind; [apply reads_at_exact|]. intros. apply reads_at_ret.
Qed.
Lemma reads_at_u8 : reads_at data (read_u8_reader data) (λ c v, c = le_bytes 1 v ∧ (v < 256)%N).
Proof using data_fits.
  eapply reads_at_ext; [|apply format_u8].
  apply reads_at_bind; [apply reads_at_exact|]. intros. apply reads_at_ret.
Qed.
Lemma reads_at_utf8 v : reads_at data (from_utf8 v) (if utf8_valid v then f_ret v else f_fail).
Proof using data_fits. unfold from_utf8. destruct (utf8_valid v); [apply reads_at_ret|apply reads_at_throw]. Qed.

Definition small_text (s : string) : Prop := text s ∧ small s.
Lemma reads_at_string : reads_at data (read_bounded_string data) (f_str small_text).
Proof using data_fits.
  unfold read_bounded_string. eapply reads_at_ext.
  - apply (reads_at_bind _ _ _ f_u32 (λ len, if (MAX_INDEX_STRING <? len)%N then f_fail else
      f_bind (f_take len) (λ v, if utf8_valid v then f_ret v else f_fail))); [apply reads_at_u32|].
    intros len. destruct (MAX_INDEX_STRING <? len)%N; [apply reads_at_throw|].
    apply reads_at_bind; [apply reads_at_exact|apply reads_at_utf8].
  - intros c v. unfold f_str, small_text, text, small, fits32. split.
    + intros (c1 & c2 & n & -> & [-> Hn] & H).
      destruct (N.ltb_spec MAX_INDEX_STRING n); [done|].
      destruct H as (c3 & c4 & a & -> & [-> <-] & H). destruct (utf8_valid a) eqn:Hu; [|done].
      destruct H as [-> ->]. by rewrite app_nil_r_s.
    + intros (-> & [Hu Hf] & Hs). eexists _, v, (N.of_nat (strlen v)). split; [done|].
      split; [done|]. destruct (N.ltb_spec MAX_INDEX_STRING (N.of_nat (strlen v))); [lia|].
      exists v, "", v. rewrite app_nil_r_s, Hu. done.
Qed.

(** Seeking over a payload. *)
Definition f_skip (p : string) (n : N) : format IndexEntry := λ c a,
  N.of_nat (strlen c) = n ∧ a = IFile p.
Lemma reads_at_skip p n : reads_at data
  (pos ← gets id;
   after_payload ← lift (ok_or (Invalid "file payload length overflows stream position")
                           (checked_add U64_MAX pos n));
   if (stream_end data <? after_payload)%N
   then throw (Invalid "file payload extent ends beyond stream end")
   else _ ← modify (λ _, after_payload); mret (IFile p)) (f_skip p n).
Proof using data_fits.
  intros pos pos' a Hp. unfold f_skip. rewrite (bind_run _ _ _ pos pos) by done. rewrite lift_bind.
  unfold checked_add. destruct (N.leb_spec (pos + n) U64_MAX) as [Hle|Hgt]; cbn [ok_or].
  - destruct (N.ltb_spec (stream_end data) (pos + n)) as [Hlt|Hge].
    + split; [done|]. intros (c & s' & Hd & [<- _] & _). apply reads_at_end in Hd as [_ H]; [lia|done].
    + split.
      * intros [= <- <-]. destruct (split_at_s (N.to_nat n) (drop_s (N.to_nat pos) data)) as [[x y]|] eqn:Hs.
        { apply split_at_s_Some in Hs as [Hd Hx]. exists x, y. split; [done|]. split; [split; [lia|done]|lia]. }
        apply split_at_s_None in Hs. exfalso.
        destruct (reads_at_end data pos "" (drop_s (N.to_nat pos) data) Hp eq_refl) as [_ H].
        simpl in H. lia.
      * intros (c & s' & Hd & [<- ->] & ->). done.
  - split; [done|]. intros (c & s' & Hd & [<- _] & _). apply reads_at_end in Hd as [_ H]; [lia|done].
Qed.

Definition small_file (e : Entry) : Prop := valid e ∧ small_entry e.
Definition f_index_entry : format IndexEntry := λ c ie,
  ∃ e, c = entry_bytes e ∧ small_file e ∧ ie = index_of e.

Definition f_index_tail (kind : N) (p : string) : format IndexEntry :=
  match kind with
  | 0%N => f_bind f_u32 (f_skip p)
  | 1%N => f_bind (f_str small_text) (λ t, f_ret (ISymlink p t))
  | _ => f_fail
  end.
Lemma reads_at_index_entry : reads_at data (read_index_entry data) f_index_entry.
Proof using data_fits.
  unfold read_index_entry. eapply reads_at_ext.
  - apply (reads_at_bind _ _ _ (λ c v, c = le_bytes 1 v ∧ (v < 256)%N)
      (λ kind, f_bind (f_str small_text) (f_index_tail kind))); [apply reads_at_u8|].
    intros kind. apply reads_at_bind; [apply reads_at_string|]. intros p. unfold f_index_tail.
    destruct kind as [|[]]; [|apply reads_at_throw..|].
    + apply reads_at_bind; [apply reads_at_u32|apply reads_at_skip].
    + apply reads_at_bind; [apply reads_at_string|]. intros. apply reads_at_ret.
  - intros c ie. split.
    + intros (c1 & c2 & kind & -> & [-> Hk] & c3 & c4 & p & -> & [-> [Hp Hsp]] & H).
      unfold f_index_tail in H. destruct kind as [|[]]; try done.
      * destruct H as (c5 & c6 & n & -> & [-> Hn] & <- & ->). by exists (EFile p c6).
      * destruct H as (c5 & c6 & tg & -> & [-> [Htg Hst]] & -> & ->). rewrite app_nil_r_s.
        by exists (ESymlink p tg).
    + intros (e & -> & [He Hs] & ->). destruct e as [p b|p tg]; destruct He as [Hp Hb].
      * exists (le_bytes 1 0), (write_str p +:+ write_bytes b), 0%N. split; [done|]. split; [done|].
        exists (write_str p), (write_bytes b), p. split; [done|]. split; [done|].
        by eexists _, b, (N.of_nat (strlen b)).
      * destruct Hs as [Hs1 Hs2].
        exists (le_bytes 1 1), (write_str p +:+ write_str tg), 1%N. split; [done|]. split; [done|].
        exists (write_str p), (write_str tg), p. split; [done|]. split; [done|].
        exists (write_str tg), "", tg. by rewrite app_nil_r_s.
Qed.

Definition f_metadata_tail (kind : N) (p : string) : format IndexEntry :=
  match kind with
  | 0%N => f_ret (IFile p)
  | 1%N => f_bind (f_str small_text) (λ t, f_ret (ISymlink p t))
  | _ => f_fail
  end.
Lemma reads_at_metadata_entry : reads_at data (read_metadata_entry data)
  (λ c ie, ∃ ie', c = index_entry_bytes ie' ∧ valid_index ie' ∧ ie = ie').
Proof using data_fits.
  unfold read_metadata_entry. eapply reads_at_ext.
  - apply (reads_at_bind _ _ _ (λ c v, c = le_bytes 1 v ∧ (v < 256)%N)
      (λ kind, f_bind (f_str small_text) (f_metadata_tail kind))); [apply reads_at_u8|].
    intros kind. apply reads_at_bind; [apply reads_at_string|]. intros p. unfold f_metadata_tail.
    destruct kind as [|[]]; [apply reads_at_ret|apply reads_at_throw..|].
    apply reads_at_bind; [apply reads_at_string|]. intros. apply reads_at_ret.
  - intros c ie. split.
    + intros (c1 & c2 & kind & -> & [-> Hk] & c3 & c4 & p & -> & [-> [Hp Hsp]] & H).
      unfold f_metadata_tail in H. destruct kind as [|[]]; try done.
      * destruct H as [-> ->]. exists (IFile p). by rewrite app_nil_r_s.
      * destruct H as (c5 & c6 & tg & -> & [-> [Htg Hst]] & -> & ->). rewrite app_nil_r_s.
        by exists (ISymlink p tg).
    + intros (ie' & -> & Hv & ->). destruct ie' as [p|p tg].
      * destruct Hv as [Hp Hs]. exists (le_bytes 1 0), (write_str p), 0%N. split; [done|]. split; [done|].
        exists (write_str p), "", p. by rewrite app_nil_r_s.
      * destruct Hv as (Hp & Hs1 & Htg & Hs2).
        exists (le_bytes 1 1), (write_str p +:+ write_str tg), 1%N. split; [done|]. split; [done|].
        exists (write_str p), (write_str tg), p. split; [done|]. split; [done|].
        exists (write_str tg), "", tg. by rewrite app_nil_r_s.
Qed.

Lemma concat_length {B} (enc : B → string) (P : B → Prop) min bs :
  (∀ b, P b → (min <= N.of_nat (strlen (enc b)))%N) → Forall P bs →
  (N.of_nat (length bs) * min <= N.of_nat (strlen (concat_s (enc <$> bs))))%N.
Proof using data_fits.
  intros Hm. induction 1 as [|b bs Hb _ IH]; csimpl; [lia|]. unfold strlen in *.
  rewrite length_app_s. specialize (Hm b Hb). lia.
Qed.

Section counted.
Context {B : Type} (entry : M N ImageError IndexEntry) (enc : B → string) (P : B → Prop)
  (g : B → IndexEntry) (min : N).
Hypothesis entry_reads : reads_at data entry (λ c a, ∃ b, c = enc b ∧ P b ∧ a = g b).
Hypothesis min_length : ∀ b, P b → (min <= N.of_nat (strlen (enc b)))%N.

Lemma read_counted_Ok pos l : (pos <= stream_end data)%N →
  (read_counted data min entry pos).2 = Ok l ↔
  ∃ bs, drop_s (N.to_nat pos) data = write_u32 (N.of_nat (length bs)) +:+ concat_s (enc <$> bs) ∧
    Forall P bs ∧ l = g <$> bs ∧ (N.of_nat (length bs) <= MAX_INDEX_ENTRIES)%N.
Proof using data_fits entry_reads min_length.
  intros Hp. unfold read_counted. split.
  - intros [pos' H]%run_Ok. apply bind_Ok_inv in H as (p1 & n & (c & s' & Hd & [-> Hn] & ->)%reads_at_u32 & H); [|done].
    destruct (N.ltb_spec MAX_INDEX_ENTRIES n) as [|Hmax]; [done|].
    rewrite (bind_run (gets id) _ _ _ _ eq_refl) in H. unfold id in H.
    destruct (stream_end data <? _)%N; [done|]. destruct (_ <? N.min _ _)%N; [done|].
    destruct (reads_at_end _ _ _ _ Hp Hd) as [Hd1 He1].
    apply bind_Ok_inv in H as (p2 & es & Hes & H).
    apply (reads_at_repeat _ _ _ _ entry_reads) in Hes as (c2 & s2 & Hd2 & Hrep & ->); [|lia].
    apply (format_repeat _ enc g P) in Hrep as (bs & -> & Hbs & -> & Hl); [|done].
    rewrite (bind_run (gets id) _ _ _ _ eq_refl) in H. unfold id in H.
    case_bool_decide as Hend; [|done]. injection H as <- <-. rewrite Hd1 in Hd2. subst s'.
    rewrite strlen_app in He1.
    destruct s2 as [|x s2]; [|exfalso; change (strlen (String x s2)) with (S (strlen s2)) in He1; lia]. rewrite app_nil_r_s in Hd.
    exists bs. rewrite Hl, N2Nat.id. split; [done|]. split; [done|]. split; [done|]. lia.
  - intros (bs & Hd & Hbs & -> & Hmax).
    assert (N.of_nat (length bs) < 2 ^ 32)%N as H32 by (unfold MAX_INDEX_ENTRIES in Hmax; lia).
    destruct (reads_at_end _ _ _ _ Hp Hd) as [Hd1 He1].
    set (p1 := (pos + N.of_nat (strlen (write_u32 (N.of_nat (length bs)))))%N) in *.
    rewrite (bind_run _ _ _ p1 (N.of_nat (length bs))).
    2: { apply reads_at_u32; [done|]. eexists _, _. split; [exact Hd|]. split; [by split|done]. }
    destruct (N.ltb_spec MAX_INDEX_ENTRIES (N.of_nat (length bs))); [lia|].
    rewrite (bind_run (gets id) _ _ _ _ eq_refl). unfold id.
    destruct (N.ltb_spec (stream_end data) p1); [lia|].
    pose proof (concat_length enc P min bs min_length Hbs) as Hcl.
    destruct (N.ltb_spec (stream_end data - p1) (N.min U64_MAX (N.of_nat (length bs) * min))); [lia|].
    rewrite (bind_run _ _ _ (stream_end data) (g <$> bs)).
    2: { apply (reads_at_repeat _ _ _ _ entry_reads); [lia|]. eexists (concat_s (enc <$> bs)), "".
         rewrite app_nil_r_s. split; [done|]. split; [|lia]. apply (format_repeat _ enc g P); [done|].
         exists bs. repeat split; [done|]. by rewrite Nat2N.id. }
    rewrite (bind_run (gets id) _ _ _ _ eq_refl). unfold id. by rewrite bool_decide_eq_true_2.
Qed.
End counted.
End stream_reader.

Lemma write_str_length v : strlen (write_str v) = 4 + strlen v.
Proof. unfold write_str, write_bytes, write_u32, strlen. by rewrite length_app_s. Qed.
Lemma entry_bytes_length e : 9 ≤ strlen (entry_bytes e).
Proof.
  destruct e; unfold entry_bytes; change write_bytes with write_str;
    match goal with |- _ ≤ strlen (String _ (?a +:+ ?b)) =>
      change (9 ≤ S (strlen (a +:+ b))); unfold strlen at 1; rewrite length_app_s;
      fold (strlen a) (strlen b) end; rewrite !write_str_length; lia.
Qed.
Lemma index_entry_bytes_length e : 5 ≤ strlen (index_entry_bytes e).
Proof.
  destruct e as [p|p tg]; unfold index_entry_bytes.
  - change (5 ≤ S (strlen (write_str p))). rewrite write_str_length. lia.
  - change (5 ≤ S (strlen (write_str p +:+ write_str tg))). unfold strlen. rewrite length_app_s.
    fold (strlen (write_str p)). rewrite write_str_length. lia.
Qed.

Lemma drop_s_prefix (pre s : string) : drop_s (strlen pre) (pre +:+ s) = s.
Proof. induction pre as [|c pre IH]; [by destruct s|done]. Qed.

(** On a stream that holds [bytes] from its current position to its end,
    [decode_index] succeeds exactly when the bytes are an image whose strings
    and count are within the index limits, with the paths and link targets of
    its entries as the result, or the index of the result: it agrees with
    [decode] without reading a payload, and no bound it checks early refuses a
    valid image. *)
Theorem decode_index_exact pre bytes ies :
  (stream_end (pre +:+ bytes) <= U64_MAX)%N →
  (decode_index (pre +:+ bytes) (N.of_nat (strlen pre))).2 = Ok ies ↔
  (N.of_nat (length ies) <= MAX_INDEX_ENTRIES)%N ∧
  ((∃ es, decode bytes = Ok es ∧ Forall small_entry es ∧ ies = index_of <$> es) ∨
   (bytes = encode_index ies ∧ Forall valid_index ies)).
Proof.
  intros Hfit. set (data := pre +:+ bytes) in *. set (p0 := N.of_nat (strlen pre)).
  assert (p0 <= stream_end data)%N as Hp0
    by (unfold stream_end, data, strlen, p0; rewrite length_app_s; unfold strlen; lia).
  assert (drop_s (N.to_nat p0) data = bytes) as Hd0
    by (unfold p0; rewrite Nat2N.id; apply drop_s_prefix).
  assert (∀ m r, bytes = m +:+ r → N.of_nat (strlen m) = 8%N →
    read_exact data 8 p0 = ((p0 + 8)%N, Ok m) ∧ (p0 + 8 <= stream_end data)%N ∧
    drop_s (N.to_nat (p0 + 8)) data = r) as Hread.
  { intros m r Hb Hm. rewrite <- Hm. rewrite Hb in Hd0.
    destruct (reads_at_end data p0 m r Hp0 Hd0) as [Hd1 He]. split; [|split; [lia|done]].
    apply reads_at_exact; [done|]. exists m, r. split; [done|]. split; [done|lia]. }
  split.
  - intros [p' H]%run_Ok. unfold decode_index in H.
    apply bind_Ok_inv in H as (p1 & m & (c & r & Hd & [-> Hm] & ->)%reads_at_exact & H); [|done].
    rewrite Hd0 in Hd. destruct (Hread m r Hd Hm) as (_ & He & Hdr). rewrite Hm in H.
    case_bool_decide as H1; [|case_bool_decide as H2; [|done]].
    + subst m. assert ((decode_metadata_index data (p0 + 8)%N).2 = Ok ies) as H' by (by rewrite H).
      unfold decode_metadata_index in H'.
      apply (read_counted_Ok data Hfit (read_metadata_entry data) index_entry_bytes valid_index id) in H'
        as (bs & Hbs & Hv & -> & Hmax); [| |intros b _; pose proof (index_entry_bytes_length b); lia|done].
      * rewrite list_fmap_id. split; [done|]. right. split; [|done]. unfold encode_index.
        by rewrite Hd, <- Hbs, Hdr.
      * by apply reads_at_metadata_entry.
    + subst m. cbn [negb] in H. assert ((read_counted data 9 (read_index_entry data) (p0 + 8)%N).2 = Ok ies) as H' by (by rewrite H).
      apply (read_counted_Ok data Hfit (read_index_entry data) entry_bytes small_file index_of) in H'
        as (bs & Hbs & Hv & -> & Hmax); [| |intros b _; pose proof (entry_bytes_length b); lia|done].
      * rewrite length_fmap. split; [done|]. left. exists bs. rewrite decode_exact.
        split; [|split; [|done]].
        -- unfold encode_sorted. rewrite Hd, <- Hbs, Hdr. split; [done|]. split.
           ++ eapply Forall_impl; [done|]. by intros ? [].
           ++ unfold MAX_INDEX_ENTRIES in Hmax. lia.
        -- eapply Forall_impl; [done|]. by intros ? [].
      * by apply reads_at_index_entry.
  - intros (Hmax & [(es & [Hb [Hv Hl]]%decode_exact & Hs & ->)|[Hb Hv]]); unfold decode_index.
    + destruct (Hread MAGIC _ Hb eq_refl) as (Hr & He & Hd). rewrite (bind_run _ _ _ _ _ Hr).
      rewrite bool_decide_eq_false_2 by done. rewrite bool_decide_eq_true_2 by done. cbn [negb].
      apply (read_counted_Ok data Hfit (read_index_entry data) entry_bytes small_file index_of).
      * by apply reads_at_index_entry.
      * intros b _. pose proof (entry_bytes_length b). lia.
      * done.
      * exists es. rewrite length_fmap in Hmax. split; [done|]. split; [|done].
        apply Forall_and. done.
    + destruct (Hread INDEX_MAGIC _ Hb eq_refl) as (Hr & He & Hd). rewrite (bind_run _ _ _ _ _ Hr).
      rewrite bool_decide_eq_true_2 by done.
      apply (read_counted_Ok data Hfit (read_metadata_entry data) index_entry_bytes valid_index id).
      * by apply reads_at_metadata_entry.
      * intros b _. pose proof (index_entry_bytes_length b). lia.
      * done.
      * exists ies. by rewrite list_fmap_id.
Qed.

(** ** The index of a directory *)

Section directory.
Variable t : tree.
Variable lossy : string → string.
Variable root : list string.

(** Every node below the root lies in a directory. *)
Definition well_formed : Prop :=
  ∀ rel name, rel ≠ [] → is_Some (t !! (root ++ rel ++ [name])) →
    is_dir_node (t !! (root ++ rel)) = true.
(** The entry of a node. *)
Definition listed (rel : list string) : option IndexEntry :=
  match t !! (root ++ rel) with
  | Some (NFile _ _) => Some (IFile (relative_name lossy rel))
  | Some (NLink target) => Some (ISymlink (relative_name lossy rel) (lossy target))
  | _ => None
  end.

Lemma elem_of_read_dir dir name : name ∈ read_dir t dir ↔ is_Some (t !! (dir ++ [name])).
Proof using Type.
  unfold read_dir. rewrite list_elem_of_omap. split.
  - intros ([p n] & Hp & Hn). simpl in Hn. case_bool_decide as Hpar; [|done].
    destruct Hpar as [Hpar Hne]. apply elem_of_map_to_list in Hp.
    destruct p as [|x p] using rev_ind; [done|]. rewrite last_snoc in Hn. injection Hn as ->.
    unfold parent_of in Hpar. rewrite length_app in Hpar. simpl in Hpar.
    replace (length p + 1 - 1) with (length p) in Hpar by lia. rewrite take_app_length in Hpar.
    subst p. by exists n.
  - intros [n Hn]. exists (dir ++ [name], n). split; [by apply elem_of_map_to_list|]. simpl.
    rewrite bool_decide_eq_true_2; [apply last_snoc|]. split; [|by intros []%app_eq_nil].
    unfold parent_of. rewrite length_app. simpl. replace (length dir + 1 - 1) with (length dir) by lia.
    by rewrite take_app_length.
Qed.

Lemma elem_of_collect_index depth rel ie : well_formed →
  ie ∈ collect_index t lossy depth root rel ↔
  ∃ ext, ext ≠ [] ∧ length ext ≤ depth ∧ listed (rel ++ ext) = Some ie.
Proof using Type.
  intros Hwf. revert rel. induction depth as [|depth IH]; intros rel; cbn [collect_index].
  { split; [by intros ?%not_elem_of_nil|]. intros (ext & Hne & Hl & _). destruct ext; [done|simpl in Hl; lia]. }
  rewrite list_elem_of_bind. setoid_rewrite elem_of_read_dir. split.
  - intros (name & Hie & [n Hn]). rewrite <- (assoc_L (++)) in Hn. rewrite Hn in Hie.
    destruct n as [b m|m|target].
    + apply list_elem_of_singleton in Hie as ->. exists [name]. unfold listed. rewrite Hn.
      split; [done|]. split; [simpl; lia|done].
    + apply IH in Hie as (ext & Hne & Hl & He). exists (name :: ext). split; [done|].
      split; [simpl; lia|]. by rewrite (cons_middle name), (assoc_L (++)).
    + apply list_elem_of_singleton in Hie as ->. exists [name]. unfold listed. rewrite Hn.
      split; [done|]. split; [simpl; lia|done].
  - intros (ext & Hne & Hl & He). destruct ext as [|name ext]; [done|]. exists name.
    rewrite <- (assoc_L (++)). destruct (decide (ext = [])) as [->|Hext].
    + unfold listed in He. destruct (t !! (root ++ rel ++ [name])) as [[]|]; simplify_eq;
        (split; [by apply list_elem_of_singleton|by eexists]).
    + assert (is_dir_node (t !! (root ++ rel ++ [name])) = true) as Hd.
      { assert (is_Some (t !! (root ++ rel ++ name :: ext))) as Hs.
        { unfold listed in He. destruct (t !! _); [by eexists|done]. }
        clear He Hl. revert Hs. induction ext as [|x ext IHe] using rev_ind; [done|]. intros Hs.
        replace (root ++ rel ++ name :: ext ++ [x]) with (root ++ (rel ++ name :: ext) ++ [x]) in Hs
          by (by rewrite <- (assoc_L (++))).
        apply Hwf in Hs; [|by destruct rel]. destruct (decide (ext = [])) as [->|Hext']; [done|].
        apply IHe; [done|done|]. destruct (t !! _); [by eexists|done]. }
      destruct (t !! (root ++ rel ++ [name])) as [[]|]; try done. split; [|by eexists].
      apply IH. exists ext. split; [done|]. split; [simpl in Hl; lia|].
      by rewrite <- (assoc_L (++)).
Qed.

Lemma tree_depth_bound p n : t !! p = Some n → length p ≤ tree_depth t.
Proof using Type.
  unfold tree_depth. revert p n.
  apply (map_fold_weak_ind (λ r (m : tree), ∀ p n, m !! p = Some n → length p ≤ r)).
  - intros p n. by rewrite lookup_empty.
  - intros q x m r Hq IH p n. destruct (decide (q = p)) as [->|Hne].
    + intros _. lia.
    + rewrite lookup_insert_ne by done. intros H. specialize (IH p n H). lia.
Qed.

(** The index written for a directory reads back, and lists exactly the
    files and links below it by their relative paths, in sorted order. *)
Theorem directory_index_exact :
  well_formed →
  (∀ rel ie, rel ≠ [] → listed rel = Some ie → valid_index ie) →
  (N.of_nat (length (collect_index t lossy (S (tree_depth t)) root [])) <= MAX_INDEX_ENTRIES)%N →
  (stream_end (from_directory_index t lossy root) <= U64_MAX)%N →
  ∃ ies, (decode_index (from_directory_index t lossy root) 0%N).2 = Ok ies ∧
    StronglySorted (λ a b, String.leb (IndexEntry_path a) (IndexEntry_path b) = true) ies ∧
    ∀ ie, ie ∈ ies ↔ ∃ rel, rel ≠ [] ∧ listed rel = Some ie.
Proof using Type.
  intros Hwf Hv Hmax Hfit. set (leb := λ a b, String.leb (IndexEntry_path a) (IndexEntry_path b)).
  set (l := collect_index t lossy (S (tree_depth t)) root []) in *.
  assert (∀ ie, ie ∈ l ↔ ∃ rel, rel ≠ [] ∧ listed rel = Some ie) as Hl.
  { intros ie. unfold l. rewrite elem_of_collect_index by done. split.
    - intros (ext & Hne & _ & He). by exists ext.
    - intros (rel & Hne & He). exists rel. split; [done|]. split; [|done]. simpl in He.
      unfold listed in He. destruct (t !! (root ++ rel)) eqn:Ht; [|done].
      apply tree_depth_bound in Ht. rewrite length_app in Ht. lia. }
  exists (sort_by leb l). split; [|split].
  - apply (decode_index_exact "" (from_directory_index t lossy root)); [done|].
    rewrite (Permutation_length (sort_by_perm leb l)). split; [done|]. right. split; [done|].
    rewrite Forall_forall. intros ie Hie. rewrite (sort_by_perm leb l) in Hie.
    apply Hl in Hie as (rel & Hne & He). by eapply Hv.
  - apply sort_by_sorted; unfold leb; [intros; apply leb_total_s|intros ???; apply leb_trans_s].
  - intros ie. by rewrite (sort_by_perm leb l).
Qed.
End directory.

(** ** Runs *)

Module ImageRuns.
Definition sample : list Entry := [EFile "a.js" "payload"; ESymlink "bin/a" "../a.js"].

Lemma decode_index_exact_witness :
  (decode_index ("xx" +:+ encode_sorted sample) 2%N).2 = Ok [IFile "a.js"; ISymlink "bin/a" "../a.js"].
Proof.
  apply (decode_index_exact "xx" (encode_sorted sample)); [by vm_compute|].
  split; [by vm_compute|]. left. exists sample. split; [|split].
  - by vm_compute.
  - repeat constructor; by vm_compute.
  - by vm_compute.
Defined.

Definition image_nodes : list (list string * node) :=
  [ (["img"], NDir 493); (["img"; "lib"], NDir 493); (["img"; "lib"; "b.js"], NFile "b" 420);
    (["img"; "a"], NLink "lib/b.js") ].
Definition image_tree : tree := list_to_map image_nodes.

Lemma image_tree_Some p n : image_tree !! p = Some n →
  (p = ["img"] ∧ n = NDir 493) ∨ (p = ["img"; "lib"] ∧ n = NDir 493) ∨
  (p = ["img"; "lib"; "b.js"] ∧ n = NFile "b" 420) ∨ (p = ["img"; "a"] ∧ n = NLink "lib/b.js").
Proof.
  intros H%elem_of_list_to_map_2. unfold image_nodes in H.
  rewrite !elem_of_cons, elem_of_nil in H. naive_solver.
Qed.

Lemma image_tree_listed rel ie : rel ≠ [] → listed image_tree id ["img"] rel = Some ie →
  ie = IFile "lib/b.js" ∨ ie = ISymlink "a" "lib/b.js".
Proof.
  intros Hne. unfold listed. destruct (image_tree !! _) as [n|] eqn:H; [|done].
  apply image_tree_Some in H as [[H ->]|[[H ->]|[[H ->]|[H ->]]]]; simpl in H; simplify_eq; try done.
  - intros [= <-]. by left.
  - intros [= <-]. by right.
Qed.

Lemma directory_index_exact_witness :
  ∃ ies, (decode_index (from_directory_index image_tree id ["img"]) 0%N).2 = Ok ies ∧
    IFile "lib/b.js" ∈ ies.
Proof.
  destruct (directory_index_exact image_tree id ["img"]) as (ies & Hd & _ & Hl).
  - intros rel name Hne [n Hn].
    apply image_tree_Some in Hn as [[H ->]|[[H ->]|[[H ->]|[H ->]]]];
      (destruct rel as [|x [|y [|z rel]]]; simplify_eq/=; try done; try by vm_compute).
  - intros rel ie Hne Hie. apply image_tree_listed in Hie as [->| ->]; [repeat split; by vm_compute..|done].
  - by vm_compute.
  - by vm_compute.
  - exists ies. split; [exact Hd|]. apply Hl. exists ["lib"; "b.js"]. split; [discriminate|].
    vm_compute. reflexivity.
Defined.

(** A file name with a backslash, legal on Unix, is listed as a nested path. *)
Definition backslash_tree : tree := <[["img"] := NDir 493]> (<[["img"; "a\b"] := NFile "x" 420]> ∅).
Lemma backslash_name_is_lost :
  (decode_index (from_directory_index backslash_tree id ["img"]) 0%N).2 = Ok [IFile "a/b"] ∧
  backslash_tree !! ["img"; "a"; "b"] = None.
Proof. vm_compute. done. Qed.
End ImageRuns.
