(* ===== verification/Archive.v ===== *)
(** * [src/archive.rs]: extracting a package tarball into an image

    The gzip and tar readers are other crates: an archive is what they give, a
    list of entries each of which may be corrupt.  The image is built in a
    [FileTree].  This file has the code; [ArchiveTheory] has its theorems. *)

From S2P Require Export FileTree Machine.
From Stdlib Require Import Ascii.

(** ** What the tar reader gives *)

Inductive EntryType :=
  | Regular | Continuous | Link | Symlink | Char | Block | Directory | Fifo
  | GNULongName | GNULongLink | GNUSparse | XGlobalHeader | XHeader | Other (byte : N).
#[global] Instance EntryType_eq_dec : EqDecision EntryType.
Proof. solve_decision. Defined.

(** [en_size] and [en_mode] are header fields, [None] when they do not parse;
    [en_data] is what reading the entry yields, [en_read_error] whether that
    ends in an error. *)
Record entry := mk_entry {
  en_path : result string string; en_type : EntryType; en_size : option N; en_mode : option N;
  en_link : result string (option string); en_data : string; en_read_error : bool }.

Inductive archive_file :=
  | Unreadable (source : string)
  | NotTar (message : string)
  | Entries (entries : list (result string entry)).

(** ** Errors and budgets *)

Inductive ExtractError :=
  | Read (source : string)
  | InvalidArchive (message : string)
  | UnsafePath (path : string) (reason : string)
  | UnsafeSymlink (link : list string) (target : string)
  | UnsupportedEntry (typ : EntryType) (path : list string)
  | DuplicateEntry (path : list string)
  | Write (path : list string) (source : errno)
  | CopyFailed (path : list string)
  | ResourceLimit (resource : string) (limit : N) (path : option (list string)).
#[global] Instance ExtractError_eq_dec : EqDecision ExtractError.
Proof. solve_decision. Defined.

Definition PACKAGE_PREFIX : string := "package".
Definition MAX_TOTAL_BYTES : N := 2 * 1024 * 1024 * 1024.
Definition MAX_FILE_BYTES : N := 512 * 1024 * 1024.
Definition MAX_ENTRIES : N := 100000.

Record ExtractionLimits := mk_ExtractionLimits {
  max_total_bytes : N; max_file_bytes : N; max_entries : N }.
Definition ExtractionLimits_default : ExtractionLimits :=
  mk_ExtractionLimits MAX_TOTAL_BYTES MAX_FILE_BYTES MAX_ENTRIES.

Record ExtractionBudget := mk_ExtractionBudget {
  limits : ExtractionLimits; entries_seen : N; total_bytes : N }.
Definition ExtractionBudget_new (l : ExtractionLimits) : ExtractionBudget :=
  mk_ExtractionBudget l 0 0.

Definition resource_overflow (resource : string) (limit : N) (rel : option (list string)) : ExtractError :=
  ResourceLimit resource limit rel.

Definition observe_entry (rel : option (list string)) (b : ExtractionBudget) :
    result ExtractError ExtractionBudget :=
  n ← ok_or (resource_overflow "entries" (max_entries (limits b)) rel) (checked_add U64_MAX (entries_seen b) 1);
  fail_if (max_entries (limits b) <? n)%N with_err (ResourceLimit "entries" (max_entries (limits b)) rel);
  Ok (mk_ExtractionBudget (limits b) n (total_bytes b)).

Definition reserve_file (declared : N) (rel : list string) (b : ExtractionBudget) :
    result ExtractError ExtractionBudget :=
  fail_if (max_file_bytes (limits b) <? declared)%N
    with_err (ResourceLimit "file bytes" (max_file_bytes (limits b)) (Some rel));
  new_total ← ok_or (resource_overflow "total bytes" (max_total_bytes (limits b)) (Some rel))
                (checked_add U64_MAX (total_bytes b) declared);
  fail_if (max_total_bytes (limits b) <? new_total)%N
    with_err (ResourceLimit "total bytes" (max_total_bytes (limits b)) (Some rel));
  Ok (mk_ExtractionBudget (limits b) (entries_seen b) new_total).

(** ** Paths *)

Definition is_header_only (t : EntryType) : bool :=
  match t with XGlobalHeader | XHeader | GNULongName | GNULongLink => true | _ => false end.
Definition is_regular_type (t : EntryType) : bool :=
  match t with Regular | Continuous => true | _ => false end.

(** The loop of [detect_archive_root_prefix]: the candidate and whether a
    manifest lies directly below it. *)
Fixpoint detect_loop (es : list (result string entry)) (b : ExtractionBudget)
    (common : option string) (has_prefixed_manifest : bool) : result ExtractError (option string) :=
  match es with
  | [] => Ok (if has_prefixed_manifest then common else None)
  | Err e :: _ => Err (InvalidArchive ("corrupt tar entry: " +:+ e))
  | Ok en :: es =>
      if is_header_only (en_type en) then detect_loop es b common has_prefixed_manifest
      else
        b ← observe_entry None b;
        raw ← map_err (λ e, InvalidArchive ("invalid entry path header: " +:+ e)) (en_path en);
        match components raw with
        | Normal first :: rest =>
            if bool_decide (first = PACKAGE_PREFIX) then Ok (Some first)
            else if match common with Some value => negb (bool_decide (value = first)) | None => false end
            then Ok None
            else detect_loop es b (Some first)
                   (has_prefixed_manifest || bool_decide (rest = [Normal "package.json"]))
        | _ => detect_loop es b common has_prefixed_manifest
        end
  end.

Definition open_archive (a : archive_file) : result ExtractError (list (result string entry)) :=
  match a with
  | Unreadable e => Err (Read e)
  | NotTar m => Err (InvalidArchive ("cannot enumerate tar entries: " +:+ m))
  | Entries es => Ok es
  end.

Definition detect_archive_root_prefix (a : archive_file) : result ExtractError (option string) :=
  es ← open_archive a;
  detect_loop es (ExtractionBudget_new ExtractionLimits_default) None false.

Definition strip_package_prefix (p : list component) (detected_prefix : option string) : list component :=
  match p with
  | Normal first :: rest =>
      if bool_decide (detected_prefix = Some first) || bool_decide (first = PACKAGE_PREFIX)
      then rest else p
  | _ => p
  end.

(** A path all of whose components are names is given by those names. *)
Fixpoint validate_returned_relative (p : list component) : result string (list string) :=
  match p with
  | [] => Ok []
  | Normal name :: p => rest ← validate_returned_relative p; Ok (name :: rest)
  | CurDir :: p => validate_returned_relative p
  | ParentDir :: _ => Err "path traversal ('..') is not allowed"
  | RootDir :: _ => Err "absolute paths are not allowed"
  end.

(** The second loop of [symlink_within_root], from the depth of the link's
    directory. *)
Fixpoint target_depth (depth : Z) (cs : list component) : option Z :=
  match cs with
  | [] => Some depth
  | Normal _ :: cs => target_depth (depth + 1) cs
  | CurDir :: cs => target_depth depth cs
  | ParentDir :: cs => if (depth - 1 <? 0)%Z then None else target_depth (depth - 1) cs
  | RootDir :: _ => None
  end.
Definition symlink_within_root (rel : list string) (target : string) : bool :=
  if starts_with_char "/" target then false
  else match target_depth (Z.of_nat (length (parent_of rel))) (components target) with
       | Some depth => (0 <=? depth)%Z
       | None => false
       end.

(** ** Extraction *)

Section extract.
Variable umask : N.
Variable image_root : list string.

Record extraction := mk_extraction {
  tree_of : tree; budget : ExtractionBudget; seen_types : gmap (list string) EntryType;
  created_file_mode : option N }.

Notation ex := (M extraction ExtractError).

(** A file-system call, its error named by the path it was about. *)
Definition on_tree {A} (path : list string) (m : fs A) : ex A := λ s,
  let '(t, r) := m (tree_of s) in
  (mk_extraction t (budget s) (seen_types s) (created_file_mode s), map_err (Write path) r).
Definition on_budget (f : ExtractionBudget → result ExtractError ExtractionBudget) : ex () := λ s,
  match f (budget s) with
  | Ok b => (mk_extraction (tree_of s) b (seen_types s) (created_file_mode s), Ok ())
  | Err e => (s, Err e)
  end.

Definition apply_mode (path : list string) (mode : N) : fs () :=
  chmod path (N.ldiff (N.land mode 511) 2).

(** [seen.insert(rel, entry_type)] and the duplicate rule. *)
Definition note_seen (rel : list string) (typ : EntryType) : ex () := λ s,
  let previous := seen_types s !! rel in
  let s := mk_extraction (tree_of s) (budget s) (<[rel := typ]> (seen_types s)) (created_file_mode s) in
  match previous with
  | Some p => if negb (is_regular_type typ) || negb (is_regular_type p)
              then (s, Err (DuplicateEntry rel)) else (s, Ok ())
  | None => (s, Ok ())
  end.

Definition normalized_mode (mode : N) : N := if bool_decide (N.land mode 73 = 0%N) then 420 else 493.

(** [created_file_mode.get_or_insert_with(...)]: the mode of the open file the
    first time a file is extracted. *)
Definition learn_default_mode (q : list string) : ex N := λ s,
  match created_file_mode s with
  | Some m => (s, Ok m)
  | None =>
      let m := match mode_of (node_at (tree_of s) q) with Some m => N.land m 511 | None => U32_MAX end in
      (mk_extraction (tree_of s) (budget s) (seen_types s) (Some m), Ok m)
  end.

Definition extract_regular (rel : list string) (en : entry) : ex () :=
  let dest := image_root ++ rel in
  _ ← on_budget (reserve_file (default 0%N (en_size en)) rel);
  _ ← on_tree (parent_of dest) (create_dir_all umask (parent_of dest));
  q ← on_tree dest (file_create umask dest);
  _ ← on_tree dest (write_open q (en_data en));
  _ ← (if en_read_error en then throw (CopyFailed dest) else mret ());
  let normalized := normalized_mode (default 420%N (en_mode en)) in
  default_mode ← learn_default_mode q;
  if bool_decide (default_mode = normalized) then mret ()
  else on_tree dest (apply_mode dest normalized).

(** [let _ = apply_mode(...)]. *)
Definition ignore_error (m : fs ()) : fs () := λ t, ((m t).1, Ok ()).
Definition extract_directory (rel : list string) : ex () :=
  let dest := image_root ++ rel in
  _ ← on_tree dest (create_dir_all umask dest);
  on_tree dest (ignore_error (apply_mode dest 493)).

Definition extract_symlink (raw : string) (rel : list string) (en : entry) : ex () :=
  let dest := image_root ++ rel in
  link ← lift (map_err (λ e, InvalidArchive ("invalid symlink header: " +:+ e)) (en_link en));
  target ← lift (ok_or (InvalidArchive ("symlink entry missing link name: " +:+ raw)) link);
  if negb (symlink_within_root rel target) then throw (UnsafeSymlink rel target)
  else
    _ ← on_tree (parent_of dest) (create_dir_all umask (parent_of dest));
    on_tree dest (symlink target dest).

(** The clean path of an entry. *)
Definition entry_path (prefix : option string) (en : entry) : result ExtractError (string * list string) :=
  raw ← map_err (λ e, InvalidArchive ("invalid entry path header: " +:+ e)) (en_path en);
  rel ← map_err (UnsafePath raw) (validate_returned_relative (strip_package_prefix (components raw) prefix));
  Ok (raw, rel).

Definition extract_entry (prefix : option string) (r : result string entry) : ex () :=
  en ← lift (map_err (λ e, InvalidArchive ("corrupt tar entry: " +:+ e)) r);
  '(raw, rel) ← lift (entry_path prefix en);
  if bool_decide (rel = []) then mret ()
  else
    _ ← on_budget (observe_entry (Some rel));
    if is_header_only (en_type en) then mret ()
    else
      _ ← note_seen rel (en_type en);
      match en_type en with
      | Regular | Continuous => extract_regular rel en
      | Directory => extract_directory rel
      | Symlink => extract_symlink raw rel en
      | other => throw (UnsupportedEntry other rel)
      end.

Definition extract_with_limits (a : archive_file) (l : ExtractionLimits) (t : tree) :
    extraction * result ExtractError () :=
  let s0 := mk_extraction t (ExtractionBudget_new l) ∅ None in
  (prefix ← lift (detect_archive_root_prefix a);
   es ← lift (open_archive a);
   each_m (extract_entry prefix) es) s0.

Definition extract (a : archive_file) (t : tree) : extraction * result ExtractError () :=
  extract_with_limits a ExtractionLimits_default t.
End extract.
