(* ===== verification/ArchiveTheory.v ===== *)
(** * What extraction writes

    The abstract image of an archive is a map from clean paths to contents; the
    code implements it, within the image root, for every archive in which no
    entry lies below a link entry.  The runs at the end show what happens
    otherwise. *)

From S2P Require Export Archive.
From Stdlib Require Import Ascii.

(** ** The abstract image *)

Inductive content := CFile (bytes : string) | CDir | CLink (target : string).
#[global] Instance content_eq_dec : EqDecision content.
Proof. solve_decision. Defined.

Definition content_of (n : node) : content :=
  match n with NFile bytes _ => CFile bytes | NDir _ => CDir | NLink target => CLink target end.

Notation image := (gmap (list string) content).

(** The last regular entry of a path wins. *)
Definition image_step (prefix : option string) (im : image) (r : result string entry) : image :=
  match r with
  | Err _ => im
  | Ok en =>
      match entry_path prefix en with
      | Err _ => im
      | Ok (_, rel) =>
          if bool_decide (rel = []) then im
          else match en_type en, en_link en with
               | Regular, _ | Continuous, _ => <[rel := CFile (en_data en)]> im
               | Directory, _ => <[rel := CDir]> im
               | Symlink, Ok (Some target) => <[rel := CLink target]> im
               | _, _ => im
               end
      end
  end.
Definition image_of (prefix : option string) (es : list (result string entry)) : image :=
  foldl (image_step prefix) ∅ es.

(** The paths of the link entries. *)
Definition link_paths (prefix : option string) (es : list (result string entry)) : list (list string) :=
  es ≫= λ r, match r with
             | Ok en => match entry_path prefix en, en_type en with
                        | Ok (_, rel), Symlink => [rel]
                        | _, _ => []
                        end
             | Err _ => []
             end.
Definition entry_paths (prefix : option string) (es : list (result string entry)) : list (list string) :=
  es ≫= λ r, match r with
             | Ok en => match entry_path prefix en with Ok (_, rel) => [rel] | _ => [] end
             | Err _ => []
             end.
(** No entry lies below a link entry. *)
Definition no_entry_below_link (prefix : option string) (es : list (result string entry)) : Prop :=
  Forall (λ l, Forall (λ p, ¬ (l `prefix_of` p ∧ l ≠ p)) (entry_paths prefix es)) (link_paths prefix es).
#[global] Instance no_entry_below_link_dec prefix es : Decision (no_entry_below_link prefix es).
Proof. unfold no_entry_below_link. apply _. Defined.

(** ** Calls below the image root *)

Section below.
Variable umask : N.
Variable root : list string.
Hypothesis root_plain : Forall plain root.

(** Every directory down to the root exists. *)
Definition root_ok (t : tree) : Prop :=
  ∀ p s, root = p ++ s → p ≠ [] → is_dir_node (t !! p) = true.
(** No link between the root and [d], [d] included. *)
Definition link_free (t : tree) (d : list string) : Prop :=
  ∀ pre target, pre ≠ [] → pre `prefix_of` d → t !! (root ++ pre) ≠ Some (NLink target).

Lemma node_at_cons t p : p ≠ [] → node_at t p = t !! p.
Proof using Type. by destruct p. Qed.
Lemma node_at_below t rel : rel ≠ [] → node_at t (root ++ rel) = t !! (root ++ rel).
Proof using Type. intros H. apply node_at_cons. by intros [_ ->]%app_eq_nil. Qed.

Lemma parent_of_snoc (l : list string) x : parent_of (l ++ [x]) = l.
Proof using Type.
  unfold parent_of. rewrite length_app. simpl. replace (length l + 1 - 1) with (length l) by lia.
  by rewrite take_app_length.
Qed.
Lemma snoc_case (l : list string) : l = [] ∨ ∃ l' x, l = l' ++ [x].
Proof using Type. induction l using rev_ind; [by left|right; by eexists _, _]. Qed.

Lemma lookup_root t follow rel :
  root_ok t → lookup_path t follow (root ++ rel) = namei MAX_LINKS t follow root rel.
Proof using root_plain.
  intros Hr. unfold lookup_path. rewrite namei_dirs; [done|done|].
  intros p s Heq Hne. simpl. rewrite node_at_cons by done. by apply (Hr p s).
Qed.

Lemma lookup_below t follow d c q :
  root_ok t → Forall plain (d ++ [c]) → link_free t d →
  (follow = true → link_free t (d ++ [c])) →
  lookup_path t follow (root ++ d ++ [c]) = Ok q → q = root ++ d ++ [c].
Proof using root_plain.
  intros Hr Hp Hl Hf. rewrite lookup_root by done. apply namei_plain; [done| |].
  - intros pre post target Heq Hpre Hpost. rewrite node_at_below by done. apply Hl; [done|].
    destruct (snoc_case post) as [->|(post' & x & ->)]; [done|].
    rewrite (assoc_L (++)) in Heq. apply app_inj_tail in Heq as [-> _]. by exists post'.
  - intros target Hfo _. rewrite node_at_below by (by intros []%app_eq_nil). apply Hf; [done| |done].
    by intros []%app_eq_nil.
Qed.

(** Only directories were added, on the way to [d]. *)
Definition dirs_added (d : list string) (t t' : tree) : Prop :=
  ∀ p, t' !! p = t !! p ∨
       (t !! p = None ∧ ∃ pre m, pre ≠ [] ∧ pre `prefix_of` d ∧ p = root ++ pre ∧ t' !! p = Some (NDir m)).

Lemma dirs_added_refl d t : dirs_added d t t.
Proof using Type. intros p. by left. Qed.
Lemma dirs_added_trans d d' t1 t2 t3 :
  d `prefix_of` d' → dirs_added d t1 t2 → dirs_added d' t2 t3 → dirs_added d' t1 t3.
Proof using Type.
  intros Hd H12 H23 p. destruct (H23 p) as [->|(Hn & pre & m & Hne & Hpre & -> & ->)].
  - destruct (H12 p) as [->|(Hn & pre & m & Hne & Hpre & -> & H)]; [by left|].
    right. split; [done|]. exists pre, m. repeat split; try done. by transitivity d.
  - destruct (H12 (root ++ pre)) as [<-|(Hn' & pre' & m' & Hne' & Hpre' & Heq & H)]; [|congruence].
    right. split; [done|]. by exists pre, m.
Qed.
Lemma dirs_added_root_ok d t t' : dirs_added d t t' → root_ok t → root_ok t'.
Proof using Type.
  intros Ha Hr p s Heq Hne. destruct (Ha p) as [->|(Hn & _)]; [by apply (Hr p s)|].
  specialize (Hr p s Heq Hne). by rewrite Hn in Hr.
Qed.
Lemma dirs_added_link_free d d' t t' : dirs_added d t t' → link_free t d' → link_free t' d'.
Proof using Type.
  intros Ha Hl pre target Hne Hpre. destruct (Ha (root ++ pre)) as [->|(_ & ? & ? & _ & _ & _ & ->)];
    [by apply Hl|done].
Qed.
Lemma link_free_prefix t d d' : d' `prefix_of` d → link_free t d → link_free t d'.
Proof using Type. intros Hd Hl pre target Hne Hpre. apply Hl; [done|by transitivity d']. Qed.

Lemma link_free_snoc t d c : link_free t (d ++ [c]) → link_free t d.
Proof using Type. apply link_free_prefix. by apply prefix_app_r. Qed.

Lemma mkdir_below t d c : root_ok t → Forall plain (d ++ [c]) → link_free t d →
  let r := mkdir umask (root ++ d ++ [c]) t in
  dirs_added (d ++ [c]) t r.1 ∧
  (r.2 = Ok () → is_dir_node (r.1 !! (root ++ d ++ [c])) = true) ∧
  (r.2 ≠ Ok () → r.1 = t).
Proof using root_plain.
  intros Hr Hp Hl. unfold mkdir. destruct (lookup_path _ _ _) as [q|e] eqn:Hq; simpl.
  2: { split; [apply dirs_added_refl|]. by split. }
  apply lookup_below in Hq as ->; [|done..].
  rewrite node_at_below by (by intros []%app_eq_nil). destruct (t !! _) eqn:Ht; simpl.
  { split; [apply dirs_added_refl|]. by split. }
  split; [|split; [by rewrite lookup_insert_eq|done]].
  intros p. destruct (decide (p = root ++ d ++ [c])) as [->|Hne].
  - right. split; [done|]. exists (d ++ [c]). eexists. split; [by intros []%app_eq_nil|].
    split; [done|]. split; [done|]. by rewrite lookup_insert_eq.
  - left. by rewrite lookup_insert_ne.
Qed.

Lemma is_dir_below t d : root_ok t → Forall plain d → link_free t d →
  is_dir t (root ++ d) = true → d = [] ∨ is_dir_node (t !! (root ++ d)) = true.
Proof using root_plain.
  intros Hr Hp Hl. destruct (snoc_case d) as [->|(d' & c & ->)]; [by left|]. right. revert H.
  unfold is_dir. destruct (lookup_path _ _ _) as [q|] eqn:Hq; [|done].
  apply lookup_below in Hq as ->; [|done|done|by eapply link_free_snoc|done].
  by rewrite node_at_below by (by intros []%app_eq_nil).
Qed.

Lemma is_dir_root t : root_ok t → is_dir t root = true.
Proof using root_plain.
  intros Hr. unfold is_dir. rewrite <- (app_nil_r root) at 1. rewrite lookup_root by done. simpl.
  destruct root as [|c l] eqn:Heq; [done|]. apply (Hr _ []); [by rewrite Heq, app_nil_r|done].
Qed.

Lemma create_dir_all_root t : root_ok t → create_dir_all umask root t = (t, Ok ()).
Proof using root_plain.
  intros Hr. unfold create_dir_all. destruct (snoc_case root) as [Hn|(r & c & Hc)].
  { by rewrite Hn. }
  assert (mkdir umask root t = (t, Err EEXIST)) as Hm.
  { unfold mkdir. rewrite <- (app_nil_r root) at 1. rewrite lookup_root by done. simpl.
    pose proof (is_dir_root t Hr) as Hd. unfold is_dir in Hd. rewrite <- (app_nil_r root) in Hd at 1.
    rewrite lookup_root in Hd by done. simpl in Hd. by destruct (node_at t root) as [[]|]. }
  rewrite Hc at 1. rewrite reverse_snoc. cbn [create_dir_all_rev].
  rewrite <- reverse_snoc, <- Hc, reverse_involutive, Hm. by rewrite is_dir_root.
Qed.

Lemma create_dir_all_below t d : root_ok t → Forall plain d → link_free t d →
  let r := create_dir_all umask (root ++ d) t in
  dirs_added d t r.1 ∧
  (r.2 = Ok () → d ≠ [] → is_dir_node (r.1 !! (root ++ d)) = true).
Proof using root_plain.
  revert t. induction d as [|c d IH] using rev_ind; intros t Hr Hp Hl.
  { rewrite app_nil_r, create_dir_all_root by done. split; [apply dirs_added_refl|done]. }
  assert (link_free t d) as Hld by (by eapply link_free_snoc).
  apply Forall_app in Hp as Hpd. destruct Hpd as [Hpd _]. cbn zeta.
  unfold create_dir_all. rewrite (assoc_L (++)), reverse_snoc. cbn [create_dir_all_rev].
  fold (create_dir_all umask (root ++ d)).
  rewrite <- reverse_snoc, reverse_involutive, <- (assoc_L (++)).
  pose proof (mkdir_below t d c Hr Hp Hld) as (Ha & Hd & Ht).
  destruct (mkdir umask (root ++ d ++ [c]) t) as [t1 [[]|e]] eqn:Hm; simpl in *.
  { split; [done|]. by intros _ _; apply Hd. }
  rewrite (Ht (ltac:(done))) in *. clear Ht Hd t1.
  assert (∀ t, root_ok t → link_free t (d ++ [c]) → ∀ e',
    let r := if is_dir t (root ++ d ++ [c]) then (t, Ok ()) else (t, Err e' : result errno ()) in
    r.1 = t ∧ (r.2 = Ok () → is_dir_node (r.1 !! (root ++ d ++ [c])) = true)) as Hdir.
  { intros t' Hr' Hl' e'. destruct (is_dir t' _) eqn:Hd; simpl; [|done]. split; [done|]. intros _.
    apply is_dir_below in Hd as [[]%app_eq_nil|]; done. }
  change (create_dir_all_rev umask (reverse (root ++ d)) t) with (create_dir_all umask (root ++ d) t).
  destruct (decide (e = ENOENT)) as [->|He].
  2: { destruct (Hdir t Hr Hl e) as [H1 H2]. 
       replace (match e with ENOENT => _ | _ => _ end) with
         (if is_dir t (root ++ d ++ [c]) then (t, Ok ()) else (t, Err e : result errno ()))
         by (by destruct e).
       rewrite H1 in *. split; [apply dirs_added_refl|]. intros H _. by apply H2. }
  destruct (IH t Hr Hpd Hld) as [Ha1 _].
  destruct (create_dir_all umask (root ++ d) t) as [t1 [[]|e]]; simpl in *.
  2: { split; [|done]. eapply (dirs_added_trans d); [apply prefix_app_r; done|done|apply dirs_added_refl]. }
  assert (root_ok t1) as Hr1 by (by eapply dirs_added_root_ok).
  assert (link_free t1 (d ++ [c])) as Hl1 by (by eapply dirs_added_link_free).
  pose proof (mkdir_below t1 d c Hr1 Hp (dirs_added_link_free _ _ _ _ Ha1 Hld)) as (Ha2 & Hd2 & Ht2).
  destruct (mkdir umask (root ++ d ++ [c]) t1) as [t2 [[]|e]]; simpl in *.
  - split; [|by intros _ _; apply Hd2]. eapply (dirs_added_trans d); [by apply prefix_app_r|done|done].
  - rewrite (Ht2 (ltac:(done))) in *. destruct (Hdir t1 Hr1 Hl1 e) as [H1 H2]. rewrite H1 in *.
    split; [|by intros H _; apply H2].
    eapply (dirs_added_trans d); [by apply prefix_app_r|done|apply dirs_added_refl].
Qed.

Lemma file_create_below t d c : root_ok t → Forall plain (d ++ [c]) → link_free t (d ++ [c]) →
  match file_create umask (root ++ d ++ [c]) t with
  | (t', Ok q) => q = root ++ d ++ [c] ∧ ∃ mode, t' = <[q := NFile "" mode]> t
  | (t', Err _) => t' = t
  end.
Proof using root_plain.
  intros Hr Hp Hl. unfold file_create. destruct (lookup_path _ _ _) as [q|] eqn:Hq; [|done].
  apply lookup_below in Hq as ->; [|done|done|by eapply link_free_snoc|done].
  rewrite node_at_below by (by intros []%app_eq_nil).
  destruct (t !! _) as [[]|]; simpl; eauto.
Qed.

Lemma symlink_below t d c target : root_ok t → Forall plain (d ++ [c]) → link_free t d →
  match symlink target (root ++ d ++ [c]) t with
  | (t', Ok _) => t' = <[root ++ d ++ [c] := NLink target]> t
  | (t', Err _) => t' = t
  end.
Proof using root_plain.
  intros Hr Hp Hl. unfold symlink. destruct (is_empty target); [done|].
  destruct (lookup_path _ _ _) as [q|] eqn:Hq; [|done].
  apply lookup_below in Hq as ->; [|done..].
  rewrite node_at_below by (by intros []%app_eq_nil). by destruct (t !! _).
Qed.

(** A change of mode at most. *)
Definition same_content (p : list string) (t t' : tree) : Prop :=
  t' = t ∨ ∃ n n', t !! p = Some n ∧ content_of n' = content_of n ∧ t' = <[p := n']> t.

Lemma chmod_below t d c mode : root_ok t → Forall plain (d ++ [c]) → link_free t (d ++ [c]) →
  same_content (root ++ d ++ [c]) t (chmod (root ++ d ++ [c]) mode t).1.
Proof using root_plain.
  intros Hr Hp Hl. unfold chmod. destruct (lookup_path _ _ _) as [q|] eqn:Hq; [|by left].
  apply lookup_below in Hq as ->; [|done|done|by eapply link_free_snoc|done].
  rewrite node_at_below by (by intros []%app_eq_nil). destruct (t !! _) as [[]|] eqn:Ht; cbn [fst]; unfold same_content.
  - right. eexists _, (NFile _ mode). by split; [|split].
  - assert (root ++ d ++ [c] ≠ []) as Hne by (by intros [_ []%app_eq_nil]%app_eq_nil).
    destruct (root ++ d ++ [c]) eqn:Heq; [done|]. right. eexists _, (NDir mode). by split; [|split].
  - by left.
  - by left.
Qed.

(** Nothing changed but below the root. *)
Definition below (t t' : tree) : Prop :=
  ∀ p, (∀ suffix, suffix ≠ [] → p ≠ root ++ suffix) → t' !! p = t !! p.
(** [c] was put at [rel], with the directories it needed. *)
Definition placed (rel : list string) (c : content) (t t' : tree) : Prop :=
  ∃ t1 n, dirs_added rel t t1 ∧ content_of n = c ∧ t' = <[root ++ rel := n]> t1.

Lemma below_refl t : below t t.
Proof using Type. by intros p. Qed.
Lemma below_trans t1 t2 t3 : below t1 t2 → below t2 t3 → below t1 t3.
Proof using Type. intros H1 H2 p Hp. by rewrite H2, H1. Qed.
Lemma below_dirs_added d t t' : dirs_added d t t' → below t t'.
Proof using Type.
  intros Ha p Hp. destruct (Ha p) as [|(_ & pre & m & Hne & _ & Heq & _)]; [done|].
  by destruct (Hp pre).
Qed.
Lemma below_insert rel n t t' : rel ≠ [] → below t t' → below t (<[root ++ rel := n]> t').
Proof using Type. intros Hne Hb p Hp. rewrite lookup_insert_ne; [by apply Hb|]. intros <-. by apply (Hp rel). Qed.
Lemma below_root_ok t t' : below t t' → root_ok t → root_ok t'.
Proof using Type.
  intros Hb Hr p s Heq Hne. rewrite Hb; [by apply (Hr p s)|].
  intros suffix Hs Hp. assert (length p = length root + length suffix) as Hlen
    by (rewrite Hp, length_app; done).
  assert (length root = length p + length s) by (rewrite Heq, length_app; done).
  destruct suffix; simpl in *; [done|lia].
Qed.
Lemma placed_below rel c t t' : rel ≠ [] → placed rel c t t' → below t t'.
Proof using Type.
  intros Hne (t1 & n & Ha & _ & ->). apply below_insert; [done|]. by eapply below_dirs_added.
Qed.
Lemma placed_same_content rel c t t' t'' :
  placed rel c t t' → same_content (root ++ rel) t' t'' → placed rel c t t''.
Proof using Type.
  intros (t1 & n & Ha & Hc & ->) [->|(n1 & n2 & Hn & Hc' & ->)]; [by eexists _, _|].
  rewrite lookup_insert_eq in Hn. injection Hn as <-. eexists t1, n2. split; [done|].
  split; [congruence|]. by rewrite insert_insert_eq.
Qed.
Lemma dirs_added_mono d d' t t' : d `prefix_of` d' → dirs_added d t t' → dirs_added d' t t'.
Proof using Type.
  intros Hd Ha. eapply dirs_added_trans; [exact Hd|exact Ha|apply dirs_added_refl].
Qed.
Lemma placed_link_free rel bytes d t t' : placed rel (CFile bytes) t t' ∨ placed rel CDir t t' →
  link_free t d → link_free t' d.
Proof using Type.
  intros Hp Hl pre target Hne Hpre.
  assert (∃ t1 n, dirs_added rel t t1 ∧ content_of n ≠ CLink target ∧ t' = <[root ++ rel := n]> t1)
    as (t1 & n & Ha & Hc & ->).
  { destruct Hp as [(t1 & n & Ha & Hc & ->)|(t1 & n & Ha & Hc & ->)]; eexists t1, n; by rewrite Hc. }
  destruct (decide (root ++ rel = root ++ pre)) as [->|Hn].
  - rewrite lookup_insert_eq. intros [= ->]. by apply Hc.
  - rewrite lookup_insert_ne by done. by apply (dirs_added_link_free rel d t t1 Ha Hl).
Qed.

(** ** One entry *)

Notation extraction_run := (extraction * result ExtractError ())%type.
(** What an entry that was accepted did, and what holds of one that was not. *)
Definition outcome (rel : list string) (c : content) (s : extraction) (r : extraction_run) : Prop :=
  below (tree_of s) (tree_of r.1) ∧ seen_types r.1 = seen_types s ∧
  (r.2 = Ok () → placed rel c (tree_of s) (tree_of r.1)).

Definition set_tree (s : extraction) (t : tree) : extraction :=
  mk_extraction t (budget s) (seen_types s) (created_file_mode s).

Lemma on_tree_bind {A B} p (m : fs A) (k : A → M extraction ExtractError B) s :
  (on_tree p m ≫= k) s =
    match m (tree_of s) with
    | (t, Ok a) => k a (set_tree s t)
    | (t, Err e) => (set_tree s t, Err (Write p e))
    end.
Proof using Type.
  unfold on_tree, mbind, M_bind. by destruct (m (tree_of s)) as [t [a|e]].
Qed.
Definition set_budget (s : extraction) (b : ExtractionBudget) : extraction :=
  mk_extraction (tree_of s) b (seen_types s) (created_file_mode s).
Lemma on_budget_bind {B} f (k : () → M extraction ExtractError B) s :
  (on_budget f ≫= k) s =
    match f (budget s) with Ok b => k () (set_budget s b) | Err e => (s, Err e) end.
Proof using Type. unfold on_budget, mbind, M_bind. by destruct (f (budget s)). Qed.
Lemma learn_default_mode_ok q s : ∃ m o,
  learn_default_mode q s = (mk_extraction (tree_of s) (budget s) (seen_types s) o, Ok m).
Proof using Type.
  unfold learn_default_mode. destruct (created_file_mode s) as [m|] eqn:Hm; [|by eexists _, _].
  exists m, (Some m). destruct s; simpl in *. by subst.
Qed.
Lemma on_tree_run {A} p (m : fs A) s :
  on_tree p m s = (set_tree s (m (tree_of s)).1, map_err (Write p) (m (tree_of s)).2).
Proof using Type. unfold on_tree. by destruct (m (tree_of s)). Qed.

Lemma extract_directory_outcome s rel : rel ≠ [] → root_ok (tree_of s) → Forall plain rel →
  link_free (tree_of s) rel → outcome rel CDir s (extract_directory umask root rel s).
Proof using root_plain.
  intros Hne Hr Hp Hl. unfold extract_directory, outcome. rewrite on_tree_bind.
  pose proof (create_dir_all_below (tree_of s) rel Hr Hp Hl) as [Ha Hd].
  destruct (create_dir_all umask (root ++ rel) (tree_of s)) as [t1 [[]|e]]; cbn [fst snd] in *.
  2: { split; [by eapply below_dirs_added|]. by split. }
  rewrite on_tree_run. cbn [fst snd tree_of set_tree seen_types].
  assert (placed rel CDir (tree_of s) t1) as Hpl.
  { specialize (Hd eq_refl Hne). destruct (t1 !! (root ++ rel)) as [[]|] eqn:Ht; try done.
    eexists t1, _. split; [done|]. split; [|by rewrite insert_id]. done. }
  assert (placed rel CDir (tree_of s) (ignore_error (apply_mode (root ++ rel) 493) t1).1) as Hpl'.
  { eapply placed_same_content; [done|]. unfold ignore_error, apply_mode. cbn [fst].
    destruct (snoc_case rel) as [->|(d & c & ->)]; [done|].
    apply chmod_below; [by eapply dirs_added_root_ok|done|by eapply dirs_added_link_free]. }
  split; [by eapply placed_below|]. done.
Qed.

Lemma extract_symlink_outcome s raw rel en target : rel ≠ [] → root_ok (tree_of s) →
  Forall plain rel → link_free (tree_of s) (parent_of rel) →
  (∀ tg, en_link en = Ok (Some tg) → tg = target) →
  outcome rel (CLink target) s (extract_symlink umask root raw rel en s).
Proof using root_plain.
  intros Hne Hr Hp Hl Ht. destruct (snoc_case rel) as [->|(d & c & ->)]; [done|].
  rewrite parent_of_snoc in Hl. unfold extract_symlink, outcome. rewrite lift_bind.
  destruct (en_link en) as [[tg|]|e]; cbn [map_err]; [rewrite lift_bind; cbn [ok_or]|done..].
  rewrite (Ht tg eq_refl) in *. clear Ht tg.
  destruct (symlink_within_root (d ++ [c]) target); cbn [negb]; [|done].
  rewrite on_tree_bind, (assoc_L (++)), parent_of_snoc.
  apply Forall_app in Hp as Hpd. destruct Hpd as [Hpd _].
  pose proof (create_dir_all_below (tree_of s) d Hr Hpd Hl) as [Ha _].
  destruct (create_dir_all umask (root ++ d) (tree_of s)) as [t1 [[]|e]]; cbn [fst snd] in *.
  2: { split; [by eapply below_dirs_added|]. by split. }
  rewrite on_tree_run, <- (assoc_L (++)). cbn [fst snd tree_of set_tree seen_types].
  pose proof (symlink_below t1 d c target (dirs_added_root_ok _ _ _ Ha Hr) Hp
    (dirs_added_link_free _ _ _ _ Ha Hl)) as Hs.
  destruct (symlink target (root ++ d ++ [c]) t1) as [t2 [[]|e]]; cbn [fst snd map_err]; subst t2.
  - split; [apply below_insert; [done|by eapply below_dirs_added]|]. split; [done|]. intros _.
    exists t1, (NLink target). split; [eapply dirs_added_mono; [by apply prefix_app_r|done]|done].
  - split; [by eapply below_dirs_added|]. done.
Qed.

Lemma write_open_created t q bytes mode :
  write_open q bytes (<[q := NFile "" mode]> t) = (<[q := NFile bytes mode]> t, Ok ()).
Proof using Type.
  unfold write_open, modify. by rewrite lookup_insert_eq, app_nil_l_s, insert_insert_eq.
Qed.

Lemma extract_regular_outcome s rel en : rel ≠ [] → root_ok (tree_of s) →
  Forall plain rel → link_free (tree_of s) rel →
  outcome rel (CFile (en_data en)) s (extract_regular umask root rel en s).
Proof using root_plain.
  intros Hne Hr Hp Hl. destruct (snoc_case rel) as [->|(d & c & ->)]; [done|].
  unfold extract_regular, outcome. rewrite on_budget_bind.
  destruct (reserve_file _ _ _) as [b|e]; [|done]. rewrite on_tree_bind, (assoc_L (++)), parent_of_snoc.
  apply Forall_app in Hp as Hpd. destruct Hpd as [Hpd _].
  apply link_free_snoc in Hl as Hld. cbn [tree_of set_budget].
  pose proof (create_dir_all_below (tree_of s) d Hr Hpd Hld) as [Ha _].
  destruct (create_dir_all umask (root ++ d) (tree_of s)) as [t1 [[]|e]]; cbn [fst snd] in *.
  2: { split; [by eapply below_dirs_added|]. by split. }
  rewrite on_tree_bind, <- (assoc_L (++)). cbn [tree_of set_tree].
  pose proof (dirs_added_root_ok _ _ _ Ha Hr) as Hr1.
  pose proof (dirs_added_link_free _ _ _ _ Ha Hl) as Hl1.
  pose proof (file_create_below t1 d c Hr1 Hp Hl1) as Hf.
  destruct (file_create umask (root ++ d ++ [c]) t1) as [t2 [q|e]].
  2: { subst t2. split; [by eapply below_dirs_added|]. done. }
  destruct Hf as (-> & mode & ->).
  set (t3 := <[root ++ d ++ [c] := NFile (en_data en) mode]> t1).
  assert (placed (d ++ [c]) (CFile (en_data en)) (tree_of s) t3) as Hpl.
  { exists t1, (NFile (en_data en) mode). split; [|done].
    eapply dirs_added_mono; [by apply prefix_app_r|done]. }
  rewrite on_tree_bind. cbn [tree_of set_tree].
  rewrite write_open_created. fold t3.
  pose proof (placed_below _ _ _ _ Hne Hpl) as Hb.
  destruct (en_read_error en); [done|]. rewrite mret_bind.
  destruct (learn_default_mode_ok (root ++ d ++ [c]) (set_tree (set_tree (set_tree (set_budget s b) t1)
    (<[root ++ d ++ [c] := NFile "" mode]> t1)) t3)) as (m & o & Hm).
  rewrite (bind_run _ _ _ _ _ Hm). case_bool_decide as Hmode.
  { split; [exact Hb|]. split; [reflexivity|]. intros _. exact Hpl. }
  rewrite on_tree_run. cbn [fst snd tree_of set_tree seen_types set_budget].
  assert (placed (d ++ [c]) (CFile (en_data en)) (tree_of s)
    (apply_mode (root ++ d ++ [c]) (normalized_mode (default 420%N (en_mode en))) t3).1) as Hpl'.
  { eapply placed_same_content; [done|]. unfold apply_mode.
    apply chmod_below; [by eapply below_root_ok|done|].
    eapply placed_link_free; [by left|done]. }
  split; [by eapply placed_below|]. done.
Qed.
End below.

(** ** Clean paths *)

Lemma components_plain path name : Normal name ∈ components path → plain name.
Proof.
  unfold components. rewrite elem_of_app. intros [H|H].
  - destruct (starts_with_char _ _); [by apply list_elem_of_singleton in H|].
    destruct (split_char "/" path) as [|c ?]; [by apply not_elem_of_nil in H|].
    repeat (case_match; try by apply not_elem_of_nil in H). by apply list_elem_of_singleton in H.
  - apply list_elem_of_bind in H as (seg & Hn & _). unfold body_component in Hn.
    repeat case_bool_decide; simpl in Hn; try by apply not_elem_of_nil in Hn.
    + by apply list_elem_of_singleton in Hn.
    + apply list_elem_of_singleton in Hn as [= ->]. unfold plain. tauto.
Qed.

Lemma strip_package_prefix_subset p prefix c : c ∈ strip_package_prefix p prefix → c ∈ p.
Proof.
  unfold strip_package_prefix. destruct p as [|[]]; try done. case_match; [|done]. by right.
Qed.

Lemma validate_returned_relative_Ok p rel name :
  validate_returned_relative p = Ok rel → name ∈ rel → Normal name ∈ p.
Proof.
  revert rel. induction p as [|[] p IH]; intros rel; simpl; try done.
  - intros [= <-] H. by apply not_elem_of_nil in H.
  - intros H Hin. right. by eapply IH.
  - intros (rest & Hr & [= <-])%bind_Ok [->|Hin]%elem_of_cons; [by left|]. right. by eapply IH.
Qed.

Lemma entry_path_plain prefix en raw rel : entry_path prefix en = Ok (raw, rel) → Forall plain rel.
Proof.
  unfold entry_path. intros (raw' & _ & (rel' & Hrel & [= -> ->])%bind_Ok)%bind_Ok.
  apply map_err_Ok in Hrel. apply Forall_forall. intros name Hn.
  eapply components_plain, strip_package_prefix_subset. by eapply validate_returned_relative_Ok.
Qed.

(** ** A whole archive *)

Section archive.
Variable umask : N.
Variable root : list string.
Variable prefix : option string.
Variable es : list (result string entry).
Variable t0 : tree.
Hypothesis root_plain : Forall plain root.
Hypothesis t0_root : root_ok root t0.
Hypothesis links_last : no_entry_below_link prefix es.

(** The tree below the root is the image and the directories it needs. *)
Definition shaped (t : tree) (im : image) : Prop :=
  ∀ suffix, suffix ≠ [] →
    match t !! (root ++ suffix) with
    | Some n => im !! suffix = Some (content_of n) ∨
                (im !! suffix = None ∧ content_of n = CDir ∧
                 ∃ key, is_Some (im !! key) ∧ suffix `prefix_of` key)
    | None => im !! suffix = None
    end.
Definition seen_ok (seen : gmap (list string) EntryType) (im : image) : Prop :=
  ∀ rel, match seen !! rel with
         | None => im !! rel = None
         | Some ty => is_regular_type ty = true → ∃ bytes, im !! rel = Some (CFile bytes)
         end.

Record inv (s : extraction) (im : image) : Prop := mk_inv {
  inv_below : below root t0 (tree_of s);
  inv_shaped : shaped (tree_of s) im;
  inv_seen : seen_ok (seen_types s) im;
  inv_links : ∀ rel target, im !! rel = Some (CLink target) → rel ∈ link_paths prefix es }.

Lemma shaped_step t t' im rel c : rel ≠ [] → shaped t im → placed root rel c t t' →
  shaped t' (<[rel := c]> im).
Proof using Type.
  intros Hne Hs (t1 & n & Ha & <- & ->) suffix Hsuf.
  destruct (decide (suffix = rel)) as [->|Hn].
  { rewrite lookup_insert_eq. left. by rewrite lookup_insert_eq. }
  rewrite lookup_insert_ne by (by intros ->%(inj (app root))). rewrite lookup_insert_ne by done.
  specialize (Hs suffix Hsuf). destruct (Ha (root ++ suffix)) as [->|(Ht & pre & m & _ & Hpre & Heq & ->)].
  - destruct (t !! _); [|done]. destruct Hs as [|(H1 & H2 & key & Hkey & Hp)]; [by left|].
    right. split; [done|]. split; [done|]. exists key. split; [|done].
    destruct (decide (rel = key)) as [->|]; [by rewrite lookup_insert_eq|by rewrite lookup_insert_ne].
  - apply (inj (app root)) in Heq as ->. rewrite Ht in Hs. right. split; [done|]. split; [done|].
    exists rel. by rewrite lookup_insert_eq.
Qed.

Lemma seen_ok_step seen im rel ty c : seen_ok seen im →
  (is_regular_type ty = true → ∃ bytes, c = CFile bytes) →
  seen_ok (<[rel := ty]> seen) (<[rel := c]> im).
Proof using Type.
  intros Hs Hc rel'. destruct (decide (rel = rel')) as [<-|Hne].
  - rewrite !lookup_insert_eq. intros [bytes ->]%Hc. by exists bytes.
  - rewrite !lookup_insert_ne by done. apply Hs.
Qed.

Lemma no_link_above s im rel pre : inv s im → rel ∈ entry_paths prefix es → pre ≠ [] →
  pre `prefix_of` rel → (∃ target, tree_of s !! (root ++ pre) = Some (NLink target)) →
  pre = rel ∧ ∃ target, im !! rel = Some (CLink target).
Proof using links_last.
  intros [_ Hs _ Hl] Hrel Hne Hpre [target Ht]. specialize (Hs pre Hne). rewrite Ht in Hs.
  destruct Hs as [Hs|(_ & [=] & _)]. simpl in Hs. specialize (Hl _ _ Hs).
  unfold no_entry_below_link in links_last. rewrite Forall_forall in links_last.
  specialize (links_last _ Hl). rewrite Forall_forall in links_last.
  specialize (links_last _ Hrel). destruct (decide (pre = rel)) as [->|]; [|tauto].
  split; [done|]. by exists target.
Qed.

Lemma seen_link_free s im rel typ s' : inv s im → rel ∈ entry_paths prefix es →
  note_seen rel typ s = (s', Ok ()) →
  s' = mk_extraction (tree_of s) (budget s) (<[rel := typ]> (seen_types s)) (created_file_mode s) ∧
  link_free root (tree_of s) rel.
Proof using links_last.
  intros Hi Hrel. unfold note_seen. intros Hn. split.
  { repeat case_match; by simplify_eq. }
  intros pre target Hne Hpre Ht.
  destruct (no_link_above s im rel pre Hi Hrel Hne Hpre) as [-> [tg Him]]; [by exists target|].
  pose proof (inv_seen _ _ Hi rel) as Hs. destruct (seen_types s !! rel) as [p|]; [|congruence].
  destruct (is_regular_type typ); simpl in Hn; [|done].
  destruct (is_regular_type p); simpl in Hn; [|done]. destruct (Hs eq_refl). congruence.
Qed.

Lemma entry_paths_elem r en raw rel : r ∈ es → r = Ok en → entry_path prefix en = Ok (raw, rel) →
  rel ∈ entry_paths prefix es.
Proof using Type.
  intros Hr -> He. unfold entry_paths. apply list_elem_of_bind. exists (Ok en). rewrite He.
  split; [by apply list_elem_of_singleton|done].
Qed.
Lemma link_paths_elem r en raw rel : r ∈ es → r = Ok en → entry_path prefix en = Ok (raw, rel) →
  en_type en = Symlink → rel ∈ link_paths prefix es.
Proof using Type.
  intros Hr -> He Ht. unfold link_paths. apply list_elem_of_bind. exists (Ok en). rewrite He, Ht.
  split; [by apply list_elem_of_singleton|done].
Qed.

(** One entry keeps what lies outside, and the invariant when it is accepted. *)
Definition entry_ok (im : image) (r : extraction * result ExtractError ()) : Prop :=
  below root t0 (tree_of r.1) ∧ (r.2 = Ok () → inv r.1 im).

Lemma inv_step s im rel ty c r : rel ≠ [] → inv s im →
  (is_regular_type ty = true → ∃ bytes, c = CFile bytes) →
  (∀ target, c = CLink target → rel ∈ link_paths prefix es) →
  outcome root rel c (mk_extraction (tree_of s) (budget s) (<[rel := ty]> (seen_types s))
    (created_file_mode s)) r →
  entry_ok (<[rel := c]> im) r.
Proof using Type.
  intros Hne [Hb Hs Hse Hl] Hty Hlk (Hb' & Hse' & Hok). cbn [tree_of seen_types] in *. split.
  { by eapply below_trans. }
  intros Hr. split.
  - by eapply below_trans.
  - by eapply shaped_step; [| |apply Hok].
  - rewrite Hse'. by apply seen_ok_step.
  - intros rel' target. destruct (decide (rel = rel')) as [<-|]; [|rewrite lookup_insert_ne by done; apply Hl].
    rewrite lookup_insert_eq. intros [= ->]. by eapply Hlk.
Qed.

Lemma entry_ok_same s im s' r : inv s im → tree_of s' = tree_of s → seen_types s' = seen_types s →
  entry_ok im (s', r).
Proof using Type. intros [Hb Hs Hse Hl] Ht Hsn. split; cbn [fst]; [by rewrite Ht|]. intros _. split; cbn [fst]; by rewrite ?Ht, ?Hsn. Qed.

Lemma entry_failed s im im' s' e : inv s im → tree_of s' = tree_of s → entry_ok im' (s', Err e).
Proof using Type. intros [Hb _ _ _] Ht. split; cbn [fst snd]; [by rewrite Ht|done]. Qed.

Lemma note_seen_tree rel typ s : tree_of (note_seen rel typ s).1 = tree_of s.
Proof using Type. unfold note_seen. by repeat case_match. Qed.

Lemma extract_entry_ok s im r : inv s im → r ∈ es →
  entry_ok (image_step prefix im r) (extract_entry umask root prefix r s).
Proof using root_plain t0_root links_last.
  intros Hi Hr. unfold extract_entry, image_step. rewrite lift_bind.
  destruct r as [en|e]; cbn [map_err]; [|by eapply entry_failed]. rewrite lift_bind.
  destruct (entry_path prefix en) as [[raw rel]|e] eqn:He; [|by eapply entry_failed].
  case_bool_decide as Hne; [by eapply entry_ok_same|]. rewrite on_budget_bind.
  destruct (observe_entry _ _) as [b|e]; [|by eapply entry_failed].
  assert (inv (set_budget s b) im) as Hi' by (by destruct Hi).
  pose proof (entry_paths_elem _ _ _ _ Hr eq_refl He) as Hrel.
  apply entry_path_plain in He as Hp.
  destruct (is_header_only (en_type en)) eqn:Hh.
  { eapply entry_ok_same; [|done..]. by destruct (en_type en). }
  destruct (note_seen rel (en_type en) (set_budget s b)) as [s1 [[]|e]] eqn:Hn.
  2: { unfold mbind, M_bind. rewrite Hn. eapply (entry_failed s); [done|].
       pose proof (note_seen_tree rel (en_type en) (set_budget s b)) as Ht. by rewrite Hn in Ht. }
  rewrite (bind_run _ _ _ _ _ Hn). destruct (seen_link_free _ _ _ _ _ Hi' Hrel Hn) as [-> Hlf].
  cbn [tree_of set_budget budget seen_types created_file_mode] in *.
  assert (root_ok root (tree_of s)) as Hrok by (by eapply below_root_ok; [apply Hi|]).
  destruct (en_type en) eqn:Hty; try (by eapply (entry_failed s)); try done.
  - eapply (inv_step (set_budget s b)); [done|done|by eexists|done|]. by apply extract_regular_outcome.
  - eapply (inv_step (set_budget s b)); [done|done|by eexists|done|]. by apply extract_regular_outcome.
  - destruct (en_link en) as [[target|]|e] eqn:Hlk;
      [|unfold extract_symlink; rewrite ?lift_bind, Hlk; cbn [map_err]; rewrite ?lift_bind;
        by eapply (entry_failed s)..].
    eapply (inv_step (set_budget s b) _ _ Symlink); [done|done|done| |].
    + intros _ _. by eapply link_paths_elem.
    + apply extract_symlink_outcome; [done|done|done|done| |by rewrite Hlk; intros ? [= ->]].
      destruct (snoc_case rel) as [->|(d & c & ->)]; [done|]. rewrite parent_of_snoc.
      by eapply link_free_snoc.
  - eapply (inv_step (set_budget s b) _ _ Directory); [done|done|done|done|]. by apply extract_directory_outcome.
Qed.

Lemma extract_entries_ok l s im : (∀ r, r ∈ l → r ∈ es) → inv s im →
  entry_ok (foldl (image_step prefix) im l) (each_m (extract_entry umask root prefix) l s).
Proof using root_plain t0_root links_last.
  revert s im. induction l as [|r l IH]; intros s im Hl Hi; simpl.
  { split; [by destruct Hi|done]. }
  pose proof (extract_entry_ok s im r Hi (Hl r ltac:(by left))) as [Hb Hok].
  unfold mbind, M_bind. destruct (extract_entry umask root prefix r s) as [s1 [[]|e]]; cbn [fst snd] in *.
  - apply IH; [|by apply Hok]. intros r' Hr'. apply Hl. by right.
  - by split.
Qed.
End archive.

(** ** What an accepted archive satisfies *)

(** The entries that are charged to the budget, with their clean paths. *)
Definition charged (prefix : option string) (es : list (result string entry)) : list (list string * entry) :=
  es ≫= λ r, match r with
             | Ok en => match entry_path prefix en with
                        | Ok (_, rel) => if bool_decide (rel = []) then [] else [(rel, en)]
                        | Err _ => []
                        end
             | Err _ => []
             end.
Definition declared_size (en : entry) : N :=
  if is_regular_type (en_type en) then default 0%N (en_size en) else 0%N.
Definition sum_sizes (l : list (list string * entry)) : N :=
  foldr (λ x n, declared_size x.2 + n)%N 0%N l.

(** What the checks of one entry ask. *)
Definition acceptable (prefix : option string) (max_file : N) (r : result string entry) : Prop :=
  ∃ en raw rel, r = Ok en ∧ entry_path prefix en = Ok (raw, rel) ∧
    (rel = [] ∨ is_header_only (en_type en) = true ∨
     (is_regular_type (en_type en) = true ∧ (default 0 (en_size en) <= max_file)%N ∧ en_read_error en = false) ∨
     en_type en = Directory ∨
     (en_type en = Symlink ∧ ∃ target, en_link en = Ok (Some target) ∧ symlink_within_root rel target = true)).

Lemma on_tree_Ok {A} p (m : fs A) s s' a : on_tree p m s = (s', Ok a) →
  budget s' = budget s ∧ seen_types s' = seen_types s.
Proof. rewrite on_tree_run. by intros [= <- _]. Qed.
Lemma on_budget_Ok f s s' u : on_budget f s = (s', Ok u) →
  ∃ b, f (budget s) = Ok b ∧ s' = set_budget s b.
Proof. unfold on_budget. destruct (f (budget s)) as [b|e]; [|done]. intros [= <- _]. by exists b. Qed.
Lemma observe_entry_Ok rel b b' : observe_entry rel b = Ok b' →
  b' = mk_ExtractionBudget (limits b) (entries_seen b + 1) (total_bytes b) ∧
  (entries_seen b + 1 <= max_entries (limits b))%N.
Proof.
  unfold observe_entry. intros (n & [-> _]%ok_or_Ok%checked_add_Some & Hf)%bind_Ok.
  destruct (N.ltb_spec (max_entries (limits b)) (entries_seen b + 1)); [done|]. by injection Hf as <-.
Qed.
Lemma reserve_file_Ok declared rel b b' : reserve_file declared rel b = Ok b' →
  b' = mk_ExtractionBudget (limits b) (entries_seen b) (total_bytes b + declared) ∧
  (declared <= max_file_bytes (limits b))%N ∧ (total_bytes b + declared <= max_total_bytes (limits b))%N.
Proof.
  unfold reserve_file. destruct (N.ltb_spec (max_file_bytes (limits b)) declared); [done|].
  intros (n & [-> _]%ok_or_Ok%checked_add_Some & Hf)%bind_Ok.
  destruct (N.ltb_spec (max_total_bytes (limits b)) (total_bytes b + declared)); [done|].
  by injection Hf as <-.
Qed.

Section accepted.
Variable umask : N.
Variable root : list string.
Variable prefix : option string.

Lemma extract_regular_Ok rel en s s' : extract_regular umask root rel en s = (s', Ok ()) →
  reserve_file (default 0%N (en_size en)) rel (budget s) = Ok (budget s') ∧
  seen_types s' = seen_types s ∧ en_read_error en = false.
Proof using Type.
  unfold extract_regular.
  intros (s1 & [] & (b & Hb & ->)%on_budget_Ok & (s2 & [] & [Hb2 Hs2]%on_tree_Ok &
    (s3 & q & [Hb3 Hs3]%on_tree_Ok & (s4 & [] & [Hb4 Hs4]%on_tree_Ok &
    (s5 & [] & H5 & (s6 & m & H6 & H7)%bind_Ok_inv)%bind_Ok_inv)%bind_Ok_inv)%bind_Ok_inv)%bind_Ok_inv)%bind_Ok_inv.
  rewrite Hb. cbn [budget seen_types set_budget] in *.
  destruct (en_read_error en); [done|]. injection H5 as <-.
  destruct (learn_default_mode_ok q s4) as (m' & o & Hm). rewrite Hm in H6. injection H6 as <- <-.
  assert (budget s' = budget s4 ∧ seen_types s' = seen_types s4) as [-> ->].
  { case_bool_decide; [by injection H7 as <-|]. apply on_tree_Ok in H7. exact H7. }
  split; [congruence|]. split; [congruence|done].
Qed.

Lemma extract_entry_accepts r s s' : extract_entry umask root prefix r s = (s', Ok ()) →
  limits (budget s') = limits (budget s) ∧
  acceptable prefix (max_file_bytes (limits (budget s))) r ∧
  entries_seen (budget s') = (entries_seen (budget s) + N.of_nat (length (charged prefix [r])))%N ∧
  total_bytes (budget s') = (total_bytes (budget s) + sum_sizes (charged prefix [r]))%N ∧
  (charged prefix [r] ≠ [] → (entries_seen (budget s') <= max_entries (limits (budget s)))%N) ∧
  (sum_sizes (charged prefix [r]) ≠ 0%N → (total_bytes (budget s') <= max_total_bytes (limits (budget s)))%N).
Proof using Type.
  unfold extract_entry.
  intros (s1 & en & [Hr ->]%lift_Ok & (s2 & [raw rel] & [He ->]%lift_Ok & H)%bind_Ok_inv)%bind_Ok_inv.
  apply map_err_Ok in Hr as ->. unfold charged. simpl. rewrite He. simpl. unfold acceptable.
  case_bool_decide as Hrel.
  { injection H as <-. simpl. rewrite !N.add_0_r. split; [done|]. split; [|done].
    eexists en, raw, rel. split; [done|]. split; [done|]. by left. }
  apply bind_Ok_inv in H as (s1 & [] & (b & [-> Hmax]%observe_entry_Ok & ->)%on_budget_Ok & H).
  unfold sum_sizes, declared_size. cbn [app length foldr snd].
  destruct (is_header_only (en_type en)) eqn:Hh.
  { injection H as <-. cbn [budget set_budget limits entries_seen total_bytes].
    replace (is_regular_type (en_type en)) with false by (by destruct (en_type en)).
    split; [done|]. split; [|split; [lia|split; [lia|split; [done|done]]]].
    eexists en, raw, rel. split; [done|]. split; [done|]. right. by left. }
  apply bind_Ok_inv in H as (s1 & [] & Hn & H).
  assert (budget s1 = mk_ExtractionBudget (limits (budget s)) (entries_seen (budget s) + 1)
    (total_bytes (budget s))) as Hb1 by (unfold note_seen in Hn; by repeat case_match; simplify_eq).
  assert (∀ P : Prop, P → en_type en = Regular ∨ en_type en = Continuous → P) as _ by done.
  destruct (is_regular_type (en_type en)) eqn:Hreg.
  { assert (extract_regular umask root rel en s1 = (s', Ok ())) as (Hres & _ & Hre)%extract_regular_Ok
      by (by destruct (en_type en)).
    rewrite Hb1 in Hres. apply reserve_file_Ok in Hres as (-> & Hf & Ht).
    cbn [limits entries_seen total_bytes] in *. split; [done|].
    split; [|split; [lia|split; [lia|split; [done|lia]]]].
    eexists en, raw, rel. split; [done|]. split; [done|]. right; right; left. done. }
  assert (budget s' = budget s1 ∧ (en_type en = Directory ∨ (en_type en = Symlink ∧
    ∃ target, en_link en = Ok (Some target) ∧ symlink_within_root rel target = true))) as [-> Hacc].
  { destruct (en_type en); try done.
    - unfold extract_symlink in H. apply bind_Ok_inv in H as (s2 & lk & [Hlk ->]%lift_Ok & H).
      apply bind_Ok_inv in H as (s2 & target & [Htg ->]%lift_Ok & H).
      apply map_err_Ok in Hlk. apply ok_or_Ok in Htg as ->.
      destruct (symlink_within_root rel target) eqn:Hw; cbn [negb] in H; [|done].
      apply bind_Ok_inv in H as (s2 & [] & [Hb2 _]%on_tree_Ok & [Hb3 _]%on_tree_Ok).
      split; [congruence|]. right. eauto.
    - unfold extract_directory in H.
      apply bind_Ok_inv in H as (s2 & [] & [Hb2 _]%on_tree_Ok & [Hb3 _]%on_tree_Ok).
      split; [congruence|]. by left. }
  rewrite Hb1. cbn [limits entries_seen total_bytes]. split; [done|].
  split; [|split; [lia|split; [lia|split; [done|done]]]].
  eexists en, raw, rel. split; [done|]. split; [done|]. right; right; right. exact Hacc.
Qed.

Definition io_error (e : ExtractError) : Prop :=
  match e with Write _ _ | CopyFailed _ => True | _ => False end.
Lemma on_tree_Err {A} p (m : fs A) s s' e : on_tree p m s = (s', Err e) → io_error e.
Proof using Type. rewrite on_tree_run. destruct (m (tree_of s)).2; [done|]. by intros [= _ <-]. Qed.

Lemma extract_regular_Err rel en s s' e : extract_regular umask root rel en s = (s', Err e) →
  tree_of s' = tree_of s ∨ io_error e.
Proof using Type.
  unfold extract_regular. intros [H|(s1 & [] & _ & H)]%bind_Err_inv.
  { left. unfold on_budget in H. destruct (reserve_file _ _ _); [done|]. by injection H as <-. }
  right. apply bind_Err_inv in H as [H|(s2 & [] & _ & H)]; [by eapply on_tree_Err|].
  apply bind_Err_inv in H as [H|(s3 & q & _ & H)]; [by eapply on_tree_Err|].
  apply bind_Err_inv in H as [H|(s4 & [] & _ & H)]; [by eapply on_tree_Err|].
  apply bind_Err_inv in H as [H|(s5 & [] & _ & H)].
  { destruct (en_read_error en); [by injection H as _ <-|done]. }
  destruct (learn_default_mode_ok q s5) as (m & o & Hm).
  rewrite (bind_run _ _ _ _ _ Hm) in H. case_bool_decide; [done|by eapply on_tree_Err].
Qed.

Lemma extract_entry_rejects r s s' e : extract_entry umask root prefix r s = (s', Err e) →
  tree_of s' = tree_of s ∨ io_error e.
Proof using Type.
  unfold extract_entry. rewrite lift_bind. destruct (map_err _ r) as [en|]; [|intros [= <- _]; by left].
  rewrite lift_bind. destruct (entry_path prefix en) as [[raw rel]|]; [|intros [= <- _]; by left].
  case_bool_decide; [done|]. intros [H'|(s1 & [] & (b & _ & ->)%on_budget_Ok & H')]%bind_Err_inv.
  { left. unfold on_budget in H'. destruct (observe_entry _ _); [done|]. by injection H' as <-. }
  destruct (is_header_only (en_type en)); [done|].
  assert (tree_of (note_seen rel (en_type en) (set_budget s b)).1 = tree_of s) as Ht
    by (unfold note_seen; by repeat case_match).
  apply bind_Err_inv in H' as [H'|(s2 & [] & Hn & H')]; [rewrite H' in Ht; by left|].
  rewrite Hn in Ht. cbn [fst] in Ht. rewrite <- Ht.
  destruct (en_type en); try (by injection H' as <- _; left); try (by eapply extract_regular_Err).
  - unfold extract_symlink in H'. rewrite lift_bind in H'.
    destruct (map_err _ (en_link en)) as [lk|]; [|injection H' as <- _; by left].
    rewrite lift_bind in H'. destruct (ok_or _ lk) as [tg|]; [|injection H' as <- _; by left].
    destruct (symlink_within_root rel tg); cbn [negb] in H'; [|injection H' as <- _; by left].
    right. apply bind_Err_inv in H' as [H'|(s3 & [] & _ & H')]; by eapply on_tree_Err.
  - right. unfold extract_directory in H'.
    apply bind_Err_inv in H' as [H'|(s3 & [] & _ & H')]; by eapply on_tree_Err.
Qed.

Lemma charged_cons r es : charged prefix (r :: es) = charged prefix [r] ++ charged prefix es.
Proof using Type. unfold charged. simpl. by rewrite app_nil_r. Qed.
Lemma sum_sizes_app l1 l2 : sum_sizes (l1 ++ l2) = (sum_sizes l1 + sum_sizes l2)%N.
Proof using Type. induction l1 as [|x l1 IH]; simpl; [done|]. rewrite IH. lia. Qed.

Lemma extract_entries_accept es s s' :
  each_m (extract_entry umask root prefix) es s = (s', Ok ()) →
  (entries_seen (budget s) <= max_entries (limits (budget s)))%N →
  (total_bytes (budget s) <= max_total_bytes (limits (budget s)))%N →
  Forall (acceptable prefix (max_file_bytes (limits (budget s)))) es ∧
  (entries_seen (budget s) + N.of_nat (length (charged prefix es)) <= max_entries (limits (budget s)))%N ∧
  (total_bytes (budget s) + sum_sizes (charged prefix es) <= max_total_bytes (limits (budget s)))%N.
Proof using Type.
  revert s. induction es as [|r es IH]; intros s; cbn [each_m].
  { intros _ H1 H2. split; [done|]. unfold charged; simpl. lia. }
  intros (s1 & [] & (Hl & Ha & He & Ht & Hme & Hmt)%extract_entry_accepts & H)%bind_Ok_inv H1 H2.
  apply IH in H.
  - rewrite Hl in H. destruct H as (Hf & H3 & H4). split; [by constructor|].
    rewrite charged_cons, length_app, sum_sizes_app. lia.
  - rewrite Hl. destruct (charged prefix [r]) eqn:Hc; [simpl in He; lia|by apply Hme].
  - rewrite Hl. destruct (decide (sum_sizes (charged prefix [r]) = 0%N)); [lia|by apply Hmt].
Qed.
End accepted.

(** The image root before extraction: its directories exist and it is empty. *)
Definition fresh_root (root : list string) (t : tree) : Prop :=
  Forall plain root ∧ root_ok root t ∧ ∀ suffix, suffix ≠ [] → t !! (root ++ suffix) = None.

Section theorems.
Variable umask : N.
Variable root : list string.

(** C23. Extraction changes nothing outside the image root, whatever its
    result, and when it succeeds the tree below the root is exactly the image
    of the archive (the last of the regular entries of a path, the links, the
    directories) with the directories this needs, for every archive in which no
    entry lies below a link entry. *)
Theorem extract_refines_image a l t es prefix :
  fresh_root root t → a = Entries es → detect_archive_root_prefix a = Ok prefix →
  no_entry_below_link prefix es →
  let r := extract_with_limits umask root a l t in
  (∀ p, (∀ suffix, suffix ≠ [] → p ≠ root ++ suffix) → tree_of r.1 !! p = t !! p) ∧
  (r.2 = Ok () → ∀ suffix, suffix ≠ [] →
     match tree_of r.1 !! (root ++ suffix), image_of prefix es !! suffix with
     | Some n, Some c => content_of n = c
     | Some n, None => content_of n = CDir ∧
                       ∃ key, is_Some (image_of prefix es !! key) ∧ suffix `prefix_of` key
     | None, Some _ => False
     | None, None => True
     end).
Proof using Type.
  intros (Hp & Hr & Hf) -> Hd Hl. unfold extract_with_limits. rewrite Hd.
  set (s0 := mk_extraction t _ ∅ None).
  destruct (extract_entries_ok umask root prefix es t Hp Hr Hl es s0 ∅ ltac:(done)) as [Hb Hok].
  { split; cbn; [done| | |done].
    - intros suffix Hne. by rewrite Hf.
    - intros rel. by rewrite lookup_empty. }
  rewrite !lift_bind. cbn [open_archive]. split; [exact Hb|].
  intros [_ Hs _ _]%Hok suffix Hne. specialize (Hs suffix Hne). unfold image_of.
  destruct (_ !! (root ++ suffix)) as [n|].
  - destruct Hs as [->|(-> & -> & Hk)]; done.
  - by rewrite Hs.
Qed.


(** C25. Whatever refuses an entry other than the file system itself refuses it
    before anything of it is written. *)
Theorem extract_rejects_before_writing prefix r s s' e :
  extract_entry umask root prefix r s = (s', Err e) →
  match e with
  | Write _ _ | CopyFailed _ => True
  | _ => tree_of s' = tree_of s
  end.
Proof using Type.
  intros H. destruct (extract_entry_rejects umask root prefix r s s' e H) as [->|Hio]; [by destruct e|].
  by destruct e.
Qed.
End theorems.

(** ** Runs *)

Module ArchiveRuns.

Definition file_entry (path data : string) (mode : N) : result string entry :=
  Ok (mk_entry (Ok path) Regular (Some (N.of_nat (strlen data))) (Some mode) (Ok None) data false).
Definition link_entry (path target : string) : result string entry :=
  Ok (mk_entry (Ok path) Symlink (Some 0%N) (Some 511%N) (Ok (Some target)) "" false).
Definition dir_entry (path : string) : result string entry :=
  Ok (mk_entry (Ok path) Directory (Some 0%N) (Some 438%N) (Ok None) "" false).

Definition image_dir : list string := ["store"; "tmp"].
(** A store with an empty image directory next to another package's file. *)
Definition store_tree : tree :=
  <[["store"] := NDir 493]> (<[["store"; "tmp"] := NDir 493]>
  (<[["store"; "index.js"] := NFile "theirs" 420]> ∅)).
Definition umask : N := 18.

Lemma store_tree_fresh : fresh_root image_dir store_tree.
Proof.
  split; [by decided|]. split.
  - intros p s Heq Hne. unfold image_dir in Heq.
    destruct p as [|a [|b [|c p]]]; [done|..]; simpl in Heq; simplify_eq; by vm_compute.
  - intros suffix Hne. destruct suffix as [|c suffix]; [done|]. unfold store_tree, image_dir.
    rewrite !lookup_insert_ne by (simpl; congruence). apply lookup_empty.
Qed.

Definition plain_archive : list (result string entry) :=
  [ dir_entry "package/"; file_entry "package/./index.js" "one" 493; dir_entry "package/lib";
    file_entry "package/index.js" "two" 420; link_entry "package/bin/tool" "../index.js" ].

Lemma extract_refines_image_witness :
  let r := extract_with_limits umask image_dir (Entries plain_archive) ExtractionLimits_default store_tree in
  r.2 = Ok () ∧ tree_of r.1 !! ["store"; "index.js"] = Some (NFile "theirs" 420) ∧
  content_of <$> tree_of r.1 !! ["store"; "tmp"; "index.js"] = Some (CFile "two").
Proof.
  destruct (extract_refines_image umask image_dir (Entries plain_archive) ExtractionLimits_default
    store_tree plain_archive (Some "package") store_tree_fresh eq_refl
    (ltac:(vm_compute; reflexivity)) (ltac:(by decided))) as [Hout Hin].
  assert ((extract_with_limits umask image_dir (Entries plain_archive) ExtractionLimits_default
    store_tree).2 = Ok ()) as Hok by (vm_compute; reflexivity).
  split; [exact Hok|]. split.
  - rewrite Hout; [by vm_compute|]. intros suffix Hne. by destruct suffix.
  - vm_compute. reflexivity.
Defined.


Definition start : extraction :=
  mk_extraction store_tree (ExtractionBudget_new ExtractionLimits_default) ∅ None.
Lemma extract_rejects_before_writing_witness :
  (extract_entry umask image_dir None (link_entry "a/b" "../../c") start).2
    = Err (UnsafeSymlink ["a"; "b"] "../../c") ∧
  tree_of (extract_entry umask image_dir None (link_entry "a/b" "../../c") start).1 = store_tree.
Proof.
  split; [vm_compute; reflexivity|].
  apply (extract_rejects_before_writing umask image_dir None (link_entry "a/b" "../../c") start _
    (UnsafeSymlink ["a"; "b"] "../../c")).
  vm_compute. reflexivity.
Defined.

(** The lexical check of a link target can be fooled by links: [package/here/up]
    is created through [package/here], one level higher than its path says, and
    a later entry is written through it, outside the image root. *)
Definition escaping_archive : list (result string entry) :=
  [ link_entry "package/here" "."; link_entry "package/here/up" "..";
    file_entry "package/up/index.js" "mine" 420 ].
Lemma link_through_link_escapes :
  let r := extract umask image_dir (Entries escaping_archive) store_tree in
  r.2 = Ok () ∧ tree_of r.1 !! ["store"; "index.js"] = Some (NFile "mine" 420).
Proof. vm_compute. done. Qed.

(** The same with two links at the root and a target that goes through one. *)
Lemma target_through_link_escapes :
  let r := extract umask image_dir (Entries
    [ link_entry "package/here" "."; link_entry "package/up" "here/..";
      file_entry "package/up/index.js" "mine" 420 ]) store_tree in
  r.2 = Ok () ∧ tree_of r.1 !! ["store"; "index.js"] = Some (NFile "mine" 420).
Proof. vm_compute. done. Qed.

(** A repeated file keeps the mode of its first occurrence: the mode the code
    compares with is that of the first file of the archive. *)
Lemma repeated_file_keeps_mode :
  let r := extract umask image_dir (Entries
    [ file_entry "package/./run" "one" 493; file_entry "package/run" "two" 420 ]) store_tree in
  r.2 = Ok () ∧ tree_of r.1 !! ["store"; "tmp"; "run"] = Some (NFile "two" 493).
Proof. vm_compute. done. Qed.

(** The size charged is the header's; nothing compares it with what is copied. *)
Lemma copied_bytes_unchecked :
  let en := mk_entry (Ok "package/big") Regular (Some 0%N) None (Ok None) "12345678" false in
  let r := extract_with_limits umask image_dir (Entries [Ok en]) (mk_ExtractionLimits 4 4 10) store_tree in
  r.2 = Ok () ∧ tree_of r.1 !! ["store"; "tmp"; "big"] = Some (NFile "12345678" 420).
Proof. vm_compute. done. Qed.

(** Entries that clean to the image root are not charged. *)
Lemma root_entries_not_charged :
  (extract_with_limits umask image_dir (Entries (replicate 5 (dir_entry "package/")))
    (mk_ExtractionLimits 10 10 1) store_tree).2 = Ok ().
Proof. vm_compute. done. Qed.
End ArchiveRuns.
