(* ===== verification/PathSafety.v ===== *)
(** * [src/path_safety.rs]: lexical validation of paths and names

    Every validator returns the accepted (possibly normalised) text or a tagged
    error with the code's reason.  The abstract specification is [lexical_join]:
    how a POSIX resolver walks a relative path from a directory. *)

From S2P Require Export Str.
From Stdlib Require Import Ascii.

(** ** Errors *)

Inductive PathSafetyError : Type :=
  | InvalidPackagePath (path reason : string)
  | InvalidWorkspaceTarget (target reason : string)
  | InvalidBinName (name reason : string)
  | InvalidBinTarget (target reason : string).

#[global] Instance PathSafetyError_eq_dec : EqDecision PathSafetyError.
Proof. solve_decision. Defined.

(** ** Operations *)

Definition WINDOWS_DEVICE_NAMES : list string :=
  [ "con"; "prn"; "aux"; "nul"; "com1"; "com2"; "com3"; "com4"; "com5"; "com6"; "com7";
    "com8"; "com9"; "lpt1"; "lpt2"; "lpt3"; "lpt4"; "lpt5"; "lpt6"; "lpt7"; "lpt8"; "lpt9" ].

Definition is_valid_component (part : string) : bool :=
  negb (is_empty part) && negb (bool_decide (part = ".")) && negb (bool_decide (part = "..")).

Definition slash : ascii := "/"%char.
Definition backslash : ascii := "\"%char.
Definition colon : ascii := ":"%char.

(** The byte at index 1, [path.as_bytes().get(1)]. *)
Definition second_byte (s : string) : option ascii :=
  match s with String _ (String c _) => Some c | _ => None end.

Definition is_normalized_relative (path : string) : bool :=
  if is_empty path || starts_with_char slash path || starts_with_char backslash path then false
  else if bool_decide (second_byte path = Some colon) then false
  else if contains_char backslash path then false
  else forallb is_valid_component (split_char slash path).

(** [segments.windows(2).any(...)]. *)
Fixpoint has_nm (segments : list string) : bool :=
  match segments with
  | w0 :: ((w1 :: _) as rest) =>
      (bool_decide (w0 = "node_modules") && negb (is_empty w1)
       && negb (bool_decide (w1 = ".")) && negb (bool_decide (w1 = "..")))
      || has_nm rest
  | _ => false
  end.

Definition validate_package_path (path : string) : result PathSafetyError string :=
  fail_if (is_empty path)
    with_err (InvalidPackagePath path "package path cannot be empty");
  fail_if (negb (is_normalized_relative path))
    with_err (InvalidPackagePath path "package path must be a normalized relative path without root, backslash, or traversal components");
  fail_if (negb (has_nm (split_char slash path)))
    with_err (InvalidPackagePath path "package path must contain a node_modules/<name> segment");
  Ok path.

Definition validate_workspace_target (target : string) : result PathSafetyError string :=
  fail_if (negb (is_normalized_relative target))
    with_err (InvalidWorkspaceTarget target "workspace target must be a normalized relative path without root, backslash, or traversal components");
  Ok target.

Definition dot_or_space (c : ascii) : bool := ceqb c "." || ceqb c " ".

Definition validate_bin_name (name : string) : result PathSafetyError string :=
  fail_if (is_empty name)
    with_err (InvalidBinName name "bin name cannot be empty");
  fail_if (contains_char slash name || contains_char backslash name)
    with_err (InvalidBinName name "bin name must not contain path separators");
  fail_if (bool_decide (name = ".") || bool_decide (name = ".."))
    with_err (InvalidBinName name "bin name must not be '.' or '..'");
  fail_if (contains_char colon name)
    with_err (InvalidBinName name "bin name must not contain colon");
  fail_if (has_control name)
    with_err (InvalidBinName name "bin name must not contain control characters");
  let trimmed := trim_end_matches dot_or_space name in
  fail_if (is_empty trimmed)
    with_err (InvalidBinName name "bin name is empty after trimming trailing dot/space");
  let lower := to_ascii_lowercase trimmed in
  fail_if (bool_decide (lower ∈ WINDOWS_DEVICE_NAMES))
    with_err (InvalidBinName name ("bin name is a reserved Windows device name: " +:+ trimmed));
  Ok trimmed.

Definition validate_bin_target (target : string) : result PathSafetyError string :=
  let normalized := default target (strip_prefix "./" target) in
  fail_if (is_empty normalized)
    with_err (InvalidBinTarget target "bin target is empty after normalization");
  fail_if (negb (is_normalized_relative normalized))
    with_err (InvalidBinTarget target "bin target must be a normalized relative path without root, backslash, or traversal components");
  Ok normalized.

Definition scoped_string_bin_name (scoped_name : string) : option string :=
  '(_, tail) ← split_once "/" scoped_name;
  basename ← last (split_char slash tail);
  if is_empty basename then None else Some basename.

(** ** Specification: resolving a path from a directory

    A directory is the list of its components below the file-system root. *)

Definition walk_component (dir : list string) (c : string) : list string :=
  if bool_decide (c = "") || bool_decide (c = ".") then dir
  else if bool_decide (c = "..") then take (length dir - 1) dir
  else dir ++ [c].

Definition walk (dir : list string) (comps : list string) : list string :=
  foldl walk_component dir comps.

Definition lexical_join (base : list string) (path : string) : list string :=
  walk (if starts_with_char slash path then [] else base) (split_char slash path).

(** [path] resolves to a strict descendant of [base], reached without leaving it. *)
Definition confined (base : list string) (path : string) : Prop :=
  ∃ comps, comps ≠ [] ∧ lexical_join base path = base ++ comps ∧
           Forall (λ c, is_valid_component c = true) comps.

(** ** Lemmas *)

Lemma is_valid_component_true c :
  is_valid_component c = true ↔ c ≠ "" ∧ c ≠ "." ∧ c ≠ "..".
Proof.
  unfold is_valid_component.
  rewrite !andb_true_iff, !negb_true_iff, !bool_decide_eq_false, is_empty_false.
  tauto.
Qed.

Lemma walk_valid dir comps :
  Forall (λ c, is_valid_component c = true) comps → walk dir comps = dir ++ comps.
Proof.
  unfold walk. intros Hc. revert dir. induction Hc as [|c comps Hc _ IH]; intros dir; simpl.
  - by rewrite app_nil_r.
  - apply is_valid_component_true in Hc as (H1 & H2 & H3). unfold walk_component at 2.
    rewrite !bool_decide_eq_false_2 by done. simpl. by rewrite IH, <- (assoc_L (++)).
Qed.

Lemma is_normalized_relative_true p :
  is_normalized_relative p = true ↔
    p ≠ "" ∧ starts_with_char slash p = false ∧ contains_char backslash p = false ∧
    second_byte p ≠ Some colon ∧
    Forall (λ c, is_valid_component c = true) (split_char slash p).
Proof.
  unfold is_normalized_relative. rewrite Forall_forall, <- is_empty_false.
  setoid_rewrite list_elem_of_In. rewrite <- forallb_forall.
  destruct (is_empty p); simpl; [naive_solver|].
  destruct (starts_with_char slash p); simpl; [naive_solver|].
  destruct (starts_with_char backslash p) eqn:Hb; simpl.
  { split; [done|]. destruct p as [|c p]; [done|]. cbn in Hb.
    intros (_ & _ & Hn & _). unfold contains_char in Hn. simpl in Hn. by rewrite Hb in Hn. }
  case_bool_decide; [naive_solver|]. destruct (contains_char backslash p); naive_solver.
Qed.

Lemma normalized_confined base p : is_normalized_relative p = true → confined base p.
Proof.
  intros (_ & Hs & _ & _ & Hc)%is_normalized_relative_true.
  exists (split_char slash p). split; [apply split_char_nonempty|]. split; [|done].
  unfold lexical_join. rewrite Hs. by apply walk_valid.
Qed.

Lemma normalized_valid p :
  p ≠ "" → second_byte p ≠ Some colon → contains_char backslash p = false →
  Forall (λ c, is_valid_component c = true) (split_char slash p) →
  is_normalized_relative p = true.
Proof.
  intros Hne H2 Hb Hf. apply is_normalized_relative_true. repeat split; try done.
  destruct p as [|c p]; [done|]. cbn [starts_with_char]. destruct (ceqb slash c) eqn:Hc; [|done].
  cbn [split_char] in Hf. rewrite Hc in Hf. by apply Forall_cons in Hf as [Hf _].
Qed.

Lemma validate_package_path_Ok p q :
  validate_package_path p = Ok q ↔
    q = p ∧ is_normalized_relative p = true ∧ has_nm (split_char slash p) = true.
Proof.
  unfold validate_package_path. destruct (is_empty p) eqn:He.
  - apply is_empty_true in He as ->. naive_solver.
  - destruct (is_normalized_relative p); simpl; [|naive_solver].
    destruct (has_nm _); simpl; naive_solver.
Qed.

Lemma validate_workspace_target_Ok p q :
  validate_workspace_target p = Ok q ↔ q = p ∧ is_normalized_relative p = true.
Proof.
  unfold validate_workspace_target. destruct (is_normalized_relative p); simpl; naive_solver.
Qed.

Lemma validate_bin_target_Ok p q :
  validate_bin_target p = Ok q ↔
    q = default p (strip_prefix "./" p) ∧ is_normalized_relative q = true.
Proof.
  unfold validate_bin_target. generalize (default p (strip_prefix "./" p)) as n. intros n.
  destruct (is_empty n) eqn:He.
  - apply is_empty_true in He as ->. split; [done|]. by intros [-> ?].
  - destruct (is_normalized_relative n) eqn:Hn; simpl.
    + split; [by intros [= <-]|]. by intros [-> _].
    + split; [done|]. intros [-> ?]. congruence.
Qed.

Lemma validate_bin_name_Ok n m :
  validate_bin_name n = Ok m ↔
    m = trim_end_matches dot_or_space n ∧ m ≠ "" ∧
    contains_char slash n = false ∧ contains_char backslash n = false ∧
    contains_char colon n = false ∧ has_control n = false ∧
    to_ascii_lowercase m ∉ WINDOWS_DEVICE_NAMES.
Proof.
  unfold validate_bin_name. split.
  - intros H. inv_ok. simpl in *.
    repeat match goal with
    | H : _ || _ = false |- _ => apply orb_false_iff in H as [? ?]
    | H : bool_decide _ = false |- _ => apply bool_decide_eq_false in H
    | H : is_empty _ = false |- _ => apply is_empty_false in H
    end. naive_solver.
  - intros (-> & Hne & H1 & H2 & H3 & H4 & H5). rewrite H1, H2, H3, H4. simpl.
    rewrite (bool_decide_eq_false_2 (_ ∈ _)) by done.
    apply is_empty_false in Hne. rewrite Hne.
    destruct (is_empty n) eqn:He; [by apply is_empty_true in He as ->|].
    rewrite !bool_decide_eq_false_2; [done|by intros ->..].
Qed.

(** ** Properties *)

(** C4.  Confinement: whatever directory a package path, workspace target or bin
    target accepted by its validator is joined to, POSIX resolution of the
    returned text ends in a strict descendant of that directory and never
    passes through its parent; the accepted text contains no backslash, so a
    Windows resolver sees the same components. *)
Theorem validated_paths_confined base p q :
  validate_package_path p = Ok q ∨ validate_workspace_target p = Ok q ∨
    validate_bin_target p = Ok q →
  confined base q ∧ contains_char backslash q = false ∧ second_byte q ≠ Some colon.
Proof.
  intros H. assert (is_normalized_relative q = true) as Hn.
  { rewrite validate_package_path_Ok, validate_workspace_target_Ok, validate_bin_target_Ok in H.
    naive_solver. }
  split; [by apply normalized_confined|].
  apply is_normalized_relative_true in Hn. naive_solver.
Qed.

Lemma validated_paths_confined_witness :
  validate_bin_target "./lib/cli.js" = Ok "lib/cli.js" ∧
  confined ["srv"; "image"] "lib/cli.js".
Proof.
  assert (validate_bin_target "./lib/cli.js" = Ok "lib/cli.js") as H
    by (vm_compute; reflexivity).
  split; [exact H|].
  exact (proj1 (validated_paths_confined ["srv"; "image"] "./lib/cli.js" "lib/cli.js"
                  (or_intror (or_intror H)))).
Defined.

Lemma any_char_trim_end c p s :
  any_char c s = false → any_char c (trim_end_matches p s) = false.
Proof.
  intros Hs. destruct (trim_end_matches_spec p s) as (t & Ht & _).
  rewrite Ht, any_char_app in Hs. by apply orb_false_iff in Hs as [? _].
Qed.

(** A bin name accepted by [validate_bin_name] is one portable file name:
    the returned name is a prefix of the input that only lost trailing dots and
    spaces, is a valid path component without separator, colon or control
    character, does not end in a dot or space, is not a Windows device name in
    any case, and validating it again returns it unchanged. *)
Theorem validate_bin_name_portable n m :
  validate_bin_name n = Ok m →
  is_valid_component m = true ∧ contains_char slash m = false ∧
  contains_char backslash m = false ∧ contains_char colon m = false ∧
  has_control m = false ∧ (∀ r c, m = r +:+ String c "" → dot_or_space c = false) ∧
  to_ascii_lowercase m ∉ WINDOWS_DEVICE_NAMES ∧
  (∃ t, n = m +:+ t ∧ all_chars dot_or_space t = true) ∧
  validate_bin_name m = Ok m.
Proof.
  rewrite !validate_bin_name_Ok. intros (-> & Hne & H1 & H2 & H3 & H4 & H5).
  set (m := trim_end_matches dot_or_space n) in *.
  destruct (trim_end_matches_spec dot_or_space n) as (t & Ht & Hdots). fold m in Ht.
  assert (∀ r c, m = r +:+ String c "" → dot_or_space c = false) as Hlast
    by (intros r c; apply trim_end_matches_last).
  assert (has_control m = false) as Hctl by (rewrite Ht in H4; by eapply has_control_app_l).
  assert (contains_char slash m = false) by by apply any_char_trim_end.
  assert (contains_char backslash m = false) by by apply any_char_trim_end.
  assert (contains_char colon m = false) by by apply any_char_trim_end.
  split_and!; try done.
  - apply is_valid_component_true. split_and!; [done|..]; intros Hm.
    + by specialize (Hlast "" "."%char Hm).
    + by specialize (Hlast "." "."%char Hm).
  - by exists t.
  - by rewrite (trim_end_matches_idem _ n : trim_end_matches _ m = m).
Qed.

Lemma validate_bin_name_portable_witness :
  validate_bin_name "cli. " = Ok "cli" ∧ validate_bin_name "cli" = Ok "cli".
Proof.
  assert (validate_bin_name "cli. " = Ok "cli") as H by (vm_compute; reflexivity).
  split; [exact H|].
  destruct (validate_bin_name_portable "cli. " "cli" H) as (_&_&_&_&_&_&_&_&Hm).
  exact Hm.
Defined.
