(* ===== verification/Yaml.v ===== *)
(** * [src/pnpm_lock.rs]: the YAML subset of pnpm's lockfile

    Block maps and sequences, single-line flow collections, quoted or bare
    scalars, explicit keys and comments.  The flow parser of the source has a
    loop that need not advance; [FlowLoops] stands for its divergence, and
    [YamlTheory.flow_decides] shows that the fuel used here tells a loop that
    ends from one that never does. *)

From S2P Require Export Str.
From Stdlib Require Import Ascii.

Inductive Yaml : Type :=
  | Y_Str (s : string)
  | Y_Map (entries : list (string * Yaml))
  | Y_Seq (items : list Yaml).

(** The messages, by what they quote; [FlowLoops] is no answer of the code. *)
Inductive YamlError : Type :=
  | SequenceOfMaps (rest : string)
  | UnexpectedIndent (text : string)
  | ExpectedEntry (text : string)
  | TrailingContent (rest : string)
  | MultiLine
  | MissingKey (text : string)
  | InlineComment (text : string)
  | AnchorOrBlock (text : string)
  | FlowLoops.

(** [Yaml::get]. *)
Definition yaml_get (y : Yaml) (key : string) : option Yaml :=
  match y with
  | Y_Map entries => snd <$> find (λ kv, bool_decide (kv.1 = key)) entries
  | _ => None
  end.

(** [Yaml::entries], and [node.map(Yaml::entries).unwrap_or_default()]. *)
Definition yaml_entries (y : Yaml) : list (string * Yaml) :=
  match y with Y_Map entries => entries | _ => [] end.
Definition opt_entries (y : option Yaml) : list (string * Yaml) :=
  match y with Some y => yaml_entries y | None => [] end.

(** [Yaml::items]. *)
Definition yaml_items (y : Yaml) : list Yaml :=
  match y with Y_Seq items => items | _ => [] end.

(** [Yaml::yaml_as_str]. *)
Definition yaml_as_str (y : Yaml) : option string :=
  match y with Y_Str s => Some s | _ => None end.

(** [Yaml::string_list]. *)
Definition string_list (y : Yaml) : list string := omap yaml_as_str (yaml_items y).

(** ** Scalars and keys *)

Definition squote : ascii := chr 39.
Definition squote_s : string := String squote "".
Definition dquote_s : string := String dquote "".

(** [str::replace] with a non-empty pattern. *)
Definition replace_str (pat by_ s : string) : string := join by_ (split_str pat s).

(** The body between two quotes [q], if the token is quoted so. *)
Definition quoted_body (q token : string) : option string :=
  rest ← strip_prefix q token; strip_suffix q rest.

(** [unquote]. *)
Definition unquote_token (token : string) : string :=
  let trimmed := trim token in
  match quoted_body squote_s trimmed with
  | Some body => replace_str (squote_s +:+ squote_s) squote_s body
  | None => default trimmed (quoted_body dquote_s trimmed)
  end.

Definition is_quote (c : ascii) : bool := ceqb c squote || ceqb c dquote.

(** The scan of [split_key] and of [split_flow_key]: the text before the first
    separating colon outside quotes, and the text after it.  [stop] looks at
    what follows a colon. *)
Fixpoint scan_key (stop : string → bool) (quoted : bool) (s : string) : option (string * string) :=
  match s with
  | "" => None
  | String c s =>
      let skip quoted := (λ p : string * string, (String c p.1, p.2)) <$> scan_key stop quoted s in
      if quoted then skip (negb (is_quote c))
      else if is_quote c then skip true
      else if ceqb c ":" && stop s then Some ("", s)
      else skip false
  end.

(** A leading quote opens the key; the scan starts after it. *)
Definition scan_line (stop : string → bool) (line : string) : option (string * string) :=
  match line with
  | String c s =>
      if is_quote c then (λ p : string * string, (String c p.1, p.2)) <$> scan_key stop true s
      else scan_key stop false line
  | "" => None
  end.

(** A colon followed by a space or the end of the line. *)
Definition key_stop (s : string) : bool := is_empty s || starts_with_char " " s.

(** [split_key]. *)
Definition split_key (line : string) : option (string * option string) :=
  '(key, value) ← scan_line key_stop line;
  let value := trim value in
  Some (unquote_token key, if is_empty value then None else Some value).

(** [split_flow_key]. *)
Definition split_flow_key (text : string) : result YamlError (string * string) :=
  match scan_line (λ _, true) text with
  | Some (key, rest) => Ok (unquote_token key, rest)
  | None => Err (MissingKey text)
  end.

(** ** Flow collections *)

Definition flow_end (c : ascii) : bool := ceqb c "," || ceqb c "}" || ceqb c "]".

(** [text.split_at(end)] with the first of [,], [}], [\]]. *)
Fixpoint split_flow_scalar (text : string) : string * string :=
  match text with
  | "" => ("", "")
  | String c s => if flow_end c then ("", text)
                  else let '(token, rest) := split_flow_scalar s in (String c token, rest)
  end.

(** The text at the next turn of a collection's loop. *)
Definition after_comma (rest : string) : string :=
  let rest_trimmed := trim_start rest in
  default rest_trimmed (strip_prefix "," rest_trimmed).

(** Where [parse_flow] is: at a value, or in the loop of a map or a sequence. *)
Inductive flow_mode :=
  | FValue
  | FMap (entries : list (string * Yaml))
  | FSeq (items : list Yaml).

(** [parse_flow], with its two loops as modes. *)
Fixpoint flow (fuel : nat) (mode : flow_mode) (text : string)
    : result YamlError (Yaml * string) :=
  match fuel with
  | 0 => Err FlowLoops
  | S fuel =>
      match mode with
      | FValue =>
          if starts_with_char "{" text then flow fuel (FMap []) (String.substring 1 (strlen text) text)
          else if starts_with_char "[" text
          then flow fuel (FSeq []) (String.substring 1 (strlen text) text)
          else let '(token, rest) := split_flow_scalar text in Ok (Y_Str (unquote_token token), rest)
      | FMap entries =>
          let rest_trimmed := trim_start text in
          match strip_prefix "}" rest_trimmed with
          | Some after => Ok (Y_Map entries, after)
          | None =>
              '(key, rest_after_key) ← split_flow_key rest_trimmed;
              '(value, rest_after_value) ← flow fuel FValue rest_after_key;
              flow fuel (FMap (entries ++ [(key, value)])) (after_comma rest_after_value)
          end
      | FSeq items =>
          let rest_trimmed := trim_start text in
          match strip_prefix "]" rest_trimmed with
          | Some after => Ok (Y_Seq items, after)
          | None =>
              '(node, rest_after) ← flow fuel FValue rest_trimmed;
              flow fuel (FSeq (items ++ [node])) (after_comma rest_after)
          end
      end
  end.

(** Enough for every call that returns: see [YamlTheory.flow_decides]. *)
Definition flow_fuel (text : string) : nat := 2 * strlen text + 3.

Definition parse_flow (text : string) : result YamlError (Yaml * string) :=
  flow (flow_fuel text) FValue text.

(** [parse_inline]. *)
Definition parse_inline (value : string) : result YamlError Yaml :=
  if starts_with_char "{" value || starts_with_char "[" value then
    '(node, rest) ← parse_flow value;
    (fail_if negb (is_empty (trim rest)) with_err TrailingContent rest; Ok node)
  else if contains_char newline value then Err MultiLine
  else Ok (Y_Str (unquote_token value)).

(** ** Blocks

    The cursor is the list of the lines that remain. *)

(** A line is its indentation and its text. *)
Notation line := (nat * string)%type.

Definition is_item (text : string) : bool := starts_with "- " text || bool_decide (text = "-").

(** The loop over the items of a block sequence. *)
Fixpoint parse_items (indent : nat) (items : list Yaml) (lines : list line)
    : result YamlError (Yaml * list line) :=
  match lines with
  | [] => Ok (Y_Seq items, [])
  | (at_, text) :: rest_lines =>
      if negb (at_ =? indent)%nat || negb (is_item text) then Ok (Y_Seq items, lines)
      else
        let rest := trim (default "" (strip_prefix "- " text)) in
        if is_empty rest then parse_items indent (items ++ [Y_Str ""]) rest_lines
        else
          fail_if bool_decide (is_Some (split_key rest)) with_err SequenceOfMaps rest;
          item ← parse_inline rest;
          parse_items indent (items ++ [item]) rest_lines
  end.

(** The two entries of [parse_block]; [entries_loop] is the loop of a map. *)
Definition parse_block_with
    (entries_loop : nat → list line → result YamlError (Yaml * list line))
    (indent : nat) (lines : list line) : result YamlError (Yaml * list line) :=
  match lines with
  | (at_, text) :: _ =>
      if (at_ =? indent)%nat && is_item text then parse_items indent [] lines
      else if (indent <=? at_)%nat then entries_loop indent lines
      else Ok (Y_Str "", lines)
  | [] => Ok (Y_Str "", [])
  end.

(** The loop over the entries of a block map. *)
Fixpoint parse_entries (fuel indent : nat) (entries : list (string * Yaml)) (lines : list line)
    : result YamlError (Yaml * list line) :=
  match fuel with
  | 0 => Err FlowLoops
  | S fuel =>
      match lines with
      | [] => Ok (Y_Map entries, [])
      | (at_, text) :: rest =>
          if (at_ <? indent)%nat then Ok (Y_Map entries, lines)
          else if (indent <? at_)%nat then Err (UnexpectedIndent text)
          else
            '(key, value) ← ok_or (ExpectedEntry text) (split_key text);
            '(node, rest) ←
              match value with
              | Some inline => node ← parse_inline inline; Ok (node, rest)
              | None =>
                  match rest with
                  | (child, _) :: _ =>
                      if (indent <? child)%nat
                      then parse_block_with (λ i, parse_entries fuel i []) child rest
                      else Ok (Y_Str "", rest)
                  | [] => Ok (Y_Str "", rest)
                  end
              end;
            parse_entries fuel indent (entries ++ [(key, node)]) rest
      end
  end.

(** [parse_block].  Every turn of a loop takes a line, so the fuel never runs
    out. *)
Definition parse_block (indent : nat) (lines : list line) : result YamlError (Yaml * list line) :=
  parse_block_with (λ i, parse_entries (S (length lines)) i []) indent lines.

(** ** Documents *)

Record doc_state := mk_doc_state {
  ds_documents : list (list line); ds_current : list line; ds_pending : option line }.

Definition flush (current : list line) : list (list line) :=
  match current with [] => [] | _ => [current] end.

(** The lines a [: <value>] line stands for, after its key. *)
Definition explicit_lines (key_indent : nat) (key inline : string) : list line :=
  match split_key inline with
  | Some (name, Some value) =>
      [(key_indent, key +:+ ":"); (key_indent + 2, name +:+ ": " +:+ value)]
  | Some (name, None) => [(key_indent, key +:+ ":"); (key_indent + 2, name +:+ ":")]
  | None => [(key_indent, key +:+ ": " +:+ inline)]
  end.

(** The tail of the loop's body: no key is pending any more. *)
Definition plain_line (documents : list (list line)) (current : list line) (indent : nat)
    (trimmed : string) : result YamlError doc_state :=
  match strip_prefix "? " trimmed with
  | Some key => Ok (mk_doc_state documents current (Some (indent, unquote_token key)))
  | None =>
      fail_if contains_str " #" trimmed with_err InlineComment trimmed;
      fail_if starts_with_char "&" trimmed || starts_with_char "*" trimmed
              || starts_with_char "|" trimmed with_err AnchorOrBlock trimmed;
      Ok (mk_doc_state documents (current ++ [(indent, trimmed)]) None)
  end.

Definition doc_line (st : doc_state) (raw : string) : result YamlError doc_state :=
  let trimmed_end := trim_end raw in
  if bool_decide (trimmed_end = "---") || bool_decide (trimmed_end = "...") then
    Ok (mk_doc_state (ds_documents st ++ flush (ds_current st)) [] (ds_pending st))
  else
    let trimmed := trim_start trimmed_end in
    if is_empty trimmed || starts_with_char "#" trimmed then Ok st
    else
      let indent := strlen trimmed_end - strlen trimmed in
      match ds_pending st with
      | Some (key_indent, key) =>
          if starts_with_char ":" trimmed && (indent =? key_indent)%nat then
            let inline := trim (String.substring 1 (strlen trimmed) trimmed) in
            Ok (mk_doc_state (ds_documents st)
                  (ds_current st ++ explicit_lines key_indent key inline) None)
          else plain_line (ds_documents st) (ds_current st ++ [(key_indent, key +:+ ":")])
                 indent trimmed
      | None => plain_line (ds_documents st) (ds_current st) indent trimmed
      end.

(** The lines of every document. *)
Definition document_lines (text : string) : result YamlError (list (list line)) :=
  st ← fold_res doc_line (mk_doc_state [] [] None) (lines text);
  let current := ds_current st ++
    match ds_pending st with Some (i, key) => [(i, key +:+ ":")] | None => [] end in
  Ok (ds_documents st ++ flush current).

(** [parse_documents]. *)
Definition parse_documents (text : string) : result YamlError (list Yaml) :=
  documents ← document_lines text;
  mapM (λ lines, fst <$> parse_block 0 lines) documents.

(** ** What the parser does on small inputs *)

Example parse_small :
  parse_documents "packages:
  a@1.0.0:
    resolution: {integrity: sha512-xx}
    cpu: [x64, arm64]" =
  Ok [Y_Map [("packages", Y_Map [("a@1.0.0", Y_Map [
    ("resolution", Y_Map [("integrity", Y_Str "sha512-xx")]);
    ("cpu", Y_Seq [Y_Str "x64"; Y_Str "arm64"])])])]].
Proof. vm_compute. reflexivity. Qed.

Example parse_explicit_key :
  parse_documents "? 'a@1'
: b: 2" = Ok [Y_Map [("a@1", Y_Map [("b", Y_Str "2")])]].
Proof. vm_compute. reflexivity. Qed.
