(* ===== verification/YamlTheory.v ===== *)
(** * What the YAML subset parser reads

    The fuel of the flow parser tells a loop that ends from one that never does
    ([flow_decides]); the block parser never runs out of its own
    ([parse_entries_fuel]).  [document_text] is the syntax of a lockfile as a
    relation between documents and lines; [parse_documents_exact] shows that the
    parser returns what was laid out. *)

From S2P Require Export Yaml.
From Stdlib Require Import Ascii.

(** ** Lengths *)

Lemma strip_prefix_length p s r : strip_prefix p s = Some r → strlen s = strlen p + strlen r.
Proof. intros ->%strip_prefix_Some. unfold strlen. by rewrite length_app_s. Qed.

Lemma trim_start_length s : strlen (trim_start s) ≤ strlen s.
Proof.
  assert (∀ n t, strlen t ≤ n → strlen (trim_start t) ≤ strlen t) as H; [|by eapply H].
  induction n as [|n IH]; intros [|a [|b [|c t]]] Hl; cbn [trim_start]; try (cbn in Hl; lia).
  all: repeat case_match; cbn [strlen String.length] in *; try lia.
  all: match goal with |- context [trim_start ?u] => pose proof (IH u) end.
  all: unfold strlen in *; cbn [String.length] in *; lia.
Qed.

Lemma scan_key_length stop q s k r : scan_key stop q s = Some (k, r) → strlen r < strlen s.
Proof.
  revert q k. induction s as [|c s IH]; intros q k; cbn [scan_key]; [done|]. intros H.
  assert (∀ q', (λ p : string * string, (String c p.1, p.2)) <$> scan_key stop q' s = Some (k, r) →
          strlen r < strlen (String c s)) as Hs.
  { intros q' ([k' r'] & Hk & [= -> ->])%fmap_Some. apply IH in Hk. simpl in *. lia. }
  repeat case_match; simplify_eq; eauto.
Qed.

Lemma scan_line_length stop s k r : scan_line stop s = Some (k, r) → strlen r < strlen s.
Proof.
  destruct s as [|c s]; [done|]. cbn [scan_line]. destruct (is_quote c).
  - intros ([k' r'] & Hk & [= -> ->])%fmap_Some. apply scan_key_length in Hk. simpl in *. lia.
  - apply scan_key_length.
Qed.

Lemma split_flow_key_length t k r : split_flow_key t = Ok (k, r) → strlen r < strlen t.
Proof.
  unfold split_flow_key. destruct (scan_line _ t) as [[k' r']|] eqn:Hs; [|done].
  intros [= _ ->]. by apply scan_line_length in Hs.
Qed.

Lemma split_flow_key_Err t e : split_flow_key t = Err e → e = MissingKey t.
Proof. unfold split_flow_key. destruct (scan_line _ t) as [[k' r']|]; [done|]. by intros [= <-]. Qed.

Lemma split_flow_scalar_app t k r : split_flow_scalar t = (k, r) → t = k +:+ r.
Proof.
  revert k. induction t as [|c t IH]; intros k; cbn [split_flow_scalar]; [by intros [= <- <-]|].
  destruct (flow_end c); [by intros [= <- <-]|].
  destruct (split_flow_scalar t) as [k' r']. intros [= <- <-]. by rewrite (IH k').
Qed.

Lemma split_flow_scalar_head t k r :
  split_flow_scalar t = (k, r) → r = "" ∨ ∃ c s, r = String c s ∧ flow_end c = true.
Proof.
  revert k. induction t as [|c t IH]; intros k; cbn [split_flow_scalar]; [intros [= <- <-]; by left|].
  destruct (flow_end c) eqn:Hc; [intros [= <- <-]; right; by exists c, t|].
  destruct (split_flow_scalar t) as [k' r']. intros [= <- <-]. by eapply IH.
Qed.

Lemma substring_rest s : String.substring 0 (strlen s) s = s.
Proof. induction s as [|c s IH]; [done|]. cbn. f_equal. exact IH. Qed.

Lemma substring_tail n c s :
  n = strlen (String c s) → String.substring 1 n (String c s) = s.
Proof.
  intros ->. cbn [String.substring strlen String.length].
  assert (∀ t m, strlen t ≤ m → String.substring 0 m t = t) as H.
  { induction t as [|d t IH]; intros [|m] Hm; cbn in *; try done; [lia|]. f_equal. apply IH. unfold strlen; lia. }
  apply H. unfold strlen. lia.
Qed.

Lemma starts_with_char_true c s : starts_with_char c s = true → ∃ r, s = String c r.
Proof. destruct s as [|d s]; [done|]. simpl. rewrite ceqb_eq. intros ->. by exists s. Qed.

Lemma after_comma_length t : strlen (after_comma t) ≤ strlen t.
Proof.
  unfold after_comma. pose proof (trim_start_length t).
  destruct (strip_prefix "," (trim_start t)) as [r|] eqn:Hr; simpl; [|done].
  apply strip_prefix_length in Hr. lia.
Qed.

(** ** The flow parser *)

(** A value takes characters unless it is empty text before a terminator. *)
Lemma flow_length n mode t y r :
  flow n mode t = Ok (y, r) →
  strlen r < strlen t ∨
  (mode = FValue ∧ r = t ∧ (t = "" ∨ ∃ c s, t = String c s ∧ flow_end c = true)).
Proof.
  revert mode t y r. induction n as [|n IH]; intros mode t y r; cbn [flow]; [done|].
  destruct mode as [|entries|items].
  - destruct (starts_with_char "{" t) eqn:Ho.
    { apply starts_with_char_true in Ho as [s ->]. rewrite substring_tail by done.
      intros [H|[? _]]%IH; [|done]. left. simpl in *. lia. }
    destruct (starts_with_char "[" t) eqn:Hb.
    { apply starts_with_char_true in Hb as [s ->]. rewrite substring_tail by done.
      intros [H|[? _]]%IH; [|done]. left. simpl in *. lia. }
    destruct (split_flow_scalar t) as [k r'] eqn:Hs. intros [= _ <-].
    pose proof (split_flow_scalar_app _ _ _ Hs) as Ht. destruct k as [|c k].
    + right. rewrite Ht. split; [done|]. split; [done|]. rewrite app_nil_l_s. by eapply split_flow_scalar_head.
    + left. rewrite Ht. unfold strlen. rewrite length_app_s. simpl. lia.
  - pose proof (trim_start_length t). destruct (strip_prefix "}" _) as [after|] eqn:Hp.
    { intros [= _ <-]. apply strip_prefix_length in Hp. left. simpl in *. lia. }
    rewrite bind_Ok. intros ([k rk] & Hk & Hv). apply split_flow_key_length in Hk.
    apply bind_Ok in Hv as ([v rv] & Hv & Hm). pose proof (after_comma_length rv).
    apply IH in Hm as [Hm|[? _]]; [|done].
    apply IH in Hv as [Hv|(_ & -> & _)]; left; lia.
  - pose proof (trim_start_length t). destruct (strip_prefix "]" _) as [after|] eqn:Hp.
    { intros [= _ <-]. apply strip_prefix_length in Hp. left. simpl in *. lia. }
    rewrite bind_Ok. intros ([v rv] & Hv & Hm). pose proof (after_comma_length rv).
    apply IH in Hm as [Hm|[? _]]; [|done].
    apply IH in Hv as [Hv|(_ & -> & _)]; left; lia.
Qed.

Lemma flow_mono n m mode t :
  n ≤ m → flow n mode t ≠ Err FlowLoops → flow m mode t = flow n mode t.
Proof.
  revert m mode t. induction n as [|n IH]; intros [|m] mode t Hle Hn; [done|done|lia|].
  cbn [flow] in *. destruct mode as [|entries|items].
  - destruct (starts_with_char "{" t); [apply IH; [lia|done]|].
    destruct (starts_with_char "[" t); [apply IH; [lia|done]|done].
  - destruct (strip_prefix "}" _); [done|]. destruct (split_flow_key _) as [[k rk]|e]; [|done].
    cbn [mbind result_bind] in *. rewrite (IH m) by (first [lia|by intros Hl; rewrite Hl in Hn]).
    destruct (flow n FValue rk) as [[v rv]|e]; [|done]. cbn [mbind result_bind] in *. apply IH; [lia|done].
  - destruct (strip_prefix "]" _); [done|].
    rewrite (IH m FValue) by (first [lia|by intros Hl; rewrite Hl in Hn]).
    destruct (flow n FValue _) as [[v rv]|e]; [|done]. cbn [mbind result_bind] in *. apply IH; [lia|done].
Qed.

Lemma flow_agree n m mode t :
  flow n mode t ≠ Err FlowLoops → flow m mode t ≠ Err FlowLoops → flow n mode t = flow m mode t.
Proof.
  intros Hn Hm. destruct (decide (n ≤ m)); [symmetry|]; apply flow_mono; (done || lia).
Qed.

#[global] Instance YamlError_eq_dec : EqDecision YamlError.
Proof. solve_decision. Defined.

Lemma flow_Ok n m mode t v r :
  flow n mode t = Ok (v, r) → flow m mode t = Err FlowLoops ∨ flow m mode t = Ok (v, r).
Proof.
  intros Hn. destruct (flow m mode t) as [[v' r']|e] eqn:Hm.
  - right. rewrite <- Hn, <- Hm. apply flow_agree; congruence.
  - destruct (decide (e = FlowLoops)) as [->|He]; [by left|].
    right. rewrite <- Hn, <- Hm. apply flow_agree; congruence.
Qed.

(** The sequence loop never leaves an end of text or a closing brace. *)
Lemma seq_stuck n items t :
  (t = "" ∨ ∃ s, t = String "}" s) → flow n (FSeq items) t = Err FlowLoops.
Proof.
  intros Ht. assert (trim_start t = t ∧ strip_prefix "]" t = None ∧ strip_prefix "," t = None ∧
    ∀ k, flow k FValue t = Err FlowLoops ∨ ∃ v, flow k FValue t = Ok (v, t)) as (H1 & H2 & H3 & H4).
  { destruct Ht as [->|[s ->]]; (split; [|split; [done|split; [done|]]]).
    - done.
    - intros [|k]; [by left|right]. by exists (Y_Str "").
    - by apply trim_start_graph.
    - intros [|k]; [by left|right]. by exists (Y_Str ""). }
  clear Ht. revert items. induction n as [|n IH]; intros items; [done|]. cbn [flow].
  rewrite H1, H2. destruct (H4 n) as [->|[v ->]]; [done|]. cbn [mbind result_bind].
  unfold after_comma. rewrite H1, H3. apply IH.
Qed.

Definition flow_need (mode : flow_mode) (t : string) : nat :=
  match mode with FValue => 2 * strlen t + 1 | _ => 2 * strlen t + 2 end.

(** A call that runs out of this fuel runs out of any. *)
Lemma flow_decides n mode t :
  flow_need mode t ≤ n → flow n mode t = Err FlowLoops → ∀ m, flow m mode t = Err FlowLoops.
Proof.
  revert mode t. induction n as [|n IH]; intros mode t Hneed H m.
  { destruct mode; simpl in Hneed; lia. }
  destruct m as [|m]; [done|]. cbn [flow] in *. destruct mode as [|entries|items].
  - destruct (starts_with_char "{" t) eqn:Ho.
    { apply starts_with_char_true in Ho as [s ->]. rewrite substring_tail in * by done.
      apply IH; [simpl in *; lia|done]. }
    destruct (starts_with_char "[" t) eqn:Hb.
    { apply starts_with_char_true in Hb as [s ->]. rewrite substring_tail in * by done.
      apply IH; [simpl in *; lia|done]. }
    by destruct (split_flow_scalar t).
  - pose proof (trim_start_length t) as Hts. destruct (strip_prefix "}" _); [done|].
    destruct (split_flow_key _) as [[k rk]|e] eqn:Hk; cbn [mbind result_bind] in *;
      [|apply split_flow_key_Err in Hk as ->; done].
    apply split_flow_key_length in Hk. simpl in Hneed.
    destruct (flow n FValue rk) as [[v rv]|e] eqn:Hv; cbn [mbind result_bind] in *.
    + destruct (flow_Ok _ m _ _ _ _ Hv) as [-> | ->]; [done|]. cbn [mbind result_bind].
      apply IH; [|done]. simpl. pose proof (after_comma_length rv). apply flow_length in Hv as [?|(_ & -> & _)]; lia.
    + injection H as ->. rewrite (IH FValue rk); [done| |done]. simpl. lia.
  - pose proof (trim_start_length t) as Hts. set (rt := trim_start t) in *.
    destruct (strip_prefix "]" rt) eqn:Hcl; [done|]. simpl in Hneed.
    destruct (flow n FValue rt) as [[v rv]|e] eqn:Hv; cbn [mbind result_bind] in *.
    + destruct (flow_Ok _ m _ _ _ _ Hv) as [-> | ->]; [done|]. cbn [mbind result_bind].
      pose proof (after_comma_length rv) as Hac.
      apply flow_length in Hv as [?|(_ & -> & Hend)]; [apply IH; [simpl; lia|done]|].
      destruct Hend as [Hrt|(c & s & Hrt & Hc)]; [rewrite Hrt; by apply seq_stuck; left|].
      unfold flow_end in Hc. rewrite !orb_true_iff, !ceqb_eq in Hc.
      destruct Hc as [[->| ->]| ->].
      * apply IH; [|done]. simpl. unfold after_comma in *. rewrite Hrt in *.
        rewrite trim_start_graph in * by done. simpl in *. lia.
      * rewrite Hrt. unfold after_comma. rewrite trim_start_graph by done. apply seq_stuck.
        right. by exists s.
      * rewrite Hrt in Hcl. done.
    + injection H as ->. rewrite (IH FValue rt); [done| |done]. simpl. lia.
Qed.

(** The parser as a whole: it reports [FlowLoops] exactly when the loop of the
    source never ends, and otherwise more fuel changes nothing. *)
Theorem parse_flow_decides t :
  (parse_flow t = Err FlowLoops ↔ ∀ n, flow n FValue t = Err FlowLoops) ∧
  ∀ n, flow n FValue t ≠ Err FlowLoops → flow n FValue t = parse_flow t.
Proof.
  assert (parse_flow t = Err FlowLoops → ∀ n, flow n FValue t = Err FlowLoops) as H.
  { apply flow_decides. unfold flow_fuel. simpl. lia. }
  split; [split; [done|intros Hn; apply Hn]|].
  intros n Hn. apply flow_agree; [done|]. intros Hl. apply Hn. by apply H.
Qed.

(** An unclosed sequence is never given up. *)
Example unclosed_sequence_loops : parse_flow "[x64, arm64" = Err FlowLoops.
Proof. vm_compute. reflexivity. Qed.
Example unclosed_map_fails : parse_flow "{a: b" = Err (MissingKey "").
Proof. vm_compute. reflexivity. Qed.

(** ** Fuel of the block parser *)

Lemma parse_items_length indent items ls y rest :
  parse_items indent items ls = Ok (y, rest) → length rest ≤ length ls.
Proof.
  revert items. induction ls as [|[i t] ls IH]; intros items; cbn [parse_items]; [by intros [= _ <-]|].
  destruct (_ || _); [by intros [= _ <-]|].
  destruct (is_empty _); [intros H%IH; simpl; lia|].
  destruct (bool_decide _); [done|]. rewrite bind_Ok. intros (v & _ & H%IH). simpl. lia.
Qed.

Lemma parse_block_with_length f indent ls y rest :
  (∀ i l y rest, f i l = Ok (y, rest) → length rest ≤ length l) →
  parse_block_with f indent ls = Ok (y, rest) → length rest ≤ length ls.
Proof.
  intros Hf. destruct ls as [|[i t] ls]; cbn [parse_block_with]; [by intros [= _ <-]|].
  destruct (_ && _); [apply parse_items_length|]. destruct (_ <=? _)%nat; [apply Hf|].
  by intros [= _ <-].
Qed.

Lemma parse_entries_length n indent es ls y rest :
  parse_entries n indent es ls = Ok (y, rest) → length rest ≤ length ls.
Proof.
  revert indent es ls y rest. induction n as [|n IH]; intros indent es ls y rest; [done|].
  cbn [parse_entries]. destruct ls as [|[i t] ls]; [by intros [= _ <-]|].
  destruct (_ <? _)%nat; [by intros [= _ <-]|]. destruct (_ <? _)%nat; [done|].
  rewrite bind_Ok. intros ([key value] & _ & H). apply bind_Ok in H as ([node mid] & Hn & H%IH).
  cut (length mid ≤ length ls); [simpl; lia|].
  destruct value as [inline|].
  - apply bind_Ok in Hn as (v & _ & [= _ <-]). done.
  - destruct ls as [|[c s] ls]; [by injection Hn as _ <-|].
    destruct (_ <? _)%nat; [|by injection Hn as _ <-].
    eapply parse_block_with_length; [|exact Hn]. simpl. intros *. apply IH.
Qed.

(** Fuel beyond the number of lines changes nothing. *)
Lemma parse_entries_fuel n m indent es ls :
  length ls < n → length ls < m → parse_entries n indent es ls = parse_entries m indent es ls.
Proof.
  revert m indent es ls. induction n as [|n IH]; intros [|m] indent es ls Hn Hm; [lia..|].
  cbn [parse_entries]. destruct ls as [|[i t] ls]; [done|]. simpl in Hn, Hm.
  destruct (_ <? _)%nat; [done|]. destruct (_ <? _)%nat; [done|].
  destruct (ok_or _ _) as [[key value]|e]; [|done]. cbn [mbind result_bind].
  assert (∀ node mid, length mid ≤ length ls →
    parse_entries n indent (es ++ [(key, node)]) mid =
    parse_entries m indent (es ++ [(key, node)]) mid) as Hk by (intros; apply IH; lia).
  destruct value as [inline|].
  { destruct (parse_inline inline); [|done]. by apply Hk. }
  destruct ls as [|[c s] ls]; [by apply Hk|]. destruct (_ <? _)%nat; [|by apply Hk].
  assert (parse_block_with (λ i, parse_entries n i []) c ((c, s) :: ls) =
          parse_block_with (λ i, parse_entries m i []) c ((c, s) :: ls)) as ->.
  { cbn [parse_block_with]. destruct (_ && _); [done|]. destruct (_ <=? _)%nat; [|done].
    apply IH; simpl in *; lia. }
  destruct (parse_block_with _ _ _) as [[node mid]|e] eqn:Hb; [|done]. cbn [mbind result_bind].
  apply Hk. eapply parse_block_with_length; [|exact Hb]. simpl. intros *. apply parse_entries_length.
Qed.

(** ** Texts

    What a lockfile's scalars, keys and lines look like. *)

Definition is_print (c : ascii) : bool := in_range 32 126 c.
Definition clean_char (c : ascii) : bool := is_print c && negb (ceqb c "#").
Definition plain_char (c : ascii) : bool := clean_char c && negb (is_quote c).

Definition first_graph (t : string) : Prop := ∃ c s, t = String c s ∧ is_graph c = true.
Definition last_graph (t : string) : Prop := ∃ s c, t = s +:+ String c "" ∧ is_graph c = true.
Definition edged (t : string) : Prop := first_graph t ∧ last_graph t.

Definition head_not (l : list ascii) (t : string) : Prop :=
  match t with String c _ => c ∉ l | "" => True end.

(** A quoted text. *)
Definition quoted (s t : string) : Prop :=
  ∃ q, (q = squote_s ∨ q = dquote_s) ∧ t = q +:+ s +:+ q ∧ all_chars plain_char s = true.

(** A plain scalar: no quotes, no opening bracket. *)
Definition plain (s t : string) : Prop :=
  s = t ∧ all_chars plain_char t = true ∧ edged t ∧ head_not ["{"; "["]%char t.

(** A key, bare or quoted. *)
Inductive key_text (k : string) : string → Prop :=
  | KT_bare : k ≠ "" → all_chars (λ c, plain_char c && is_graph c) k = true →
      head_not ["&"; "*"; "|"]%char k → key_text k k
  | KT_quoted kt : quoted k kt → key_text k kt.

(** A scalar of a flow collection ends at the first terminator. *)
Definition flow_scalar (s t : string) : Prop :=
  (plain s t ∨ quoted s t) ∧ all_chars (λ c, negb (flow_end c)) t = true.

(** The key of a flow entry ends at the first colon. *)
Definition flow_key (k t : string) : Prop :=
  key_text k t ∧ (contains_char ":" k = false ∨ quoted k t) ∧ t ≠ "" ∧ head_not ["}"]%char t.

Inductive map_body : list (string * Yaml) → string → Prop :=
  | MB_nil : map_body [] "}"
  | MB_one k kt s t : flow_key k kt → flow_scalar s t →
      map_body [(k, Y_Str s)] (kt +:+ ": " +:+ t +:+ "}")
  | MB_more k kt s t es rest : flow_key k kt → flow_scalar s t → es ≠ [] → map_body es rest →
      map_body ((k, Y_Str s) :: es) (kt +:+ ": " +:+ t +:+ ", " +:+ rest).

Inductive flow_text : Yaml → string → Prop :=
  | FT_scalar s t : flow_scalar s t → flow_text (Y_Str s) t
  | FT_map es t : map_body es t → flow_text (Y_Map es) ("{" +:+ t)
  | FT_seq items t : seq_body items t → flow_text (Y_Seq items) ("[" +:+ t)
with seq_body : list Yaml → string → Prop :=
  | SB_nil : seq_body [] "]"
  | SB_one y t : flow_text y t → seq_body [y] (t +:+ "]")
  | SB_more y t items rest : flow_text y t → items ≠ [] → seq_body items rest →
      seq_body (y :: items) (t +:+ ", " +:+ rest).

(** The value of a [key: value] line. *)
Inductive inline_text : Yaml → string → Prop :=
  | IT_scalar s t : plain s t ∨ quoted s t → inline_text (Y_Str s) t
  | IT_flow y t : flow_text y t → (∀ s, y ≠ Y_Str s) → inline_text y t.

(** An item of a block sequence: a scalar that no colon makes an entry. *)
Definition item_text (y : Yaml) (t : string) : Prop :=
  ∃ s, y = Y_Str s ∧ ((plain s t ∧ split_key t = None) ∨ quoted s t).

(** The lines of a block map. *)
Inductive block_text : nat → list (string * Yaml) → list line → Prop :=
  | BT_nil i : block_text i [] []
  | BT_inline i k kt y t es ls : key_text k kt → inline_text y t → block_text i es ls →
      block_text i ((k, y) :: es) ((i, kt +:+ ": " +:+ t) :: ls)
  | BT_null i k kt es ls : key_text k kt → block_text i es ls →
      block_text i ((k, Y_Str "") :: es) ((i, kt +:+ ":") :: ls)
  | BT_map i j k kt sub subls es ls : key_text k kt → i < j → sub ≠ [] → block_text j sub subls →
      block_text i es ls → block_text i ((k, Y_Map sub) :: es) ((i, kt +:+ ":") :: subls ++ ls)
  | BT_seq i j k kt items texts es ls : key_text k kt → i < j → items ≠ [] →
      Forall2 item_text items texts → block_text i es ls →
      block_text i ((k, Y_Seq items) :: es)
        ((i, kt +:+ ":") :: ((λ t, (j, "- " +:+ t)) <$> texts) ++ ls).

Fixpoint spaces (n : nat) : string :=
  match n with 0 => "" | S n => String " " (spaces n) end.

(** Blank lines and comments may stand anywhere. *)
Definition skipped (r : string) : Prop :=
  (∃ n, r = spaces n) ∨ ∃ n c, r = spaces n +:+ "#" +:+ c ∧ all_chars is_print c = true.

Inductive raw_lines : list line → list string → Prop :=
  | RL_nil : raw_lines [] []
  | RL_line i t ls raws : raw_lines ls raws → raw_lines ((i, t) :: ls) ((spaces i +:+ t) :: raws)
  | RL_skip r ls raws : skipped r → raw_lines ls raws → raw_lines ls (r :: raws).

(** A file: documents separated by [---]. *)
Inductive document_text : list (list (string * Yaml)) → list string → Prop :=
  | DT_open docs raws : document_text docs raws → document_text docs ("---" :: raws)
  | DT_last es ls raws : es ≠ [] → block_text 0 es ls → raw_lines ls raws → document_text [es] raws
  | DT_more es ls raws docs rest : es ≠ [] → block_text 0 es ls → raw_lines ls raws →
      document_text docs rest → document_text (es :: docs) (raws ++ "---" :: rest).

Definition unlines (ls : list string) : string :=
  concat_s ((λ l, l +:+ String newline "") <$> ls).

(** ** Reading the texts back *)

Lemma trim_start_unfold s :
  trim_start s =
  match s with
  | "" => ""
  | String a s1 =>
      if ws1 a then trim_start s1
      else match s1 with
           | "" => s
           | String b s2 =>
               if ws2 a b then trim_start s2
               else match s2 with
                    | "" => s
                    | String c s3 => if ws3 a b c then trim_start s3 else s
                    end
           end
  end.
Proof. by destruct s as [|a [|b [|c s]]]. Qed.

Lemma trim_start_graph_in s c r : is_graph c = true → trim_start (s +:+ String c r) ≠ "".
Proof.
  intros Hc. assert (∀ n s, strlen s ≤ n → trim_start (s +:+ String c r) ≠ "") as H; [|by eapply H].
  assert (in_range 128 255 c = false) as Hhi.
  { apply not_true_is_false. unfold is_graph in Hc. rewrite in_range_true in *. lia. }
  assert (∀ a, ws2 a c = false) as H2.
  { intros a. unfold ws2. unfold is_graph in Hc. rewrite in_range_true in Hc.
    assert ((code c =? 133)%N = false) as -> by (apply N.eqb_neq; lia).
    assert ((code c =? 160)%N = false) as -> by (apply N.eqb_neq; lia). by rewrite andb_false_r. }
  assert (∀ a b, ws3 a c b = false ∧ ws3 a b c = false) as H3.
  { intros a b. unfold is_graph in Hc. rewrite in_range_true in Hc. unfold ws3, in_range.
    repeat match goal with |- context [(code c =? ?k)%N] =>
      replace (code c =? k)%N with false by (symmetry; apply N.eqb_neq; lia) end.
    replace (128 <=? code c)%N with false by (symmetry; apply N.leb_gt; lia).
    by rewrite !andb_false_r, ?andb_false_l, ?orb_false_r. }
  induction n as [|n IH]; intros [|a [|b [|d s']]] Hl; cbn [strlen String.length] in Hl;
    rewrite ?app_cons_s, ?app_nil_l_s; try (by rewrite trim_start_graph); try lia;
    rewrite trim_start_unfold; cbv beta iota.
  - destruct (ws1 a); [by rewrite trim_start_graph|]. rewrite H2.
    destruct r as [|r0 r']; [done|]. by rewrite (proj1 (H3 a r0)).
  - destruct (ws1 a).
    { apply (IH (String b "")). simpl. lia. }
    destruct (ws2 a b); [by rewrite trim_start_graph|]. by rewrite (proj2 (H3 a b)).
  - destruct (ws1 a).
    { apply (IH (String b (String d s'))). simpl. unfold strlen in *. lia. }
    destruct (ws2 a b); [apply (IH (String d s')); simpl; unfold strlen in *; lia|].
    destruct (ws3 a b d); [|done]. apply IH. unfold strlen in *. lia.
Qed.

Lemma trim_end_last t : last_graph t → trim_end t = t.
Proof.
  intros (s & c & -> & Hc). induction s as [|a s IH]; rewrite ?app_nil_l_s, ?app_cons_s.
  - apply trim_end_graph. simpl. by rewrite Hc.
  - cbn [trim_end]. destruct (is_empty _) eqn:He.
    + apply is_empty_true in He. by apply (trim_start_graph_in (String a s) c "") in He.
    + by rewrite IH.
Qed.

Lemma trim_start_first t : first_graph t → trim_start t = t.
Proof. intros (c & s & -> & Hc). by apply trim_start_graph. Qed.

Lemma trim_edged t : edged t → trim t = t.
Proof. intros [Hf Hl]. unfold trim. rewrite trim_start_first by done. by apply trim_end_last. Qed.

Lemma plain_char_spec c :
  plain_char c = true ↔ is_print c = true ∧ c ≠ "#"%char ∧ is_quote c = false.
Proof.
  unfold plain_char, clean_char. rewrite !andb_true_iff, !negb_true_iff, ceqb_neq. naive_solver.
Qed.

Lemma plain_not_quote s : all_chars plain_char s = true → all_chars (λ c, negb (is_quote c)) s = true.
Proof. apply all_chars_impl. intros c (_ & _ & H)%plain_char_spec. by rewrite H. Qed.

Lemma plain_clean s : all_chars plain_char s = true → all_chars clean_char s = true.
Proof. apply all_chars_impl. intros c. unfold plain_char. by intros [? _]%andb_true_iff. Qed.

Lemma first_graph_app s t : first_graph s → first_graph (s +:+ t).
Proof. intros (c & r & -> & Hc). exists c, (r +:+ t). by rewrite app_cons_s. Qed.

Lemma last_graph_app s t : last_graph t → last_graph (s +:+ t).
Proof. intros (r & c & -> & Hc). exists (s +:+ r), c. by rewrite app_assoc_s. Qed.

Lemma graph_edged s : s ≠ "" → all_chars is_graph s = true → edged s.
Proof.
  intros Hs Hg. split.
  - destruct s as [|c s]; [done|]. simpl in Hg. apply andb_true_iff in Hg as [Hc _]. by exists c, s.
  - induction s as [|c s IH]; [done|]. simpl in Hg. apply andb_true_iff in Hg as [Hc Hg].
    destruct s as [|d s]; [by exists "", c|].
    apply (last_graph_app (String c "")). by apply IH.
Qed.

Lemma quoted_edged s t : quoted s t → edged t.
Proof.
  intros (q & Hq & -> & _). assert (is_graph squote = true ∧ is_graph dquote = true) as [H1 H2] by done.
  split; destruct Hq as [-> | ->].
  - by exists squote, (s +:+ squote_s).
  - by exists dquote, (s +:+ dquote_s).
  - exists (squote_s +:+ s), squote. by rewrite app_assoc_s.
  - exists (dquote_s +:+ s), dquote. by rewrite app_assoc_s.
Qed.

Lemma quoted_clean s t : quoted s t → all_chars clean_char t = true.
Proof.
  intros (q & Hq & -> & Hs). rewrite !all_chars_app, (plain_clean _ Hs).
  by destruct Hq as [-> | ->].
Qed.

Lemma no_quote_split_once s :
  all_chars (λ c, negb (is_quote c)) s = true → split_once (squote_s +:+ squote_s) s = None.
Proof.
  induction s as [|c s IH]; [done|]. cbn [all_chars]. intros [Hc Hs]%andb_true_iff.
  cbn [split_once]. rewrite IH by done.
  destruct (strip_prefix _ (String c s)) as [r|] eqn:Hp; [|done].
  apply strip_prefix_Some in Hp. injection Hp as -> _. done.
Qed.

(** Quotes are removed, plain text is kept. *)
Lemma unquote_quoted s t : quoted s t → unquote_token t = s.
Proof.
  intros Hq. pose proof (quoted_edged _ _ Hq) as He.
  unfold unquote_token. rewrite (trim_edged _ He). clear He.
  destruct Hq as (q & Hq & -> & Hs). apply plain_not_quote in Hs.
  unfold quoted_body. destruct Hq as [-> | ->].
  - rewrite strip_prefix_app. cbn [mbind option_bind].
    assert (strip_suffix squote_s (s +:+ squote_s) = Some s) as -> by by apply strip_suffix_Some.
    unfold replace_str. rewrite split_str_unfold by done. by rewrite no_quote_split_once.
  - assert (strip_prefix squote_s (dquote_s +:+ s +:+ dquote_s) = None) as -> by done.
    rewrite strip_prefix_app. cbn [mbind option_bind].
    assert (strip_suffix dquote_s (s +:+ dquote_s) = Some s) as -> by by apply strip_suffix_Some.
    done.
Qed.

Lemma unquote_bare t :
  trim t = t → all_chars (λ c, negb (is_quote c)) t = true → unquote_token t = t.
Proof.
  intros Ht Hq. unfold unquote_token. rewrite Ht. unfold quoted_body.
  destruct t as [|c t]; [done|]. cbn [all_chars] in Hq. apply andb_true_iff in Hq as [Hc _].
  apply negb_true_iff, orb_false_iff in Hc as [H1 H2].
  assert (∀ q r, ceqb c q = false → strip_prefix (String q "") (String c r) = None) as H.
  { intros q r Hq. destruct (strip_prefix _ _) as [x|] eqn:Hp; [|done].
    apply strip_prefix_Some in Hp. injection Hp as -> _. by apply ceqb_neq in Hq. }
  unfold squote_s, dquote_s. by rewrite !H by done.
Qed.

Lemma unquote_plain s t : plain s t ∨ quoted s t → unquote_token t = s.
Proof.
  intros [(-> & Hp & He & _)|Hq]; [|by apply unquote_quoted].
  apply unquote_bare; [by apply trim_edged|by apply plain_not_quote].
Qed.

(** *** Keys *)

Lemma scan_key_bare stop k r :
  all_chars (λ c, negb (is_quote c)) k = true →
  (∀ a b, k = a +:+ String ":" b → stop (b +:+ String ":" r) = false) → stop r = true →
  scan_key stop false (k +:+ String ":" r) = Some (k, r).
Proof.
  intros Hq Hstop Hr. induction k as [|c k IH].
  - rewrite app_nil_l_s. cbn [scan_key]. by rewrite Hr.
  - cbn [all_chars] in Hq. apply andb_true_iff in Hq as [Hc Hq]. apply negb_true_iff in Hc.
    rewrite app_cons_s. cbn [scan_key]. rewrite Hc.
    assert (ceqb c ":" && stop (k +:+ String ":" r) = false) as ->.
    { destruct (ceqb c ":") eqn:Hcc; [|done]. apply ceqb_eq in Hcc as ->. by apply (Hstop ""). }
    rewrite IH; [done|done|]. intros a b ->. apply (Hstop (String c a)). by rewrite app_cons_s.
Qed.

Lemma scan_key_quoted stop s q r :
  all_chars (λ c, negb (is_quote c)) s = true → is_quote q = true → stop r = true →
  scan_key stop true (s +:+ String q (String ":" r)) = Some (s +:+ String q "", r).
Proof.
  intros Hs Hq Hr. induction s as [|c s IH].
  - rewrite !app_nil_l_s. cbn [scan_key]. rewrite Hq. cbn [negb].
    assert (is_quote ":" = false) as -> by done. by rewrite Hr.
  - cbn [all_chars] in Hs. apply andb_true_iff in Hs as [Hc Hs]. apply negb_true_iff in Hc.
    rewrite !app_cons_s. cbn [scan_key]. rewrite Hc. cbn [negb]. by rewrite IH.
Qed.

Lemma quoted_scan stop s t r :
  quoted s t → stop r = true → scan_line stop (t +:+ String ":" r) = Some (t, r).
Proof.
  intros (q & Hq & -> & Hs) Hr. apply plain_not_quote in Hs.
  assert (∃ c, q = String c "" ∧ is_quote c = true) as (c & -> & Hc).
  { destruct Hq as [-> | ->]; eexists; (split; [reflexivity|done]). }
  change (scan_line stop (String c ((s +:+ String c "") +:+ String ":" r)) =
          Some (String c (s +:+ String c ""), r)). cbn [scan_line]. rewrite Hc.
  rewrite <- app_assoc_s, app_cons_s, app_nil_l_s. by rewrite scan_key_quoted.
Qed.

Lemma bare_scan stop k r :
  k ≠ "" → all_chars (λ c, negb (is_quote c)) k = true →
  (∀ a b, k = a +:+ String ":" b → stop (b +:+ String ":" r) = false) → stop r = true →
  scan_line stop (k +:+ String ":" r) = Some (k, r).
Proof.
  intros Hk Hq Hstop Hr. destruct k as [|c k]; [done|].
  pose proof Hq as Hc. cbn [all_chars] in Hc. apply andb_true_iff in Hc as [Hc _].
  apply negb_true_iff in Hc. rewrite app_cons_s. cbn [scan_line]. rewrite Hc.
  rewrite <- app_cons_s. by apply scan_key_bare.
Qed.

Lemma bare_facts k :
  k ≠ "" → all_chars (λ c, plain_char c && is_graph c) k = true →
  edged k ∧ all_chars plain_char k = true ∧ unquote_token k = k.
Proof.
  intros Hk Hc. assert (all_chars plain_char k = true ∧ all_chars is_graph k = true) as [Hp Hg].
  { split; (eapply all_chars_impl; [|exact Hc]); by intros c [? ?]%andb_true_iff. }
  assert (edged k) by by apply graph_edged.
  split; [done|]. split; [done|]. apply unquote_bare; [by apply trim_edged|by apply plain_not_quote].
Qed.

Lemma split_key_text k kt r :
  key_text k kt → key_stop r = true →
  split_key (kt +:+ String ":" r) = Some (k, if is_empty (trim r) then None else Some (trim r)).
Proof.
  intros Hk Hr. unfold split_key. assert (scan_line key_stop (kt +:+ String ":" r) = Some (kt, r)
    ∧ unquote_token kt = k) as [-> Hu]; [|cbn [mbind option_bind]; by rewrite Hu].
  destruct Hk as [Hne Hc _|kt Hq].
  - pose proof (bare_facts _ Hne Hc) as (_ & Hp & Hu). split; [|done].
    apply bare_scan; [done|by apply plain_not_quote| |done].
    intros a b ->. rewrite all_chars_app in Hc. apply andb_true_iff in Hc as [_ Hc].
    cbn [all_chars] in Hc. apply andb_true_iff in Hc as [_ Hb].
    destruct b as [|d b]; [done|]. cbn [all_chars] in Hb.
    apply andb_true_iff in Hb as [[_ Hd]%andb_true_iff _]. rewrite app_cons_s. unfold key_stop.
    cbn [is_empty starts_with_char orb]. apply ceqb_neq. by intros <-.
  - split; [by apply (quoted_scan _ k)|by apply unquote_quoted].
Qed.

Lemma split_flow_key_text k kt r :
  flow_key k kt → split_flow_key (kt +:+ String ":" r) = Ok (k, r).
Proof.
  intros (Hk & Hc & Hne & _). unfold split_flow_key.
  assert (scan_line (λ _, true) (kt +:+ String ":" r) = Some (kt, r) ∧ unquote_token kt = k)
    as [-> Hu]; [|by rewrite Hu].
  assert (quoted k kt ∨ (kt = k ∧ contains_char ":" k = false ∧
          all_chars (λ c, plain_char c && is_graph c) k = true)) as [Hq|(-> & Hcol & Hb)].
  { destruct Hk as [_ Hb _|kt Hq]; [|by left]. destruct Hc as [Hc|Hq]; [by right|by left]. }
  - split; [by apply (quoted_scan _ k)|by apply unquote_quoted].
  - pose proof (bare_facts _ Hne Hb) as (_ & Hp & Hu). split; [|done].
    apply bare_scan; [done|by apply plain_not_quote| |done].
    intros a b ->. rewrite contains_char_app in Hcol. apply orb_false_iff in Hcol as [_ Hcol].
    by cbn in Hcol.
Qed.

(** *** Flow collections *)

Lemma split_flow_scalar_text t r :
  all_chars (λ c, negb (flow_end c)) t = true →
  (r = "" ∨ ∃ c s, r = String c s ∧ flow_end c = true) → split_flow_scalar (t +:+ r) = (t, r).
Proof.
  intros Ht Hr. induction t as [|c t IH].
  - rewrite app_nil_l_s. destruct Hr as [->|(c & s & -> & Hc)]; [done|]. cbn. by rewrite Hc.
  - cbn [all_chars] in Ht. apply andb_true_iff in Ht as [Hc Ht]. apply negb_true_iff in Hc.
    rewrite app_cons_s. cbn [split_flow_scalar]. by rewrite Hc, IH.
Qed.

Definition ends_value (r : string) : Prop := r = "" ∨ ∃ c s, r = String c s ∧ flow_end c = true.

Lemma flow_scalar_head s t : flow_scalar s t →
  first_graph t ∧ starts_with_char "{" t = false ∧ starts_with_char "[" t = false.
Proof.
  intros [[(-> & _ & [Hf _] & Hh)|Hq] _].
  - split; [done|]. destruct Hf as (c & s & -> & _). cbn [starts_with_char head_not] in *.
    rewrite !ceqb_neq. set_solver.
  - pose proof (quoted_edged _ _ Hq) as [Hf _]. split; [done|].
    destruct Hq as (q & [-> | ->] & -> & _); done.
Qed.

Lemma starts_with_char_app c s t : s ≠ "" → starts_with_char c (s +:+ t) = starts_with_char c s.
Proof. by destruct s. Qed.

Lemma first_graph_nonempty t : first_graph t → t ≠ "".
Proof. by intros (c & s & -> & _). Qed.

(** A scalar, possibly after a space. *)
Lemma flow_reads_scalar s t r n :
  flow_scalar s t → ends_value r →
  flow (S n) FValue (t +:+ r) = Ok (Y_Str s, r) ∧
  flow (S n) FValue (String " " t +:+ r) = Ok (Y_Str s, r).
Proof.
  intros Hs Hr. pose proof (flow_scalar_head _ _ Hs) as (Hf & H1 & H2).
  pose proof (first_graph_nonempty _ Hf) as Hne. destruct Hs as [Hs He]. cbn [flow]. split.
  - rewrite !starts_with_char_app, H1, H2 by done.
    rewrite split_flow_scalar_text by done. by rewrite (unquote_plain s).
  - assert (starts_with_char "{" (String " " t +:+ r) = false) as -> by done.
    assert (starts_with_char "[" (String " " t +:+ r) = false) as -> by done.
    rewrite (split_flow_scalar_text (String " " t)) by done. do 2 f_equal. f_equal.
    assert (unquote_token (String " " t) = unquote_token t) as ->; [|by apply unquote_plain].
    unfold unquote_token. assert (trim (String " " t) = trim t) as ->; [|done].
    unfold trim. rewrite (trim_start_unfold (String " " t)). done.
Qed.

Lemma flow_more n m mode t y r : n ≤ m → flow n mode t = Ok (y, r) → flow m mode t = Ok (y, r).
Proof. intros Hle Hn. rewrite (flow_mono n); [done|done|congruence]. Qed.

(** Spaces before a turn of the map loop are skipped. *)
Lemma flow_map_space n acc t : flow n (FMap acc) (String " " t) = flow n (FMap acc) t.
Proof. destruct n as [|n]; [done|]. cbn [flow]. by rewrite (trim_start_unfold (String " " t)). Qed.
Lemma flow_seq_space n acc t : flow n (FSeq acc) (String " " t) = flow n (FSeq acc) t.
Proof. destruct n as [|n]; [done|]. cbn [flow]. by rewrite (trim_start_unfold (String " " t)). Qed.

Lemma after_comma_more t : after_comma (", " +:+ t) = String " " t.
Proof.
  change (", " +:+ t) with (String "," (String " " t)). unfold after_comma.
  by rewrite trim_start_graph.
Qed.
Lemma after_comma_end c t : c = "}"%char ∨ c = "]"%char → after_comma (String c t) = String c t.
Proof.
  intros Hc. unfold after_comma. rewrite trim_start_graph by (by destruct Hc as [-> | ->]).
  by destruct Hc as [-> | ->].
Qed.

Lemma flow_key_head k kt : flow_key k kt → first_graph kt ∧ ∀ r, strip_prefix "}" (kt +:+ r) = None.
Proof.
  intros (Hk & _ & Hne & Hh). split.
  - destruct Hk as [_ Hb _|kt Hq]; [|by apply quoted_edged in Hq as [? _]].
    by apply bare_facts in Hb as [[? _] _].
  - intros r. destruct kt as [|c kt]; [done|]. rewrite app_cons_s.
    destruct (strip_prefix _ _) as [x|] eqn:Hp; [|done]. apply strip_prefix_Some in Hp.
    injection Hp as -> _. exfalso. apply Hh. constructor.
Qed.

(** One entry of a flow map. *)
Lemma flow_entry n acc k kt s t r :
  flow_key k kt → flow_scalar s t → ends_value r →
  flow (S (S n)) (FMap acc) (kt +:+ ": " +:+ t +:+ r) =
  flow (S n) (FMap (acc ++ [(k, Y_Str s)])) (after_comma r).
Proof.
  intros Hk Hs Hr. pose proof (flow_key_head _ _ Hk) as [Hf Hcl].
  change (flow (S (S n)) ?m ?t) with
    (let rest_trimmed := trim_start t in
     match strip_prefix "}" rest_trimmed with
     | Some after => Ok (Y_Map acc, after)
     | None =>
         '(key, rest_after_key) ← split_flow_key rest_trimmed;
         '(value, rest_after_value) ← flow (S n) FValue rest_after_key;
         flow (S n) (FMap (acc ++ [(key, value)])) (after_comma rest_after_value)
     end).
  cbv zeta. rewrite trim_start_first by by apply first_graph_app. rewrite Hcl.
  change (": " +:+ t +:+ r) with (String ":" (String " " t +:+ r)).
  rewrite (split_flow_key_text k) by done. cbn [mbind result_bind].
  pose proof (flow_reads_scalar s t r n Hs Hr) as [_ ->]. done.
Qed.

Lemma flow_map_end n acc r : flow (S n) (FMap acc) ("}" +:+ r) = Ok (Y_Map acc, r).
Proof. cbn [flow]. change ("}" +:+ r) with (String "}" r). by rewrite trim_start_graph. Qed.

Lemma map_reads es t :
  map_body es t → ∀ acc r, ∃ n, flow n (FMap acc) (t +:+ r) = Ok (Y_Map (acc ++ es), r).
Proof.
  induction 1 as [|k kt s t Hk Hs|k kt s t es rest Hk Hs Hne Hb IH]; intros acc r.
  - exists 1. by rewrite flow_map_end, app_nil_r.
  - exists 3. rewrite <- !app_assoc_s, (flow_entry _ _ k kt s) by (done || (right; by exists "}"%char, r)).
    change ("}" +:+ r) with (String "}" r). rewrite after_comma_end by by left.
    apply flow_map_end.
  - destruct (IH (acc ++ [(k, Y_Str s)]) r) as [n Hn]. exists (S (S n)).
    rewrite <- !app_assoc_s, (flow_entry _ _ k kt s) by (done || (right; by eexists ","%char, _)).
    rewrite after_comma_more, flow_map_space.
    rewrite <- (assoc_L (++)) in Hn. apply (flow_more n); [lia|done].
Qed.

Scheme flow_text_min := Minimality for flow_text Sort Prop
  with seq_body_min := Minimality for seq_body Sort Prop.
Combined Scheme flow_seq_ind from flow_text_min, seq_body_min.

Lemma flow_text_head y t : flow_text y t → first_graph t ∧ ∀ r, strip_prefix "]" (t +:+ r) = None.
Proof.
  destruct 1 as [s t Hs|es t _|items t _].
  - pose proof (flow_scalar_head _ _ Hs) as (Hf & _ & _). split; [done|]. intros r.
    destruct Hf as (c & u & -> & _), Hs as [_ Hs]. cbn [all_chars] in Hs.
    apply andb_true_iff in Hs as [Hc _]. rewrite app_cons_s.
    destruct (strip_prefix _ _) as [x|] eqn:Hp; [|done]. apply strip_prefix_Some in Hp.
    injection Hp as -> _. done.
  - split; [|done]. by exists "{"%char, t.
  - split; [|done]. by exists "["%char, t.
Qed.

(** One item of a flow sequence. *)
Lemma flow_item n acc y t r :
  flow_text y t → flow n FValue (t +:+ r) = Ok (y, r) →
  flow (S n) (FSeq acc) (t +:+ r) = flow n (FSeq (acc ++ [y])) (after_comma r).
Proof.
  intros Ht Hn. pose proof (flow_text_head _ _ Ht) as [Hf Hcl]. cbn [flow].
  rewrite trim_start_first by by apply first_graph_app. rewrite Hcl, Hn. done.
Qed.

Lemma flow_reads :
  (∀ y t, flow_text y t → ∀ r, ends_value r → ∃ n, flow n FValue (t +:+ r) = Ok (y, r)) ∧
  (∀ items t, seq_body items t → ∀ acc r,
     ∃ n, flow n (FSeq acc) (t +:+ r) = Ok (Y_Seq (acc ++ items), r)).
Proof.
  apply flow_seq_ind.
  - intros s t Hs r Hr. exists 1. by apply flow_reads_scalar.
  - intros es t Hb r _. destruct (map_reads es t Hb [] r) as [n Hn]. exists (S n).
    change (("{" +:+ t) +:+ r) with (String "{" (t +:+ r)). cbn [flow].
    assert (starts_with_char "{" (String "{" (t +:+ r)) = true) as -> by done.
    by rewrite substring_tail.
  - intros items t _ IH r _. destruct (IH [] r) as [n Hn]. exists (S n).
    change (("[" +:+ t) +:+ r) with (String "[" (t +:+ r)). cbn [flow].
    assert (starts_with_char "{" (String "[" (t +:+ r)) = false) as -> by done.
    assert (starts_with_char "[" (String "[" (t +:+ r)) = true) as -> by done.
    by rewrite substring_tail.
  - intros acc r. exists 1. cbn [flow]. change ("]" +:+ r) with (String "]" r).
    rewrite trim_start_graph by done. by rewrite app_nil_r.
  - intros y t Ht IH acc r. rewrite <- app_assoc_s. change ("]" +:+ r) with (String "]" r).
    destruct (IH (String "]" r)) as [n Hn]; [right; by exists "]"%char, r|]. exists (S (S n)).
    rewrite (flow_item _ _ y) by (done || (apply (flow_more n); [lia|done])).
    rewrite after_comma_end by by right. cbn [flow]. by rewrite trim_start_graph.
  - intros y t items rest Ht IH Hne _ IHs acc r. rewrite <- !app_assoc_s.
    destruct (IH (", " +:+ rest +:+ r)) as [n Hn]; [right; by eexists ","%char, _|].
    destruct (IHs (acc ++ [y]) r) as [m Hm]. exists (S (n + m)).
    rewrite (flow_item _ _ y) by (done || (apply (flow_more n); [lia|done])).
    rewrite after_comma_more, flow_seq_space. rewrite <- (assoc_L (++)) in Hm.
    apply (flow_more m); [lia|done].
Qed.

Lemma flow_collection_head y t :
  flow_text y t → (∀ s, y ≠ Y_Str s) → starts_with_char "{" t || starts_with_char "[" t = true.
Proof. by destruct 1 as [s t Hs| |]; [intros H; by destruct (H s)|..]. Qed.

Lemma parse_flow_text y t : flow_text y t → parse_flow t = Ok (y, "").
Proof.
  intros Ht. destruct (proj1 flow_reads y t Ht "") as [n Hn]; [by left|].
  rewrite app_nil_r_s in Hn. rewrite <- Hn. symmetry. apply parse_flow_decides. congruence.
Qed.

(** *** Clean and edged texts *)

Lemma flow_scalar_clean s t : flow_scalar s t → all_chars clean_char t = true.
Proof. intros [[(_ & Hp & _)|Hq] _]; [by apply plain_clean|by eapply quoted_clean]. Qed.

Lemma key_text_clean k kt : key_text k kt → edged kt ∧ all_chars clean_char kt = true.
Proof.
  intros [Hne Hb _|kt' Hq].
  - apply bare_facts in Hb as (He & Hp & _); [|done]. split; [done|by apply plain_clean].
  - split; [by eapply quoted_edged|by eapply quoted_clean].
Qed.

Lemma map_body_clean es t : map_body es t → last_graph t ∧ all_chars clean_char t = true.
Proof.
  induction 1 as [|k kt s t Hk Hs|k kt s t es rest Hk Hs Hne Hb [IH1 IH2]].
  - split; [by exists "", "}"%char|done].
  - split; [do 3 apply last_graph_app; by exists "", "}"%char|].
    destruct Hk as [Hk _]. apply key_text_clean in Hk as [_ Hk].
    by rewrite !all_chars_app, Hk, (flow_scalar_clean s t).
  - split; [by do 4 apply last_graph_app|].
    destruct Hk as [Hk _]. apply key_text_clean in Hk as [_ Hk].
    by rewrite !all_chars_app, Hk, (flow_scalar_clean s t), IH2.
Qed.

Lemma flow_text_clean :
  (∀ y t, flow_text y t → edged t ∧ all_chars clean_char t = true) ∧
  (∀ items t, seq_body items t → last_graph t ∧ all_chars clean_char t = true).
Proof.
  apply flow_seq_ind.
  - intros s t Hs. split; [|by eapply flow_scalar_clean].
    destruct Hs as [[(_ & _ & He & _)|Hq] _]; [done|by eapply quoted_edged].
  - intros es t Hb. apply map_body_clean in Hb as [Hl Hc]. split; [|done].
    split; [by exists "{"%char, t|by apply last_graph_app].
  - intros items t _ [Hl Hc]. split; [|done].
    split; [by exists "["%char, t|by apply last_graph_app].
  - split; [by exists "", "]"%char|done].
  - intros y t _ [_ Hc]. split; [apply last_graph_app; by exists "", "]"%char|].
    by rewrite all_chars_app, Hc.
  - intros y t items rest _ [_ Hc] _ _ [Hl Hr]. split; [by do 2 apply last_graph_app|].
    by rewrite !all_chars_app, Hc, Hr.
Qed.

Lemma clean_no_newline t : all_chars clean_char t = true → contains_char newline t = false.
Proof.
  intros Ht. by eapply contains_char_all; [|exact Ht].
Qed.

Lemma inline_text_reads y t :
  inline_text y t → parse_inline t = Ok y ∧ edged t ∧ all_chars clean_char t = true.
Proof.
  destruct 1 as [s t Hs|y t Hf Hy].
  - assert (edged t ∧ all_chars clean_char t = true ∧
            starts_with_char "{" t || starts_with_char "[" t = false) as (He & Hc & Hb).
    { destruct Hs as [(_ & Hp & He & Hh)|Hq].
      - split; [done|]. split; [by apply plain_clean|]. destruct t as [|c t]; [done|].
        cbn [starts_with_char head_not] in *. rewrite orb_false_iff, !ceqb_neq. set_solver.
      - split; [by eapply quoted_edged|]. split; [by eapply quoted_clean|].
        by destruct Hq as (q & [-> | ->] & -> & _). }
    split; [|done]. unfold parse_inline. rewrite Hb, clean_no_newline by done.
    by rewrite (unquote_plain s).
  - pose proof (proj1 flow_text_clean y t Hf) as [He Hc]. split; [|done]. unfold parse_inline.
    rewrite (flow_collection_head y) by done. rewrite (parse_flow_text y) by done. done.
Qed.

(** ** Reading blocks back *)

Record line_ok (t : string) : Prop := mk_line_ok {
  lo_edged : edged t; lo_clean : all_chars clean_char t = true;
  lo_head : head_not ["&"; "*"; "|"]%char t; lo_key : strip_prefix "? " t = None;
  lo_break : t ≠ "---"; lo_end : t ≠ "..." }.

Definition ends_before (i : nat) (tail : list line) : Prop :=
  match tail with (j, _) :: _ => j < i | [] => True end.

Lemma clean_split t u : all_chars clean_char (t +:+ u) = true ↔
  all_chars clean_char t = true ∧ all_chars clean_char u = true.
Proof. by rewrite all_chars_app, andb_true_iff. Qed.

(** What follows the key of a line. *)
Definition after_key (r : string) : Prop :=
  r = "" ∨ ∃ t, r = String " " t ∧ last_graph t ∧ all_chars clean_char t = true.

(** No key opens with a character and a space. *)
Lemma key_second k kt r a : key_text k kt → is_quote a = false →
  strip_prefix (String a " ") (kt +:+ String ":" r) = None.
Proof.
  intros Hk Ha. destruct (strip_prefix _ _) as [x|] eqn:Hp; [|done].
  apply strip_prefix_Some in Hp. exfalso. destruct Hk as [Hne Hb _|kt (q & Hq & -> & Hs)].
  - destruct k as [|c [|d k]]; [done|discriminate Hp|]. injection Hp as _ -> _.
    cbn [all_chars] in Hb. rewrite !andb_true_iff in Hb. by destruct Hb as (_ & (_ & Hd) & _).
  - destruct Hq as [-> | ->]; injection Hp; intros; subst; discriminate Ha.
Qed.

(** A key line is not a document marker: it holds a colon. *)
Lemma colon_not_marker kt r m :
  contains_char ":" m = false → kt +:+ String ":" r ≠ m.
Proof.
  intros Hm <-. rewrite contains_char_app in Hm. apply orb_false_iff in Hm as [_ Hm].
  by cbn in Hm.
Qed.

Lemma key_head k kt : key_text k kt → head_not ["&"; "*"; "|"]%char kt ∧ kt ≠ "".
Proof.
  destruct 1 as [Hne _ Hh|kt (q & Hq & -> & _)]; [done|].
  split; destruct Hq as [-> | ->]; cbn; try done; intros H;
    repeat (apply elem_of_cons in H as [H|H]; [done|]); by apply elem_of_nil in H.
Qed.

Lemma key_line_ok k kt r : key_text k kt → after_key r → line_ok (kt +:+ String ":" r).
Proof.
  intros Hk Hr. pose proof (key_text_clean _ _ Hk) as [[Hf _] Hc].
  pose proof (key_head _ _ Hk) as [Hh Hne]. constructor.
  - split; [by apply first_graph_app|]. apply last_graph_app.
    destruct Hr as [->|(t & -> & Hl & _)]; [by exists "", ":"%char|].
    change (String ":" (String " " t)) with (": " +:+ t). by apply last_graph_app.
  - apply clean_split. split; [done|]. destruct Hr as [->|(t & -> & _ & Ht)]; [done|]. cbn. by rewrite Ht.
  - by destruct kt.
  - by apply (key_second k).
  - by apply colon_not_marker.
  - by apply colon_not_marker.
Qed.

Lemma item_text_facts y t : item_text y t →
  edged t ∧ all_chars clean_char t = true ∧ split_key t = None ∧ parse_inline t = Ok y.
Proof.
  intros (s & -> & Hs).
  assert (inline_text (Y_Str s) t) as (Hp & He & Hc)%inline_text_reads
    by (constructor; destruct Hs as [[? _]|?]; auto).
  repeat (split; [done|]). split; [|done]. destruct Hs as [[_ ?]|(q & Hq & -> & Hs)]; [done|].
  unfold split_key. apply plain_not_quote in Hs.
  assert (∀ c, is_quote c = true → scan_key key_stop true (s +:+ String c "") = None) as Hscan.
  { intros c Hqc. clear -Hs Hqc. induction s as [|d s IH].
    - by rewrite app_nil_l_s.
    - cbn [all_chars] in Hs. apply andb_true_iff in Hs as [Hd Hs]. apply negb_true_iff in Hd.
      rewrite app_cons_s. cbn [scan_key]. rewrite Hd. cbn [negb]. by rewrite IH. }
  assert (scan_line key_stop (q +:+ s +:+ q) = None) as ->; [|done].
  assert (∀ c, is_quote c = true → scan_line key_stop (String c (s +:+ String c "")) = None) as H.
  { intros c Hc'. cbn [scan_line]. by rewrite Hc', Hscan. }
  destruct Hq as [-> | ->]; by apply H.
Qed.

Lemma item_line_ok y t : item_text y t → line_ok ("- " +:+ t).
Proof.
  intros ((_ & Hl) & Hc & _)%item_text_facts. constructor; try done.
  - split; [by exists "-"%char, (String " " t)|by apply last_graph_app].
  - cbn. intros H. repeat (apply elem_of_cons in H as [H|H]; [done|]); by apply elem_of_nil in H.
Qed.

Lemma inline_after_key y t : inline_text y t → after_key (String " " t).
Proof. intros (_ & [_ Hl] & Hc)%inline_text_reads. right. by exists t. Qed.

Lemma block_lines_ok i es ls : block_text i es ls → Forall (λ l : line, line_ok l.2) ls.
Proof.
  induction 1 as [i|i k kt y t es ls Hk Hy _ IH|i k kt es ls Hk _ IH
                 |i j k kt sub subls es ls Hk _ _ _ IHs _ IH|i j k kt items texts es ls Hk _ _ Hi _ IH].
  - constructor.
  - constructor; [|done]. apply (key_line_ok k); [done|by eapply inline_after_key].
  - constructor; [|done]. apply (key_line_ok k); [done|by left].
  - constructor; [apply (key_line_ok k); [done|by left]|]. by apply Forall_app.
  - constructor; [apply (key_line_ok k); [done|by left]|]. apply Forall_app. split; [|done].
    apply Forall_fmap. clear -Hi. induction Hi as [|y t items texts Hy _ IH]; constructor; [|done].
    by apply (item_line_ok y).
Qed.

(** *** The loops *)

Lemma is_item_key k kt r : key_text k kt → is_item (kt +:+ String ":" r) = false.
Proof.
  intros Hk. unfold is_item, starts_with. rewrite (key_second k) by done.
  rewrite bool_decide_eq_false_2 by by intros [? ?].
  apply bool_decide_eq_false_2. by apply colon_not_marker.
Qed.

(** One entry of a block map. *)
Lemma entry_turn n i acc k kt r rest :
  key_text k kt → after_key r →
  parse_entries (S n) i acc ((i, kt +:+ String ":" r) :: rest) =
    ('(node, rest) ←
       match (if is_empty (trim r) then None else Some (trim r)) with
       | Some inline => node ← parse_inline inline; Ok (node, rest)
       | None =>
           match rest with
           | (child, _) :: _ =>
               if (i <? child)%nat then parse_block_with (λ i, parse_entries n i []) child rest
               else Ok (Y_Str "", rest)
           | [] => Ok (Y_Str "", rest)
           end
       end;
     parse_entries n i (acc ++ [(k, node)]) rest).
Proof.
  intros Hk Hr. cbn [parse_entries]. rewrite Nat.ltb_irrefl.
  rewrite (split_key_text k); [done|done|]. by destruct Hr as [->|(t & -> & _)].
Qed.

Lemma ends_before_here i es ls tail :
  block_text i es ls → ends_before i tail →
  match ls ++ tail with (j, _) :: _ => (i <? j)%nat = false | [] => True end.
Proof.
  intros Hb Ht. assert (∀ j, j ≤ i → (i <? j)%nat = false) as H by (intros; apply Nat.ltb_ge; lia).
  destruct Hb; simpl; try (apply H; lia). destruct tail as [|[j t] tail]; [done|].
  apply H. simpl in Ht. lia.
Qed.

Lemma ends_before_sub i j es ls tail :
  i < j → block_text i es ls → ends_before i tail → ends_before j (ls ++ tail).
Proof.
  intros Hij Hb Ht. destruct Hb; simpl; try lia. destruct tail as [|[a t] tail]; simpl in *; lia.
Qed.

Lemma items_read j items texts tail acc :
  Forall2 item_text items texts → ends_before j tail →
  parse_items j acc (((λ t, (j, "- " +:+ t)) <$> texts) ++ tail) = Ok (Y_Seq (acc ++ items), tail).
Proof.
  intros Hi Ht. revert acc. induction Hi as [|y t items texts Hy _ IH]; intros acc.
  - rewrite app_nil_r. simpl. destruct tail as [|[i t] tail]; [done|]. simpl in *.
    by rewrite (proj2 (Nat.eqb_neq i j)) by lia.
  - rewrite fmap_cons. cbn [app parse_items]. rewrite Nat.eqb_refl.
    assert (is_item ("- " +:+ t) = true) as -> by (unfold is_item; by rewrite starts_with_app).
    cbn [negb orb]. rewrite strip_prefix_app. change (default "" (Some t)) with t.
    apply item_text_facts in Hy as (He & _ & Hk & Hp).
    rewrite (trim_edged _ He). assert (is_empty t = false) as ->.
    { destruct He as [(c & s & -> & _) _]. done. }
    rewrite bool_decide_eq_false_2 by (rewrite Hk; by intros [? ?]).
    rewrite Hp. cbn [mbind result_bind]. rewrite IH. by rewrite <- (assoc_L (++)).
Qed.

(** A nested map block is read by the loop of maps. *)
Lemma sub_block f j sub subls more :
  sub ≠ [] → block_text j sub subls →
  ∃ t tl, subls ++ more = (j, t) :: tl ∧
          parse_block_with f j (subls ++ more) = f j (subls ++ more).
Proof.
  intros Hne Hb.
  assert (∃ k kt r tl, key_text k kt ∧ subls ++ more = (j, kt +:+ String ":" r) :: tl)
    as (k & kt & r & tl & Hk & ->).
  { destruct Hb as [|i k kt y t es ls Hk|i k kt es ls Hk|i l k kt s1 s2 es ls Hk|i l k kt its txs es ls Hk];
      [done|..]; eexists k, kt, _, _; (split; [done|reflexivity]). }
  eexists _, tl. split; [reflexivity|]. cbn [parse_block_with].
  by rewrite (is_item_key k), andb_false_r, Nat.leb_refl.
Qed.

(** A nested sequence block is read by the loop of items. *)
Lemma sub_items f j items texts more :
  items ≠ [] → Forall2 item_text items texts → ends_before j more →
  ∃ t tl, ((λ t, (j, "- " +:+ t)) <$> texts) ++ more = (j, t) :: tl ∧
    parse_block_with f j (((λ t, (j, "- " +:+ t)) <$> texts) ++ more) = Ok (Y_Seq items, more).
Proof.
  intros Hne Hi He. pose proof (items_read j items texts more [] Hi He) as Hr.
  destruct Hi as [|y t items texts Hy Hi]; [done|]. rewrite fmap_cons in *.
  eexists _, _. split; [reflexivity|]. cbn [app] in *. cbn [parse_block_with].
  rewrite Nat.eqb_refl. assert (is_item ("- " +:+ t) = true) as -> by (unfold is_item; by rewrite starts_with_app).
  exact Hr.
Qed.

Lemma block_reads i es ls :
  block_text i es ls → ∀ tail acc n, ends_before i tail → length (ls ++ tail) < n →
  parse_entries n i acc (ls ++ tail) = Ok (Y_Map (acc ++ es), tail).
Proof.
  induction 1 as [i|i k kt y t es ls Hk Hy Hb IH|i k kt es ls Hk Hb IH
                 |i j k kt sub subls es ls Hk Hij Hne Hsub IHs Hb IH
                 |i j k kt items texts es ls Hk Hij Hne Hi Hb IH];
    intros tail acc [|n] Ht Hn; try (simpl in Hn; lia).
  - rewrite app_nil_r. simpl. destruct tail as [|[j t] tail]; [done|]. simpl in Ht.
    by rewrite (proj2 (Nat.ltb_lt j i)).
  - pose proof (inline_text_reads _ _ Hy) as (Hp & He & _). cbn [app].
    change (kt +:+ ": " +:+ t) with (kt +:+ String ":" (String " " t)).
    rewrite (entry_turn _ _ _ k); [|done|by eapply inline_after_key].
    assert (trim (String " " t) = t) as ->.
    { unfold trim. rewrite (trim_start_unfold (String " " t)). by apply trim_edged. }
    assert (is_empty t = false) as -> by by destruct He as [(c & s & -> & _) _].
    rewrite Hp. cbn [mbind result_bind]. rewrite IH; [|done|simpl in Hn; lia].
    by rewrite <- (assoc_L (++)).
  - cbn [app]. rewrite (entry_turn _ _ _ k); [|done|by left]. cbn [is_empty trim trim_start trim_end].
    pose proof (ends_before_here _ _ _ _ Hb Ht) as Hh.
    assert (parse_entries n i (acc ++ [(k, Y_Str "")]) (ls ++ tail) =
            Ok (Y_Map (acc ++ (k, Y_Str "") :: es), tail)) as Hrest.
    { rewrite IH; [by rewrite <- (assoc_L (++))|done|simpl in Hn; lia]. }
    destruct (ls ++ tail) as [|[a b] more]; [exact Hrest|]. by rewrite Hh.
  - cbn [app]. rewrite (entry_turn _ _ _ k); [|done|by left]. cbn [is_empty trim trim_start trim_end].
    rewrite <- (assoc_L (++)). simpl in Hn. rewrite !length_app in Hn.
    destruct (sub_block (λ i, parse_entries n i []) j sub subls (ls ++ tail) Hne Hsub)
      as (t & tl & Heq & Hsb).
    rewrite IHs in Hsb; [|by eapply ends_before_sub|rewrite !length_app; lia].
    rewrite Heq in *. rewrite (proj2 (Nat.ltb_lt i j)), Hsb by done. cbn [mbind result_bind].
    rewrite IH; [by rewrite <- (assoc_L (++))|done|rewrite length_app; lia].
  - cbn [app]. rewrite (entry_turn _ _ _ k); [|done|by left]. cbn [is_empty trim trim_start trim_end].
    rewrite <- (assoc_L (++)). simpl in Hn. rewrite !length_app in Hn.
    destruct (sub_items (λ i, parse_entries n i []) j items texts (ls ++ tail) Hne Hi)
      as (t & tl & Heq & Hsb); [by eapply ends_before_sub|].
    rewrite Heq in *. rewrite (proj2 (Nat.ltb_lt i j)), Hsb by done. cbn [mbind result_bind].
    rewrite IH; [by rewrite <- (assoc_L (++))|done|rewrite length_app; lia].
Qed.

(** ** Reading documents back *)

Lemma trim_start_spaces n t : trim_start (spaces n +:+ t) = trim_start t.
Proof.
  induction n as [|n IH]; [by rewrite app_nil_l_s|]. cbn [spaces]. rewrite app_cons_s.
  rewrite trim_start_unfold. exact IH.
Qed.

Lemma trim_end_spaces n c t : is_graph c = true →
  trim_end (spaces n +:+ String c t) = spaces n +:+ String c (trim_end t).
Proof.
  intros Hc. induction n as [|n IH].
  - rewrite !app_nil_l_s. cbn [trim_end]. by rewrite trim_start_graph.
  - cbn [spaces]. rewrite !app_cons_s. cbn [trim_end].
    destruct (is_empty _) eqn:He; [|by rewrite IH].
    apply is_empty_true in He. by apply (trim_start_graph_in (String " " (spaces n)) c t) in He.
Qed.

Lemma length_spaces n t : strlen (spaces n +:+ t) = n + strlen t.
Proof. induction n as [|n IH]; [done|]. cbn [spaces]. rewrite app_cons_s. cbn. unfold strlen in *. by rewrite IH. Qed.

Lemma spaces_not_marker n t m : t ≠ m → head_not [" "]%char m → spaces n +:+ t ≠ m.
Proof.
  intros Ht Hm. destruct n as [|n]; [by rewrite app_nil_l_s|]. cbn [spaces]. rewrite app_cons_s.
  intros <-. apply Hm. constructor.
Qed.

Lemma contains_str_char c pat t :
  contains_char c pat = true → contains_char c t = false → contains_str pat t = false.
Proof.
  intros Hp Ht. unfold contains_str. apply bool_decide_eq_false_2. intros [[a b] Hs].
  apply split_once_Some in Hs as ->. by rewrite !contains_char_app, Hp, orb_true_r in Ht.
Qed.

(** A line of a block is kept as it stands. *)
Lemma doc_line_keeps docs cur i t :
  line_ok t →
  doc_line (mk_doc_state docs cur None) (spaces i +:+ t) =
  Ok (mk_doc_state docs (cur ++ [(i, t)]) None).
Proof.
  intros [[Hf Hl] Hc Hh Hk Hb He]. unfold doc_line.
  rewrite trim_end_last by by apply last_graph_app.
  assert (∀ m, t ≠ m → m = "---" ∨ m = "..." → bool_decide (spaces i +:+ t = m) = false) as Hm.
  { intros m Hne Hm. apply bool_decide_eq_false_2, spaces_not_marker; [done|].
    destruct Hm as [-> | ->]; cbn; intros H; (apply elem_of_cons in H as [H|H]; [done|]);
      by apply elem_of_nil in H. }
  rewrite !Hm by auto. cbn [orb ds_pending ds_documents ds_current].
  rewrite trim_start_spaces, trim_start_first by done.
  assert (is_empty t || starts_with_char "#" t = false) as ->.
  { destruct Hf as (c & s & -> & _). cbn [is_empty starts_with_char orb].
    cbn [all_chars] in Hc. apply andb_true_iff in Hc as [Hc _]. unfold clean_char in Hc.
    apply andb_true_iff in Hc as [_ Hc]. apply negb_true_iff, ceqb_neq in Hc. by apply ceqb_neq. }
  unfold plain_line. rewrite Hk.
  rewrite (contains_str_char "#" " #") by (done || by eapply contains_char_all; [|exact Hc]).
  assert (starts_with_char "&" t || starts_with_char "*" t || starts_with_char "|" t = false) as ->.
  { destruct t as [|c t]; [done|]. cbn [starts_with_char head_not] in *.
    rewrite !orb_false_iff, !ceqb_neq. set_solver. }
  rewrite length_spaces. replace (i + strlen t - strlen t) with i by lia. done.
Qed.

(** Blank lines and comments are passed over. *)
Lemma doc_line_skips st r : skipped r → doc_line st r = Ok st.
Proof.
  intros Hr. unfold doc_line.
  assert (∃ m, trim_end r = m ∧ m ≠ "---" ∧ m ≠ "..." ∧
          is_empty (trim_start m) || starts_with_char "#" (trim_start m) = true)
    as (m & -> & H1 & H2 & ->);
    [|by rewrite (bool_decide_eq_false_2 _ H1), (bool_decide_eq_false_2 _ H2)].
  destruct Hr as [[n ->]|(n & c & -> & _)].
  - exists "". split; [|done]. induction n as [|n IH]; [done|]. cbn [spaces trim_end].
    pose proof (trim_start_spaces (S n) "") as Hs. rewrite app_nil_r_s in Hs. cbn [spaces] in Hs.
    by rewrite Hs.
  - change ("#" +:+ c) with (String "#" c). rewrite trim_end_spaces by done.
    eexists. split; [reflexivity|]. rewrite trim_start_spaces, trim_start_graph by done.
    split; [|split; [|done]]; apply spaces_not_marker; done || (cbn; intros H;
      (apply elem_of_cons in H as [H|H]; [done|]); by apply elem_of_nil in H).
Qed.

Lemma raws_read ls raws docs cur rest :
  raw_lines ls raws → Forall (λ l : line, line_ok l.2) ls →
  fold_res doc_line (mk_doc_state docs cur None) (raws ++ rest) =
  fold_res doc_line (mk_doc_state docs (cur ++ ls) None) rest.
Proof.
  intros Hr. revert cur. induction Hr as [|i t ls raws Hr IH|r ls raws Hs Hr IH]; intros cur Hok.
  - by rewrite app_nil_r.
  - apply Forall_cons in Hok as [Ht Hok]. cbn [app fold_res]. rewrite doc_line_keeps by done.
    cbn [mbind result_bind]. rewrite IH by done. by rewrite <- (assoc_L (++)).
  - cbn [app fold_res]. rewrite doc_line_skips by done. by apply IH.
Qed.

Definition layout (es : list (string * Yaml)) (ls : list line) : Prop :=
  es ≠ [] ∧ block_text 0 es ls.

Lemma flush_layout es ls : layout es ls → flush ls = [ls].
Proof. intros [Hne Hb]. by destruct Hb. Qed.

Lemma marker_line docs cur rest :
  fold_res doc_line (mk_doc_state docs cur None) ("---" :: rest) =
  fold_res doc_line (mk_doc_state (docs ++ flush cur) [] None) rest.
Proof. done. Qed.

(** The lines of each document of a file. *)
Lemma documents_read docs raws : document_text docs raws → ∀ ds0,
  ∃ lss cur, fold_res doc_line (mk_doc_state ds0 [] None) raws =
               Ok (mk_doc_state (ds0 ++ lss) cur None) ∧
             Forall2 layout docs (lss ++ flush cur).
Proof.
  induction 1 as [docs raws _ IH|es ls raws Hne Hb Hr|es ls raws docs rest Hne Hb Hr _ IH]; intros ds0.
  - rewrite marker_line. simpl flush. rewrite app_nil_r. apply IH.
  - exists [], ls. rewrite app_nil_r. assert (layout es ls) as Hl by done.
    rewrite (flush_layout _ _ Hl). split; [|by repeat constructor].
    rewrite <- (app_nil_r raws), (raws_read ls) by (done || by eapply block_lines_ok). done.
  - destruct (IH (ds0 ++ [ls])) as (lss & cur & Hf & Hl). exists (ls :: lss), cur.
    assert (layout es ls) as Hlay by done. split; [|by constructor].
    rewrite (raws_read ls) by (done || by eapply block_lines_ok).
    rewrite marker_line, app_nil_l, (flush_layout _ _ Hlay), Hf. by rewrite <- (assoc_L (++)).
Qed.

(** *** Lines *)

Lemma spaces_print n : all_chars is_print (spaces n) = true.
Proof. by induction n. Qed.

Lemma raw_lines_print ls raws :
  raw_lines ls raws → Forall (λ l : line, line_ok l.2) ls →
  Forall (λ r, all_chars is_print r = true) raws.
Proof.
  induction 1 as [|i t ls raws Hr IH|r ls raws Hs Hr IH]; intros Hok; [constructor|..].
  - apply Forall_cons in Hok as [Ht Hok]. constructor; [|by apply IH].
    rewrite all_chars_app, spaces_print. eapply all_chars_impl; [|apply (lo_clean _ Ht)].
    intros c. unfold clean_char. by intros [? _]%andb_true_iff.
  - constructor; [|by apply IH]. destruct Hs as [[n ->]|(n & c & -> & Hc)]; [apply spaces_print|].
    by rewrite !all_chars_app, spaces_print, Hc.
Qed.

Lemma document_print docs raws :
  document_text docs raws → Forall (λ r, all_chars is_print r = true) raws.
Proof.
  induction 1 as [docs raws _ IH|es ls raws Hne Hb Hr|es ls raws docs rest Hne Hb Hr _ IH].
  - by constructor.
  - eapply raw_lines_print; [done|by eapply block_lines_ok].
  - apply Forall_app. split; [|by constructor].
    eapply raw_lines_print; [done|by eapply block_lines_ok].
Qed.

Lemma lines_unlines ls : Forall (λ r, all_chars is_print r = true) ls → lines (unlines ls) = ls.
Proof.
  intros H. unfold lines, unlines. rewrite split_concat_full.
  - induction H as [|r ls Hr _ IH]; [done|]. rewrite !fmap_cons, IH, line_text_full; [done|].
    intros x ->. rewrite all_chars_app in Hr. apply andb_true_iff in Hr as [_ Hr]. done.
  - apply Forall_fmap. eapply Forall_impl; [exact H|]. intros r Hr. exists r. split; [done|].
    by eapply contains_char_all; [|exact Hr].
Qed.

Lemma parse_block_layout es ls : layout es ls → fst <$> parse_block 0 ls = Ok (Y_Map es).
Proof.
  intros [Hne Hb]. unfold parse_block.
  destruct (sub_block (λ i, parse_entries (S (length ls)) i []) 0 es ls [] Hne Hb) as (_ & _ & _ & Hs).
  rewrite app_nil_r in Hs. rewrite Hs. rewrite <- (app_nil_r ls) at 2.
  rewrite (block_reads 0 es ls) by (done || (rewrite app_nil_r; lia)). done.
Qed.

Lemma blocks_read docs lss :
  Forall2 layout docs lss → mapM (λ ls, fst <$> parse_block 0 ls) lss = Ok (Y_Map <$> docs).
Proof.
  induction 1 as [|es ls docs lss Hes _ IH]; [done|]. rewrite fmap_cons. cbn [mapM]. rewrite (parse_block_layout es) by done. cbn [mbind result_bind]. by rewrite IH.
Qed.



(** ** Where the subset departs from YAML *)

(** A comma inside quotes ends the scalar: two items come back instead of one,
    each with a stray quote, and nothing is reported. *)
Example quoted_comma_is_misread :
  parse_documents "cpu: ['a, b']" = Ok [Y_Map [("cpu", Y_Seq [Y_Str "'a"; Y_Str "b'"])]].
Proof. vm_compute. reflexivity. Qed.

(** A top-level sequence hides whatever follows it. *)
Example lines_after_items_are_dropped :
  parse_documents "- a
packages:
  b: c" = Ok [Y_Seq [Y_Str "a"]].
Proof. vm_compute. reflexivity. Qed.
