(* ===== verification/Hoist.v ===== *)
(** * [src/hoist.rs]: hoisted placement of a physical [node_modules] tree

    [Placer] assigns every (name, version) required by a dependent a directory.
    The specification is Node's module lookup on the resulting tree,
    [node_lookup]: the nearest [node_modules] directory on the dependent's
    ancestor chain that holds the name. *)

From S2P Require Export Str.
From Stdlib Require Import Ascii.

(** ** The code *)

Definition parent_package (path : string) : option string :=
  if starts_with "node_modules/" path then fst <$> rsplit_once "/node_modules/" path
  else None.

(** [occupied]: node_modules directory -> (name -> version). *)
Record Placer := mk_Placer { occupied : gmap string (gmap string string) }.

Definition Placer_default : Placer := mk_Placer ∅.

(** The [while let Some(package) = current] loop: the dependent and its parent
    packages, innermost first.  Each parent is a strict prefix, so the length of
    the path bounds the number of iterations. *)
Fixpoint ancestors_fuel (fuel : nat) (path : string) : list string :=
  match fuel with
  | 0 => []
  | S fuel => path :: match parent_package path with
                      | Some p => ancestors_fuel fuel p
                      | None => []
                      end
  end.
Definition ancestors (path : string) : list string := ancestors_fuel (S (strlen path)) path.

Definition nm_dir (package : string) : string := package +:+ "/node_modules".
Definition root_dir : string := "node_modules".

Definition place_chain (dependent_path : string) : list string :=
  if is_empty dependent_path then [root_dir]
  else (nm_dir <$> ancestors dependent_path) ++ [root_dir].

Definition slot (p : Placer) (dir name : string) : option string :=
  occupied p !! dir ≫= λ slots, slots !! name.

(** What the [for dir in &chain] loop found. *)
Inductive scan := Shared (dir : string) | Blocked | Free.

Fixpoint scan_chain (p : Placer) (name version : string) (chain : list string) : scan :=
  match chain with
  | [] => Free
  | dir :: chain =>
      match slot p dir name with
      | Some occ => if bool_decide (occ = version) then Shared dir else Blocked
      | None => scan_chain p name version chain
      end
  end.

Definition in_dir (dir name : string) : string := dir +:+ "/" +:+ name.

Definition claim (p : Placer) (target name version : string) : Placer :=
  mk_Placer (<[target := <[name := version]> (default ∅ (occupied p !! target))]> (occupied p)).

Definition place (p : Placer) (name version dependent_path : string) : Placer * string :=
  let chain := place_chain dependent_path in
  let root := default root_dir (last chain) in
  let own := default root_dir (head chain) in
  match scan_chain p name version chain with
  | Shared dir => (p, in_dir dir name)
  | Blocked => (claim p own name version, in_dir own name)
  | Free => (claim p root name version, in_dir root name)
  end.

(** ** Specification: Node's lookup *)

Fixpoint first_slot (p : Placer) (name : string) (chain : list string)
    : option (string * string) :=
  match chain with
  | [] => None
  | dir :: chain =>
      match slot p dir name with
      | Some v => Some (in_dir dir name, v)
      | None => first_slot p name chain
      end
  end.

(** Where [require(name)] inside [dependent_path] lands, and the version there. *)
Definition node_lookup (p : Placer) (dependent_path name : string) : option (string * string) :=
  first_slot p name (place_chain dependent_path).

(** [dep'] is the package [dep] or lies below it. *)
Definition within (dep' dep : string) : Prop := dep = "" ∨ dep ∈ ancestors dep'.

(** ** Lemmas *)

Lemma parent_package_shorter path p : parent_package path = Some p → strlen p < strlen path.
Proof.
  unfold parent_package. destruct (starts_with _ _); [|done].
  intros ([a b] & Hs & ->)%fmap_Some. apply rsplit_once_Some in Hs as ->.
  unfold strlen. rewrite !length_app_s. simpl. lia.
Qed.

(** Fuel beyond the length of the path changes nothing. *)
Lemma ancestors_fuel_enough n m path :
  strlen path < n → strlen path < m → ancestors_fuel n path = ancestors_fuel m path.
Proof.
  revert m path. induction n as [|n IH]; intros [|m] path Hn Hm; try lia. simpl.
  destruct (parent_package path) as [p|] eqn:Hp; [|done].
  apply parent_package_shorter in Hp. f_equal. apply IH; lia.
Qed.

Lemma ancestors_unfold path :
  ancestors path = path :: match parent_package path with Some p => ancestors p | None => [] end.
Proof.
  unfold ancestors at 1. simpl. destruct (parent_package path) as [p|] eqn:Hp; [|done].
  apply parent_package_shorter in Hp. f_equal. apply ancestors_fuel_enough; lia.
Qed.

Lemma elem_of_ancestors_self path : path ∈ ancestors path.
Proof. rewrite ancestors_unfold. set_solver. Qed.

Lemma ancestors_ind (P : string → Prop) :
  (∀ path, (∀ p, parent_package path = Some p → P p) → P path) → ∀ path, P path.
Proof.
  intros H path. remember (strlen path) as n eqn:Hn. revert path Hn.
  induction (lt_wf n) as [n _ IH]. intros path ->. apply H. intros p Hp.
  eapply IH; [|done]. by apply parent_package_shorter.
Qed.

Lemma ancestors_trans a b c : a ∈ ancestors b → b ∈ ancestors c → a ∈ ancestors c.
Proof.
  revert a b. induction c as [c IH] using ancestors_ind. intros a b Ha Hb.
  rewrite (ancestors_unfold c) in Hb. apply elem_of_cons in Hb as [->|Hb]; [done|].
  destruct (parent_package c) as [p|] eqn:Hp; [|set_solver].
  rewrite (ancestors_unfold c), Hp. apply elem_of_cons. right. by eapply IH.
Qed.

Lemma ancestors_length a b : a ∈ ancestors b → strlen a ≤ strlen b.
Proof.
  revert a. induction b as [b IH] using ancestors_ind. intros a Ha.
  rewrite ancestors_unfold in Ha. apply elem_of_cons in Ha as [->|Ha]; [done|].
  destruct (parent_package b) as [p|] eqn:Hp; [|set_solver].
  pose proof (parent_package_shorter _ _ Hp). specialize (IH p eq_refl a Ha). lia.
Qed.

Lemma nm_dir_inj a b : nm_dir a = nm_dir b → a = b.
Proof.
  unfold nm_dir. intros H.
  assert (strip_suffix "/node_modules" (a +:+ "/node_modules") = Some a) as Ha
    by by apply strip_suffix_Some.
  rewrite H in Ha. apply strip_suffix_Some in Ha.
  assert (strip_suffix "/node_modules" (b +:+ "/node_modules") = Some b) as Hb
    by by apply strip_suffix_Some.
  assert (strip_suffix "/node_modules" (b +:+ "/node_modules") = Some a) as Hb'
    by by apply strip_suffix_Some.
  congruence.
Qed.

Lemma nm_dir_not_root a : nm_dir a ≠ root_dir.
Proof.
  unfold nm_dir, root_dir. intros H. apply (f_equal String.length) in H.
  rewrite length_app_s in H. simpl in H. lia.
Qed.

Lemma place_chain_last d : last (place_chain d) = Some root_dir.
Proof. unfold place_chain. destruct (is_empty d); [done|]. by rewrite last_snoc. Qed.

Lemma place_chain_head d :
  head (place_chain d) = Some (if is_empty d then root_dir else nm_dir d).
Proof.
  unfold place_chain. destruct (is_empty d); [done|]. by rewrite ancestors_unfold.
Qed.

Lemma elem_of_place_chain_own d d' :
  d ≠ "" → nm_dir d ∈ place_chain d' → within d' d.
Proof.
  unfold place_chain. intros Hd. destruct (is_empty d').
  - intros ?%list_elem_of_singleton. by destruct (nm_dir_not_root d).
  - rewrite elem_of_app, list_elem_of_fmap, list_elem_of_singleton.
    intros [(x & Hx%nm_dir_inj & Hin)|H]; [subst; by right|].
    by destruct (nm_dir_not_root d).
Qed.

Lemma slot_claim p t n v dir name :
  slot (claim p t n v) dir name =
    if bool_decide (dir = t ∧ name = n) then Some v else slot p dir name.
Proof.
  unfold slot, claim. simpl. case_bool_decide as H.
  - destruct H as [-> ->]. rewrite lookup_insert_eq. simpl. by rewrite lookup_insert_eq.
  - destruct (decide (dir = t)) as [->|].
    + rewrite lookup_insert_eq. simpl. rewrite lookup_insert_ne by naive_solver.
      by destruct (occupied p !! t).
    + by rewrite lookup_insert_ne.
Qed.

(** The scan against the lookup it stands for. *)
Lemma scan_chain_spec p name version chain :
  match scan_chain p name version chain with
  | Shared dir => first_slot p name chain = Some (in_dir dir name, version)
  | Blocked => ∃ q v, first_slot p name chain = Some (q, v) ∧ v ≠ version
  | Free => ∀ dir, dir ∈ chain → slot p dir name = None
  end.
Proof.
  induction chain as [|dir chain IH]; simpl; [set_solver|].
  destruct (slot p dir name) as [occ|] eqn:Hs.
  - case_bool_decide; [by subst|]. eauto.
  - destruct (scan_chain p name version chain); set_solver.
Qed.

Lemma first_slot_claim_head p t n v dir chain :
  dir = t → first_slot (claim p t n v) n (dir :: chain) = Some (in_dir t n, v).
Proof. intros ->. simpl. rewrite slot_claim, bool_decide_eq_true_2 by done. done. Qed.

Lemma first_slot_claim_free p t n v chain :
  (∀ dir, dir ∈ chain → slot p dir n = None) → t ∈ chain →
  first_slot (claim p t n v) n chain = Some (in_dir t n, v).
Proof.
  induction chain as [|dir chain IH]; intros Hfree Hin; [set_solver|].
  destruct (decide (dir = t)) as [->|Hne]; [by apply first_slot_claim_head|].
  simpl. rewrite slot_claim, bool_decide_eq_false_2 by naive_solver.
  rewrite (Hfree dir) by set_solver. apply IH; set_solver.
Qed.

(** A claim elsewhere leaves a successful lookup alone. *)
Lemma first_slot_claim_other p t n v name chain :
  name ≠ n ∨ t ∉ chain → first_slot (claim p t n v) name chain = first_slot p name chain.
Proof.
  intros H. induction chain as [|dir chain IH]; [done|]. simpl.
  rewrite slot_claim, bool_decide_eq_false_2 by set_solver.
  rewrite IH by set_solver. done.
Qed.


Lemma root_dir_last d : ∃ pre, place_chain d = pre ++ [root_dir] ∧ root_dir ∉ pre.
Proof.
  unfold place_chain. destruct (is_empty d).
  - exists []. set_solver.
  - eexists. split; [done|]. rewrite list_elem_of_fmap. intros (x & Hx & _).
    by destruct (nm_dir_not_root x).
Qed.

Lemma first_slot_app p name l1 l2 :
  first_slot p name (l1 ++ l2) =
    match first_slot p name l1 with Some x => Some x | None => first_slot p name l2 end.
Proof. induction l1 as [|d l1 IH]; [done|]. simpl. by destruct (slot p d name). Qed.

Lemma node_lookup_claim_root p n v d name x :
  slot p root_dir n = None → node_lookup p d name = Some x →
  node_lookup (claim p root_dir n v) d name = Some x.
Proof.
  intros Hroot. unfold node_lookup. destruct (root_dir_last d) as (pre & -> & Hpre).
  rewrite !first_slot_app, (first_slot_claim_other p _ _ _ _ pre) by by right.
  destruct (first_slot p name pre); [done|]. simpl. rewrite slot_claim.
  case_bool_decide as H; [|done]. destruct H as [_ ->]. by rewrite Hroot.
Qed.

Lemma place_cases p n v d :
  (∃ dir, place p n v d = (p, in_dir dir n) ∧ node_lookup p d n = Some (in_dir dir n, v)) ∨
  (∃ q w own, place p n v d = (claim p own n v, in_dir own n) ∧
     own = (if is_empty d then root_dir else nm_dir d) ∧
     node_lookup p d n = Some (q, w) ∧ w ≠ v) ∨
  (place p n v d = (claim p root_dir n v, in_dir root_dir n) ∧
     ∀ dir, dir ∈ place_chain d → slot p dir n = None).
Proof.
  unfold place, node_lookup. rewrite place_chain_head, place_chain_last. simpl.
  pose proof (scan_chain_spec p n v (place_chain d)) as Hs.
  destruct (scan_chain p n v (place_chain d)) as [dir| |].
  - left. by exists dir.
  - destruct Hs as (q & w & ? & ?). right; left. by eexists q, w, _.
  - right; right. done.
Qed.

Lemma root_dir_in_chain d : root_dir ∈ place_chain d.
Proof. destruct (root_dir_last d) as (pre & -> & _). set_solver. Qed.

Lemma place_lookup_self p n v d p' path :
  place p n v d = (p', path) → node_lookup p' d n = Some (path, v).
Proof.
  destruct (place_cases p n v d) as
    [(dir & -> & ?)|[(q & w & own & -> & -> & _ & _)|[-> Hfree]]]; intros [= <- <-].
  - done.
  - unfold node_lookup. pose proof (place_chain_head d) as Hh.
    destruct (place_chain d) as [|dir chain]; [done|]. injection Hh as ->.
    by apply first_slot_claim_head.
  - apply first_slot_claim_free; [done|apply root_dir_in_chain].
Qed.

Lemma place_lookup_frame p n v d p' path d' n' x :
  place p n v d = (p', path) →
  n' ≠ n ∨ ¬ within d' d ∨ (d' = d ∧ x.2 = v) →
  node_lookup p d' n' = Some x → node_lookup p' d' n' = Some x.
Proof.
  intros Hplace Hcond Hx. destruct (decide (n' = n)) as [->|Hne].
  2:{ destruct (place_cases p n v d) as
        [(? & Hp & _)|[(?&?&?& Hp & _)|[Hp _]]]; rewrite Hp in Hplace; injection Hplace as <- <-;
      [done|..]; unfold node_lookup; by rewrite first_slot_claim_other by by left. }
  destruct Hcond as [?|[Hw|[-> Hv]]]; [done|..].
  - destruct (place_cases p n v d) as
      [(dir & Hp & _)|[(q & w & own & Hp & -> & _ & _)|[Hp Hfree]]];
      rewrite Hp in Hplace; injection Hplace as <- <-; [done|..].
    + destruct (is_empty d) eqn:Hd.
      { apply is_empty_true in Hd as ->. destruct Hw. by left. }
      unfold node_lookup. rewrite first_slot_claim_other; [done|]. right.
      intros Hin%elem_of_place_chain_own; [done|]. by apply is_empty_false.
    + apply node_lookup_claim_root; [|done]. apply Hfree, root_dir_in_chain.
  - destruct x as [q w]; simpl in *; subst w. pose proof (place_lookup_self _ _ _ _ _ _ Hplace).
    destruct (place_cases p n v d) as
      [(dir & Hp & ?)|[(q' & w & own & Hp & _ & ? & ?)|[Hp Hfree]]];
      rewrite Hp in Hplace; injection Hplace as <- <-; [done|congruence|].
    apply node_lookup_claim_root; [|done]. apply Hfree, root_dir_in_chain.
Qed.

(** ** A sequence of placements *)

Record request := mk_request { req_name : string; req_version : string; req_dependent : string }.

Definition place_req (p : Placer) (r : request) : Placer * string :=
  place p (req_name r) (req_version r) (req_dependent r).

Fixpoint place_all (p : Placer) (rs : list request) : Placer * list string :=
  match rs with
  | [] => (p, [])
  | r :: rs => let '(p, path) := place_req p r in
               let '(p, paths) := place_all p rs in (p, path :: paths)
  end.

(** The order the level-by-level walk guarantees: when a dependent asks for a
    name, no package strictly below it has asked for that name yet, and the
    dependent itself only with the same version. *)
Definition earlier_compatible (r1 r2 : request) : Prop :=
  req_name r1 = req_name r2 → within (req_dependent r1) (req_dependent r2) →
  req_dependent r1 = req_dependent r2 ∧ req_version r1 = req_version r2.

#[global] Instance within_dec dep' dep : Decision (within dep' dep).
Proof. unfold within. apply _. Defined.
#[global] Instance earlier_compatible_dec r1 r2 : Decision (earlier_compatible r1 r2).
Proof. unfold earlier_compatible. apply _. Defined.

Definition resolves (p : Placer) (r : request) (path : string) : Prop :=
  node_lookup p (req_dependent r) (req_name r) = Some (path, req_version r).

Lemma resolves_place_all p rs r path :
  resolves p r path → Forall (earlier_compatible r) rs →
  resolves (place_all p rs).1 r path.
Proof.
  revert p. induction rs as [|r' rs IH]; intros p Hr Hc; [done|]. simpl.
  apply Forall_cons in Hc as [Hr' Hc].
  destruct (place_req p r') as [p1 path1] eqn:Hp1.
  specialize (IH p1). destruct (place_all p1 rs) as [p2 paths]. simpl in *.
  apply IH; [|done]. unfold resolves, place_req in *.
  eapply place_lookup_frame; [done| |done]. simpl.
  destruct (decide (req_name r = req_name r')) as [Hn|]; [|by left]. right.
  unfold earlier_compatible in Hr'. destruct (is_empty (req_dependent r')) eqn:He.
  - apply is_empty_true in He. right. apply Hr'; [done|by left].
  - destruct (decide (req_dependent r' ∈ ancestors (req_dependent r))) as [Hin|Hin].
    + right. apply Hr'; [done|by right].
    + left. intros [?|?]; [|done]. by apply is_empty_false in He.
Qed.

(** Immediate correctness of [Placer::place]: whatever is already placed, the path
    returned for (name, version) required by a dependent is where Node's lookup
    from that dependent lands after the call, at exactly that version; no
    directory outside the dependent's own ancestor chain is touched. *)
Theorem place_resolves p name version dependent :
  let '(p', path) := place p name version dependent in
  node_lookup p' dependent name = Some (path, version) ∧
  (∀ dir n, dir ∉ place_chain dependent ∨ n ≠ name → slot p' dir n = slot p dir n) ∧
  ∃ dir, dir ∈ place_chain dependent ∧ path = in_dir dir name ∧
         slot p' dir name = Some version.
Proof.
  destruct (place p name version dependent) as [p' path] eqn:Hp.
  pose proof (place_lookup_self _ _ _ _ _ _ Hp) as Hself. split; [done|].
  assert (∃ dir, dir ∈ place_chain dependent ∧ path = in_dir dir name ∧
                 slot p' dir name = Some version) as Hdir.
  { unfold node_lookup in Hself. revert Hself. generalize (place_chain dependent) as chain.
    induction chain as [|dir chain IH]; [done|]. simpl.
    destruct (slot p' dir name) as [w|] eqn:Hw.
    - intros [= <- ->]. exists dir. split; [set_solver|done].
    - intros (dir' & ? & ?)%IH. exists dir'. split; [set_solver|done]. }
  split; [|done]. intros dir n Hout.
  assert (∃ own, own ∈ place_chain dependent ∧ (p' = p ∨ p' = claim p own name version))
    as (own & Hin & [->| ->]).
  { destruct (place_cases p name version dependent) as
      [(dir' & H & _)|[(q & w & own & H & -> & _ & _)|[H _]]];
      rewrite H in Hp; injection Hp as <- <-.
    - exists root_dir. split; [apply root_dir_in_chain|by left].
    - eexists. split; [|by right]. pose proof (place_chain_head dependent) as Hh.
      apply head_Some_elem_of in Hh. done.
    - exists root_dir. split; [apply root_dir_in_chain|by right]. }
  - done.
  - rewrite slot_claim. case_bool_decide; [|done]. naive_solver.
Qed.

Lemma place_all_resolves_at rs p paths i r path p0 :
  StronglySorted earlier_compatible rs →
  place_all p0 rs = (p, paths) →
  rs !! i = Some r → paths !! i = Some path →
  resolves p r path.
Proof.
  revert p paths i p0.
  induction rs as [|r1 rs IH]; intros p paths i p0 Hc Hall Hr Hpath; [done|].
  simpl in Hall. destruct (place_req p0 r1) as [p1 path1] eqn:Hp1.
  destruct (place_all p1 rs) as [p2 paths2] eqn:Hp2. injection Hall as <- <-.
  destruct i as [|i]; simpl in *; simplify_eq.
  - pose proof (resolves_place_all p1 rs r path) as H. rewrite Hp2 in H. apply H.
    + by apply place_lookup_self in Hp1.
    + by apply StronglySorted_inv in Hc as [_ ?].
  - eapply (IH p2 paths2 i p1); [|done..]. by apply StronglySorted_inv in Hc as [? _].
Qed.

Lemma place_all_app p rs rs' :
  place_all p (rs ++ rs') =
    let '(p1, paths) := place_all p rs in
    let '(p2, paths') := place_all p1 rs' in (p2, paths ++ paths').
Proof.
  revert p. induction rs as [|r rs IH]; intros p; simpl; [by destruct (place_all p rs')|].
  destruct (place_req p r) as [p1 path]. rewrite IH.
  destruct (place_all p1 rs) as [p2 paths]. by destruct (place_all p2 rs').
Qed.

Lemma length_place_all p rs : length (place_all p rs).2 = length rs.
Proof.
  revert p. induction rs as [|r rs IH]; intros p; simpl; [done|].
  destruct (place_req p r) as [p1 path]. specialize (IH p1).
  destruct (place_all p1 rs). simpl in *. by rewrite IH.
Qed.

(** ** Paths of plain names *)

(** A name without a [node_modules] component of its own, as every npm name. *)
Definition plain_name (n : string) : Prop :=
  rsplit_once "/node_modules/" ("/node_modules/" +:+ n) = Some ("", n).
#[global] Instance plain_name_dec n : Decision (plain_name n).
Proof. unfold plain_name. apply _. Defined.

Lemma rsplit_nm_dir a n :
  plain_name n → rsplit_once "/node_modules/" (in_dir (nm_dir a) n) = Some (a, n).
Proof.
  intros Hn. unfold in_dir, nm_dir. rewrite <- app_assoc_s.
  change ("/node_modules" +:+ "/" +:+ n) with ("/node_modules/" +:+ n).
  rewrite (rsplit_once_app _ a _ "" n) by done. by rewrite app_nil_r_s.
Qed.

Lemma rsplit_root n : plain_name n → rsplit_once "/node_modules/" (in_dir root_dir n) = None.
Proof.
  intros Hn. destruct (rsplit_once _ _) as [[a b]|] eqn:H; [|done].
  apply (rsplit_once_app _ "/") in H. unfold plain_name in Hn.
  change ("/" +:+ in_dir root_dir n) with ("/node_modules/" +:+ n) in H. rewrite H in Hn.
  done.
Qed.

Definition nm_shape (dir : string) : Prop := dir = root_dir ∨ ∃ a, dir = nm_dir a.

Lemma in_dir_inj dir dir' n n' :
  nm_shape dir → nm_shape dir' → plain_name n → plain_name n' →
  in_dir dir n = in_dir dir' n' → dir = dir' ∧ n = n'.
Proof.
  intros [-> | [a ->]] [-> | [b ->]] Hn Hn' Heq.
  - split; [done|]. unfold in_dir, root_dir in Heq. by injection Heq.
  - apply (f_equal (rsplit_once "/node_modules/")) in Heq.
    by rewrite rsplit_root, rsplit_nm_dir in Heq.
  - apply (f_equal (rsplit_once "/node_modules/")) in Heq.
    by rewrite rsplit_root, rsplit_nm_dir in Heq.
  - apply (f_equal (rsplit_once "/node_modules/")) in Heq.
    rewrite !rsplit_nm_dir in Heq by done. by injection Heq as -> ->.
Qed.

Lemma place_chain_shape d dir : dir ∈ place_chain d → nm_shape dir.
Proof.
  unfold place_chain. destruct (is_empty d).
  - intros ->%list_elem_of_singleton. by left.
  - rewrite elem_of_app, list_elem_of_fmap, list_elem_of_singleton.
    intros [(a & -> & _)| ->]; [right; by eexists|by left].
Qed.

Lemma ancestors_in_dir_root n : plain_name n → ancestors (in_dir root_dir n) = [in_dir root_dir n].
Proof.
  intros Hn. rewrite ancestors_unfold. unfold parent_package.
  destruct (starts_with _ _); [|done]. by rewrite rsplit_root.
Qed.

Lemma ancestors_in_dir_nm a n b :
  plain_name n → b ∈ ancestors (in_dir (nm_dir a) n) → b = in_dir (nm_dir a) n ∨ b ∈ ancestors a.
Proof.
  intros Hn. rewrite ancestors_unfold. unfold parent_package.
  destruct (starts_with _ _); [|rewrite list_elem_of_singleton; by left].
  rewrite rsplit_nm_dir by done. simpl. rewrite elem_of_cons. tauto.
Qed.

(** A successful lookup names its directory. *)
Lemma node_lookup_slot p d n path v :
  node_lookup p d n = Some (path, v) →
  ∃ dir, dir ∈ place_chain d ∧ path = in_dir dir n ∧ slot p dir n = Some v.
Proof.
  unfold node_lookup. generalize (place_chain d) as chain.
  induction chain as [|dir chain IH]; [done|]. simpl.
  destruct (slot p dir n) as [w|] eqn:Hw.
  - intros [= <- ->]. exists dir. set_solver.
  - intros (dir' & ? & ?)%IH. exists dir'. set_solver.
Qed.

(** C5.  Every edge keeps its exact version: in any sequence of placements in which
    no dependent asks for a name after a package strictly below it has (the
    order of a level-by-level walk), the tree built by the whole sequence
    resolves every request at the path that was returned for it, at the
    requested version. *)
Theorem place_all_resolves rs p paths i r path :
  StronglySorted earlier_compatible rs →
  place_all Placer_default rs = (p, paths) →
  rs !! i = Some r → paths !! i = Some path →
  resolves p r path.
Proof. apply place_all_resolves_at. Qed.

Lemma place_all_resolves_witness :
  let rs := [mk_request "a" "1.0.0" ""; mk_request "b" "1.0.0" "";
             mk_request "a" "2.0.0" "node_modules/b"] in
  ∃ p, place_all Placer_default rs =
         (p, ["node_modules/a"; "node_modules/b"; "node_modules/b/node_modules/a"]) ∧
       resolves p (mk_request "a" "1.0.0" "") "node_modules/a".
Proof.
  set (rs := [mk_request "a" "1.0.0" ""; mk_request "b" "1.0.0" "";
              mk_request "a" "2.0.0" "node_modules/b"]).
  exists (place_all Placer_default rs).1. split; [vm_compute; reflexivity|].
  refine (place_all_resolves rs _ ["node_modules/a"; "node_modules/b";
    "node_modules/b/node_modules/a"] 0 _ _ _ _ eq_refl eq_refl).
  - decided.
  - vm_compute. reflexivity.
Defined.
