(* ===== verification/Worklist.v ===== *)
(** * How long a walk over a graph without cycles takes

    The importers walk their dependency graph with a queue: each turn takes an
    entry and may append its children.  With a rank that every edge lowers, the
    number of turns an entry costs is finite and each turn lowers the total. *)

From S2P Require Export Prelude.

Definition weight_sum (f : nat → nat) (l : list nat) : nat := foldr (λ j n, f j + n) 0 l.

Lemma weight_sum_app f l l' : weight_sum f (l ++ l') = weight_sum f l + weight_sum f l'.
Proof. unfold weight_sum. induction l as [|j l IH]; simpl; [done|]. rewrite IH. lia. Qed.

Lemma weight_sum_ext f g l : (∀ j, j ∈ l → f j = g j) → weight_sum f l = weight_sum g l.
Proof.
  unfold weight_sum. induction l as [|j l IH]; intros H; simpl; [done|].
  rewrite (H j) by by left. rewrite IH; [done|]. intros k Hk. apply H. by right.
Qed.

Section worklist.
Variables (children : nat → list nat) (rank : nat → nat).

(** The number of turns an edge to an entry costs, down to a depth. *)
Fixpoint cost (depth i : nat) : nat :=
  match depth with
  | 0 => 1
  | S depth => S (weight_sum (cost depth) (children i))
  end.

Definition price (i : nat) : nat := cost (rank i) i.

Hypothesis Hrank : ∀ i j, j ∈ children i → rank j < rank i.

Lemma cost_enough depth i : rank i ≤ depth → cost depth i = price i.
Proof using Hrank.
  unfold price. revert i. induction depth as [depth IH] using lt_wf_ind. intros i Hd.
  destruct (children i) as [|j0 l] eqn:Hc.
  { destruct depth, (rank i); simpl; by rewrite ?Hc. }
  assert (0 < rank i) as Hr.
  { pose proof (Hrank i j0). rewrite Hc in H. specialize (H ltac:(by left)). lia. }
  destruct depth as [|depth]; [lia|]. destruct (rank i) as [|r] eqn:Hri; [lia|]. simpl. f_equal.
  apply weight_sum_ext. intros j Hj. pose proof (Hrank i j Hj).
  rewrite (IH depth) by lia. destruct (decide (r < S depth)) as [Hlt|]; [|lia].
  by rewrite (IH r) by lia.
Qed.

Lemma price_pos i : 0 < price i.
Proof using. unfold price. destruct (rank i); simpl; lia. Qed.

(** An entry costs one turn more than its children. *)
Lemma price_children i : S (weight_sum price (children i)) = price i.
Proof using Hrank.
  unfold price at 2. destruct (children i) as [|j l] eqn:Hc.
  - destruct (rank i); simpl; by rewrite ?Hc.
  - destruct (rank i) as [|r] eqn:Hr.
    { pose proof (Hrank i j). rewrite Hc in H. specialize (H ltac:(by left)). lia. }
    simpl cost. rewrite Hc. f_equal. apply weight_sum_ext. intros k Hk.
    symmetry. apply cost_enough. rewrite <- Hc in Hk. pose proof (Hrank i k Hk). lia.
Qed.
End worklist.
