(* ===== verification/ResolverModel.v ===== *)
(** * [src/resolver/model.rs]: values shared by the resolver stages

    Ordered maps are [gmap string]; ordered sets of strings are [gset string]. *)

From S2P Require Export Str.

Inductive DependencyKind := Prod | Dev | Optional | Peer | PeerOptional | WorkspaceKind.

Inductive PackageSource :=
  | PSRegistry (registry : string)
  | PSWorkspace (relative_path : string).

Record TargetPlatform := mk_TargetPlatform {
  tp_os : string; tp_cpu : string; tp_libc : option string }.

Record PlatformConstraints := mk_PlatformConstraints {
  pc_os : gset string; pc_cpu : gset string; pc_libc : gset string }.

Record ProviderIdentity := mk_ProviderIdentity {
  pi_name : string; pi_version : string; pi_source : PackageSource }.

Abbreviation PeerContext := (gmap string ProviderIdentity).

Record PackageIdentity := mk_PackageIdentity {
  id_name : string; id_version : string; id_source : PackageSource;
  id_peer_context : PeerContext }.

Record DependencyEdge := mk_DependencyEdge {
  de_kind : DependencyKind; de_name : string; de_spec : string; de_target : PackageIdentity }.

Record ResolutionDiagnostic := mk_ResolutionDiagnostic {
  rd_code : string; rd_package : option string; rd_message : string }.

Definition ResolutionDiagnostic_new (code message : string) : ResolutionDiagnostic :=
  mk_ResolutionDiagnostic code None message.
Definition with_package (d : ResolutionDiagnostic) (package : string) : ResolutionDiagnostic :=
  mk_ResolutionDiagnostic (rd_code d) (Some package) (rd_message d).

#[global] Instance DependencyKind_eq_dec : EqDecision DependencyKind.
Proof. solve_decision. Defined.
#[global] Instance PackageSource_eq_dec : EqDecision PackageSource.
Proof. solve_decision. Defined.
#[global] Instance TargetPlatform_eq_dec : EqDecision TargetPlatform.
Proof. solve_decision. Defined.
#[global] Instance ProviderIdentity_eq_dec : EqDecision ProviderIdentity.
Proof. solve_decision. Defined.
#[global] Instance PackageIdentity_eq_dec : EqDecision PackageIdentity.
Proof. solve_decision. Defined.
#[global] Instance DependencyEdge_eq_dec : EqDecision DependencyEdge.
Proof. solve_decision. Defined.
#[global] Instance ResolutionDiagnostic_eq_dec : EqDecision ResolutionDiagnostic.
Proof. solve_decision. Defined.
