(* ===== verification/Platform.v ===== *)
(** * [src/resolver/platform.rs]: npm platform filtering *)

From S2P Require Export ResolverModel.

(** ** The code *)

Definition OPTIONAL_PLATFORM_SKIP_CODE : string := "OPTIONAL_PLATFORM_SKIPPED".

Inductive PackageReachability := OptionalOnly | Required.

Inductive PlatformDisposition :=
  | Compatible
  | SkipOptional (d : ResolutionDiagnostic).

Inductive PlatformDimension := Os | Cpu | Libc.

#[global] Instance PlatformDimension_eq_dec : EqDecision PlatformDimension.
Proof. solve_decision. Defined.

Record PlatformError := Unsupported {
  pe_package : string; pe_target : string; pe_declared : string; pe_mismatched : string }.

(** The [for declaration in declarations] loop of [matches_list]: [None] is the
    early [return false], otherwise (positives, positive_match). *)
Fixpoint scan_declarations (value : string) (ds : list string) (positives : nat)
    (positive_match : bool) : option (nat * bool) :=
  match ds with
  | [] => Some (positives, positive_match)
  | d :: ds =>
      match strip_prefix "!" d with
      | Some blocked =>
          if bool_decide (value = blocked) then None
          else scan_declarations value ds positives positive_match
      | None =>
          scan_declarations value ds (S positives)
            (positive_match || bool_decide (value = d))
      end
  end.

Definition matches_list (value : string) (declarations : gset string) : bool :=
  let ds := bs_list declarations in
  if bool_decide (ds = [])
     || (bool_decide (length ds = 1) && bool_decide (head ds = Some "any")) then true
  else match scan_declarations value ds 0 false with
       | None => false
       | Some (positives, positive_match) => bool_decide (positives = 0) || positive_match
       end.

(** The dimensions that fail, in [BTreeSet] order ([Os] < [Cpu] < [Libc]). *)
Definition mismatched_dimensions (c : PlatformConstraints) (t : TargetPlatform)
    : list PlatformDimension :=
  (if negb (matches_list (tp_os t) (pc_os c)) then [Os] else []) ++
  (if negb (matches_list (tp_cpu t) (pc_cpu c)) then [Cpu] else []) ++
  (if negb (bool_decide (pc_libc c = ∅)) then
     let libc := if bool_decide (tp_os t = "linux") then tp_libc t else None in
     match libc with
     | None => [Libc]
     | Some value => if negb (matches_list value (pc_libc c)) then [Libc] else []
     end
   else []).

Definition display_list (values : gset string) : string :=
  "[" +:+ join "," (bs_list values) +:+ "]".

Definition display_target (t : TargetPlatform) : string :=
  "os=" +:+ tp_os t +:+ ", cpu=" +:+ tp_cpu t +:+ ", libc=" +:+
  default "<unavailable>" (tp_libc t).

Definition display_constraints (c : PlatformConstraints) : string :=
  "os=" +:+ display_list (pc_os c) +:+ ", cpu=" +:+ display_list (pc_cpu c) +:+
  ", libc=" +:+ display_list (pc_libc c).

Definition display_dimensions (ds : list PlatformDimension) : string :=
  join "," ((λ d, match d with Os => "os" | Cpu => "cpu" | Libc => "libc" end) <$> ds).

Definition PlatformError_to_string (e : PlatformError) : string :=
  "package " +:+ pe_package e +:+ " does not support target " +:+ pe_target e +:+
  "; declared constraints: " +:+ pe_declared e +:+ "; mismatched: " +:+ pe_mismatched e.

Definition check_package_platform (package : string) (c : PlatformConstraints)
    (t : TargetPlatform) (reachability : PackageReachability)
    : result PlatformError PlatformDisposition :=
  let mismatched := mismatched_dimensions c t in
  if bool_decide (mismatched = []) then Ok Compatible
  else
    let error := Unsupported package (display_target t) (display_constraints c)
                   (display_dimensions mismatched) in
    match reachability with
    | Required => Err error
    | OptionalOnly => Ok (SkipOptional (with_package
        (ResolutionDiagnostic_new OPTIONAL_PLATFORM_SKIP_CODE (PlatformError_to_string error))
        package))
    end.

(** ** Specification: npm's [checkList] over a set of declarations *)

(** [value] is allowed: no [!value] entry, and if there is any positive entry,
    [value] is one of them; an empty or [{any}] declaration allows everything. *)
Definition allowed (value : string) (ds : gset string) : Prop :=
  ds = ∅ ∨ ds = {["any"]} ∨
  (("!" +:+ value) ∉ ds ∧
   ((∀ d, d ∈ ds → starts_with "!" d = true) ∨
    (value ∈ ds ∧ starts_with "!" value = false))).

(** The target satisfies every dimension; a libc declaration needs a Linux
    target with a known libc. *)
Definition supports (c : PlatformConstraints) (t : TargetPlatform) : Prop :=
  allowed (tp_os t) (pc_os c) ∧ allowed (tp_cpu t) (pc_cpu c) ∧
  (pc_libc c = ∅ ∨
   ∃ libc, tp_os t = "linux" ∧ tp_libc t = Some libc ∧ allowed libc (pc_libc c)).

(** ** Lemmas *)

Lemma scan_declarations_spec value ds n b :
  scan_declarations value ds n b =
    if bool_decide ("!" +:+ value ∈ ds) then None
    else Some (n + length (filter (λ d, starts_with "!" d = false) ds),
               b || bool_decide (value ∈ ds ∧ starts_with "!" value = false)).
Proof.
  revert n b. induction ds as [|d ds IH]; intros n b; cbn [scan_declarations].
  - rewrite !bool_decide_eq_false_2 by set_solver. by rewrite Nat.add_0_r, orb_false_r.
  - rewrite filter_cons. destruct (strip_prefix "!" d) as [blocked|] eqn:Hd.
    + apply strip_prefix_Some in Hd as ->.
      rewrite decide_False by (rewrite starts_with_app; discriminate).
      destruct (decide (value = blocked)) as [<-|Hv].
      { rewrite (bool_decide_eq_true_2 (value = value)) by done.
        rewrite bool_decide_eq_true_2; [done|]. set_solver. }
      rewrite (bool_decide_eq_false_2 (value = blocked)), IH by done.
      rewrite (bool_decide_ext ("!" +:+ value ∈ ("!" +:+ blocked) :: ds)
                 ("!" +:+ value ∈ ds)) by (rewrite elem_of_cons; naive_solver).
      destruct (bool_decide ("!" +:+ value ∈ ds)); [done|]. do 3 f_equal. apply bool_decide_ext.
      rewrite elem_of_cons. split; [naive_solver|]. intros [[->|?] Hs]; [|done].
      rewrite starts_with_app in Hs. discriminate.
    + assert (starts_with "!" d = false) as Hd' by (unfold starts_with; by rewrite Hd).
      rewrite decide_True by done. rewrite IH.
      rewrite (bool_decide_ext ("!" +:+ value ∈ d :: ds) ("!" +:+ value ∈ ds)).
      2:{ rewrite elem_of_cons. split; [|naive_solver].
          intros [Hv|?]; [|done]. subst d. by rewrite strip_prefix_app in Hd. }
      destruct (bool_decide ("!" +:+ value ∈ ds)); [done|]. simpl. f_equal. f_equal; [lia|].
      rewrite <- orb_assoc. f_equal. apply eq_true_iff_eq.
      rewrite orb_true_iff, !bool_decide_eq_true, elem_of_cons.
      naive_solver.
Qed.

Lemma matches_list_spec value ds : matches_list value ds = true ↔ allowed value ds.
Proof.
  unfold matches_list, allowed. rewrite scan_declarations_spec.
  assert (bs_list ds = [] ↔ ds = ∅) as Hnil.
  { split; [|by intros ->]. intros H. apply set_eq. intros x.
    rewrite <- elem_of_bs_list, H. set_solver. }
  assert (length (bs_list ds) = 1 ∧ head (bs_list ds) = Some "any" ↔ ds = {["any"]}) as Hany.
  { split; [|intros ->; done]. intros [Hl Hh]. destruct (bs_list ds) as [|x [|]] eqn:Hb; try done.
    injection Hh as ->. apply set_eq. intros x. rewrite <- elem_of_bs_list, Hb. set_solver. }
  rewrite <- Hnil, <- Hany. case_bool_decide as H1; simpl; [naive_solver|].
  destruct (bool_decide (length (bs_list ds) = 1) && bool_decide (head (bs_list ds) = Some "any"))
    eqn:H2.
  { apply andb_true_iff in H2 as [?%bool_decide_eq_true ?%bool_decide_eq_true]. naive_solver. }
  assert (¬ (length (bs_list ds) = 1 ∧ head (bs_list ds) = Some "any")).
  { intros [? ?]. rewrite !bool_decide_eq_true_2 in H2 by done. done. }
  clear H2. destruct (decide ("!" +:+ value ∈ bs_list ds)) as [Hneg|Hneg].
  { rewrite bool_decide_eq_true_2 by done. rewrite elem_of_bs_list in Hneg. naive_solver. }
  rewrite (bool_decide_eq_false_2 ("!" +:+ value ∈ _)) by done.
  rewrite elem_of_bs_list in Hneg. simpl.
  rewrite orb_true_iff, !bool_decide_eq_true, elem_of_bs_list.
  assert (length (filter (λ d, starts_with "!" d = false) (bs_list ds)) = 0 ↔
          ∀ d, d ∈ ds → starts_with "!" d = true) as Hpos.
  { rewrite length_zero_iff_nil. split.
    - intros Hf d Hd. apply not_false_iff_true. intros Hs.
      assert (d ∈ filter (λ d, starts_with "!" d = false) (bs_list ds)) as Hin
        by (apply list_elem_of_filter; split; [done|by apply elem_of_bs_list]).
      rewrite Hf in Hin. set_solver.
    - intros Hd. apply elem_of_nil_inv. intros d [Hs Hin]%list_elem_of_filter.
      rewrite elem_of_bs_list in Hin. rewrite (Hd d Hin) in Hs. done. }
  rewrite Hpos. clear Hpos Hnil Hany. split.
  - intros Ha. right; right. by split.
  - by intros [?|[?|[_ Ha]]].
Qed.

Lemma mismatched_dimensions_nil c t : mismatched_dimensions c t = [] ↔ supports c t.
Proof.
  unfold mismatched_dimensions, supports. rewrite <- !matches_list_spec.
  destruct (matches_list (tp_os t) (pc_os c)); simpl; [|by split; [|intros [? _]]].
  destruct (matches_list (tp_cpu t) (pc_cpu c)); simpl; [|by split; [|intros (_ & ? & _)]].
  destruct (decide (pc_libc c = ∅)) as [He|He].
  { rewrite bool_decide_eq_true_2 by done. simpl. tauto. }
  rewrite bool_decide_eq_false_2 by done. simpl. setoid_rewrite <- matches_list_spec.
  destruct (decide (tp_os t = "linux")) as [Ho|Ho].
  2:{ rewrite bool_decide_eq_false_2 by done.
      split; [done|]. by intros (_ & _ & [?|(l & ? & _)]). }
  rewrite bool_decide_eq_true_2 by done. destruct (tp_libc t) as [l|].
  2:{ split; [done|]. by intros (_ & _ & [?|(l & _ & ? & _)]). }
  destruct (matches_list l (pc_libc c)) eqn:Hm; simpl.
  - split; [intros _; split_and!; [done..|]; right; by exists l|done].
  - split; [done|]. intros (_ & _ & [?|(l' & _ & [= <-] & ?)]); [done|congruence].
Qed.

(** ** Properties *)

(** [check_package_platform] is npm's rule, on every branch: it answers
    [Compatible] exactly when the target supports all three dimensions; an
    unsupported package is an error naming the package when a required path
    reaches it, and a diagnostic with the stable code and the package's name
    when every path is optional. *)
Theorem check_package_platform_spec package c t r :
  (check_package_platform package c t r = Ok Compatible ↔ supports c t) ∧
  (supports c t ∨
     match r with
     | Required => ∃ e, check_package_platform package c t r = Err e ∧ pe_package e = package
     | OptionalOnly => ∃ d, check_package_platform package c t r = Ok (SkipOptional d) ∧
         rd_code d = OPTIONAL_PLATFORM_SKIP_CODE ∧ rd_package d = Some package
     end).
Proof.
  unfold check_package_platform. rewrite <- mismatched_dimensions_nil.
  case_bool_decide; [naive_solver|]. split; [by destruct r|].
  right. destruct r; eauto.
Qed.
