(* ===== verification/Semver.v ===== *)
(** * The [semver] crate as an interface

    Versions and version requirements belong to a third-party crate, so they are
    a type class: the operations the program calls, and the documented laws it
    relies on.  [Mini] is a small concrete instance (numeric triples) at which
    the witnesses are evaluated; it is not a model of the crate. *)

From S2P Require Export Str.
From Stdlib Require Import Ascii.

(** The public fields of [semver::Comparator] the program reads. *)
Record comparator := mk_comparator {
  cmp_major : N; cmp_minor : option N; cmp_patch : option N }.

Class Semver := {
  Version : Type;
  VersionReq : Type;
  version_parse : string → result string Version;
  version_to_string : Version → string;
  version_leb : Version → Version → bool;
  version_new : N → N → N → Version;
  req_parse : string → result string VersionReq;
  req_to_string : VersionReq → string;
  req_matches : VersionReq → Version → bool;
  req_comparators : VersionReq → list comparator;
  #[global] Version_eq_dec :: EqDecision Version;
  #[global] VersionReq_eq_dec :: EqDecision VersionReq;
}.

Class SemverLaws (S : Semver) : Prop := {
  (** [Version] implements [Ord]. *)
  version_leb_total v w : version_leb v w = true ∨ version_leb w v = true;
  version_leb_trans u v w :
    version_leb u v = true → version_leb v w = true → version_leb u w = true;
  (** [Display] and [FromStr] are inverse on versions. *)
  version_parse_display v : version_parse (version_to_string v) = Ok v;
  (** A printed version starts with a digit and uses only the characters of the
      semver grammar: no white space, no [@]. *)
  version_display_graph v : all_chars is_graph (version_to_string v) = true;
  version_display_no_at v : contains_char "@" (version_to_string v) = false;
  version_display_digit v : ∃ c s, version_to_string v = String c s ∧ is_ascii_digit c = true;
  (** [VersionReq::parse("")] is an error. *)
  req_parse_empty : ∃ e, req_parse "" = Err e;
}.

Section parse_ok.
Context `{Semver}.
(** [Version::parse(s).ok()]. *)
Definition version_of (s : string) : option Version := ok (version_parse s).
End parse_ok.

(** ** A concrete instance *)

Module Mini.
Record triple := mk { major : N; minor : N; patch : N }.
#[global] Instance triple_eq_dec : EqDecision triple.
Proof. solve_decision. Defined.

Definition to_string (v : triple) : string :=
  pretty (major v) +:+ String "." (pretty (minor v) +:+ String "." (pretty (patch v))).

Definition number (s : string) : option N := if is_empty s then None else digits_N 0 s.

Definition parse (s : string) : result string triple :=
  match split_char "." s with
  | [a; b; c] =>
      match number a, number b, number c with
      | Some a, Some b, Some c => Ok (mk a b c)
      | _, _, _ => Err "unexpected character"
      end
  | _ => Err "unexpected end of input"
  end.

Definition leb (v w : triple) : bool :=
  (major v <? major w)%N || (major v =? major w)%N &&
  ((minor v <? minor w)%N || (minor v =? minor w)%N && (patch v <=? patch w)%N).

Inductive op := Any | Exact | Caret | AtLeast | Below.
#[global] Instance op_eq_dec : EqDecision op.
Proof. solve_decision. Defined.

Definition req1 := (op * triple)%type.

Definition parse1 (s : string) : result string req1 :=
  let num o s := v ← parse s; Ok (o, v) in
  match s with
  | "*" => Ok (Any, mk 0 0 0)
  | String "^" s => num Caret s
  | String ">" (String "=" s) => num AtLeast s
  | String "<" s => num Below s
  | String "=" s => num Exact s
  | "" => Err "empty string, expected a semver version"
  | _ => num Caret s
  end.

Definition parse_req (s : string) : result string (list req1) :=
  traverse_res parse1 (split_str ", " s).

Definition matches1 (r : req1) (v : triple) : bool :=
  let '(o, w) := r in
  match o with
  | Any => true
  | Exact => bool_decide (v = w)
  | Caret => leb w v && (major v =? major w)%N
  | AtLeast => leb w v
  | Below => negb (leb w v)
  end.

Definition op_string (o : op) : string :=
  match o with Any => "*" | Exact => "=" | Caret => "^" | AtLeast => ">=" | Below => "<" end.

Definition show1 (r : req1) : string :=
  match r.1 with Any => "*" | o => op_string o +:+ to_string r.2 end.

#[export] Instance semver : Semver := {
  Version := triple;
  VersionReq := list req1;
  version_parse := parse;
  version_to_string := to_string;
  version_leb := leb;
  version_new := mk;
  req_parse := parse_req;
  req_to_string r := join ", " (show1 <$> r);
  req_matches r v := forallb (λ r1, matches1 r1 v) r;
  req_comparators r :=
    (λ r1 : req1, mk_comparator (major r1.2) (Some (minor r1.2)) (Some (patch r1.2))) <$> r;
}.

Lemma number_pretty n : number (pretty n) = Some n.
Proof.
  unfold number. destruct (is_empty (pretty n)) eqn:He; [|apply digits_pretty].
  apply is_empty_true in He. by destruct (pretty_N_nonempty n).
Qed.

Lemma digits_no_char c s :
  is_ascii_digit c = false → all_chars is_ascii_digit s = true → contains_char c s = false.
Proof. apply contains_char_all. Qed.

Lemma parse_to_string v : parse (to_string v) = Ok v.
Proof.
  destruct v as [a b c]. unfold parse, to_string. simpl.
  rewrite !split_char_app, split_char_none
    by (apply digits_no_char; [done|apply pretty_N_digits]).
  by rewrite !number_pretty.
Qed.

Lemma to_string_chars p v :
  p "."%char = true → (∀ c, is_ascii_digit c = true → p c = true) →
  all_chars p (to_string v) = true.
Proof.
  intros Hdot Hd. unfold to_string. rewrite all_chars_app. simpl. rewrite all_chars_app. simpl.
  rewrite Hdot. rewrite !(all_chars_impl is_ascii_digit p) by (done || apply pretty_N_digits).
  done.
Qed.

#[export] Instance laws : SemverLaws semver.
Proof.
  split.
  - intros [a b c] [a' b' c']. simpl. unfold leb. simpl.
    rewrite !orb_true_iff, !andb_true_iff, !orb_true_iff, !andb_true_iff, !N.ltb_lt, !N.leb_le,
      !N.eqb_eq. lia.
  - intros [a b c] [a' b' c'] [a'' b'' c'']. simpl. unfold leb. simpl.
    rewrite !orb_true_iff, !andb_true_iff, !orb_true_iff, !andb_true_iff, !N.ltb_lt, !N.leb_le,
      !N.eqb_eq. lia.
  - apply parse_to_string.
  - intros v. apply to_string_chars; [done|]. intros c Hc.
    unfold is_ascii_digit, is_graph in *. rewrite in_range_true in *. lia.
  - intros v. apply (contains_char_all (λ c, is_ascii_digit c || ceqb c ".")); [done|].
    apply to_string_chars; [done|]. intros c Hc. by rewrite Hc.
  - intros v. simpl. unfold to_string. pose proof (pretty_N_digits (major v)) as Hd.
    destruct (pretty (major v)) as [|c s] eqn:Hp; [by destruct (pretty_N_nonempty (major v))|].
    simpl in Hd. apply andb_true_iff in Hd as [Hc _]. rewrite app_cons_s. eauto.
  - by eexists.
Qed.
End Mini.
