(* ===== verification/Integrity.v ===== *)
(** * [src/integrity.rs]: npm integrity strings

    The base64 and hex codecs are third-party crates: a type class with the
    round-trip laws their documentation states. *)

From S2P Require Export Str.
From Stdlib Require Import Ascii.

Class Codecs := {
  b64_encode : string → string;
  b64_decode : string → result string string;
  hex_encode : string → string;
  hex_decode : string → result string string;
}.

Class CodecLaws (C : Codecs) : Prop := {
  b64_decode_encode s : b64_decode (b64_encode s) = Ok s;
  b64_encode_graph s : all_chars is_graph (b64_encode s) = true;
  hex_decode_encode s : hex_decode (hex_encode s) = Ok s;
  hex_encode_length s : strlen (hex_encode s) = 2 * strlen s;
}.

(** ** The code *)

Section integrity.
Context `{Codecs}.

Definition SHA512 : string := "sha512".

(** A digest is its 64 bytes. *)
Record Sha512Digest := mk_digest { digest_bytes : string }.

#[global] Instance Sha512Digest_eq_dec : EqDecision Sha512Digest.
Proof. solve_decision. Defined.

Definition digest_ok (d : Sha512Digest) : Prop := strlen (digest_bytes d) = 64.

Inductive IntegrityError :=
  | InvalidFormat (s : string)
  | UnsupportedAlgorithm (s : string)
  | BadEncoding (s : string)
  | BadLength (n : nat).

#[global] Instance IntegrityError_eq_dec : EqDecision IntegrityError.
Proof. solve_decision. Defined.

Definition digest_of_bytes (bytes : string) : result IntegrityError Sha512Digest :=
  fail_if (negb (bool_decide (strlen bytes = 64))) with_err (BadLength (strlen bytes));
  Ok (mk_digest bytes).

Definition to_hex (d : Sha512Digest) : string := hex_encode (digest_bytes d).

Definition from_hex (s : string) : result IntegrityError Sha512Digest :=
  bytes ← map_err BadEncoding (hex_decode s); digest_of_bytes bytes.

Definition to_base64 (d : Sha512Digest) : string := b64_encode (digest_bytes d).

Definition from_base64 (s : string) : result IntegrityError Sha512Digest :=
  bytes ← map_err BadEncoding (b64_decode s); digest_of_bytes bytes.

Definition to_npm_string (d : Sha512Digest) : string := SHA512 +:+ "-" +:+ to_base64 d.

(** The token loop of [Integrity::parse]; [others] are the algorithms seen. *)
Fixpoint parse_tokens (tokens others : list string) : Sha512Digest + list string :=
  match tokens with
  | [] => inr others
  | token :: tokens =>
      match split_once "-" token with
      | None => parse_tokens tokens others
      | Some (algo, value) =>
          if negb (bool_decide (algo = SHA512)) then parse_tokens tokens (others ++ [algo])
          else match from_base64 value with
               | Ok digest => inl digest
               | Err _ =>
                   match (if bool_decide (strlen value = 128) then ok (from_hex value) else None) with
                   | Some digest => inl digest
                   | None => parse_tokens tokens others
                   end
               end
      end
  end.

Definition Integrity_parse (s : string) : result IntegrityError Sha512Digest :=
  match parse_tokens (split_whitespace s) [] with
  | inl digest => Ok digest
  | inr [] => Err (InvalidFormat s)
  | inr others => Err (UnsupportedAlgorithm (join ", " others))
  end.

(** ** Lemmas *)

Lemma digest_of_bytes_Ok b d :
  digest_of_bytes b = Ok d ↔ d = mk_digest b ∧ strlen b = 64.
Proof. unfold digest_of_bytes. case_bool_decide; simpl; naive_solver. Qed.

Lemma from_base64_ok s d : from_base64 s = Ok d → digest_ok d.
Proof. unfold from_base64. intros. inv_ok. by apply digest_of_bytes_Ok in H0 as [-> ?]. Qed.

Lemma from_hex_ok s d : from_hex s = Ok d → digest_ok d.
Proof. unfold from_hex. intros. inv_ok. by apply digest_of_bytes_Ok in H0 as [-> ?]. Qed.

Lemma parse_tokens_sound tokens others d :
  parse_tokens tokens others = inl d →
  ∃ t value, t ∈ tokens ∧ split_once "-" t = Some (SHA512, value) ∧
    (from_base64 value = Ok d ∨ (strlen value = 128 ∧ from_hex value = Ok d)).
Proof.
  revert others. induction tokens as [|t tokens IH]; intros others; cbn [parse_tokens]; [done|].
  assert (∀ others, parse_tokens tokens others = inl d →
    ∃ t' value, t' ∈ t :: tokens ∧ split_once "-" t' = Some (SHA512, value) ∧
    (from_base64 value = Ok d ∨ (strlen value = 128 ∧ from_hex value = Ok d))) as IH'.
  { intros o (t' & v & Ht & Hrest)%IH. exists t', v. split; [set_solver|done]. }
  destruct (split_once "-" t) as [[algo value]|] eqn:Hs; [|apply IH'].
  destruct (decide (algo = SHA512)) as [->|Hne].
  2:{ rewrite bool_decide_eq_false_2 by done. apply IH'. }
  rewrite bool_decide_eq_true_2 by done. simpl. destruct (from_base64 value) eqn:Hb.
  - intros [= ->]. exists t, value. split; [set_solver|]. auto.
  - destruct (decide (strlen value = 128)) as [Hl|Hl].
    2:{ rewrite bool_decide_eq_false_2 by done. apply IH'. }
    rewrite bool_decide_eq_true_2 by done. destruct (ok (from_hex value)) eqn:Hh; [|apply IH'].
    apply ok_Some in Hh. intros [= ->].
    exists t, value. split; [set_solver|]. auto.
Qed.

Lemma parse_tokens_digest_ok tokens others d :
  parse_tokens tokens others = inl d → digest_ok d.
Proof.
  intros (t & v & _ & _ & [?|[_ ?]])%parse_tokens_sound;
    [by eapply from_base64_ok|by eapply from_hex_ok].
Qed.

(** Every digest that any accepting path produces has exactly 64 bytes, and
    an accepted integrity string contains a token with the [sha512] label. *)
Theorem integrity_parse_sound s d :
  Integrity_parse s = Ok d →
  digest_ok d ∧ ∃ t value, t ∈ split_whitespace s ∧ split_once "-" t = Some (SHA512, value) ∧
    (from_base64 value = Ok d ∨ (strlen value = 128 ∧ from_hex value = Ok d)).
Proof.
  unfold Integrity_parse. destruct (parse_tokens _ _) as [d'|[|? ?]] eqn:Hp; [|done..].
  intros [= ->]. split; [by eapply parse_tokens_digest_ok|by eapply parse_tokens_sound].
Qed.
Context {L : CodecLaws H}.

Lemma from_base64_to_base64 d : digest_ok d → from_base64 (to_base64 d) = Ok d.
Proof using L.
  intros Hd. unfold from_base64, to_base64. rewrite b64_decode_encode. simpl.
  apply digest_of_bytes_Ok. by destruct d.
Qed.

Lemma from_hex_to_hex d : digest_ok d → from_hex (to_hex d) = Ok d.
Proof using L.
  intros Hd. unfold from_hex, to_hex. rewrite hex_decode_encode. simpl.
  apply digest_of_bytes_Ok. by destruct d.
Qed.

Lemma to_hex_not_empty d : digest_ok d → is_empty (to_hex d) = false.
Proof using L.
  unfold digest_ok, to_hex. intros Hd. pose proof (hex_encode_length (digest_bytes d)) as Hl.
  rewrite Hd in Hl. by destruct (hex_encode (digest_bytes d)).
Qed.

(** A token of another algorithm, as [sha1-...]. *)
Definition foreign_token (t : string) : Prop :=
  all_chars is_graph t = true ∧
  ∃ algo value, algo ≠ SHA512 ∧ contains_char "-" algo = false ∧
                t = algo +:+ String "-" value.

Lemma parse_tokens_foreign pre tokens others :
  Forall foreign_token pre →
  ∃ more, parse_tokens (pre ++ tokens) others = parse_tokens tokens (others ++ more) ∧
          length more = length pre.
Proof.
  intros Hf. revert others. induction Hf as [|t pre Ht Hf IH]; intros others; simpl.
  - exists []. by rewrite app_nil_r.
  - destruct Ht as (_ & algo & value & Ha & Hc & ->).
    rewrite split_once_char, bool_decide_eq_false_2 by done. simpl.
    destruct (IH (others ++ [algo])) as (more & -> & Hlen).
    exists (algo :: more). rewrite <- (assoc_L (++)). simpl. by rewrite Hlen.
Qed.

Lemma to_npm_string_graph d : all_chars is_graph (to_npm_string d) = true.
Proof using L.
  unfold to_npm_string, to_base64. rewrite !all_chars_app, b64_encode_graph. done.
Qed.

Lemma parse_tokens_canonical d tokens others :
  digest_ok d → parse_tokens (to_npm_string d :: tokens) others = inl d.
Proof using L.
  intros Hd. cbn [parse_tokens]. unfold to_npm_string.
  change ("-" +:+ to_base64 d) with (String "-" (to_base64 d)).
  rewrite split_once_char by done. rewrite bool_decide_eq_true_2 by done. simpl.
  by rewrite from_base64_to_base64.
Qed.

Lemma Integrity_parse_canonical d : digest_ok d → Integrity_parse (to_npm_string d) = Ok d.
Proof using L.
  intros Hd. unfold Integrity_parse.
  pose proof (split_whitespace_join [to_npm_string d]) as Hs. simpl in Hs. rewrite Hs.
  - by rewrite parse_tokens_canonical.
  - constructor; [|constructor]. split; [apply to_npm_string_graph|done].
Qed.

(** ** Properties *)

(** The canonical npm string of a digest is found in a composite integrity
    field wherever it stands among digests of other algorithms: parsing the
    space-separated tokens returns that digest.  Without a [sha512] token the
    field is refused as an unsupported algorithm, never accepted. *)
Theorem integrity_composite_roundtrip d pre post :
  digest_ok d → Forall foreign_token pre → Forall foreign_token post →
  Integrity_parse (join " " (pre ++ to_npm_string d :: post)) = Ok d ∧
  (pre ≠ [] → ∃ m, Integrity_parse (join " " pre) = Err (UnsupportedAlgorithm m)).
Proof using L.
  intros Hd Hpre Hpost.
  assert (∀ l, Forall foreign_token l →
            Forall (λ w, all_chars is_graph w = true ∧ w ≠ "") l) as Hne.
  { intros l Hl. eapply Forall_impl; [done|]. intros t (Hg & algo & v & _ & _ & ->).
    split; [done|]. by intros [_ ?]%app_eq_nil_s. }
  unfold Integrity_parse. split.
  - rewrite split_whitespace_join.
    + destruct (parse_tokens_foreign pre (to_npm_string d :: post) [] Hpre) as (m & -> & _).
      by rewrite parse_tokens_canonical.
    + apply Forall_app. split; [by apply Hne|]. constructor; [|by apply Hne].
      split; [apply to_npm_string_graph|done].
  - intros Hn. rewrite split_whitespace_join by by apply Hne.
    destruct (parse_tokens_foreign pre [] [] Hpre) as (m & Hm & Hl).
    rewrite app_nil_r in Hm. rewrite Hm. simpl. destruct m; [|by eexists].
    destruct pre; [done|discriminate].
Qed.

End integrity.

(** ** A concrete codec for the witnesses: the identity on graphic text behind a
    one-character tag, and two printable characters per byte otherwise. *)
Module Plain.
Definition nibble (n : N) : ascii := ascii_of_N (n + 65).
Fixpoint enc (s : string) : string :=
  match s with
  | "" => ""
  | String c s => String (nibble (code c / 16)) (String (nibble (code c mod 16)) (enc s))
  end.
Definition unnibble (c : ascii) : option N :=
  if in_range 65 80 c then Some (code c - 65)%N else None.
Fixpoint dec (s : string) : result string string :=
  match s with
  | "" => Ok ""
  | String a (String b s) =>
      match unnibble a, unnibble b with
      | Some x, Some y => r ← dec s; Ok (String (ascii_of_N (x * 16 + y)) r)
      | _, _ => Err "bad digit"
      end
  | _ => Err "odd length"
  end.

#[export] Instance codecs : Codecs := {
  b64_encode := enc; b64_decode := dec; hex_encode := enc; hex_decode := dec }.

Lemma nibble_code n : (n < 16)%N → code (nibble n) = (n + 65)%N.
Proof. intros. unfold code, nibble. apply Ascii.N_ascii_embedding. lia. Qed.

Lemma unnibble_nibble n : (n < 16)%N → unnibble (nibble n) = Some n.
Proof.
  intros Hn. unfold unnibble.
  assert (in_range 65 80 (nibble n) = true) as -> by (apply in_range_true; rewrite nibble_code; lia).
  rewrite nibble_code by done. f_equal. lia.
Qed.

Lemma nibbles c : (code c / 16 < 16 ∧ code c mod 16 < 16)%N.
Proof.
  assert (code c < 256)%N by apply Ascii.N_ascii_bounded.
  split; [apply N.div_lt_upper_bound; lia|apply N.mod_lt; lia].
Qed.

Lemma dec_enc s : dec (enc s) = Ok s.
Proof.
  induction s as [|c s IH]; [done|]. cbn [enc dec]. destruct (nibbles c).
  rewrite !unnibble_nibble by done. rewrite IH. simpl. do 2 f_equal.
  rewrite N.mul_comm, <- N.div_mod by lia. apply ascii_N_embedding.
Qed.

Lemma enc_graph s : all_chars is_graph (enc s) = true.
Proof.
  induction s as [|c s IH]; [done|]. cbn [enc all_chars]. destruct (nibbles c).
  rewrite IH, andb_true_r. apply andb_true_iff. unfold is_graph.
  rewrite !in_range_true, !nibble_code by done. revert H H0.
  generalize (code c / 16)%N (code c mod 16)%N. lia.
Qed.

Lemma enc_length s : strlen (enc s) = 2 * strlen s.
Proof. unfold strlen. induction s as [|c s IH]; simpl in *; lia. Qed.

#[export] Instance laws : CodecLaws codecs.
Proof. split; [apply dec_enc|apply enc_graph|apply dec_enc|apply enc_length]. Qed.
End Plain.

Definition sample_digest : Sha512Digest :=
  mk_digest (String.concat "" (replicate 16 "BPM.")).

Lemma integrity_composite_roundtrip_witness :
  Integrity_parse (H := Plain.codecs) (join " " ["sha1-iQrnxdjId"; to_npm_string (H := Plain.codecs) sample_digest])
    = Ok sample_digest.
Proof.
  refine (proj1 (integrity_composite_roundtrip (L := Plain.laws) sample_digest
                   ["sha1-iQrnxdjId"] [] _ _ _)).
  - vm_compute. reflexivity.
  - constructor; [|constructor]. split; [vm_compute; reflexivity|].
    exists "sha1", "iQrnxdjId". split; [discriminate|]. split; vm_compute; reflexivity.
  - constructor.
Defined.

Lemma integrity_parse_sound_witness :
  digest_ok sample_digest ∧
  Integrity_parse (H := Plain.codecs) (to_npm_string (H := Plain.codecs) sample_digest) = Ok sample_digest.
Proof.
  assert (Integrity_parse (H := Plain.codecs) (to_npm_string (H := Plain.codecs) sample_digest)
          = Ok sample_digest) as Hp by (vm_compute; reflexivity).
  split; [|exact Hp]. exact (proj1 (integrity_parse_sound (H := Plain.codecs) _ _ Hp)).
Defined.
