(* ===== verification/Registry.v ===== *)
(** * [src/registry/mod.rs]: package specs, packuments and version selection

    The pure part of the registry layer: parsing [name@range] specs, npm package
    names, normalising wire metadata, choosing a version of a packument and
    vetting its artifact.  [reqwest::Url::parse] is the class [UrlParser]. *)

From S2P Require Export Semver Integrity PathSafety.
From Stdlib Require Import Ascii.

Class UrlParser := {
  (** [Url::parse(s)], keeping the scheme of an absolute URL. *)
  url_scheme : string → option string;
}.

(** ** npm package names *)

Definition valid_alphanumeric (allow_uppercase : bool) (c : ascii) : bool :=
  is_ascii_lowercase c || is_ascii_digit c || (allow_uppercase && is_ascii_uppercase c).

Definition valid_name_segment (segment : string) (allow_uppercase : bool) : bool :=
  match segment with
  | "" => false
  | String first _ =>
      valid_alphanumeric allow_uppercase first &&
      all_chars (λ c, valid_alphanumeric allow_uppercase c
                      || ceqb c "." || ceqb c "-" || ceqb c "_") segment
  end.

Definition valid_npm_name (name : string) (allow_uppercase : bool) : bool :=
  if is_empty name || (214 <? strlen name)%nat || negb (is_ascii name) then false
  else match strip_prefix "@" name with
       | Some rest =>
           match split_once "/" rest with
           | Some (scope, pkg) =>
               valid_name_segment scope allow_uppercase && valid_name_segment pkg allow_uppercase
           | None => false
           end
       | None => valid_name_segment name allow_uppercase
       end.

Definition is_valid_npm_name (name : string) : bool := valid_npm_name name false.
Definition is_valid_npm_read_name (name : string) : bool := valid_npm_name name true.

(** [str::replace(char, &str)]. *)
Fixpoint replace_with (c : ascii) (by_ : string) (s : string) : string :=
  match s with
  | "" => ""
  | String d s => if ceqb d c then by_ +:+ replace_with c by_ s
                  else String d (replace_with c by_ s)
  end.

(** ** Errors *)

Inductive RegistryError :=
  | InvalidSpec (spec reason : string)
  | Network (package source : string)
  | BadStatus (package : string) (code : N)
  | BadJson (package source : string)
  | TokenPagination (reason : string)
  | NoVersions (package : string)
  | VersionNotFound (package req : string)
  | MissingDist (package version : string)
  | UnsupportedTarballSource (package version scheme : string)
  | InvalidIntegrity (package version : string) (detail : IntegrityError)
  | OfflineMiss (url : string).
#[global] Instance RegistryError_eq_dec : EqDecision RegistryError.
Proof. solve_decision. Defined.

Definition encode_package_name (name : string) : result RegistryError string :=
  fail_if (negb (is_valid_npm_read_name name))
    with_err (InvalidSpec name ("'" +:+ name +:+ "' is not a valid npm package name"));
  Ok (replace_with "/" "%2f" name).

(** ** Heuristics on specs *)

Definition starts_with_any (prefixes : list string) (s : string) : bool :=
  existsb (λ p, starts_with p s) prefixes.

Definition looks_like_registry_spec (spec : string) : bool :=
  let lower := to_ascii_lowercase spec in
  negb (starts_with "patch:" spec || starts_with "file:" spec || starts_with "link:" spec
        || starts_with_any ["git+"; "git:"; "github:"; "http:"; "https:"; "npm:"] lower
        || starts_with "./" spec || starts_with "../" spec || starts_with_char "/" spec).

(** ** Wire normalisation *)

Fixpoint dedup_adjacent (l : list string) : list string :=
  match l with
  | x :: ((y :: _) as rest) =>
      if bool_decide (x = y) then dedup_adjacent rest else x :: dedup_adjacent rest
  | _ => l
  end.

(** [retain(non-empty)], [sort], [dedup]. *)
Definition normalize_list (values : list string) : list string :=
  dedup_adjacent (sort_by String.leb (filter (λ v, v ≠ "") values)).

Record PeerMeta := mk_PeerMeta { pm_optional : bool }.
Record Dist := mk_Dist { dist_tarball : string; dist_integrity : string; dist_shasum : option string }.
Definition Dist_default : Dist := mk_Dist "" "" None.

Inductive WireBin :=
  | BinMissing
  | BinSingle (path : string)
  | BinMap (entries : gmap string string).

Record WireVersionMetadata := mk_Wire {
  w_name : string; w_version : string; w_deprecated : option string;
  w_dependencies : gmap string string;
  w_optional_dependencies : gmap string string;
  w_peer_dependencies : gmap string string;
  w_peer_dependencies_meta : gmap string PeerMeta;
  w_bin : WireBin; w_dist : Dist; w_engines : gmap string string;
  w_os : list string; w_cpu : list string; w_libc : list string;
  w_has_install_script : bool; w_has_shrinkwrap : bool }.

Section registry.
Context `{Sv : Semver}.

(** ** Version ranges *)

Record VersionRange := mk_VersionRange { requirements : list VersionReq }.

#[global] Instance VersionRange_eq_dec : EqDecision VersionRange.
Proof. solve_decision. Defined.

Definition is_operator_char (c : ascii) : bool :=
  existsb (ceqb c) [">"; "<"; "="; "^"; "~"]%char.
Definition is_operator (token : string) : bool :=
  negb (is_empty token) && all_chars is_operator_char token.

(** The token loop: operators wait for their operand. *)
Fixpoint glue_operators (tokens : list string) (pending : option string) : list string :=
  match tokens with
  | [] => option_list pending
  | token :: tokens =>
      if is_operator token then
        glue_operators tokens (Some (match pending with
                                     | Some previous => previous +:+ token
                                     | None => token
                                     end))
      else match pending with
           | Some operator => (operator +:+ token) :: glue_operators tokens None
           | None => token :: glue_operators tokens None
           end
  end.

Definition join_comparator (joined comparator : string) : string :=
  if is_empty joined then comparator
  else if ends_with "," joined then joined +:+ " " +:+ comparator
  else joined +:+ ", " +:+ comparator.

Definition normalize_comparator_whitespace (part : string) : string :=
  foldl join_comparator "" (glue_operators (split_whitespace part) None).

Definition parse_range_part (part : string) : result string VersionReq :=
  let part' := normalize_comparator_whitespace (trim part) in
  if is_empty part' then
    (* [VersionReq::parse(part.trim()).unwrap_err()] on the normalised part *)
    match req_parse (trim part') with
    | Err e => Err e
    | Ok _ => Err "called `Result::unwrap_err()` on an `Ok` value"
    end
  else req_parse part'.

Definition VersionRange_parse (value : string) : result string VersionRange :=
  reqs ← traverse_res parse_range_part (split_str "||" value);
  Ok (mk_VersionRange reqs).

Definition range_matches (r : VersionRange) (v : Version) : bool :=
  existsb (λ req, req_matches req v) (requirements r).

Definition range_to_string (r : VersionRange) : string :=
  join " || " (req_to_string <$> requirements r).

Inductive VersionRequest :=
  | Latest
  | Exact (version : Version)
  | Range (range : VersionRange).

#[global] Instance VersionRequest_eq_dec : EqDecision VersionRequest.
Proof. solve_decision. Defined.

Record PackageSpec := mk_PackageSpec { ps_name : string; ps_req : VersionRequest }.

#[global] Instance PackageSpec_eq_dec : EqDecision PackageSpec.
Proof. solve_decision. Defined.

Definition begins_range (s : string) : bool :=
  match s with
  | "" => false
  | String c _ => existsb (ceqb c) ["^"; "~"; ">"; "<"; "="; "*"]%char
  end.

Definition parse_request (spec : string) (req_str : option string)
    : result RegistryError VersionRequest :=
  match trim <$> req_str with
  | None | Some "" | Some "latest" => Ok Latest
  | Some s =>
      if begins_range s then
        Range <$> map_err (λ e, InvalidSpec spec ("bad range '" +:+ s +:+ "': " +:+ e))
                    (VersionRange_parse s)
      else match version_parse s with
           | Ok v => Ok (Exact v)
           | Err _ =>
               Range <$> map_err (λ e, InvalidSpec spec ("bad version '" +:+ s +:+ "': " +:+ e))
                           (VersionRange_parse s)
           end
  end.

Definition parse_spec (spec0 : string) : result RegistryError PackageSpec :=
  let spec := trim spec0 in
  fail_if (is_empty spec) with_err (InvalidSpec spec "spec is empty");
  let '(name, req_str) :=
    match rsplit_once "@" spec with
    | Some (name, req) => if is_empty name then (spec, None) else (name, Some req)
    | None => (spec, None)
    end in
  fail_if (negb (is_valid_npm_read_name name))
    with_err (InvalidSpec spec ("'" +:+ name +:+ "' is not a valid npm package name"));
  req ← parse_request spec req_str;
  Ok (mk_PackageSpec name req).

(** ** Packuments *)

Record VersionMetadata := mk_VersionMetadata {
  vm_name : string; vm_version : Version; vm_deprecated : option string;
  vm_dependencies : gmap string string;
  vm_optional_dependencies : gmap string string;
  vm_peer_dependencies : gmap string string;
  vm_peer_dependencies_meta : gmap string PeerMeta;
  vm_bin : gmap string string; vm_dist : Dist; vm_engines : gmap string string;
  vm_os : list string; vm_cpu : list string; vm_libc : list string;
  vm_has_install_script : bool; vm_has_shrinkwrap : bool }.

Record Packument := mk_Packument {
  pk_name : string; pk_dist_tags : gmap string string;
  pk_versions : gmap string VersionMetadata }.

(** [name.rsplit('/').next()]: the last path segment. *)
Definition last_segment (name : string) : string := default name (last (split_char "/" name)).

Definition version_metadata (package_name version_key : string) (w : WireVersionMetadata)
    : option VersionMetadata :=
  version ← version_of (if is_empty (w_version w) then version_key else w_version w);
  let name := if is_empty (w_name w) then package_name else w_name w in
  let bin := match w_bin w with
             | BinMissing => ∅
             | BinSingle path => {[ last_segment name := path ]}
             | BinMap m => m
             end in
  Some (mk_VersionMetadata name version (w_deprecated w) (w_dependencies w)
    (w_optional_dependencies w) (w_peer_dependencies w) (w_peer_dependencies_meta w)
    (filter (λ kv, kv.1 ≠ "" ∧ kv.2 ≠ "") bin)
    (w_dist w) (w_engines w) (normalize_list (w_os w)) (normalize_list (w_cpu w))
    (normalize_list (w_libc w)) (w_has_install_script w) (w_has_shrinkwrap w)).

(** [matching.sort(); matching.pop()]. *)
Definition max_version (vs : list Version) : option Version := last (sort_by version_leb vs).

Definition published (p : Packument) : list Version :=
  omap version_of (bt_keys (pk_versions p)).

Definition select_version (name : string) (req : VersionRequest) (p : Packument)
    : result RegistryError Version :=
  fail_if (is_empty_map (pk_versions p)) with_err (NoVersions name);
  match req with
  | Latest =>
      tag ← ok_or (NoVersions name) (pk_dist_tags p !! "latest");
      map_err (λ _, VersionNotFound name ("latest (" +:+ tag +:+ ")")) (version_parse tag)
  | Exact v =>
      if contains_key (version_to_string v) (pk_versions p) then Ok v
      else Err (VersionNotFound name ("=" +:+ version_to_string v))
  | Range r =>
      ok_or (VersionNotFound name (range_to_string r))
        (max_version (filter (λ v, range_matches r v = true) (published p)))
  end.

Record ResolvedArtifact := mk_ResolvedArtifact {
  ra_name : string; ra_version : Version; ra_tarball_url : string; ra_integrity : string;
  ra_metadata : VersionMetadata }.

Definition with_name (m : VersionMetadata) (name : string) : VersionMetadata :=
  mk_VersionMetadata name (vm_version m) (vm_deprecated m) (vm_dependencies m)
    (vm_optional_dependencies m) (vm_peer_dependencies m) (vm_peer_dependencies_meta m)
    (vm_bin m) (vm_dist m) (vm_engines m) (vm_os m) (vm_cpu m) (vm_libc m)
    (vm_has_install_script m) (vm_has_shrinkwrap m).

Context `{Cd : Codecs} `{Up : UrlParser}.

Definition is_slash (c : ascii) : bool := ceqb c "/".

Definition resolve_tarball_url (registry tarball package version : string)
    : result RegistryError string :=
  match url_scheme tarball with
  | Some scheme =>
      if bool_decide (scheme = "http") || bool_decide (scheme = "https") then Ok tarball
      else Err (UnsupportedTarballSource package version scheme)
  | None => Ok (trim_end_matches is_slash registry +:+ "/" +:+
                trim_start_matches is_slash tarball)
  end.

Definition resolve_packument (spec : PackageSpec) (p : Packument) (registry : string)
    : result RegistryError ResolvedArtifact :=
  version ← select_version (ps_name spec) (ps_req spec) p;
  let vs := version_to_string version in
  metadata0 ← ok_or (VersionNotFound (ps_name spec) vs) (pk_versions p !! vs);
  let metadata := if is_empty (vm_name metadata0) then with_name metadata0 (ps_name spec)
                  else metadata0 in
  let dist := vm_dist metadata in
  fail_if (is_empty (dist_tarball dist) || is_empty (dist_integrity dist))
    with_err (MissingDist (ps_name spec) vs);
  _ ← map_err (InvalidIntegrity (ps_name spec) vs) (Integrity_parse (dist_integrity dist));
  tarball_url ← resolve_tarball_url registry (dist_tarball dist) (ps_name spec) vs;
  Ok (mk_ResolvedArtifact (vm_name metadata) version tarball_url (dist_integrity dist) metadata).

(** ** Prefetch lookahead *)

Definition lookahead_version_request (name : string) (version_spec : option string)
    : option VersionRequest :=
  match version_spec with
  | None | Some "" | Some "latest" => Some Latest
  | Some spec => ps_req <$> ok (parse_spec (name +:+ "@" +:+ spec))
  end.

Definition prefetch_child_specs (p : Packument) (name : string) (version_spec : option string)
    : list (string * string) :=
  match lookahead_version_request name version_spec with
  | None => []
  | Some request =>
      match select_version name request p with
      | Err _ => []
      | Ok version =>
          match pk_versions p !! version_to_string version with
          | None => []
          | Some metadata =>
              filter (λ kv, looks_like_registry_spec kv.2 = true)
                (bt_list (vm_dependencies metadata)) ++
              filter (λ kv, looks_like_registry_spec kv.2 = true)
                (bt_list (vm_optional_dependencies metadata))
          end
      end
  end.

(** ** Spec helpers of [src/resolver/mod.rs] *)

Definition request_matches (spec : string) (version : Version) : bool :=
  match parse_spec ("pkg@" +:+ spec) with
  | Err _ => false
  | Ok parsed =>
      match ps_req parsed with
      | Latest => true
      | Exact expected => bool_decide (expected = version)
      | Range range => range_matches range version
      end
  end.

Definition version_request_to_string (request : VersionRequest) : string :=
  match request with
  | Latest => "latest"
  | Exact version => version_to_string version
  | Range range => range_to_string range
  end.

Definition registry_request (name spec : string) : string * string :=
  match strip_prefix "npm:" spec with
  | None => (name, spec)
  | Some alias =>
      match parse_spec alias with
      | Ok parsed => (ps_name parsed, version_request_to_string (ps_req parsed))
      | Err _ => (name, spec)
      end
  end.

Definition merged_dependencies (m : VersionMetadata) : gmap string string :=
  vm_optional_dependencies m ∪ vm_dependencies m.
End registry.

(** ** Lemmas: package names *)

Definition name_char (c : ascii) : bool :=
  valid_alphanumeric true c || ceqb c "." || ceqb c "-" || ceqb c "_".

Lemma valid_alphanumeric_range u c :
  valid_alphanumeric u c = true →
  (97 ≤ code c ≤ 122)%N ∨ (48 ≤ code c ≤ 57)%N ∨ (65 ≤ code c ≤ 90)%N.
Proof.
  unfold valid_alphanumeric, is_ascii_lowercase, is_ascii_digit, is_ascii_uppercase.
  rewrite !orb_true_iff, andb_true_iff, !in_range_true. tauto.
Qed.

Lemma valid_name_segment_chars s u :
  valid_name_segment s u = true →
  s ≠ "" ∧ all_chars name_char s = true ∧ ∃ c r, s = String c r ∧ valid_alphanumeric true c = true.
Proof.
  assert (∀ c, valid_alphanumeric u c = true → valid_alphanumeric true c = true) as Hup.
  { intros c. unfold valid_alphanumeric. rewrite !orb_true_iff, !andb_true_iff. tauto. }
  unfold valid_name_segment. destruct s as [|c r]; [done|]. intros [Hc Hs]%andb_true_iff.
  split; [done|]. split; [|eauto]. eapply all_chars_impl; [|exact Hs].
  intros d. unfold name_char. rewrite !orb_true_iff. intros [[[?|?]|?]|?]; eauto.
Qed.

Lemma name_char_graph c : name_char c = true → is_graph c = true.
Proof.
  unfold name_char, is_graph. rewrite !orb_true_iff, in_range_true, !ceqb_eq.
  intros [[[Hc|Hc]|Hc]|Hc]; [apply valid_alphanumeric_range in Hc; lia|subst; done..].
Qed.

Lemma segment_component s u : valid_name_segment s u = true → is_valid_component s = true.
Proof.
  intros (_ & _ & c & r & -> & Hc)%valid_name_segment_chars. apply is_valid_component_true.
  split_and!; [done|..]; intros [= -> _]; done.
Qed.

Lemma segment_no_char s u c :
  name_char c = false → valid_name_segment s u = true → contains_char c s = false.
Proof. intros Hc (_ & Hs & _)%valid_name_segment_chars. by eapply contains_char_all. Qed.

(** The shape of an accepted name. *)
Lemma valid_npm_name_shape n u :
  valid_npm_name n u = true →
  valid_name_segment n u = true ∨
  ∃ scope pkg, n = "@" +:+ scope +:+ String "/" pkg ∧
    valid_name_segment scope u = true ∧ valid_name_segment pkg u = true.
Proof.
  unfold valid_npm_name. destruct (_ || _); [done|].
  destruct (strip_prefix "@" n) as [rest|] eqn:Hn; [|by left].
  apply strip_prefix_Some in Hn as ->.
  destruct (split_once "/" rest) as [[scope pkg]|] eqn:Hs; [|done].
  apply split_once_Some in Hs as ->. intros [? ?]%andb_true_iff. right. by exists scope, pkg.
Qed.

(** The path components a placed name contributes: one, or two when scoped. *)
Definition name_components (n : string) : list string := split_char slash n.

Lemma scope_component s u : valid_name_segment s u = true → is_valid_component ("@" +:+ s) = true.
Proof.
  intros _. apply is_valid_component_true. split_and!; discriminate.
Qed.

Lemma valid_name_components n u :
  valid_npm_name n u = true →
  Forall (λ c, is_valid_component c = true) (name_components n) ∧
  contains_char backslash n = false ∧ contains_char "@" (default n (strip_prefix "@" n)) = false ∧
  all_chars is_graph n = true ∧ n ≠ "".
Proof.
  unfold name_components. intros [Hs|(scope & pkg & -> & Hs & Hp)]%valid_npm_name_shape.
  - destruct (valid_name_segment_chars _ _ Hs) as (Hne & Hch & c & r & Hn & Hc).
    rewrite split_char_none by by eapply segment_no_char. split_and!.
    + constructor; [by eapply segment_component|done].
    + by eapply segment_no_char.
    + replace (strip_prefix "@" n) with (@None string); [by eapply segment_no_char|].
      subst n. cbn [strip_prefix]. destruct (ceqb "@" c) eqn:Hat; [|done].
      apply ceqb_eq in Hat as <-. done.
    + eapply all_chars_impl; [|exact Hch]. apply name_char_graph.
    + done.
  - assert (contains_char slash ("@" +:+ scope) = false) as Hsl
      by (unfold contains_char; simpl; by eapply segment_no_char).
    change ("@" +:+ scope +:+ String "/" pkg) with (("@" +:+ scope) +:+ String slash pkg).
    rewrite split_char_app, (split_char_none slash pkg) by (done || by eapply segment_no_char).
    destruct (valid_name_segment_chars _ _ Hs) as (_ & Hsc & _).
    destruct (valid_name_segment_chars _ _ Hp) as (_ & Hpc & _). split_and!.
    + constructor; [by eapply scope_component|constructor; [by eapply segment_component|done]].
    + rewrite contains_char_app. unfold contains_char. simpl.
      rewrite !(segment_no_char _ u backslash : _ → _ → any_char _ _ = false) by done. done.
    + replace (strip_prefix "@" _) with (Some (scope +:+ String slash pkg))
        by (rewrite <- app_assoc_s; symmetry; apply strip_prefix_app).
      simpl. rewrite contains_char_app. unfold contains_char. simpl.
      rewrite !(segment_no_char _ u "@" : _ → _ → any_char _ _ = false) by done. done.
    + rewrite all_chars_app. simpl.
      rewrite !(all_chars_impl name_char is_graph) by (done || apply name_char_graph). done.
    + done.
Qed.

(** The lockfile path of nested packages [n1 / n2 / ...]. *)
Definition package_path (names : list string) : string :=
  "node_modules/" +:+ join "/node_modules/" names.

Definition package_components (names : list string) : list string :=
  names ≫= λ n, "node_modules" :: name_components n.

Lemma split_package_path names :
  names ≠ [] → split_char slash (package_path names) = package_components names.
Proof.
  intros Hne. unfold package_path.
  change ("node_modules/" +:+ join "/node_modules/" names)
    with ("node_modules" +:+ String slash (join "/node_modules/" names)).
  rewrite split_char_app_sep, (split_char_none slash "node_modules") by reflexivity. simpl.
  destruct names as [|n names]; [done|]. clear Hne. revert n.
  induction names as [|m names IH]; intros n.
  - simpl. by rewrite app_nil_r.
  - change (join "/node_modules/" (n :: m :: names))
      with (n +:+ String slash ("node_modules" +:+ String slash (join "/node_modules/" (m :: names)))).
    rewrite !split_char_app_sep, (split_char_none slash "node_modules") by reflexivity.
    specialize (IH m). simpl in *. injection IH as IH. rewrite IH. done.
Qed.

Lemma package_components_has_nm names :
  names ≠ [] → Forall (λ n, Forall (λ c, is_valid_component c = true) (name_components n)) names →
  has_nm (package_components names) = true.
Proof.
  destruct names as [|n names]; [done|]. intros _ Hf. apply Forall_cons in Hf as [Hn _].
  pose proof (split_char_nonempty slash n) as Hsn. unfold package_components, name_components in *.
  simpl. destruct (split_char slash n) as [|c cs]; [done|]. simpl.
  apply Forall_cons in Hn as [Hc _]. apply is_valid_component_true in Hc as (H1 & H2 & H3).
  rewrite (bool_decide_eq_false_2 (c = ".")), (bool_decide_eq_false_2 (c = "..")) by done.
  apply is_empty_false in H1. by rewrite H1.
Qed.

Lemma replace_with_no_char c b s d :
  contains_char d b = false → (c = d ∨ contains_char d s = false) →
  contains_char d (replace_with c b s) = false.
Proof.
  unfold contains_char. intros Hb Hs. induction s as [|a s IH]; [done|]. simpl.
  destruct (ceqb a c) eqn:Ha.
  - rewrite any_char_app, Hb. apply IH. simpl in Hs. destruct Hs as [?|[_ ?]%orb_false_iff]; auto.
  - simpl. simpl in Hs. destruct Hs as [->|[-> ?]%orb_false_iff]; [|by auto].
    assert (ceqb d a = false) as -> by (apply ceqb_neq; apply ceqb_neq in Ha; congruence). auto.
Qed.

(** A name the registry layer accepts can never escape: nesting any number of
    accepted names gives a lockfile path the path validator accepts unchanged,
    whose components are exactly [node_modules] and the parts of the names; and
    the encoded name is one URL path segment (no [/], [?], [#] or backslash). *)
Theorem accepted_names_are_path_safe names :
  names ≠ [] → Forall (λ n, is_valid_npm_read_name n = true) names →
  validate_package_path (package_path names) = Ok (package_path names) ∧
  split_char slash (package_path names) = package_components names ∧
  Forall (λ n, ∃ e, encode_package_name n = Ok e ∧
    Forall (λ c, contains_char c e = false) ["/"; "?"; "#"; "\"]%char) names.
Proof.
  intros Hne Hv.
  assert (Forall (λ n, Forall (λ c, is_valid_component c = true) (name_components n)) names) as Hc.
  { eapply Forall_impl; [exact Hv|]. intros n Hn. by apply valid_name_components in Hn as [? _]. }
  assert (Forall (λ c, is_valid_component c = true) (package_components names)) as Hpc.
  { unfold package_components. apply Forall_bind. eapply Forall_impl; [exact Hc|].
    intros n Hn. by constructor. }
  split_and!.
  - apply validate_package_path_Ok. split; [done|]. rewrite split_package_path by done.
    split; [|by apply package_components_has_nm]. apply normalized_valid.
    + done.
    + done.
    + unfold package_path. rewrite contains_char_app. simpl.
      clear Hne Hc Hpc. induction Hv as [|n names Hn Hv IH]; [done|].
      apply valid_name_components in Hn as (_ & Hb & _).
      destruct names as [|m names]; [done|].
      change (join "/node_modules/" (n :: m :: names))
        with (n +:+ "/node_modules/" +:+ join "/node_modules/" (m :: names)).
      rewrite !contains_char_app, Hb. simpl. exact IH.
    + by rewrite split_package_path.
  - by apply split_package_path.
  - eapply Forall_impl; [exact Hv|]. intros n Hn. unfold encode_package_name.
    rewrite Hn. simpl. eexists. split; [done|].
    assert (∀ c, name_char c = false → c ≠ "@"%char → c ≠ "/"%char → contains_char c n = false) as Hno.
    { intros c Hc1 Hc2 Hc3.
      apply valid_npm_name_shape in Hn as [Hs|(sc & pk & -> & Hs & Hp)].
      - by eapply segment_no_char.
      - rewrite !contains_char_app. unfold contains_char. simpl.
        apply ceqb_neq in Hc2, Hc3. rewrite Hc2, Hc3. simpl.
        rewrite !(segment_no_char _ true c : _ → _ → any_char _ _ = false) by done. done. }
    repeat constructor; apply replace_with_no_char; try reflexivity;
      [by left|right; apply Hno; done..].
Qed.

Lemma accepted_names_are_path_safe_witness :
  validate_package_path "node_modules/@scope/pkg/node_modules/left-pad"
    = Ok "node_modules/@scope/pkg/node_modules/left-pad".
Proof.
  refine (proj1 (accepted_names_are_path_safe ["@scope/pkg"; "left-pad"] _ _)).
  - discriminate.
  - decided.
Defined.

(** ** Lemmas: specs *)

Lemma trim_end_app_graph a s :
  all_chars is_graph a = true → trim_end (a +:+ s) = a +:+ trim_end s.
Proof.
  induction a as [|c a IH]; [done|]. simpl all_chars. intros [Hc Ha]%andb_true_iff.
  rewrite !app_cons_s. cbn [trim_end]. rewrite (trim_start_graph c _ Hc). simpl.
  by rewrite (IH Ha).
Qed.

Lemma trim_app_graph a s :
  a ≠ "" → all_chars is_graph a = true → trim (a +:+ s) = a +:+ trim_end s.
Proof.
  intros Hne Ha. unfold trim. destruct a as [|c a]; [done|]. rewrite app_cons_s.
  rewrite trim_start_graph, <- app_cons_s; [by apply trim_end_app_graph|].
  simpl in Ha. by apply andb_true_iff in Ha as [? _].
Qed.

Lemma contains_char_split c s :
  contains_char c s = true → ∃ a b, s = a +:+ String c b ∧ contains_char c b = false.
Proof.
  unfold contains_char. induction s as [|d s IH]; [done|]. simpl.
  destruct (any_char (ceqb c) s) eqn:Hs.
  - intros _. destruct (IH eq_refl) as (a & b & -> & Hb). by exists (String d a), b.
  - rewrite orb_false_r. intros ->%ceqb_eq. by exists "", s.
Qed.

Lemma valid_name_no_inner_at n b : n ≠ "" → is_valid_npm_read_name (n +:+ String "@" b) = false.
Proof.
  intros Hne. apply not_true_is_false. intros Hv.
  apply valid_name_components in Hv as (_ & _ & Hat & _).
  assert (∀ u, contains_char "@" (u +:+ String "@" b) = true) as Hc.
  { intros u. rewrite contains_char_app. apply orb_true_iff. by right. }
  destruct (strip_prefix "@" (n +:+ String "@" b)) as [r|] eqn:Hs; simpl default in Hat.
  - apply strip_prefix_Some in Hs. destruct n as [|c n]; [done|].
    rewrite app_cons_s in Hs. change ("@" +:+ r) with (String "@" r) in Hs.
    injection Hs as _ <-. rewrite Hc in Hat. done.
  - rewrite Hc in Hat. done.
Qed.

Section specs.
Context `{Sv : Semver}.

Lemma parse_request_Some spec s :
  parse_request spec (Some s) =
    if bool_decide (trim s = "" ∨ trim s = "latest") then Ok Latest
    else if begins_range (trim s) then
      Range <$> map_err (λ e, InvalidSpec spec ("bad range '" +:+ trim s +:+ "': " +:+ e))
                  (VersionRange_parse (trim s))
    else match version_parse (trim s) with
         | Ok v => Ok (Exact v)
         | Err _ =>
             Range <$> map_err (λ e, InvalidSpec spec ("bad version '" +:+ trim s +:+ "': " +:+ e))
                         (VersionRange_parse (trim s))
         end.
Proof.
  unfold parse_request. cbn [fmap option_fmap option_map]. generalize (trim s) as t. intros t.
  destruct (decide (t = "" ∨ t = "latest")) as [Ht|Ht].
  - rewrite bool_decide_eq_true_2 by done. by destruct Ht as [-> | ->].
  - rewrite bool_decide_eq_false_2 by done.
    repeat case_match; first [reflexivity | exfalso; apply Ht; auto].
Qed.

(** The full spec contributes only the error message. *)
Lemma parse_request_ok_indep s1 s2 o : ok (parse_request s1 o) = ok (parse_request s2 o).
Proof.
  destruct o as [s|]; [|done]. rewrite !parse_request_Some.
  destruct (bool_decide _); [done|]. destruct (begins_range _).
  - by destruct (VersionRange_parse _).
  - destruct (version_parse _); [done|]. by destruct (VersionRange_parse _).
Qed.

(** Parsing [name@req] for an accepted name. *)
Lemma parse_spec_at n rs :
  is_valid_npm_read_name n = true →
  ok (parse_spec (n +:+ String "@" rs)) =
    if contains_char "@" (trim_end rs) then None
    else mk_PackageSpec n <$> ok (parse_request "" (Some (trim_end rs))).
Proof.
  intros Hv. pose proof (valid_name_components _ _ Hv) as (_ & _ & _ & Hg & Hne).
  unfold parse_spec.
  replace (n +:+ String "@" rs) with ((n +:+ "@") +:+ rs)
    by (by rewrite <- app_assoc_s, app_cons_s, app_nil_l_s).
  rewrite trim_app_graph.
  2:{ by intros [? _]%app_eq_nil_s. } 2:{ by rewrite all_chars_app, Hg. }
  generalize (trim_end rs) as t. intros t.
  rewrite <- app_assoc_s, app_cons_s, app_nil_l_s.
  rewrite is_empty_app. apply is_empty_false in Hne as Hne'. rewrite Hne'. cbn [andb].
  destruct (contains_char "@" t) eqn:Ht.
  - apply contains_char_split in Ht as (a & b & -> & Hb).
    replace (n +:+ String "@" (a +:+ String "@" b))
      with ((n +:+ String "@" a) +:+ String "@" b)
      by (by rewrite <- app_assoc_s, app_cons_s).
    rewrite rsplit_once_char by done. rewrite is_empty_app, Hne'. cbn [andb].
    by rewrite valid_name_no_inner_at.
  - rewrite rsplit_once_char, Hne', Hv by done. cbn [negb].
    rewrite (parse_request_ok_indep _ (n +:+ String "@" t)).
    by destruct (parse_request (n +:+ String "@" t) (Some t)).
Qed.

Lemma parse_spec_name_valid s p :
  parse_spec s = Ok p → is_valid_npm_read_name (ps_name p) = true.
Proof.
  unfold parse_spec. destruct (is_empty (trim s)); [done|].
  destruct (match rsplit_once "@" (trim s) with
            | Some (name, req) => if is_empty name then (trim s, None) else (name, Some req)
            | None => (trim s, None)
            end) as [name req].
  destruct (is_valid_npm_read_name name) eqn:Hv; [|done]. simpl. intros H. by inv_ok.
Qed.

Lemma request_matches_parsed n rs p v :
  is_valid_npm_read_name n = true → parse_spec (n +:+ String "@" rs) = Ok p →
  request_matches rs v =
    match ps_req p with
    | Latest => true
    | Exact w => bool_decide (w = v)
    | Range r => range_matches r v
    end.
Proof.
  intros Hv Hp. apply ok_Some in Hp. rewrite parse_spec_at in Hp by done.
  unfold request_matches. change ("pkg@" +:+ rs) with ("pkg" +:+ String "@" rs).
  destruct (parse_spec ("pkg" +:+ String "@" rs)) as [q|e] eqn:Hq;
    apply (f_equal ok) in Hq; rewrite parse_spec_at in Hq by done; simpl in Hq;
    destruct (contains_char _ _); try done; destruct (ok _); simpl in *; try done.
  injection Hp as <-. injection Hq as <-. done.
Qed.

Context {L : SemverLaws Sv}.

Lemma version_trim v : trim_end (version_to_string v) = version_to_string v.
Proof using L. apply trim_end_graph, version_display_graph. Qed.

Lemma parse_request_version spec v :
  parse_request spec (Some (version_to_string v)) = Ok (Exact v).
Proof using L.
  destruct (version_display_digit v) as (c & s & Hs & Hc).
  rewrite parse_request_Some, (trim_graph _ (version_display_graph v)), version_parse_display.
  rewrite bool_decide_eq_false_2.
  2:{ rewrite Hs. intros [? | [= -> ->]]; [discriminate|done]. }
  replace (begins_range (version_to_string v)) with false; [done|].
  symmetry. rewrite Hs. simpl. rewrite !orb_false_iff, !ceqb_neq.
  split_and!; try done; by intros ->.
Qed.

(** [name@version] round-trips: for every accepted package name, scoped or
    not, and every version, parsing the printed spec gives that name with
    exactly that version; the bare name asks for [latest]; and no text parses
    to a name the validator refuses. *)
Theorem parse_spec_roundtrip n v s p :
  is_valid_npm_read_name n = true → parse_spec s = Ok p →
  parse_spec (n +:+ String "@" (version_to_string v)) = Ok (mk_PackageSpec n (Exact v)) ∧
  parse_spec n = Ok (mk_PackageSpec n Latest) ∧
  is_valid_npm_read_name (ps_name p) = true.
Proof using L.
  intros Hv Hs. pose proof (valid_name_components _ _ Hv) as (_ & _ & Hat & Hg & Hne). split_and!.
  - apply ok_Some. rewrite parse_spec_at, version_trim, version_display_no_at by done.
    by rewrite parse_request_version.
  - unfold parse_spec. rewrite (trim_graph _ Hg). apply is_empty_false in Hne as Hne'.
    rewrite Hne'. cbv zeta.
    assert ((match rsplit_once "@" n with
             | Some (name, req) => if is_empty name then (n, None) else (name, Some req)
             | None => (n, None)
             end) = (n, None)) as ->.
    { destruct (strip_prefix "@" n) as [r|] eqn:Hst; cbn [default] in Hat.
      - apply strip_prefix_Some in Hst as ->.
        change ("@" +:+ r) with ("" +:+ String "@" r).
        by rewrite rsplit_once_char.
      - by rewrite rsplit_once_char_none. }
    by rewrite Hv.
  - by eapply parse_spec_name_valid.
Qed.

(** ** Version selection *)

Lemma last_In {A} (l : list A) x : last l = Some x → x ∈ l.
Proof. intros H. apply last_Some in H as [l' ->]. set_solver. Qed.

Lemma max_version_spec vs v :
  max_version vs = Some v → v ∈ vs ∧ ∀ w, w ∈ vs → version_leb w v = true.
Proof using L.
  unfold max_version. intros Hl. split; [by apply last_In, elem_of_sort_by in Hl|].
  intros w Hw. apply last_Some in Hl as [l' Hl].
  pose proof (sort_by_sorted version_leb version_leb_total version_leb_trans vs) as Hsort.
  rewrite <- (elem_of_sort_by version_leb), Hl in Hw. rewrite Hl in Hsort.
  apply elem_of_app in Hw as [Hw|Hw].
  - apply StronglySorted_app in Hsort as (Hx & _). apply Hx; set_solver.
  - apply list_elem_of_singleton in Hw as ->. by destruct (version_leb_total v v).
Qed.

Lemma max_version_None vs : max_version vs = None ↔ vs = [].
Proof.
  unfold max_version. rewrite last_None. split; [|by intros ->].
  intros H. apply (f_equal length) in H. rewrite length_sort_by in H. by destruct vs.
Qed.

Lemma elem_of_published p v :
  v ∈ published p ↔ ∃ k, is_Some (pk_versions p !! k) ∧ version_of k = Some v.
Proof.
  unfold published. rewrite list_elem_of_omap. setoid_rewrite elem_of_bt_keys. naive_solver.
Qed.

Lemma select_version_sound name req p v :
  select_version name req p = Ok v →
  match req with
  | Latest => ∃ tag, pk_dist_tags p !! "latest" = Some tag ∧ version_of tag = Some v
  | Exact w => v = w ∧ is_Some (pk_versions p !! version_to_string v)
  | Range r => v ∈ published p ∧ range_matches r v = true ∧
      ∀ w, w ∈ published p → range_matches r w = true → version_leb w v = true
  end.
Proof using L.
  unfold select_version. destruct (is_empty_map _); [done|]. destruct req as [|w|r].
  - intros H. inv_ok. eexists. split; [done|]. by apply ok_Some.
  - unfold contains_key. case_bool_decide; [|done]. by intros [= <-].
  - intros [Hin Hmax]%ok_or_Ok%max_version_spec.
    apply list_elem_of_filter in Hin as [Hm Hin]. split_and!; [done..|].
    intros u Hu Hmu. apply Hmax, list_elem_of_filter. done.
Qed.

Lemma select_version_matches n rs spec p v :
  is_valid_npm_read_name n = true → parse_spec (n +:+ String "@" rs) = Ok spec →
  select_version n (ps_req spec) p = Ok v → request_matches rs v = true.
Proof using L.
  intros Hn Hs Hv%select_version_sound. rewrite (request_matches_parsed n rs spec v Hn Hs).
  destruct (ps_req spec); [done| |].
  - destruct Hv as [-> _]. by apply bool_decide_eq_true.
  - by destruct Hv as (_ & ? & _).
Qed.

(** C7.  Version selection: a selected version satisfies the textual range it was
    requested with (as the placement code tests it), is the greatest published
    version that does when the request is a range, and a range request on a
    non-empty packument fails only when no published version matches. *)
Theorem select_version_greatest n rs spec p :
  is_valid_npm_read_name n = true → parse_spec (n +:+ String "@" rs) = Ok spec →
  match select_version n (ps_req spec) p with
  | Ok v => request_matches rs v = true ∧
      ∀ r, ps_req spec = Range r → v ∈ published p ∧
        ∀ w, w ∈ published p → range_matches r w = true → version_leb w v = true
  | Err e => ∀ r, ps_req spec = Range r → pk_versions p ≠ ∅ →
      e = VersionNotFound n (range_to_string r) ∧
      ∀ w, w ∈ published p → range_matches r w = false
  end.
Proof using L.
  intros Hn Hs. destruct (select_version n (ps_req spec) p) as [v|e] eqn:Hsel.
  - split; [by eapply select_version_matches|]. intros r Hr.
    apply select_version_sound in Hsel. rewrite Hr in Hsel. naive_solver.
  - intros r Hr Hne. rewrite Hr in Hsel. unfold select_version, is_empty_map in Hsel.
    rewrite bool_decide_eq_false_2 in Hsel by done.
    apply ok_or_Err in Hsel as [Hnone ->]. split; [done|]. intros w Hw.
    apply max_version_None in Hnone. apply not_true_is_false. intros Hm.
    assert (w ∈ filter (λ v, range_matches r v = true) (published p)) as Hin
      by (by apply list_elem_of_filter).
    rewrite Hnone in Hin. set_solver.
Qed.

Context `{Cd : Codecs} `{Up : UrlParser}.

Lemma resolve_packument_inv spec p reg a :
  resolve_packument spec p reg = Ok a →
  select_version (ps_name spec) (ps_req spec) p = Ok (ra_version a) ∧
  ∃ m, pk_versions p !! version_to_string (ra_version a) = Some m ∧
    ra_metadata a = (if is_empty (vm_name m) then with_name m (ps_name spec) else m) ∧
    ra_name a = vm_name (ra_metadata a) ∧
    ra_integrity a = dist_integrity (vm_dist m) ∧
    (∃ d, Integrity_parse (ra_integrity a) = Ok d) ∧
    resolve_tarball_url reg (dist_tarball (vm_dist m)) (ps_name spec)
      (version_to_string (ra_version a)) = Ok (ra_tarball_url a) ∧
    dist_tarball (vm_dist m) ≠ "".
Proof using Type.
  unfold resolve_packument. intros (v & Hv & H)%bind_Ok.
  apply bind_Ok in H as (m & Hm & H). apply ok_or_Ok in Hm. cbv zeta in H.
  assert (vm_dist (if is_empty (vm_name m) then with_name m (ps_name spec) else m) = vm_dist m)
    as Hdist by by destruct (is_empty (vm_name m)).
  rewrite Hdist in H. destruct (is_empty (dist_tarball (vm_dist m)) || _) eqn:He; [done|].
  apply orb_false_iff in He as [He%is_empty_false _].
  apply bind_Ok in H as (d & Hd%map_err_Ok & H). apply bind_Ok in H as (url & Hurl & H).
  injection H as <-. simpl. split; [done|]. exists m. split_and!; eauto.
Qed.

(** C9.  Artifact vetting: a resolved artifact is a published entry of the packument
    selected for the request, its integrity field parses to a sha512 digest,
    and its tarball URL is either an absolute http(s) URL exactly as published
    or the published path below the configured registry base; nothing with
    another scheme (such as [file:]) is ever returned. *)
Theorem resolve_packument_vetted spec p reg a :
  resolve_packument spec p reg = Ok a →
  select_version (ps_name spec) (ps_req spec) p = Ok (ra_version a) ∧
  (∃ m, pk_versions p !! version_to_string (ra_version a) = Some m ∧
    ra_integrity a = dist_integrity (vm_dist m) ∧
    ((url_scheme (dist_tarball (vm_dist m)) ∈ [Some "http"; Some "https"] ∧
      ra_tarball_url a = dist_tarball (vm_dist m)) ∨
     (url_scheme (dist_tarball (vm_dist m)) = None ∧
      ∃ base path, ra_tarball_url a = base +:+ "/" +:+ path ∧
        (∃ t, reg = base +:+ t ∧ all_chars is_slash t = true) ∧
        starts_with_char "/" path = false))) ∧
  ∃ d, Integrity_parse (ra_integrity a) = Ok d ∧ digest_ok d.
Proof using Type.
  clear L. intros (Hsel & m & Hm & _ & _ & Hint & (d & Hd) & Hurl & _)%resolve_packument_inv.
  split; [done|]. split.
  - exists m. split; [done|]. split; [done|]. unfold resolve_tarball_url in Hurl.
    destruct (url_scheme (dist_tarball (vm_dist m))) as [scheme|].
    + left. destruct (decide (scheme = "http")) as [->|H1].
      { injection Hurl as <-. split; [set_solver|done]. }
      destruct (decide (scheme = "https")) as [->|H2].
      { injection Hurl as <-. split; [set_solver|done]. }
      rewrite !bool_decide_eq_false_2 in Hurl by done. done.
    + right. split; [done|]. injection Hurl as <-. eexists _, _. split; [done|].
      split; [apply trim_end_matches_spec|].
      generalize (dist_tarball (vm_dist m)) as t. intros t.
      induction t as [|c t IH]; [done|]. cbn [trim_start_matches].
      destruct (is_slash c) eqn:Hc; [done|].
      cbn [starts_with_char]. apply ceqb_neq. apply ceqb_neq in Hc. congruence.
  - exists d. split; [done|]. unfold Integrity_parse in Hd.
    destruct (parse_tokens _ _) as [d'|[|? ?]] eqn:Hp; simplify_eq.
    by eapply parse_tokens_digest_ok.
Qed.
End specs.

(** ** Witnesses *)

Module Sample.
(** [scheme://rest], or a relative reference. *)
#[export] Instance url_parser : UrlParser := {
  url_scheme s := fst <$> split_once "://" s }.

#[export] Existing Instances Mini.semver Mini.laws Plain.codecs.

Definition version (a b c : N) : Version := Mini.mk a b c.

Definition metadata (name : string) (v : Version) : VersionMetadata :=
  mk_VersionMetadata name v None ∅ ∅ ∅ ∅ ∅
    (mk_Dist ("/" +:+ name +:+ "/-/" +:+ name +:+ ".tgz") (to_npm_string sample_digest) None)
    ∅ [] [] [] false false.

Definition packument (name : string) (vs : list Version) : Packument :=
  mk_Packument name
    (match last vs with
     | Some v => {[ "latest" := version_to_string v ]}
     | None => ∅
     end)
    (list_to_map ((λ v, (version_to_string v, metadata name v)) <$> vs)).

Definition left_pad : Packument :=
  packument "left-pad" [version 1 0 0; version 1 3 0; version 2 0 0].
End Sample.

Section witnesses.
Import Sample.

Lemma parse_spec_roundtrip_witness :
  parse_spec ("@types/node" +:+ String "@" (version_to_string (version 20 1 0)))
    = Ok (mk_PackageSpec "@types/node" (Exact (version 20 1 0))).
Proof.
  refine (proj1 (parse_spec_roundtrip "@types/node" (version 20 1 0) "x"
                   (mk_PackageSpec "x" Latest) _ _)); [reflexivity|decided].
Defined.

Definition caret_request : PackageSpec :=
  mk_PackageSpec "left-pad"
    (Range (mk_VersionRange [[(Mini.Caret, version 1 0 0)] : VersionReq])).

Lemma select_version_greatest_witness :
  select_version "left-pad" (ps_req caret_request) left_pad = Ok (version 1 3 0) ∧
  request_matches "^1.0.0" (version 1 3 0) = true.
Proof.
  assert (parse_spec ("left-pad" +:+ String "@" "^1.0.0") = Ok caret_request) as Hp by decided.
  assert (select_version "left-pad" (ps_req caret_request) left_pad = Ok (version 1 3 0)) as Hs
    by decided.
  split; [exact Hs|].
  pose proof (select_version_greatest "left-pad" "^1.0.0" caret_request left_pad eq_refl Hp) as H.
  rewrite Hs in H. exact (proj1 H).
Defined.

Lemma resolve_packument_vetted_witness :
  match resolve_packument (mk_PackageSpec "left-pad" Latest) left_pad
          "https://registry.npmjs.org/" with
  | Ok a => ra_tarball_url a = "https://registry.npmjs.org/left-pad/-/left-pad.tgz" ∧
      ∃ d, Integrity_parse (ra_integrity a) = Ok d ∧ digest_ok d
  | Err _ => False
  end.
Proof.
  assert (ra_tarball_url <$> ok (resolve_packument (mk_PackageSpec "left-pad" Latest) left_pad
            "https://registry.npmjs.org/")
          = Some "https://registry.npmjs.org/left-pad/-/left-pad.tgz") as Hr by decided.
  destruct (resolve_packument _ _ _) as [a|e] eqn:Ha; [|discriminate Hr].
  split; [injection Hr as Hr; exact Hr|].
  exact (proj2 (proj2 (resolve_packument_vetted _ _ _ _ Ha))).
Defined.
End witnesses.
