(* ===== verification/Fetch.v ===== *)
(** * [src/resolver/fetch.rs]: the cached packument source

    An LRU cache in front of another source.  The cache crate is a class with
    the behaviour it documents; the mutex is held for a lookup and for a store
    but not while the inner source is asked, so calls of several threads
    interleave: they are the steps of a transition system. *)

From S2P Require Export StateError Registry.
From Stdlib Require Import Ascii.

(** ** The cache crate *)

Class LruCache (V : Type) := {
  lru : Type;
  lru_new : nat → lru;
  lru_get : string → lru → option V * lru;
  lru_put : string → V → lru → lru;
  (** Most recently used first. *)
  lru_entries : lru → list (string * V);
  lru_capacity : lru → nat }.
Arguments lru V {_}.

Definition lru_find {V} (k : string) (l : list (string * V)) : option V :=
  snd <$> find (λ e, bool_decide (e.1 = k)) l.
Definition lru_without {V} (k : string) (l : list (string * V)) : list (string * V) :=
  List.filter (λ e, negb (bool_decide (e.1 = k))) l.

Class LruLaws V (C : LruCache V) : Prop := {
  lru_new_entries n : lru_entries (lru_new n) = [];
  lru_new_capacity n : lru_capacity (lru_new n) = n;
  lru_get_result k c : (lru_get k c).1 = lru_find k (lru_entries c);
  (** A hit becomes the most recently used entry. *)
  lru_get_entries k c : lru_entries (lru_get k c).2 =
    match lru_find k (lru_entries c) with
    | Some v => (k, v) :: lru_without k (lru_entries c)
    | None => lru_entries c
    end;
  lru_get_capacity k c : lru_capacity (lru_get k c).2 = lru_capacity c;
  (** A new entry evicts the least recently used ones beyond the capacity. *)
  lru_put_entries k v c :
    lru_entries (lru_put k v c) = firstn (lru_capacity c) ((k, v) :: lru_without k (lru_entries c));
  lru_put_capacity k v c : lru_capacity (lru_put k v c) = lru_capacity c }.

Section fetch.
Context `{Sv : Semver} `{Lc : LruCache Packument}.
(** The source that is wrapped: the registry of a name. *)
Variable registry_for_package : string → string.

Definition with_capacity (capacity : nat) : lru Packument := lru_new (capacity `max` 1).
Definition CachedPackumentSource_new : lru Packument := with_capacity 256.

Definition version_request_to_key (req : VersionRequest) : string :=
  match req with
  | Latest => "latest"
  | Exact version => version_to_string version
  | Range range => range_to_string range
  end.

Definition cache_key (spec : PackageSpec) : string :=
  trim_end_matches (ceqb "/") (registry_for_package (ps_name spec)) +:+ String nul
    (ps_name spec +:+ String nul (version_request_to_key (ps_req spec))).

(** The two critical sections of [packument_for]. *)
Definition look_up (spec : PackageSpec) (c : lru Packument) : option Packument * lru Packument :=
  lru_get (cache_key spec) c.
Definition store_result (spec : PackageSpec) (p : Packument) (c : lru Packument) : lru Packument :=
  lru_put (cache_key spec) p c.

(** One call on its own; [inner] is what the wrapped source answers. *)
Definition packument_for (inner : result RegistryError Packument) (spec : PackageSpec) :
    M (lru Packument) RegistryError Packument := λ c,
  let '(hit, c) := look_up spec c in
  match hit with
  | Some packument => (c, Ok packument)
  | None =>
      match inner with
      | Err e => (c, Err e)
      | Ok packument => (store_result spec packument c, Ok packument)
      end
  end.

(** ** Interleaved calls *)

(** The cache, the calls waiting for the inner source, what that source has
    answered, and what the callers got. *)
Record world := mk_world {
  w_cache : lru Packument;
  w_waiting : list PackageSpec;
  w_inner : list (PackageSpec * result RegistryError Packument);
  w_answers : list (PackageSpec * result RegistryError Packument) }.

Inductive step : world → world → Prop :=
  | step_hit w spec p :
      (look_up spec (w_cache w)).1 = Some p →
      step w (mk_world (look_up spec (w_cache w)).2 (w_waiting w) (w_inner w)
                (w_answers w ++ [(spec, Ok p)]))
  | step_miss w spec :
      (look_up spec (w_cache w)).1 = None →
      step w (mk_world (look_up spec (w_cache w)).2 (spec :: w_waiting w) (w_inner w) (w_answers w))
  | step_failed w before spec after e :
      w_waiting w = before ++ spec :: after →
      step w (mk_world (w_cache w) (before ++ after) (w_inner w ++ [(spec, Err e)])
                (w_answers w ++ [(spec, Err e)]))
  | step_fetched w before spec after p :
      w_waiting w = before ++ spec :: after →
      step w (mk_world (store_result spec p (w_cache w)) (before ++ after)
                (w_inner w ++ [(spec, Ok p)]) (w_answers w ++ [(spec, Ok p)])).

Definition start (capacity : nat) : world := mk_world (with_capacity capacity) [] [] [].

(** A call that runs alone takes one or two steps. *)
Lemma packument_for_steps inner spec w :
  let r := packument_for inner spec (w_cache w) in
  ∃ w', rtc step w w' ∧ w_cache w' = r.1 ∧ w_answers w' = w_answers w ++ [(spec, r.2)].
Proof using Type.
  unfold packument_for. destruct (look_up spec (w_cache w)) as [[p|] c] eqn:Hl.
  - eexists. split; [eapply rtc_once, (step_hit w spec p); by rewrite Hl|]. by rewrite Hl.
  - set (w1 := mk_world c (spec :: w_waiting w) (w_inner w) (w_answers w)).
    assert (step w w1) as H1.
    { pose proof (step_miss w spec) as H. rewrite Hl in H. by apply H. }
    destruct inner as [p|e].
    + eexists. split; [eapply rtc_l; [exact H1|]; apply rtc_once, (step_fetched w1 [] spec (w_waiting w) p); done|done].
    + eexists. split; [eapply rtc_l; [exact H1|]; apply rtc_once, (step_failed w1 [] spec (w_waiting w) e); done|done].
Qed.

(** ** Invariant *)

Context {Ll : LruLaws Packument Lc}.

Record fetch_inv (capacity : nat) (w : world) : Prop := mk_fetch_inv {
  fi_entries : ∀ k p, (k, p) ∈ lru_entries (w_cache w) →
    ∃ spec, cache_key spec = k ∧ (spec, Ok p) ∈ w_inner w;
  fi_answers : ∀ spec r, (spec, r) ∈ w_answers w →
    match r with
    | Ok p => ∃ spec', cache_key spec' = cache_key spec ∧ (spec', Ok p) ∈ w_inner w
    | Err e => (spec, Err e) ∈ w_inner w
    end;
  fi_capacity : lru_capacity (w_cache w) = capacity `max` 1;
  fi_bound : length (lru_entries (w_cache w)) ≤ capacity `max` 1;
  fi_keys : NoDup (lru_entries (w_cache w)).*1 }.

Lemma lru_find_Some {V} k (l : list (string * V)) v : lru_find k l = Some v → (k, v) ∈ l.
Proof using Type.
  unfold lru_find. intros ([k' v'] & Hf & ->)%fmap_Some. apply List.find_some in Hf as [Hin Hk].
  simpl in Hk. apply bool_decide_eq_true_1 in Hk as <-. by apply list_elem_of_In.
Qed.
Lemma elem_of_lru_without {V} k (l : list (string * V)) e : e ∈ lru_without k l ↔ e ∈ l ∧ e.1 ≠ k.
Proof using Type.
  unfold lru_without. rewrite !list_elem_of_In, List.filter_In, negb_true_iff, bool_decide_eq_false. done.
Qed.
Lemma lru_without_NoDup {V} k (l : list (string * V)) : NoDup l.*1 → NoDup (lru_without k l).*1.
Proof using Type.
  unfold lru_without. induction l as [|[k' v] l IH]; csimpl; [constructor|].
  intros [Hn Hl]%NoDup_cons. case_bool_decide; csimpl; [by apply IH|]. constructor; [|by apply IH].
  intros ([k1 v1] & -> & Hin)%list_elem_of_fmap. apply elem_of_lru_without in Hin as [Hin _].
  apply Hn. apply list_elem_of_fmap. by exists (k1, v1).
Qed.
Lemma not_elem_without {V} k (l : list (string * V)) : k ∉ (lru_without k l).*1.
Proof using Type. intros ([k1 v1] & -> & [_ Hne]%elem_of_lru_without)%list_elem_of_fmap. done. Qed.
Lemma lru_without_length {V} k (l : list (string * V)) v :
  NoDup l.*1 → lru_find k l = Some v → length (lru_without k l) < length l.
Proof using Type.
  intros _ Hf%lru_find_Some. unfold lru_without. induction l as [|[k' v'] l IH]; [by apply not_elem_of_nil in Hf|].
  simpl. apply elem_of_cons in Hf as [[= <- <-]|Hf].
  - rewrite bool_decide_eq_true_2 by done. simpl.
    pose proof (List.filter_length_le (λ e : string * V, negb (bool_decide (e.1 = k))) l). lia.
  - specialize (IH Hf). destruct (negb _); simpl; lia.
Qed.

Lemma look_up_inv spec c k p : (k, p) ∈ lru_entries (look_up spec c).2 → (k, p) ∈ lru_entries c.
Proof using Ll.
  unfold look_up. rewrite lru_get_entries. destruct (lru_find _ _) eqn:Hf; [|done].
  intros [[= -> ->]|[H _]%elem_of_lru_without]%elem_of_cons; [by apply lru_find_Some|done].
Qed.
Lemma look_up_bound spec c n : NoDup (lru_entries c).*1 → length (lru_entries c) ≤ n →
  NoDup (lru_entries (look_up spec c).2).*1 ∧ length (lru_entries (look_up spec c).2) ≤ n.
Proof using Ll.
  intros Hnd Hl. unfold look_up. rewrite lru_get_entries. destruct (lru_find _ _) eqn:Hf; [|done].
  split.
  - csimpl. constructor; [apply not_elem_without|by apply lru_without_NoDup].
  - simpl. pose proof (lru_without_length _ _ _ Hnd Hf). lia.
Qed.

Lemma step_inv n w w' : step w w' → fetch_inv n w → fetch_inv n w'.
Proof using Ll.
  intros Hs [He Ha Hc Hb Hk].
  assert (∀ (l : list (PackageSpec * result RegistryError Packument)) x y, x ∈ l → x ∈ l ++ [y]) as Hmore
    by (intros; by apply elem_of_app; left).
  assert (∀ x spec r, (spec, r) ∈ w_answers w →
    match r with
    | Ok p => ∃ spec', cache_key spec' = cache_key spec ∧ (spec', Ok p) ∈ w_inner w ++ [x]
    | Err e => (spec, Err e) ∈ w_inner w ++ [x]
    end) as Hold.
  { intros x spec [p|e] Hin; specialize (Ha _ _ Hin); simpl in Ha; [|by apply Hmore].
    destruct Ha as (spec' & ? & ?). exists spec'. auto. }
  destruct Hs as [w spec p Hl|w spec Hl|w before spec after e Hw|w before spec after p Hw].
  - destruct (look_up_bound spec (w_cache w) _ Hk Hb) as [Hnd Hlen].
    split; cbn [w_cache w_inner w_answers]; [| | |done|done].
    + intros k p' Hin%look_up_inv. by apply He.
    + intros spec' r [Hin|[= -> ->]%list_elem_of_singleton]%elem_of_app; [by apply Ha|].
      unfold look_up in Hl. rewrite lru_get_result in Hl. apply lru_find_Some in Hl. by apply He in Hl.
    + unfold look_up. by rewrite lru_get_capacity.
  - destruct (look_up_bound spec (w_cache w) _ Hk Hb) as [Hnd Hlen].
    split; cbn [w_cache w_inner w_answers]; [|done| |done|done].
    + intros k p' Hin%look_up_inv. by apply He.
    + unfold look_up. by rewrite lru_get_capacity.
  - split; cbn [w_cache w_inner w_answers]; [| |done|done|done].
    + intros k p' (spec' & Hk' & Hin)%He. exists spec'. auto.
    + intros spec' r [Hin|[= -> ->]%list_elem_of_singleton]%elem_of_app; [by apply Hold|].
      apply elem_of_app. right. by apply list_elem_of_singleton.
  - split; cbn [w_cache w_inner w_answers]; unfold store_result.
    + intros k p'. rewrite lru_put_entries. intros Hin.
      assert ((k, p') ∈ (cache_key spec, p) :: lru_without (cache_key spec) (lru_entries (w_cache w))) as H.
      { rewrite <- (firstn_skipn (lru_capacity (w_cache w))). apply elem_of_app. by left. }
      apply elem_of_cons in H as [[= -> ->]|[H _]%elem_of_lru_without].
      * exists spec. split; [done|]. apply elem_of_app. right. by apply list_elem_of_singleton.
      * apply He in H as (spec' & ? & ?). exists spec'. auto.
    + intros spec' r [Hin|[= -> ->]%list_elem_of_singleton]%elem_of_app; [by apply Hold|].
      exists spec. split; [done|]. apply elem_of_app. right. by apply list_elem_of_singleton.
    + by rewrite lru_put_capacity.
    + rewrite lru_put_entries, length_firstn, Hc. lia.
    + rewrite lru_put_entries, <- firstn_map.
      eapply sublist_NoDup; [|apply sublist_take]. csimpl.
      constructor; [apply not_elem_without|by apply lru_without_NoDup].
Qed.

Lemma fetch_inv_reachable n w : rtc step (start n) w → fetch_inv n w.
Proof using Ll.
  intros Hr. assert (∀ w1, rtc step w1 w → fetch_inv n w1 → fetch_inv n w) as Hind.
  { clear Hr. intros w1. induction 1; [done|]. eauto using step_inv. }
  apply (Hind _ Hr). split; cbn [w_cache w_answers start]; unfold with_capacity;
    rewrite ?lru_new_entries, ?lru_new_capacity; csimpl; try done; try lia; try constructor.
  - intros k p H. by apply not_elem_of_nil in H.
  - intros spec r H. by apply not_elem_of_nil in H.
Qed.

(** ** Keys *)

Lemma split_nul a b r s : contains_char nul a = false → contains_char nul b = false →
  a +:+ String nul r = b +:+ String nul s → a = b ∧ r = s.
Proof using Type.
  revert b. induction a as [|c a IH]; intros [|d b]; unfold contains_char; simpl; try rewrite !app_cons_s.
  - intros _ _ [= ->]. done.
  - intros _ Hd [= <- _]. by destruct (ceqb nul nul) eqn:E.
  - intros Hc _ [= -> _]. by destruct (ceqb nul nul) eqn:E.
  - intros [_ Ha]%orb_false_iff [_ Hb]%orb_false_iff [= <- H].
    destruct (IH b Ha Hb H) as [-> ->]. done.
Qed.

(** No NUL in the name or in its registry's URL. *)
Definition clean_spec (spec : PackageSpec) : Prop :=
  contains_char nul (ps_name spec) = false ∧
  contains_char nul (trim_end_matches (ceqb "/") (registry_for_package (ps_name spec))) = false.
Lemma cache_key_inj spec spec' : clean_spec spec → clean_spec spec' →
  cache_key spec = cache_key spec' →
  ps_name spec = ps_name spec' ∧ version_request_to_key (ps_req spec) = version_request_to_key (ps_req spec').
Proof using Type.
  intros [Hn Hr] [Hn' Hr'] Heq. unfold cache_key in Heq.
  apply split_nul in Heq as [_ Heq]; [|done..]. by apply split_nul in Heq.
Qed.

End fetch.

(** ** A concrete cache *)

#[local] Existing Instance Mini.semver.

Module ListCache.
Record cache := mk { capacity : nat; entries : list (string * Packument) }.
#[global] Instance list_cache : LruCache Packument := {|
  lru := cache;
  lru_new n := mk n [];
  lru_get k c := match lru_find k (entries c) with
                 | Some v => (Some v, mk (capacity c) ((k, v) :: lru_without k (entries c)))
                 | None => (None, c)
                 end;
  lru_put k v c := mk (capacity c) (firstn (capacity c) ((k, v) :: lru_without k (entries c)));
  lru_entries := entries;
  lru_capacity := capacity |}.
#[global] Instance list_cache_laws : LruLaws Packument list_cache.
Proof. split; intros; simpl; try done; by destruct (lru_find k (entries c)). Qed.

Definition registry (name : string) : string := "https://registry.example/".
Definition spec (name : string) : PackageSpec := mk_PackageSpec name Latest.
Definition packument (name : string) : Packument := mk_Packument name ∅ ∅.
End ListCache.

(** A miss whose answer is stored, and a hit of the same name. *)
Notation sp := (ListCache.spec "a").
Notation pk := (ListCache.packument "a").
Definition key_a : string := cache_key ListCache.registry sp.
Definition world_at (entries : list (string * Packument)) waiting inner answers : world :=
  mk_world (ListCache.mk 1 entries) waiting inner answers.
Definition after_hit : world :=
  world_at [(key_a, pk)] [] [(sp, Ok pk)] [(sp, Ok pk); (sp, Ok pk)].

Lemma after_hit_reachable : rtc (step ListCache.registry) (start 1) after_hit.
Proof.
  assert (step ListCache.registry (start 1) (world_at [] [sp] [] [])) as H1
    by exact (step_miss ListCache.registry (start 1) sp eq_refl).
  assert (step ListCache.registry (world_at [] [sp] [] [])
    (world_at [(key_a, pk)] [] [(sp, Ok pk)] [(sp, Ok pk)])) as H2.
  { pose proof (step_fetched ListCache.registry (world_at [] [sp] [] []) [] sp [] pk eq_refl) as H.
    unfold store_result in H. fold key_a in H.
    cbn [w_cache w_inner w_answers world_at lru_put ListCache.list_cache ListCache.entries ListCache.capacity
      firstn lru_without List.filter app] in H. exact H. }
  assert (lru_find key_a [(key_a, pk)] = Some pk) as Hf
    by (unfold lru_find; cbn [List.find fst]; by rewrite bool_decide_eq_true_2).
  assert (step ListCache.registry (world_at [(key_a, pk)] [] [(sp, Ok pk)] [(sp, Ok pk)]) after_hit) as H3.
  { pose proof (step_hit ListCache.registry (world_at [(key_a, pk)] [] [(sp, Ok pk)] [(sp, Ok pk)]) sp pk) as H.
    unfold look_up in H. fold key_a in H. cbn [w_cache world_at lru_get ListCache.list_cache ListCache.entries ListCache.capacity] in H.
    rewrite Hf in H. cbn [fst snd] in H.
    assert (lru_without key_a [(key_a, pk)] = []) as Hw
      by (unfold lru_without; cbn [List.filter fst]; by rewrite bool_decide_eq_true_2).
    rewrite Hw in H. apply H. reflexivity. }
  eapply rtc_l; [exact H1|]. eapply rtc_l; [exact H2|]. eapply rtc_l; [exact H3|]. apply rtc_refl.
Qed.

