(* ===== verification/Json.v ===== *)
(** * [serde_json::Value]

    A JSON object is a [BTreeMap] (the [preserve_order] feature is off), so it is
    the list of its entries in ascending key order. *)

From S2P Require Export Str.

Inductive json_number :=
  | PosInt (n : N)
  | NegInt (z : Z)
  | Float (repr : string).

Inductive Value :=
  | VNull
  | VBool (b : bool)
  | VNumber (n : json_number)
  | VString (s : string)
  | VArray (l : list Value)
  | VObject (entries : list (string * Value)).

Definition as_str (v : Value) : option string :=
  match v with VString s => Some s | _ => None end.
Definition as_u64 (v : Value) : option N :=
  match v with VNumber (PosInt n) => Some n | _ => None end.
Definition as_object (v : Value) : option (list (string * Value)) :=
  match v with VObject entries => Some entries | _ => None end.
Definition as_array (v : Value) : option (list Value) :=
  match v with VArray l => Some l | _ => None end.

(** [value.get(key)] on an object. *)
Definition get_entry (entries : list (string * Value)) (key : string) : option Value :=
  (λ ikv, ikv.2.2) <$> list_find (λ kv : string * Value, kv.1 = key) entries.
Definition Value_get (v : Value) (key : string) : option Value :=
  match v with VObject entries => get_entry entries key | _ => None end.

(** Induction that reaches the values nested in arrays and objects. *)
Section value_ind.
Variable P : Value → Prop.
Hypotheses (Hnull : P VNull) (Hbool : ∀ b, P (VBool b)) (Hnumber : ∀ n, P (VNumber n))
  (Hstring : ∀ s, P (VString s)) (Harray : ∀ l, Forall P l → P (VArray l))
  (Hobject : ∀ entries, Forall (λ kv, P kv.2) entries → P (VObject entries)).

Fixpoint Value_ind' (v : Value) : P v :=
  match v with
  | VNull => Hnull
  | VBool b => Hbool b
  | VNumber n => Hnumber n
  | VString s => Hstring s
  | VArray l =>
      Harray l ((fix go l : Forall P l :=
        match l with [] => Forall_nil_2 _ | v :: l => Forall_cons_2 _ _ _ (Value_ind' v) (go l) end) l)
  | VObject entries =>
      Hobject entries ((fix go es : Forall (λ kv : string * Value, P kv.2) es :=
        match es with
        | [] => Forall_nil_2 _
        | (k, v) :: es => Forall_cons_2 (λ kv : string * Value, P kv.2) (k, v) es (Value_ind' v) (go es)
        end) entries)
  end.
End value_ind.
