(* ===== verification/ManifestEdit.v ===== *)
(** * [src/manifest_edit.rs]: editing the dependencies of [package.json]

    The document model and its four operations on the raw JSON object, and what
    each edit changes and keeps.  Parsing and pretty-printing JSON text are the
    class [JsonText] with its round-trip law.  Publication is in [Publish]. *)

From S2P Require Export Json.
From Stdlib Require Import Ascii.

(** ** [serde_json::Map] *)

Notation object := (list (string * Value)).

Fixpoint map_insert (key : string) (value : Value) (m : object) : object :=
  match m with
  | [] => [(key, value)]
  | (k, v) :: rest =>
      match String.compare key k with
      | Lt => (key, value) :: m
      | Eq => (key, value) :: rest
      | Gt => (k, v) :: map_insert key value rest
      end
  end.
Definition map_remove (key : string) (m : object) : object :=
  filter (λ kv : string * Value, kv.1 ≠ key) m.
Definition map_contains (key : string) (m : object) : bool :=
  bool_decide (is_Some (get_entry m key)).

(** A map as the library keeps it: keys in strictly ascending order. *)
Definition map_ok (m : object) : Prop := StronglySorted str_lt m.*1.

(** [serde_json::from_slice] and [to_vec_pretty] on values with ordered keys. *)
Class JsonText := {
  json_parse : string → result string Value;
  json_pretty : Value → string;
  value_ok : Value → Prop;
}.
Class JsonTextLaws (J : JsonText) : Prop := {
  json_parse_pretty v : value_ok v → json_parse (json_pretty v) = Ok v;
  json_parse_newline s v : json_parse s = Ok v → json_parse (s +:+ String newline "") = Ok v;
  json_parse_ok s v : json_parse s = Ok v → value_ok v;
  value_ok_object m : value_ok (VObject m) ↔ map_ok m ∧ ∀ k v, (k, v) ∈ m → value_ok v;
  value_ok_string s : value_ok (VString s);
}.

(** ** The document *)

Inductive DependencySection := Production | Dev.
Definition json_key (s : DependencySection) : string :=
  match s with Production => "dependencies" | Dev => "devDependencies" end.
Definition DEPENDENCY_SECTIONS : list string :=
  ["dependencies"; "devDependencies"; "optionalDependencies"; "peerDependencies"].

Inductive ManifestEditError :=
  | MERead (path message : string)
  | MEParse (path message : string)
  | MENotObject (path : string)
  | MESectionNotObject (path section : string)
  | MEAmbiguousDependency (path name : string).

Record ManifestDocument := mk_ManifestDocument {
  md_source_path : string; md_root : object; md_original_bytes : string;
  md_trailing_newline : bool }.

Section document.
Context `{J : JsonText}.

Definition ends_with_newline (bytes : string) : bool := ends_with (String newline "") bytes.

Definition from_bytes (bytes source_path : string) : result ManifestEditError ManifestDocument :=
  root_value ← map_err (MEParse source_path) (json_parse bytes);
  match root_value with
  | VObject root => Ok (mk_ManifestDocument source_path root bytes (ends_with_newline bytes))
  | _ => Err (MENotObject source_path)
  end.

Definition with_root (d : ManifestDocument) (root : object) : ManifestDocument :=
  mk_ManifestDocument (md_source_path d) root (md_original_bytes d) (md_trailing_newline d).

Definition contains (d : ManifestDocument) (section name : string) : bool :=
  match get_entry (md_root d) section ≫= as_object with
  | Some m => map_contains name m
  | None => false
  end.

Definition has_dependency (d : ManifestDocument) (name : string) : bool :=
  existsb (λ section, contains d section name) DEPENDENCY_SECTIONS.

Definition ensure_section_object (d : ManifestDocument) (section : string)
    : result ManifestEditError () :=
  match get_entry (md_root d) section with
  | None | Some (VObject _) => Ok ()
  | Some _ => Err (MESectionNotObject (md_source_path d) section)
  end.

(** [if let Some(Value::Object(map)) = root.get_mut(section) { map.remove(name) }]. *)
Definition remove_from (root : object) (section name : string) : object :=
  match get_entry root section with
  | Some (VObject m) => map_insert section (VObject (map_remove name m)) root
  | _ => root
  end.

Definition dual_section (s : DependencySection) : string :=
  match s with Production => "devDependencies" | Dev => "dependencies" end.

Definition add_dependency (d : ManifestDocument) (section : DependencySection) (name spec : string)
    : result ManifestEditError ManifestDocument :=
  fail_if (contains d "optionalDependencies" name || contains d "peerDependencies" name)
    with_err (MEAmbiguousDependency (md_source_path d) name);
  _ ← ensure_section_object d (json_key section);
  let m := default [] (get_entry (md_root d) (json_key section) ≫= as_object) in
  let root := map_insert (json_key section) (VObject (map_insert name (VString spec) m)) (md_root d) in
  Ok (with_root d (remove_from root (dual_section section) name)).

Definition remove_dependency (d : ManifestDocument) (name : string) : ManifestDocument * bool :=
  foldl (λ (st : ManifestDocument * bool) section,
      let '(d, removed) := st in
      (with_root d (remove_from (md_root d) section name), removed || contains d section name))
    (d, false) DEPENDENCY_SECTIONS.

Definition render (d : ManifestDocument) : string :=
  let out := json_pretty (VObject (md_root d)) in
  if md_trailing_newline d then out +:+ String newline "" else out.

Definition changed (d : ManifestDocument) : bool := negb (bool_decide (render d = md_original_bytes d)).
End document.

(** ** Lemmas: ordered maps *)

Lemma get_entry_nil key : get_entry [] key = None.
Proof. done. Qed.
Lemma get_entry_cons k v m key :
  get_entry ((k, v) :: m) key = if decide (k = key) then Some v else get_entry m key.
Proof.
  unfold get_entry. simpl. case_decide; [done|].
  by destruct (list_find _ m) as [[]|].
Qed.

Lemma compare_lt_str a b : String.compare a b = Lt ↔ str_lt a b.
Proof. unfold str_lt, String.ltb. by destruct (String.compare a b). Qed.

Lemma compare_refl_s a : String.compare a a = Eq.
Proof.
  pose proof (leb_refl_s a) as Hr. unfold String.leb in Hr.
  pose proof (String.compare_antisym a a) as Ha. by destruct (String.compare a a).
Qed.

Lemma get_insert_eq key v m : map_ok m → get_entry (map_insert key v m) key = Some v.
Proof.
  induction m as [|[k w] m IH]; intros Hm; cbn [map_insert].
  - by rewrite get_entry_cons, decide_True.
  - destruct (String.compare key k) eqn:Hc; rewrite get_entry_cons.
    + by rewrite decide_True.
    + by rewrite decide_True.
    + rewrite decide_False.
      * apply IH. by apply StronglySorted_inv in Hm as [? _].
      * intros ->. by rewrite compare_refl_s in Hc.
Qed.

Lemma get_insert_ne key v m key' : key' ≠ key → get_entry (map_insert key v m) key' = get_entry m key'.
Proof.
  intros Hne. induction m as [|[k w] m IH]; cbn [map_insert].
  - by rewrite get_entry_cons, decide_False by done.
  - destruct (String.compare key k) eqn:Hc; rewrite !get_entry_cons.
    + apply String.compare_eq_iff in Hc as ->. by rewrite !decide_False by done.
    + by rewrite (decide_False (P := key = key')) by done.
    + by rewrite IH.
Qed.

Lemma get_remove key m key' :
  get_entry (map_remove key m) key' = if decide (key' = key) then None else get_entry m key'.
Proof.
  unfold map_remove. induction m as [|[k w] m IH]; [by case_decide|].
  rewrite filter_cons. destruct (decide ((k, w).1 ≠ key)) as [Hk|Hk]; simpl in Hk.
  - rewrite !get_entry_cons, IH. repeat case_decide; congruence.
  - rewrite IH, get_entry_cons. apply dec_stable in Hk as ->. repeat case_decide; congruence.
Qed.

Lemma insert_keys key v m x : x ∈ (map_insert key v m).*1 → x = key ∨ x ∈ m.*1.
Proof.
  induction m as [|[k w] m IH]; cbn [map_insert].
  - intros ->%list_elem_of_singleton. by left.
  - destruct (String.compare key k); rewrite ?fmap_cons, ?elem_of_cons; [tauto|tauto|].
    intros [->|H%IH]; tauto.
Qed.

Lemma map_insert_ok key v m : map_ok m → map_ok (map_insert key v m).
Proof.
  unfold map_ok. induction m as [|[k w] m IH]; intros Hm; cbn [map_insert].
  - repeat constructor.
  - destruct (String.compare key k) eqn:Hc; rewrite !fmap_cons in *.
    + apply String.compare_eq_iff in Hc as ->. done.
    + apply compare_lt_str in Hc. constructor; [done|]. apply StronglySorted_inv in Hm as [_ Hk].
      constructor; [done|]. eapply Forall_impl; [exact Hk|]. intros x. by apply str_lt_trans.
    + apply StronglySorted_inv in Hm as [Hm Hk]. constructor; [by apply IH|].
      rewrite Forall_forall in *. intros x [->|Hx]%insert_keys; [|by apply Hk].
      rewrite String.compare_antisym in Hc. apply compare_lt_str.
      simpl. revert Hc. by destruct (String.compare k key).
Qed.

Lemma map_remove_ok key m : map_ok m → map_ok (map_remove key m).
Proof.
  unfold map_ok, map_remove. induction m as [|[k w] m IH]; intros Hm; [done|].
  rewrite filter_cons. apply StronglySorted_inv in Hm as [Hm Hk]. case_decide; [|by apply IH].
  rewrite fmap_cons. constructor; [by apply IH|]. rewrite Forall_forall in *.
  intros x ([k' v'] & -> & [_ Hin]%list_elem_of_filter)%list_elem_of_fmap. apply Hk.
  apply list_elem_of_fmap. by exists (k', v').
Qed.

(** ** What an edit changes *)

(** The entry of [name] in a section of the document. *)
Definition lookup_dep (root : object) (section name : string) : option Value :=
  m ← get_entry root section ≫= as_object; get_entry m name.

Lemma get_remove_from root section name section' :
  map_ok root →
  get_entry (remove_from root section name) section' =
  if decide (section' = section) then
    match get_entry root section with
    | Some (VObject m) => Some (VObject (map_remove name m))
    | other => other
    end
  else get_entry root section'.
Proof.
  intros Hok. unfold remove_from. destruct (get_entry root section) as [[]|] eqn:He;
    case_decide; subst; try done; [by apply get_insert_eq|by apply get_insert_ne].
Qed.

Lemma remove_from_ok root section name : map_ok root → map_ok (remove_from root section name).
Proof.
  intros Hok. unfold remove_from. destruct (get_entry root section) as [[]|]; try done.
  by apply map_insert_ok.
Qed.

Lemma lookup_remove_from root section name section' name' :
  map_ok root →
  lookup_dep (remove_from root section name) section' name' =
  if decide (section' = section ∧ name' = name) then None else lookup_dep root section' name'.
Proof.
  intros Hok. unfold lookup_dep. rewrite get_remove_from by done.
  destruct (decide (section' = section)) as [->|Hne].
  - destruct (get_entry root section) as [[]|]; simpl; try (by case_decide).
    rewrite get_remove. repeat case_decide; naive_solver.
  - rewrite (decide_False (P := _ ∧ _)) by naive_solver. done.
Qed.

Lemma contains_lookup d section name :
  contains d section name = true ↔ is_Some (lookup_dep (md_root d) section name).
Proof.
  unfold contains, lookup_dep, map_contains.
  destruct (get_entry (md_root d) section ≫= as_object) as [m|]; simpl.
  - apply bool_decide_eq_true.
  - split; [done|]. by intros [? ?].
Qed.

Lemma contains_lookup_false d section name :
  contains d section name = false ↔ lookup_dep (md_root d) section name = None.
Proof.
  rewrite <- not_true_iff_false, contains_lookup, <- not_eq_None_Some. split; [|tauto].
  intros H. destruct (lookup_dep _ _ _); [|done]. exfalso. by apply H.
Qed.

(** A parsed document: the top level and every section are ordered maps. *)
Definition root_ok (root : object) : Prop :=
  map_ok root ∧ ∀ section m, get_entry root section = Some (VObject m) → map_ok m.

Lemma remove_from_root_ok root section name :
  root_ok root → root_ok (remove_from root section name).
Proof.
  intros [Hok Hs]. split; [by apply remove_from_ok|]. intros section' m.
  rewrite get_remove_from by done. case_decide; [|by apply Hs].
  destruct (get_entry root section) as [[]|] eqn:He; try done.
  intros [= <-]. eapply map_remove_ok, Hs, He.
Qed.

Lemma lookup_insert_dep root key m section name v section' name' :
  root_ok root → section = key → map_ok m →
  lookup_dep (map_insert key (VObject (map_insert name v m)) root) section' name' =
  if decide (section' = section ∧ name' = name) then Some v
  else if decide (section' = section) then get_entry m name' else lookup_dep root section' name'.
Proof.
  intros [Hok _] -> Hm. unfold lookup_dep. destruct (decide (section' = key)) as [->|Hne].
  - rewrite get_insert_eq by done. simpl. destruct (decide (name' = name)) as [->|Hn].
    + by rewrite get_insert_eq, decide_True.
    + rewrite get_insert_ne, decide_False by naive_solver. done.
  - rewrite get_insert_ne by done. rewrite (decide_False (P := _ ∧ _)) by naive_solver. done.
Qed.

(** Adding a dependency does exactly what it says: on success the name has the
    given spec in the chosen section, is gone from the dual one, and every other
    dependency in every section and every other top-level field is unchanged; it
    fails only for a name declared as an optional or peer dependency, or when
    the section is not an object. *)
Theorem add_dependency_exact d section name spec :
  root_ok (md_root d) →
  match add_dependency d section name spec with
  | Ok d' =>
      (∀ s n, lookup_dep (md_root d') s n =
         if decide (s = json_key section ∧ n = name) then Some (VString spec)
         else if decide (s = dual_section section ∧ n = name) then None
         else lookup_dep (md_root d) s n) ∧
      (∀ key, key ≠ json_key section → key ≠ dual_section section →
         get_entry (md_root d') key = get_entry (md_root d) key) ∧
      root_ok (md_root d')
  | Err e =>
      (e = MEAmbiguousDependency (md_source_path d) name ∧
       ∃ s, (s = "optionalDependencies" ∨ s = "peerDependencies") ∧
            is_Some (lookup_dep (md_root d) s name)) ∨
      (e = MESectionNotObject (md_source_path d) (json_key section) ∧
       ∃ v, get_entry (md_root d) (json_key section) = Some v ∧ as_object v = None)
  end.
Proof.
  intros Hok. unfold add_dependency.
  destruct (contains d "optionalDependencies" name) eqn:Ho.
  { left. split; [done|]. eexists. split; [by left|]. by apply contains_lookup. }
  destruct (contains d "peerDependencies" name) eqn:Hp.
  { left. split; [done|]. eexists. split; [by right|]. by apply contains_lookup. }
  cbn [orb]. unfold ensure_section_object.
  set (key := json_key section).
  assert (json_key section ≠ dual_section section) as Hdual by (by destruct section).
  fold key in Hdual.
  assert ((∃ m, map_ok m ∧ (∀ n, get_entry m n = lookup_dep (md_root d) key n) ∧
    (default [] (get_entry (md_root d) key ≫= as_object) = m) ∧
    match get_entry (md_root d) key with None | Some (VObject _) => True | _ => False end) ∨
    ∃ v, get_entry (md_root d) key = Some v ∧ as_object v = None)
    as [(m & Hm & Hget & Hdef & Hshape)|(v & Hv & Hobj)].
  { unfold lookup_dep. destruct (get_entry (md_root d) key) as [v|] eqn:He.
    - destruct v; try (right; by eexists). left. eexists. split; [by eapply Hok|].
      split; [done|]. by split.
    - left. exists []. split; [constructor|]. by split. }
  2:{ rewrite Hv. destruct v; try done; simpl; right; (split; [done|]); by eexists. }
  assert (match get_entry (md_root d) key with
          | None | Some (VObject _) => Ok ()
          | Some _ => Err (MESectionNotObject (md_source_path d) key)
          end = Ok ()) as -> by (by destruct (get_entry (md_root d) key) as [[]|]).
  simpl. rewrite Hdef.
  set (root1 := map_insert key (VObject (map_insert name (VString spec) m)) (md_root d)).
  assert (root_ok root1) as Hok1.
  { split; [by apply map_insert_ok, Hok|]. intros s m'. unfold root1.
    destruct (decide (s = key)) as [->|Hne].
    - rewrite get_insert_eq by apply Hok. intros [= <-]. by apply map_insert_ok.
    - rewrite get_insert_ne by done. apply Hok. }
  split; [|split; [|by apply remove_from_root_ok]].
  - intros s n. rewrite lookup_remove_from by apply Hok1. unfold root1.
    rewrite (lookup_insert_dep _ key _ key) by done. rewrite Hget.
    repeat case_decide; try naive_solver.
  - intros k Hk Hk2. rewrite get_remove_from by apply Hok1. rewrite decide_False by done.
    unfold root1. by rewrite get_insert_ne.
Qed.

(** Removing a name clears it from all four sections and touches nothing else; the
    flag tells whether it was in any of them. *)
Lemma remove_dependency_exact d name :
  root_ok (md_root d) →
  let '(d', removed) := remove_dependency d name in
  removed = has_dependency d name ∧ root_ok (md_root d') ∧
  ∀ s n, lookup_dep (md_root d') s n =
    if decide (s ∈ DEPENDENCY_SECTIONS ∧ n = name) then None else lookup_dep (md_root d) s n.
Proof.
  intros Hok. unfold remove_dependency, has_dependency.
  assert (∀ l d r, root_ok (md_root d) →
    let '(d', removed) := foldl (λ (st : ManifestDocument * bool) section,
        let '(d, removed) := st in
        (with_root d (remove_from (md_root d) section name), removed || contains d section name))
        (d, r) l in
    root_ok (md_root d') ∧
    (∀ s n, lookup_dep (md_root d') s n =
       if decide (s ∈ l ∧ n = name) then None else lookup_dep (md_root d) s n) ∧
    (NoDup l → removed = r || existsb (λ s, contains d s name) l)) as H.
  { induction l as [|s0 l IH]; intros d0 r Hok0.
    - cbn [foldl existsb]. split; [done|]. split; [|by rewrite orb_false_r].
      intros s n. by rewrite decide_False by (intros [Hn _]; by apply not_elem_of_nil in Hn).
    - cbn [foldl]. specialize (IH (with_root d0 (remove_from (md_root d0) s0 name))
        (r || contains d0 s0 name) (remove_from_root_ok _ _ _ Hok0)).
      destruct (foldl _ _ l) as [d' removed]. destruct IH as (IHok & IHl & IHr).
      split; [done|]. split.
      + intros s n. rewrite IHl. cbn [with_root md_root]. rewrite lookup_remove_from by apply Hok0.
        repeat case_decide; try done; set_solver.
      + intros [Hs0 Hnd]%NoDup_cons. rewrite IHr by done. simpl. rewrite <- orb_assoc. do 2 f_equal.
        assert (∀ s, s ∈ l → contains (with_root d0 (remove_from (md_root d0) s0 name)) s name =
                             contains d0 s name) as He.
        { intros s Hs. apply eq_true_iff_eq. rewrite !contains_lookup. cbn [with_root md_root].
          rewrite lookup_remove_from, decide_False by (apply Hok0 || (intros [-> _]; done)). done. }
        clear -He. induction l as [|s l IH]; [done|]. simpl. rewrite He by by left. f_equal.
        apply IH. intros s' Hs'. apply He. by right. }
  specialize (H DEPENDENCY_SECTIONS d false Hok). destruct (foldl _ _ _) as [d' removed].
  destruct H as (H1 & H2 & H3). split; [apply H3; decided|]. by split.
Qed.

(** ** Editing and reading back *)

Lemma elem_of_map_insert k v m x : x ∈ map_insert k v m → x = (k, v) ∨ x ∈ m.
Proof.
  induction m as [|[k' w] m IH]; cbn [map_insert].
  - intros ->%list_elem_of_singleton. by left.
  - destruct (String.compare k k'); rewrite ?elem_of_cons; [tauto|tauto|].
    intros [->|H%IH]; tauto.
Qed.

Lemma get_entry_elem m k v : get_entry m k = Some v → (k, v) ∈ m.
Proof.
  induction m as [|[k' w] m IH]; [done|]. rewrite get_entry_cons, elem_of_cons.
  case_decide as Hk; [intros [= ->]; subst; by left|]. intros H%IH. by right.
Qed.

Section read_back.
Context `{J : JsonText} {L : JsonTextLaws J}.

Lemma value_ok_insert k v m : value_ok v → value_ok (VObject m) → value_ok (VObject (map_insert k v m)).
Proof using L.
  intros Hv [Hm Hall]%value_ok_object. apply value_ok_object. split; [by apply map_insert_ok|].
  intros k' v' [[= -> ->]|Hin]%elem_of_map_insert; eauto.
Qed.

Lemma value_ok_remove k m : value_ok (VObject m) → value_ok (VObject (map_remove k m)).
Proof using L.
  intros [Hm Hall]%value_ok_object. apply value_ok_object. split; [by apply map_remove_ok|].
  intros k' v' [_ Hin]%list_elem_of_filter. eauto.
Qed.

Lemma value_ok_remove_from root section name :
  value_ok (VObject root) → value_ok (VObject (remove_from root section name)).
Proof using L.
  intros Hr. unfold remove_from. destruct (get_entry root section) as [[]|] eqn:He; try done.
  apply value_ok_insert; [|done]. apply value_ok_remove.
  apply value_ok_object in Hr as [_ Hall]. by eapply Hall, get_entry_elem.
Qed.

(** What is written after an edit is a manifest, and it is the edited one. *)
Lemma edit_reads_back bytes path d section name spec d' :
  from_bytes bytes path = Ok d → add_dependency d section name spec = Ok d' →
  ∃ d'', from_bytes (render d') path = Ok d'' ∧ md_root d'' = md_root d'.
Proof using L.
  unfold from_bytes. intros (v & Hv%map_err_Ok & Hd)%bind_Ok Hadd.
  destruct v; try done. injection Hd as <-. apply json_parse_ok in Hv.
  assert (value_ok (VObject (md_root d'))) as Hok.
  { unfold add_dependency in Hadd. destruct (_ || _); [done|].
    apply bind_Ok in Hadd as ([] & _ & [= <-]). cbn [with_root md_root].
    apply value_ok_remove_from, value_ok_insert; [|done]. apply value_ok_insert; [apply value_ok_string|].
    cbn [md_root]. destruct (get_entry entries (json_key section)) as [[]|] eqn:He; simpl;
      try (apply value_ok_object; split; [constructor|by intros k w Hin%not_elem_of_nil]).
    apply value_ok_object in Hv as [_ Hall]. by eapply Hall, get_entry_elem. }
  assert (json_parse (render d') = Ok (VObject (md_root d'))) as ->.
  { unfold render. destruct (md_trailing_newline d'); [apply json_parse_newline|];
      by apply json_parse_pretty. }
  by eexists.
Qed.
End read_back.

(** A document for the witnesses. *)
Module EditSample.
Definition root : object :=
  [("dependencies", VObject [("a", VString "^1")]); ("devDependencies", VObject [("b", VString "^2")]);
   ("name", VString "app")].
Definition document : ManifestDocument := mk_ManifestDocument "package.json" root "" true.

Lemma sample_root_ok : root_ok root.
Proof.
  split; [repeat constructor|]. intros s m. unfold root. rewrite !get_entry_cons, get_entry_nil.
  repeat case_decide; intros [= <-]; repeat constructor.
Qed.
End EditSample.

(** Moving [b] to production leaves [a] and the other fields alone. *)
Lemma add_dependency_exact_witness :
  match add_dependency EditSample.document Production "b" "^3" with
  | Ok d' => lookup_dep (md_root d') "devDependencies" "b" = None ∧
             lookup_dep (md_root d') "dependencies" "a" = Some (VString "^1")
  | Err _ => False
  end.
Proof.
  pose proof (add_dependency_exact EditSample.document Production "b" "^3" EditSample.sample_root_ok) as H.
  destruct (add_dependency EditSample.document Production "b" "^3") as [d'|e] eqn:He.
  - destruct H as (Hl & _). split; rewrite Hl; vm_compute; reflexivity.
  - vm_compute in He. discriminate He.
Defined.
