(* ===== verification/Publish.v ===== *)
(** * [src/manifest_edit.rs]: publishing the manifest and its lock together

    The publication protocol over a file system in which every operation may
    fail, and in which a crash may leave any state the protocol passes through.
    [fault] says how the n-th operation fails; the theorems hold for every
    choice. *)

From S2P Require Export StateError Str.
From Stdlib Require Import Ascii.

(** ** The file system *)

(** [Late]: the effect happened and the call still failed, as a rename whose
    directory could not be synchronised; [Partial]: a write cut short. *)
Inductive fault := NoFault | Fails | Partial (bytes : nat) | Late.

(** [seen] collects the states a crash could leave. *)
Record disk := mk_disk {
  files : gmap string string; seen : list (gmap string string); tick : nat }.

Section publish.
Variable faults : nat → fault.

Definition io (A : Type) : Type := M disk string A.

(** The fault of this operation. *)
Definition next_fault : io fault := λ s,
  (mk_disk (files s) (seen s) (S (tick s)), Ok (faults (tick s))).
Definition set_files (f : gmap string string) : io () :=
  modify (λ s, mk_disk f (seen s ++ [f]) (tick s)).

Definition fs_read (path : string) : io (option string) :=
  fault ← next_fault;
  match fault with
  | NoFault => gets (λ s, files s !! path)
  | _ => throw "read failed"
  end.

Fixpoint str_take (n : nat) (s : string) : string :=
  match n, s with S n, String c s => String c (str_take n s) | _, _ => "" end.

(** [create_new], [write_all], [sync_all]. *)
Definition write_temp (path bytes : string) : io () :=
  fault ← next_fault;
  f ← gets files;
  match fault, f !! path with
  | Fails, _ => throw "open failed"
  | _, Some _ => throw "file exists"
  | NoFault, None => _ ← set_files (<[path := ""]> f); set_files (<[path := bytes]> (<[path := ""]> f))
  | Partial n, None =>
      _ ← set_files (<[path := ""]> f);
      _ ← set_files (<[path := str_take n bytes]> (<[path := ""]> f)); throw "write failed"
  | Late, None =>
      _ ← set_files (<[path := ""]> f);
      _ ← set_files (<[path := bytes]> (<[path := ""]> f)); throw "sync failed"
  end.

(** An atomic rename, then the synchronisation of the directory. *)
Definition replace_destination (tmp dest : string) : io () :=
  fault ← next_fault;
  f ← gets files;
  match fault, f !! tmp with
  | NoFault, Some bytes => set_files (<[dest := bytes]> (delete tmp f))
  | Late, Some bytes => _ ← set_files (<[dest := bytes]> (delete tmp f)); throw "sync failed"
  | _, _ => throw "rename failed"
  end.
Definition rename_or_replace : string → string → io () := replace_destination.

Definition remove_file (path : string) : io () :=
  fault ← next_fault;
  f ← gets files;
  match fault, f !! path with
  | NoFault, Some _ => set_files (delete path f)
  | _, _ => throw "remove failed"
  end.

(** [Path::exists]: an error reads as absence. *)
Definition exists_path (path : string) : io bool :=
  fault ← next_fault;
  f ← gets files;
  match fault with
  | NoFault => mret (bool_decide (is_Some (f !! path)))
  | _ => mret false
  end.

(** [let _ = ...]. *)
Definition ignore (m : io ()) : io () := λ s, ((m s).1, Ok ()).

(** ** The protocol *)

Record PublishPlan := mk_PublishPlan {
  manifest_path : string; manifest_bytes : string; lock_path : string; lock_bytes : string }.

Inductive PublishStage := StageLock | StageManifest.
#[global] Instance PublishStage_eq_dec : EqDecision PublishStage.
Proof. solve_decision. Defined.
Inductive RollbackDestination := RLock | RManifest.
#[global] Instance RollbackDestination_eq_dec : EqDecision RollbackDestination.
Proof. solve_decision. Defined.
Record RestoreFaults := mk_RestoreFaults { rf_lock : bool; rf_manifest : bool }.
Definition RestoreFaults_default : RestoreFaults := mk_RestoreFaults false false.

Record PublishError := mk_PublishError {
  primary : string; publication_began : bool;
  rollback_failures : list (RollbackDestination * string) }.
Definition rollback_complete (e : PublishError) : bool := bool_decide (rollback_failures e = []).

(** The names [unique_sibling] gave, in order of use. *)
Record temps := mk_temps {
  manifest_tmp : string; lock_tmp : string; lock_restore : string; manifest_restore : string }.

(** [Original] is what the file held, [None] when it did not exist. *)
Definition capture_original (path : string) : io (option string) := fs_read path.

Definition restore (tmp path : string) (original : option string) : io () :=
  match original with
  | Some bytes => _ ← write_temp tmp bytes; rename_or_replace tmp path
  | None =>
      present ← exists_path path;
      match present with true => remove_file path | false => mret () end
  end.

(** The closure up to and including the point where publication begins. *)
Definition stage_temps (t : temps) (plan : PublishPlan) (fail_at : option PublishStage) : io () :=
  _ ← write_temp (manifest_tmp t) (manifest_bytes plan);
  _ ← write_temp (lock_tmp t) (lock_bytes plan);
  if bool_decide (fail_at = Some StageLock) then throw "injected failure before lock publish"
  else mret ().
Definition stage_renames (t : temps) (plan : PublishPlan) (fail_at : option PublishStage) : io () :=
  _ ← rename_or_replace (lock_tmp t) (lock_path plan);
  if bool_decide (fail_at = Some StageManifest) then throw "injected failure before manifest publish"
  else rename_or_replace (manifest_tmp t) (manifest_path plan).

(** One restoration: the failures it adds. *)
Definition roll_back (d : RollbackDestination) (injected : bool) (tmp path : string)
    (original : option string) : M disk PublishError (list (RollbackDestination * string)) := λ s,
  let '(s, r) := if injected then (s, Err "injected restoration failure") else restore tmp path original s in
  (s, Ok (match r with Ok _ => [] | Err e => [(d, e)] end)).

(** The closure, with [publication_began] read where it ends. *)
Definition staged (t : temps) (plan : PublishPlan) (fail_at : option PublishStage) (s : disk)
    : disk * (bool * result string ()) :=
  match stage_temps t plan fail_at s with
  | (s, Err e) => (s, (false, Err e))
  | (s, Ok _) => let '(s, r) := stage_renames t plan fail_at s in (s, (true, r))
  end.

(** The lock, then the manifest. *)
Definition roll_back_both (t : temps) (plan : PublishPlan) (restore_faults : RestoreFaults)
    (lock_original manifest_original : option string)
    (report : list (RollbackDestination * string) → PublishError) : M disk PublishError () :=
  failures ← roll_back RLock (rf_lock restore_faults) (lock_restore t) (lock_path plan) lock_original;
  failures' ← roll_back RManifest (rf_manifest restore_faults) (manifest_restore t)
                (manifest_path plan) manifest_original;
  throw (report (failures ++ failures')).

Definition publish_impl (t : temps) (plan : PublishPlan) (fail_at : option PublishStage)
    (restore_faults : RestoreFaults) : M disk PublishError () := λ s,
  let before_publication (e : string) := mk_PublishError e false [] in
  match capture_original (manifest_path plan) s with
  | (s, Err e) => (s, Err (before_publication e))
  | (s, Ok manifest_original) =>
      match capture_original (lock_path plan) s with
      | (s, Err e) => (s, Err (before_publication e))
      | (s, Ok lock_original) =>
          let '(s, (began, outcome)) := staged t plan fail_at s in
          let '(s, _) := ignore (remove_file (manifest_tmp t)) s in
          let '(s, _) := ignore (remove_file (lock_tmp t)) s in
          match outcome with
          | Ok _ => (s, Ok ())
          | Err primary =>
              roll_back_both t plan restore_faults lock_original manifest_original
                (mk_PublishError primary began) s
          end
      end
  end.

Definition publish (t : temps) (plan : PublishPlan) : M disk PublishError () :=
  publish_impl t plan None RestoreFaults_default.

(** [publish_bytes_impl]: one file through a sibling. *)
Definition publish_bytes_impl (tmp path bytes : string) (fail_before_replace : bool) : io () := λ s,
  let '(s, r) :=
    (_ ← write_temp tmp bytes;
     if fail_before_replace then throw "injected failure before replacement"
     else replace_destination tmp path) s in
  let '(s, _) := ignore (remove_file tmp) s in
  (s, r).
Definition publish_bytes (tmp path bytes : string) : io () := publish_bytes_impl tmp path bytes false.
End publish.

(** ** What a crash or a failure can leave *)

Section crash.
Variable faults : nat → fault.
Context (t : temps) (plan : PublishPlan) (f0 : gmap string string).

Definition dest (d : RollbackDestination) : string :=
  match d with RLock => lock_path plan | RManifest => manifest_path plan end.
Definition published (d : RollbackDestination) : string :=
  match d with RLock => lock_bytes plan | RManifest => manifest_bytes plan end.
Definition temp_names : list string :=
  [manifest_tmp t; lock_tmp t; lock_restore t; manifest_restore t].

(** The names in play are different. *)
Definition plan_names : Prop := NoDup (dest RManifest :: dest RLock :: temp_names).

(** A state a user may find: each destination whole, nothing else touched. *)
Definition intact (f : gmap string string) : Prop :=
  (∀ d, f !! dest d = f0 !! dest d ∨ f !! dest d = Some (published d)) ∧
  ∀ p, p ∉ dest RManifest :: dest RLock :: temp_names → f !! p = f0 !! p.

Definition safe (s : disk) : Prop := intact (files s) ∧ Forall intact (seen s).
Definition any_move (_ _ : disk) : Prop := True.
Definition during {A} (P : gmap string string → Prop) (m : io A)
    (Q : gmap string string → result string A → Prop) : Prop :=
  steps safe any_move (λ s, P (files s)) m (λ s r, Q (files s) r).

(** What the destinations hold. *)
Definition contents : Type := RollbackDestination → option string.
Definition holds (c : contents) (f : gmap string string) : Prop := ∀ d, f !! dest d = c d.
Definition updated (d : RollbackDestination) (v : option string) (c : contents) : contents :=
  λ d', if decide (d' = d) then v else c d'.

Lemma during_bind {A B} P (m : io A) (k : A → io B) Q Q' :
  during P m Q → (∀ a, during (λ f, Q f (Ok a)) (k a) Q') →
  (∀ f e, Q f (Err e) → Q' f (Err e)) → during P (m ≫= k) Q'.
Proof using Type. intros Hm Hk He. eapply steps_bind; eauto. Qed.

Lemma during_weaken {A} (P P' : _ → Prop) (m : io A) (Q Q' : _ → _ → Prop) :
  during P m Q → (∀ f, intact f → P' f → P f) → (∀ f r, intact f → Q f r → Q' f r) → during P' m Q'.
Proof using Type.
  intros Hm HP HQ. eapply steps_weaken; [exact Hm| |].
  - intros s [Hi _]. auto.
  - intros s r [Hi _]. auto.
Qed.

Lemma during_next_fault P : during P (next_fault faults) (λ f _, P f).
Proof using Type. by intros [f ss n] [Hi Hs] Hp. Qed.

(** An operation that looks at one fault and at the files, and then decides. *)
Lemma during_step {A} P (k : fault → gmap string string → io A) Q :
  (∀ ft f, intact f → P f → during (λ f', f' = f) (k ft f) Q) →
  during P (ft ← next_fault faults; f ← gets files; k ft f) Q.
Proof using Type. intros Hk [f ss n] [Hi Hs] Hp. by apply (Hk (faults n) f Hi Hp (mk_disk f ss (S n))). Qed.

Lemma during_set_files f f' Q :
  (intact f → intact f' ∧ Q f' (Ok ())) → during (λ g, g = f) (set_files f') Q.
Proof using Type.
  intros H s [Hi Hs] Hp. simpl in *. rewrite Hp in Hi. destruct (H Hi). split_and!; [split|done..]; [done|].
  cbn. apply Forall_app; auto.
Qed.

Lemma during_set_then {A} f f' (m : io A) Q :
  (intact f → intact f') → during (λ g, g = f') m Q → during (λ g, g = f) (_ ← set_files f'; m) Q.
Proof using Type.
  intros H Hm. eapply (during_bind _ _ _ (λ g r, g = f' ∧ r = Ok ())).
  - apply during_set_files. auto.
  - intros []. eapply during_weaken; [exact Hm| |auto]. by intros g _ [? _].
  - by intros g e [_ ?].
Qed.

Lemma during_throw {A} f e (Q : _ → result string A → Prop) : (intact f → Q f (Err e)) → during (λ g, g = f) (throw e) Q.
Proof using Type. intros H s [Hi Hs] Hp. simpl in *. subst. repeat split; auto; apply Hi. Qed.

Lemma during_ret {A} f (a : A) (Q : _ → result string A → Prop) : (intact f → Q f (Ok a)) → during (λ g, g = f) (mret a) Q.
Proof using Type. intros H s [Hi Hs] Hp. simpl in *. subst. repeat split; auto; apply Hi. Qed.

Lemma during_ignore P (m : io ()) Q :
  during P m Q → during P (ignore m) (λ f _, ∃ r, Q f r).
Proof using Type.
  intros Hm s Hs Hp. destruct (Hm s Hs Hp) as (Hs' & _ & Hq). repeat split; [apply Hs'..|]. by eexists.
Qed.

(** *** Temporary files never matter *)

Definition own_temp (tmp : string) : Prop := tmp ∈ temp_names ∧ ∀ d, tmp ≠ dest d.

Lemma intact_temp tmp v f : own_temp tmp → intact f → intact (<[tmp := v]> f).
Proof using Type.
  intros [Ht Hd] [H1 H2]. split.
  - intros d. rewrite lookup_insert_ne; [apply H1|apply Hd].
  - intros p Hp. rewrite lookup_insert_ne; [auto|]. intros ->. apply Hp. set_solver.
Qed.

Lemma intact_drop tmp f : own_temp tmp → intact f → intact (delete tmp f).
Proof using Type.
  intros [Ht Hd] [H1 H2]. split.
  - intros d. rewrite lookup_delete_ne; [apply H1|apply Hd].
  - intros p Hp. rewrite lookup_delete_ne; [auto|]. intros ->. apply Hp. set_solver.
Qed.

Lemma holds_temp c tmp v f : own_temp tmp → holds c f → holds c (<[tmp := v]> f).
Proof using Type. intros [_ Hd] H d. rewrite lookup_insert_ne; [apply H|apply Hd]. Qed.

Lemma holds_drop c tmp f : own_temp tmp → holds c f → holds c (delete tmp f).
Proof using Type. intros [_ Hd] H d. rewrite lookup_delete_ne; [apply H|apply Hd]. Qed.

(** *** The destinations *)

Context (Hnames : plan_names).

Lemma dest_inj d d' : dest d = dest d' → d = d'.
Proof using Hnames.
  revert Hnames. unfold plan_names. rewrite NoDup_cons, not_elem_of_cons. intros [[Hne _] _].
  by destruct d, d'; auto; intros ?; destruct Hne.
Qed.

Lemma own_temp_names tmp : tmp ∈ temp_names → own_temp tmp.
Proof using Hnames.
  intros Ht. split; [done|]. intros d ->. revert Hnames. unfold plan_names.
  rewrite !NoDup_cons, not_elem_of_cons. intros ([_ Hm] & Hl & _). by destruct d.
Qed.

Lemma dest_in d : dest d ∈ dest RManifest :: dest RLock :: temp_names.
Proof using Type. destruct d; [right|]; left. Qed.

Lemma intact_dest d v f :
  v = f0 !! dest d ∨ v = Some (published d) → intact f → intact (partial_alter (λ _, v) (dest d) f).
Proof using Hnames.
  intros Hv [H1 H2]. split.
  - intros d'. destruct (decide (d' = d)) as [->|Hd].
    + rewrite lookup_partial_alter_eq. done.
    + rewrite lookup_partial_alter_ne; [apply H1|]. intros E. apply Hd. by apply dest_inj.
  - intros p Hp. rewrite lookup_partial_alter_ne; [auto|]. intros <-. apply Hp, dest_in.
Qed.

Lemma holds_dest d v c f : holds c f → holds (updated d v c) (partial_alter (λ _, v) (dest d) f).
Proof using Hnames.
  intros H d'. unfold updated. case_decide as Hd; [subst; by rewrite lookup_partial_alter_eq|].
  rewrite lookup_partial_alter_ne; [apply H|]. intros E. apply Hd. by apply dest_inj.
Qed.

(** *** Each operation *)

Lemma write_temp_during tmp bytes c (K : gmap string string → Prop) :
  tmp ∈ temp_names → (∀ v f, K f → K (<[tmp := v]> f)) →
  during (λ f, holds c f ∧ K f) (write_temp faults tmp bytes)
    (λ f r, holds c f ∧ K f ∧ (r = Ok () → f !! tmp = Some bytes)).
Proof using Hnames.
  intros Ht HK. apply own_temp_names in Ht. apply during_step. intros ft f Hf [Hc Hk].
  assert (Hset : ∀ v g, intact g → intact (<[tmp := v]> g)) by auto using intact_temp.
  assert (Hend : ∀ v, holds c (<[tmp := v]> (<[tmp := ""]> f)) ∧ K (<[tmp := v]> (<[tmp := ""]> f)))
    by auto using holds_temp.
  assert (Hcut : ∀ v e, during (λ g, g = f)
    (_ ← set_files (<[tmp := ""]> f); _ ← set_files (<[tmp := v]> (<[tmp := ""]> f)); throw e)
    (λ g r, holds c g ∧ K g ∧ (r = Ok () → g !! tmp = Some bytes))).
  { intros v e. do 2 (apply during_set_then; [apply Hset|]). apply during_throw.
    intros _. destruct (Hend v). by split_and!. }
  destruct ft, (f !! tmp); auto; try (by apply during_throw).
  apply during_set_then; [apply Hset|]. apply during_set_files.
  intros Hi. destruct (Hend bytes). split_and!; [by apply Hset|done..|].
  by rewrite lookup_insert_eq.
Qed.

Lemma rename_during d tmp bytes c (K : gmap string string → Prop) :
  tmp ∈ temp_names → Some bytes = f0 !! dest d ∨ Some bytes = Some (published d) →
  (∀ f, K f → K (delete tmp f)) → (∀ v f, K f → K (<[dest d := v]> f)) →
  during (λ f, holds c f ∧ K f ∧ f !! tmp = Some bytes) (rename_or_replace faults tmp (dest d))
    (λ f r, K f ∧ (holds (updated d (Some bytes) c) f ∨ r ≠ Ok () ∧ holds c f)).
Proof using Hnames.
  intros Ht Hb HKd HKi. apply own_temp_names in Ht. apply during_step.
  intros ft f Hf (Hc & Hk & Htmp). rewrite Htmp.
  assert (Hnew : intact f → intact (<[dest d := bytes]> (delete tmp f))).
  { intros Hi. apply intact_dest; [done|]. by apply intact_drop. }
  assert (Hhold : holds (updated d (Some bytes) c) (<[dest d := bytes]> (delete tmp f))).
  { apply holds_dest. by apply holds_drop. }
  destruct ft; try (apply during_throw; intros _; split; [done|by right]).
  - apply during_set_files. auto.
  - apply during_set_then; [done|]. apply during_throw. auto.
Qed.

Lemma clean_up_during tmp P :
  tmp ∈ temp_names → (∀ f, P f → P (delete tmp f)) →
  during P (ignore (remove_file faults tmp)) (λ f _, P f).
Proof using Hnames.
  intros Ht HP. apply own_temp_names in Ht. eapply during_weaken; [|done|].
  - eapply (during_ignore P _ (λ f _, P f)), during_step. intros ft f Hf Hp.
    destruct ft, (f !! tmp); try (by apply during_throw).
    apply during_set_files. intros Hi. split; [by apply intact_drop|auto].
  - by intros f r _ [_ ?].
Qed.

(** A restoration that reports no failure leaves the destination as it was, or
    as a destination that did not exist and that the probe could not see. *)
Definition put_back (d : RollbackDestination) (v : option string) : Prop :=
  v = f0 !! dest d ∨ f0 !! dest d = None.

Lemma holds_same d c f : holds c f → holds (updated d (c d) c) f.
Proof using Type. intros H d'. unfold updated. case_decide; [by subst|apply H]. Qed.

Definition restored (d : RollbackDestination) (c : contents) (f : gmap string string)
    (r : result string ()) : Prop :=
  ∃ v, holds (updated d v c) f ∧ (r = Ok () → put_back d v) ∧ (c d = f0 !! dest d → v = c d).

Lemma restored_same d c f r :
  holds c f → (r = Ok () → put_back d (c d)) → restored d c f r.
Proof using Type. intros Hc Hr. exists (c d). split_and!; [by apply holds_same|done..]. Qed.

Lemma remove_during d c :
  f0 !! dest d = None → during (holds c) (remove_file faults (dest d)) (restored d c).
Proof using Hnames.
  intros Hnone. apply during_step. intros ft f Hf Hc.
  destruct ft, (f !! dest d) eqn:Hd; try (apply during_throw; intros _; by apply restored_same).
  apply during_set_files. intros Hi. split; [by apply (intact_dest d None); [left|]|].
  exists None. split_and!; [by apply (holds_dest d None)|by left|]. intros ->. done.
Qed.

Lemma restore_during d tmp c :
  tmp ∈ temp_names →
  during (holds c) (restore faults tmp (dest d) (f0 !! dest d)) (restored d c).
Proof using Hnames.
  intros Ht. destruct (f0 !! dest d) as [bytes|] eqn:Horig; simpl.
  - eapply during_bind.
    + eapply during_weaken; [by apply (write_temp_during tmp bytes c (λ _, True))|done|].
      intros f r _ H. exact H.
    + intros []. eapply during_weaken; [apply (rename_during d tmp bytes c (λ _, True)); auto| |].
      * simpl. intros f _ (Hc & _ & Hb). auto.
      * intros f r _ [_ [Hc|[Hr Hc]]]; [|by apply restored_same].
        exists (Some bytes). split_and!; [done|by left|congruence].
    + intros f e (Hc & _). by apply restored_same.
  - eapply (during_bind _ _ _ (λ f _, holds c f)).
    + apply during_step. intros ft f Hf Hc. destruct ft; by apply during_ret.
    + intros [].
      * by apply remove_during.
      * intros s Hs Hc. split_and!; [done..|]. apply restored_same; [done|]. by right.
    + intros f e Hc. by apply restored_same.
Qed.

(** *** The protocol *)

Definition originals : contents := λ d, f0 !! dest d.

Lemma temp_in : manifest_tmp t ∈ temp_names ∧ lock_tmp t ∈ temp_names ∧
  lock_restore t ∈ temp_names ∧ manifest_restore t ∈ temp_names.
Proof using Type. split_and!; repeat constructor. Qed.

Lemma temps_differ : manifest_tmp t ≠ lock_tmp t.
Proof using Hnames.
  revert Hnames. unfold plan_names, temp_names. rewrite !NoDup_cons. set_solver.
Qed.

Lemma stage_temps_during fail_at :
  during (holds originals) (stage_temps faults t plan fail_at)
    (λ f r, holds originals f ∧ (r = Ok () →
       f !! manifest_tmp t = Some (manifest_bytes plan) ∧ f !! lock_tmp t = Some (lock_bytes plan))).
Proof using Hnames.
  destruct temp_in as (Hm & Hl & _). eapply during_bind.
  - eapply during_weaken; [by apply (write_temp_during (manifest_tmp t) (manifest_bytes plan) originals (λ _, True))| |].
    + done.
    + intros f r _ H. exact H.
  - intros []. eapply during_bind.
    + eapply during_weaken; [apply (write_temp_during (lock_tmp t) (lock_bytes plan) originals
        (λ f, f !! manifest_tmp t = Some (manifest_bytes plan)))| |].
      * done.
      * intros v f. rewrite lookup_insert_ne; [done|]. pose proof temps_differ. done.
      * simpl. intros f _ (? & _ & ?). auto.
      * intros f r _ H. exact H.
    + intros []. simpl. case_bool_decide; intros s Hs (Hc & Hk & Hb); repeat split; auto; apply Hs.
    + intros f e (Hc & _). done.
  - intros f e (Hc & _). done.
Qed.

Lemma stage_renames_during fail_at :
  during (λ f, holds originals f ∧ f !! manifest_tmp t = Some (manifest_bytes plan) ∧
               f !! lock_tmp t = Some (lock_bytes plan))
    (stage_renames faults t plan fail_at)
    (λ f r, r = Ok () → holds (λ d, Some (published d)) f).
Proof using Hnames.
  destruct temp_in as (Hm & Hl & _). eapply during_bind.
  - eapply during_weaken; [apply (rename_during RLock (lock_tmp t) (lock_bytes plan) originals
      (λ f, f !! manifest_tmp t = Some (manifest_bytes plan)))| |]; auto.
    + intros f. rewrite lookup_delete_ne; [done|]. pose proof temps_differ. done.
    + intros v f. rewrite lookup_insert_ne; [done|]. apply not_eq_sym, own_temp_names. done.
    + intros f r _ H. exact H.
  - intros []. case_bool_decide; [by intros s Hs _; repeat split; try apply Hs|].
    eapply during_weaken; [apply (rename_during RManifest (manifest_tmp t) (manifest_bytes plan)
      (updated RLock (Some (lock_bytes plan)) originals) (λ _, True))| |]; auto.
    + intros f _ [Hk [Hc|[? _]]]; done.
    + intros f r _ [_ [Hc|[? _]]] Hr; [|done]. intros d. rewrite Hc.
      unfold updated. destruct d; by repeat case_decide.
  - done.
Qed.

Lemma roll_back_during d injected tmp c s :
  tmp ∈ temp_names → safe s → holds c (files s) →
  let '(s', r) := roll_back faults d injected tmp (dest d) (f0 !! dest d) s in
  safe s' ∧ ∃ failures v, r = Ok failures ∧ holds (updated d v c) (files s') ∧
    (d ∉ failures.*1 → put_back d v) ∧ (∀ d', d' ≠ d → d' ∉ failures.*1) ∧
    (c d = f0 !! dest d → v = c d).
Proof using Hnames.
  intros Ht Hs Hc. unfold roll_back. destruct injected.
  - split; [done|]. exists [(d, "injected restoration failure")], (c d).
    split_and!; [done|by apply holds_same|set_solver..|done].
  - pose proof (restore_during d tmp c Ht s Hs Hc) as H.
    destruct (restore _ _ _ _ _) as [s' r]. destruct H as (Hs' & _ & v & Hh & Hp & Ho).
    split; [done|]. destruct r as [[]|e].
    + exists [], v. split_and!; auto; set_solver.
    + exists [(d, e)], v. split_and!; auto; set_solver.
Qed.
End crash.

Lemma roll_back_both_safe faults t plan f0 rf k c s s' r :
  plan_names t plan → safe t plan f0 s → holds plan c (files s) →
  roll_back_both faults t plan rf (f0 !! lock_path plan) (f0 !! manifest_path plan) k s = (s', r) →
  safe t plan f0 s' ∧ ∃ failures, r = Err (k failures) ∧
    (∀ d, d ∉ failures.*1 → put_back plan f0 d (files s' !! dest plan d)) ∧
    ((∀ d, c d = f0 !! dest plan d) → ∀ d, files s' !! dest plan d = f0 !! dest plan d).
Proof.
  intros Hnames Hs Hc. unfold roll_back_both, mbind, M_bind.
  destruct (temp_in t) as (_ & _ & Hl & Hm).
  pose proof (roll_back_during faults t plan f0 Hnames RLock (rf_lock rf) _ c s Hl Hs Hc) as H1.
  cbn [dest] in H1. destruct (roll_back faults RLock _ _ _ _ s) as [s1 r1].
  destruct H1 as (Hs1 & fl & v & -> & Hc1 & Hp1 & Hn1 & Ho1).
  pose proof (roll_back_during faults t plan f0 Hnames RManifest (rf_manifest rf) _ _ s1 Hm Hs1 Hc1) as H2.
  cbn [dest] in H2. destruct (roll_back faults RManifest _ _ _ _ s1) as [s2 r2].
  destruct H2 as (Hs2 & fm & v' & -> & Hc2 & Hp2 & Hn2 & Ho2).
  intros [= <- <-]. split; [done|]. exists (fl ++ fm). split; [done|].
  assert (HL : files s2 !! dest plan RLock = v) by (rewrite Hc2; unfold updated; by repeat case_decide).
  assert (HM : files s2 !! dest plan RManifest = v') by (rewrite Hc2; unfold updated; by repeat case_decide).
  split.
  - intros d. rewrite fmap_app, not_elem_of_app. destruct d; [rewrite HL|rewrite HM]; tauto.
  - intros Horig d. destruct d; [rewrite HL, Ho1; apply Horig|].
    rewrite HM, Ho2; unfold updated; case_decide; try done; apply Horig.
Qed.

Lemma capture_original_run faults p s :
  ∃ r, capture_original faults p s = (mk_disk (files s) (seen s) (S (tick s)), r) ∧
    match r with Ok o => o = files s !! p | Err _ => True end.
Proof.
  unfold capture_original, fs_read, next_fault, mbind, M_bind. destruct (faults (tick s)); (eexists; split; [reflexivity|done]).
Qed.

Lemma staged_safe faults t plan f0 fail_at s s' began r :
  plan_names t plan → safe t plan f0 s → files s = f0 →
  staged faults t plan fail_at s = (s', (began, r)) →
  safe t plan f0 s' ∧ ∃ c, holds plan c (files s') ∧
    (r = Ok () → ∀ d, c d = Some (published plan d)) ∧ (began = false → ∀ d, c d = f0 !! dest plan d).
Proof.
  intros Hnames Hs Hf. unfold staged.
  destruct (stage_temps_during faults t plan f0 Hnames fail_at s Hs) as (Hs1 & _ & Ho & Htmp).
  { by intros d; rewrite Hf. }
  destruct (stage_temps _ _ _ _ s) as [s1 [[]|e]]; simpl in *.
  - destruct (stage_renames_during faults t plan f0 Hnames fail_at s1 Hs1) as (Hs2 & _ & Hn).
    { split; [done|]. by apply Htmp. }
    destruct (stage_renames _ _ _ _ s1) as [s2 r2]. intros [= <- <- <-]. split; [done|].
    exists (λ d, files s2 !! dest plan d). split_and!; [done|exact Hn|done].
  - intros [= <- <- <-]. split; [done|]. by eexists.
Qed.

Lemma clean_up_safe faults t plan f0 tmp c s :
  plan_names t plan → tmp ∈ temp_names t → safe t plan f0 s → holds plan c (files s) →
  let s' := (ignore (remove_file faults tmp) s).1 in safe t plan f0 s' ∧ holds plan c (files s').
Proof.
  intros Hnames Ht Hs Hc.
  destruct (clean_up_during faults t plan f0 Hnames tmp (holds plan c) Ht) with (s := s)
    as (? & _ & ?); [|done..].
  intros f. apply holds_drop with (t := t). by apply own_temp_names.
Qed.


(** ** When nothing fails *)

Section quiet.
Variable faults : nat → fault.
Context (Hquiet : ∀ n, faults n = NoFault).

(** What a quiet operation does to the files. *)
Definition yields {A} (m : io A) (f f' : gmap string string) (a : A) : Prop :=
  ∀ ss n, ∃ ss' n', m (mk_disk f ss n) = (mk_disk f' ss' n', Ok a).

Lemma yields_bind {A B} (m : io A) (k : A → io B) f f' f'' a b :
  yields m f f' a → yields (k a) f' f'' b → yields (m ≫= k) f f'' b.
Proof using Type.
  intros Hm Hk ss n. destruct (Hm ss n) as (ss1 & n1 & E). unfold mbind, M_bind. rewrite E. apply Hk.
Qed.

Lemma write_temp_yields tmp bytes f :
  f !! tmp = None → yields (write_temp faults tmp bytes) f (<[tmp := bytes]> f) ().
Proof using Hquiet.
  intros Hf ss n. unfold write_temp, next_fault, mbind, M_bind. cbn. rewrite Hquiet, Hf. cbn.
  rewrite insert_insert_eq. by do 2 eexists.
Qed.

Lemma rename_yields tmp dst bytes f :
  f !! tmp = Some bytes →
  yields (rename_or_replace faults tmp dst) f (<[dst := bytes]> (delete tmp f)) ().
Proof using Hquiet.
  intros Hf ss n. unfold rename_or_replace, replace_destination, next_fault, mbind, M_bind. cbn.
  rewrite Hquiet, Hf. by do 2 eexists.
Qed.

Lemma ignore_remove_yields tmp f :
  f !! tmp = None → yields (ignore (remove_file faults tmp)) f f ().
Proof using Hquiet.
  intros Hf ss n. unfold ignore, remove_file, next_fault, mbind, M_bind. cbn.
  rewrite Hquiet, Hf. by do 2 eexists.
Qed.
End quiet.

(** The published files, the temporaries gone. *)
Lemma published_files (f : gmap string string) mt lt mp lp mb lb :
  f !! mt = None → f !! lt = None → mt ≠ lt → mt ≠ lp →
  <[mp := mb]> (delete mt (<[lp := lb]> (delete lt (<[lt := lb]> (<[mt := mb]> f)))))
  = <[mp := mb]> (<[lp := lb]> f).
Proof.
  intros Hm Hl Hne Hp. f_equal. rewrite delete_insert_eq.
  rewrite (delete_id (<[mt := mb]> f)) by (by rewrite lookup_insert_ne).
  rewrite delete_insert_ne by done. by rewrite delete_insert_id.
Qed.

(** With no failure and fresh temporary names, publishing succeeds; the two
    files hold the new content, and no temporary stays behind. *)
Theorem publish_succeeds faults t plan f0 :
  (∀ n, faults n = NoFault) → plan_names t plan →
  f0 !! manifest_tmp t = None → f0 !! lock_tmp t = None →
  let '(s, r) := publish faults t plan (mk_disk f0 [] 0) in
  r = Ok () ∧
  files s = <[manifest_path plan := manifest_bytes plan]> (<[lock_path plan := lock_bytes plan]> f0).
Proof.
  intros Hq Hnames Hm Hl. pose proof (temps_differ t plan Hnames) as Hne.
  destruct (temp_in t) as (Hmt & Hlt & _).
  destruct (own_temp_names t plan Hnames _ Hmt) as [_ Hmd].
  destruct (own_temp_names t plan Hnames _ Hlt) as [_ Hld].
  pose proof (Hmd RLock) as HmL. pose proof (Hmd RManifest) as HmM.
  pose proof (Hld RLock) as HlL. pose proof (Hld RManifest) as HlM. cbn in *.
  set (f1 := <[lock_tmp t := lock_bytes plan]> (<[manifest_tmp t := manifest_bytes plan]> f0)).
  assert (Hst : yields (stage_temps faults t plan None) f0 f1 ()).
  { eapply yields_bind; [by apply write_temp_yields|]. eapply yields_bind.
    - apply write_temp_yields; [done|]. by rewrite lookup_insert_ne.
    - intros ss n. by do 2 eexists. }
  set (f2 := <[lock_path plan := lock_bytes plan]> (delete (lock_tmp t) f1)).
  assert (Hrn : yields (stage_renames faults t plan None) f1
    (<[manifest_path plan := manifest_bytes plan]> (delete (manifest_tmp t) f2)) ()).
  { eapply yields_bind; [apply rename_yields; [done|]; apply lookup_insert_eq|].
    apply rename_yields; [done|]. unfold f2, f1.
    rewrite lookup_insert_ne, lookup_delete_ne, lookup_insert_ne by done. apply lookup_insert_eq. }
  subst f2 f1. rewrite published_files in Hrn by done.
  unfold publish, publish_impl, capture_original, fs_read, next_fault, mbind, M_bind. cbn -[staged ignore].
  rewrite (Hq 0). cbn -[staged ignore]. rewrite (Hq 1). cbn -[staged ignore]. unfold staged.
  destruct (Hst [] 2) as (ss1 & n1 & ->). destruct (Hrn ss1 n1) as (ss2 & n2 & ->).
  assert (Hclean : ∀ tmp, tmp ∈ [manifest_tmp t; lock_tmp t] →
    (<[manifest_path plan := manifest_bytes plan]> (<[lock_path plan := lock_bytes plan]> f0)) !! tmp = None).
  { intros tmp Htmp. repeat (apply elem_of_cons in Htmp as [->|Htmp]); [..|by apply elem_of_nil in Htmp];
      by rewrite !lookup_insert_ne. }
  destruct (ignore_remove_yields faults Hq _ _ (Hclean (manifest_tmp t) ltac:(set_solver)) ss2 n2)
    as (ss3 & n3 & ->).
  destruct (ignore_remove_yields faults Hq _ _ (Hclean (lock_tmp t) ltac:(set_solver)) ss3 n3)
    as (ss4 & n4 & ->). done.
Qed.

Module PublishSample.
Definition sample_plan : PublishPlan :=
  mk_PublishPlan "package.json" "{2}" "bpm.lock" "lock2".
Definition sample_temps : temps := mk_temps ".m.tmp" ".l.tmp" ".l.back" ".m.back".
Definition sample_files : gmap string string := <["package.json" := "{1}"]> (<["bpm.lock" := "lock1"]> ∅).
(** The synchronisation after the manifest's rename fails: operations 0 and 1
    read, 2 and 3 write, 4 and 5 rename. *)
Definition late_manifest : nat → fault := λ n, if decide (n = 5) then Late else NoFault.
(** Then the file the first publication created cannot be probed. *)
Definition blind_probe : nat → fault :=
  λ n, if decide (n = 5) then Late else if decide (n = 8) then Fails else NoFault.
Definition no_faults : nat → fault := λ _, NoFault.

Lemma sample_names : plan_names sample_temps sample_plan.
Proof. unfold plan_names. apply (bool_decide_unpack _). by vm_compute. Defined.

(** The whole report of a run. *)
Definition outcome (faults : nat → fault) (f : gmap string string) :=
  let '(s, r) := publish faults sample_temps sample_plan (mk_disk f [] 0) in
  (files s !! "package.json", files s !! "bpm.lock",
   match r with Ok _ => None | Err e => Some (publication_began e, (rollback_failures e).*1) end).

Example late_manifest_rolls_back :
  outcome late_manifest sample_files = (Some "{1}", Some "lock1", Some (true, [])).
Proof. by vm_compute. Qed.

(** [path.exists()] reads an error as absence, so the rollback of a first
    publication reports success and leaves the new lock in place. *)
Example probe_error_hides_the_rollback :
  outcome blind_probe ∅ = (None, Some "lock2", Some (true, [])).
Proof. by vm_compute. Qed.

(** The clean-up removes a temporary that [create_new] refused because
    another process owned it. *)
Example clean_up_removes_a_foreign_temporary :
  files (publish no_faults sample_temps sample_plan
    (mk_disk (<[".l.tmp" := "theirs"]> sample_files) [] 0)).1 !! ".l.tmp" = None.
Proof. by vm_compute. Qed.


Lemma publish_succeeds_witness :
  files (publish no_faults sample_temps sample_plan (mk_disk sample_files [] 0)).1 !! "bpm.lock" = Some "lock2".
Proof.
  pose proof (publish_succeeds no_faults sample_temps sample_plan sample_files (λ _, eq_refl)
    sample_names eq_refl eq_refl) as H.
  destruct (publish no_faults sample_temps sample_plan _) as [s r]. destruct H as [_ H]. cbn [fst]. rewrite H.
  reflexivity.
Defined.
End PublishSample.
