(* ===== verification/Peer.v ===== *)
(** * [src/resolver/peer.rs]: strict peer-dependency binding

    [bind_peer_context] walks the declared peers in name order and stops at the
    first one that is missing, unparsable or unsatisfied.  [str]'s [Debug]
    rendering, used only inside error texts, is the class [DebugFormat]. *)

From S2P Require Export Registry ResolverModel.

Class DebugFormat := { str_debug : string → string }.

(** [{:?}] of a [Vec<String>] and of an [Option<String>]. *)
Definition vec_debug `{DebugFormat} (l : list string) : string :=
  "[" +:+ join ", " (str_debug <$> l) +:+ "]".
Definition option_debug `{DebugFormat} (o : option string) : string :=
  match o with None => "None" | Some s => "Some(" +:+ str_debug s +:+ ")" end.

Inductive PeerMode := Strict | LegacyIgnore.
#[global] Instance PeerMode_eq_dec : EqDecision PeerMode.
Proof. solve_decision. Defined.

Record VisibleProvider := mk_VisibleProvider {
  vp_identity : ProviderIdentity; vp_path : string; vp_competing_requester : option string }.

Record VisibleProviders := mk_VisibleProviders {
  consumer_chain : list string; providers : gmap string VisibleProvider }.

(** [collect] into a [BTreeMap]: the last entry for a name wins. *)
Definition VisibleProviders_new (chain : list string) (ps : list (string * VisibleProvider))
    : VisibleProviders :=
  mk_VisibleProviders chain (foldl (λ m kv, <[kv.1 := kv.2]> m) ∅ ps).

Definition VisibleProviders_get (v : VisibleProviders) (name : string) : option VisibleProvider :=
  providers v !! name.

Record PeerRequest := mk_PeerRequest {
  pr_consumer : string; pr_peer : string; pr_range : string; pr_consumer_chain : list string }.

Record UnsatisfiedPeer := mk_UnsatisfiedPeer {
  up_consumer : string; up_consumer_version : string; up_peer : string; up_range : string;
  up_provider_name : string; up_provider_version : string; up_provider_path : string;
  up_competing_requester : option string; up_consumer_chain : list string }.

Inductive PeerConflict :=
  | MissingRequired (consumer consumer_version peer range : string) (chain : list string)
  | InvalidRange (consumer consumer_version peer range reason : string)
  | Unsatisfied (details : UnsatisfiedPeer).

Definition required_request (e : PeerConflict) : option PeerRequest :=
  match e with
  | MissingRequired consumer _ peer range chain => Some (mk_PeerRequest consumer peer range chain)
  | InvalidRange _ _ _ _ _ | Unsatisfied _ => None
  end.

Section diagnostics.
Context `{DebugFormat}.

Definition UnsatisfiedPeer_to_string (d : UnsatisfiedPeer) : string :=
  "peer " +:+ up_peer d +:+ "@" +:+ up_range d +:+ " for " +:+ up_consumer d +:+ "@" +:+
  up_consumer_version d +:+ " is not satisfied by " +:+ up_provider_name d +:+ "@" +:+
  up_provider_version d +:+ " at " +:+ up_provider_path d +:+ " (chain: " +:+
  vec_debug (up_consumer_chain d) +:+ ", competing requester: " +:+
  option_debug (up_competing_requester d) +:+ ")".

Definition PeerConflict_to_string (e : PeerConflict) : string :=
  match e with
  | MissingRequired consumer cv peer range chain =>
      "required peer " +:+ peer +:+ "@" +:+ range +:+ " is missing for " +:+ consumer +:+ "@" +:+
      cv +:+ " (chain: " +:+ vec_debug chain +:+ ")"
  | InvalidRange consumer cv peer range reason =>
      "invalid peer range " +:+ peer +:+ "@" +:+ range +:+ " declared by " +:+ consumer +:+ "@"
      +:+ cv +:+ ": " +:+ reason
  | Unsatisfied d => UnsatisfiedPeer_to_string d
  end.

Definition PeerConflict_diagnostic (e : PeerConflict) : ResolutionDiagnostic :=
  let '(code, package) :=
    match e with
    | MissingRequired consumer _ _ _ _ => ("PEER_MISSING", consumer)
    | InvalidRange consumer _ _ _ _ => ("PEER_INVALID_RANGE", consumer)
    | Unsatisfied d => ("PEER_CONFLICT", up_consumer d)
    end in
  with_package (ResolutionDiagnostic_new code (PeerConflict_to_string e)) package.
End diagnostics.

Section peer.
Context `{Sv : Semver}.

Definition peer_is_optional (candidate : VersionMetadata) (peer : string) : bool :=
  match vm_peer_dependencies_meta candidate !! peer with
  | Some meta => pm_optional meta
  | None => false
  end.

(** One iteration of the loop over [candidate.peer_dependencies]. *)
Definition bind_peer (candidate : VersionMetadata) (visible : VisibleProviders)
    (context : PeerContext) (entry : string * string) : result PeerConflict PeerContext :=
  let '(peer, range) := entry in
  let cname := vm_name candidate in
  let cversion := version_to_string (vm_version candidate) in
  match VisibleProviders_get visible peer with
  | None =>
      if peer_is_optional candidate peer then Ok context
      else Err (MissingRequired cname cversion peer range (consumer_chain visible))
  | Some provider =>
      requirement ← map_err (InvalidRange cname cversion peer range) (VersionRange_parse range);
      let satisfied :=
        match version_of (pi_version (vp_identity provider)) with
        | Some version => range_matches requirement version
        | None => false
        end in
      fail_if (negb satisfied) with_err
        (Unsatisfied (mk_UnsatisfiedPeer cname cversion peer range
           (pi_name (vp_identity provider)) (pi_version (vp_identity provider))
           (vp_path provider) (vp_competing_requester provider) (consumer_chain visible)));
      Ok (<[peer := vp_identity provider]> context)
  end.

Definition bind_peer_context (candidate : VersionMetadata) (visible : VisibleProviders)
    (mode : PeerMode) : result PeerConflict PeerContext :=
  if decide (mode = LegacyIgnore) then Ok ∅
  else fold_res (bind_peer candidate visible) ∅ (bt_list (vm_peer_dependencies candidate)).

Definition peer_mode_diagnostics (candidate : VersionMetadata) (mode : PeerMode)
    : list ResolutionDiagnostic :=
  if bool_decide (mode ≠ LegacyIgnore) || is_empty_map (vm_peer_dependencies candidate) then []
  else [with_package
          (ResolutionDiagnostic_new "LEGACY_PEER_DEPS"
             ("ignored " +:+ pretty (size (vm_peer_dependencies candidate)) +:+
              " peer dependency declaration(s) for " +:+ vm_name candidate +:+ "@" +:+
              version_to_string (vm_version candidate) +:+
              " because legacy peer mode was explicitly selected"))
          (vm_name candidate)].

(** ** Specification *)

(** What a declared peer promises: an absent one is optional, a present one has a
    parsable version inside the parsed range. *)
Definition peer_ok (candidate : VersionMetadata) (visible : VisibleProviders)
    (peer range : string) : Prop :=
  match VisibleProviders_get visible peer with
  | None => peer_is_optional candidate peer = true
  | Some provider =>
      ∃ req v, VersionRange_parse range = Ok req ∧
        version_of (pi_version (vp_identity provider)) = Some v ∧ range_matches req v = true
  end.

(** The context that records every visible declared peer and nothing else. *)
Definition binds (candidate : VersionMetadata) (visible : VisibleProviders)
    (context : PeerContext) : Prop :=
  ∀ peer id, context !! peer = Some id ↔
    is_Some (vm_peer_dependencies candidate !! peer) ∧
    vp_identity <$> VisibleProviders_get visible peer = Some id.

(** What each kind of failure reports about the peer it stopped at. *)
Definition conflict_about (candidate : VersionMetadata) (visible : VisibleProviders)
    (peer range : string) (e : PeerConflict) : Prop :=
  match e with
  | MissingRequired consumer _ p r chain =>
      VisibleProviders_get visible peer = None ∧ consumer = vm_name candidate ∧
      p = peer ∧ r = range ∧ chain = consumer_chain visible
  | InvalidRange consumer _ p r _ =>
      is_Some (VisibleProviders_get visible peer) ∧ consumer = vm_name candidate ∧
      p = peer ∧ r = range ∧ ¬ is_ok (VersionRange_parse range)
  | Unsatisfied d =>
      ∃ provider, VisibleProviders_get visible peer = Some provider ∧
        up_consumer d = vm_name candidate ∧ up_peer d = peer ∧ up_range d = range ∧
        up_provider_version d = pi_version (vp_identity provider) ∧
        up_provider_path d = vp_path provider
  end.

(** ** Lemmas *)

Lemma bind_peer_Ok candidate visible context peer range context' :
  bind_peer candidate visible context (peer, range) = Ok context' ↔
  peer_ok candidate visible peer range ∧
  context' = match VisibleProviders_get visible peer with
             | None => context
             | Some p => <[peer := vp_identity p]> context
             end.
Proof.
  unfold bind_peer, peer_ok. destruct (VisibleProviders_get visible peer) as [p|].
  - rewrite bind_Ok. setoid_rewrite map_err_Ok.
    destruct (version_of (pi_version (vp_identity p))) as [v|]; simpl.
    + split.
      * intros (req & Hreq & H). destruct (range_matches req v) eqn:Hm; [|done].
        injection H as <-. eauto 6.
      * intros [(req & v' & Hreq & [= <-] & Hm) ->]. exists req. by rewrite Hm.
    + split; [by intros (? & _ & ?)|]. by intros [(? & ? & _ & ? & _) _].
  - destruct (peer_is_optional candidate peer); split.
    + by intros [= ->].
    + by intros [_ ->].
    + done.
    + by intros [? _].
Qed.

Lemma bind_peer_Err candidate visible context peer range e :
  bind_peer candidate visible context (peer, range) = Err e →
  ¬ peer_ok candidate visible peer range ∧ conflict_about candidate visible peer range e.
Proof.
  intros He. split.
  { intros Hok. pose proof (proj2 (bind_peer_Ok candidate visible context peer range _)
                                (conj Hok eq_refl)) as H. by rewrite H in He. }
  unfold bind_peer, conflict_about in *.
  destruct (VisibleProviders_get visible peer) as [p|] eqn:Hp.
  - apply bind_Err in He as [He|(req & Hreq & He)].
    + destruct (VersionRange_parse range) as [?|reason]; [done|]. injection He as <-.
      split_and!; [by eexists|done..|]. by intros ?.
    + destruct (negb _); [|done]. injection He as <-. by exists p.
  - destruct (peer_is_optional candidate peer); [done|]. by injection He as <-.
Qed.

(** The loop over any list of entries with distinct names. *)
Lemma bind_peers_Ok candidate visible l context context' :
  NoDup l.*1 →
  fold_res (bind_peer candidate visible) context l = Ok context' →
  (∀ peer range, (peer, range) ∈ l → peer_ok candidate visible peer range) ∧
  ∀ peer, context' !! peer =
    (if decide (peer ∈ l.*1) then
       match VisibleProviders_get visible peer with
       | Some p => Some (vp_identity p)
       | None => context !! peer
       end
     else context !! peer).
Proof.
  revert context. induction l as [|[peer range] l IH]; intros context Hnd; simpl.
  - intros [= <-]. split; [set_solver|]. by intros q.
  - apply NoDup_cons in Hnd as [Hnin Hnd].
    intros (c1 & [Hok ->]%bind_peer_Ok & Hl)%bind_Ok.
    destruct (IH _ Hnd Hl) as [Hall Hlook]. split.
    + intros q r [[= -> ->]|Hin]%elem_of_cons; [done|by apply Hall].
    + intros q. rewrite Hlook. cbn [fst] in *.
      destruct (decide (q = peer)) as [->|Hne].
      * rewrite decide_False by done. rewrite decide_True by (csimpl; by left).
        destruct (VisibleProviders_get visible peer); [by rewrite lookup_insert_eq|done].
      * assert (q ∈ ((peer, range) :: l).*1 ↔ q ∈ l.*1) as Hiff
          by (csimpl; rewrite elem_of_cons; naive_solver).
        rewrite (decide_ext _ _ _ _ Hiff).
        assert (match VisibleProviders_get visible peer with
                | Some p => <[peer := vp_identity p]> context
                | None => context
                end !! q = context !! q) as ->; [|done].
        destruct (VisibleProviders_get visible peer); [by rewrite lookup_insert_ne|done].
Qed.

Lemma bind_peers_complete candidate visible l context :
  (∀ peer range, (peer, range) ∈ l → peer_ok candidate visible peer range) →
  is_Some (ok (fold_res (bind_peer candidate visible) context l)).
Proof.
  revert context. induction l as [|[peer range] l IH]; intros context Hall; cbn [fold_res]; [by eexists|].
  rewrite (proj2 (bind_peer_Ok _ _ context _ _ _)) by (split; [apply Hall; by left|done]).
  cbn [mbind result_bind]. apply IH. intros q r Hin. apply Hall. by right.
Qed.

Lemma peers_NoDup (m : gmap string string) : NoDup (bt_list m).*1.
Proof. apply bt_keys_NoDup. Qed.

(** ** Properties *)

(** C13.  Strict peer binding is exact: the context returned records, for every
    declared peer that is visible, its exact provider, and nothing else; it is
    returned exactly when every absent peer is optional and every present one,
    optional or not, has a version inside the declared range.  In the explicit
    legacy mode the context is empty. *)
Theorem bind_peer_context_exact candidate visible mode context :
  bind_peer_context candidate visible mode = Ok context ↔
  match mode with
  | LegacyIgnore => context = ∅
  | Strict =>
      (∀ peer range, vm_peer_dependencies candidate !! peer = Some range →
         peer_ok candidate visible peer range) ∧
      binds candidate visible context
  end.
Proof.
  unfold bind_peer_context. destruct mode; [rewrite decide_False by done|rewrite decide_True by done; naive_solver].
  setoid_rewrite <- elem_of_bt_list.
  assert (∀ c, fold_res (bind_peer candidate visible) ∅
                 (bt_list (vm_peer_dependencies candidate)) = Ok c →
            binds candidate visible c) as Hbinds.
  { intros c Hc peer id. destruct (bind_peers_Ok _ _ _ _ _ (peers_NoDup _) Hc) as [_ Hl].
    rewrite Hl, <- elem_of_bt_keys. unfold bt_keys. rewrite lookup_empty.
    destruct (VisibleProviders_get visible peer); case_decide; naive_solver. }
  split.
  - intros Hc. split; [|by apply Hbinds].
    by destruct (bind_peers_Ok _ _ _ _ _ (peers_NoDup _) Hc).
  - intros [Hall Hb]. destruct (bind_peers_complete _ _ _ ∅ Hall) as [c Hc%ok_Some].
    rewrite Hc. f_equal. apply map_eq. intros peer. apply option_eq. intros id.
    by rewrite (Hb peer id), (Hbinds c Hc peer id).
Qed.

(** A strict failure is reported for the first peer in name order that is not
    satisfied: all declared peers before it are, the error names it, its
    consumer and its range, and an automatic parent request is offered exactly
    when the peer is missing, for that peer at that range. *)
Theorem bind_peer_context_first_conflict candidate visible e :
  bind_peer_context candidate visible Strict = Err e →
  ∃ pre peer range post,
    bt_list (vm_peer_dependencies candidate) = pre ++ (peer, range) :: post ∧
    (∀ q r, (q, r) ∈ pre → peer_ok candidate visible q r) ∧
    ¬ peer_ok candidate visible peer range ∧
    conflict_about candidate visible peer range e ∧
    (required_request e = Some (mk_PeerRequest (vm_name candidate) peer range
                                  (consumer_chain visible)) ↔
       VisibleProviders_get visible peer = None).
Proof.
  unfold bind_peer_context. rewrite decide_False by done.
  intros (pre & [peer range] & post & c & Hl & Hpre & He)%fold_res_Err.
  exists pre, peer, range, post. split; [done|]. split.
  { eapply bind_peers_Ok; [|exact Hpre].
    pose proof (peers_NoDup (vm_peer_dependencies candidate)) as Hnd.
    rewrite Hl, fmap_app in Hnd. by apply NoDup_app in Hnd as [? _]. }
  destruct (bind_peer_Err _ _ _ _ _ _ He) as [Hno Habout]. split; [done|]. split; [done|].
  unfold conflict_about in Habout. destruct e; simpl.
  - destruct Habout as (Hn & -> & -> & -> & ->). by rewrite Hn.
  - destruct Habout as ([p Hp] & _). rewrite Hp. by split.
  - destruct Habout as (p & Hp & _). rewrite Hp. by split.
Qed.
End peer.

Section witnesses.
Import Sample.

Definition plugin : VersionMetadata :=
  mk_VersionMetadata "plugin" (version 1 0 0) None ∅ ∅ {[ "react" := "^18.0.0" ]} ∅ ∅
    Dist_default ∅ [] [] [] false false.

Definition react_17 : VisibleProviders :=
  VisibleProviders_new ["root"; "plugin"]
    [("react", mk_VisibleProvider (mk_ProviderIdentity "react" "17.0.0" (PSRegistry "r"))
                 "node_modules/react" None)].

Lemma bind_peer_context_first_conflict_witness :
  match bind_peer_context plugin react_17 Strict with
  | Ok _ => False
  | Err e => ∃ pre peer range post,
      bt_list (vm_peer_dependencies plugin) = pre ++ (peer, range) :: post ∧
      conflict_about plugin react_17 peer range e
  end.
Proof.
  assert (is_ok (bind_peer_context plugin react_17 Strict) = false) as Hf by (vm_compute; reflexivity).
  destruct (bind_peer_context plugin react_17 Strict) as [c|e] eqn:He; [discriminate Hf|].
  destruct (bind_peer_context_first_conflict plugin react_17 e He)
    as (pre & peer & range & post & Hl & _ & _ & Hc & _).
  exists pre, peer, range, post. exact (conj Hl Hc).
Defined.
End witnesses.
