(* ===== verification/Overrides.v ===== *)
(** * [src/resolver/overrides.rs]: root override normalisation and matching *)

From S2P Require Export Machine Registry Json.
From Stdlib Require Import Ascii.

Inductive OverrideOrigin := Root | WorkspaceOrigin | InstalledPackage.
#[global] Instance OverrideOrigin_eq_dec : EqDecision OverrideOrigin.
Proof. solve_decision. Defined.

Definition OverrideOrigin_description (o : OverrideOrigin) : string :=
  match o with
  | Root => "root package.json"
  | WorkspaceOrigin => "workspace package.json"
  | InstalledPackage => "installed package manifest"
  end.

Inductive OverrideError :=
  | UnsupportedOrigin (origin : string)
  | UnsupportedKey (location reason : string)
  | UnsupportedValue (location found : string)
  | UnsupportedSpec (location spec reason : string)
  | MissingReference (location reference : string)
  | DirectDependencyMismatch (location package declared override_spec : string).

Record Selector := mk_Selector { sel_name : string; sel_req : option string }.

Record OverrideRule := mk_OverrideRule {
  or_ancestors : list Selector; or_package : string; or_package_req : option string;
  or_spec : string; or_key : string }.

Record OverrideSet := mk_OverrideSet {
  os_rules : list OverrideRule; os_normalized : gmap string string }.

(** ** Pure text helpers *)

Definition segment_ok (segment : string) : bool :=
  negb (is_empty segment) &&
  negb (starts_with_char "." segment || starts_with_char "_" segment) &&
  all_chars (λ c, is_ascii_lowercase c || is_ascii_digit c ||
                  existsb (ceqb c) ["."; "-"; "_"]%char) segment.

Definition is_package_name (name : string) : bool :=
  match strip_prefix "@" name with
  | Some scoped =>
      match split_once "/" scoped with
      | None => false
      | Some (scope, package) =>
          negb (contains_char "/" package) && segment_ok scope && segment_ok package
      end
  | None => negb (contains_char "/" name) && segment_ok name
  end.

Definition map_empty_req (p : string * string) : string * option string :=
  if is_empty p.2 then (p.1, None) else (p.1, Some p.2).

Definition split_selector (key : string) : string * option string :=
  match strip_prefix "@" key with
  | Some scoped =>
      match rsplit_once "@" scoped with
      | Some (scope_pkg, req) =>
          if contains_char "/" scope_pkg then ("@" +:+ scope_pkg, Some req) else (key, None)
      | None => (key, None)
      end
  | None => map_empty_req (default (key, "") (rsplit_once "@" key))
  end.

Definition selector_text (s : Selector) : string :=
  match sel_req s with
  | Some req => sel_name s +:+ "@" +:+ req
  | None => sel_name s
  end.

Definition canonical_rule_key (ancestors : list Selector) (selector : Selector) : string :=
  join ">" (selector_text <$> (ancestors ++ [selector])).

(** JSON-pointer escaping. *)
Definition pointer_escape (part : string) : string :=
  replace_with "/" "~1" (replace_with "~" "~0" part).

Definition override_location (package : string) (ancestors : list Selector) : string :=
  "/overrides/" +:+ join "/" (pointer_escape <$> ((sel_name <$> ancestors) ++ [package])).

Definition json_kind (v : Value) : string :=
  match v with
  | VNull => "null"
  | VBool _ => "boolean"
  | VNumber _ => "number"
  | VString _ => "string"
  | VArray _ => "array"
  | VObject _ => "object"
  end.

Definition direct_mismatch (location package declared override_spec : string) : OverrideError :=
  DirectDependencyMismatch location package declared override_spec.

Definition validate_spec (spec location : string) : result OverrideError () :=
  fail_if (is_empty (trim spec)) with_err
    (UnsupportedSpec location spec "the override spec is empty");
  Ok ().

Section overrides.
Context `{Sv : Semver}.

Definition parse_selector (key location : string) : result OverrideError Selector :=
  fail_if (bool_decide (key = ".")) with_err
    (UnsupportedKey location "`.` is only valid inside an override object");
  let '(name, req) := split_selector key in
  fail_if (negb (is_package_name name)) with_err
    (UnsupportedKey location "expected an npm package name selector");
  _ ← match req with
      | Some req =>
          map_err (λ _, UnsupportedKey location
                          "version-qualified override key has an invalid semver range")
            (req_parse req ≫= λ _, Ok ())
      | None => Ok ()
      end;
  Ok (mk_Selector name req).

(** ** Building the rules: the accumulator is [(rules, normalized)] *)

Definition accumulator : Type := list OverrideRule * gmap string string.

Section build.
Variable root_declarations : gmap string string.

(** The spec a value stands for: itself, or the root declaration it refers to. *)
Definition resolve_reference (ancestors : list Selector) (selector : Selector)
    (raw location : string) : result OverrideError string :=
  match strip_prefix "$" raw with
  | Some reference =>
      _ ← match ancestors, root_declarations !! sel_name selector with
          | [], Some declared =>
              fail_if (bool_decide (reference ≠ sel_name selector)) with_err
                (direct_mismatch location (sel_name selector) declared raw);
              Ok ()
          | _, _ => Ok ()
          end;
      ok_or (MissingReference location reference) (root_declarations !! reference)
  | None => Ok raw
  end.

Definition check_direct (ancestors : list Selector) (selector : Selector)
    (raw location : string) : result OverrideError () :=
  match ancestors, root_declarations !! sel_name selector with
  | [], Some declared =>
      fail_if (bool_decide (raw ≠ declared) && bool_decide (raw ≠ "$" +:+ sel_name selector))
        with_err (direct_mismatch location (sel_name selector) declared raw);
      Ok ()
  | _, _ => Ok ()
  end.

Definition add_rule (ancestors : list Selector) (selector : Selector) (raw location : string)
    (acc : accumulator) : result OverrideError accumulator :=
  effective ← resolve_reference ancestors selector raw location;
  _ ← validate_spec effective location;
  _ ← check_direct ancestors selector raw location;
  let key := canonical_rule_key ancestors selector in
  Ok (acc.1 ++ [mk_OverrideRule ancestors (sel_name selector) (sel_req selector) effective key],
      <[key := effective]> acc.2).

Fixpoint parse_override_entry (value : Value) (key : string) (ancestors : list Selector)
    (acc : accumulator) : result OverrideError accumulator :=
  let location := override_location key ancestors in
  selector ← parse_selector key location;
  match value with
  | VString raw => add_rule ancestors selector raw location acc
  | VObject object =>
      let nested_ancestors := ancestors ++ [selector] in
      (fix entries (object : list (string * Value)) (acc : accumulator) :=
         match object with
         | [] => Ok acc
         | (child, child_value) :: object =>
             acc ←
               (if bool_decide (child = ".") then
                  raw ← ok_or (UnsupportedValue (location +:+ "/.") (json_kind child_value))
                          (as_str child_value);
                  add_rule ancestors selector raw (location +:+ "/.") acc
                else parse_override_entry child_value child nested_ancestors acc);
             entries object acc
         end) object acc
  | _ => Err (UnsupportedValue location (json_kind value))
  end.
End build.

Definition normalize_root_overrides (overrides : gmap string Value)
    (root_declarations : gmap string string) (origin : OverrideOrigin)
    : result OverrideError OverrideSet :=
  fail_if (negb (is_empty_map overrides) && bool_decide (origin ≠ Root)) with_err
    (UnsupportedOrigin (OverrideOrigin_description origin));
  acc ← fold_res (λ acc kv, parse_override_entry root_declarations kv.2 kv.1 [] acc)
          ([], ∅) (bt_list overrides);
  Ok (mk_OverrideSet (sort_by (λ a b, String.leb (or_key a) (or_key b)) acc.1) acc.2).

(** ** Matching *)

Definition comparator_candidates (c : comparator) : list Version :=
  let minor := default 0%N (cmp_minor c) in
  let patch := default 0%N (cmp_patch c) in
  [version_new (cmp_major c) minor patch;
   version_new (cmp_major c) minor (saturating_add U64_MAX patch 1);
   version_new (saturating_add U64_MAX (cmp_major c) 1) 0 0].

Definition ranges_intersect (left right : VersionReq) : bool :=
  let candidates :=
    version_new 0 0 0 ::
    ((req_comparators left ++ req_comparators right) ≫= comparator_candidates) in
  existsb (λ candidate, req_matches left candidate && req_matches right candidate) candidates.

Definition request_matches_selector (selector_req : option string) (requested : string) : bool :=
  match selector_req with
  | None => true
  | Some selector_req =>
      let selector_exact := version_of selector_req in
      let selector := ok (req_parse selector_req) in
      match parse_spec ("override-probe@" +:+ requested) with
      | Err _ => true
      | Ok parsed =>
          match ps_req parsed with
          | Exact version =>
              match selector_exact with
              | None => match selector with
                        | Some req => req_matches req version
                        | None => false
                        end
              | Some exact => bool_decide (exact = version)
              end
          | Latest => true
          | Range request =>
              match selector with
              | Some selector =>
                  existsb (λ r, ranges_intersect selector r) (requirements request)
              | None => false
              end
          end
      end
  end.

Definition selector_matches (s : Selector) (a : string * Version) : bool :=
  bool_decide (sel_name s = a.1) &&
  match sel_req s with
  | None => true
  | Some req => match req_parse req with
                | Ok parsed => req_matches parsed a.2
                | Err _ => false
                end
  end.

Definition ancestors_match (selectors : list Selector) (ancestors : list (string * Version))
    : bool :=
  if (length ancestors <? length selectors)%nat then false
  else forallb (λ p, selector_matches p.1 p.2)
         (zip selectors (drop (length ancestors - length selectors) ancestors)).

(** [Iterator::max_by]: of two elements the later one is kept unless it is smaller. *)
Definition max_by {A} (leb : A → A → bool) (l : list A) : option A :=
  match l with
  | [] => None
  | x :: l => Some (foldl (λ best y, if leb best y then y else best) x l)
  end.

Definition applicable (package requested : string) (ancestors : list (string * Version))
    (rule : OverrideRule) : bool :=
  bool_decide (or_package rule = package) &&
  ancestors_match (or_ancestors rule) ancestors &&
  request_matches_selector (or_package_req rule) requested.

Definition rule_leb (a b : OverrideRule) : bool :=
  (length (or_ancestors a) <? length (or_ancestors b))%nat ||
  ((length (or_ancestors a) =? length (or_ancestors b))%nat &&
   String.leb (or_key a) (or_key b)).

Definition effective_spec_for (s : OverrideSet) (package requested : string)
    (ancestors : list (string * Version)) : string :=
  match max_by rule_leb (filter (λ r, applicable package requested ancestors r = true)
                           (os_rules s)) with
  | Some rule => or_spec rule
  | None => requested
  end.

Definition effective_spec (s : OverrideSet) (package requested : string) : string :=
  effective_spec_for s package requested [].

(** ** Lemmas: [max_by] *)

Lemma max_by_spec {A} (leb : A → A → bool) l x :
  (∀ a b, leb a b = true ∨ leb b a = true) →
  (∀ a b c, leb a b = true → leb b c = true → leb a c = true) →
  max_by leb l = Some x →
  (∀ y, y ∈ l → leb y x = true) ∧
  ∃ l1 l2, l = l1 ++ x :: l2 ∧ ∀ y, y ∈ l2 → leb x y = false.
Proof.
  intros Htot Htrans. assert (∀ a, leb a a = true) as Hrefl by (intros a; by destruct (Htot a a)).
  destruct l as [|a l]; [done|]. simpl. intros [= Hx].
  revert a Hx. induction l as [|b l IH]; intros a Hx; simpl in Hx.
  - subst. split; [by intros y ->%list_elem_of_singleton|]. exists [], []. split; [done|].
    by intros y ?%not_elem_of_nil.
  - destruct (IH _ Hx) as (Hmax & l1 & l2 & Heq & Hlater). destruct (leb a b) eqn:Hab.
    + split; [|exists (a :: l1), l2; by rewrite Heq].
      intros y [->|Hy]%elem_of_cons; [|by apply Hmax].
      eapply Htrans; [exact Hab|]. apply Hmax. by left.
    + assert (leb a x = true) as Hax by (apply Hmax; by left).
      assert (leb b a = true) as Hba by (destruct (Htot a b); congruence). split.
      * intros y [->|[->|Hy]%elem_of_cons]%elem_of_cons; [done|by eapply Htrans|].
        apply Hmax. by right.
      * destruct l1 as [|c l1]; simpl in Heq; injection Heq as Ha Hl.
        -- exists [], (b :: l). split; [by rewrite Ha|]. intros y [->|Hy]%elem_of_cons.
           ++ by rewrite <- Ha.
           ++ apply Hlater. by rewrite <- Hl.
        -- exists (a :: b :: l1), l2. split; [by rewrite Hl|done].
Qed.

Lemma max_by_None {A} (leb : A → A → bool) l : max_by leb l = None ↔ l = [].
Proof. by destruct l. Qed.

Lemma rule_leb_total a b : rule_leb a b = true ∨ rule_leb b a = true.
Proof.
  unfold rule_leb. rewrite !orb_true_iff, !andb_true_iff, !Nat.ltb_lt, !Nat.eqb_eq.
  destruct (Nat.lt_trichotomy (length (or_ancestors a)) (length (or_ancestors b))) as [|[He|]];
    [by left; left| |by right; left].
  destruct (leb_total_s (or_key a) (or_key b)); [left|right]; right; by rewrite He.
Qed.

Lemma rule_leb_trans a b c : rule_leb a b = true → rule_leb b c = true → rule_leb a c = true.
Proof.
  unfold rule_leb. rewrite !orb_true_iff, !andb_true_iff, !Nat.ltb_lt, !Nat.eqb_eq.
  intros [?|[? H1]] [?|[? H2]]; try (left; lia). right. split; [lia|]. by eapply leb_trans_s.
Qed.

(** ** Lemmas: the rules a manifest yields *)

Section invariant.
Variable root_declarations : gmap string string.

Definition rule_ok (r : OverrideRule) : Prop :=
  or_key r = canonical_rule_key (or_ancestors r) (mk_Selector (or_package r) (or_package_req r)) ∧
  is_package_name (or_package r) = true ∧ is_empty (trim (or_spec r)) = false ∧
  (or_ancestors r = [] → ∀ d, root_declarations !! or_package r = Some d → or_spec r = d).

Definition with_key (k : string) : list OverrideRule → list OverrideRule :=
  filter (λ r, or_key r = k).

(** The map given to the lockfile records, per key, the spec of the last rule. *)
Definition acc_ok (acc : accumulator) : Prop :=
  Forall rule_ok acc.1 ∧ ∀ k, acc.2 !! k = or_spec <$> last (with_key k acc.1).

Lemma parse_selector_name key location sel :
  parse_selector key location = Ok sel → is_package_name (sel_name sel) = true.
Proof.
  unfold parse_selector. destruct (bool_decide _); [done|].
  destruct (split_selector key) as [name req]. destruct (is_package_name name) eqn:Hn; [|done].
  simpl. intros (u & _ & [= <-])%bind_Ok. done.
Qed.

(** Whatever a value refers to, a rule without ancestors for a declared package
    carries the declared spec. *)
Lemma resolve_reference_direct sel raw location effective d :
  resolve_reference root_declarations [] sel raw location = Ok effective →
  check_direct root_declarations [] sel raw location = Ok () →
  root_declarations !! sel_name sel = Some d → effective = d.
Proof.
  unfold resolve_reference, check_direct. intros H Hc Hd. rewrite Hd in Hc, H.
  assert (raw = d ∨ raw = "$" +:+ sel_name sel) as Hraw.
  { destruct (decide (raw = d)) as [|Hnd]; [by left|].
    destruct (decide (raw = "$" +:+ sel_name sel)) as [|Hns]; [by right|].
    rewrite !bool_decide_eq_true_2 in Hc by done. done. }
  destruct (strip_prefix "$" raw) as [reference|] eqn:Hs.
  - destruct (decide (reference = sel_name sel)) as [->|Hne].
    + rewrite bool_decide_eq_false_2 in H by tauto. simpl in H. rewrite Hd in H. by injection H.
    + by rewrite bool_decide_eq_true_2 in H.
  - injection H as <-. destruct Hraw as [|Hraw]; [done|].
    by rewrite Hraw, strip_prefix_app in Hs.
Qed.

Lemma with_key_snoc k rules r :
  with_key k (rules ++ [r]) = with_key k rules ++ (if decide (or_key r = k) then [r] else []).
Proof.
  unfold with_key. rewrite filter_app. by f_equal.
Qed.

Lemma add_rule_acc_ok ancestors sel raw location acc acc' :
  is_package_name (sel_name sel) = true → acc_ok acc →
  add_rule root_declarations ancestors sel raw location acc = Ok acc' → acc_ok acc'.
Proof.
  intros Hsel [Hr Hn]. unfold add_rule.
  intros (effective & Heff & H)%bind_Ok. apply bind_Ok in H as ([] & Hspec & H).
  apply bind_Ok in H as ([] & Hdir & H). injection H as <-. split; cbn [fst snd].
  - apply Forall_app. split; [done|]. constructor; [|done].
    split_and!; simpl; [by destruct sel|done| |].
    + unfold validate_spec in Hspec. by destruct (is_empty _).
    + intros -> d Hd. by eapply resolve_reference_direct.
  - intros k. rewrite with_key_snoc. cbn [or_key].
    destruct (decide (canonical_rule_key ancestors sel = k)) as [->|Hne].
    + by rewrite lookup_insert_eq, last_snoc.
    + by rewrite lookup_insert_ne, app_nil_r by done.
Qed.

Lemma parse_override_entry_acc_ok value key ancestors acc acc' :
  acc_ok acc → parse_override_entry root_declarations value key ancestors acc = Ok acc' →
  acc_ok acc'.
Proof.
  revert key ancestors acc acc'.
  induction value as [|b|n|s|l IHl|entries IH] using Value_ind'; intros key ancestors acc acc' Hacc H;
    cbn [parse_override_entry] in H; apply bind_Ok in H as (sel & Hsel & H); try done;
    apply parse_selector_name in Hsel.
  - by eapply add_rule_acc_ok.
  - revert acc Hacc H. induction IH as [|[child cv] entries Hcv IH IH']; intros acc Hacc H.
    { by injection H as <-. }
    apply bind_Ok in H as (acc1 & H1 & H). eapply IH'; [|exact H].
    destruct (bool_decide (child = ".")).
    + apply bind_Ok in H1 as (raw & _ & H1). by eapply add_rule_acc_ok.
    + by eapply Hcv.
Qed.
End invariant.

(** Stability of the final sort: rules with one key keep their order. *)
Lemma with_key_sort k rules :
  with_key k (sort_by (λ a b, String.leb (or_key a) (or_key b)) rules) = with_key k rules.
Proof.
  unfold with_key. apply sort_by_stable. intros a b -> ->. apply leb_refl_s.
Qed.

Lemma normalize_inv overrides decls origin set :
  normalize_root_overrides overrides decls origin = Ok set →
  Forall (rule_ok decls) (os_rules set) ∧
  ∀ k, os_normalized set !! k = or_spec <$> last (with_key k (os_rules set)).
Proof.
  unfold normalize_root_overrides. destruct (_ && _); [done|].
  intros (acc & Hacc & [= <-])%bind_Ok. cbn [os_rules os_normalized].
  assert (acc_ok decls acc) as [Hr Hn].
  { eapply (fold_res_inv (acc_ok decls)); [|intros|exact Hacc].
    - split; [by constructor|]. done.
    - cbn beta in *. eapply parse_override_entry_acc_ok; eassumption. }
  split; [by rewrite sort_by_perm|]. intros k. by rewrite Hn, with_key_sort.
Qed.

Lemma applicable_ancestors package requested ancestors r :
  applicable package requested ancestors r = true →
  or_package r = package ∧ length (or_ancestors r) ≤ length ancestors.
Proof.
  unfold applicable. rewrite !andb_true_iff, bool_decide_eq_true.
  intros [[Hp Ha] _]. split; [done|]. unfold ancestors_match in Ha.
  destruct (Nat.ltb_spec (length ancestors) (length (or_ancestors r))); [done|lia].
Qed.

Definition same_selectors (r1 r2 : OverrideRule) : Prop :=
  or_ancestors r1 = or_ancestors r2 ∧ or_package r1 = or_package r2 ∧
  or_package_req r1 = or_package_req r2.

(** Distinct selectors are spelled with distinct keys. *)
Definition keys_distinct (s : OverrideSet) : Prop :=
  ∀ r1 r2, r1 ∈ os_rules s → r2 ∈ os_rules s → or_key r1 = or_key r2 → same_selectors r1 r2.

Lemma last_with_key s (P : OverrideRule → bool) rule l1 l2 :
  filter (λ r, P r = true) (os_rules s) = l1 ++ rule :: l2 →
  (∀ r, r ∈ os_rules s → or_key r = or_key rule → P r = true) →
  (∀ r, r ∈ l2 → or_key r ≠ or_key rule) →
  last (with_key (or_key rule) (os_rules s)) = Some rule.
Proof.
  intros Hf HP Hl2.
  assert (with_key (or_key rule) (os_rules s) =
          with_key (or_key rule) (filter (λ r, P r = true) (os_rules s))) as ->.
  { unfold with_key. rewrite list_filter_filter. apply filter_ext_in.
    intros r Hr. split; [|tauto]. intros Hk. split; [done|by apply HP]. }
  rewrite Hf. unfold with_key. rewrite filter_app, filter_cons_True by done.
  rewrite (filter_nil_ext l2); [by rewrite last_snoc|done].
Qed.

(** ** Properties *)

(** Root declarations win: a manifest whose overrides normalise can never
    change what a direct dependency asks for.  For a package the root declares,
    the global override is absent or equal to the declaration, so applying the
    overrides to the declaration returns it unchanged. *)
Theorem overrides_keep_direct_dependencies overrides decls origin set package declared requested :
  normalize_root_overrides overrides decls origin = Ok set →
  decls !! package = Some declared →
  (effective_spec set package requested = requested ∨
   effective_spec set package requested = declared) ∧
  effective_spec set package declared = declared.
Proof.
  intros [Hrules _]%normalize_inv Hd.
  assert (∀ q, effective_spec set package q = q ∨ effective_spec set package q = declared) as H.
  { intros q. unfold effective_spec, effective_spec_for.
    destruct (max_by _ _) as [rule|] eqn:Hm; [right|by left].
    apply max_by_spec in Hm as (_ & l1 & l2 & Hl & _);
      [|apply rule_leb_total|apply rule_leb_trans].
    assert (rule ∈ filter (λ r, applicable package q [] r = true) (os_rules set)) as Hin
      by (rewrite Hl; set_solver).
    apply list_elem_of_filter in Hin as [[Hp Hlen]%applicable_ancestors Hin].
    rewrite Forall_forall in Hrules. destruct (Hrules _ Hin) as (_ & _ & _ & Hdir).
    apply Hdir; [|by rewrite Hp]. by destruct (or_ancestors rule); simpl in Hlen; [|lia]. }
  split; [apply H|]. destruct (H declared); done.
Qed.

(** The most specific applicable rule decides: the effective spec is the request
    when no rule applies, otherwise the spec of an applicable rule with the
    longest ancestor chain (ties by key); and, when distinct selectors have
    distinct keys, it is exactly the entry that the lockfile records for that
    key, so the recorded overrides are the ones that acted. *)
Theorem effective_spec_most_specific overrides decls origin set package requested ancestors :
  normalize_root_overrides overrides decls origin = Ok set →
  ((∀ r, r ∈ os_rules set → applicable package requested ancestors r = false) ∧
   effective_spec_for set package requested ancestors = requested) ∨
  ∃ rule, rule ∈ os_rules set ∧ applicable package requested ancestors rule = true ∧
    effective_spec_for set package requested ancestors = or_spec rule ∧
    is_empty (trim (or_spec rule)) = false ∧
    (∀ r, r ∈ os_rules set → applicable package requested ancestors r = true →
       rule_leb r rule = true) ∧
    (keys_distinct set → os_normalized set !! or_key rule = Some (or_spec rule)).
Proof.
  intros [Hrules Hnorm]%normalize_inv. unfold effective_spec_for.
  set (ok := λ r, applicable package requested ancestors r = true).
  assert (∀ r, r ∈ filter ok (os_rules set) ↔ ok r ∧ r ∈ os_rules set) as Hin
    by (intros r; apply list_elem_of_filter).
  destruct (max_by _ _) as [rule|] eqn:Hm.
  - right. apply max_by_spec in Hm as (Hmax & l1 & l2 & Hl & Hlater);
      [|apply rule_leb_total|apply rule_leb_trans].
    assert (rule ∈ filter ok (os_rules set)) as [Hok Hr]%Hin by (rewrite Hl; set_solver).
    exists rule. rewrite Forall_forall in Hrules. split_and!; try done.
    + by destruct (Hrules _ Hr) as (_ & _ & ? & _).
    + intros r Hr' Ha. apply Hmax. by apply Hin.
    + intros Hkeys. rewrite Hnorm, (last_with_key set _ rule l1 l2 Hl); [done|..].
      * intros r Hr' Hk. destruct (Hkeys r rule Hr' Hr Hk) as (Ha & Hp & Hq).
        unfold applicable. by rewrite Ha, Hp, Hq.
      * intros r Hr' Hk. specialize (Hlater r Hr').
        assert (r ∈ os_rules set) as Hrs
          by (apply (Hin r); rewrite Hl; set_solver).
        destruct (Hkeys r rule Hrs Hr Hk) as (Ha & _ & _).
        unfold rule_leb in Hlater. rewrite Ha, Hk, leb_refl_s, Nat.eqb_refl, orb_true_r in Hlater.
        done.
  - left. apply max_by_None in Hm. split; [|done]. intros r Hr.
    apply not_true_is_false. intros Ha.
    assert (r ∈ filter ok (os_rules set)) as Hf by (by apply Hin). rewrite Hm in Hf. set_solver.
Qed.
End overrides.

(** ** The boundary set of [ranges_intersect]

    [semver] documents [>I.J] as [>=I.(J+1).0], whose least element is not among
    the boundaries that are tried (the boundary, its patch successor and the next
    major), so [<1.5.0] and [>1.2] are taken as disjoint although both contain
    1.3.0: an override keyed [pkg@<1.5.0] is not applied to a request [>1.2]. *)
Lemma ranges_intersect_misses_minor_successor `{Semver} (below above : VersionReq) :
  req_comparators below = [mk_comparator 1 (Some 5%N) (Some 0%N)] →
  req_comparators above = [mk_comparator 1 (Some 2%N) None] →
  (∀ a b c, req_matches below (version_new a b c) =
     ((a <? 1) || ((a =? 1) && (b <? 5)))%N) →
  (∀ a b c, req_matches above (version_new a b c) =
     ((1 <? a) || ((a =? 1) && (3 <=? b)))%N) →
  ranges_intersect below above = false ∧
  req_matches below (version_new 1 3 0) && req_matches above (version_new 1 3 0) = true.
Proof.
  intros Hb Ha Mb Ma. unfold ranges_intersect. rewrite Hb, Ha. simpl.
  by rewrite !Mb, !Ma.
Qed.

(** ** Witnesses *)

Section witnesses.
Import Sample.

Definition sample_overrides : gmap string Value :=
  {[ "react" := VString "$react";
     "left-pad" := VObject [(".", VString "1.3.0"); ("chalk", VString "2.0.0")] ]}.
Definition sample_decls : gmap string string := {[ "react" := "^18.0.0" ]}.

Definition sample_set : OverrideSet :=
  match normalize_root_overrides sample_overrides sample_decls Root with
  | Ok s => s
  | Err _ => mk_OverrideSet [] ∅
  end.

Lemma sample_normalizes :
  normalize_root_overrides sample_overrides sample_decls Root = Ok sample_set.
Proof.
  unfold sample_set. assert (is_ok (normalize_root_overrides sample_overrides sample_decls Root)
    = true) as Hok by (vm_compute; reflexivity).
  destruct (normalize_root_overrides _ _ _); [reflexivity|discriminate Hok].
Qed.

Lemma overrides_keep_direct_dependencies_witness :
  effective_spec sample_set "react" "^18.0.0" = "^18.0.0" ∧
  effective_spec sample_set "left-pad" "^1.0.0" = "1.3.0".
Proof.
  split; [|vm_compute; reflexivity].
  exact (proj2 (overrides_keep_direct_dependencies _ _ _ _ "react" "^18.0.0" "*"
                  sample_normalizes eq_refl)).
Defined.

Lemma effective_spec_most_specific_witness :
  effective_spec_for sample_set "chalk" "^1.0.0" [("left-pad", version 1 3 0)] = "2.0.0" ∧
  ∃ rule, rule ∈ os_rules sample_set ∧ "2.0.0" = or_spec rule.
Proof.
  assert (effective_spec_for sample_set "chalk" "^1.0.0" [("left-pad", version 1 3 0)] = "2.0.0")
    as Heff by (vm_compute; reflexivity).
  split; [exact Heff|].
  destruct (effective_spec_most_specific _ _ _ _ "chalk" "^1.0.0" [("left-pad", version 1 3 0)]
              sample_normalizes) as [[_ Hreq]|(rule & Hin & _ & Hspec & _)].
  - rewrite Heff in Hreq. discriminate Hreq.
  - exists rule. rewrite Heff in Hspec. exact (conj Hin Hspec).
Defined.
End witnesses.
