(* ===== verification/Lockfile.v ===== *)
(** * [src/lockfile.rs]: the [bpm.lock] record, its canonical form and validation

    The JSON text and serde's derived readers and writers are the class
    [LockCodec].  An error carries the reason as a constructor instead of the
    formatted sentence. *)

From S2P Require Export Registry.

Definition BPM_LOCK_VERSION : N := 2.
Definition LEGACY_LOCK_VERSION : N := 1.

Record LockTarget := mk_LockTarget { lt_os : string; lt_cpu : string; lt_libc : option string }.

Inductive LockPeerMode := LockStrict | LockLegacyIgnore.

Inductive LockSource :=
  | LSRegistry (registry : string)
  | LSWorkspace (relative_path : string)
  | LSFile (path : string)
  | LSTarball (url : string)
  | LSGit (url : string) (reference : option string) (resolved_commit : string)
  | LSPatch (source : LockSource) (patch : string).

Record PeerProvider := mk_PeerProvider {
  pp_name : string; pp_version : string; pp_source : LockSource; pp_path : string }.

Record LockDependency := mk_LockDependency { ld_spec : string; ld_target : string }.

Record PackageResolution := mk_PackageResolution {
  pres_source : LockSource; pres_dev_optional : bool; pres_peer : bool;
  pres_libc : list string;
  pres_dependencies : gmap string LockDependency;
  pres_optional_dependencies : gmap string LockDependency;
  pres_peer_dependencies : gmap string LockDependency;
  pres_optional_peers : gset string;
  pres_peer_context : gmap string PeerProvider;
  pres_workspace_target : option string;
  pres_has_install_script : bool }.

Record RootResolution := mk_RootResolution {
  rr_dev_dependencies : gmap string string;
  rr_optional_dependencies : gmap string string;
  rr_overrides : gmap string string;
  rr_workspace_patterns : list string;
  rr_workspace_index_digest : option string;
  rr_target : option LockTarget;
  rr_peer_mode : LockPeerMode }.
Definition RootResolution_default : RootResolution :=
  mk_RootResolution ∅ ∅ ∅ [] None None LockStrict.

Record ResolutionMetadata := mk_ResolutionMetadata {
  rm_root : RootResolution;
  rm_packages : gmap string PackageResolution;
  rm_registry_names : gmap string string }.
Definition ResolutionMetadata_default : ResolutionMetadata :=
  mk_ResolutionMetadata RootResolution_default ∅ ∅.

Record RootEntry := mk_RootEntry {
  re_name : option string; re_version : option string; re_dependencies : gmap string string }.
Definition RootEntry_default : RootEntry := mk_RootEntry None None ∅.

Record PackageEntry := mk_PackageEntry {
  pe_path : string; pe_name : string; pe_version : string; pe_resolved : string;
  pe_workspace_target : option string; pe_integrity : option string;
  pe_link : bool; pe_dev : bool; pe_optional : bool;
  pe_os : list string; pe_cpu : list string;
  pe_bin : gmap string string; pe_dependencies : gmap string string }.

Record Lockfile := mk_Lockfile {
  lf_lockfile_version : N; lf_generator : string; lf_root : RootEntry;
  lf_packages : list PackageEntry; lf_resolution : ResolutionMetadata }.

Definition Lockfile_new (generator : string) : Lockfile :=
  mk_Lockfile BPM_LOCK_VERSION generator RootEntry_default [] ResolutionMetadata_default.

Inductive InvalidReason :=
  | PathNotNormalized (path : string)
  | PathOutOfOrder (path : string)
  | RegistryNameUnknownPath (path : string)
  | RegistryNameEmpty (path : string)
  | RegistryNameRedundant (path : string)
  | RegistryNameUnsafe (path : string)
  | MetadataUnknownPath (path : string)
  | BadRegistrySource (path : string)
  | BadWorkspaceSource (path : string)
  | BadFileSource (path : string)
  | BadTarballSource (path : string)
  | BadGitSource (path : string)
  | BadPatchSource (path : string)
  | TargetMissing (group name package target : string)
  | PeerTargetMissing (peer path target : string).

Inductive LockfileError :=
  | LockParse (message : string)
  | UnsupportedVersion (found : N)
  | Invalid (reason : InvalidReason)
  | UnsafePath (path : string) (e : PathSafetyError)
  | UnsafeBin (path : string) (e : PathSafetyError).

(** ** Canonical form *)

(** [sort(); dedup()]. *)
Definition sort_dedup (l : list string) : list string := dedup_adjacent (sort_by String.leb l).

Definition with_packages (l : Lockfile) (ps : list PackageEntry) : Lockfile :=
  mk_Lockfile (lf_lockfile_version l) (lf_generator l) (lf_root l) ps (lf_resolution l).

Definition path_leb (a b : PackageEntry) : bool := String.leb (pe_path a) (pe_path b).

Definition sort_packages (l : Lockfile) : Lockfile :=
  with_packages l (sort_by path_leb (lf_packages l)).

Definition with_patterns (r : RootResolution) (patterns : list string) : RootResolution :=
  mk_RootResolution (rr_dev_dependencies r) (rr_optional_dependencies r) (rr_overrides r)
    patterns (rr_workspace_index_digest r) (rr_target r) (rr_peer_mode r).

Definition with_libc (p : PackageResolution) (libc : list string) : PackageResolution :=
  mk_PackageResolution (pres_source p) (pres_dev_optional p) (pres_peer p) libc
    (pres_dependencies p) (pres_optional_dependencies p) (pres_peer_dependencies p)
    (pres_optional_peers p) (pres_peer_context p) (pres_workspace_target p)
    (pres_has_install_script p).

Definition root_resolution_lists (l : Lockfile) : Lockfile :=
  let r := lf_resolution l in
  mk_Lockfile (lf_lockfile_version l) (lf_generator l) (lf_root l) (lf_packages l)
    (mk_ResolutionMetadata
       (with_patterns (rm_root r) (sort_dedup (rr_workspace_patterns (rm_root r))))
       ((λ p, with_libc p (sort_dedup (pres_libc p))) <$> rm_packages r)
       (rm_registry_names r)).

Definition registry_name_for (l : Lockfile) (package : PackageEntry) : string :=
  default (pe_name package) (rm_registry_names (lf_resolution l) !! pe_path package).

(** ** Validation *)

Definition is_full_git_commit (value : string) : bool :=
  (strlen value =? 40) && all_chars is_ascii_hexdigit value.

Definition legal_relative_path (path : string) : bool :=
  negb (is_empty path) && negb (starts_with_char slash path) &&
  negb (starts_with_char backslash path) && negb (contains_char backslash path) &&
  negb (existsb (λ part, is_empty part || bool_decide (part = ".") || bool_decide (part = ".."))
          (split_char slash path)) &&
  match second_byte path with Some b => negb (ceqb b colon) | None => true end.

Definition validate_package_safety (l : Lockfile) : result LockfileError () :=
  each_res (λ package,
    _ ← (if negb (pe_link package) then
           map_err (UnsafePath (pe_path package))
             (validate_package_path (pe_path package) ≫= λ _, Ok ())
         else Ok ());
    each_res (λ kv : string * string,
      _ ← map_err (UnsafeBin (pe_path package)) (validate_bin_name kv.1 ≫= λ _, Ok ());
      map_err (UnsafeBin (pe_path package)) (validate_bin_target kv.2 ≫= λ _, Ok ()))
      (bt_list (pe_bin package))) (lf_packages l).

(** [is_none_or(str::is_empty)]. *)
Definition absent_or_empty (o : option string) : bool :=
  match o with None => true | Some s => is_empty s end.

Definition find_package (l : Lockfile) (path : string) : option PackageEntry :=
  snd <$> list_find (λ e, pe_path e = path) (lf_packages l).

(** The first loop of [validate_v2]: the previous path and the set of paths. *)
Definition check_path (st : option string * gset string) (package : PackageEntry)
    : result LockfileError (option string * gset string) :=
  let path := pe_path package in
  fail_if (negb (legal_relative_path path)) with_err (Invalid (PathNotNormalized path));
  fail_if (match st.1 with Some value => String.leb path value | None => false end)
    with_err (Invalid (PathOutOfOrder path));
  Ok (Some path, {[ path ]} ∪ st.2).

Definition check_registry_name (l : Lockfile) (kv : string * string) : result LockfileError () :=
  let '(path, canonical_name) := kv in
  package ← ok_or (Invalid (RegistryNameUnknownPath path)) (find_package l path);
  fail_if (is_empty canonical_name) with_err (Invalid (RegistryNameEmpty path));
  fail_if (bool_decide (canonical_name = pe_name package))
    with_err (Invalid (RegistryNameRedundant path));
  fail_if (negb (is_valid_npm_read_name canonical_name))
    with_err (Invalid (RegistryNameUnsafe path));
  Ok ().

Definition check_source (path : string) (package : PackageEntry) (metadata : PackageResolution)
    : result LockfileError () :=
  match pres_source metadata with
  | LSRegistry registry =>
      fail_if (is_empty registry || is_empty (pe_resolved package) ||
               absent_or_empty (pe_integrity package))
        with_err (Invalid (BadRegistrySource path)); Ok ()
  | LSWorkspace relative_path =>
      fail_if (negb (pe_link package) ||
               bool_decide (pres_workspace_target metadata ≠ Some relative_path) ||
               negb (legal_relative_path relative_path))
        with_err (Invalid (BadWorkspaceSource path)); Ok ()
  | LSFile source_path =>
      fail_if (negb (pe_link package) ||
               bool_decide (pres_workspace_target metadata ≠ Some source_path))
        with_err (Invalid (BadFileSource path)); Ok ()
  | LSTarball url =>
      fail_if (is_empty url || is_empty (pe_resolved package))
        with_err (Invalid (BadTarballSource path)); Ok ()
  | LSGit url _ resolved_commit =>
      fail_if (is_empty url || is_empty (pe_resolved package) ||
               negb (is_full_git_commit resolved_commit))
        with_err (Invalid (BadGitSource path)); Ok ()
  | LSPatch _ patch =>
      fail_if (is_empty patch || is_empty (pe_resolved package) ||
               absent_or_empty (pe_integrity package))
        with_err (Invalid (BadPatchSource path)); Ok ()
  end.

Definition validate_targets (package group : string) (dependencies : gmap string LockDependency)
    (paths : gset string) : result LockfileError () :=
  each_res (λ kv : string * LockDependency,
    fail_if (negb (bool_decide (ld_target kv.2 ∈ paths)))
      with_err (Invalid (TargetMissing group kv.1 package (ld_target kv.2))); Ok ())
    (bt_list dependencies).

Definition check_peer_context (path : string) (context : gmap string PeerProvider)
    (paths : gset string) : result LockfileError () :=
  each_res (λ kv : string * PeerProvider,
    fail_if (negb (bool_decide (pp_path kv.2 ∈ paths)))
      with_err (Invalid (PeerTargetMissing kv.1 path (pp_path kv.2))); Ok ())
    (bt_list context).

Definition check_metadata (l : Lockfile) (paths : gset string)
    (kv : string * PackageResolution) : result LockfileError () :=
  let '(path, metadata) := kv in
  package ← ok_or (Invalid (MetadataUnknownPath path)) (find_package l path);
  _ ← check_source path package metadata;
  _ ← validate_targets path "dependencies" (pres_dependencies metadata) paths;
  _ ← validate_targets path "optionalDependencies" (pres_optional_dependencies metadata) paths;
  _ ← validate_targets path "peerDependencies" (pres_peer_dependencies metadata) paths;
  check_peer_context path (pres_peer_context metadata) paths.

Definition validate_v2 (l : Lockfile) : result LockfileError () :=
  st ← fold_res check_path (None, ∅) (lf_packages l);
  _ ← each_res (check_registry_name l) (bt_list (rm_registry_names (lf_resolution l)));
  each_res (check_metadata l st.2) (bt_list (rm_packages (lf_resolution l))).

(** ** Text *)

Class LockCodec := {
  lock_text : Type;
  to_string_pretty : Lockfile → result string lock_text;
  probe_version : lock_text → result string N;
  from_str : lock_text → result string Lockfile;
}.

Class LockCodecLaws (C : LockCodec) : Prop := {
  (** A written lockfile reads back. *)
  from_str_to_string l t : to_string_pretty l = Ok t → from_str t = Ok l;
  (** The version probe reads the same field. *)
  probe_from_str t l : from_str t = Ok l → probe_version t = Ok (lf_lockfile_version l);
}.

Section text.
Context `{Codec : LockCodec}.

Definition canonicalize (l : Lockfile) : Lockfile := root_resolution_lists (sort_packages l).

Definition to_json (l : Lockfile) : result LockfileError lock_text :=
  map_err LockParse (to_string_pretty (canonicalize l)).

Definition migrate (l : Lockfile) : Lockfile :=
  mk_Lockfile BPM_LOCK_VERSION (lf_generator l) (lf_root l) (lf_packages l)
    ResolutionMetadata_default.

Definition from_json (json : lock_text) : result LockfileError Lockfile :=
  version ← map_err LockParse (probe_version json);
  fail_if (bool_decide (version ≠ LEGACY_LOCK_VERSION) &&
           bool_decide (version ≠ BPM_LOCK_VERSION))
    with_err (UnsupportedVersion version);
  lockfile ← map_err LockParse (from_str json);
  _ ← validate_package_safety lockfile;
  if bool_decide (version = LEGACY_LOCK_VERSION) then Ok (migrate lockfile)
  else
    _ ← validate_v2 lockfile;
    Ok lockfile.
End text.

(** ** Specification *)

Definition source_ok (p : PackageEntry) (m : PackageResolution) : Prop :=
  match pres_source m with
  | LSRegistry registry =>
      registry ≠ "" ∧ pe_resolved p ≠ "" ∧ ∃ i, pe_integrity p = Some i ∧ i ≠ ""
  | LSWorkspace relative_path =>
      pe_link p = true ∧ pres_workspace_target m = Some relative_path ∧
      is_normalized_relative relative_path = true
  | LSFile path => pe_link p = true ∧ pres_workspace_target m = Some path
  | LSTarball url => url ≠ "" ∧ pe_resolved p ≠ ""
  | LSGit url _ commit =>
      url ≠ "" ∧ pe_resolved p ≠ "" ∧ strlen commit = 40 ∧
      all_chars is_ascii_hexdigit commit = true
  | LSPatch _ patch => patch ≠ "" ∧ pe_resolved p ≠ "" ∧ ∃ i, pe_integrity p = Some i ∧ i ≠ ""
  end.

(** The placements an entry's metadata points at. *)
Definition points_to (m : PackageResolution) (target : string) : Prop :=
  (∃ name d, (pres_dependencies m !! name = Some d ∨
              pres_optional_dependencies m !! name = Some d ∨
              pres_peer_dependencies m !! name = Some d) ∧ ld_target d = target) ∨
  (∃ peer p, pres_peer_context m !! peer = Some p ∧ pp_path p = target).

Definition placed (l : Lockfile) (path : string) : Prop :=
  ∃ p, p ∈ lf_packages l ∧ pe_path p = path.

Record lock_wf (l : Lockfile) : Prop := mk_lock_wf {
  wf_sorted : StronglySorted str_lt (pe_path <$> lf_packages l);
  wf_paths : ∀ p, p ∈ lf_packages l → is_normalized_relative (pe_path p) = true;
  wf_names : ∀ path n, rm_registry_names (lf_resolution l) !! path = Some n →
    ∃ p, p ∈ lf_packages l ∧ pe_path p = path ∧ n ≠ pe_name p ∧ is_valid_npm_read_name n = true;
  wf_meta : ∀ path m, rm_packages (lf_resolution l) !! path = Some m →
    (∃ p, p ∈ lf_packages l ∧ pe_path p = path ∧ source_ok p m) ∧
    ∀ target, points_to m target → placed l target }.

(** ** Lemmas: ordered lists *)

Lemma dedup_adjacent_cons x l :
  ∃ l', dedup_adjacent (x :: l) = x :: l'.
Proof.
  revert x. induction l as [|y l IH]; intros x; [by eexists|].
  change (dedup_adjacent (x :: y :: l)) with
    (if bool_decide (x = y) then dedup_adjacent (y :: l) else x :: dedup_adjacent (y :: l)).
  destruct (decide (x = y)) as [->|Hne].
  - rewrite bool_decide_eq_true_2 by done. apply IH.
  - rewrite bool_decide_eq_false_2 by done. by eexists.
Qed.

Lemma elem_of_dedup_adjacent x l : x ∈ dedup_adjacent l ↔ x ∈ l.
Proof.
  induction l as [|a l IH]; [done|]. destruct l as [|b l]; [done|].
  change (dedup_adjacent (a :: b :: l)) with
    (if bool_decide (a = b) then dedup_adjacent (b :: l) else a :: dedup_adjacent (b :: l)).
  destruct (decide (a = b)) as [->|Hne].
  - rewrite bool_decide_eq_true_2 by done. rewrite IH. set_solver.
  - rewrite bool_decide_eq_false_2 by done. rewrite elem_of_cons, IH. set_solver.
Qed.

Lemma dedup_adjacent_strict l :
  StronglySorted (λ x y, String.leb x y = true) l → StronglySorted str_lt (dedup_adjacent l).
Proof.
  induction 1 as [|a l Hl IH Ha]; [constructor|]. destruct l as [|b l]; [by repeat constructor|].
  change (dedup_adjacent (a :: b :: l)) with
    (if bool_decide (a = b) then dedup_adjacent (b :: l) else a :: dedup_adjacent (b :: l)).
  destruct (decide (a = b)) as [->|Hne].
  - by rewrite bool_decide_eq_true_2.
  - rewrite bool_decide_eq_false_2 by done. constructor; [done|].
    apply Forall_forall. intros c Hc. rewrite elem_of_dedup_adjacent in Hc.
    apply Forall_cons in Ha as [Hab _]. apply StronglySorted_inv in Hl as [_ Hb].
    unfold str_lt. apply ltb_leb. apply elem_of_cons in Hc as [->|Hc]; [done|].
    rewrite Forall_forall in Hb. specialize (Hb c Hc). cbn beta in Hb. split.
    + by eapply leb_trans_s.
    + intros ->. apply Hne. by apply leb_antisym_s.
Qed.

Lemma dedup_adjacent_id l : StronglySorted str_lt l → dedup_adjacent l = l.
Proof.
  induction 1 as [|a l Hl IH Ha]; [done|]. destruct l as [|b l]; [done|].
  change (dedup_adjacent (a :: b :: l)) with
    (if bool_decide (a = b) then dedup_adjacent (b :: l) else a :: dedup_adjacent (b :: l)).
  apply Forall_cons in Ha as [Hab _].
  rewrite bool_decide_eq_false_2, IH; [done|]. intros ->. by apply str_lt_irrefl in Hab.
Qed.

Lemma sort_dedup_idem l : sort_dedup (sort_dedup l) = sort_dedup l.
Proof.
  unfold sort_dedup at 1. assert (StronglySorted str_lt (sort_dedup l)) as Hs.
  { apply dedup_adjacent_strict, sort_by_sorted; [apply leb_total_s|apply leb_trans_s]. }
  rewrite sort_by_id; [by apply dedup_adjacent_id|].
  eapply StronglySorted_impl; [|exact Hs]. intros x y Hxy. by apply ltb_leb in Hxy as [? _].
Qed.

Lemma path_leb_total a b : path_leb a b = true ∨ path_leb b a = true.
Proof. apply leb_total_s. Qed.
Lemma path_leb_trans a b c : path_leb a b = true → path_leb b c = true → path_leb a c = true.
Proof. apply leb_trans_s. Qed.

Lemma sort_packages_unique l1 l2 :
  l1 ≡ₚ l2 → NoDup (pe_path <$> l1) → sort_by path_leb l1 = sort_by path_leb l2.
Proof.
  apply sort_by_unique; [apply path_leb_total|apply path_leb_trans|].
  intros x y. apply leb_antisym_s.
Qed.

Lemma canonicalize_idem l : canonicalize (canonicalize l) = canonicalize l.
Proof.
  unfold canonicalize, root_resolution_lists, sort_packages, with_packages. simpl. f_equal.
  - apply sort_by_id. apply sort_by_sorted; [apply path_leb_total|apply path_leb_trans].
  - f_equal.
    + unfold with_patterns. simpl. by rewrite sort_dedup_idem.
    + rewrite <- map_fmap_compose. apply map_fmap_ext. intros k m _. simpl.
      unfold with_libc. simpl. by rewrite sort_dedup_idem.
Qed.

(** ** Lemmas: validation *)

Lemma legal_relative_path_eq path : legal_relative_path path = is_normalized_relative path.
Proof.
  apply eq_true_iff_eq. rewrite is_normalized_relative_true.
  unfold legal_relative_path. rewrite !andb_true_iff, !negb_true_iff, is_empty_false.
  assert (existsb (λ part, is_empty part || bool_decide (part = ".") || bool_decide (part = ".."))
            (split_char slash path) = false ↔
          Forall (λ c, is_valid_component c = true) (split_char slash path)) as ->.
  { generalize (split_char slash path) as l. induction l as [|c l IH]; [done|].
    cbn [existsb]. rewrite orb_false_iff, IH, Forall_cons. apply and_iff_compat_r.
    rewrite is_valid_component_true, !orb_false_iff, !bool_decide_eq_false, is_empty_false.
    tauto. }
  assert ((match second_byte path with Some b => negb (ceqb b colon) | None => true end) = true
          ↔ second_byte path ≠ Some colon) as ->.
  { destruct (second_byte path) as [b|]; [|done]. rewrite negb_true_iff, ceqb_neq.
    split; [by intros H [= ->]|]. intros H ->. by apply H. }
  split.
  - tauto.
  - intros (Hne & H1 & H2 & H3 & H4). split_and!; try done.
    destruct path as [|c path]; [done|]. unfold contains_char in H2. simpl in H2.
    apply orb_false_iff in H2 as [H2 _]. exact H2.
Qed.

Lemma check_path_step st p st' :
  check_path st p = Ok st' ↔
  is_normalized_relative (pe_path p) = true ∧
  (∀ v, st.1 = Some v → str_lt v (pe_path p)) ∧ st' = (Some (pe_path p), {[ pe_path p ]} ∪ st.2).
Proof.
  unfold check_path. rewrite legal_relative_path_eq.
  destruct (is_normalized_relative (pe_path p)); simpl; [|naive_solver].
  destruct st.1 as [v|]; [|naive_solver]. rewrite leb_ltb.
  destruct (String.ltb v (pe_path p)) eqn:Hlt; simpl; split.
  - intros [= <-]. split; [done|]. split; [|done]. by intros v' [= <-].
  - by intros (_ & _ & ->).
  - done.
  - intros (_ & H & _). specialize (H v eq_refl). unfold str_lt in H. congruence.
Qed.

Definition above (prev : option string) (paths : list string) : Prop :=
  ∀ v, prev = Some v → Forall (str_lt v) paths.

Lemma check_paths_sound l prev set st' :
  fold_res check_path (prev, set) l = Ok st' →
  above prev (pe_path <$> l) ∧ StronglySorted str_lt (pe_path <$> l) ∧
  (∀ p, p ∈ l → is_normalized_relative (pe_path p) = true) ∧
  st'.2 = list_to_set (pe_path <$> l) ∪ set.
Proof.
  revert prev set. induction l as [|p l IH]; intros prev set.
  - intros [= <-]. split_and!; [by constructor|by constructor|by intros p ?%not_elem_of_nil|].
    simpl. set_solver.
  - cbn [fold_res]. intros (st & (Hn & Hlt & ->)%check_path_step & Hl)%bind_Ok.
    destruct (IH _ _ Hl) as (Ha & Hs & Hall & ->). specialize (Ha _ eq_refl). csimpl. split_and!.
    + intros v Hv. specialize (Hlt v Hv). constructor; [done|].
      eapply Forall_impl; [exact Ha|]. intros w. by apply str_lt_trans.
    + by constructor.
    + intros q [->|Hq]%elem_of_cons; [done|by apply Hall].
    + set_solver.
Qed.

Lemma check_paths_complete l prev set :
  above prev (pe_path <$> l) → StronglySorted str_lt (pe_path <$> l) →
  (∀ p, p ∈ l → is_normalized_relative (pe_path p) = true) →
  ∃ st', fold_res check_path (prev, set) l = Ok st'.
Proof.
  revert prev set. induction l as [|p l IH]; intros prev set Ha Hs Hall; [by eexists|].
  cbn [fold_res]. csimpl in *. apply StronglySorted_inv in Hs as [Hs Hp].
  rewrite (proj2 (check_path_step (prev, set) p (Some (pe_path p), {[ pe_path p ]} ∪ set))).
  - cbn [mbind result_bind]. apply IH; [by intros v [= <-]|done|]. intros q Hq. apply Hall. by right.
  - split_and!; [apply Hall; by left| |reflexivity]. intros v Hv.
    specialize (Ha v Hv). by apply Forall_cons in Ha as [? _].
Qed.

Lemma find_package_Some l path p :
  StronglySorted str_lt (pe_path <$> lf_packages l) →
  find_package l path = Some p ↔ p ∈ lf_packages l ∧ pe_path p = path.
Proof.
  intros Hs. unfold find_package. split.
  - intros ([i q] & Hq & Heq)%fmap_Some. simpl in Heq. subst q.
    apply list_find_Some in Hq as (Hi & Hp & _). split; [by eapply list_elem_of_lookup_2|done].
  - intros [[i Hi]%list_elem_of_lookup Hp].
    destruct (list_find _ (lf_packages l)) as [[j q]|] eqn:Hf.
    + apply list_find_Some in Hf as (Hj & Hq & _). simpl. f_equal.
      destruct (decide (i = j)) as [->|Hne]; [by simplify_eq|]. exfalso.
      assert (∀ i, (pe_path <$> lf_packages l) !! i = pe_path <$> lf_packages l !! i) as Hlk
        by (intros; apply list_lookup_fmap).
      apply (str_lt_irrefl path). destruct (Nat.lt_gt_cases i j) as [[Hij|Hij] _]; [done|..].
      * eapply (StronglySorted_lookup _ _ i j path path Hs Hij); rewrite Hlk;
          [rewrite Hi|rewrite Hj]; simpl; congruence.
      * eapply (StronglySorted_lookup _ _ j i path path Hs Hij); rewrite Hlk;
          [rewrite Hj|rewrite Hi]; simpl; congruence.
    + apply list_find_None in Hf. rewrite Forall_lookup in Hf. by destruct (Hf i p Hi).
Qed.

Lemma check_registry_name_Ok l path n :
  StronglySorted str_lt (pe_path <$> lf_packages l) →
  check_registry_name l (path, n) = Ok () ↔
  ∃ p, p ∈ lf_packages l ∧ pe_path p = path ∧ n ≠ pe_name p ∧ is_valid_npm_read_name n = true.
Proof.
  intros Hs. unfold check_registry_name. rewrite bind_Ok. setoid_rewrite ok_or_Ok.
  setoid_rewrite (find_package_Some _ _ _ Hs).
  apply exist_proper. intros p.
  destruct (is_valid_npm_read_name n) eqn:Hv; simpl.
  - assert (is_empty n = false) as ->.
    { apply is_empty_false. by apply valid_name_components in Hv as (_ & _ & _ & _ & ?). }
    destruct (decide (n = pe_name p)) as [->|Hne].
    + rewrite bool_decide_eq_true_2 by done. naive_solver.
    + rewrite bool_decide_eq_false_2 by done. tauto.
  - split; [|naive_solver]. intros [_ H]. destruct (is_empty n); [done|].
    by destruct (bool_decide (n = pe_name p)).
Qed.

Lemma fail_if_Ok {E} (b : bool) (e : E) : (if b then Err e else Ok ()) = Ok () ↔ b = false.
Proof. by destruct b. Qed.

Lemma absent_or_empty_false o : absent_or_empty o = false ↔ ∃ i, o = Some i ∧ i ≠ "".
Proof.
  destruct o as [s|]; simpl; [rewrite is_empty_false|]; naive_solver.
Qed.

Lemma check_source_Ok path p m : check_source path p m = Ok () ↔ source_ok p m.
Proof.
  unfold check_source, source_ok.
  destruct (pres_source m); rewrite fail_if_Ok, ?orb_false_iff, ?negb_false_iff, ?is_empty_false,
    ?absent_or_empty_false, ?bool_decide_eq_false, ?legal_relative_path_eq.
  - tauto.
  - split; [|tauto]. intros [[? H] ?]. split; [done|]. split; [|done].
    by destruct (decide (pres_workspace_target m = Some relative_path)).
  - split; [|tauto]. intros [? H]. split; [done|].
    by destruct (decide (pres_workspace_target m = Some path0)).
  - tauto.
  - unfold is_full_git_commit. rewrite andb_true_iff, Nat.eqb_eq. tauto.
  - tauto.
Qed.

Lemma validate_targets_Ok package group deps paths :
  validate_targets package group deps paths = Ok () ↔
  ∀ name d, deps !! name = Some d → ld_target d ∈ paths.
Proof.
  unfold validate_targets. rewrite each_res_Ok. split.
  - intros H name d Hd%elem_of_bt_list. specialize (H _ Hd). apply fail_if_Ok in H.
    by rewrite negb_false_iff, bool_decide_eq_true in H.
  - intros H [name d] Hd%elem_of_bt_list. apply fail_if_Ok. rewrite negb_false_iff, bool_decide_eq_true.
    by eapply H.
Qed.

Lemma check_peer_context_Ok path context paths :
  check_peer_context path context paths = Ok () ↔
  ∀ peer p, context !! peer = Some p → pp_path p ∈ paths.
Proof.
  unfold check_peer_context. rewrite each_res_Ok. split.
  - intros H peer p Hp%elem_of_bt_list. specialize (H _ Hp). apply fail_if_Ok in H.
    by rewrite negb_false_iff, bool_decide_eq_true in H.
  - intros H [peer p] Hp%elem_of_bt_list. apply fail_if_Ok. rewrite negb_false_iff, bool_decide_eq_true.
    by eapply H.
Qed.

Lemma bind_unit_Ok {E A} (m : result E ()) (k : result E A) a :
  (_ ← m; k) = Ok a ↔ m = Ok () ∧ k = Ok a.
Proof.
  rewrite bind_Ok. split; [by intros ([] & ? & ?)|]. intros [? ?]. by exists ().
Qed.

Lemma check_metadata_Ok l paths path m :
  StronglySorted str_lt (pe_path <$> lf_packages l) →
  check_metadata l paths (path, m) = Ok () ↔
  (∃ p, p ∈ lf_packages l ∧ pe_path p = path ∧ source_ok p m) ∧
  ∀ target, points_to m target → target ∈ paths.
Proof.
  intros Hs. unfold check_metadata. rewrite bind_Ok. setoid_rewrite ok_or_Ok.
  setoid_rewrite (find_package_Some _ _ _ Hs). setoid_rewrite bind_unit_Ok.
  setoid_rewrite check_source_Ok.
  setoid_rewrite bind_unit_Ok. setoid_rewrite bind_unit_Ok. setoid_rewrite bind_unit_Ok.
  setoid_rewrite validate_targets_Ok. setoid_rewrite check_peer_context_Ok.
  unfold points_to. split.
  - intros (p & [Hp Hpath] & Hsrc & H1 & H2 & H3 & H4). split; [by exists p|].
    intros t [(name & d & Hd & <-)|(peer & q & Hq & <-)]; [|by eapply H4].
    destruct Hd as [?|[?|?]]; [by eapply H1|by eapply H2|by eapply H3].
  - intros [(p & Hp & Hpath & Hsrc) Ht]. exists p. split; [done|]. split; [done|].
    split_and!; intros name d Hd; apply Ht; [left; exists name, d..|right; exists name, d]; auto.
Qed.

Lemma validate_v2_sound l : validate_v2 l = Ok () → lock_wf l.
Proof.
  unfold validate_v2. rewrite bind_Ok. setoid_rewrite bind_unit_Ok.
  intros (st & Hp & Hn & Hm). apply check_paths_sound in Hp as (_ & Hs & Hall & Hset).
  rewrite each_res_Ok in Hn. rewrite each_res_Ok in Hm. split; [done|done|..].
  - intros path n Hpn. apply check_registry_name_Ok; [done|]. apply Hn. by apply elem_of_bt_list.
  - intros path m Hpm. apply elem_of_bt_list in Hpm. apply Hm, check_metadata_Ok in Hpm; [|done].
    destruct Hpm as [Hsrc Ht]. split; [done|]. intros t Hpt. specialize (Ht t Hpt).
    rewrite Hset in Ht. unfold placed. set_solver.
Qed.

Lemma validate_v2_complete l : lock_wf l → validate_v2 l = Ok ().
Proof.
  intros [Hs Hall Hn Hm]. unfold validate_v2.
  destruct (check_paths_complete (lf_packages l) None ∅) as [st Hst]; [done..|].
  rewrite Hst. cbn [mbind result_bind]. apply check_paths_sound in Hst as (_ & _ & _ & Hset).
  rewrite bind_unit_Ok. split; apply each_res_Ok.
  - intros [path n] Hpn. apply check_registry_name_Ok; [done|]. apply Hn. by apply elem_of_bt_list.
  - intros [path m] Hpm. apply elem_of_bt_list, Hm in Hpm as [Hsrc Ht].
    apply check_metadata_Ok; [done|]. split; [done|]. intros t Hpt.
    destruct (Ht t Hpt) as (p & Hp & <-). rewrite Hset. set_solver.
Qed.

Lemma validate_package_safety_Ok l :
  validate_package_safety l = Ok () ↔
  ∀ p, p ∈ lf_packages l →
    (pe_link p = true ∨ validate_package_path (pe_path p) = Ok (pe_path p)) ∧
    ∀ name target, pe_bin p !! name = Some target →
      is_Some (ok (validate_bin_name name)) ∧ is_Some (ok (validate_bin_target target)).
Proof.
  unfold validate_package_safety. rewrite each_res_Ok. apply forall_proper. intros p.
  assert (∀ {E F A} (f : E → F) (r : result E A),
            map_err f (r ≫= λ _, Ok ()) = Ok () ↔ is_Some (ok r)) as Hm.
  { intros E F A f [a|e]; simpl; split; [by eexists|done|done|by intros []]. }
  assert ((∀ name target, pe_bin p !! name = Some target →
            is_Some (ok (validate_bin_name name)) ∧ is_Some (ok (validate_bin_target target))) ↔
          each_res (λ kv : string * string,
            _ ← map_err (UnsafeBin (pe_path p)) (validate_bin_name kv.1 ≫= λ _, Ok ());
            map_err (UnsafeBin (pe_path p)) (validate_bin_target kv.2 ≫= λ _, Ok ()))
            (bt_list (pe_bin p)) = Ok ()) as ->.
  { rewrite each_res_Ok. split.
    - intros H [name target] Hin%elem_of_bt_list. rewrite bind_unit_Ok, !Hm. by apply H.
    - intros H name target Hin%elem_of_bt_list. specialize (H _ Hin).
      by rewrite bind_unit_Ok, !Hm in H. }
  rewrite bind_unit_Ok. destruct (pe_link p); simpl.
  - split; intros H Hp; specialize (H Hp); tauto.
  - rewrite Hm. assert (is_Some (ok (validate_package_path (pe_path p))) ↔
      false = true ∨ validate_package_path (pe_path p) = Ok (pe_path p)) as ->; [|done].
    split.
    + intros [q Hq%ok_Some]. right. by pose proof Hq as [-> _]%validate_package_path_Ok.
    + intros [?|H]; [done|]. rewrite H. by eexists.
Qed.

(** ** Properties *)


Section text_properties.
Context `{Codec : LockCodec}.

Lemma from_json_inv t l :
  from_json t = Ok l →
  ∃ l0 v, probe_version t = Ok v ∧ from_str t = Ok l0 ∧ validate_package_safety l0 = Ok () ∧
    ((v = LEGACY_LOCK_VERSION ∧ l = migrate l0) ∨
     (v = BPM_LOCK_VERSION ∧ l = l0 ∧ validate_v2 l0 = Ok ())).
Proof.
  unfold from_json. intros (v & Hv%map_err_Ok & H)%bind_Ok.
  destruct (decide (v = LEGACY_LOCK_VERSION)) as [->|H1].
  - apply bind_Ok in H as (l0 & Hl0%map_err_Ok & H). apply bind_unit_Ok in H as [Hs H].
    injection H as <-. exists l0, LEGACY_LOCK_VERSION. split_and!; [done..|]. by left.
  - destruct (decide (v = BPM_LOCK_VERSION)) as [->|H2].
    + apply bind_Ok in H as (l0 & Hl0%map_err_Ok & H). apply bind_unit_Ok in H as [Hs H].
      apply (bind_unit_Ok (validate_v2 l0)) in H as [Hv2 [= <-]].
      exists l0, BPM_LOCK_VERSION. split_and!; [done..|]. by right.
    + rewrite !bool_decide_eq_true_2 in H by done. done.
Qed.

Context {L : LockCodecLaws Codec}.

(** Reading is safe for every schema version: whatever the text, a lockfile that
    [from_json] returns has the current version, every package that is not a
    link has a path the safety validator accepts unchanged, every declared
    executable has an accepted name and target, and its resolver metadata is
    either absent (a migrated legacy file) or part of a well-formed v2 lock. *)
Theorem from_json_safe t l :
  from_json t = Ok l →
  lf_lockfile_version l = BPM_LOCK_VERSION ∧
  (∀ p, p ∈ lf_packages l →
     (pe_link p = true ∨ validate_package_path (pe_path p) = Ok (pe_path p)) ∧
     ∀ name target, pe_bin p !! name = Some target →
       is_Some (ok (validate_bin_name name)) ∧ is_Some (ok (validate_bin_target target))) ∧
  (lf_resolution l = ResolutionMetadata_default ∨ lock_wf l).
Proof using L.
  intros (l0 & v & Hp & Hl0 & Hs & Hcase)%from_json_inv.
  pose proof (proj1 (validate_package_safety_Ok l0) Hs) as Hsafe.
  rewrite (probe_from_str _ _ Hl0) in Hp. injection Hp as <-.
  destruct Hcase as [[_ ->]|(Hv & -> & Hv2)].
  - split; [done|]. split; [exact Hsafe|by left].
  - split; [done|]. split; [exact Hsafe|]. right. by apply validate_v2_sound.
Qed.

Lemma to_json_reads_back l t :
  lf_lockfile_version l = BPM_LOCK_VERSION → to_json l = Ok t →
  validate_package_safety (canonicalize l) = Ok () → lock_wf (canonicalize l) →
  from_json t = Ok (canonicalize l).
Proof using L.
  intros Hv Ht%map_err_Ok%from_str_to_string Hs Hwf. unfold from_json.
  rewrite (probe_from_str _ _ Ht), Ht.
  assert (lf_lockfile_version (canonicalize l) = BPM_LOCK_VERSION) as -> by done.
  cbn -[validate_v2 validate_package_safety canonicalize]. rewrite Hs.
  by rewrite (validate_v2_complete _ Hwf).
Qed.

(** Writing is canonical and loses nothing: the text of a v2 lockfile that passes
    the gate reads back as its canonical form, whose text is the same again,
    and the order in which packages were inserted never shows: any permutation
    of packages with distinct paths is written identically. *)
Theorem lock_text_roundtrip l t ps :
  lf_lockfile_version l = BPM_LOCK_VERSION → to_json l = Ok t →
  validate_package_safety (canonicalize l) = Ok () → lock_wf (canonicalize l) →
  lf_packages l ≡ₚ ps →
  from_json t = Ok (canonicalize l) ∧ to_json (canonicalize l) = Ok t ∧
  to_json (with_packages l ps) = Ok t.
Proof using L.
  intros Hv Ht Hs Hwf Hps. split; [by apply to_json_reads_back|]. unfold to_json in *. split.
  - by rewrite canonicalize_idem.
  - rewrite <- Ht. do 2 f_equal. unfold canonicalize, sort_packages, with_packages. simpl.
    do 2 f_equal. symmetry. apply sort_packages_unique; [done|].
    assert (NoDup (pe_path <$> lf_packages (canonicalize l))) as Hnd.
    { by apply str_lt_NoDup, (wf_sorted _ Hwf). }
    unfold canonicalize in Hnd. simpl in Hnd. by rewrite sort_by_perm in Hnd.
Qed.
End text_properties.

(** ** Witnesses *)

Module PlainLock.
(** A codec whose text is the record itself. *)
#[export] Instance codec : LockCodec := {
  lock_text := Lockfile;
  to_string_pretty l := Ok l;
  probe_version l := Ok (lf_lockfile_version l);
  from_str l := Ok l;
}.
#[export] Instance laws : LockCodecLaws codec.
Proof. split; [by intros l t [= ->]|by intros t l [= ->]]. Qed.

Definition entry (path name : string) : PackageEntry :=
  mk_PackageEntry path name "1.0.0" "https://r/p.tgz" None (Some "sha512-x") false false false
    [] [] ∅ ∅.

Definition registry_meta (deps : gmap string LockDependency) : PackageResolution :=
  mk_PackageResolution (LSRegistry "https://r") false false ["musl"; "glibc"; "musl"] deps ∅ ∅ ∅ ∅
    None false.

Definition sample : Lockfile :=
  mk_Lockfile BPM_LOCK_VERSION "bpm" RootEntry_default
    [entry "node_modules/zoo" "zoo"; entry "node_modules/foo" "foo"]
    (mk_ResolutionMetadata RootResolution_default
       {[ "node_modules/foo" :=
            registry_meta {[ "zoo" := mk_LockDependency "^1.0.0" "node_modules/zoo" ]} ]}
       {[ "node_modules/zoo" := "zoology" ]}).

(** A patched Git dependency without the pinned commit. *)
Definition floating : Lockfile :=
  mk_Lockfile BPM_LOCK_VERSION "bpm" RootEntry_default [entry "node_modules/zoo" "zoo"]
    (mk_ResolutionMetadata RootResolution_default
       {[ "node_modules/zoo" :=
            mk_PackageResolution
              (LSPatch (LSGit "https://git/zoo" (Some "main") "") "zoo.patch")
              false false [] ∅ ∅ ∅ ∅ ∅ None false ]} ∅).
End PlainLock.

Section witnesses.
Import PlainLock.

Lemma from_json_safe_witness :
  from_json (canonicalize PlainLock.sample : lock_text) = Ok (canonicalize PlainLock.sample) ∧
  lf_lockfile_version (canonicalize PlainLock.sample) = BPM_LOCK_VERSION.
Proof.
  assert (from_json (canonicalize PlainLock.sample : lock_text)
          = Ok (canonicalize PlainLock.sample)) as H by (vm_compute; reflexivity).
  split; [exact H|]. exact (proj1 (from_json_safe _ _ H)).
Defined.

Lemma lock_text_roundtrip_witness :
  to_json PlainLock.sample =
    to_json (with_packages PlainLock.sample (reverse (lf_packages PlainLock.sample))).
Proof.
  assert (to_json PlainLock.sample = Ok (canonicalize PlainLock.sample)) as Ht by reflexivity.
  transitivity (Ok (canonicalize PlainLock.sample) : result LockfileError lock_text); [exact Ht|].
  symmetry.
  refine (proj2 (proj2 (lock_text_roundtrip (L := PlainLock.laws) PlainLock.sample _ _ eq_refl Ht _ _ _))).
  - vm_compute. reflexivity.
  - apply validate_v2_sound. vm_compute. reflexivity.
  - symmetry. apply reverse_Permutation.
Defined.

End witnesses.

(** The v2 gate looks only at the outer source, so a patch over a Git source
    passes with an empty commit. *)
Lemma patched_git_commit_unchecked :
  validate_v2 PlainLock.floating = Ok () ∧
  (∃ m, rm_packages (lf_resolution PlainLock.floating) !! "node_modules/zoo" = Some m ∧
     ∃ url r patch, pres_source m = LSPatch (LSGit url r "") patch).
Proof. split; [vm_compute; reflexivity|]. eexists. split; [reflexivity|]. by eexists _, _, _. Qed.
