(* ===== verification/Manifest.v ===== *)
(** * [src/manifest.rs]: the parsed [package.json]

    Also the two functions of [src/resolver/mod.rs] that read a manifest as
    registry metadata.  Reading JSON is serde's derived code and is not modelled. *)

From S2P Require Export Registry Json.
From Stdlib Require Import Ascii.

Inductive BinField :=
  | BFMap (entries : gmap string string)
  | BFOne (path : string).

Inductive Workspaces :=
  | WPatterns (patterns : list string)
  | WConfig (packages : list string) (nohoist : option (list string)).

Definition Workspaces_patterns (w : Workspaces) : list string :=
  match w with WPatterns p => p | WConfig packages _ => packages end.

Inductive WorkspaceSpec :=
  | WSAny
  | WSCaret
  | WSTilde
  | WSRange (range : string).

Definition WorkspaceSpec_parse (spec : string) : option WorkspaceSpec :=
  payload ← strip_prefix "workspace:" spec;
  Some (match payload with
        | "*" => WSAny
        | "^" => WSCaret
        | "~" => WSTilde
        | range => WSRange range
        end).

Record PackageManifest := mk_PackageManifest {
  mf_source_dir : option string; mf_name : option string; mf_version : option string;
  mf_private : option bool; mf_module_type : option string; mf_bin : option BinField;
  mf_scripts : gmap string string;
  mf_dependencies : gmap string string; mf_dev_dependencies : gmap string string;
  mf_peer_dependencies : gmap string string; mf_optional_dependencies : gmap string string;
  mf_peer_dependencies_meta : gmap string PeerMeta;
  mf_workspaces : option Workspaces; mf_engines : gmap string string;
  mf_overrides : gmap string Value;
  mf_os : list string; mf_cpu : list string; mf_libc : list string }.

(** ** Package names accepted in manifests *)

Definition manifest_segment_ok (seg : string) : bool :=
  negb (is_empty seg) &&
  all_chars (λ c, is_ascii_lowercase c || is_ascii_digit c ||
                  existsb (ceqb c) ["."; "-"; "_"]%char) seg.

Definition is_valid_package_name (name : string) : bool :=
  if is_empty name || starts_with_char "." name || starts_with_char "_" name then false
  else match split_once "@" name with
       | None => manifest_segment_ok name
       | Some ("", rest) =>
           match split_once "/" rest with
           | None => false
           | Some (scope_name, package_name) =>
               manifest_segment_ok scope_name && manifest_segment_ok package_name
           end
       | Some _ => false
       end.

(** ** Root declarations *)

(** [entry(name).or_insert_with(..)] over a whole group. *)
Definition fill_missing (declarations group : gmap string string) : gmap string string :=
  declarations ∪ group.
(** [insert] over a whole group. *)
Definition replace_all (declarations group : gmap string string) : gmap string string :=
  group ∪ declarations.

Definition root_dependency_declarations (m : PackageManifest) : gmap string string :=
  fill_missing
    (fill_missing (replace_all (mf_dependencies m) (mf_optional_dependencies m))
       (mf_peer_dependencies m))
    (mf_dev_dependencies m).

Definition dependency_count (m : PackageManifest) : nat :=
  size (mf_dependencies m) + size (mf_dev_dependencies m) + size (mf_peer_dependencies m) +
  size (mf_optional_dependencies m).

Definition bin_count (m : PackageManifest) : nat :=
  match mf_bin m with
  | None => 0
  | Some (BFOne _) => 1
  | Some (BFMap map) => size map
  end.

(** ** Manifests as metadata *)

Definition manifest_bin (m : PackageManifest) (fallback_name : string) : gmap string string :=
  match mf_bin m with
  | Some (BFMap entries) => entries
  | Some (BFOne path) => {[ default fallback_name (mf_name m) := path ]}
  | None => ∅
  end.

Section metadata.
Context `{Sv : Semver}.

(** [None] is the panic of [expect] on a version the index did not validate. *)
Definition workspace_metadata (name version_text : string)
    (manifest : option PackageManifest) : option VersionMetadata :=
  version ← version_of version_text;
  Some
    match manifest with
    | None => mk_VersionMetadata name version None ∅ ∅ ∅ ∅ ∅ Dist_default ∅ [] [] [] false false
    | Some m =>
        mk_VersionMetadata (default name (mf_name m)) version None
          (mf_dependencies m) (mf_optional_dependencies m) (mf_peer_dependencies m)
          (mf_peer_dependencies_meta m) (manifest_bin m name) Dist_default (mf_engines m)
          (mf_os m) (mf_cpu m) (mf_libc m)
          (existsb (λ script,
             bool_decide (script ∈ ["preinstall"; "install"; "postinstall"; "prepare"]))
             (bt_keys (mf_scripts m)))
          false
    end.
End metadata.
