(* ===== verification/Workspaces.v ===== *)
(** * [src/resolver/workspaces.rs]: the workspace index

    Discovery and manifest loading are the [load_manifest] argument. *)

From S2P Require Export Manifest ResolverModel.
From Stdlib Require Import Ascii.

(** [workspace::WorkspacePackage]: a discovered member. *)
Record WorkspacePackage := mk_WorkspacePackage {
  wp_dir : string; wp_name : option string; wp_version : option string }.

Inductive WorkspaceError :=
  | InvalidPath (path : string)
  | DuplicatePath (path : string)
  | MissingName (path : string)
  | MissingVersion (name path : string)
  | InvalidVersion (name path version reason : string)
  | DuplicateName (name first_path second_path : string)
  | MissingWorkspace (name : string)
  | InvalidWorkspaceSpec (name spec reason : string)
  | VersionMismatch (name spec version : string).

Definition normalize_relative_path (path : string) : result WorkspaceError string :=
  let normalized := replace_char backslash slash path in
  let invalid :=
    is_empty normalized || starts_with_char slash normalized ||
    ends_with "/" normalized ||
    existsb (λ c, is_empty c || bool_decide (c = ".") || bool_decide (c = ".."))
      (split_char slash normalized) ||
    match split_char slash normalized with
    | component :: _ => ends_with ":" component
    | [] => false
    end in
  fail_if invalid with_err (InvalidPath path);
  Ok normalized.

Section workspaces.
Context `{Sv : Semver}.

Record IndexedWorkspace := mk_IndexedWorkspace {
  iw_name : string; iw_version : Version; iw_relative_path : string;
  iw_manifest : option PackageManifest }.

Record WorkspaceIndex := mk_WorkspaceIndex {
  by_name : gmap string IndexedWorkspace; by_path : gmap string string }.
Definition WorkspaceIndex_default : WorkspaceIndex := mk_WorkspaceIndex ∅ ∅.

Inductive WorkspaceResolution :=
  | WLink (edge : DependencyEdge)
  | WRegistry (spec : string).

(** One iteration of the indexing loop. *)
Definition index_package (load_manifest : string → option PackageManifest)
    (index : WorkspaceIndex) (entry : string * WorkspacePackage)
    : result WorkspaceError WorkspaceIndex :=
  let '(relative_path, package) := entry in
  fail_if (contains_key relative_path (by_path index)) with_err (DuplicatePath relative_path);
  let manifest := load_manifest relative_path in
  name ← ok_or (MissingName relative_path)
           (name ← match manifest ≫= mf_name with
                   | Some name => Some name
                   | None => wp_name package
                   end;
            if is_empty name then None else Some name);
  version_text ← ok_or (MissingVersion name relative_path)
                   (match manifest ≫= mf_version with
                    | Some version => Some version
                    | None => wp_version package
                    end);
  version ← map_err (InvalidVersion name relative_path version_text) (version_parse version_text);
  match by_name index !! (name : string) with
  | Some existing => Err (DuplicateName name (iw_relative_path existing) relative_path)
  | None =>
      Ok (mk_WorkspaceIndex
            (<[name := mk_IndexedWorkspace name version relative_path manifest]> (by_name index))
            (<[relative_path := name]> (by_path index)))
  end.

Definition from_layout_with_manifest_loader (packages : list WorkspacePackage)
    (load_manifest : string → option PackageManifest) : result WorkspaceError WorkspaceIndex :=
  pairs ← traverse_res (λ package,
            path ← normalize_relative_path (wp_dir package); Ok (path, package)) packages;
  fold_res (index_package load_manifest) WorkspaceIndex_default
    (sort_by (λ a b, String.leb a.1 b.1) pairs).

Definition link_edge (workspace : IndexedWorkspace) (effective_spec : string) : DependencyEdge :=
  mk_DependencyEdge WorkspaceKind (iw_name workspace) effective_spec
    (mk_PackageIdentity (iw_name workspace) (version_to_string (iw_version workspace))
       (PSWorkspace (iw_relative_path workspace)) ∅).

Definition resolve_explicit (index : WorkspaceIndex) (name original_spec : string)
    (spec : WorkspaceSpec) : result WorkspaceError WorkspaceResolution :=
  workspace ← ok_or (MissingWorkspace name) (by_name index !! name);
  effective_spec ←
    match spec with
    | WSAny => Ok "*"
    | WSCaret => Ok ("^" +:+ version_to_string (iw_version workspace))
    | WSTilde => Ok ("~" +:+ version_to_string (iw_version workspace))
    | WSRange range =>
        fail_if (is_empty range) with_err
          (InvalidWorkspaceSpec name original_spec "expected `*`, `^`, `~`, or a semver range");
        requirement ← map_err (InvalidWorkspaceSpec name original_spec) (VersionRange_parse range);
        fail_if (negb (range_matches requirement (iw_version workspace))) with_err
          (VersionMismatch name original_spec (version_to_string (iw_version workspace)));
        Ok range
    end;
  Ok (WLink (link_edge workspace effective_spec)).

Definition WorkspaceIndex_resolve (index : WorkspaceIndex) (name spec : string)
    : result WorkspaceError WorkspaceResolution :=
  match WorkspaceSpec_parse spec with
  | Some workspace_spec => resolve_explicit index name spec workspace_spec
  | None =>
      match by_name index !! name with
      | None => Ok (WRegistry spec)
      | Some workspace =>
          match VersionRange_parse spec with
          | Err _ => Ok (WRegistry spec)
          | Ok requirement =>
              if range_matches requirement (iw_version workspace)
              then Ok (WLink (link_edge workspace spec))
              else Ok (WRegistry spec)
          end
      end
  end.

(** [BTreeSet<DependencyEdge>]: one edge per workspace, ordered by name. *)
Definition top_level_links (index : WorkspaceIndex) : list DependencyEdge :=
  (λ w, link_edge w (version_to_string (iw_version w))) <$> bt_values (by_name index).

(** ** Specification *)

(** The index is a one-to-one table of members and directories. *)
Record index_ok (index : WorkspaceIndex) : Prop := mk_index_ok {
  ix_name : ∀ name w, by_name index !! name = Some w →
    iw_name w = name ∧ name ≠ "" ∧ by_path index !! iw_relative_path w = Some name;
  ix_path : ∀ path name, by_path index !! path = Some name →
    ∃ w, by_name index !! name = Some w ∧ iw_relative_path w = path }.

Lemma index_ok_default : index_ok WorkspaceIndex_default.
Proof.
  split; simpl.
  - intros name w H. by rewrite lookup_empty in H.
  - intros path name H. by rewrite lookup_empty in H.
Qed.

Lemma index_package_inv load index path package index' :
  index_package load index (path, package) = Ok index' →
  by_path index !! path = None ∧
  ∃ name w, name ≠ "" ∧ iw_name w = name ∧ iw_relative_path w = path ∧
    by_name index !! name = None ∧
    index' = mk_WorkspaceIndex (<[name := w]> (by_name index)) (<[path := name]> (by_path index)).
Proof.
  unfold index_package. destruct (contains_key path (by_path index)) eqn:Hk; [done|].
  unfold contains_key in Hk. rewrite bool_decide_eq_false, <- eq_None_not_Some in Hk.
  cbv zeta. intros (name & Hname & H)%bind_Ok. apply ok_or_Ok in Hname.
  apply bind_Some in Hname as (name0 & _ & Hname). destruct (is_empty name0) eqn:He; [done|].
  injection Hname as <-. apply is_empty_false in He.
  apply bind_Ok in H as (text & _ & H). apply bind_Ok in H as (version & _ & H).
  destruct (by_name index !! name0) eqn:Hn; [done|]. injection H as <-. split; [done|].
  by exists name0, (mk_IndexedWorkspace name0 version path (load path)).
Qed.

Lemma index_package_ok load index entry index' :
  index_ok index → index_package load index entry = Ok index' → index_ok index'.
Proof.
  intros [Hn Hp]. destruct entry as [path package].
  intros (Hpath & name & w & Hne & Hwn & Hwp & Hfree & ->)%index_package_inv.
  assert (∀ q n, by_path index !! q = Some n → n ≠ name) as Hfresh.
  { intros q n Hq ->. destruct (Hp q name Hq) as (w' & Hw' & _). congruence. }
  split; simpl.
  - intros n v. destruct (decide (n = name)) as [->|Hnn].
    + rewrite lookup_insert_eq. intros [= Hv]. rewrite <- Hv, Hwp, lookup_insert_eq. done.
    + rewrite lookup_insert_ne by done. intros Hv. destruct (Hn n v Hv) as (? & ? & Hvp).
      split_and!; try done. rewrite lookup_insert_ne; [done|]. intros Heq.
      rewrite <- Heq in Hvp. congruence.
  - intros q n. destruct (decide (q = path)) as [->|Hqp].
    + rewrite lookup_insert_eq. intros [= Hv]. exists w. by rewrite <- Hv, lookup_insert_eq.
    + rewrite lookup_insert_ne by done. intros Hq. destruct (Hp q n Hq) as (v & Hv & ?).
      exists v. rewrite lookup_insert_ne; [done|]. intros Heq. by apply (Hfresh q n).
Qed.

(** The loop refuses a directory that is listed twice. *)
Lemma index_fold_NoDup load l index index' :
  fold_res (index_package load) index l = Ok index' →
  NoDup l.*1 ∧ ∀ p, p ∈ l.*1 → by_path index !! p = None.
Proof.
  revert index. induction l as [|[path package] l IH]; intros index; simpl.
  { intros _. split; [constructor|]. by intros p ?%elem_of_nil. }
  intros (i1 & H1 & H)%bind_Ok. apply index_package_inv in H1 as (Hpath & name & w & _ & _ & _ & _ & ->).
  destruct (IH _ H) as [Hnd Hnone]. split.
  - constructor; [|done]. intros Hin. specialize (Hnone _ Hin). simpl in Hnone.
    by rewrite lookup_insert_eq in Hnone.
  - intros p [->|Hin]%elem_of_cons; [done|]. specialize (Hnone p Hin). simpl in Hnone.
    apply lookup_insert_None in Hnone. tauto.
Qed.

Lemma traverse_res_perm {E A B} (f : A → result E B) l1 l2 bs1 :
  l1 ≡ₚ l2 → traverse_res f l1 = Ok bs1 → ∃ bs2, traverse_res f l2 = Ok bs2 ∧ bs1 ≡ₚ bs2.
Proof.
  intros Hp. revert bs1. induction Hp as [|x l1 l2 Hp IH|x y l|l1 l2 l3 Hp1 IH1 Hp2 IH2]; intros bs1.
  - intros [= <-]. by exists [].
  - simpl. intros (b & Hb & (bs & Hbs & [= <-])%bind_Ok)%bind_Ok.
    destruct (IH bs Hbs) as (bs2 & Hbs2 & Hperm). exists (b :: bs2). rewrite Hb. simpl.
    rewrite Hbs2. split; [done|]. by constructor.
  - simpl. intros (by' & Hy & (bs & Hbs & [= <-])%bind_Ok)%bind_Ok.
    apply bind_Ok in Hbs as (bx & Hx & (bs' & Hbs' & [= <-])%bind_Ok).
    exists (bx :: by' :: bs'). rewrite Hx. simpl. rewrite Hy. simpl. rewrite Hbs'. split; [done|].
    constructor.
  - intros H. destruct (IH1 bs1 H) as (bs2 & H2 & Hp12). destruct (IH2 bs2 H2) as (bs3 & H3 & Hp23).
    exists bs3. split; [done|]. by etrans.
Qed.

(** The workspace index is well formed and deterministic: each member has a
    non-empty name and its own directory, and the order in which members were
    discovered never matters. *)
Theorem workspace_index_deterministic packages packages' load index :
  packages ≡ₚ packages' →
  from_layout_with_manifest_loader packages load = Ok index →
  index_ok index ∧ from_layout_with_manifest_loader packages' load = Ok index.
Proof.
  intros Hp H. unfold from_layout_with_manifest_loader in *.
  apply bind_Ok in H as (pairs & Hpairs & H).
  destruct (traverse_res_perm _ _ _ _ Hp Hpairs) as (pairs' & -> & Hperm). simpl. split.
  - eapply (fold_res_inv index_ok); [apply index_ok_default| |done].
    intros. by eapply index_package_ok.
  - pose proof (index_fold_NoDup _ _ _ _ H) as [Hnd _].
    rewrite (sort_by_unique (λ a b : string * WorkspacePackage, String.leb a.1 b.1)
               ltac:(intros; apply leb_total_s) ltac:(intros ? ? ?; apply leb_trans_s)
               fst pairs pairs') in H; try done.
    + intros x y. apply leb_antisym_s.
    + by rewrite sort_by_perm in Hnd.
Qed.

(** Workspace requests on every branch.  An explicit [workspace:] request never
    falls back to the registry: it links the named member, in a range form only
    when the member's version lies in the range, or fails.  Any other request
    links exactly when a member of that name exists and the spec is a semver
    range containing its version, and is otherwise passed on unchanged. *)
Theorem workspace_resolve_spec index name spec :
  match WorkspaceSpec_parse spec, WorkspaceIndex_resolve index name spec with
  | Some ws, Ok r => ∃ w effective, by_name index !! name = Some w ∧
      r = WLink (link_edge w effective) ∧
      (∀ range, ws = WSRange range → effective = range ∧
         ∃ req, VersionRange_parse range = Ok req ∧ range_matches req (iw_version w) = true)
  | Some ws, Err e => by_name index !! name = None ∧ e = MissingWorkspace name ∨
      ∃ w range, by_name index !! name = Some w ∧ ws = WSRange range ∧
        ∀ req, VersionRange_parse range = Ok req →
          range = "" ∨ range_matches req (iw_version w) = false
  | None, Ok (WLink edge) => ∃ w req, by_name index !! name = Some w ∧ edge = link_edge w spec ∧
      VersionRange_parse spec = Ok req ∧ range_matches req (iw_version w) = true
  | None, Ok (WRegistry s) => s = spec ∧
      ∀ w req, by_name index !! name = Some w → VersionRange_parse spec = Ok req →
        range_matches req (iw_version w) = false
  | None, Err _ => False
  end.
Proof.
  unfold WorkspaceIndex_resolve. destruct (WorkspaceSpec_parse spec) as [ws|].
  - unfold resolve_explicit. destruct (by_name index !! name) as [w|]; simpl; [|by left].
    destruct ws as [| | |range]; simpl; [by eexists _, _..|].
    destruct (is_empty range) eqn:He; simpl.
    { right. exists w, range. apply is_empty_true in He. split_and!; auto. }
    destruct (VersionRange_parse range) as [req|] eqn:Hr; simpl.
    2:{ right. exists w, range. by rewrite Hr. }
    destruct (range_matches req (iw_version w)) eqn:Hm; simpl.
    + exists w, range. split_and!; try done. intros r [= <-]. split; [done|]. by exists req.
    + right. exists w, range. split_and!; try done. intros req' Hreq.
      rewrite Hr in Hreq. injection Hreq as <-. by right.
  - destruct (by_name index !! name) as [w|]; [|by split; [|intros ? ? ?]].
    destruct (VersionRange_parse spec) as [req|]; [|by split; [|intros ? ? _ ?]].
    destruct (range_matches req (iw_version w)) eqn:Hm; [by exists w, req|].
    split; [done|]. intros w' req' [= Hw] [= Hreq]. by rewrite <- Hw, <- Hreq.
Qed.
End workspaces.

(** ** Witnesses *)

Section witnesses.
Import Sample.

Definition members : list WorkspacePackage :=
  [mk_WorkspacePackage "packages/ui" (Some "@app/ui") (Some "1.2.3");
   mk_WorkspacePackage "packages/core" (Some "@app/core") (Some "2.0.0")].

Lemma workspace_index_deterministic_witness :
  is_ok (from_layout_with_manifest_loader (reverse members) (λ _, None)) = true.
Proof.
  assert (is_ok (from_layout_with_manifest_loader members (λ _, None)) = true) as Hok
    by (vm_compute; reflexivity).
  destruct (from_layout_with_manifest_loader members (λ _, None)) as [index|] eqn:Hi;
    [|discriminate Hok].
  rewrite (proj2 (workspace_index_deterministic members (reverse members) (λ _, None) index
                    (symmetry (reverse_Permutation members)) Hi)).
  reflexivity.
Defined.

(** A drive-relative directory is accepted by the index although the lockfile gate
    refuses it. *)
Lemma workspace_path_accepts_drive :
  normalize_relative_path "c:x/pkg" = Ok "c:x/pkg" ∧ is_normalized_relative "c:x/pkg" = false.
Proof. vm_compute. done. Qed.
End witnesses.
