(* ===== verification/Diagnostic.v ===== *)
(** * [src/diagnostic.rs]: structured diagnostics with a fixed order *)

From S2P Require Export Str.

Inductive Severity := Info | Warning | Error.
#[global] Instance Severity_eq_dec : EqDecision Severity.
Proof. solve_decision. Defined.

Definition Severity_as_str (s : Severity) : string :=
  match s with Info => "info" | Warning => "warning" | Error => "error" end.

(** The derived [Ord]: [Info < Warning < Error]. *)
Definition severity_rank (s : Severity) : nat :=
  match s with Info => 0 | Warning => 1 | Error => 2 end.

Record Diagnostic := mk_Diagnostic {
  dg_severity : Severity; dg_code : string; dg_message : string;
  dg_field : option string; dg_package : option string }.
#[global] Instance Diagnostic_eq_dec : EqDecision Diagnostic.
Proof. solve_decision. Defined.

Definition Diagnostic_new (severity : Severity) (code message : string) : Diagnostic :=
  mk_Diagnostic severity code message None None.

(** Not after: by code, then the more severe first, then by message. *)
Definition diagnostic_leb (a b : Diagnostic) : bool :=
  match String.compare (dg_code a) (dg_code b) with
  | Lt => true
  | Gt => false
  | Eq => match Nat.compare (severity_rank (dg_severity b)) (severity_rank (dg_severity a)) with
          | Lt => true
          | Gt => false
          | Eq => String.leb (dg_message a) (dg_message b)
          end
  end.

Definition sort_diagnostics (diags : list Diagnostic) : list Diagnostic := sort_by diagnostic_leb diags.

Lemma elem_of_sort_diagnostics d l : d ∈ sort_diagnostics l ↔ d ∈ l.
Proof. apply elem_of_sort_by. Qed.
