(* ===== verification/Config.v ===== *)
(** * [src/config.rs]: npmrc parsing, registries and credential scopes

    [url::Url] is the class [UrlLib]; reading files and the environment are
    arguments. *)

From S2P Require Export Machine Registry.
From Stdlib Require Import Ascii.

(** The parts of a parsed URL the program reads. *)
Class UrlLib := {
  Url : Type;
  url_parse : string → option Url;
  url_as_str : Url → string;
  url_protocol : Url → string;
  url_has_host : Url → bool;
  url_username : Url → string;
  url_password : Url → option string;
  (** [BeforeUsername..BeforeHost]: the userinfo text with its [@]. *)
  url_userinfo : Url → string;
  (** [BeforeHost..AfterPort]. *)
  url_authority : Url → string;
  url_path : Url → string;
  url_query : Url → option string;
  url_fragment : Url → option string;
  url_origin : Url → string;
  url_join : Url → string → option Url;
}.

Definition DEFAULT_REGISTRY : string := "https://registry.npmjs.org".
Definition DEFAULT_FETCH_RETRIES : N := 2.
Definition DEFAULT_FETCH_RETRY_FACTOR : N := 10.
Definition DEFAULT_FETCH_RETRY_MIN_TIMEOUT_MS : N := 10000.
Definition DEFAULT_FETCH_RETRY_MAX_TIMEOUT_MS : N := 60000.
Definition DEFAULT_FETCH_TIMEOUT_MS : N := 300000.

Record NetworkConfig := mk_NetworkConfig {
  retries : N; retry_factor : N; retry_min_timeout : Duration;
  retry_max_timeout : Duration; fetch_timeout : Duration }.

Definition NetworkConfig_default : NetworkConfig :=
  mk_NetworkConfig DEFAULT_FETCH_RETRIES DEFAULT_FETCH_RETRY_FACTOR
    (from_millis DEFAULT_FETCH_RETRY_MIN_TIMEOUT_MS)
    (from_millis DEFAULT_FETCH_RETRY_MAX_TIMEOUT_MS) (from_millis DEFAULT_FETCH_TIMEOUT_MS).

(** [AuthScope { authority, path_prefix }], a map key. *)
Abbreviation AuthScope := (string * string)%type.

Record NpmConfig := mk_NpmConfig {
  nc_registry : string; nc_scoped_registries : gmap string string;
  nc_auth_tokens : gmap AuthScope string; nc_network : NetworkConfig }.

Definition NpmConfig_default : NpmConfig :=
  mk_NpmConfig DEFAULT_REGISTRY ∅ ∅ NetworkConfig_default.

Definition set_registry (c : NpmConfig) (r : string) : NpmConfig :=
  mk_NpmConfig r (nc_scoped_registries c) (nc_auth_tokens c) (nc_network c).
Definition set_scoped (c : NpmConfig) (scope r : string) : NpmConfig :=
  mk_NpmConfig (nc_registry c) (<[scope := r]> (nc_scoped_registries c)) (nc_auth_tokens c)
    (nc_network c).
Definition set_token (c : NpmConfig) (scope : AuthScope) (token : string) : NpmConfig :=
  mk_NpmConfig (nc_registry c) (nc_scoped_registries c) (<[scope := token]> (nc_auth_tokens c))
    (nc_network c).
Definition set_network (c : NpmConfig) (n : NetworkConfig) : NpmConfig :=
  mk_NpmConfig (nc_registry c) (nc_scoped_registries c) (nc_auth_tokens c) n.

Inductive ConfigError :=
  | CfgRead (path source : string)
  | CfgSyntax (path : string) (line : nat) (message : string)
  | CfgInvalid (message : string).

(** ** Text helpers *)

Definition eq_ignore_ascii_case (a b : string) : bool :=
  bool_decide (to_ascii_lowercase a = to_ascii_lowercase b).

Definition is_env_char (c : ascii) : bool :=
  is_ascii_alphabetic c || is_ascii_digit c || ceqb c "_".

(** Each substitution consumes at least the three bytes of [${}], so the length of
    the value bounds the iterations. *)
Fixpoint expand_loop (fuel : nat) (environment : string → option string)
    (expanded rest : string) : result string string :=
  match fuel with
  | 0 => Ok (expanded +:+ rest)
  | S fuel =>
      match split_once "${" rest with
      | None => Ok (expanded +:+ rest)
      | Some (before, variable) =>
          match split_once "}" variable with
          | None => Err "unterminated environment variable reference"
          | Some (name, rest) =>
              fail_if (is_empty name || negb (all_chars is_env_char name))
                with_err "invalid environment variable reference";
              replacement ← ok_or ("environment variable `" +:+ name +:+ "` is not set")
                              (environment name);
              expand_loop fuel environment (expanded +:+ before +:+ replacement) rest
          end
      end
  end.

Definition expand_environment (environment : string → option string) (value : string)
    : result string string :=
  expand_loop (S (strlen value)) environment "" value.

Definition valid_scope (scope : string) : bool :=
  match scope with
  | "" => false
  | String c _ =>
      is_ascii scope && is_ascii_lowercase c &&
      all_chars (λ c, is_ascii_lowercase c || is_ascii_digit c ||
                      existsb (ceqb c) ["."; "-"; "_"]%char) scope
  end.

Definition parse_number (bits : N) (value key : string) (allow_zero : bool) : result string N :=
  parsed ← ok_or (key +:+ " must be a non-negative integer") (parse_uint bits value);
  fail_if (negb allow_zero && (parsed =? 0)%N) with_err (key +:+ " must be greater than zero");
  Ok parsed.

Definition parse_millis (value key : string) : result string Duration :=
  milliseconds ← parse_number 64 value key false;
  Ok (from_millis milliseconds).

Definition path_is_within_auth_scope (target_path scope_prefix : string) : bool :=
  starts_with scope_prefix target_path ||
  (bool_decide (scope_prefix ≠ "/") &&
   bool_decide (target_path = trim_end_matches is_slash scope_prefix)).

Record RequestTarget := mk_RequestTarget {
  rt_scheme : string; rt_authority : string; rt_path : string;
  rt_has_query : bool; rt_has_fragment : bool }.

Definition validate_config (c : NpmConfig) : result ConfigError () :=
  fail_if (retry_max_timeout (nc_network c) <? retry_min_timeout (nc_network c))%N
    with_err (CfgInvalid "fetch-retry-mintimeout must not exceed fetch-retry-maxtimeout");
  Ok ().

Definition registry_for_package (c : NpmConfig) (package : string) : string :=
  default (nc_registry c)
    (rest ← strip_prefix "@" package;
     p ← split_once "/" rest;
     nc_scoped_registries c !! (p.1 : string)).

(** [BTreeMap<AuthScope, _>::iter]: by authority, then by path prefix. *)
Definition scope_leb (a b : AuthScope * string) : bool :=
  if bool_decide (a.1.1 = b.1.1) then String.leb a.1.2 b.1.2 else String.leb a.1.1 b.1.1.

(** [Iterator::max_by_key] keeps the last of several maxima. *)
Definition longer (best : option (AuthScope * string)) (x : AuthScope * string)
    : option (AuthScope * string) :=
  match best with
  | None => Some x
  | Some b => if (strlen b.1.2 <=? strlen x.1.2)%nat then Some x else Some b
  end.
Definition longest_prefix (l : list (AuthScope * string)) : option (AuthScope * string) :=
  foldl longer None l.

Section config.
Context `{Ul : UrlLib}.

Definition parse_http_target (value : string) : option RequestTarget :=
  if bool_decide (trim value ≠ value) then None
  else
    parsed ← url_parse value;
    if negb (bool_decide (url_protocol parsed = "http" ∨ url_protocol parsed = "https")) ||
       negb (url_has_host parsed) || negb (is_empty (url_username parsed)) ||
       bool_decide (is_Some (url_password parsed)) || negb (is_empty (url_userinfo parsed))
    then None
    else Some (mk_RequestTarget (url_protocol parsed) (to_ascii_lowercase (url_authority parsed))
                 (url_path parsed) (bool_decide (is_Some (url_query parsed)))
                 (bool_decide (is_Some (url_fragment parsed)))).

Definition normalize_registry (value : string) : result string string :=
  target ← ok_or "registry must be an absolute http:// or https:// URL without credentials"
             (parse_http_target value);
  fail_if (rt_has_query target || rt_has_fragment target)
    with_err "registry URL must not contain a query or fragment";
  Ok (rt_scheme target +:+ "://" +:+ rt_authority target +:+
      trim_end_matches is_slash (rt_path target)).

Definition parse_auth_scope (key : string) : result string AuthScope :=
  raw ← ok_or "invalid auth token key" (strip_prefix "//" key ≫= strip_suffix ":_authToken");
  fail_if (negb (contains_char "/" raw))
    with_err "auth token key must include a host and `/` path";
  target ← ok_or "invalid host-scoped auth token key" (parse_http_target ("https://" +:+ raw));
  fail_if (rt_has_query target || rt_has_fragment target)
    with_err "invalid host-scoped auth token key";
  let path := trim_end_matches is_slash (rt_path target) in
  Ok (rt_authority target, if is_empty path then "/" else path +:+ "/").

Definition with_network (n : NetworkConfig) (key : string) (v : N) : NetworkConfig :=
  if bool_decide (key = "fetch-retries") then
    mk_NetworkConfig v (retry_factor n) (retry_min_timeout n) (retry_max_timeout n) (fetch_timeout n)
  else if bool_decide (key = "fetch-retry-factor") then
    mk_NetworkConfig (retries n) v (retry_min_timeout n) (retry_max_timeout n) (fetch_timeout n)
  else if bool_decide (key = "fetch-retry-mintimeout") then
    mk_NetworkConfig (retries n) (retry_factor n) v (retry_max_timeout n) (fetch_timeout n)
  else if bool_decide (key = "fetch-retry-maxtimeout") then
    mk_NetworkConfig (retries n) (retry_factor n) (retry_min_timeout n) v (fetch_timeout n)
  else mk_NetworkConfig (retries n) (retry_factor n) (retry_min_timeout n) (retry_max_timeout n) v.

Definition apply_value (path : string) (line : nat) (c : NpmConfig) (key value : string)
    : result ConfigError NpmConfig :=
  let invalid := CfgSyntax path line in
  let network k v := set_network c (with_network (nc_network c) k v) in
  if eq_ignore_ascii_case key "registry" then
    r ← map_err invalid (normalize_registry value); Ok (set_registry c r)
  else match strip_prefix "@" key ≫= strip_suffix ":registry" with
  | Some scope =>
      fail_if (negb (valid_scope scope)) with_err (invalid "invalid scoped registry key");
      r ← map_err invalid (normalize_registry value); Ok (set_scoped c scope r)
  | None =>
      if starts_with "//" key && ends_with ":_authToken" key then
        fail_if (is_empty value) with_err (invalid "auth token must not be empty");
        scope ← map_err invalid (parse_auth_scope key); Ok (set_token c scope value)
      else if eq_ignore_ascii_case key "fetch-retries" then
        v ← map_err invalid (parse_number 64 value "fetch-retries" true);
        Ok (network "fetch-retries" v)
      else if eq_ignore_ascii_case key "fetch-retry-factor" then
        v ← map_err invalid (parse_number 32 value "fetch-retry-factor" false);
        Ok (network "fetch-retry-factor" v)
      else if eq_ignore_ascii_case key "fetch-retry-mintimeout" then
        v ← map_err invalid (parse_millis value key); Ok (network "fetch-retry-mintimeout" v)
      else if eq_ignore_ascii_case key "fetch-retry-maxtimeout" then
        v ← map_err invalid (parse_millis value key); Ok (network "fetch-retry-maxtimeout" v)
      else if eq_ignore_ascii_case key "fetch-timeout" then
        v ← map_err invalid (parse_millis value key); Ok (network "fetch-timeout" v)
      else Ok c
  end.

(** One line of an npmrc file. *)
Definition apply_line (path : string) (environment : string → option string)
    (c : NpmConfig) (numbered : nat * string) : result ConfigError NpmConfig :=
  let '(index, raw_line) := numbered in
  let line_number := S index in
  let line := trim raw_line in
  if is_empty line || starts_with_char "#" line || starts_with_char ";" line then Ok c
  else
    p ← ok_or (CfgSyntax path line_number "expected `key=value`") (split_once "=" line);
    let key := trim p.1 in
    fail_if (is_empty key) with_err (CfgSyntax path line_number "configuration key is empty");
    value ← map_err (CfgSyntax path line_number) (expand_environment environment (trim p.2));
    apply_value path line_number c key value.

Definition apply_source (path source : string) (environment : string → option string)
    (c : NpmConfig) : result ConfigError NpmConfig :=
  fold_res (apply_line path environment) c (imap pair (lines source)).

(** The outcome of [fs::read_to_string]: absent files are skipped. *)
Inductive file_read := FileText (s : string) | FileNotFound | FileError (e : string).

Definition load_paths (read : string → file_read) (environment : string → option string)
    (user_npmrc project_npmrc : option string) : result ConfigError NpmConfig :=
  config ← fold_res (λ c path,
    match read path with
    | FileText source => apply_source path source environment c
    | FileNotFound => Ok c
    | FileError e => Err (CfgRead path e)
    end) NpmConfig_default (option_list user_npmrc ++ option_list project_npmrc);
  _ ← validate_config config;
  Ok config.

Definition with_registry_override (c : NpmConfig) (registry : string)
    : result ConfigError NpmConfig :=
  r ← map_err (λ m, CfgInvalid ("explicit registry override: " +:+ m))
        (normalize_registry registry);
  Ok (set_registry c r).

Definition auth_token_for_url (c : NpmConfig) (url : string) : option string :=
  target ← parse_http_target url;
  snd <$> longest_prefix
    (filter (λ st : AuthScope * string, st.1.1 = rt_authority target ∧
       path_is_within_auth_scope (rt_path target) st.1.2 = true)
       (sort_by scope_leb (map_to_list (nc_auth_tokens c)))).

(** ** Specification *)

(** What loading establishes. *)
Record config_ok (c : NpmConfig) : Prop := mk_config_ok {
  ok_tokens : ∀ scope token, nc_auth_tokens c !! scope = Some token →
    token ≠ "" ∧ ∃ stem, scope.2 = stem +:+ "/" ∧ trim_end_matches is_slash stem = stem;
  ok_registry : ends_with "/" (nc_registry c) = false;
  ok_scoped : ∀ scope r, nc_scoped_registries c !! scope = Some r → ends_with "/" r = false;
  ok_factor : (0 < retry_factor (nc_network c) <= U32_MAX)%N;
  ok_min : (0 < retry_min_timeout (nc_network c))%N;
  ok_max : (0 < retry_max_timeout (nc_network c))%N;
  ok_timeout : (0 < fetch_timeout (nc_network c))%N }.

(** The scope with prefix [stem/] covers the directory [stem] and what is below it. *)
Definition covers (prefix path : string) : Prop :=
  path +:+ "/" = prefix ∨ ∃ rest, path = prefix +:+ rest.

Class UrlLaws : Prop := {
  (** The authority of a URL with a host is not empty and contains no slash. *)
  url_authority_host u : url_has_host u = true →
    url_authority u ≠ "" ∧ contains_char "/" (url_authority u) = false;
  (** The path of an http(s) URL is absolute. *)
  url_path_absolute u : url_protocol u = "http" ∨ url_protocol u = "https" →
    starts_with_char "/" (url_path u) = true;
}.

(** ** Lemmas *)

Lemma longest_prefix_go best l r :
  foldl longer best l = Some r →
  (best = Some r ∨ r ∈ l) ∧
  (∀ b, best = Some b → strlen b.1.2 ≤ strlen r.1.2) ∧
  ∀ x, x ∈ l → strlen x.1.2 ≤ strlen r.1.2.
Proof.
  revert best. induction l as [|x l IH]; intros best; simpl.
  - intros ->. split_and!; [by left|by intros b [= ->]|by intros y ?%not_elem_of_nil].
  - intros H. destruct (IH _ H) as (Hin & Hbest & Hl). unfold longer in Hin, Hbest.
    assert (strlen x.1.2 ≤ strlen r.1.2 ∧ ∀ b, best = Some b → strlen b.1.2 ≤ strlen r.1.2)
      as [Hx Hb].
    { destruct best as [b|]; [|split; [by apply Hbest|done]].
      destruct (Nat.leb_spec (strlen b.1.2) (strlen x.1.2)).
      - specialize (Hbest x eq_refl). split; [lia|]. intros ? [= <-]. lia.
      - specialize (Hbest b eq_refl). split; [lia|]. by intros ? [= <-]. }
    split_and!; [|done|].
    + destruct Hin as [Hin|Hin]; [|right; by right]. destruct best as [b|].
      * destruct (_ <=? _)%nat; injection Hin as ->; [right; by left|by left].
      * injection Hin as ->. right; by left.
    + intros y [->|Hy]%elem_of_cons; [done|by apply Hl].
Qed.

Lemma longest_prefix_None l : longest_prefix l = None ↔ l = [].
Proof.
  unfold longest_prefix. split; [|by intros ->]. destruct l as [|x l]; [done|]. simpl.
  intros H. exfalso. revert x H. induction l as [|y l IH]; intros z; simpl; [done|].
  destruct (Nat.leb (strlen z.1.2) (strlen y.1.2)); apply IH.
Qed.

Lemma trim_end_matches_slash stem :
  trim_end_matches is_slash stem = stem → trim_end_matches is_slash (stem +:+ "/") = stem.
Proof.
  induction stem as [|c stem IH]; [done|]. rewrite app_cons_s. cbn [trim_end_matches].
  destruct (is_empty (trim_end_matches is_slash stem) && is_slash c) eqn:He; [done|].
  intros [= Hs]. rewrite (IH Hs). rewrite Hs in He. by rewrite He.
Qed.

Lemma covers_iff stem path :
  trim_end_matches is_slash stem = stem → starts_with_char "/" path = true →
  path_is_within_auth_scope path (stem +:+ "/") = true ↔ covers (stem +:+ "/") path.
Proof.
  intros Hs Hp. unfold path_is_within_auth_scope, covers.
  rewrite orb_true_iff, andb_true_iff, !bool_decide_eq_true, starts_with_true.
  rewrite trim_end_matches_slash by done. split.
  - intros [?|[_ ->]]; [by right|by left].
  - intros [Heq|?]; [|by left]. right. split.
    + intros Hr. rewrite Hr in Heq. destruct path as [|c path]; [done|].
      rewrite app_cons_s in Heq. injection Heq as _ Heq. by apply app_eq_nil_s in Heq as [_ ?].
    + revert Heq. clear. revert stem. induction path as [|c path IH]; intros [|d stem]; intros Heq.
      * done.
      * rewrite app_cons_s, app_nil_l_s in Heq. injection Heq as _ Heq.
        symmetry in Heq. by apply app_eq_nil_s in Heq as [_ ?].
      * rewrite app_cons_s, app_nil_l_s in Heq. injection Heq as _ Heq.
        by apply app_eq_nil_s in Heq as [_ ?].
      * rewrite !app_cons_s in Heq. injection Heq as -> Heq. by rewrite (IH _ Heq).
Qed.

Lemma parse_http_target_Some value t :
  parse_http_target value = Some t →
  ∃ u, url_parse value = Some u ∧ (url_protocol u = "http" ∨ url_protocol u = "https") ∧
    url_has_host u = true ∧ url_username u = "" ∧ url_password u = None ∧
    rt_scheme t = url_protocol u ∧ rt_authority t = to_ascii_lowercase (url_authority u) ∧
    rt_path t = url_path u.
Proof.
  unfold parse_http_target. destruct (bool_decide (trim value ≠ value)); [done|].
  intros (u & Hu & H)%bind_Some. exists u. split; [done|].
  destruct (_ || negb (is_empty (url_userinfo u))) eqn:Hg; [done|]. injection H as <-. simpl.
  rewrite !orb_false_iff, !negb_false_iff, bool_decide_eq_true, is_empty_true in Hg.
  destruct Hg as [[[[Hp Hh] Hn] Hpw] _]. apply bool_decide_eq_false in Hpw.
  split_and!; try done. destruct (url_password u); [|done]. by destruct Hpw; eexists.
Qed.

Lemma map_chars_contains p f s :
  (∀ c, p (f c) = p c) → any_char p (map_chars f s) = any_char p s.
Proof.
  intros Hf. induction s as [|c s IH]; [done|]. simpl. by rewrite Hf, IH.
Qed.

Lemma ends_with_slash_app a b :
  b ≠ "" → ends_with "/" (a +:+ b) = ends_with "/" b.
Proof.
  intros Hb. apply eq_true_iff_eq. rewrite !ends_with_true. split.
  - intros [r Hr]. revert r Hr. induction a as [|c a IH]; intros r Hr; [by exists r|].
    rewrite app_cons_s in Hr. destruct r as [|d r].
    + rewrite app_nil_l_s in Hr. injection Hr as _ Hr. by apply app_eq_nil_s in Hr as [_ ?].
    + rewrite app_cons_s in Hr. injection Hr as _ Hr. by eapply IH.
  - intros [r ->]. exists (a +:+ r). by rewrite app_assoc_s.
Qed.

Lemma ends_with_slash_trimmed s : ends_with "/" (trim_end_matches is_slash s) = false.
Proof.
  apply not_true_is_false. intros [r Hr]%ends_with_true.
  by pose proof (trim_end_matches_last is_slash s r "/" Hr).
Qed.

Lemma ends_with_slash_contains s : contains_char "/" s = false → ends_with "/" s = false.
Proof.
  intros Hs. apply not_true_is_false. intros [r ->]%ends_with_true.
  rewrite contains_char_app in Hs. by apply orb_false_iff in Hs as [_ ?].
Qed.

Context {Ulaws : UrlLaws}.

Lemma slash_lower c : ceqb "/" (ascii_lower c) = ceqb "/" c.
Proof using Type. by destruct c as [[] [] [] [] [] [] [] []]. Qed.

Lemma normalize_registry_ok v r : normalize_registry v = Ok r → ends_with "/" r = false.
Proof using Ulaws.
  unfold normalize_registry.
  intros (t & (u & _ & _ & Hh & _ & _ & _ & Ha & _)%ok_or_Ok%parse_http_target_Some & H)%bind_Ok.
  destruct (_ || _); [done|]. injection H as <-.
  destruct (url_authority_host u Hh) as [Hne Hns].
  assert (rt_authority t ≠ "" ∧ contains_char "/" (rt_authority t) = false) as [Hne' Hns'].
  { rewrite Ha. split; [by destruct (url_authority u)|].
    unfold contains_char, to_ascii_lowercase in *. by rewrite map_chars_contains by apply slash_lower. }
  rewrite !ends_with_slash_app by (try done; by intros [? _]%app_eq_nil_s).
  destruct (trim_end_matches is_slash (rt_path t)) as [|c p] eqn:Hp.
  - rewrite app_nil_r_s. by apply ends_with_slash_contains.
  - rewrite ends_with_slash_app by done. rewrite <- Hp. apply ends_with_slash_trimmed.
Qed.

Lemma parse_auth_scope_ok key scope :
  parse_auth_scope key = Ok scope →
  ∃ stem, scope.2 = stem +:+ "/" ∧ trim_end_matches is_slash stem = stem.
Proof using Type.
  unfold parse_auth_scope. intros (raw & _ & H)%bind_Ok. destruct (negb _); [done|].
  apply bind_Ok in H as (t & _ & H). destruct (_ || _); [done|]. injection H as <-. simpl.
  exists (trim_end_matches is_slash (rt_path t)). split; [|apply trim_end_matches_idem].
  destruct (is_empty _) eqn:He; [|done]. apply is_empty_true in He. by rewrite He.
Qed.

Lemma parse_number_bound bits v key z n :
  parse_number bits v key z = Ok n → (n < 2 ^ bits ∧ (z = false → 0 < n))%N.
Proof using Type.
  unfold parse_number. intros (p & Hp%ok_or_Ok%parse_uint_bound & H)%bind_Ok.
  destruct (negb z && (p =? 0)%N) eqn:Hz; [done|]. injection H as <-. split; [done|].
  intros ->. simpl in Hz. apply N.eqb_neq in Hz. lia.
Qed.

Lemma parse_millis_pos v key d : parse_millis v key = Ok d → (0 < d)%N.
Proof using Type.
  unfold parse_millis. intros (m & [_ Hm]%parse_number_bound & [= <-])%bind_Ok.
  specialize (Hm eq_refl). unfold from_millis. lia.
Qed.

Lemma apply_value_ok path line c key value c' :
  config_ok c → apply_value path line c key value = Ok c' → config_ok c'.
Proof using Ulaws.
  intros [Ht Hr Hs Hf Hmin Hmax Hto]. unfold apply_value.
  destruct (eq_ignore_ascii_case key "registry").
  { intros (r & Hv%map_err_Ok%normalize_registry_ok & [= <-])%bind_Ok. by split. }
  destruct (strip_prefix "@" key ≫= strip_suffix ":registry") as [scope|].
  { destruct (negb _); [done|].
    intros (r & Hv%map_err_Ok%normalize_registry_ok & [= <-])%bind_Ok. split; try done.
    simpl. intros sc r'. destruct (decide (scope = sc)) as [->|Hne].
    - rewrite lookup_insert_eq. by intros [= <-].
    - rewrite lookup_insert_ne by done. apply Hs. }
  destruct (starts_with _ _ && _).
  { destruct (is_empty value) eqn:He; [done|]. apply is_empty_false in He.
    intros (scope & Hsc%map_err_Ok%parse_auth_scope_ok & [= <-])%bind_Ok. split; try done.
    simpl. intros sc tok. destruct (decide (scope = sc)) as [->|Hne].
    - rewrite lookup_insert_eq. by intros [= <-].
    - rewrite lookup_insert_ne by done. apply Ht. }
  destruct (eq_ignore_ascii_case key "fetch-retries").
  { intros (v & _ & [= <-])%bind_Ok. by split. }
  destruct (eq_ignore_ascii_case key "fetch-retry-factor").
  { intros (v & [Hb Hp]%map_err_Ok%parse_number_bound & [= <-])%bind_Ok. split; try done.
    simpl. specialize (Hp eq_refl). change (2 ^ 32)%N with 4294967296%N in Hb.
    unfold U32_MAX. lia. }
  do 3 (case_match; [intros (v & Hp%map_err_Ok%parse_millis_pos & [= <-])%bind_Ok; by split|]).
  by intros [= <-].
Qed.

Lemma apply_source_ok path source env c c' :
  config_ok c → apply_source path source env c = Ok c' → config_ok c'.
Proof using Ulaws.
  intros Hc. unfold apply_source. apply fold_res_inv; [done|].
  intros b [i raw] b' _ Hb. unfold apply_line.
  destruct (_ || _); [by intros [= <-]|]. intros (p & _ & H)%bind_Ok.
  destruct (is_empty _); [done|]. apply bind_Ok in H as (v & _ & H).
  by eapply apply_value_ok.
Qed.

Lemma NpmConfig_default_ok : config_ok NpmConfig_default.
Proof using Type. by split. Qed.

Lemma path_absolute url t :
  parse_http_target url = Some t → starts_with_char "/" (rt_path t) = true.
Proof using Ulaws.
  intros (u & _ & Hp & _ & _ & _ & _ & _ & ->)%parse_http_target_Some.
  by apply url_path_absolute.
Qed.

Lemma prefixes_ordered a b path :
  covers (a +:+ "/") path → covers (b +:+ "/") path → strlen b ≤ strlen a →
  ∃ r, a +:+ "/" = (b +:+ "/") +:+ r.
Proof using Type.
  intros Ha Hb Hlen.
  assert (∀ s, covers (s +:+ "/") path → ∃ r, path +:+ "/" = (s +:+ "/") +:+ r) as Hpre.
  { intros s [Heq|[rest ->]]; [exists ""; by rewrite app_nil_r_s|].
    exists (rest +:+ "/"). by rewrite app_assoc_s. }
  destruct (Hpre _ Ha) as [ra Hra], (Hpre _ Hb) as [rb Hrb]. rewrite Hra in Hrb. clear -Hrb Hlen.
  assert (∀ x y p q, x +:+ p = y +:+ q → strlen y ≤ strlen x → ∃ r, x = y +:+ r) as H.
  { induction x as [|c x IH]; intros [|d y] p q Heq Hl; simpl in *.
    - by exists "".
    - lia.
    - by exists (String c x).
    - rewrite !app_cons_s in Heq. injection Heq as -> Heq.
      destruct (IH y p q Heq) as [r ->]; [lia|]. by exists r. }
  eapply H; [exact Hrb|]. unfold strlen in *. rewrite !length_app_s. simpl. lia.
Qed.

Lemma load_paths_ok read env user project c :
  load_paths read env user project = Ok c → config_ok c.
Proof using Ulaws.
  unfold load_paths. intros (c0 & Hc0 & H)%bind_Ok. apply bind_Ok in H as ([] & Hv & [= <-]).
  eapply fold_res_inv; [apply NpmConfig_default_ok| |exact Hc0].
  intros b path b' _ Hb H. cbn beta in H. destruct (read path); [|by injection H as <-|done].
  by eapply apply_source_ok.
Qed.

(** ** Properties *)

(** C14.  A loaded configuration is well formed whatever the files and the environment
    contain: registry URLs have no trailing slash, every credential is
    non-empty and scoped to a directory prefix, the retry factor is a positive
    32-bit number, and all timeouts are positive with the minimum retry delay
    at most the maximum. *)
Theorem load_paths_well_formed read env user project c :
  load_paths read env user project = Ok c →
  config_ok c ∧ (retry_min_timeout (nc_network c) <= retry_max_timeout (nc_network c))%N.
Proof using Ulaws.
  intros Hl. split; [by eapply load_paths_ok|]. revert Hl.
  unfold load_paths. intros (c0 & Hc0 & H)%bind_Ok. apply bind_Ok in H as ([] & Hv & [= <-]).
  unfold validate_config in Hv.
  destruct (N.ltb_spec (retry_max_timeout (nc_network c0)) (retry_min_timeout (nc_network c0)));
    [done|lia].
Qed.

(** C10.  Credentials stay in their scope: a token attached to a request was configured
    for exactly that authority and for a directory that contains the request
    path on a segment boundary (never a sibling that shares a name prefix), and
    the scope used is the most specific one; no token is attached only when no
    configured scope covers the URL. *)
Theorem auth_token_scoped c url target :
  config_ok c → parse_http_target url = Some target →
  match auth_token_for_url c url with
  | Some token => ∃ prefix,
      nc_auth_tokens c !! (rt_authority target, prefix) = Some token ∧
      covers prefix (rt_path target) ∧
      ∀ prefix' token', nc_auth_tokens c !! (rt_authority target, prefix') = Some token' →
        covers prefix' (rt_path target) → ∃ r, prefix = prefix' +:+ r
  | None => ∀ prefix token,
      nc_auth_tokens c !! (rt_authority target, prefix) = Some token →
      ¬ covers prefix (rt_path target)
  end.
Proof using Ulaws.
  intros [Htok _ _ _ _ _ _] Ht. unfold auth_token_for_url. rewrite Ht. simpl.
  pose proof (path_absolute _ _ Ht) as Habs.
  set (l := filter _ _).
  assert (∀ a p tok, ((a, p), tok) ∈ l ↔ nc_auth_tokens c !! (a, p) = Some tok ∧
            a = rt_authority target ∧ covers p (rt_path target)) as Hl.
  { intros a p tok. unfold l. rewrite list_elem_of_filter, elem_of_sort_by, elem_of_map_to_list.
    simpl. split.
    - intros [[-> Hw] Hin]. split_and!; [done|done|].
      destruct (Htok _ _ Hin) as (_ & stem & Hs & Hst). simpl in Hs. subst p.
      by apply covers_iff in Hw.
    - intros (Hin & -> & Hc). destruct (Htok _ _ Hin) as (_ & stem & Hs & Hst). simpl in Hs.
      subst p. split; [|done]. split; [done|]. by apply covers_iff. }
  destruct (longest_prefix l) as [[[a p] tok]|] eqn:Hlong; simpl.
  - pose proof (longest_prefix_go _ _ _ Hlong) as ([?|Hin] & _ & Hmax); [done|].
    apply Hl in Hin as (Hin & -> & Hc). exists p. split_and!; [done..|].
    intros p' tok' Hin' Hc'. specialize (Hmax _ (proj2 (Hl _ _ _) (conj Hin' (conj eq_refl Hc')))).
    destruct (Htok _ _ Hin) as (_ & stem & Hs & _), (Htok _ _ Hin') as (_ & stem' & Hs' & _).
    simpl in *. subst p p'. eapply prefixes_ordered; [done|done|].
    unfold strlen in *. rewrite !length_app_s in Hmax. simpl in Hmax. lia.
  - apply longest_prefix_None in Hlong. intros p tok Hin Hc.
    assert (((rt_authority target, p), tok) ∈ l) as H by (by apply Hl).
    rewrite Hlong in H. set_solver.
Qed.
End config.

(** ** Witnesses *)

Module SimpleUrl.
(** [scheme://authority/rest] without userinfo, query or fragment. *)
Record t := mk { scheme : string; authority : string; rest : string }.

Definition parse (s : string) : option t :=
  match split_once "://" s with
  | None => None
  | Some (scheme, tail) =>
      match split_once "/" tail with
      | Some (authority, rest) => Some (mk scheme authority rest)
      | None => Some (mk scheme tail "")
      end
  end.

Definition print (u : t) : string := scheme u +:+ "://" +:+ authority u +:+ "/" +:+ rest u.

#[export] Instance lib : UrlLib := {
  Url := t;
  url_parse := parse;
  url_as_str := print;
  url_protocol := scheme;
  url_has_host u := negb (is_empty (authority u)) && negb (contains_char "/" (authority u));
  url_username _ := "";
  url_password _ := None;
  url_userinfo _ := "";
  url_authority := authority;
  url_path u := "/" +:+ rest u;
  url_query _ := None;
  url_fragment _ := None;
  url_origin u := scheme u +:+ "://" +:+ authority u;
  url_join u s := match parse s with
                  | Some v => Some v
                  | None => Some (mk (scheme u) (authority u) s)
                  end;
}.

#[export] Instance laws : UrlLaws.
Proof.
  split; [|done]. intros u. simpl. rewrite andb_true_iff, !negb_true_iff, is_empty_false. done.
Qed.
End SimpleUrl.

Section witnesses.
Import SimpleUrl.

Definition sample_npmrc : string :=
  "registry=https://npm.example/" +:+ String newline
  "//npm.example/team/:_authToken=${TOKEN}" +:+ String newline
  "fetch-retries=3".
Definition sample_env (name : string) : option string :=
  if decide (name = "TOKEN") then Some "s3cret" else None.
Definition sample_config : NpmConfig :=
  match load_paths (λ _, FileText sample_npmrc) sample_env None (Some ".npmrc") with
  | Ok c => c
  | Err _ => NpmConfig_default
  end.

Lemma sample_loads :
  load_paths (λ _, FileText sample_npmrc) sample_env None (Some ".npmrc") = Ok sample_config.
Proof. vm_compute. reflexivity. Qed.

Lemma load_paths_well_formed_witness :
  config_ok sample_config ∧ nc_registry sample_config = "https://npm.example".
Proof.
  split; [|vm_compute; reflexivity].
  exact (proj1 (load_paths_well_formed _ _ _ _ _ sample_loads)).
Defined.

Lemma auth_token_scoped_witness :
  auth_token_for_url sample_config "https://npm.example/team/pkg" = Some "s3cret" ∧
  auth_token_for_url sample_config "https://npm.example/team-evil/pkg" = None ∧
  covers "/team/" "/team/pkg".
Proof.
  assert (auth_token_for_url sample_config "https://npm.example/team/pkg" = Some "s3cret") as Ht
    by (vm_compute; reflexivity).
  split; [exact Ht|]. split; [vm_compute; reflexivity|].
  pose proof (load_paths_ok _ _ _ _ _ sample_loads) as Hok.
  pose proof (auth_token_scoped sample_config "https://npm.example/team/pkg"
    (mk_RequestTarget "https" "npm.example" "/team/pkg" false false) Hok eq_refl) as H.
  rewrite Ht in H. destruct H as (prefix & Hp & Hc & _).
  assert (prefix = "/team/") as ->; [|exact Hc].
  apply elem_of_map_to_list in Hp. revert Hp. vm_compute. intros Hp. inversion Hp; [congruence|].
  match goal with H : _ ∈ [] |- _ => inversion H end.
Defined.
End witnesses.
