(* ===== verification/Sources.v ===== *)
(** * [src/resolver/sources.rs]: dependencies that do not come from a registry

    Recognising the specs, and resolving directories, tarballs and Git
    references to metadata and a lockfile source.  The file system, the HTTP
    stream, the [git] process, hashing and unpacking an archive are the fields of
    [source_io]; a reader is the list of its successive reads.  Error messages are
    kept as data ([SourceError]); [SPanic] is the panic of an [expect]. *)

From S2P Require Export Lockfile Manifest Http.
From Stdlib Require Import Ascii.

Inductive DependencySource :=
  | DSFile (path : string)
  | DSTarball (url : string)
  | DSGit (url : string) (reference : option string)
  | DSPatch (inner patch : string).
#[global] Instance DependencySource_eq_dec : EqDecision DependencySource.
Proof. solve_decision. Defined.

Definition looks_like_hosted_git (spec : string) : bool :=
  match strip_prefix "https://github.com/" spec, strip_prefix "https://gitlab.com/" spec,
        strip_prefix "https://bitbucket.org/" spec with
  | Some rest, _, _ | None, Some rest, _ | None, None, Some rest =>
      (length (split_char "/" rest) =? 2)%nat
  | None, None, None =>
      match split_char "/" spec with
      | [owner; repo] =>
          negb (is_empty owner) && negb (is_empty repo) &&
          negb (contains_char ":" owner) && negb (contains_char ":" repo)
      | _ => false
      end
  end.

Definition split_git_reference (spec : string) : string * option string :=
  let stripped := default spec (strip_prefix "git+" spec) in
  match split_once "#" stripped with
  | Some (url, reference) => (url, Some reference)
  | None => (stripped, None)
  end.

Definition git_prefixes : list string :=
  ["git+"; "git://"; "ssh://"; "git@"; "github:"; "gitlab:"; "bitbucket:"].

Definition DependencySource_parse (spec : string) : option DependencySource :=
  let lower := to_ascii_lowercase spec in
  match strip_prefix "patch:" spec with
  | Some payload =>
      '(inner, patch) ← rsplit_once "#" payload; Some (DSPatch inner patch)
  | None =>
      match match strip_prefix "file:" spec with
            | Some path => Some path
            | None => strip_prefix "link:" spec
            end with
      | Some path => Some (DSFile path)
      | None =>
          if starts_with "./" spec || starts_with "../" spec || starts_with_char "/" spec then
            Some (DSFile spec)
          else if (starts_with "http://" lower || starts_with "https://" lower) &&
                  (ends_with ".tgz" lower || contains_str ".tgz?" lower) then
            Some (DSTarball spec)
          else if existsb (λ p, starts_with p lower) git_prefixes || looks_like_hosted_git spec then
            let '(url, reference) := split_git_reference spec in Some (DSGit url reference)
          else None
      end
  end.

(** [trim_end_matches(".git")]: every trailing copy of the suffix. *)
Fixpoint trim_git_fuel (fuel : nat) (s : string) : string :=
  match fuel with
  | 0 => s
  | S fuel => match strip_suffix ".git" s with Some s => trim_git_fuel fuel s | None => s end
  end.
Definition trim_git (s : string) : string := trim_git_fuel (strlen s) s.

Definition strip_either (a b s : string) : option string :=
  match strip_prefix a s with Some r => Some r | None => strip_prefix b s end.

(** Hosted-Git shortcuts as URLs. *)
Definition git_clone_url (spec : string) : string :=
  match strip_either "github:" "github.com/" spec with
  | Some rest => "https://github.com/" +:+ trim_git rest
  | None =>
      match strip_either "gitlab:" "gitlab.com/" spec with
      | Some rest => "https://gitlab.com/" +:+ trim_git rest
      | None =>
          match strip_either "bitbucket:" "bitbucket.org/" spec with
          | Some rest => "https://bitbucket.org/" +:+ trim_git rest
          | None => spec
          end
      end
  end.

Definition hosted_tarball (base rest suffix reference : string) : option string :=
  '(owner, repo) ← split_once "/" rest;
  Some (base +:+ "/" +:+ owner +:+ "/" +:+ trim_git repo +:+ "/" +:+ suffix +:+ "/" +:+ reference).

Definition or_strip (o : option string) (p s : string) : option string :=
  match o with Some r => Some r | None => strip_prefix p s end.

(** The archive download of the three hosting services. *)
Definition hosted_git_tarball_url (spec : string) (reference : option string) : option string :=
  let reference := default "HEAD" reference in
  match or_strip (strip_either "github:" "github.com/" spec) "https://github.com/" spec with
  | Some rest => hosted_tarball "https://codeload.github.com" rest "tar.gz" reference
  | None =>
      match or_strip (strip_either "gitlab:" "gitlab.com/" spec) "https://gitlab.com/" spec with
      | Some rest =>
          '(owner, repo) ← split_once "/" rest;
          Some ("https://gitlab.com/" +:+ owner +:+ "/" +:+ repo +:+ "/-/archive/" +:+ reference +:+
                "/" +:+ trim_git repo +:+ "-" +:+ reference +:+ ".tar.gz")
      | None =>
          match or_strip (strip_either "bitbucket:" "bitbucket.org/" spec)
                  "https://bitbucket.org/" spec with
          | Some rest =>
              '(owner, repo) ← split_once "/" rest;
              Some ("https://bitbucket.org/" +:+ owner +:+ "/" +:+ repo +:+ "/get/" +:+ reference
                    +:+ ".tar.gz")
          | None =>
              if looks_like_hosted_git spec
              then hosted_tarball "https://codeload.github.com" spec "tar.gz" reference
              else None
          end
      end
  end.

(** ** Resolving a source *)

Inductive SourceError :=
  | SGitOption (label value : string)
  | SIo (message : string)
  | STooLarge (limit : N)
  | SNoName (url : string)
  | SNoVersion (url : string)
  | SUnresolvedReference (requested remote : string)
  | SPatchContext
  | SPanic (message : string).

Definition MAX_ARTIFACT_BYTES : N := 512 * 1024 * 1024.

Definition bytes := string.
Definition reader := list (result string bytes).

Record source_io := mk_source_io {
  io_canonicalize : string → result string string;
  io_is_dir : string → bool;
  io_manifest : string → result string PackageManifest;
  io_file_len : string → option N;
  io_open : string → result string reader;
  io_stream : string → result string reader;
  io_sha512 : bytes → bytes;
  (** [manifest_from_tarball]: gunzip, untar, parse [package.json]. *)
  io_tarball_manifest : bytes → result string PackageManifest;
  (** [git ls-remote -- remote reference]: the standard output. *)
  io_ls_remote : string → string → result string string;
  (** [git_archive_tarball url reference commit]: the cached archive's path. *)
  io_git_archive : string → string → string → result string string;
  io_cache_git_tree : string → string → bytes → result string string }.

(** Values Git would read as an option are refused. *)
Definition reject_git_option_value (label value : string) : result SourceError () :=
  fail_if (starts_with_char "-" value) with_err (SGitOption label value); Ok ().

(** The reading loop: a read of zero bytes is the end. *)
Fixpoint read_bounded_loop (limit total : N) (acc : bytes) (r : reader)
    : result SourceError bytes :=
  match r with
  | [] => Ok acc
  | Err error :: _ => Err (SIo error)
  | Ok chunk :: r =>
      if is_empty chunk then Ok acc
      else
        total ← ok_or (STooLarge limit) (checked_add U64_MAX total (N.of_nat (strlen chunk)));
        fail_if (limit <? total)%N with_err (STooLarge limit);
        read_bounded_loop limit total (acc +:+ chunk) r
  end.
Definition read_bounded_to_vec (r : reader) (limit : N) : result SourceError bytes :=
  read_bounded_loop limit 0 "" r.

Definition PATH_SEPARATOR : ascii := "/".
Definition is_absolute (path : string) : bool := starts_with_char PATH_SEPARATOR path.

(** [Path::join]: an absolute path replaces the base. *)
Definition path_join (base path : string) : string :=
  if is_absolute path || is_empty base then path
  else if ends_with "/" base then base +:+ path
  else base +:+ "/" +:+ path.

(** [Path::file_name] of a canonical path. *)
Definition file_name (path : string) : option string :=
  match rsplit_once "/" path with
  | Some (_, "") => None
  | Some (_, name) => Some name
  | None => if is_empty path then None else Some path
  end.

Section resolution.
Context `{Sv : Semver} `{Cd : Codecs}.

Record SourceResolution := mk_SourceResolution {
  sres_metadata : VersionMetadata; sres_resolved : string; sres_integrity : option string;
  sres_source : LockSource; sres_link : bool; sres_workspace_target : option string;
  sres_source_dir : option string }.

Definition with_source_dir (r : SourceResolution) (dir : string) : SourceResolution :=
  mk_SourceResolution (sres_metadata r) (sres_resolved r) (sres_integrity r) (sres_source r)
    (sres_link r) (sres_workspace_target r) (Some dir).
Definition with_resolved (r : SourceResolution) (url : string) : SourceResolution :=
  mk_SourceResolution (sres_metadata r) url (sres_integrity r) (sres_source r)
    (sres_link r) (sres_workspace_target r) (sres_source_dir r).

Variable io : source_io.

Definition read_file_bounded_with_limit (path : string) (limit : N) : result SourceError bytes :=
  fail_if (match io_file_len io path with Some len => (limit <? len)%N | None => false end)
    with_err (STooLarge limit);
  r ← map_err SIo (io_open io path);
  read_bounded_to_vec r limit.
Definition read_file_bounded (path : string) : result SourceError bytes :=
  read_file_bounded_with_limit path MAX_ARTIFACT_BYTES.

Definition read_source_bytes (url : string) : result SourceError bytes :=
  match strip_prefix "file://" url with
  | Some path => read_file_bounded path
  | None =>
      if negb (contains_str "://" url) then read_file_bounded url
      else
        response ← map_err SIo (io_stream io url);
        read_bounded_to_vec response MAX_ARTIFACT_BYTES
  end.

Definition metadata_or_panic (name version : string) (manifest : PackageManifest)
    : result SourceError VersionMetadata :=
  ok_or (SPanic "workspace versions are validated by the index")
    (workspace_metadata name version (Some manifest)).

Definition source_from_tarball_bytes (url : string) (content : bytes) (source : LockSource)
    : result SourceError SourceResolution :=
  let integrity := "sha512-" +:+ b64_encode (io_sha512 io content) in
  manifest ← map_err SIo (io_tarball_manifest io content);
  name ← ok_or (SNoName url) (mf_name manifest);
  version ← ok_or (SNoVersion url) (mf_version manifest);
  metadata ← metadata_or_panic name version manifest;
  Ok (mk_SourceResolution metadata url (Some integrity) source false None None).

Definition resolve_tarball_file (path : string) : result SourceError SourceResolution :=
  content ← read_file_bounded path;
  let url := "file://" +:+ path in
  source_from_tarball_bytes url content (LSTarball url).

Definition resolve_file_source (base_dir path : string) : result SourceError SourceResolution :=
  absolute ← map_err SIo (io_canonicalize io (path_join base_dir path));
  if io_is_dir io absolute then
    manifest ← map_err SIo (io_manifest io (path_join absolute "package.json"));
    let name := default (default "package" (file_name absolute)) (mf_name manifest) in
    let version := default "0.0.0" (mf_version manifest) in
    metadata ← metadata_or_panic name version manifest;
    Ok (mk_SourceResolution metadata "" None (LSFile absolute) true (Some absolute)
          (Some absolute))
  else resolve_tarball_file absolute.

Definition resolve_tarball_source (url : string) : result SourceError SourceResolution :=
  content ← read_source_bytes url;
  source_from_tarball_bytes url content (LSTarball url).

(** The scan of [git ls-remote]: a peeled tag wins at once, otherwise the last
    line with a full commit id. *)
Fixpoint scan_refs (candidate : option string) (output : list string) : option string :=
  match output with
  | [] => candidate
  | line :: output =>
      match split_whitespace line with
      | [] => scan_refs candidate output
      | sha :: fields =>
          if negb (is_full_git_commit sha) then scan_refs candidate output
          else if ends_with "^{}" (default "" (head fields)) then Some (to_ascii_lowercase sha)
          else scan_refs (Some (to_ascii_lowercase sha)) output
      end
  end.

Definition resolve_git_commit (url : string) (reference : option string)
    : result SourceError string :=
  match reference ≫= (λ value, if is_full_git_commit value then Some value else None) with
  | Some reference => Ok (to_ascii_lowercase reference)
  | None =>
      let requested := default "HEAD" reference in
      _ ← reject_git_option_value "reference" requested;
      let remote := git_clone_url url in
      _ ← reject_git_option_value "remote" remote;
      output ← map_err SIo (io_ls_remote io remote requested);
      ok_or (SUnresolvedReference requested (redact_url remote)) (scan_refs None (lines output))
  end.

Definition resolve_git_source (url : string) (reference : option string)
    : result SourceError SourceResolution :=
  _ ← reject_git_option_value "url" url;
  _ ← match reference with
      | Some reference => reject_git_option_value "reference" reference
      | None => Ok ()
      end;
  commit ← resolve_git_commit url reference;
  '(tarball_url, content) ←
    match hosted_git_tarball_url url (Some commit) with
    | Some tarball_url =>
        content ← read_source_bytes tarball_url; Ok (tarball_url, content)
    | None =>
        tarball ← map_err SIo (io_git_archive io url (default "HEAD" reference) commit);
        content ← read_file_bounded tarball;
        Ok ("file://" +:+ tarball, content)
    end;
  resolution ← source_from_tarball_bytes tarball_url content (LSGit url reference commit);
  dir ← map_err SIo (io_cache_git_tree io url commit content);
  Ok (with_source_dir resolution dir).

Definition DependencySource_resolve (source : DependencySource) (base_dir : string)
    : result SourceError SourceResolution :=
  match source with
  | DSFile path => resolve_file_source base_dir path
  | DSTarball url => resolve_tarball_source url
  | DSGit url reference => resolve_git_source url reference
  | DSPatch _ _ => Err SPatchContext
  end.

(** ** Specification *)

Definition lower_hex (c : ascii) : bool := is_ascii_digit c || in_range 97 102 c.
Definition pinned_commit (commit : string) : Prop :=
  strlen commit = 40 ∧ all_chars lower_hex commit = true.

(** The download a resolution records: bytes within the limit, at a non-empty
    location, with the digest of exactly those bytes. *)
Definition archived (r : SourceResolution) : Prop :=
  sres_link r = false ∧ sres_workspace_target r = None ∧ sres_resolved r ≠ "" ∧
  ∃ content, (N.of_nat (strlen content) <= MAX_ARTIFACT_BYTES)%N ∧
    sres_integrity r = Some (to_npm_string (mk_digest (io_sha512 io content))).

Definition resolution_ok (spec : string) (r : SourceResolution) : Prop :=
  match sres_source r with
  | LSFile path => sres_link r = true ∧ sres_workspace_target r = Some path ∧
      sres_source_dir r = Some path ∧ sres_integrity r = None
  | LSTarball url => archived r ∧ sres_resolved r = url
  | LSGit url reference commit => archived r ∧ pinned_commit commit ∧
      (url, reference) = split_git_reference spec ∧
      starts_with_char "-" url = false ∧
      ∀ ref, reference = Some ref → starts_with_char "-" ref = false ∧
        (is_full_git_commit ref = true → commit = to_ascii_lowercase ref)
  | _ => False
  end.

(** ** Lemmas *)

Lemma read_bounded_loop_spec limit total acc r content :
  total = N.of_nat (strlen acc) → (total <= limit)%N →
  read_bounded_loop limit total acc r = Ok content →
  (N.of_nat (strlen content) <= limit)%N.
Proof using Type.
  revert total acc. induction r as [|[chunk|error] r IH]; intros total acc -> Hl; simpl;
    [intros; simplify_eq; done| |done].
  destruct (is_empty chunk) eqn:He; [intros; simplify_eq; done|].
  intros (t & Ht & H)%bind_Ok. apply ok_or_Ok, checked_add_Some in Ht as [-> _].
  destruct (limit <? _)%N eqn:Hlt; [done|]. apply N.ltb_ge in Hlt.
  eapply IH, H; [|done]. unfold strlen. rewrite length_app_s. unfold strlen. lia.
Qed.

Lemma read_bounded_to_vec_bound r limit content :
  read_bounded_to_vec r limit = Ok content → (N.of_nat (strlen content) <= limit)%N.
Proof using Type. apply read_bounded_loop_spec; [done|]. simpl. lia. Qed.

Lemma read_file_bounded_bound path content :
  read_file_bounded path = Ok content → (N.of_nat (strlen content) <= MAX_ARTIFACT_BYTES)%N.
Proof using Type.
  unfold read_file_bounded, read_file_bounded_with_limit.
  destruct (match io_file_len io path with Some _ => _ | None => _ end); [done|].
  intros (r & _ & H)%bind_Ok. by apply read_bounded_to_vec_bound in H.
Qed.

Lemma read_source_bytes_bound url content :
  read_source_bytes url = Ok content → (N.of_nat (strlen content) <= MAX_ARTIFACT_BYTES)%N.
Proof using Type.
  unfold read_source_bytes. destruct (strip_prefix _ _) as [path|]; [apply read_file_bounded_bound|].
  destruct (negb _); [apply read_file_bounded_bound|].
  intros (r & _ & H)%bind_Ok. by apply read_bounded_to_vec_bound in H.
Qed.

Lemma source_from_tarball_bytes_spec url content source r :
  source_from_tarball_bytes url content source = Ok r →
  url ≠ "" → (N.of_nat (strlen content) <= MAX_ARTIFACT_BYTES)%N →
  archived r ∧ sres_source r = source ∧ sres_resolved r = url.
Proof using Type.
  unfold source_from_tarball_bytes. intros H Hu Hb.
  apply bind_Ok in H as (m & _ & H). apply bind_Ok in H as (n & _ & H).
  apply bind_Ok in H as (v & _ & H). apply bind_Ok in H as (md & _ & H).
  injection H as <-. split; [|done]. split_and!; try done. exists content. done.
Qed.

Lemma lower_hex_of c : is_ascii_hexdigit c = true → lower_hex (ascii_lower c) = true.
Proof using Type. destruct c as [[] [] [] [] [] [] [] []]; vm_compute; done. Qed.

Lemma full_commit_pinned value :
  is_full_git_commit value = true → pinned_commit (to_ascii_lowercase value).
Proof using Type.
  unfold is_full_git_commit. intros [Hl Hh]%andb_true_iff.
  assert (∀ s, strlen (to_ascii_lowercase s) = strlen s) as Hlen.
  { intros s. unfold to_ascii_lowercase, strlen. induction s; simpl; congruence. }
  split.
  - rewrite Hlen. by apply Nat.eqb_eq in Hl.
  - clear Hl. unfold to_ascii_lowercase. induction value as [|c s IH]; [done|]. simpl in *.
    apply andb_true_iff in Hh as [Hc Hs]. rewrite lower_hex_of by done. by apply IH.
Qed.

Lemma scan_refs_pinned candidate output commit :
  (∀ c, candidate = Some c → pinned_commit c) →
  scan_refs candidate output = Some commit → pinned_commit commit.
Proof using Type.
  revert candidate. induction output as [|line output IH]; intros candidate Hc; simpl.
  - intros ->. by apply Hc.
  - destruct (split_whitespace line) as [|sha fields]; [by apply IH|].
    destruct (is_full_git_commit sha) eqn:Hs; simpl; [|by apply IH].
    destruct (ends_with _ _).
    + intros [= <-]. by apply full_commit_pinned.
    + apply IH. intros c [= <-]. by apply full_commit_pinned.
Qed.

Lemma resolve_git_commit_pinned url reference commit :
  resolve_git_commit url reference = Ok commit →
  pinned_commit commit ∧
  ∀ ref, reference = Some ref → is_full_git_commit ref = true → commit = to_ascii_lowercase ref.
Proof using Type.
  unfold resolve_git_commit. intros H.
  destruct (reference ≫= _) as [full|] eqn:Hf.
  - injection H as <-. apply bind_Some in Hf as (ref & -> & Hf).
    destruct (is_full_git_commit ref) eqn:Hr; simplify_eq.
    split; [by apply full_commit_pinned|]. by intros ? [= <-].
  - apply bind_Ok in H as ([] & _ & H). cbv zeta in H. apply bind_Ok in H as ([] & _ & H).
    apply bind_Ok in H as (out & _ & H). apply ok_or_Ok in H.
    split; [by eapply scan_refs_pinned, H|].
    intros ref -> Hr. simpl in Hf. by rewrite Hr in Hf.
Qed.

Lemma hosted_git_tarball_url_nonempty spec reference url :
  hosted_git_tarball_url spec reference = Some url → url ≠ "".
Proof using Type.
  unfold hosted_git_tarball_url, hosted_tarball. cbv zeta.
  repeat case_match; intros Hu; try done;
    apply bind_Some in Hu as ([owner repo] & _ & Hu); by injection Hu as <-.
Qed.

Lemma reject_git_option_value_Ok label value u :
  reject_git_option_value label value = Ok u → starts_with_char "-" value = false.
Proof using Type. unfold reject_git_option_value. by destruct (starts_with_char _ _). Qed.

Lemma DependencySource_parse_shape spec source :
  DependencySource_parse spec = Some source →
  match source with
  | DSTarball url => url ≠ ""
  | DSGit url reference => split_git_reference spec = (url, reference)
  | _ => True
  end.
Proof using Type.
  unfold DependencySource_parse. cbv zeta. intros Hp.
  destruct (strip_prefix "patch:" spec) as [payload|].
  { apply bind_Some in Hp as ([inner patch] & _ & [= <-]). done. }
  destruct (match strip_prefix "file:" spec with Some _ => _ | None => _ end);
    [by injection Hp as <-|].
  destruct (_ || starts_with_char _ _); [by injection Hp as <-|].
  destruct (_ && _) eqn:Hh.
  { injection Hp as <-. intros ->. discriminate Hh. }
  destruct (existsb _ _ || looks_like_hosted_git spec); [|done].
  destruct (split_git_reference spec) as [url reference]. by injection Hp as <-.
Qed.

Lemma archived_with_source_dir r dir : archived r → archived (with_source_dir r dir).
Proof using Type. done. Qed.

Lemma resolve_git_source_ok spec r :
  resolve_git_source (split_git_reference spec).1 (split_git_reference spec).2 = Ok r →
  resolution_ok spec r.
Proof using Type.
  destruct (split_git_reference spec) as [url reference] eqn:Hsplit. simpl.
  unfold resolve_git_source. intros H.
  apply bind_Ok in H as ([] & Hurl%reject_git_option_value_Ok & H).
  apply bind_Ok in H as ([] & Href & H). apply bind_Ok in H as (commit & Hc & H).
  apply resolve_git_commit_pinned in Hc as [Hpin Hfull].
  apply bind_Ok in H as ([tarball content] & Ht & H).
  assert (tarball ≠ "" ∧ (N.of_nat (strlen content) <= MAX_ARTIFACT_BYTES)%N) as [Hne Hb].
  { destruct (hosted_git_tarball_url url (Some commit)) as [t|] eqn:Hh;
      apply bind_Ok in Ht as (x & Hx & Ht).
    - injection Ht as <- <-. apply read_source_bytes_bound in Hx.
      by apply hosted_git_tarball_url_nonempty in Hh.
    - apply bind_Ok in Ht as (y & Hy & Ht). injection Ht as <- <-.
      by apply read_file_bounded_bound in Hy. }
  apply bind_Ok in H as (res & Hres & H). apply bind_Ok in H as (dir & _ & H).
  injection H as <-. apply source_from_tarball_bytes_spec in Hres as (Ha & Hs & _); try done.
  unfold resolution_ok. simpl. rewrite Hs. split_and!; try done.
  intros ref ->. apply reject_git_option_value_Ok in Href. auto.
Qed.

(** Git is asked about an empty URL before any such source is accepted. *)
Lemma resolve_git_source_url url reference r :
  (∀ ref commit, is_ok (io_git_archive io "" ref commit) = false) →
  resolve_git_source url reference = Ok r → url ≠ "".
Proof using Type.
  intros Hio H ->. unfold resolve_git_source in H.
  apply bind_Ok in H as ([] & _ & H). apply bind_Ok in H as ([] & _ & H).
  apply bind_Ok in H as (commit & _ & H). apply bind_Ok in H as (t & Ht & _).
  change (hosted_git_tarball_url "" (Some commit)) with (@None string) in Ht. cbv iota in Ht.
  apply bind_Ok in Ht as (a & Ha & _). apply map_err_Ok in Ha.
  specialize (Hio (default "HEAD" reference) commit). by rewrite Ha in Hio.
Qed.

Lemma archived_sha512 r `{!CodecLaws Cd} :
  (∀ content, strlen (io_sha512 io content) = 64) → archived r →
  ∃ i d, sres_integrity r = Some i ∧ Integrity_parse i = Ok d.
Proof using Type.
  intros Hlen (_ & _ & _ & content & _ & ->). eexists _, _. split; [done|].
  apply Integrity_parse_canonical. apply Hlen.
Qed.

Lemma DependencySource_resolve_ok spec source base_dir r :
  DependencySource_parse spec = Some source →
  DependencySource_resolve source base_dir = Ok r →
  resolution_ok spec r.
Proof using Type.
  intros Hp Hr. destruct source as [path|url|url reference|inner patch]; simpl in Hr; [| | |done].
  - unfold resolve_file_source in Hr. apply bind_Ok in Hr as (absolute & _ & Hr).
    destruct (io_is_dir io absolute).
    + apply bind_Ok in Hr as (m & _ & Hr). cbv zeta in Hr. apply bind_Ok in Hr as (md & _ & Hr).
      by injection Hr as <-.
    + unfold resolve_tarball_file in Hr. apply bind_Ok in Hr as (content & Hb & Hr).
      apply read_file_bounded_bound in Hb.
      apply source_from_tarball_bytes_spec in Hr as (Ha & Hs & Hu); try done.
      unfold resolution_ok. by rewrite Hs.
  - unfold resolve_tarball_source in Hr. apply bind_Ok in Hr as (content & Hb & Hr).
    apply read_source_bytes_bound in Hb.
    apply source_from_tarball_bytes_spec in Hr as (Ha & Hs & Hu); try done.
    + unfold resolution_ok. by rewrite Hs.
    + by apply DependencySource_parse_shape in Hp.
  - apply resolve_git_source_ok. apply DependencySource_parse_shape in Hp. by rewrite Hp.
Qed.

(** A resolved source is pinned: a directory is recorded under its canonical
    path as a link; every archive has a location, at most the artifact limit of
    bytes, and the sha512 of exactly those bytes as its integrity; a Git source
    records the URL and reference as written, never one that the [git] command
    line could read as an option, and a full lower-case commit id, which is the
    requested one when the reference already was a commit. *)
Theorem source_resolution_pinned spec source base_dir r :
  DependencySource_parse spec = Some source →
  DependencySource_resolve source base_dir = Ok r →
  resolution_ok spec r.
Proof using Type. apply DependencySource_resolve_ok. Qed.

(** An archive whose [package.json] carries a version that is not a semantic
    version (such as [1.0]) is not reported as an error: the [expect] that
    assumes a validated version panics. *)
Lemma source_bad_version_panics url content source manifest name version :
  io_tarball_manifest io content = Ok manifest →
  mf_name manifest = Some name → mf_version manifest = Some version →
  version_of version = None →
  source_from_tarball_bytes url content source =
    Err (SPanic "workspace versions are validated by the index").
Proof using Type.
  intros Hm Hn Hv Hver. unfold source_from_tarball_bytes, metadata_or_panic, workspace_metadata.
  rewrite Hm. simpl. rewrite Hn. simpl. rewrite Hv. simpl. by rewrite Hver.
Qed.
End resolution.

(** ** Witnesses *)

Module SampleIo.
Export Mini Plain.
Definition manifest (name version : string) (deps : gmap string string) : PackageManifest :=
  mk_PackageManifest None (Some name) (Some version) None None None ∅ deps ∅ ∅ ∅ ∅ None ∅ ∅
    [] [] [].

Definition commit : string := "0123456789ABCDEF0123456789abcdef01234567".
Definition tab : ascii := chr 9.

(** One Git repository, one directory, nothing else. *)
Definition io : source_io := mk_source_io
  (λ p, Ok p) (λ p, bool_decide (p = "/work/lib"))
  (λ p, if bool_decide (p = "/work/lib/package.json") then Ok (manifest "lib" "1.0.0" ∅)
        else Err "not found")
  (λ _, None)
  (λ p, if bool_decide (p = "/cache/x.tgz") then Ok [Ok "archive"] else Err "not found")
  (λ _, Err "offline") (λ _, digest_bytes sample_digest)
  (λ content, if bool_decide (content = "archive") then Ok (manifest "x" "1.2.3" ∅)
              else Err "not an archive")
  (λ _ _, Ok (commit +:+ String tab "refs/heads/main"))
  (λ url _ _, if is_empty url then Err "no repository" else Ok "/cache/x.tgz")
  (λ _ _ _, Ok "/cache/x").
End SampleIo.

Section witnesses.
Import SampleIo.

Lemma source_resolution_pinned_witness :
  match DependencySource_resolve io (DSGit "https://git.example/team/x.git" (Some "main"))
          "/work" with
  | Ok r => resolution_ok io "git+https://git.example/team/x.git#main" r
  | Err _ => False
  end.
Proof.
  assert (is_ok (DependencySource_resolve io
            (DSGit "https://git.example/team/x.git" (Some "main")) "/work") = true) as Hok
    by (vm_compute; reflexivity).
  assert (DependencySource_parse "git+https://git.example/team/x.git#main"
          = Some (DSGit "https://git.example/team/x.git" (Some "main"))) as Hp by decided.
  destruct (DependencySource_resolve _ _ _) as [r|e] eqn:Hr; [|discriminate Hok].
  exact (source_resolution_pinned io _ _ _ r Hp Hr).
Defined.
End witnesses.
