(* ===== verification/NpmLock.v ===== *)
(** * [src/npm_lock.rs]: importing and exporting npm [package-lock.json]

    The importer from npm's flat package table to [bpm.lock], and the exporter
    back.  Reading and writing JSON text is the class [NpmCodec] (serde's derived
    code); the download that computes a missing integrity is an argument. *)

From S2P Require Export Lockfile Manifest Overrides Diagnostic Sources Integrity.
From Stdlib Require Import Ascii.

Definition SUPPORTED_LOCKFILE_VERSION : N := 3.
Definition ACCEPTED_IMPORT_LOCKFILE_VERSIONS : list N := [2; 3]%N.

Record ImportReport := mk_ImportReport {
  ir_lockfile : Lockfile; ir_diagnostics : list Diagnostic }.

Inductive BinReason :=
  | BinEntryNotString (key : string)
  | BinNotStringOrObject (kind : string)
  | UnsafeBinName (name : string) (e : PathSafetyError)
  | UnsafeBinTarget (target : string) (e : PathSafetyError).

Inductive UnsupportedReason := ULink | UMissingResolved | UMissingIntegrity | UNonRegistrySource.
Record UnsupportedPackage := mk_UnsupportedPackage { up_path : string; up_reason : UnsupportedReason }.

Inductive NpmLockError :=
  | NLParse (message : string)
  | NLUnsupportedVersion (version : N)
  | NLNoPackages
  | NLInvalidCanonicalName (path name : string)
  | NLInvalidBin (path : string) (reason : BinReason)
  | NLManifestMetadata (e : OverrideError)
  | NLUnsafePath (path : string) (e : PathSafetyError)
  | NLExportUnsupported (packages : list UnsupportedPackage).

Record RawPkg := mk_RawPkg {
  rp_name : option string; rp_version : option string; rp_resolved : option string;
  rp_integrity : option string; rp_link : option bool; rp_dev : option bool;
  rp_optional : option bool; rp_in_bundle : option bool; rp_bin : Value;
  rp_dependencies : gmap string string; rp_dev_dependencies : gmap string string;
  rp_optional_dependencies : gmap string string; rp_peer_dependencies : gmap string string;
  rp_os : list string; rp_cpu : list string }.
Record RawLock := mk_RawLock {
  rl_name : option string; rl_lockfile_version : option N; rl_packages : gmap string RawPkg }.

(** ** Names and URLs *)

Definition NODE_MODULES : string := "node_modules/".

(** [rsplit('/').next()]. *)
Definition last_segment (path : string) : string :=
  match rsplit_once "/" path with Some (_, base) => base | None => path end.

Definition package_name_from_path (path : string) : string :=
  match rsplit_once NODE_MODULES path with
  | Some (_, name) => name
  | None => last_segment path
  end.

Definition derive_registry_url (name version : string) : string :=
  "https://registry.npmjs.org/" +:+ name +:+ "/-/" +:+ last_segment name +:+ "-" +:+ version +:+ ".tgz".

Definition git_transport_prefixes : list string :=
  ["git+ssh://git@"; "git+ssh://"; "ssh://git@"; "git+https://"; "git+http://"; "git://"].
Definition hosted_hosts : list string := ["github.com"; "gitlab.com"; "bitbucket.org"].

Definition normalized_git (spec : string) : option string :=
  match foldl (λ o p, or_strip o p spec) None git_transport_prefixes with
  | Some rest =>
      '(host, path) ← split_once "/" rest;
      if existsb (String.eqb host) hosted_hosts then Some ("https://" +:+ host +:+ "/" +:+ path) else None
  | None => Some spec
  end.

Definition hosted_git_from_npm_resolved (resolved : string) : option (string * string * string) :=
  '(spec, commit) ← split_once "#" resolved;
  if negb (is_full_git_commit commit) then None
  else
    normalized ← normalized_git spec;
    let normalized := trim_git normalized in
    tarball ← hosted_git_tarball_url normalized (Some commit);
    Some (normalized, commit, tarball).

(** ** Bins *)

Definition other_type (v : Value) : string :=
  match v with
  | VNull => "null" | VBool _ => "bool" | VNumber _ => "number"
  | VString _ => "string" | VArray _ => "array" | VObject _ => "object"
  end.

Definition parse_bin (path name : string) (value : Value) : result NpmLockError (gmap string string) :=
  match value with
  | VNull => Ok ∅
  | VString s => Ok {[ name := s ]}
  | VObject entries =>
      fold_res (λ (out : gmap string string) (kv : string * Value),
        s ← ok_or (NLInvalidBin path (BinEntryNotString kv.1)) (as_str kv.2);
        Ok (<[kv.1 := s]> out)) ∅ entries
  | other => Err (NLInvalidBin path (BinNotStringOrObject (other_type other)))
  end.

Definition validate_bins (path : string) (bin : gmap string string) : result NpmLockError () :=
  each_res (λ kv : string * string,
    _ ← map_err (λ e, NLInvalidBin path (UnsafeBinName kv.1 e)) (validate_bin_name kv.1);
    _ ← map_err (λ e, NLInvalidBin path (UnsafeBinTarget kv.2 e)) (validate_bin_target kv.2);
    Ok ()) (bt_list bin).

(** ** Diagnostics *)

Definition with_package (d : Diagnostic) (package : string) : Diagnostic :=
  mk_Diagnostic (dg_severity d) (dg_code d) (dg_message d) (dg_field d) (Some package).
Definition warn (code package message : string) : Diagnostic :=
  with_package (Diagnostic_new Warning code message) package.
Definition info (code package message : string) : Diagnostic :=
  with_package (Diagnostic_new Info code message) package.

Definition quoted (s : string) : string := String dquote s +:+ String dquote "".

Definition format_constraints (os cpu : list string) : string :=
  join " " ((if decide (os = []) then [] else ["os=[" +:+ join "," os +:+ "]"]) ++
            (if decide (cpu = []) then [] else ["cpu=[" +:+ join "," cpu +:+ "]"])).

Definition link_warning (name path : string) : Diagnostic :=
  warn "LINK_PACKAGE_UNSUPPORTED" name
    ("package " +:+ quoted name +:+ " at " +:+ path +:+ " is a link entry without a resolved target").
Definition constraint_info (name : string) (os cpu : list string) : Diagnostic :=
  info "PLATFORM_CONSTRAINT" name
    ("package " +:+ quoted name +:+ " declares os/cpu constraints (" +:+ format_constraints os cpu +:+
     "); BPM records and enforces them during installation").
Definition missing_resolved (name path : string) : Diagnostic :=
  warn "MISSING_RESOLVED" name
    ("package " +:+ quoted name +:+ " at " +:+ path +:+
     " has no resolved URL; it cannot be installed from a registry").
Definition missing_integrity (name path url : string) : Diagnostic :=
  warn "MISSING_INTEGRITY" name
    ("package " +:+ quoted name +:+ " at " +:+ path +:+ ": could not fetch " +:+ url +:+
     " to compute integrity; frozen installs will reject it").

(** ** One package of the table *)

Definition parent_tarball_bundle (pkg : RawPkg) : bool :=
  default false (rp_in_bundle pkg) &&
  match rp_resolved pkg with Some url => contains_str "/node_modules/" url | None => false end.

(** Entries without a placement of their own. *)
Definition is_metadata_path (path : string) (pkg : RawPkg) : bool :=
  negb (default false (rp_link pkg)) && negb (existsb (String.eqb "node_modules") (split_char slash path)).

Definition link_target (pkg : RawPkg) : option string :=
  if default false (rp_link pkg)
  then (target ← rp_resolved pkg; if is_empty target then None else Some target)
  else None.

(** The tarball URL of an entry that is not a link. *)
Definition registry_resolved (pkg : RawPkg) (name version : string) : string :=
  let resolved := default "" (rp_resolved pkg) in
  let source_name := default name (rp_name pkg) in
  let resolved :=
    if (is_empty resolved || contains_str "/node_modules/" resolved) && negb (is_empty source_name) &&
       negb (is_empty version)
    then derive_registry_url source_name version else resolved in
  match rp_name pkg with
  | Some real_name =>
      if bool_decide (real_name ≠ name) then
        if contains_str ("/" +:+ real_name +:+ "/-") resolved then resolved
        else derive_registry_url real_name version
      else resolved
  | None => resolved
  end.

Definition git_resolution (url commit : string) : PackageResolution :=
  mk_PackageResolution (LSGit url None commit) false false [] ∅ ∅ ∅ ∅ ∅ None false.

Record import_state := mk_import_state {
  is_packages : list PackageEntry; is_resolution : gmap string PackageResolution;
  is_registry_names : gmap string string; is_diagnostics : list Diagnostic }.

(** The URL, the Git metadata and the warning of an entry. *)
Definition entry_source (path name version : string) (pkg : RawPkg)
    : string * option PackageResolution * list Diagnostic :=
  if default false (rp_link pkg) then (default "" (rp_resolved pkg), None, [])
  else
    let resolved := registry_resolved pkg name version in
    let diags := if is_empty resolved then [missing_resolved name path] else [] in
    match hosted_git_from_npm_resolved (default "" (rp_resolved pkg)) with
    | Some (git_source, commit, tarball) => (tarball, Some (git_resolution git_source commit), diags)
    | None => (resolved, None, diags)
    end.

Definition canonical_name (path name : string) (pkg : RawPkg) : result NpmLockError (option string) :=
  if default false (rp_link pkg) then Ok None
  else
    match rp_name pkg with
    | Some canonical =>
        if bool_decide (canonical = name) then Ok None
        else
          fail_if (negb (is_valid_npm_read_name canonical))
            with_err (NLInvalidCanonicalName path canonical);
          Ok (Some canonical)
    | None => Ok None
    end.

Definition import_entry (st : import_state) (kv : string * RawPkg) : result NpmLockError import_state :=
  let '(path, pkg) := kv in
  if is_empty path || is_metadata_path path pkg || parent_tarball_bundle pkg then Ok st
  else
    let name := package_name_from_path path in
    let version := default "" (rp_version pkg) in
    let link := default false (rp_link pkg) in
    let '(resolved, git, warnings) := entry_source path name version pkg in
    bin ← parse_bin path name (rp_bin pkg);
    _ ← (if link then Ok "" else map_err (NLUnsafePath path) (validate_package_path path));
    _ ← validate_bins path bin;
    canonical ← canonical_name path name pkg;
    Ok (mk_import_state
          (is_packages st ++
             [mk_PackageEntry path name version resolved (link_target pkg) (rp_integrity pkg) link
                (default false (rp_dev pkg)) (default false (rp_optional pkg)) (rp_os pkg) (rp_cpu pkg)
                bin (rp_dependencies pkg ∪ rp_peer_dependencies pkg)])
          (match git with Some m => <[path := m]> (is_resolution st) | None => is_resolution st end)
          (match canonical with Some n => <[path := n]> (is_registry_names st)
                              | None => is_registry_names st end)
          (is_diagnostics st ++
             (if link && bool_decide (link_target pkg = None) then [link_warning name path] else []) ++
             (if bool_decide (rp_os pkg = [] ∧ rp_cpu pkg = []) then []
              else [constraint_info name (rp_os pkg) (rp_cpu pkg)]) ++ warnings)).

(** ** The import *)

Definition import_root (raw : RawLock) : RootEntry :=
  match rl_packages raw !! "" with
  | Some root =>
      mk_RootEntry (rl_name raw) (rp_version root)
        ((rp_optional_dependencies root ∪ (rp_dependencies root ∪ rp_dev_dependencies root)) ∪
         rp_peer_dependencies root)
  | None => RootEntry_default
  end.

(** The integrity recorded for a name and version; the last placement wins. *)
Definition integrity_by_artifact (ps : list PackageEntry) : gmap (string * string) string :=
  foldl (λ m p, match pe_integrity p with
                | Some i => if pe_link p then m else <[(pe_name p, pe_version p) := i]> m
                | None => m
                end) ∅ ps.

Definition with_integrity_of (p : PackageEntry) (i : option string) : PackageEntry :=
  mk_PackageEntry (pe_path p) (pe_name p) (pe_version p) (pe_resolved p) (pe_workspace_target p) i
    (pe_link p) (pe_dev p) (pe_optional p) (pe_os p) (pe_cpu p) (pe_bin p) (pe_dependencies p).

Definition fill_integrity (known : gmap (string * string) string) (p : PackageEntry) : PackageEntry :=
  match pe_integrity p with
  | None =>
      if pe_link p then p
      else match known !! (pe_name p, pe_version p) with
           | Some i => with_integrity_of p (Some i)
           | None => p
           end
  | Some _ => p
  end.

Definition needs_fetch (p : PackageEntry) : bool :=
  negb (pe_link p) && bool_decide (pe_integrity p = None) && starts_with "https://" (pe_resolved p).

Class NpmCodec := {
  npm_text : Type;
  npm_from_str : npm_text → result string RawLock;
}.

Section import.
Context `{Codecs} `{NC : NpmCodec}.
(** [Sha512Digest::hash_bytes], and a GET whose answer is 200. *)
Variables (hash_bytes : string → Sha512Digest) (fetch : string → option string).

Definition fetch_integrity (p : PackageEntry) : PackageEntry * list Diagnostic :=
  if needs_fetch p then
    match fetch (pe_resolved p) with
    | Some bytes => (with_integrity_of p (Some (to_npm_string (hash_bytes bytes))), [])
    | None => (p, [missing_integrity (pe_name p) (pe_path p) (pe_resolved p)])
    end
  else (p, []).

Definition finish_packages (ps : list PackageEntry) : list (PackageEntry * list Diagnostic) :=
  (λ p, fetch_integrity (fill_integrity (integrity_by_artifact ps) p)) <$> ps.

Definition import_report (raw : RawLock) (st : import_state) : ImportReport :=
  let lock := Lockfile_new "bpm" in
  let finished := finish_packages (is_packages st) in
  mk_ImportReport
    (sort_packages
       (mk_Lockfile (lf_lockfile_version lock) (lf_generator lock) (import_root raw) finished.*1
          (mk_ResolutionMetadata RootResolution_default (is_resolution st) (is_registry_names st))))
    (sort_diagnostics (is_diagnostics st ++ mjoin finished.*2)).

Definition import_raw (raw : RawLock) : result NpmLockError ImportReport :=
  let version := default 0%N (rl_lockfile_version raw) in
  fail_if (negb (existsb (N.eqb version) ACCEPTED_IMPORT_LOCKFILE_VERSIONS))
    with_err (NLUnsupportedVersion version);
  fail_if (bool_decide (rl_packages raw = ∅)) with_err NLNoPackages;
  st ← fold_res import_entry (mk_import_state [] ∅ ∅ []) (bt_list (rl_packages raw));
  Ok (import_report raw st).

Definition import (json : npm_text) : result NpmLockError ImportReport :=
  raw ← map_err NLParse (npm_from_str json);
  import_raw raw.
End import.

Section manifest_metadata.
Context `{Sv : Semver}.

Definition apply_manifest_root_metadata (l : Lockfile) (m : PackageManifest)
    : result NpmLockError Lockfile :=
  overrides ← map_err NLManifestMetadata
    (normalize_root_overrides (mf_overrides m) (root_dependency_declarations m) Root);
  let r := lf_resolution l in
  let root := rm_root r in
  Ok (mk_Lockfile (lf_lockfile_version l) (lf_generator l) (lf_root l) (lf_packages l)
        (mk_ResolutionMetadata
           (mk_RootResolution (mf_dev_dependencies m) (mf_optional_dependencies m) (os_normalized overrides)
              (rr_workspace_patterns root) (rr_workspace_index_digest root) (rr_target root)
              (rr_peer_mode root))
           (rm_packages r) (rm_registry_names r))).
End manifest_metadata.

(** ** The export *)

Record NpmV3Package := mk_NpmV3Package {
  v3_name : option string; v3_version : option string; v3_resolved : option string;
  v3_integrity : option string; v3_link : bool; v3_dev : bool; v3_optional : bool;
  v3_bin : option Value;
  v3_dependencies : gmap string string; v3_dev_dependencies : gmap string string;
  v3_optional_dependencies : gmap string string; v3_peer_dependencies : gmap string string;
  v3_os : list string; v3_cpu : list string }.
Record NpmV3Lock := mk_NpmV3Lock {
  v3l_name : option string; v3l_version : option string; v3l_lockfile_version : N;
  v3l_requires : bool; v3l_packages : gmap string NpmV3Package }.

Definition bin_value (bin : gmap string string) : option Value :=
  if bool_decide (bin = ∅) then None
  else Some (VObject ((λ kv : string * string, (kv.1, VString kv.2)) <$> bt_list bin)).

Definition unsupported_reason (package : PackageEntry) (l : Lockfile) : option UnsupportedReason :=
  if pe_link package then
    if absent_or_empty (pe_workspace_target package) then Some ULink else None
  else if is_empty (pe_resolved package) then Some UMissingResolved
  else if is_empty (default "" (pe_integrity package)) then Some UMissingIntegrity
  else
    match pres_source <$> rm_packages (lf_resolution l) !! pe_path package with
    | Some (LSRegistry _) => None
    | Some _ => Some UNonRegistrySource
    | None =>
        if starts_with "http://" (pe_resolved package) || starts_with "https://" (pe_resolved package)
        then None else Some UNonRegistrySource
    end.

Definition unsupported_packages (l : Lockfile) : list UnsupportedPackage :=
  sort_by (λ a b, String.leb (up_path a) (up_path b))
    (omap (λ p, mk_UnsupportedPackage (pe_path p) <$> unsupported_reason p l)
       (filter (λ p, pe_path p ≠ "") (lf_packages l))).

Definition v3_root (m : PackageManifest) : NpmV3Package :=
  mk_NpmV3Package (mf_name m) (mf_version m) None None false false false None (mf_dependencies m)
    (mf_dev_dependencies m) (mf_optional_dependencies m) (mf_peer_dependencies m) [] [].

Definition v3_package (p : PackageEntry) : NpmV3Package :=
  mk_NpmV3Package None (Some (pe_version p))
    (if pe_link p then pe_workspace_target p else Some (pe_resolved p)) (pe_integrity p)
    (pe_link p) (pe_dev p) (pe_optional p) (bin_value (pe_bin p)) (pe_dependencies p) ∅ ∅ ∅
    (pe_os p) (pe_cpu p).

Definition v3_lock (l : Lockfile) (m : PackageManifest) : NpmV3Lock :=
  mk_NpmV3Lock (mf_name m) (mf_version m) SUPPORTED_LOCKFILE_VERSION true
    (foldl (λ packages p, if is_empty (pe_path p) then packages
                          else <[pe_path p := v3_package p]> packages)
       {[ "" := v3_root m ]} (lf_packages l)).

(** What [RawPkg]'s reader finds in a written [NpmV3Package]: absent fields take
    their default. *)
Definition raw_flag (b : bool) : option bool := if b then Some true else None.
Definition raw_of_package (p : NpmV3Package) : RawPkg :=
  mk_RawPkg (v3_name p) (v3_version p) (v3_resolved p) (v3_integrity p) (raw_flag (v3_link p))
    (raw_flag (v3_dev p)) (raw_flag (v3_optional p)) None (default VNull (v3_bin p))
    (v3_dependencies p) (v3_dev_dependencies p) (v3_optional_dependencies p)
    (v3_peer_dependencies p) (v3_os p) (v3_cpu p).
Definition raw_of (l : NpmV3Lock) : RawLock :=
  mk_RawLock (v3l_name l) (Some (v3l_lockfile_version l)) (raw_of_package <$> v3l_packages l).

Class NpmWriter (NC : NpmCodec) := {
  npm_to_vec_pretty : NpmV3Lock → result string npm_text;
  npm_push_newline : npm_text → npm_text;
  (** A written lock reads back, with or without the final newline. *)
  npm_from_written l t : npm_to_vec_pretty l = Ok t → npm_from_str (npm_push_newline t) = Ok (raw_of l);
}.

Section export.
Context `{NW : NpmWriter}.

Definition export_v3 (l : Lockfile) (m : PackageManifest) : result NpmLockError npm_text :=
  let unsupported := unsupported_packages l in
  fail_if (negb (bool_decide (length unsupported = 0))) with_err (NLExportUnsupported unsupported);
  bytes ← map_err NLParse (npm_to_vec_pretty (v3_lock l m));
  Ok (npm_push_newline bytes).
End export.

Arguments npm_to_vec_pretty {NC NW} : rename.

(** [project_lock.rs]: the diagnostics that a direct install does not survive. *)
Definition blocking_codes : list string :=
  ["LINK_PACKAGE_UNSUPPORTED"; "MISSING_RESOLVED"; "YARN_WORKSPACE_UNSUPPORTED";
   "YARN_MISSING_RESOLUTION"; "PNPM_PATCH_UNSUPPORTED"; "PNPM_MISSING_RESOLUTION";
   "PNPM_UNNAMED_ENTRY"; "PNPM_LINK_OUTSIDE_PROJECT"].
Definition validate_npm_direct_install (diagnostics : list Diagnostic) : result (list Diagnostic) () :=
  let blocking := sort_diagnostics (filter (λ d, dg_code d ∈ blocking_codes) diagnostics) in
  if bool_decide (length blocking = 0) then Ok () else Err blocking.
