(* ===== verification/NpmLockTheory.v ===== *)
(** * What the npm importer and exporter promise to each other *)

From S2P Require Export NpmLock.
From Stdlib Require Import Ascii.

(** ** Bins *)

Lemma parse_bin_value path name bin : parse_bin path name (default VNull (bin_value bin)) = Ok bin.
Proof.
  unfold bin_value. case_bool_decide as Hb; [by subst|]. simpl.
  assert (∀ l out, fold_res (λ (out : gmap string string) (kv : string * Value),
      s ← ok_or (NLInvalidBin path (BinEntryNotString kv.1)) (as_str kv.2);
      Ok (<[kv.1 := s]> out)) out ((λ kv : string * string, (kv.1, VString kv.2)) <$> l)
    = Ok (foldl (λ m kv, <[kv.1 := kv.2]> m) out l)) as ->.
  { induction l as [|kv l IH]; intros out; [done|]. apply IH. }
  f_equal. apply map_eq. intros k. apply option_eq. intros v.
  rewrite foldl_insert_lookup by apply bt_keys_NoDup. rewrite elem_of_bt_list, lookup_empty. naive_solver.
Qed.

Lemma validate_bins_Ok path bin :
  validate_bins path bin = Ok () ↔
  ∀ name target, bin !! name = Some target →
    is_Some (ok (validate_bin_name name)) ∧ is_Some (ok (validate_bin_target target)).
Proof.
  unfold validate_bins. rewrite each_res_Ok. split.
  - intros H name target Hb. specialize (H (name, target)). rewrite elem_of_bt_list in H.
    specialize (H Hb). simpl in H. inv_ok. rewrite H0, H1. by split.
  - intros H [name target] Hb. apply elem_of_bt_list, H in Hb as [[? Hn] [? Ht]].
    apply ok_Some in Hn, Ht. simpl. by rewrite Hn, Ht.
Qed.

(** ** The exported table *)

(** Paths in order and none empty, as [Lockfile::sort_packages] leaves them. *)
Definition packages_ordered (l : Lockfile) : Prop :=
  StronglySorted str_lt (pe_path <$> lf_packages l) ∧ ∀ p, p ∈ lf_packages l → pe_path p ≠ "".

Lemma str_lt_empty s : s ≠ "" → str_lt "" s.
Proof. by destruct s. Qed.

Definition table_rows (l : Lockfile) (m : PackageManifest) : list (string * NpmV3Package) :=
  ("", v3_root m) :: ((λ p, (pe_path p, v3_package p)) <$> lf_packages l).

Lemma table_paths l m : (table_rows l m).*1 = "" :: (pe_path <$> lf_packages l).
Proof. unfold table_rows. csimpl. by rewrite <- list_fmap_compose. Qed.

Lemma bt_list_v3_lock l m :
  packages_ordered l → bt_list (v3l_packages (v3_lock l m)) = table_rows l m.
Proof.
  intros [Hs Hne]. apply bt_list_unique.
  - rewrite table_paths. constructor; [done|]. rewrite Forall_fmap. apply Forall_forall.
    intros p Hp. by apply str_lt_empty, Hne.
  - intros k v. unfold v3_lock. cbn [v3l_packages].
    assert (∀ ps g, (∀ p, p ∈ ps → pe_path p ≠ "") →
      foldl (λ packages p, if is_empty (pe_path p) then packages
                           else <[pe_path p := v3_package p]> packages) g ps
      = foldl (λ m kv, <[kv.1 := kv.2]> m) g ((λ p, (pe_path p, v3_package p)) <$> ps)) as ->.
    { induction ps as [|p ps IH]; intros g Hps; [done|]. csimpl.
      rewrite (proj2 (is_empty_false (pe_path p))) by (apply Hps; by left).
      apply IH. intros q Hq. apply Hps. by right. }
    2: done.
    rewrite foldl_insert_lookup; rewrite <- list_fmap_compose; [|by apply str_lt_NoDup].
    unfold table_rows. rewrite elem_of_cons, lookup_singleton_Some. split.
    + intros [[= -> ->]|Hin]; [|by left]. right. split; [|done].
      intros (p & Heq & Hp)%list_elem_of_fmap. by apply (Hne p).
    + intros [Hin|[_ [<- <-]]]; [by right|by left].
Qed.

(** ** Reading an exported package back *)

(** A package as npm's table can hold it: its name is the last part of its path,
    its executables are portable, and its URL says where it comes from. *)
Record npm_shaped (p : PackageEntry) : Prop := mk_npm_shaped {
  ns_name : pe_name p = package_name_from_path (pe_path p);
  ns_bins : validate_bins (pe_path p) (pe_bin p) = Ok ();
  ns_link : pe_link p = true → pe_workspace_target p = Some (pe_resolved p) ∧ pe_resolved p ≠ "";
  ns_registry : pe_link p = false →
    pe_workspace_target p = None ∧ validate_package_path (pe_path p) = Ok (pe_path p) ∧
    pe_resolved p ≠ "" ∧ contains_str "/node_modules/" (pe_resolved p) = false ∧
    hosted_git_from_npm_resolved (pe_resolved p) = None }.

Definition platform_note (p : PackageEntry) : list Diagnostic :=
  if bool_decide (pe_os p = [] ∧ pe_cpu p = []) then []
  else [constraint_info (pe_name p) (pe_os p) (pe_cpu p)].

Definition imported (st : import_state) (p : PackageEntry) : import_state :=
  mk_import_state (is_packages st ++ [p]) (is_resolution st) (is_registry_names st)
    (is_diagnostics st ++ platform_note p).

Lemma has_nm_segment segments :
  has_nm segments = true → existsb (String.eqb "node_modules") segments = true.
Proof.
  induction segments as [|a l IH]; [done|]. destruct l as [|b l]; [done|].
  intros [[[[Ha _]%andb_true_iff _]%andb_true_iff _]%andb_true_iff|H]%orb_true_iff.
  - apply bool_decide_eq_true in Ha as ->. done.
  - simpl in *. by rewrite (IH H), orb_true_r.
Qed.

Lemma validated_not_metadata p pkg :
  validate_package_path p = Ok p → is_metadata_path p pkg = false.
Proof.
  intros (_ & _ & H%has_nm_segment)%validate_package_path_Ok. unfold is_metadata_path.
  by rewrite H, andb_false_r.
Qed.

Lemma import_entry_exported st p :
  npm_shaped p → pe_path p ≠ "" →
  import_entry st (pe_path p, raw_of_package (v3_package p)) = Ok (imported st p).
Proof.
  intros [Hname Hbins Hlink Hreg] Hne. unfold import_entry.
  assert (Hbin : parse_bin (pe_path p) (pe_name p) (rp_bin (raw_of_package (v3_package p))) = Ok (pe_bin p))
    by apply parse_bin_value.
  apply is_empty_false in Hne. rewrite Hne. cbn [orb].
  change (parent_tarball_bundle (raw_of_package (v3_package p))) with false. rewrite orb_false_r.
  rewrite <- Hname, Hbin. unfold entry_source, canonical_name.
  cbn [raw_of_package v3_package rp_version rp_link rp_name rp_resolved rp_integrity rp_dev rp_optional
    rp_os rp_cpu rp_dependencies rp_peer_dependencies v3_version v3_link v3_resolved v3_integrity
    v3_dev v3_optional v3_os v3_cpu v3_dependencies v3_peer_dependencies v3_name default].
  unfold imported, link_target, is_metadata_path.
  destruct p as [path name version resolved target integrity link dev optional os cpu bin deps].
  cbn [pe_path pe_name pe_version pe_resolved pe_workspace_target pe_integrity pe_link pe_dev pe_optional
    pe_os pe_cpu pe_bin pe_dependencies] in *.
  rewrite map_union_empty. destruct link.
  - destruct (Hlink eq_refl) as [-> Hr%is_empty_false]. simpl. rewrite Hbins, Hr. simpl. rewrite app_nil_r. by destruct dev, optional.
  - destruct (Hreg eq_refl) as (-> & Hpath & Hr%is_empty_false & Hnm & Hgit).
    pose proof (validated_not_metadata path (raw_of_package (v3_package
      (mk_PackageEntry path name version resolved None integrity false dev optional os cpu bin deps))) Hpath) as Hmeta.
    unfold is_metadata_path in Hmeta. simpl in Hmeta. simpl. rewrite Hmeta, Hgit, Hpath.
    unfold registry_resolved. simpl. rewrite Hbins, Hr, Hnm. simpl. rewrite Hr, app_nil_r. by destruct dev, optional.
Qed.

(** ** The round trip *)

Lemma import_table_exported l m st :
  packages_ordered l → (∀ p, p ∈ lf_packages l → npm_shaped p) →
  fold_res import_entry st (bt_list (rl_packages (raw_of (v3_lock l m)))) =
  Ok (foldl imported st (lf_packages l)).
Proof.
  intros Hl Hshape. cbn [raw_of rl_packages]. rewrite bt_list_fmap, bt_list_v3_lock by done.
  unfold table_rows. rewrite fmap_cons, <- list_fmap_compose. destruct Hl as [_ Hne].
  change (fold_res import_entry st (_ :: ?rows)) with (fold_res import_entry st rows).
  revert st Hne Hshape. induction (lf_packages l) as [|p ps IH]; intros st Hne Hshape; [done|].
  cbn [fmap list_fmap fold_res foldl]. change ((_ ∘ _) p) with (pe_path p, raw_of_package (v3_package p)).
  rewrite (import_entry_exported st p) by (apply Hshape || apply Hne; by left).
  apply IH; intros q Hq; (apply Hne || apply Hshape); by right.
Qed.

Lemma imported_all st ps :
  foldl imported st ps =
  mk_import_state (is_packages st ++ ps) (is_resolution st) (is_registry_names st)
    (is_diagnostics st ++ (ps ≫= platform_note)).
Proof.
  revert st. induction ps as [|p ps IH]; intros st.
  - destruct st. by rewrite !app_nil_r.
  - simpl. rewrite IH. unfold imported. simpl. by rewrite <- !app_assoc.
Qed.

(** A list of packages none of which lacks an integrity. *)
Lemma finish_packages_id `{Codecs} hash_bytes fetch ps :
  (∀ p, p ∈ ps → pe_link p = true ∨ is_Some (pe_integrity p)) →
  finish_packages hash_bytes fetch ps = (λ p, (p, [])) <$> ps.
Proof.
  intros Hps. unfold finish_packages. apply list_fmap_ext. intros i p Hp.
  apply list_elem_of_lookup_2 in Hp. unfold fetch_integrity, fill_integrity, needs_fetch.
  destruct (Hps p Hp) as [Hl|[n Hn]].
  - rewrite Hl. destruct (pe_integrity p); by rewrite Hl.
  - rewrite Hn, Hn, andb_false_r. done.
Qed.

Lemma unsupported_none l p :
  unsupported_packages l = [] → p ∈ lf_packages l → pe_path p ≠ "" → unsupported_reason p l = None.
Proof.
  intros Hu Hp Hne. destruct (unsupported_reason p l) as [r|] eqn:Hr; [|done]. exfalso.
  assert (mk_UnsupportedPackage (pe_path p) r ∈ unsupported_packages l) as Hin.
  { unfold unsupported_packages. rewrite elem_of_sort_by, list_elem_of_omap. exists p.
    rewrite Hr, list_elem_of_filter. done. }
  rewrite Hu in Hin. by apply not_elem_of_nil in Hin.
Qed.

Lemma supported_integrity l p :
  unsupported_reason p l = None → pe_link p = true ∨ is_Some (pe_integrity p).
Proof.
  unfold unsupported_reason. destruct (pe_link p); [by left|]. right.
  destruct (is_empty (pe_resolved p)); [done|]. destruct (pe_integrity p); [by eexists|done].
Qed.

Lemma root_row l m :
  packages_ordered l → rl_packages (raw_of (v3_lock l m)) !! "" = Some (raw_of_package (v3_root m)).
Proof.
  intros Hl. rewrite <- elem_of_bt_list. cbn [raw_of rl_packages].
  rewrite bt_list_fmap, bt_list_v3_lock by done. by left.
Qed.

Lemma sort_by_paths ps : StronglySorted str_lt (pe_path <$> ps) → sort_by path_leb ps = ps.
Proof.
  intros Hs. apply sort_by_id. induction ps as [|p ps IH]; [constructor|].
  csimpl in Hs. apply StronglySorted_inv in Hs as [Hs Hp]. constructor; [by apply IH|].
  rewrite Forall_fmap in Hp. eapply Forall_impl; [exact Hp|]. intros q Hq.
  by apply ltb_leb in Hq as [? _].
Qed.

(** The root declarations the importer derives from npm's root entry. *)
Definition npm_root_dependencies (m : PackageManifest) : gmap string string :=
  (mf_optional_dependencies m ∪ (mf_dependencies m ∪ mf_dev_dependencies m)) ∪
  mf_peer_dependencies m.

Section roundtrip.
Context `{Codecs} `{NW : NpmWriter}.
Variables (hash_bytes : string → Sha512Digest) (fetch : string → option string).

End roundtrip.

(** ** What an import leaves in the lockfile *)

(** A package that passed the importer's own checks. *)
Definition package_vetted (p : PackageEntry) : Prop :=
  (pe_link p = true ∨ validate_package_path (pe_path p) = Ok (pe_path p)) ∧
  ∀ name target, pe_bin p !! name = Some target →
    is_Some (ok (validate_bin_name name)) ∧ is_Some (ok (validate_bin_target target)).

(** Metadata that the Git rewrite records. *)
Definition git_meta (p : PackageEntry) (m : PackageResolution) : Prop :=
  ∃ url commit, m = git_resolution url commit ∧ url ≠ "" ∧ pe_resolved p ≠ "" ∧
    is_full_git_commit commit = true.

(** The rows that stand for a package of their own. *)
Definition own_row (kv : string * RawPkg) : Prop :=
  kv.1 ≠ "" ∧ is_metadata_path kv.1 kv.2 = false ∧ parent_tarball_bundle kv.2 = false.
#[global] Instance own_row_dec kv : Decision (own_row kv).
Proof. unfold own_row. apply _. Defined.

Record import_ok (rows : list (string * RawPkg)) (st : import_state) : Prop := mk_import_ok {
  io_paths : pe_path <$> is_packages st = (filter own_row rows).*1;
  io_vetted : ∀ p, p ∈ is_packages st → package_vetted p;
  io_names : ∀ path n, is_registry_names st !! path = Some n →
    ∃ p, p ∈ is_packages st ∧ pe_path p = path ∧ n ≠ pe_name p ∧ is_valid_npm_read_name n = true;
  io_meta : ∀ path m, is_resolution st !! path = Some m →
    ∃ p, p ∈ is_packages st ∧ pe_path p = path ∧ git_meta p m }.

Lemma hosted_git_spec resolved url commit tarball :
  hosted_git_from_npm_resolved resolved = Some (url, commit, tarball) →
  url ≠ "" ∧ tarball ≠ "" ∧ is_full_git_commit commit = true.
Proof.
  unfold hosted_git_from_npm_resolved. destruct (split_once "#" resolved) as [[spec c]|]; [|done]. simpl.
  destruct (is_full_git_commit c) eqn:Hc; [|done]. simpl.
  destruct (normalized_git spec) as [n|]; [|done]. simpl.
  destruct (hosted_git_tarball_url (trim_git n) (Some c)) as [t|] eqn:Ht; [|done].
  intros [= <- <- <-]. split_and!; [|by eapply hosted_git_tarball_url_nonempty|done].
  intros He. rewrite He in Ht. by vm_compute in Ht.
Qed.

Lemma canonical_name_spec path name pkg n :
  canonical_name path name pkg = Ok (Some n) → n ≠ name ∧ is_valid_npm_read_name n = true.
Proof.
  unfold canonical_name. destruct (default false (rp_link pkg)); [done|].
  destruct (rp_name pkg) as [c|]; [|done]. case_bool_decide; [done|].
  destruct (is_valid_npm_read_name c) eqn:Hv; [|done]. by intros [= <-].
Qed.

Lemma entry_source_git path name version pkg resolved m warnings :
  entry_source path name version pkg = (resolved, Some m, warnings) →
  ∃ url commit, m = git_resolution url commit ∧ url ≠ "" ∧ resolved ≠ "" ∧ is_full_git_commit commit = true.
Proof.
  unfold entry_source. destruct (default false (rp_link pkg)); [done|].
  destruct (hosted_git_from_npm_resolved _) as [[[url commit] tarball]|] eqn:Hg; [|done].
  intros [= <- <- _]. apply hosted_git_spec in Hg as (? & ? & ?). by exists url, commit.
Qed.

(** What [lookup_insert] says, for the metadata maps that keep their old owner. *)
Lemma owner_step {A} (Q : PackageEntry → A → Prop) (m : gmap string A) ps p (new : option A) :
  (∀ path a, m !! path = Some a → ∃ q, q ∈ ps ∧ pe_path q = path ∧ Q q a) →
  (∀ a, new = Some a → Q p a) →
  ∀ path a, match new with Some a => <[pe_path p := a]> m | None => m end !! path = Some a →
    ∃ q, q ∈ ps ++ [p] ∧ pe_path q = path ∧ Q q a.
Proof.
  intros Hm Hnew path a. destruct new as [b|].
  - rewrite lookup_insert_Some. intros [[<- ->]|[_ Ha]].
    + exists p. split; [set_solver|]. auto.
    + destruct (Hm _ _ Ha) as (q & ? & ?). exists q. split; [set_solver|done].
  - intros Ha. destruct (Hm _ _ Ha) as (q & ? & ?). exists q. split; [set_solver|done].
Qed.

Lemma import_entry_ok rows st path pkg st' :
  import_ok rows st → import_entry st (path, pkg) = Ok st' → import_ok (rows ++ [(path, pkg)]) st'.
Proof.
  intros [Hp Hv Hn Hm]. unfold import_entry.
  destruct (_ || _) eqn:Hskip.
  { intros [= <-]. split; [|done..]. rewrite filter_app, filter_cons_False, app_nil_r; [done|].
    intros (Hne%is_empty_false & Hmeta & Hbundle). simpl in *. by rewrite Hne, Hmeta, Hbundle in Hskip. }
  assert (own_row (path, pkg)) as Hown.
  { apply orb_false_iff in Hskip as [[He%is_empty_false ?]%orb_false_iff ?]. done. }
  destruct (entry_source path _ _ pkg) as [[resolved git] warnings] eqn:Hsrc. intros H.
  apply bind_Ok in H as (bin & _ & H). apply bind_Ok in H as (q & Hpath & H).
  apply bind_Ok in H as ([] & Hbins & H). apply bind_Ok in H as (canonical & Hcanon & [= <-]).
  split; cbn [is_packages is_resolution is_registry_names].
  - by rewrite filter_app, filter_cons_True, !fmap_app, Hp.
  - intros p [Hin| ->%list_elem_of_singleton]%elem_of_app; [by apply Hv|]. split; cbn [pe_link pe_path pe_bin].
    + destruct (default false (rp_link pkg)); [by left|]. right.
      apply map_err_Ok in Hpath. pose proof Hpath as [-> _]%validate_package_path_Ok. done.
    + by apply validate_bins_Ok with (path := path).
  - apply (owner_step (λ p n, n ≠ pe_name p ∧ is_valid_npm_read_name n = true) _ _ (mk_PackageEntry path _ _ _ _ _ _ _ _ _ _ _ _)); [done|].
    intros n ->. by apply canonical_name_spec in Hcanon.
  - apply (owner_step git_meta _ _ (mk_PackageEntry path _ _ _ _ _ _ _ _ _ _ _ _)); [done|].
    intros m ->. by apply entry_source_git in Hsrc.
Qed.

(** Filling in integrities changes nothing else. *)
Definition same_but_integrity (p q : PackageEntry) : Prop := q = with_integrity_of p (pe_integrity q).

Lemma finish_same `{Codecs} hash_bytes fetch ps :
  Forall2 same_but_integrity ps (finish_packages hash_bytes fetch ps).*1.
Proof.
  unfold finish_packages. rewrite <- list_fmap_compose. apply Forall2_fmap_r, Forall_Forall2_diag.
  apply Forall_forall. intros p _. unfold same_but_integrity. simpl.
  unfold fetch_integrity, fill_integrity, needs_fetch.
  destruct p as [path name version resolved target [i|] [|] dev optional os cpu bin deps]; simpl; try done;
    repeat (case_match; simpl; try done).
Qed.

Lemma same_paths ps qs : Forall2 same_but_integrity ps qs → pe_path <$> qs = pe_path <$> ps.
Proof. induction 1 as [|p q ps qs Hpq _ IH]; [done|]. csimpl. by rewrite IH, Hpq. Qed.

Lemma same_vetted p q : same_but_integrity p q → package_vetted p → package_vetted q.
Proof. by intros ->. Qed.

Lemma Forall2_in_r {A B} (R : A → B → Prop) l k y : Forall2 R l k → y ∈ k → ∃ x, x ∈ l ∧ R x y.
Proof.
  intros Hlk [i Hi]%list_elem_of_lookup. destruct (Forall2_lookup_r _ _ _ _ _ Hlk Hi) as (x & Hx & HR).
  exists x. split; [by eapply list_elem_of_lookup_2|done].
Qed.
Lemma Forall2_in_l {A B} (R : A → B → Prop) l k x : Forall2 R l k → x ∈ l → ∃ y, y ∈ k ∧ R x y.
Proof.
  intros Hlk [i Hi]%list_elem_of_lookup. destruct (Forall2_lookup_l _ _ _ _ _ Hlk Hi) as (y & Hy & HR).
  exists y. split; [by eapply list_elem_of_lookup_2|done].
Qed.

Section readable.
Context `{Codecs} `{NC : NpmCodec}.
Variables (hash_bytes : string → Sha512Digest) (fetch : string → option string).

Lemma import_inv t report :
  import hash_bytes fetch t = Ok report →
  ∃ raw st, npm_from_str t = Ok raw ∧ import_ok (bt_list (rl_packages raw)) st ∧
    report = import_report hash_bytes fetch raw st.
Proof using Type.
  unfold import. intros (raw & Hraw%map_err_Ok & H')%bind_Ok. unfold import_raw in H'.
  destruct (negb _); [done|]. destruct (bool_decide (_ = ∅)); [done|].
  apply bind_Ok in H' as (st & Hst & [= <-]). exists raw, st. split_and!; [done| |done].
  refine (fold_res_prefix_inv import_ok import_entry _ (mk_import_state [] ∅ ∅ []) st _ _ Hst).
  - split; cbn [is_packages is_resolution is_registry_names]; [done|set_solver|..];
      intros path a; by rewrite lookup_empty.
  - clear st Hst. intros rows st [path pkg] st' Hst _. by apply import_entry_ok.
Qed.

Lemma import_report_packages raw st :
  import_ok (bt_list (rl_packages raw)) st →
  let qs := (finish_packages hash_bytes fetch (is_packages st)).*1 in
  lf_packages (ir_lockfile (import_report hash_bytes fetch raw st)) = qs ∧
  StronglySorted str_lt (pe_path <$> qs) ∧
  pe_path <$> qs = (filter own_row (bt_list (rl_packages raw))).*1.
Proof using Type.
  intros [Hp _ _ _] qs. pose proof (finish_same hash_bytes fetch (is_packages st)) as Hsame.
  assert (pe_path <$> qs = (filter own_row (bt_list (rl_packages raw))).*1) as Hq
    by (unfold qs; by rewrite (same_paths _ _ Hsame)).
  assert (StronglySorted str_lt (pe_path <$> qs)) as Hsorted.
  { rewrite Hq. eapply sorted_sublist; [|apply (bt_keys_sorted (rl_packages raw))].
    apply fmap_sublist, sublist_filter. }
  split; [|done]. unfold import_report. cbn [ir_lockfile sort_packages with_packages lf_packages].
  by apply sort_by_paths.
Qed.

Lemma import_lock_wf t report :
  import hash_bytes fetch t = Ok report →
  (∀ p, p ∈ lf_packages (ir_lockfile report) → pe_link p = true →
     is_normalized_relative (pe_path p) = true) →
  let l := ir_lockfile report in
  canonicalize l = l ∧ validate_package_safety l = Ok () ∧ lock_wf l.
Proof using Type.
  intros (raw & st & Hraw & Hst & ->)%import_inv Hlinks l.
  destruct (import_report_packages raw st) as (Hpk & Hsorted & _); [done|]. fold l in Hpk.
  destruct Hst as [Hp Hv Hn Hm]. set (ps := is_packages st) in *.
  pose proof (finish_same hash_bytes fetch ps) as Hsame.
  set (qs := (finish_packages hash_bytes fetch ps).*1) in *.
  assert (Hvq : ∀ q, q ∈ qs → package_vetted q).
  { intros q Hq. destruct (Forall2_in_r _ _ _ _ Hsame Hq) as (p & Hin & Hpq).
    by eapply same_vetted, Hv. }
  fold l in Hlinks. rewrite Hpk in Hlinks. split_and!.
  - assert ((λ p, with_libc p (sort_dedup (pres_libc p))) <$> is_resolution st = is_resolution st) as Hres.
    { rewrite <- (map_fmap_id (is_resolution st)) at 2. apply map_fmap_ext. intros path m Hpm.
      destruct (Hm path m Hpm) as (p & _ & _ & url & commit & -> & _). done. }
    unfold canonicalize, sort_packages at 1. rewrite sort_by_paths by (by rewrite Hpk).
    unfold root_resolution_lists, l, import_report, sort_packages, with_packages.
    cbn [ir_lockfile lf_lockfile_version lf_generator lf_root lf_packages lf_resolution rm_root rm_packages
      rm_registry_names]. by rewrite Hres.
  - apply validate_package_safety_Ok. rewrite Hpk. exact Hvq.
  - split; rewrite ?Hpk.
    + exact Hsorted.
    + intros q Hq. destruct (Hvq q Hq) as [[Hl|Hq'] _]; [by apply Hlinks|].
      by apply validate_package_path_Ok in Hq' as (_ & ? & _).
    + intros path n Hpn. destruct (Hn path n Hpn) as (p & Hin & <- & Hne & Hvalid).
      destruct (Forall2_in_l _ _ _ _ Hsame Hin) as (q & Hq & Hpq).
      exists q. rewrite (f_equal pe_path Hpq), (f_equal pe_name Hpq). by split_and!.
    + intros path m Hpm. destruct (Hm path m Hpm) as (p & Hin & <- & url & commit & -> & Hu & Hr & Hc).
      destruct (Forall2_in_l _ _ _ _ Hsame Hin) as (q & Hq & Hpq). split.
      * exists q. rewrite (f_equal pe_path Hpq). split_and!; [done|done|].
        unfold source_ok, git_resolution. cbn [pres_source]. rewrite (f_equal pe_resolved Hpq). unfold is_full_git_commit in Hc.
        apply andb_true_iff in Hc as [Hc%Nat.eqb_eq ?]. done.
      * intros target [(? & d & [Hd|[Hd|Hd]] & _)|(? & d & Hd & _)]; done.
Qed.

(** Nothing that a frozen install could not verify passes in silence. *)
Lemma unverifiable_reported raw st q :
  q ∈ (finish_packages hash_bytes fetch (is_packages st)).*1 →
  pe_link q = false → pe_integrity q = None → starts_with "https://" (pe_resolved q) = true →
  missing_integrity (pe_name q) (pe_path q) (pe_resolved q) ∈
    ir_diagnostics (import_report hash_bytes fetch raw st).
Proof using Type.
  intros (qd & -> & Hqd)%list_elem_of_fmap Hl Hi Hr. unfold import_report. cbn [ir_diagnostics].
  apply elem_of_sort_diagnostics, elem_of_app. right. apply list_elem_of_join. exists (qd.2).
  split; [|by apply list_elem_of_fmap_2].
  apply list_elem_of_fmap in Hqd as (p & -> & _). revert Hl Hi Hr. unfold fetch_integrity.
  set (p' := fill_integrity _ p). destruct (needs_fetch p') eqn:Hn.
  - destruct (fetch (pe_resolved p')); cbn [fst snd]; [done|]. set_solver.
  - cbn [fst snd]. intros Hl Hi Hr. unfold needs_fetch in Hn. by rewrite Hl, Hi, Hr in Hn.
Qed.

Context `{LC : LockCodec} {LL : LockCodecLaws LC}.

(** An import loses no package and produces a lockfile that bpm accepts: the
    packages are, in path order, exactly the table's installable rows; when
    every linked path is normalised, the text bpm writes reads back as the
    imported lockfile, past the safety checks and the v2 gate; and a package
    with an https tarball but no integrity is named in the diagnostics. *)
Theorem import_sound t raw report :
  npm_from_str t = Ok raw → import hash_bytes fetch t = Ok report →
  let l := ir_lockfile report in
  pe_path <$> lf_packages l = (filter own_row (bt_list (rl_packages raw))).*1 ∧
  ((∀ p, p ∈ lf_packages l → pe_link p = true → is_normalized_relative (pe_path p) = true) →
   ∀ text, to_json l = Ok text → from_json text = Ok l) ∧
  (∀ p, p ∈ lf_packages l → pe_link p = false → pe_integrity p = None →
     starts_with "https://" (pe_resolved p) = true →
     missing_integrity (pe_name p) (pe_path p) (pe_resolved p) ∈ ir_diagnostics report).
Proof using LL.
  intros Hraw Himp l. pose proof Himp as (raw' & st & Hraw' & Hst & Hrep)%import_inv.
  rewrite Hraw in Hraw'. injection Hraw' as <-.
  destruct (import_report_packages raw st Hst) as (Hpk & _ & Hpaths). split.
  { unfold l. by rewrite Hrep, Hpk. }
  split; [|unfold l; rewrite Hrep, Hpk; by apply unverifiable_reported].
  intros Hlinks text Htext. destruct (import_lock_wf t report Himp Hlinks) as (Hcanon & Hsafe & Hwf).
  fold l in Hcanon, Hsafe, Hwf. rewrite <- Hcanon in Hsafe, Hwf.
  rewrite <- Hcanon at 1. apply to_json_reads_back; [|done..]. unfold l. by rewrite Hrep.
Qed.
End readable.

(** ** Witnesses and what the formats lose *)

Module NpmSample.
#[export] Instance codec : NpmCodec := { npm_text := RawLock; npm_from_str t := Ok t }.
#[export] Instance writer : NpmWriter codec := {
  npm_to_vec_pretty l := Ok (raw_of l); npm_push_newline t := t;
  npm_from_written l t H := match H with eq_refl => eq_refl end }.
#[export] Existing Instance Plain.codecs.
#[export] Existing Instance PlainLock.codec.
#[export] Existing Instance PlainLock.laws.

Definition no_digest : string → Sha512Digest := λ _, mk_digest "".
Definition offline : string → option string := λ _, None.

Definition entry (path name url : string) (bin : gmap string string) : PackageEntry :=
  mk_PackageEntry path name "1.0.0" url None (Some "sha512-x") false false false ["linux"] [] bin
    {[ "b" := "^1" ]}.
Definition linked : PackageEntry :=
  mk_PackageEntry "node_modules/tool" "tool" "1.0.0" "packages/tool" (Some "packages/tool") None true
    true false [] [] ∅ ∅.
Definition packages : list PackageEntry :=
  [entry "node_modules/a" "a" "https://r/a.tgz" {[ "a" := "cli.js" ]};
   entry "node_modules/a/node_modules/@s/b" "@s/b" "https://r/b.tgz" ∅; linked].
Definition lock (names : gmap string string) : Lockfile :=
  mk_Lockfile BPM_LOCK_VERSION "bpm" RootEntry_default packages
    (mk_ResolutionMetadata RootResolution_default ∅ names).
Definition manifest (deps dev peer : gmap string string) : PackageManifest :=
  mk_PackageManifest None (Some "app") (Some "1.0.0") None None None ∅ deps dev peer ∅ ∅ None ∅ ∅ [] [] [].
Definition sample_manifest : PackageManifest := manifest {[ "a" := "^1" ]} {[ "tool" := "*" ]} ∅.

Lemma sample_ordered names : packages_ordered (lock names).
Proof.
  split; [by repeat constructor|]. intros p Hp. cbn in Hp.
  repeat (apply elem_of_cons in Hp as [->|Hp]; [done|]). by apply not_elem_of_nil in Hp.
Qed.

Lemma sample_shaped names p : p ∈ lf_packages (lock names) → npm_shaped p.
Proof.
  intros Hp. cbn in Hp.
  repeat (apply elem_of_cons in Hp as [->|Hp]; [split; [by vm_compute..|done|]; by vm_compute|]).
  by apply not_elem_of_nil in Hp.
Qed.

(** An npm alias loses its registry name in the export. *)
Example export_drops_alias :
  (t ← export_v3 (lock {[ "node_modules/a" := "real-a" ]}) sample_manifest;
   report ← import no_digest offline t;
   Ok (rm_registry_names (lf_resolution (ir_lockfile report)))) = Ok ∅.
Proof. by vm_compute. Qed.

(** A link outside the project is imported; the lockfile written for it is
    refused when it is read. *)
Definition outside : RawLock :=
  mk_RawLock (Some "app") (Some 3%N)
    {[ "../tool" := mk_RawPkg None (Some "1.0.0") (Some "x") None (Some true) None None None VNull
         ∅ ∅ ∅ ∅ [] [] ]}.
Example import_link_outside_refused :
  (report ← import no_digest offline outside;
   map_err (λ _, NLNoPackages) (text ← to_json (ir_lockfile report); from_json text))
  = Err NLNoPackages ∧
  is_ok (import no_digest offline outside) = true.
Proof. split; by vm_compute. Qed.
End NpmSample.

Section witnesses.
Import NpmSample.


Lemma import_sound_witness :
  match import (NC := codec) no_digest offline (raw_of (v3_lock (lock ∅) sample_manifest)) with
  | Ok report => from_json (ir_lockfile report : lock_text) = Ok (ir_lockfile report)
  | Err _ => False
  end.
Proof.
  destruct (import (NC := codec) no_digest offline (raw_of (v3_lock (lock ∅) sample_manifest))) as [report|e] eqn:Hi;
    [|vm_compute in Hi; discriminate Hi].
  destruct (import_sound (NC := codec) no_digest offline (raw_of (v3_lock (lock ∅) sample_manifest)) _ report
    eq_refl Hi) as (_ & Hread & _).
  vm_compute in Hi. injection Hi as <-. apply Hread; [|reflexivity].
  intros p Hp Hl. simpl in Hp.
  repeat (apply elem_of_cons in Hp as [->|Hp]; [first [discriminate Hl|vm_compute; reflexivity]|]).
  inversion Hp.
Defined.
End witnesses.
