(* ===== verification/Pnpm.v ===== *)
(** * [src/pnpm_lock.rs]: importing a pnpm v9 lockfile

    Packages and snapshots merge into entries, aliases expand into synthetic
    entries, importers seed the root and the workspace links, and a breadth-first
    walk places every reachable entry with the hoisting placer.  The files read
    and the tests [is_file] and [is_dir] below the project root are arguments. *)

From S2P Require Export Yaml Hoist Peer Lockfile Manifest Diagnostic Json NpmLock.
From Stdlib Require Import Ascii.

(** [PnpmLockError], with the YAML error as data. *)
Inductive PnpmLockError :=
  | PnpmParse (e : YamlError)
  | NoLockfileContent
  | NoImporters
  | NoPackages
  | MalformedPatches.

Record PnpmEntry := mk_PnpmEntry {
  pn_name : string; pn_version : string; pn_resolved : string; pn_integrity : option string;
  pn_dependencies : gmap string string; pn_optional_dependencies : gset string;
  pn_peer_dependencies : gset string; pn_os : list string; pn_cpu : list string }.
Definition PnpmEntry_default : PnpmEntry := mk_PnpmEntry "" "" "" None ∅ ∅ ∅ [] [].

(** ** Ids *)

Definition PATCH_MARKERS : list string := ["_patch="; "_patch_hash="; "(patch_hash="].

(** [str::find]. *)
Definition find_str (pat s : string) : option nat := (λ p : string * string, strlen p.1) <$> split_once pat s.

(** The least position at which a marker stands. *)
Definition patch_marker_at (id : string) : option nat :=
  foldl (λ best at_, match best with Some b => Some (Nat.min b at_) | None => Some at_ end) None
    (omap (λ marker, find_str marker id) PATCH_MARKERS).

Definition normalize_id (id : string) : string :=
  let id := match patch_marker_at id with
            | Some at_ => String.substring 0 at_ id
            | None => id
            end in
  let bare := default id (strip_prefix "/" id) in
  match split_once "(" bare with Some (a, _) => a | None => bare end.

Definition normalize_segment (out : list string) (segment : string) : list string :=
  if bool_decide (segment = "") || bool_decide (segment = ".") then out
  else if bool_decide (segment = "..") then take (length out - 1) out
  else out ++ [segment].
Definition normalize_path (path : string) : string :=
  join "/" (foldl normalize_segment [] (split_char "/" path)).

Definition split_registry_id (id : string) : option (string * string) :=
  '(name, version) ← rsplit_once "@" id;
  if is_empty name then None else Some (name, version).

Definition pnpm_registry_url (name version : string) : string :=
  "https://registry.npmjs.org/" +:+ name +:+ "/-/" +:+ last_segment name +:+ "-" +:+ version +:+ ".tgz".

Definition alias_real_name (spec : string) : string :=
  match rsplit_once "@" spec with
  | Some (name, _) => if is_empty name then spec else name
  | None => spec
  end.

Definition file_target_of (id : string) : option string :=
  match split_once "@file:" id with
  | Some (_, target) => if is_empty target then None else Some target
  | None => target ← strip_prefix "file:" id; if is_empty target then None else Some target
  end.

(** [BTreeMap::entry(k).or_insert(v)]. *)
Definition or_insert {A} (k : string) (v : A) (m : gmap string A) : gmap string A :=
  match m !! k with Some _ => m | None => <[k := v]> m end.

(** ** Patch tables *)

Definition patch_row (out : gmap string string) (kv : string * Yaml) : gmap string string :=
  match (match yaml_as_str kv.2 with
         | Some path => Some path
         | None => path ← yaml_get kv.2 "path"; yaml_as_str path
         end) with
  | Some path => <[kv.1 := path]> out
  | None => out
  end.
Definition patches_from_yaml (node : option Yaml) : gmap string string :=
  foldl patch_row ∅ (opt_entries node).

(** [serde_json::from_value] into a map of strings. *)
Definition string_map (v : Value) : option (gmap string string) :=
  entries ← as_object v;
  rows ← mapM (λ kv : string * Value, s ← as_str kv.2; Some (kv.1, s)) entries;
  Some (foldl (λ m kv, <[kv.1 := kv.2]> m) ∅ rows).

(** The manifest's JSON value; [None] when it does not parse. *)
Definition read_manifest_patches (manifest : option Value) : result PnpmLockError (gmap string string) :=
  match manifest ≫= λ v, Value_get v "patchedDependencies" with
  | None | Some VNull => Ok ∅
  | Some v => ok_or MalformedPatches (string_map v)
  end.

(** [workspace_yaml] is the text of [pnpm-workspace.yaml], when it can be read.
    A parser that does not return makes the import not return. *)
Definition merged_patch_paths (document : Yaml) (workspace_yaml : option string)
    (manifest : option Value) : result PnpmLockError (gmap string string) :=
  paths ← match parse_documents <$> workspace_yaml with
          | Some (Ok (config :: _)) =>
              Ok (patches_from_yaml (yaml_get config "patchedDependencies"))
          | Some (Err FlowLoops) => Err (PnpmParse FlowLoops)
          | _ => Ok ∅
          end;
  manifest_paths ← read_manifest_patches manifest;
  Ok (patches_from_yaml (yaml_get document "patchedDependencies") ∪ (manifest_paths ∪ paths)).

(** ** Documents and packages *)

Definition package_count (doc : Yaml) : nat := length (opt_entries (yaml_get doc "packages")).

(** The largest document; the first of several. *)
Definition largest_document (first : Yaml) (others : list Yaml) : Yaml :=
  foldl (λ best doc, if (package_count best <? package_count doc)%nat then doc else best) first others.

(** [node.map(Yaml::string_list).unwrap_or_default()]. *)
Definition opt_string_list (node : option Yaml) : list string :=
  match node with Some y => string_list y | None => [] end.

(** The entry of one [packages] row, unless it has no resolution. *)
Definition pnpm_package_entry (normalized : string) (metadata : Yaml) : option PnpmEntry :=
  let resolution := yaml_get metadata "resolution" in
  let field key := r ← resolution; v ← yaml_get r key; yaml_as_str v in
  let integrity := value ← field "integrity";
                   if starts_with "sha512-" value then Some value else None in
  let tarball := field "tarball" in
  let '(name, version) := default ("", normalized) (split_registry_id normalized) in
  let is_file_entry := starts_with "file:" version in
  if bool_decide (integrity = None) && bool_decide (tarball = None) && negb is_file_entry then None
  else
    let resolved :=
      if is_file_entry then ""
      else match tarball with
           | Some url => if is_empty url then pnpm_registry_url name version else url
           | None => pnpm_registry_url name version
           end in
    Some (mk_PnpmEntry name version resolved integrity ∅ ∅ ∅
            (opt_string_list (yaml_get metadata "os")) (opt_string_list (yaml_get metadata "cpu"))).

(** Positions of entries by id. *)
Notation id_index := (gmap string nat).

Definition package_step (st : list PnpmEntry * id_index) (row : string * Yaml)
    : list PnpmEntry * id_index :=
  let '(entries, by_id) := st in
  let normalized := normalize_id row.1 in
  if contains_key normalized by_id then st
  else match pnpm_package_entry normalized row.2 with
       | Some entry => (entries ++ [entry], <[normalized := length entries]> by_id)
       | None => st
       end.
Definition collect_packages (packages : Yaml) : list PnpmEntry * id_index :=
  foldl package_step ([], ∅) (yaml_entries packages).

(** ** Snapshots *)

Definition with_edges (e : PnpmEntry) (deps : gmap string string) (optional peers : gset string) : PnpmEntry :=
  mk_PnpmEntry (pn_name e) (pn_version e) (pn_resolved e) (pn_integrity e) deps optional peers
    (pn_os e) (pn_cpu e).
Definition with_name (e : PnpmEntry) (name : string) : PnpmEntry :=
  mk_PnpmEntry name (pn_version e) (pn_resolved e) (pn_integrity e) (pn_dependencies e)
    (pn_optional_dependencies e) (pn_peer_dependencies e) (pn_os e) (pn_cpu e).

(** The importer a link of a snapshot leads to, or the link as it stands. *)
Definition snapshot_link (importer_paths : gset string) (link : string) : string :=
  default link
    (find (λ candidate, bool_decide (candidate ∈ importer_paths))
       ((λ base, normalize_path (base +:+ "/" +:+ link)) <$> bs_list importer_paths)).

Section snapshots.
Variable importer_paths : gset string.
Variable by_id : id_index.

Definition dependency_edge (st : PnpmEntry * gmap string string) (edge : string * Yaml)
    : PnpmEntry * gmap string string :=
  let '(entry, links) := st in
  let '(dep, target) := edge in
  match yaml_as_str target ≫= strip_prefix "link:" with
  | Some link => (entry, or_insert dep (snapshot_link importer_paths link) links)
  | None =>
      match normalize_id <$> yaml_as_str target with
      | Some norm =>
          (with_edges entry (or_insert dep norm (pn_dependencies entry))
             (pn_optional_dependencies entry) (pn_peer_dependencies entry), links)
      | None => st
      end
  end.

Definition optional_edge (entry : PnpmEntry) (edge : string * Yaml) : PnpmEntry :=
  match normalize_id <$> yaml_as_str edge.2 with
  | Some norm =>
      with_edges entry (or_insert edge.1 norm (pn_dependencies entry))
        ({[ edge.1 ]} ∪ pn_optional_dependencies entry) (pn_peer_dependencies entry)
  | None => entry
  end.

Definition peer_edge (entry : PnpmEntry) (edge : string * Yaml) : PnpmEntry :=
  match normalize_id <$> yaml_as_str edge.2 with
  | Some norm =>
      if contains_key norm by_id then
        with_edges entry (or_insert edge.1 norm (pn_dependencies entry))
          (pn_optional_dependencies entry) ({[ edge.1 ]} ∪ pn_peer_dependencies entry)
      else entry
  | None => entry
  end.

(** The edges of one snapshot, added to its entry. *)
Definition snapshot_edges (entry : PnpmEntry) (links : gmap string string) (edges : Yaml)
    : PnpmEntry * gmap string string :=
  let '(entry, links) := foldl dependency_edge (entry, links) (opt_entries (yaml_get edges "dependencies")) in
  let entry := foldl optional_edge entry (opt_entries (yaml_get edges "optionalDependencies")) in
  (foldl peer_edge entry (opt_entries (yaml_get edges "peerDependencies")), links).

Definition snapshot_step (st : list PnpmEntry * gmap string string) (row : string * Yaml)
    : list PnpmEntry * gmap string string :=
  let '(entries, links) := st in
  match by_id !! normalize_id row.1 ≫= λ index, (λ e, (index, e)) <$> entries !! index with
  | None => st
  | Some (index, entry) =>
      let '(entry, links) := snapshot_edges entry links row.2 in
      (<[index := entry]> entries, links)
  end.
End snapshots.

(** ** Names *)

(** The dependency name by which some entry refers to an id. *)
Definition referring_name (entries : list PnpmEntry) (normalized : string) : option string :=
  head (omap (λ other, fst <$>
          find (λ dt : string * string, bool_decide (dt.2 = normalized) && negb (is_empty dt.1))
            (bt_list (pn_dependencies other))) entries).

Definition attach_name (entries : list PnpmEntry) (entry : PnpmEntry) : PnpmEntry :=
  if is_empty (pn_name entry)
  then match referring_name entries (pn_version entry) with
       | Some dep => with_name entry dep
       | None => entry
       end
  else entry.

(** The closure of [retain]. *)
Definition keep_entry (entry : PnpmEntry) : bool :=
  negb (is_empty (pn_name entry)) || starts_with "file:" (pn_version entry).

Definition unnamed_warning `{DebugFormat} (entry : PnpmEntry) : Diagnostic :=
  Diagnostic_new Warning "PNPM_UNNAMED_ENTRY"
    ("package " +:+ str_debug (pn_version entry) +:+ " has no resolvable name; it cannot be imported").

Definition pnpm_identity (name version : string) : string := name +:+ "@" +:+ version.

Definition entry_id (entry : PnpmEntry) : string :=
  if is_empty (pn_name entry) then pn_version entry
  else pnpm_identity (pn_name entry) (pn_version entry).

(** The index over the retained entries. *)
Definition index_ids (entries : list PnpmEntry) : id_index :=
  foldl (λ by_id ie, <[entry_id ie.2 := ie.1]> by_id) ∅ (imap pair entries).

(** ** Aliases *)

Definition entry_of (entries : list PnpmEntry) (index : nat) : PnpmEntry :=
  default PnpmEntry_default (entries !! index).

(** Dependencies whose key names another package: consumer, alias, real entry. *)
Definition alias_edges (entries : list PnpmEntry) (by_id : id_index) : list (nat * string * nat) :=
  imap pair entries ≫= λ ie,
    omap (λ dk : string * string,
            if contains_key (pnpm_identity dk.1 dk.2) by_id then None
            else real ← by_id !! dk.2; Some (ie.1, dk.1, real))
      (bt_list (pn_dependencies ie.2)).

(** The synthetic entry has the artifact of the real one, and no edges. *)
Definition alias_step (st : list PnpmEntry * id_index) (edge : nat * string * nat)
    : list PnpmEntry * id_index :=
  let '(entries, by_id) := st in
  let '(index, alias_name, real_index) := edge in
  let real := entry_of entries real_index in
  let entries :=
    alter (λ e, with_edges e (<[alias_name := pn_version real]> (pn_dependencies e))
                  (pn_optional_dependencies e) (pn_peer_dependencies e)) index entries in
  let alias_entry :=
    mk_PnpmEntry alias_name (pn_version real) (pn_resolved real) (pn_integrity real) ∅ ∅ ∅
      (pn_os real) (pn_cpu real) in
  (entries ++ [alias_entry], <[pnpm_identity alias_name (pn_version real) := length entries]> by_id).

(** Unlike [alias_step], the edges of the real entry come along. *)
Definition push_alias_entry (entries : list PnpmEntry) (by_id : id_index) (alias_name : string)
    (real_index : nat) : list PnpmEntry * id_index * nat :=
  let real := entry_of entries real_index in
  let alias_entry :=
    mk_PnpmEntry alias_name (pn_version real) (pn_resolved real) (pn_integrity real)
      (pn_dependencies real) (pn_optional_dependencies real) ∅ (pn_os real) (pn_cpu real) in
  let alias_index := length entries in
  (entries ++ [alias_entry], <[pnpm_identity alias_name (pn_version real) := alias_index]> by_id,
   alias_index).

(** ** Importers *)

Definition GROUPS : list string := ["dependencies"; "devDependencies"; "optionalDependencies"].

(** The rows of an importer, with their groups. *)
Definition importer_rows (importer : Yaml) : list (string * string * Yaml) :=
  GROUPS ≫= λ group, (λ row : string * Yaml, (group, row.1, row.2)) <$> opt_entries (yaml_get importer group).

Definition version_field (spec : Yaml) : option string := yaml_get spec "version" ≫= yaml_as_str.
Definition specifier_field (spec : Yaml) : option string := yaml_get spec "specifier" ≫= yaml_as_str.

Definition or_else {A} (a b : option A) : option A := match a with Some x => Some x | None => b end.

(** A manifest-level [npm:] alias. *)
Definition importer_alias (st : list PnpmEntry * id_index) (row : string * string * Yaml)
    : list PnpmEntry * id_index :=
  let '(entries, by_id) := st in
  let '(_, name, spec) := row in
  match version_field spec with
  | None => st
  | Some fields =>
      if starts_with "link:" fields || bool_decide (is_Some (file_target_of fields))
         || starts_with "https://" fields then st
      else
        let normalized := normalize_id fields in
        if contains_key (pnpm_identity name normalized) by_id then st
        else
          match alias_real_name <$> (specifier_field spec ≫= strip_prefix "npm:") with
          | None => st
          | Some real_name =>
              match or_else (by_id !! pnpm_identity real_name normalized) (by_id !! normalized) with
              | None => st
              | Some real_index =>
                  let '(entries, by_id, alias_index) := push_alias_entry entries by_id name real_index in
                  (entries, <[pnpm_identity name normalized := alias_index]> by_id)
              end
          end
  end.

(** Workspace and [file:] links declared by importers. *)
Definition link_row (importer_paths : gset string) (path : string) (links : gmap string string)
    (row : string * string * Yaml) : gmap string string :=
  let '(_, name, spec) := row in
  match (v ← version_field spec; or_else (strip_prefix "link:" v) (file_target_of v)) with
  | Some target =>
      let resolved := normalize_path (path +:+ "/" +:+ target) in
      or_insert name (if bool_decide (resolved ∈ importer_paths) then resolved else target) links
  | None => links
  end.

Definition importer_links (importer_paths : gset string) (importers : list (string * Yaml))
    (links : gmap string string) : gmap string string :=
  foldl (λ links importer, foldl (link_row importer_paths importer.1) links (importer_rows importer.2))
    links importers.

Definition importer_context (links : gmap string string) (path : string) : string :=
  if bool_decide (path = ".") then ""
  else match find (λ nt : string * string, bool_decide (nt.2 = path)) (bt_list links) with
       | Some (name, _) => "node_modules/" +:+ name
       | None => ""
       end.

Record PReach := mk_PReach { pr_prod : bool; pr_optional_only : bool; pr_any_optional : bool }.

Definition group_reach (group : string) : PReach :=
  if bool_decide (group = "dependencies") then mk_PReach true false false
  else if bool_decide (group = "devDependencies") then mk_PReach false false false
  else mk_PReach true true true.

(** An entry, the path of its dependent and how it is reached. *)
Notation seed := (nat * string * PReach)%type.

(** The variables of the importer loop. *)
Record seeding := mk_seeding {
  sd_entries : list PnpmEntry; sd_seeds : list seed; sd_patched : gset string;
  sd_root : gmap string string; sd_root_dev : gset string; sd_root_optional : gset string;
  sd_diagnostics : list Diagnostic }.

Section seeds.
Context `{Dbg : DebugFormat}.
Variable by_id : id_index.

(** The closure [lookup]. *)
Definition pnpm_lookup (name key : string) : option nat :=
  or_else (by_id !! pnpm_identity name key) (by_id !! key).

Definition seed_reach (importer_path : string) (kind : PReach) : PReach :=
  let root := bool_decide (importer_path = ".") in
  mk_PReach (pr_prod kind || negb root) (pr_optional_only kind && root)
    (pr_any_optional kind || pr_optional_only kind).

(** A seed is added unless its entry is one already. *)
Definition push_seed (index : nat) (context : string) (reach : PReach) (seeds : list seed) : list seed :=
  if existsb (λ s : seed, (s.1.1 =? index)%nat) seeds then seeds else seeds ++ [(index, context, reach)].

(** A declared root edge keeps the manifest's specifier. *)
Definition declare_root (importer_path name : string) (spec : Yaml) (fallback : string)
    (root : gmap string string) : gmap string string :=
  if bool_decide (importer_path = ".")
  then or_insert name (default fallback (specifier_field spec)) root
  else root.

Definition missing_resolution (name normalized : string) : Diagnostic :=
  Diagnostic_new Warning "PNPM_MISSING_RESOLUTION"
    ("no packages entry satisfies " +:+ name +:+ " " +:+ str_debug normalized).

Definition with_root (st : seeding) (root : gmap string string) : seeding :=
  mk_seeding (sd_entries st) (sd_seeds st) (sd_patched st) root (sd_root_dev st)
    (sd_root_optional st) (sd_diagnostics st).

(** A [file:] row: a link that contributes its dependencies. *)
Definition file_row (importer_path context name fields : string) (kind : PReach) (st : seeding) : seeding :=
  match by_id !! fields with
  | Some index =>
      mk_seeding (alter (λ e, with_name e name) index (sd_entries st))
        (push_seed index context (seed_reach importer_path kind) (sd_seeds st)) (sd_patched st)
        (sd_root st) (sd_root_dev st) (sd_root_optional st) (sd_diagnostics st)
  | None => st
  end.

(** A registry row. *)
Definition registry_row (importer_path context name fields : string) (kind : PReach) (spec : Yaml)
    (st : seeding) : seeding :=
  let root := bool_decide (importer_path = ".") in
  let normalized := normalize_id fields in
  if root && contains_key name (sd_root st) then st
  else
    match pnpm_lookup name normalized with
    | Some index =>
        let entry := entry_of (sd_entries st) index in
        mk_seeding (sd_entries st)
          (push_seed index context (seed_reach importer_path kind) (sd_seeds st))
          (match patch_marker_at fields with
           | Some _ => {[ pnpm_identity (pn_name entry) (pn_version entry) ]} ∪ sd_patched st
           | None => sd_patched st
           end)
          (if root then <[name := default normalized (specifier_field spec)]> (sd_root st) else sd_root st)
          (if root && negb (pr_prod kind) then {[ name ]} ∪ sd_root_dev st else sd_root_dev st)
          (if root && pr_prod kind && pr_optional_only kind
           then {[ name ]} ∪ sd_root_optional st else sd_root_optional st)
          (sd_diagnostics st)
    | None =>
        if root && negb (starts_with "https://" fields) then
          mk_seeding (sd_entries st) (sd_seeds st) (sd_patched st) (sd_root st) (sd_root_dev st)
            (sd_root_optional st) (sd_diagnostics st ++ [missing_resolution name normalized])
        else st
    end.

Definition seed_row (importer_path context : string) (st : seeding) (row : string * string * Yaml)
    : seeding :=
  let '(group, name, spec) := row in
  match version_field spec with
  | None => st
  | Some fields =>
      if starts_with "link:" fields then
        with_root st (declare_root importer_path name spec fields (sd_root st))
      else if bool_decide (is_Some (file_target_of fields)) then
        file_row importer_path context name fields (group_reach group)
          (with_root st (declare_root importer_path name spec fields (sd_root st)))
      else registry_row importer_path context name fields (group_reach group) spec st
  end.

Definition unlinked_importer (path : string) : Diagnostic :=
  Diagnostic_new Info "PNPM_UNLINKED_IMPORTER"
    ("importer " +:+ str_debug path +:+
     " is not linked by any workspace; its dependencies are not part of the installed graph").

Definition seed_importer (links : gmap string string) (st : seeding) (importer : string * Yaml) : seeding :=
  let '(path, body) := importer in
  let context := importer_context links path in
  if negb (bool_decide (path = ".")) && is_empty context then
    mk_seeding (sd_entries st) (sd_seeds st) (sd_patched st) (sd_root st) (sd_root_dev st)
      (sd_root_optional st) (sd_diagnostics st ++ [unlinked_importer path])
  else foldl (seed_row path context) st (importer_rows body).
End seeds.

(** ** Placement *)

Record pnpm_walk_state := mk_pnpm_walk {
  pw_queue : list seed; pw_visited : gset (nat * string); pw_reach : gmap string PReach;
  pw_placer : Placer; pw_placed : list (nat * string); pw_emitted : gset string }.

Section walk.
Variable entries : list PnpmEntry.
Variable by_id : id_index.

(** The queue entries for the dependencies of an entry placed at a path. *)
Definition pnpm_children (index : nat) (path : string) (kind : PReach) : list seed :=
  let entry := entry_of entries index in
  bt_list (pn_dependencies entry) ≫= λ dep,
    match pnpm_lookup by_id dep.1 dep.2 with
    | Some dep_index =>
        let optional := bool_decide (dep.1 ∈ pn_optional_dependencies entry) in
        [(dep_index, path, mk_PReach (pr_prod kind) (pr_optional_only kind && optional) optional)]
    | None => []
    end.

Definition merge_kind (existing kind : PReach) : PReach :=
  mk_PReach (pr_prod existing || pr_prod kind) (pr_optional_only existing)
    (pr_any_optional existing || pr_any_optional kind).

Definition is_file_entry (entry : PnpmEntry) : bool := starts_with "file:" (pn_version entry).

(** One turn of the [while let] loop. *)
Definition pnpm_step (w : pnpm_walk_state) (item : seed) (queue : list seed) : pnpm_walk_state :=
  let '(index, dependent, kind) := item in
  let entry := entry_of entries index in
  let seen := bool_decide ((index, dependent) ∈ pw_visited w) in
  let visited := {[ (index, dependent) ]} ∪ pw_visited w in
  let id := pnpm_identity (pn_name entry) (pn_version entry) in
  if is_file_entry entry then
    if seen then
      mk_pnpm_walk queue (pw_visited w) (pw_reach w) (pw_placer w) (pw_placed w) (pw_emitted w)
    else
      let link_context := if is_empty (pn_name entry) then "" else "node_modules/" +:+ pn_name entry in
      mk_pnpm_walk (queue ++ pnpm_children index link_context kind) visited (pw_reach w)
        (pw_placer w) (pw_placed w) (pw_emitted w)
  else if seen then
    mk_pnpm_walk queue (pw_visited w) (alter (λ e, merge_kind e kind) id (pw_reach w)) (pw_placer w)
      (pw_placed w) (pw_emitted w)
  else
    let reach := <[id := merge_kind (default kind (pw_reach w !! id)) kind]> (pw_reach w) in
    let '(placer, path) := place (pw_placer w) (pn_name entry) (pn_version entry) dependent in
    mk_pnpm_walk (queue ++ pnpm_children index path kind) visited reach placer
      (if bool_decide (path ∈ pw_emitted w) then pw_placed w else pw_placed w ++ [(index, path)])
      ({[ path ]} ∪ pw_emitted w).

(** [None] is running out of fuel. *)
Fixpoint pnpm_walk (fuel : nat) (w : pnpm_walk_state) : option pnpm_walk_state :=
  match pw_queue w with
  | [] => Some w
  | item :: queue =>
      match fuel with
      | 0 => None
      | S fuel => pnpm_walk fuel (pnpm_step w item queue)
      end
  end.
End walk.

(** ** The report *)

(** A target that leaves the project by its text. *)
Definition path_escapes (target : string) : bool :=
  starts_with "../" target || starts_with_char "/" target
  || existsb (λ segment, bool_decide (segment = "..")) (split_char "/" target).

Section report.
Context `{Dbg : DebugFormat}.
(** [project_root.join(path).is_file()] and [.is_dir()]. *)
Variables is_file is_dir : string → bool.

Inductive overlay := NoOverlay | Overlay (patch : string) | Refused (d : Diagnostic).

Definition patch_refused (identity patch : string) : Diagnostic :=
  Diagnostic_new Warning "PNPM_PATCH_UNSUPPORTED"
    ("patched package " +:+ str_debug identity +:+ " declares patch file " +:+ str_debug patch +:+
     ", which is missing or outside the project; it cannot be imported").
Definition patch_undeclared (identity : string) : Diagnostic :=
  Diagnostic_new Warning "PNPM_PATCH_UNSUPPORTED"
    ("patched package " +:+ str_debug identity +:+
     " has no patchedDependencies entry; declare it with a patch file inside the project").

Definition entry_overlay (flags : gset string) (patches : gmap string string) (entry : PnpmEntry)
    : overlay :=
  let identity := pnpm_identity (pn_name entry) (pn_version entry) in
  if bool_decide (identity ∈ flags) then
    match or_else (patches !! identity) (patches !! pn_name entry) with
    | Some patch =>
        if path_escapes patch || negb (is_file patch) then Refused (patch_refused identity patch)
        else Overlay patch
    | None => Refused (patch_undeclared identity)
    end
  else NoOverlay.

Definition pnpm_package (reach : gmap string PReach) (entry : PnpmEntry) (path : string) : PackageEntry :=
  let kind := default (mk_PReach true false false)
                (reach !! pnpm_identity (pn_name entry) (pn_version entry)) in
  mk_PackageEntry path (pn_name entry) (pn_version entry) (pn_resolved entry) None
    (pn_integrity entry) false (negb (pr_prod kind)) (pr_any_optional kind) (pn_os entry)
    (pn_cpu entry) ∅ (pn_dependencies entry).

Definition patch_resolution (reach : gmap string PReach) (entry : PnpmEntry) (patch : string)
    : PackageResolution :=
  let kind := default (mk_PReach true false false)
                (reach !! pnpm_identity (pn_name entry) (pn_version entry)) in
  mk_PackageResolution (LSPatch (LSRegistry "https://registry.npmjs.org") patch) (negb (pr_prod kind))
    false [] ∅ ∅ ∅ ∅ ∅ None false.

Record report_state := mk_report_state {
  rs_packages : list PackageEntry; rs_resolution : gmap string PackageResolution;
  rs_diagnostics : list Diagnostic }.

Definition report_package (entries : list PnpmEntry) (reach : gmap string PReach)
    (flags : gset string) (patches : gmap string string) (st : report_state)
    (placed : nat * string) : report_state :=
  let '(index, path) := placed in
  let entry := entry_of entries index in
  match entry_overlay flags patches entry with
  | Refused d => mk_report_state (rs_packages st) (rs_resolution st) (rs_diagnostics st ++ [d])
  | NoOverlay =>
      mk_report_state (rs_packages st ++ [pnpm_package reach entry path]) (rs_resolution st)
        (rs_diagnostics st)
  | Overlay patch =>
      mk_report_state (rs_packages st ++ [pnpm_package reach entry path])
        (<[path := patch_resolution reach entry patch]> (rs_resolution st)) (rs_diagnostics st)
  end.

Definition link_refused (name target : string) : Diagnostic :=
  Diagnostic_new Warning "PNPM_LINK_OUTSIDE_PROJECT"
    ("workspace link " +:+ str_debug name +:+ " -> " +:+ str_debug target +:+
     " is outside the project or missing; convert the layout so workspaces live inside one project root").

Definition link_package (name target : string) : PackageEntry :=
  mk_PackageEntry ("node_modules/" +:+ name) name "" target (Some target) None true false false [] []
    ∅ ∅.

Definition report_link (st : report_state) (link : string * string) : report_state :=
  let '(name, target) := link in
  if path_escapes target || negb (is_dir target) then
    mk_report_state (rs_packages st) (rs_resolution st) (rs_diagnostics st ++ [link_refused name target])
  else mk_report_state (rs_packages st ++ [link_package name target]) (rs_resolution st) (rs_diagnostics st).

(** ** The import *)

Definition multiple_contexts (count : nat) : Diagnostic :=
  Diagnostic_new Info "PNPM_MULTIPLE_CONTEXTS"
    ("lockfile contains " +:+ pretty count +:+ " install contexts; importing the largest graph").

(** Everything up to the walk. *)
Record pnpm_graph := mk_pnpm_graph {
  pg_entries : list PnpmEntry; pg_by_id : id_index; pg_seeds : list seed;
  pg_links : gmap string string; pg_patched : gset string; pg_patches : gmap string string;
  pg_root : gmap string string; pg_diagnostics : list Diagnostic }.

(** Entries and links once packages and snapshots are merged. *)
Definition merged_entries (importers packages : Yaml) (snapshots : option Yaml)
    : list PnpmEntry * gmap string string :=
  let importer_paths := list_to_set (yaml_entries importers).*1 : gset string in
  let '(entries, by_id) := collect_packages packages in
  foldl (snapshot_step importer_paths by_id) (entries, ∅) (opt_entries snapshots).

(** The entries with their names, and with the aliases of dependencies and
    importers. *)
Definition expanded_entries (importers : Yaml) (retained : list PnpmEntry) : list PnpmEntry * id_index :=
  let by_id := index_ids retained in
  let st := foldl alias_step (retained, by_id) (alias_edges retained by_id) in
  foldl (λ st importer, foldl importer_alias st (importer_rows importer.2)) st (yaml_entries importers).

Definition pnpm_graph_of (documents : list Yaml) (workspace_yaml : option string)
    (manifest_value : option Value) : result PnpmLockError pnpm_graph :=
  match documents with
  | [] => Err NoLockfileContent
  | first :: others =>
      let document := largest_document first others in
      let contexts := if (1 <? length documents)%nat then [multiple_contexts (length documents)] else [] in
      importers ← ok_or NoImporters (yaml_get document "importers");
      packages ← ok_or NoPackages (yaml_get document "packages");
      patches ← merged_patch_paths document workspace_yaml manifest_value;
      let importer_paths := list_to_set (yaml_entries importers).*1 : gset string in
      let '(merged, links) := merged_entries importers packages (yaml_get document "snapshots") in
      let named := attach_name merged <$> merged in
      let unnamed := unnamed_warning <$> filter (λ e, keep_entry e = false) named in
      let retained := filter (λ e, keep_entry e = true) named in
      let '(entries, by_id) := expanded_entries importers retained in
      let links := importer_links importer_paths (yaml_entries importers) links in
      let st := foldl (seed_importer by_id links)
                  (mk_seeding entries [] ∅ ∅ ∅ ∅ (contexts ++ unnamed)) (yaml_entries importers) in
      Ok (mk_pnpm_graph (sd_entries st) by_id (sd_seeds st) links (sd_patched st) patches (sd_root st)
            (sd_diagnostics st))
  end.

Definition pnpm_start (g : pnpm_graph) : pnpm_walk_state :=
  mk_pnpm_walk (pg_seeds g) ∅ ∅ Placer_default [] ∅.

Definition report_packages (g : pnpm_graph) (w : pnpm_walk_state) : report_state :=
  foldl report_link
    (foldl (report_package (pg_entries g) (pw_reach w) (pg_patched g) (pg_patches g))
       (mk_report_state [] ∅ (pg_diagnostics g)) (pw_placed w))
    (bt_list (pg_links g)).

Definition pnpm_report (m : PackageManifest) (g : pnpm_graph) (w : pnpm_walk_state) : ImportReport :=
  let st := report_packages g w in
  let lock := Lockfile_new "bpm" in
  let root := RootResolution_default in
  mk_ImportReport
    (sort_packages
       (mk_Lockfile (lf_lockfile_version lock) (lf_generator lock)
          (mk_RootEntry (Some (default "root" (mf_name m))) (mf_version m) (pg_root g))
          (rs_packages st)
          (mk_ResolutionMetadata
             (mk_RootResolution (mf_dev_dependencies m) (mf_optional_dependencies m)
                (rr_overrides root) (rr_workspace_patterns root) (rr_workspace_index_digest root)
                (rr_target root) (rr_peer_mode root))
             (rs_resolution st) ∅)))
    (sort_diagnostics (rs_diagnostics st)).

(** [import_pnpm_v9], from the text of the lock on; [None] is running out of
    fuel. *)
Definition import_pnpm_v9 (fuel : nat) (text : string) (m : PackageManifest)
    (workspace_yaml : option string) (manifest_value : option Value)
    : result PnpmLockError (option ImportReport) :=
  documents ← map_err PnpmParse (parse_documents text);
  g ← pnpm_graph_of documents workspace_yaml manifest_value;
  Ok (pnpm_report m g <$> pnpm_walk (pg_entries g) (pg_by_id g) fuel (pnpm_start g)).
End report.
