(* ===== verification/PnpmTheory.v ===== *)
(** * The pnpm import: provenance, confinement and termination

    Every imported package has the artifact of a row of the lock's [packages]
    section; every link and every patch stays inside the project, and a package
    whose id carries a patch hash is never imported without its patch.  Over an
    acyclic graph the walk returns. *)

From S2P Require Export Worklist Pnpm.
From Stdlib Require Import Ascii.

(** ** Provenance of entries *)

(** The fields that say what is fetched. *)
Definition same_artifact (e e0 : PnpmEntry) : Prop :=
  pn_version e = pn_version e0 ∧ pn_resolved e = pn_resolved e0 ∧
  pn_integrity e = pn_integrity e0 ∧ pn_os e = pn_os e0 ∧ pn_cpu e = pn_cpu e0.

Definition from_row (packages : list (string * Yaml)) (e : PnpmEntry) : Prop :=
  ∃ id metadata e0, (id, metadata) ∈ packages ∧
    pnpm_package_entry (normalize_id id) metadata = Some e0 ∧ same_artifact e e0.

(** Every index of a table is a position. *)
Definition in_range (entries : list PnpmEntry) (by_id : id_index) : Prop :=
  ∀ k i, by_id !! k = Some i → i < length entries.

Section provenance.
Variable packages : list (string * Yaml).
Notation from_row := (from_row packages).

Definition table_ok (st : list PnpmEntry * id_index) : Prop :=
  Forall from_row st.1 ∧ in_range st.1 st.2.

Lemma in_range_insert entries by_id k i :
  i < length entries → in_range entries by_id → in_range entries (<[k := i]> by_id).
Proof using.
  intros Hi Hr k' j. destruct (decide (k = k')) as [->|Hne].
  - rewrite lookup_insert_eq. by intros [= <-].
  - rewrite lookup_insert_ne by done. apply Hr.
Qed.

Lemma in_range_mono entries entries' by_id :
  length entries ≤ length entries' → in_range entries by_id → in_range entries' by_id.
Proof using. intros Hl Hr k i Hk. apply Hr in Hk. lia. Qed.

Lemma entry_of_row entries i : Forall from_row entries → i < length entries → from_row (entry_of entries i).
Proof using.
  intros Hf Hi. unfold entry_of. destruct (lookup_lt_is_Some_2 entries i Hi) as [e He].
  rewrite He. simpl. rewrite Forall_lookup in Hf. by eapply Hf.
Qed.

Lemma from_row_edges e deps opt peers : from_row (with_edges e deps opt peers) ↔ from_row e.
Proof using. done. Qed.
Lemma from_row_name e name : from_row (with_name e name) ↔ from_row e.
Proof using. done. Qed.

Lemma Forall_alter_row (f : PnpmEntry → PnpmEntry) i entries :
  (∀ e, from_row e → from_row (f e)) → Forall from_row entries → Forall from_row (alter f i entries).
Proof using.
  intros Hf Hl. apply Forall_lookup. intros j e. rewrite Forall_lookup in Hl.
  destruct (decide (i = j)) as [->|Hne].
  - rewrite list_lookup_alter_eq. intros (e' & He & ->)%fmap_Some. by eapply Hf, Hl.
  - rewrite list_lookup_alter_ne by done. apply Hl.
Qed.

Lemma collect_ok y : yaml_entries y = packages → table_ok (collect_packages y).
Proof using.
  intros Hy. unfold collect_packages. apply foldl_inv; [|split; [apply Forall_nil_2|intros k i; cbn [snd]; by rewrite lookup_empty]].
  intros [entries by_id] [id metadata] Hin [Hf Hr]. rewrite Hy in Hin. unfold package_step. cbn [fst snd].
  destruct (contains_key _ _); [done|]. destruct (pnpm_package_entry _ _) as [e|] eqn:He; [|done].
  split; cbn [fst snd] in *.
  - apply Forall_app. split; [done|]. constructor; [|done]. exists id, metadata, e.
    by repeat (split; [done|]).
  - apply in_range_insert; [rewrite length_app; simpl; lia|].
    eapply in_range_mono; [|exact Hr]. rewrite length_app. lia.
Qed.

Lemma snapshot_edges_row importer_paths by_id e links edges :
  from_row e → from_row (snapshot_edges importer_paths by_id e links edges).1.
Proof using.
  intros He. unfold snapshot_edges.
  destruct (foldl (dependency_edge importer_paths) (e, links) _) as [e1 links1] eqn:H1. cbn [fst].
  apply foldl_inv.
  { intros b [dep target] _ Hb. unfold peer_edge. destruct (_ <$> _); [|done]. by destruct (contains_key _ _). }
  apply foldl_inv.
  { intros b [dep target] _ Hb. unfold optional_edge. by destruct (_ <$> _). }
  pose proof (foldl_inv (λ st : PnpmEntry * gmap string string, from_row st.1)
    (dependency_edge importer_paths) (opt_entries (yaml_get edges "dependencies")) (e, links)) as H.
  rewrite H1 in H. apply H; [|done]. intros [b l] [dep target] _ Hb. unfold dependency_edge.
  destruct (_ ≫= _); [done|]. by destruct (_ <$> _).
Qed.

Lemma merged_ok importers y snapshots :
  yaml_entries y = packages → Forall from_row (merged_entries importers y snapshots).1.
Proof using.
  intros Hy. pose proof (collect_ok y Hy) as [Hf _]. unfold merged_entries.
  destruct (collect_packages y) as [entries by_id]. cbn [fst] in Hf.
  apply (foldl_inv (λ st : list PnpmEntry * gmap string string, Forall from_row st.1)); [|done].
  intros [es links] [id edges] _ Hes. unfold snapshot_step. cbn [fst snd].
  destruct (by_id !! _ ≫= _) as [[i e]|] eqn:Hi; [|done].
  apply bind_Some in Hi as (j & _ & (e' & He & [= -> ->])%fmap_Some).
  pose proof (snapshot_edges_row (list_to_set (yaml_entries importers).*1) by_id e' links edges) as Hrow.
  destruct (snapshot_edges _ _ e' links edges) as [e1 l1]. cbn [fst] in *.
  apply Forall_insert; [done|]. apply Hrow. rewrite Forall_lookup in Hes. by eapply Hes.
Qed.

Lemma attach_ok entries all : Forall from_row entries → Forall from_row (attach_name all <$> entries).
Proof using.
  rewrite Forall_fmap. intros Hf. eapply Forall_impl; [exact Hf|]. intros e He. unfold attach_name. simpl.
  destruct (is_empty _); [|done]. by destruct (referring_name _ _).
Qed.

Lemma index_ids_ok entries : in_range entries (index_ids entries).
Proof using.
  unfold index_ids. apply foldl_inv; [|intros k i; by rewrite lookup_empty].
  intros by_id [i e] (j & x & [= -> ->] & Hx)%elem_of_lookup_imap Hr. apply in_range_insert; [|done].
  by apply lookup_lt_Some in Hx.
Qed.

Lemma alias_edges_real entries by_id edge :
  in_range entries by_id → edge ∈ alias_edges entries by_id → edge.2 < length entries.
Proof using.
  intros Hr ([i e] & Hin & _)%list_elem_of_bind. apply list_elem_of_omap in Hin as ([d k] & _ & H).
  destruct (contains_key _ _); [done|]. apply bind_Some in H as (real & Hk & [= <-]). by eapply Hr.
Qed.

Lemma alias_step_ok st edge :
  edge.2 < length st.1 → table_ok st →
  table_ok (alias_step st edge) ∧ length (alias_step st edge).1 = S (length st.1).
Proof using.
  destruct st as [entries by_id], edge as [[i name] real]. cbn [fst snd]. intros Hreal [Hf Hr].
  unfold alias_step. cbn [fst snd] in *. set (entries' := alter _ i entries).
  assert (length entries' = length entries) as Hl by apply length_alter.
  split; [|cbn [fst]; rewrite length_app; simpl; lia]. split; cbn [fst snd].
  - apply Forall_app. split; [by apply Forall_alter_row|]. constructor; [|done].
    destruct (entry_of_row entries real Hf Hreal) as (id & md & e0 & H1 & H2 & H3).
    exists id, md, e0. split; [done|]. split; [done|]. exact H3.
  - apply in_range_insert; [rewrite length_app; simpl; lia|].
    eapply in_range_mono; [|exact Hr]. rewrite length_app. lia.
Qed.

Lemma importer_alias_ok st row : table_ok st → table_ok (importer_alias st row).
Proof using.
  destruct st as [entries by_id], row as [[g name] spec]. intros Hst. unfold importer_alias.
  destruct (version_field spec) as [fields|]; [|done]. destruct (_ || _); [done|].
  destruct (contains_key _ _); [done|]. destruct (alias_real_name <$> _) as [rn|]; [|done].
  destruct (or_else _ _) as [real|] eqn:Ho; [|done]. destruct Hst as [Hf Hr]. cbn [fst snd] in *.
  assert (real < length entries) as Hreal.
  { unfold or_else in Ho. destruct (by_id !! pnpm_identity rn _) as [x|] eqn:Hx.
    - injection Ho as ->. by eapply Hr.
    - by eapply Hr. }
  unfold push_alias_entry. split; cbn [fst snd].
  - apply Forall_app. split; [done|]. constructor; [|done].
    destruct (entry_of_row entries real Hf Hreal) as (id & md & e0 & H1 & H2 & H3).
    exists id, md, e0. split; [done|]. split; [done|]. exact H3.
  - do 2 (apply in_range_insert; [rewrite length_app; simpl; lia|]).
    eapply in_range_mono; [|exact Hr]. rewrite length_app. lia.
Qed.

Lemma expanded_ok importers retained :
  Forall from_row retained → table_ok (expanded_entries importers retained).
Proof using.
  intros Hf. unfold expanded_entries.
  apply foldl_inv.
  { intros st [path body] _ Hst. apply foldl_inv; [|done]. intros st' row _. apply importer_alias_ok. }
  pose proof (index_ids_ok retained) as Hr.
  apply (foldl_inv (λ st, table_ok st ∧ length retained ≤ length st.1)); [|done].
  intros st edge He [Hst Hl]. pose proof (alias_edges_real _ _ _ Hr He) as Hreal.
  destruct (alias_step_ok st edge) as [H1 H2]; [lia|done|]. split; [done|lia].
Qed.

(** ** Seeds *)

Section seeds.
Context `{Dbg : DebugFormat}.
Variables (by_id : id_index) (n : nat).
Hypothesis Hby : ∀ k i, by_id !! k = Some i → i < n.

Record seeding_ok (st : seeding) : Prop := mk_seeding_ok {
  so_rows : Forall from_row (sd_entries st);
  so_length : length (sd_entries st) = n;
  so_seeds : Forall (λ s : seed, s.1.1 < n) (sd_seeds st) }.

Lemma push_seed_ok i context reach seeds :
  i < n → Forall (λ s : seed, s.1.1 < n) seeds →
  Forall (λ s : seed, s.1.1 < n) (push_seed i context reach seeds).
Proof using.
  intros Hi Hs. unfold push_seed. destruct (existsb _ _); [done|].
  apply Forall_app. split; [done|]. by constructor.
Qed.

Lemma pnpm_lookup_range name key i : pnpm_lookup by_id name key = Some i → i < n.
Proof using Hby.
  unfold pnpm_lookup, or_else. destruct (by_id !! pnpm_identity name key) as [j|] eqn:Hj.
  - intros [= ->]. by eapply Hby.
  - apply Hby.
Qed.

Lemma seed_row_ok path context st row : seeding_ok st → seeding_ok (seed_row by_id path context st row).
Proof using Hby.
  destruct row as [[group name] spec]. intros [H1 H2 H3]. unfold seed_row.
  destruct (version_field spec) as [fields|]; [|done]. destruct (starts_with _ _); [done|].
  destruct (bool_decide _).
  - unfold file_row. destruct (by_id !! fields) as [i|] eqn:Hi; [|done].
    constructor; cbn [sd_entries sd_seeds with_root].
    + by apply Forall_alter_row.
    + by rewrite length_alter.
    + apply push_seed_ok; [by eapply Hby|done].
  - unfold registry_row. destruct (_ && _); [done|].
    destruct (pnpm_lookup by_id name _) as [i|] eqn:Hi.
    + constructor; [done|done|]. apply push_seed_ok; [by eapply pnpm_lookup_range|done].
    + by destruct (_ && _).
Qed.

Lemma seed_importer_ok links st importer :
  seeding_ok st → seeding_ok (seed_importer by_id links st importer).
Proof using Hby.
  destruct importer as [path body]. intros Hst. unfold seed_importer. destruct (_ && _).
  - by destruct Hst.
  - apply foldl_inv; [|done]. intros b row _. apply seed_row_ok.
Qed.
End seeds.
End provenance.

(** ** The graph *)

Lemma Forall_filter_bool {A} (P : A → Prop) (f : A → bool) l :
  Forall P l → Forall P (filter (λ x, f x = true) l).
Proof. rewrite !Forall_forall. intros H x [_ Hx]%list_elem_of_filter. by apply H. Qed.

(** Every index the walk starts from or looks up is a position, and every entry
    comes from a row of [packages]. *)
Lemma pnpm_graph_of_ok `{Dbg : DebugFormat} docs ws mv g :
  pnpm_graph_of docs ws mv = Ok g →
  ∃ document packages, document ∈ docs ∧ yaml_get document "packages" = Some packages ∧
    Forall (from_row (yaml_entries packages)) (pg_entries g) ∧
    in_range (pg_entries g) (pg_by_id g) ∧
    Forall (λ s : seed, s.1.1 < length (pg_entries g)) (pg_seeds g).
Proof.
  unfold pnpm_graph_of. destruct docs as [|first others]; [done|].
  set (document := largest_document first others). intros H.
  apply bind_Ok in H as (importers & _ & H). apply bind_Ok in H as (packages & Hp%ok_or_Ok & H).
  apply bind_Ok in H as (patches & _ & H). exists document, packages.
  assert (document ∈ first :: others) as Hin.
  { unfold document, largest_document.
    apply (foldl_inv (λ b, b ∈ first :: others)); [|by left]. intros b a Ha Hb. cbv beta.
    destruct (package_count b <? package_count a)%nat; [|done]. apply elem_of_cons. by right. }
  split; [done|]. split; [done|].
  pose proof (merged_ok (yaml_entries packages) importers packages (yaml_get document "snapshots") eq_refl) as Hm.
  destruct (merged_entries _ _ _) as [merged links]. cbn [fst] in Hm.
  set (retained := filter _ _) in H.
  assert (Forall (from_row (yaml_entries packages)) retained) as Hr
    by by apply Forall_filter_bool, attach_ok.
  apply (expanded_ok _ importers) in Hr as [He Hby].
  destruct (expanded_entries importers retained) as [entries by_id]. cbn [fst snd] in *.
  injection H as <-. cbn [pg_entries pg_by_id pg_seeds].
  set (st := foldl _ _ _).
  assert (seeding_ok (yaml_entries packages) (length entries) st) as [H1 H2 H3].
  { unfold st. apply foldl_inv; [intros b a _; by apply seed_importer_ok|].
    constructor; [done|done|]. cbn. constructor. }
  split; [done|]. split; [|by rewrite H2]. intros k i Hk. rewrite H2. by eapply Hby.
Qed.

(** ** The walk *)

Section walk.
Variables (entries : list PnpmEntry) (by_id : id_index).
Hypothesis Hby : in_range entries by_id.
Notation n := (length entries).

Record walk_ok (w : pnpm_walk_state) : Prop := mk_walk_ok {
  wk_queue : Forall (λ s : seed, s.1.1 < n) (pw_queue w);
  wk_placed : Forall (λ p : nat * string, p.1 < n) (pw_placed w) }.

Lemma children_range index path kind :
  Forall (λ s : seed, s.1.1 < n) (pnpm_children entries by_id index path kind).
Proof using Hby.
  apply Forall_forall. intros s ([d k] & Hs & _)%list_elem_of_bind. cbn [fst snd] in Hs.
  destruct (pnpm_lookup by_id d k) as [j|] eqn:Hj; [|by apply not_elem_of_nil in Hs].
  apply list_elem_of_singleton in Hs as ->. cbn. by eapply pnpm_lookup_range.
Qed.

Lemma pnpm_step_ok w item queue :
  pw_queue w = item :: queue → walk_ok w → walk_ok (pnpm_step entries by_id w item queue).
Proof using Hby.
  destruct item as [[i d] kind]. intros Hq [H1 H2]. rewrite Hq in H1.
  apply Forall_cons in H1 as [Hi H1]. cbn in Hi. unfold pnpm_step.
  destruct (is_file_entry _).
  - case_bool_decide; constructor; cbn [pw_queue pw_placed]; try done.
    apply Forall_app. split; [done|]. apply children_range.
  - case_bool_decide; [by constructor|]. destruct (place _ _ _ _) as [pl path].
    constructor; cbn [pw_queue pw_placed].
    + apply Forall_app. split; [done|]. apply children_range.
    + case_bool_decide; [done|]. apply Forall_app. split; [done|]. by constructor.
Qed.

Lemma pnpm_walk_ok fuel w w' :
  pnpm_walk entries by_id fuel w = Some w' → walk_ok w → walk_ok w'.
Proof using Hby.
  revert w. induction fuel as [|fuel IH]; intros w; simpl; destruct (pw_queue w) as [|item queue] eqn:Hq;
    try done; try (by intros [= <-]).
  intros H Hw. eapply IH; [done|]. by apply pnpm_step_ok.
Qed.

(** *** Termination *)

(** The entries an entry's dependencies lead to. *)
Definition pnpm_targets (index : nat) : list nat :=
  omap (λ d : string * string, pnpm_lookup by_id d.1 d.2)
    (bt_list (pn_dependencies (entry_of entries index))).

Lemma children_targets index path kind :
  (λ s : seed, s.1.1) <$> pnpm_children entries by_id index path kind = pnpm_targets index.
Proof using.
  unfold pnpm_children, pnpm_targets.
  induction (bt_list (pn_dependencies (entry_of entries index))) as [|[d k] l IH]; [done|].
  rewrite bind_cons, fmap_app, IH. simpl. by destruct (pnpm_lookup by_id d k).
Qed.

Context (rank : nat → nat) (Hrank : ∀ i j, j ∈ pnpm_targets i → rank j < rank i).
Notation price := (price pnpm_targets rank).

Definition pnpm_turns (queue : list seed) : nat := weight_sum price ((λ s : seed, s.1.1) <$> queue).

Lemma pnpm_turns_step w item queue :
  pnpm_turns (pw_queue (pnpm_step entries by_id w item queue)) < pnpm_turns (item :: queue).
Proof using Hrank.
  destruct item as [[i d] kind]. unfold pnpm_turns. rewrite fmap_cons.
  cbn [fst weight_sum foldr]. fold (weight_sum price ((λ s : seed, s.1.1) <$> queue)).
  pose proof (price_pos pnpm_targets rank i) as Hpos.
  pose proof (price_children pnpm_targets rank Hrank i) as Hc.
  assert (∀ path, weight_sum price ((λ s : seed, s.1.1) <$> (queue ++ pnpm_children entries by_id i path kind)) <
                  price i + weight_sum price ((λ s : seed, s.1.1) <$> queue)) as Hgo.
  { intros path. rewrite fmap_app, weight_sum_app, children_targets. lia. }
  unfold pnpm_step. destruct (is_file_entry _); case_bool_decide; cbn [pw_queue]; try lia; [apply Hgo|].
  destruct (place _ _ _ _) as [pl path]. cbn [pw_queue]. apply Hgo.
Qed.

Lemma pnpm_walk_returns fuel w :
  pnpm_turns (pw_queue w) ≤ fuel → ∃ w', pnpm_walk entries by_id fuel w = Some w'.
Proof using Hrank.
  revert w. induction fuel as [|fuel IH]; intros w Hf; simpl;
    destruct (pw_queue w) as [|item queue] eqn:Hq; [by eexists| |by eexists|].
  - exfalso. pose proof (pnpm_turns_step w item queue). lia.
  - apply IH. pose proof (pnpm_turns_step w item queue). lia.
Qed.
End walk.

(** ** The report *)

Section report.
Context `{Dbg : DebugFormat}.
Variables is_file is_dir : string → bool.

(** A target inside the project, tested there. *)
Definition inside (test : string → bool) (target : string) : Prop :=
  path_escapes target = false ∧ test target = true.

(** A workspace link: its target is a directory of the project. *)
Definition link_ok (p : PackageEntry) : Prop :=
  pe_link p = true ∧ pe_integrity p = None ∧
  pe_workspace_target p = Some (pe_resolved p) ∧ inside is_dir (pe_resolved p).

(** A package: the artifact of a row of [packages], with SHA-512 integrity or
    none; patched by a file of the project when its id is flagged. *)
Definition package_ok (packages : list (string * Yaml)) (flags : gset string)
    (resolution : gmap string PackageResolution) (p : PackageEntry) : Prop :=
  pe_link p = false ∧ pe_workspace_target p = None ∧
  (∃ id metadata row, (id, metadata) ∈ packages ∧
     pnpm_package_entry (normalize_id id) metadata = Some row ∧
     pe_version p = pn_version row ∧ pe_resolved p = pn_resolved row ∧
     pe_integrity p = pn_integrity row ∧ pe_os p = pn_os row ∧ pe_cpu p = pn_cpu row) ∧
  (∀ i, pe_integrity p = Some i → starts_with "sha512-" i = true) ∧
  (pnpm_identity (pe_name p) (pe_version p) ∈ flags → is_Some (resolution !! pe_path p)).

Definition patch_ok (r : PackageResolution) : Prop :=
  ∃ source patch, pres_source r = LSPatch source patch ∧ inside is_file patch.

Record report_ok (packages : list (string * Yaml)) (flags : gset string) (st : report_state) : Prop :=
  mk_report_ok {
    ro_packages : ∀ p, p ∈ rs_packages st →
      link_ok p ∨ package_ok packages flags (rs_resolution st) p;
    ro_patches : ∀ path r, rs_resolution st !! path = Some r → patch_ok r }.

Lemma package_entry_integrity id metadata e i :
  pnpm_package_entry id metadata = Some e → pn_integrity e = Some i → starts_with "sha512-" i = true.
Proof using.
  unfold pnpm_package_entry. destruct (default _ _) as [name version].
  destruct (_ && _); [done|]. intros [= <-]. cbn [pn_integrity].
  intros (v & _ & Hv)%bind_Some. destruct (starts_with _ v) eqn:Hs; [|done]. by injection Hv as <-.
Qed.

Lemma package_ok_insert packages flags resolution path r p :
  package_ok packages flags resolution p → package_ok packages flags (<[path := r]> resolution) p.
Proof using.
  intros (H1 & H2 & H3 & H4 & H5). repeat (split; [done|]). intros Hf. apply H5 in Hf.
  destruct (decide (path = pe_path p)) as [->|Hne]; [by rewrite lookup_insert_eq|].
  by rewrite lookup_insert_ne.
Qed.

Lemma inside_intro test target : path_escapes target || negb (test target) = false → inside test target.
Proof using. rewrite orb_false_iff, negb_false_iff. by intros [? ?]. Qed.

Lemma report_package_ok packages entries reach flags patches st placed :
  Forall (from_row packages) entries → placed.1 < length entries → report_ok packages flags st →
  report_ok packages flags (report_package is_file entries reach flags patches st placed).
Proof using.
  destruct placed as [i path]. cbn [fst]. intros Hrows Hi [Hp Hr]. unfold report_package.
  set (entry := entry_of entries i).
  destruct (entry_of_row packages entries i Hrows Hi) as (id & md & e0 & Hin & Hpe & Hsame).
  fold entry in Hsame. destruct Hsame as (Hv & Hres & Hint & Hos & Hcpu).
  assert (∀ resolution, (pnpm_identity (pn_name entry) (pn_version entry) ∈ flags →
            is_Some (resolution !! path)) →
          package_ok packages flags resolution (pnpm_package reach entry path)) as Hnew.
  { intros resolution Hf. split; [done|]. split; [done|]. split; [by exists id, md, e0|].
    split; [|exact Hf]. cbn. intros j. rewrite Hint. by eapply package_entry_integrity. }
  unfold entry_overlay. case_bool_decide as Hflag.
  2:{ constructor; cbn [rs_packages rs_resolution]; [|done].
      intros p [?|Hx%list_elem_of_singleton]%elem_of_app; [by apply Hp|]. subst p. right. by apply Hnew. }
  destruct (or_else _ _) as [patch|]; [|by constructor].
  destruct (_ || _) eqn:Hc; [by constructor|]. apply inside_intro in Hc.
  constructor; cbn [rs_packages rs_resolution].
  - intros p [Hin'|Hx%list_elem_of_singleton]%elem_of_app.
    + apply Hp in Hin' as [?|?]; [by left|right; by apply package_ok_insert].
    + subst p. right. apply Hnew. intros _. by rewrite lookup_insert_eq.
  - intros path' r. destruct (decide (path = path')) as [->|Hne].
    + rewrite lookup_insert_eq. intros [= <-]. by eexists _, patch.
    + rewrite lookup_insert_ne by done. apply Hr.
Qed.

Lemma report_link_ok packages flags st link :
  report_ok packages flags st → report_ok packages flags (report_link is_dir st link).
Proof using.
  destruct link as [name target]. intros [Hp Hr]. unfold report_link.
  destruct (_ || _) eqn:Hc; [by constructor|]. apply inside_intro in Hc.
  constructor; cbn [rs_packages rs_resolution]; [|done].
  intros p [?|Hx%list_elem_of_singleton]%elem_of_app; [by apply Hp|]. subst p. by left.
Qed.

Lemma report_packages_ok packages g w :
  Forall (from_row packages) (pg_entries g) →
  Forall (λ p : nat * string, p.1 < length (pg_entries g)) (pw_placed w) →
  report_ok packages (pg_patched g) (report_packages is_file is_dir g w).
Proof using.
  intros Hrows Hw. unfold report_packages.
  apply foldl_inv; [intros b a _; apply report_link_ok|].
  apply foldl_inv.
  - intros b a Ha. rewrite Forall_forall in Hw. apply report_package_ok; [done|by apply Hw].
  - constructor; cbn; [intros p Hp; by apply not_elem_of_nil in Hp|].
    intros path r Hr. by rewrite lookup_empty in Hr.
Qed.

(** C31. What a pnpm lock is imported as stays inside the lock and the project:
    every package that is not a link has the version, URL, integrity and
    platform fields of a row of the imported document's [packages] section, its
    integrity, when it has one, is SHA-512, and when its id carries a patch hash
    it has a patch overlay; every patch overlay names a file and every link a
    directory of the project, without [..] and not absolute.  No index the
    importer uses is out of range. *)
Theorem pnpm_import_safe fuel text m ws mv rep :
  import_pnpm_v9 is_file is_dir fuel text m ws mv = Ok (Some rep) →
  ∃ documents document packages g,
    parse_documents text = Ok documents ∧ pnpm_graph_of documents ws mv = Ok g ∧
    document ∈ documents ∧ yaml_get document "packages" = Some packages ∧
    in_range (pg_entries g) (pg_by_id g) ∧
    (∀ p, p ∈ lf_packages (ir_lockfile rep) →
       link_ok p ∨
       package_ok (yaml_entries packages) (pg_patched g)
         (rm_packages (lf_resolution (ir_lockfile rep))) p) ∧
    ∀ path r, rm_packages (lf_resolution (ir_lockfile rep)) !! path = Some r → patch_ok r.
Proof using.
  unfold import_pnpm_v9. intros H.
  apply bind_Ok in H as (documents & Hd%map_err_Ok & H).
  apply bind_Ok in H as (g & Hg & H).
  destruct (pnpm_walk _ _ _ _) as [w|] eqn:Hw; [|done]. injection H as <-.
  destruct (pnpm_graph_of_ok _ _ _ _ Hg) as (document & packages & Hin & Hp & Hrows & Hby & Hseeds).
  exists documents, document, packages, g. do 5 (split; [done|]).
  apply (pnpm_walk_ok _ _ Hby) in Hw as [_ Hplaced]; [|by constructor].
  destruct (report_packages_ok (yaml_entries packages) g w Hrows Hplaced) as [H1 H2].
  split; [|exact H2]. intros p. unfold pnpm_report. cbn [ir_lockfile sort_packages with_packages lf_packages].
  rewrite elem_of_sort_by. apply H1.
Qed.

(** C32. The pnpm import of an acyclic dependency graph returns: with a rank that
    every dependency between entries lowers, there is a number of turns after
    which the walk has emptied its queue, whatever the manifest. *)
Theorem pnpm_import_terminates text m ws mv documents g (rank : nat → nat) :
  parse_documents text = Ok documents → pnpm_graph_of documents ws mv = Ok g →
  (∀ i j, j ∈ pnpm_targets (pg_entries g) (pg_by_id g) i → rank j < rank i) →
  ∃ turns, ∀ fuel, turns ≤ fuel →
    ∃ rep, import_pnpm_v9 is_file is_dir fuel text m ws mv = Ok (Some rep).
Proof using.
  intros Hd Hg Hrank.
  exists (pnpm_turns (pg_entries g) (pg_by_id g) rank (pg_seeds g)). intros fuel Hf.
  destruct (pnpm_walk_returns _ _ rank Hrank fuel (pnpm_start g) Hf) as [w Hw].
  eexists. unfold import_pnpm_v9. rewrite Hd. cbn [map_err mbind result_bind]. rewrite Hg.
  cbn [mbind result_bind]. by rewrite Hw.
Qed.
End report.
