(* ===== verification/PnpmRuns.v ===== *)
(** * Runs of the pnpm import

    Witnesses for the theorems of [PnpmTheory] on small lockfiles, and the runs
    in which the import departs from what its comments say. *)

From S2P Require Import PnpmTheory.

Module PnpmRuns.
#[local] Instance debug : DebugFormat := { str_debug := λ s, dquote_s +:+ s +:+ dquote_s }.

Definition manifest : PackageManifest :=
  mk_PackageManifest None (Some "app") None None None None ∅ ∅ ∅ ∅ ∅ ∅ None ∅ ∅ [] [] [].

Definition head_lines (deps : list string) : list string :=
  ["importers:"; "  .:"; "    dependencies:"] ++ deps.
Definition dep (name version : string) : list string :=
  ["      " +:+ name +:+ ":"; "        specifier: '*'"; "        version: " +:+ version].
Definition package (id : string) : list string :=
  ["  " +:+ id +:+ ":"; "    resolution: {integrity: sha512-" +:+ id +:+ "}"].
Definition snapshot (id : string) (deps : list string) : list string :=
  ["  " +:+ id +:+ ":"; "    dependencies:"] ++ ((λ d, "      " +:+ d) <$> deps).

(** What was imported: path, version, link target and patch overlay. *)
Definition summary (rep : ImportReport) : list (string * string * bool) :=
  (λ p, (pe_path p, pe_version p,
         bool_decide (is_Some (rm_packages (lf_resolution (ir_lockfile rep)) !! pe_path p))))
    <$> lf_packages (ir_lockfile rep).
Definition run (lock : list string) : option (list (string * string * bool)) :=
  match import_pnpm_v9 (λ _, true) (λ _, true) 40 (join (String newline "") lock) manifest None None with
  | Ok (Some rep) => Some (summary rep)
  | _ => None
  end.

(** [a] needs the package [obug] under the name [debug]; [obug] needs [ms]. *)
Definition transitive_alias : list string :=
  head_lines (dep "a" "1.0.0") ++ ["packages:"]
  ++ package "a@1.0.0" ++ package "obug@1.0.2" ++ package "ms@2.0.0"
  ++ ["snapshots:"] ++ snapshot "a@1.0.0" ["debug: obug@1.0.2"] ++ snapshot "obug@1.0.2" ["ms: 2.0.0"].

(** Code bug: the entry made for the alias has no dependencies, so [ms] is not
    imported. *)
Lemma transitive_alias_drops_dependencies :
  run transitive_alias =
  Some [("node_modules/a", "1.0.0", false); ("node_modules/debug", "1.0.2", false)].
Proof. vm_compute. reflexivity. Qed.

(** The same alias declared by the root keeps them. *)
Definition root_alias : list string :=
  head_lines ["      debug:"; "        specifier: npm:obug@1.0.2"; "        version: obug@1.0.2"]
  ++ ["packages:"] ++ package "obug@1.0.2" ++ package "ms@2.0.0"
  ++ ["snapshots:"] ++ snapshot "obug@1.0.2" ["ms: 2.0.0"].
Example root_alias_keeps_dependencies :
  run root_alias =
  Some [("node_modules/debug", "1.0.2", false); ("node_modules/ms", "2.0.0", false)].
Proof. vm_compute. reflexivity. Qed.

(** [b] is patched and only reached through [a]. *)
Definition transitive_patch : list string :=
  ["patchedDependencies:"; "  b@1.0.0:"; "    hash: x"; "    path: patches/b.patch"]
  ++ head_lines (dep "a" "1.0.0") ++ ["packages:"] ++ package "a@1.0.0" ++ package "b@1.0.0"
  ++ ["snapshots:"] ++ snapshot "a@1.0.0" ["b: 1.0.0(patch_hash=x)"].

(** Code bug: a patch hash is looked for in the importers only, so [b] is
    imported without its patch and without a diagnostic. *)
Lemma transitive_patch_is_dropped :
  run transitive_patch =
  Some [("node_modules/a", "1.0.0", false); ("node_modules/b", "1.0.0", false)].
Proof. vm_compute. reflexivity. Qed.

(** The same patch on a root dependency. *)
Definition root_patch : list string :=
  ["patchedDependencies:"; "  b@1.0.0:"; "    hash: x"; "    path: patches/b.patch"]
  ++ head_lines (dep "b" "1.0.0(patch_hash=x)") ++ ["packages:"] ++ package "b@1.0.0".
Example root_patch_is_kept : run root_patch = Some [("node_modules/b", "1.0.0", true)].
Proof. vm_compute. reflexivity. Qed.

(** [a] records a resolved peer [p], by version as every edge is. *)
Definition resolved_peer : list string :=
  head_lines (dep "a" "1.0.0") ++ ["packages:"] ++ package "a@1.0.0" ++ package "p@1.0.0"
  ++ ["snapshots:"; "  a@1.0.0:"; "    peerDependencies:"; "      p: 1.0.0"].

(** The test of a recorded peer looks a version up among ids: no peer passes. *)
Lemma resolved_peer_is_ignored : run resolved_peer = Some [("node_modules/a", "1.0.0", false)].
Proof. vm_compute. reflexivity. Qed.

(** Code bug: an unclosed flow sequence keeps the importer in a loop. *)
Lemma unclosed_sequence_hangs :
  import_pnpm_v9 (λ _, true) (λ _, true) 0 "cpu: [x64" manifest None None =
  Err (PnpmParse FlowLoops).
Proof. vm_compute. reflexivity. Qed.

(** The workspace [packages/w] depends on its own directory [lib]. *)
Definition nested_file : list string :=
  ["importers:"; "  .:"; "    dependencies:"; "      w:"; "        specifier: '*'";
   "        version: link:packages/w"; "  packages/w:"; "    dependencies:"; "      l:";
   "        specifier: file:lib"; "        version: file:lib"; "packages:"; "  x@1.0.0:";
   "    resolution: {integrity: sha512-x}"].
Definition link_targets (lock : list string) : option (list (string * option string)) :=
  match import_pnpm_v9 (λ _, true) (λ _, true) 40 (join (String newline "") lock) manifest None None with
  | Ok (Some rep) => Some ((λ p, (pe_name p, pe_workspace_target p)) <$> lf_packages (ir_lockfile rep))
  | _ => None
  end.

(** A [file:] target that is no importer is taken from the project root, not
    from the importer that declares it. *)
Lemma nested_file_link_is_rooted :
  link_targets nested_file = Some [("l", Some "lib"); ("w", Some "packages/w")].
Proof. vm_compute. reflexivity. Qed.

(** [x] is a development dependency of the root and needed by [z], below [y];
    [x] needs [c], which needs [d]. *)
Definition late : list string :=
  ["importers:"; "  .:"; "    dependencies:"] ++ dep "y" "1.0.0" ++ ["    devDependencies:"]
  ++ dep "x" "1.0.0" ++ ["packages:"]
  ++ (["x@1.0.0"; "c@1.0.0"; "d@1.0.0"; "y@1.0.0"; "z@1.0.0"] ≫= package)
  ++ ["snapshots:"] ++ snapshot "x@1.0.0" ["c: 1.0.0"] ++ snapshot "c@1.0.0" ["d: 1.0.0"]
  ++ snapshot "y@1.0.0" ["z: 1.0.0"] ++ snapshot "z@1.0.0" ["x: 1.0.0"].
Definition pnpm_dev_flags (lock : list string) : option (list (string * bool)) :=
  match import_pnpm_v9 (λ _, true) (λ _, true) 40 (join (String newline "") lock) manifest None None with
  | Ok (Some rep) => Some ((λ p, (pe_name p, pe_dev p)) <$> lf_packages (ir_lockfile rep))
  | _ => None
  end.

(** Code bug: as in the Yarn import, a package later reached from production is
    relabelled together with its direct dependencies only; [d] is needed in
    production and imported as a development package. *)
Lemma pnpm_dev_flag_not_propagated :
  pnpm_dev_flags late =
  Some [("c", false); ("d", true); ("x", false); ("y", false); ("z", false)].
Proof. vm_compute. reflexivity. Qed.

(** The root needs [x@2.0.0], its workspaces [u] and [v] both need [x@1.0.0]. *)
Definition workspace (name : string) : list string :=
  ["  packages/" +:+ name +:+ ":"; "    dependencies:"] ++ dep "x" "1.0.0".
Definition two_workspaces : list string :=
  head_lines (dep "u" "link:packages/u" ++ dep "v" "link:packages/v" ++ dep "x" "2.0.0")
  ++ workspace "u" ++ workspace "v" ++ ["packages:"] ++ package "x@1.0.0" ++ package "x@2.0.0".

(** Code bug: an entry is seeded for the first importer that needs it only, so
    [v] has no [x@1.0.0] of its own and finds the root's [x@2.0.0]. *)
Lemma second_workspace_finds_the_wrong_version :
  run two_workspaces =
  Some [("node_modules/u", "", false); ("node_modules/u/node_modules/x", "1.0.0", false);
        ("node_modules/v", "", false); ("node_modules/x", "2.0.0", false)].
Proof. vm_compute. reflexivity. Qed.

(** ** Witnesses *)

Definition sample : list string := root_patch ++ package "a@1.0.0" ++ ["snapshots:"] ++ snapshot "b@1.0.0" ["a: 1.0.0"].

Definition sample_text : string := join (String newline "") sample.

Lemma pnpm_import_safe_witness :
  ∃ rep, import_pnpm_v9 (λ _, true) (λ _, true) 40 sample_text manifest None None = Ok (Some rep) ∧
    ∀ p, p ∈ lf_packages (ir_lockfile rep) → pe_link p = true →
      path_escapes (pe_resolved p) = false.
Proof.
  destruct (import_pnpm_v9 (λ _, true) (λ _, true) 40 sample_text manifest None None)
    as [[rep|]|] eqn:H; [|vm_compute in H; discriminate H..].
  exists rep. split; [reflexivity|]. intros p Hp Hl.
  destruct (pnpm_import_safe _ _ _ _ _ _ _ _ H)
    as (_ & _ & packages & g & _ & _ & _ & _ & _ & Hall & _).
  destruct (Hall p Hp) as [(_ & _ & _ & He & _)|(Hn & _)]; [exact He|congruence].
Defined.

Lemma pnpm_import_terminates_witness :
  ∃ turns, ∀ fuel, turns ≤ fuel →
    ∃ rep, import_pnpm_v9 (λ _, true) (λ _, true) fuel sample_text manifest None None = Ok (Some rep).
Proof.
  destruct (parse_documents sample_text) as [documents|] eqn:Hd; [|vm_compute in Hd; discriminate Hd].
  destruct (pnpm_graph_of documents None None) as [g|] eqn:Hg.
  2:{ exfalso. vm_compute in Hd. injection Hd as <-. vm_compute in Hg. discriminate Hg. }
  apply (pnpm_import_terminates _ _ sample_text manifest None None documents g
           (λ i, if (i =? 0)%nat then 1 else 0) Hd Hg).
  vm_compute in Hd. injection Hd as <-. vm_compute in Hg. injection Hg as <-.
  intros [|[|i]] j Hj; vm_compute in Hj.
  - apply list_elem_of_singleton in Hj as ->. vm_compute. lia.
  - exfalso. by apply not_elem_of_nil in Hj.
  - exfalso. by apply not_elem_of_nil in Hj.
Defined.
End PnpmRuns.
