(* ===== verification/Install.v ===== *)
(** * [src/cli/install.rs]: what an install checks and selects

    The frozen gate between [package.json] and the lock, the projection that
    [--omit=dev] installs, the platform filter with its pruning, the work list
    handed to the downloader and the map from its outcomes back to the lock.
    Reading files and printing are left out. *)

From S2P Require Export Platform Hoist NpmLock.
From Stdlib Require Import Ascii.

(** ** The frozen gate *)

Inductive FrozenError :=
  | FrozenOverrides (e : OverrideError)
  | FrozenDeclarations (only_manifest only_lock changed_specs : list string)
  | FrozenVersion (name version spec : string).

Definition installed_path (name : string) : string := "node_modules/" +:+ name.

(** [packages.iter().find(|package| package.path == path)]. *)
Definition lock_entry (l : Lockfile) (path : string) : option PackageEntry :=
  snd <$> list_find (λ p, pe_path p = path) (lf_packages l).

Definition is_registry_spec (spec : string) : bool :=
  negb (contains_char ":" spec) && negb (starts_with "http://" spec) && negb (starts_with "https://" spec).

Section frozen.
Context `{Sv : Semver}.

Definition frozen_root_version (l : Lockfile) (overrides : gmap string string)
    (kv : string * string) : result FrozenError () :=
  let '(name, declared_spec) := kv in
  let effective_spec := default declared_spec (overrides !! name) in
  if negb (is_registry_spec effective_spec) then Ok ()
  else
    match VersionRange_parse effective_spec with
    | Err _ => Ok ()
    | Ok range =>
        match lock_entry l (installed_path name) with
        | None => Ok ()
        | Some placement =>
            match version_of (pe_version placement) with
            | None => Ok ()
            | Some version =>
                fail_if (negb (range_matches range version))
                  with_err (FrozenVersion name (pe_version placement) effective_spec);
                Ok ()
            end
        end
    end.

Definition validate_frozen_root_versions (l : Lockfile) (root_declarations overrides : gmap string string)
    : result FrozenError () :=
  each_res (frozen_root_version l overrides) (bt_list root_declarations).

Definition frozen_error (declared locked : gmap string string) : FrozenError :=
  FrozenDeclarations
    (filter (λ name, locked !! name = None) (bt_keys declared))
    (filter (λ name, declared !! name = None) (bt_keys locked))
    (fst <$> filter (λ kv : string * string,
       is_Some (locked !! kv.1) ∧ locked !! kv.1 ≠ Some kv.2) (bt_list declared)).

Definition enforce_frozen (m : PackageManifest) (l : Lockfile) : result FrozenError () :=
  let root_declarations := root_dependency_declarations m in
  let locked := re_dependencies (lf_root l) in
  overrides ← map_err FrozenOverrides
    (normalize_root_overrides (mf_overrides m) root_declarations Root);
  let expected_overrides := os_normalized overrides in
  let root_resolution := rm_root (lf_resolution l) in
  if bool_decide (root_declarations = locked) &&
     bool_decide (rr_dev_dependencies root_resolution = mf_dev_dependencies m) &&
     bool_decide (rr_optional_dependencies root_resolution = mf_optional_dependencies m) &&
     bool_decide (rr_overrides root_resolution = expected_overrides)
  then validate_frozen_root_versions l root_declarations expected_overrides
  else Err (frozen_error root_declarations locked).

Definition manifest_lock_drifted (m : PackageManifest) (l : Lockfile) : bool :=
  let root_declarations := root_dependency_declarations m in
  let overrides_match :=
    match normalize_root_overrides (mf_overrides m) root_declarations Root with
    | Ok overrides => bool_decide (os_normalized overrides = rr_overrides (rm_root (lf_resolution l)))
    | Err _ => false
    end in
  negb (bool_decide (root_declarations = re_dependencies (lf_root l)) && overrides_match).
End frozen.

(** ** The projection of [--omit=dev] *)

Definition all_paths (l : Lockfile) : gset string := list_to_set (pe_path <$> lf_packages l).

(** [collect()] into a map: the last package of a path wins. *)
Definition package_by_path (l : Lockfile) : gmap string PackageEntry :=
  foldl (λ m p, <[pe_path p := p]> m) ∅ (lf_packages l).

Definition parent_package_path (path : string) : option string :=
  fst <$> rsplit_once "/node_modules/" path.

(** The lookup walks up the owners; each is shorter than the last. *)
Fixpoint node_style_fuel (fuel : nat) (current dependency_name : string) (paths : gset string)
    : option string :=
  match fuel with
  | 0 => None
  | S fuel =>
      let candidate := current +:+ "/node_modules/" +:+ dependency_name in
      if bool_decide (candidate ∈ paths) then Some candidate
      else match parent_package_path current with
           | Some owner => node_style_fuel fuel owner dependency_name paths
           | None =>
               let root_candidate := installed_path dependency_name in
               if bool_decide (root_candidate ∈ paths) then Some root_candidate else None
           end
  end.
Definition node_style_dependency_target (package_path dependency_name : string)
    (paths : gset string) : option string :=
  node_style_fuel (S (strlen package_path)) package_path dependency_name paths.

(** The targets that resolver metadata names. *)
Definition metadata_targets (metadata : PackageResolution) : list string :=
  (ld_target <$> bt_values (pres_dependencies metadata)) ++
  (ld_target <$> bt_values (pres_optional_dependencies metadata)) ++
  ((λ kv : string * LockDependency, ld_target kv.2) <$>
     filter (λ kv : string * LockDependency, kv.1 ∉ pres_optional_peers metadata) (bt_list (pres_peer_dependencies metadata))) ++
  ((λ kv : string * PeerProvider, pp_path kv.2) <$>
     filter (λ kv : string * PeerProvider, kv.1 ∉ pres_optional_peers metadata) (bt_list (pres_peer_context metadata))).
Definition metadata_names (metadata : PackageResolution) : gset string :=
  dom (pres_dependencies metadata) ∪ dom (pres_optional_dependencies metadata) ∪
  dom (pres_peer_dependencies metadata).

Definition runtime_dependency_targets (l : Lockfile) (package : PackageEntry) (paths : gset string)
    : gset string :=
  let metadata := rm_packages (lf_resolution l) !! pe_path package in
  let targets := match metadata with Some m => metadata_targets m | None => [] end in
  let names := match metadata with Some m => metadata_names m | None => ∅ end in
  let fallback :=
    omap (λ name, if bool_decide (name ∈ names) then None
                  else node_style_dependency_target (pe_path package) name paths)
      (bt_keys (pe_dependencies package)) in
  list_to_set (targets ++ fallback).

(** One package taken from the front of the queue. *)
Definition retain_targets (paths : gset string) (targets : list string)
    (st : gset string * list string) : gset string * list string :=
  foldl (λ (st : gset string * list string) target,
      let '(retained, pending) := st in
      if bool_decide (target ∈ paths) && negb (bool_decide (target ∈ retained))
      then ({[ target ]} ∪ retained, pending ++ [target]) else st) st targets.

Fixpoint retain_loop (l : Lockfile) (fuel : nat) (retained : gset string) (pending : list string)
    : option (gset string) :=
  match pending with
  | [] => Some retained
  | path :: pending =>
      match fuel with
      | 0 => None
      | S fuel =>
          match package_by_path l !! path with
          | None => retain_loop l fuel retained pending
          | Some package =>
              let paths := all_paths l in
              let '(retained, pending) :=
                retain_targets paths (bs_list (runtime_dependency_targets l package paths))
                  (retained, pending) in
              retain_loop l fuel retained pending
          end
      end
  end.

Definition not_dev (l : Lockfile) : gset string :=
  list_to_set (pe_path <$> filter (λ p, pe_dev p = false) (lf_packages l)).

(** Metadata of an optional peer that points at an omitted package goes. *)
Definition prune_optional_peer (retained : gset string) (m : PackageResolution) (name : string)
    : PackageResolution :=
  let keep_peer := match pres_peer_dependencies m !! name with
                   | Some d => bool_decide (ld_target d ∈ retained) | None => true end in
  let keep_provider := match pres_peer_context m !! name with
                       | Some p => bool_decide (pp_path p ∈ retained) | None => true end in
  let peers := if keep_peer then pres_peer_dependencies m else delete name (pres_peer_dependencies m) in
  let context := if keep_provider then pres_peer_context m else delete name (pres_peer_context m) in
  let optional :=
    if bool_decide (peers !! name = None ∧ context !! name = None)
    then pres_optional_peers m ∖ {[ name ]} else pres_optional_peers m in
  mk_PackageResolution (pres_source m) (pres_dev_optional m) (pres_peer m) (pres_libc m)
    (pres_dependencies m) (pres_optional_dependencies m) peers optional context
    (pres_workspace_target m) (pres_has_install_script m).
Definition prune_optional_peers (retained : gset string) (m : PackageResolution) : PackageResolution :=
  foldl (prune_optional_peer retained) m (bs_list (pres_optional_peers m)).

Definition retain_paths {A} (retained : gset string) (m : gmap string A) : gmap string A :=
  filter (λ kv : string * A, kv.1 ∈ retained) m.

Definition projected (l : Lockfile) (retained : gset string) : Lockfile :=
  let r := lf_resolution l in
  sort_packages
    (mk_Lockfile (lf_lockfile_version l) (lf_generator l) (lf_root l)
       (filter (λ p, pe_path p ∈ retained) (lf_packages l))
       (mk_ResolutionMetadata (rm_root r)
          (prune_optional_peers retained <$> retain_paths retained (rm_packages r))
          (retain_paths retained (rm_registry_names r)))).

Definition project_lockfile_omitting_dev (l : Lockfile) (fuel : nat) : option Lockfile :=
  projected l <$> retain_loop l fuel (not_dev l) (bs_list (not_dev l)).

(** ** The platform filter *)

Inductive WorkError :=
  | PlatformFailed (e : PlatformError)
  | BadIntegrity (name path value : string) (e : IntegrityError)
  | NoIntegrity (name path : string).

Record InstallWork := mk_InstallWork {
  iw_path : option string; iw_name : string; iw_url : string;
  iw_integrity : option Sha512Digest; iw_patch : option string }.

(** Links and entries without a tarball are not downloaded. *)
Definition downloadable (p : PackageEntry) : bool := negb (pe_link p) && negb (is_empty (pe_resolved p)).

Definition platform_constraints_for (l : Lockfile) (p : PackageEntry) : PlatformConstraints :=
  mk_PlatformConstraints (list_to_set (pe_os p)) (list_to_set (pe_cpu p))
    (match rm_packages (lf_resolution l) !! pe_path p with
     | Some resolution => list_to_set (pres_libc resolution) | None => ∅ end).

Definition entry_platform (l : Lockfile) (target : TargetPlatform) (p : PackageEntry)
    : result WorkError PlatformDisposition :=
  map_err PlatformFailed
    (check_package_platform (pe_name p +:+ "@" +:+ pe_version p) (platform_constraints_for l p) target
       (if pe_optional p then OptionalOnly else Required)).

Definition platform_skips (l : Lockfile) (target : TargetPlatform) : result WorkError (gset string) :=
  fold_res (λ (skipped : gset string) p,
    if negb (downloadable p) then Ok skipped
    else
      disposition ← entry_platform l target p;
      Ok (match disposition with
          | Compatible => skipped
          | SkipOptional _ => {[ pe_path p ]} ∪ skipped
          end)) ∅ (lf_packages l).

(** Who declares a name. *)
Definition declarers (l : Lockfile) (name : string) : gset string :=
  list_to_set (pe_path <$> filter (λ p, is_Some (pe_dependencies p !! name)) (lf_packages l)).

(** The guards of one package in a round. *)
Definition prunable (l : Lockfile) (skipped pruned : gset string) (p : PackageEntry) : bool :=
  pe_optional p && negb (bool_decide (pe_path p ∈ pruned)) &&
  negb (bool_decide (pe_path p ∈ skipped)) &&
  negb (contains_key (pe_name p) (re_dependencies (lf_root l))) &&
  negb (bool_decide (declarers l (pe_name p) = ∅)) &&
  bool_decide (declarers l (pe_name p) ⊆ skipped ∪ pruned).

Definition prune_round (l : Lockfile) (skipped pruned : gset string) : gset string :=
  foldl (λ pruned p, if prunable l skipped pruned p then {[ pe_path p ]} ∪ pruned else pruned)
    pruned (lf_packages l).

(** [changed] is set when the round inserted, that is when the set grew. *)
Fixpoint prune_loop (l : Lockfile) (skipped : gset string) (fuel : nat) (pruned : gset string)
    : option (gset string) :=
  match fuel with
  | 0 => None
  | S fuel =>
      let next := prune_round l skipped pruned in
      if bool_decide (next = pruned) then Some pruned else prune_loop l skipped fuel next
  end.
Definition prune_unreachable_optionals (l : Lockfile) (skipped : gset string) (fuel : nat)
    : option (gset string) := prune_loop l skipped fuel ∅.

(** ** The work list *)

Section work.
Context `{Codecs}.

Definition patch_overlay (l : Lockfile) (project_root : string) (p : PackageEntry) : option string :=
  match pres_source <$> rm_packages (lf_resolution l) !! pe_path p with
  | Some (LSPatch _ patch) =>
      if starts_with "http://" (pe_resolved p) || starts_with "https://" (pe_resolved p)
      then Some (path_join project_root patch) else None
  | _ => None
  end.

Definition entry_integrity (frozen : bool) (p : PackageEntry) : result WorkError (option Sha512Digest) :=
  match pe_integrity p with
  | Some value => map_err (BadIntegrity (pe_name p) (pe_path p) value)
                    (d ← Integrity_parse value; Ok (Some d))
  | None => fail_if frozen with_err (NoIntegrity (pe_name p) (pe_path p)); Ok None
  end.

Definition entry_work (l : Lockfile) (frozen : bool) (project_root : string) (excluded : gset string)
    (work : list InstallWork) (p : PackageEntry) : result WorkError (list InstallWork) :=
  if negb (downloadable p) || bool_decide (pe_path p ∈ excluded) then Ok work
  else
    integrity ← entry_integrity frozen p;
    Ok (work ++ [mk_InstallWork (Some (pe_path p)) (pe_name p) (pe_resolved p) integrity
                   (patch_overlay l project_root p)]).

Definition build_install_work (l : Lockfile) (frozen : bool) (project_root : string)
    (target : TargetPlatform) (fuel : nat) : result WorkError (option (list InstallWork)) :=
  skipped ← platform_skips l target;
  match prune_unreachable_optionals l skipped fuel with
  | None => Ok None
  | Some pruned =>
      work ← fold_res (entry_work l frozen project_root (skipped ∪ pruned)) [] (lf_packages l);
      Ok (Some work)
  end.
End work.

(** ** Outcomes *)

Record FetchOutcome := mk_FetchOutcome {
  fo_path : string; fo_id : string; fo_artifact_cached : bool; fo_image_cached : bool }.

(** The missing packages, as name and path. *)
Definition missing_outcomes (l : Lockfile) (outcomes : list FetchOutcome) : list (string * string) :=
  (λ p, (pe_name p, pe_path p)) <$>
    filter (λ p, downloadable p = true ∧ pe_path p ∉ fo_path <$> outcomes) (lf_packages l).
Definition assert_outcomes_complete (l : Lockfile) (outcomes : list FetchOutcome)
    : result (list (string * string)) () :=
  let missing := missing_outcomes l outcomes in
  if bool_decide (missing = []) then Ok () else Err missing.

(** [collect()]: the last index of a path wins. *)
Definition path_to_index (l : Lockfile) : gmap string nat :=
  foldl (λ m ip, <[pe_path ip.2 := ip.1]> m) ∅ (imap (λ i p, (i, p)) (lf_packages l)).
Definition outcomes_to_artifact_ids (outcomes : list FetchOutcome) (l : Lockfile)
    : list (option string) :=
  foldl (λ ids o, match path_to_index l !! fo_path o with
                  | Some index => <[index := Some (fo_id o)]> ids
                  | None => ids
                  end) (replicate (length (lf_packages l)) None) outcomes.

(** ** The attachment *)

Inductive ProjectView := VLocal | VReflink | VRelay.

Definition auto_local_project_view_with_fragile (l : Lockfile) (fragile : list string) : bool :=
  existsb (λ p, existsb (String.eqb (pe_name p)) fragile) (lf_packages l).

(** [BPM_LOCAL_VIEW_PACKAGES] extends the built-in list. *)
Definition local_view_fragile_packages (env : option string) : list string :=
  match env with
  | None => ["next"]
  | Some value =>
      foldl (λ packages name, if existsb (String.eqb name) packages then packages else packages ++ [name])
        ["next"] (filter (λ name, name ≠ "") (trim <$> split_char "," value))
  end.

Definition resolve_project_view_with (l : Lockfile) (unix : bool) (fragile_env view : option string)
    : ProjectView :=
  let auto :=
    if auto_local_project_view_with_fragile l (local_view_fragile_packages fragile_env) then VLocal
    else if unix then VRelay else VReflink in
  match view with
  | Some "reflink" => VReflink
  | Some "local" => VLocal
  | Some "relay" => VRelay
  | _ => auto
  end.
