(* ===== verification/InstallTheory.v ===== *)
(** * What an install keeps, drops and refuses *)

From S2P Require Export Install NpmLockTheory.
From Stdlib Require Import Ascii.

(** ** The closure of the runtime packages *)

(** A runtime edge between two packages of the lock. *)
Definition runtime_edge (l : Lockfile) (p q : string) : Prop :=
  ∃ package, package_by_path l !! p = Some package ∧ q ∈ all_paths l ∧
    q ∈ runtime_dependency_targets l package (all_paths l).

(** What a production install needs. *)
Inductive needed (l : Lockfile) : string → Prop :=
  | needed_runtime p : p ∈ not_dev l → needed l p
  | needed_by p q : needed l p → runtime_edge l p q → needed l q.

Lemma not_dev_paths l : not_dev l ⊆ all_paths l.
Proof.
  intros p. unfold not_dev, all_paths. rewrite !elem_of_list_to_set, !list_elem_of_fmap.
  intros (e & -> & [_ He]%list_elem_of_filter). by exists e.
Qed.

Lemma needed_paths l p : needed l p → p ∈ all_paths l.
Proof. induction 1 as [p Hp|p q _ _ (e & _ & Hq & _)]; [by apply not_dev_paths|done]. Qed.

Lemma retain_targets_spec paths targets retained pending :
  ∃ new, retain_targets paths targets (retained, pending) =
    (list_to_set new ∪ retained, pending ++ new) ∧
    NoDup new ∧ (∀ q, q ∈ new → q ∈ targets ∧ q ∈ paths ∧ q ∉ retained) ∧
    ∀ q, q ∈ targets → q ∈ paths → q ∈ new ∨ q ∈ retained.
Proof.
  revert retained pending. induction targets as [|t targets IH]; intros retained pending.
  - exists []. split_and!; [|constructor|set_solver..]. simpl. f_equal; [set_solver|by rewrite app_nil_r].
  - change (retain_targets paths (t :: targets) (retained, pending)) with (retain_targets paths targets
      (if bool_decide (t ∈ paths) && negb (bool_decide (t ∈ retained))
       then ({[ t ]} ∪ retained, pending ++ [t]) else (retained, pending))).
    destruct (bool_decide (t ∈ paths) && negb (bool_decide (t ∈ retained))) eqn:Hb.
    + apply andb_true_iff in Hb as [Ht%bool_decide_eq_true Hr%negb_true_iff%bool_decide_eq_false].
      destruct (IH ({[t]} ∪ retained) (pending ++ [t])) as (new & -> & Hnd & Hnew & Hall).
      exists (t :: new). split_and!.
      * f_equal; [set_solver|by rewrite <- app_assoc].
      * constructor; [|done]. intros Hin%Hnew. set_solver.
      * intros q [->|Hq]%elem_of_cons; [set_solver|]. apply Hnew in Hq. set_solver.
      * intros q [->|Hq]%elem_of_cons Hp; [set_solver|]. destruct (Hall q Hq Hp); set_solver.
    + destruct (IH retained pending) as (new & -> & Hnd & Hnew & Hall).
      exists new. split_and!; [done|done| |].
      * intros q Hq. apply Hnew in Hq. set_solver.
      * intros q [->|Hq]%elem_of_cons Hp; [|by apply Hall].
        rewrite bool_decide_eq_true_2 in Hb by done. apply negb_false_iff, bool_decide_eq_true in Hb.
        by right.
Qed.

(** The loop between two packages: everything kept is needed and placed, and the
    packages already handled have all their targets. *)
Definition retain_inv (l : Lockfile) (retained : gset string) (pending : list string) : Prop :=
  not_dev l ⊆ retained ∧ (∀ p, p ∈ retained → needed l p) ∧ (∀ p, p ∈ pending → p ∈ retained) ∧
  ∀ p q, p ∈ retained → p ∉ pending → runtime_edge l p q → q ∈ retained.

Lemma retain_loop_spec l fuel retained pending :
  retain_inv l retained pending →
  length pending + size (all_paths l ∖ retained) ≤ fuel →
  ∃ r, retain_loop l fuel retained pending = Some r ∧ ∀ p, p ∈ r ↔ needed l p.
Proof.
  revert retained pending. induction fuel as [|fuel IH]; intros retained [|p pending] Hinv Hfuel;
    cbn [retain_loop length] in *; try lia.
  1,2: exists retained; split; [done|]; destruct Hinv as (Hroots & Hneed & _ & Hclosed);
    intros q; split; [apply Hneed|]; induction 1 as [q Hq|q1 q2 _ IHq He]; [by apply Hroots|];
    eapply Hclosed; [exact IHq|apply not_elem_of_nil|exact He].
  destruct Hinv as (Hroots & Hneed & Hpend & Hclosed).
  assert (needed l p) as Hp by (apply Hneed, Hpend; by left).
  destruct (package_by_path l !! p) as [package|] eqn:Hpk.
  - destruct (retain_targets_spec (all_paths l)
      (bs_list (runtime_dependency_targets l package (all_paths l))) retained pending)
      as (new & -> & Hnd & Hnew & Hall). apply IH.
    + split_and!.
      * set_solver.
      * intros q [Hq%elem_of_list_to_set|Hq]%elem_of_union; [|by apply Hneed].
        apply Hnew in Hq as (Ht%elem_of_bs_list & Hq & _). eapply needed_by; [exact Hp|].
        by exists package.
      * intros q [Hq|Hq]%elem_of_app; [|set_solver]. apply elem_of_union_r, Hpend. by right.
      * intros a b [Ha%elem_of_list_to_set|Ha]%elem_of_union Hnp He.
        { set_solver. }
        destruct (decide (a = p)) as [->|Hne].
        -- destruct He as (e & He & Hb & Ht). rewrite Hpk in He. injection He as <-.
           destruct (Hall b); [by apply elem_of_bs_list|done|set_solver|set_solver].
        -- apply elem_of_union_r. eapply Hclosed; [exact Ha| |exact He].
           rewrite not_elem_of_cons. set_solver.
    + assert (size (all_paths l ∖ retained) =
              length new + size (all_paths l ∖ (list_to_set new ∪ retained))) as Hsize.
      { rewrite <- (size_list_to_set (C := gset string) new) by done.
        rewrite <- size_union by set_solver. f_equal. apply set_eq. intros q.
        destruct (decide (q ∈ new)) as [Hq|Hq]; [apply Hnew in Hq as Hq'|]; set_solver. }
      rewrite length_app. lia.
  - apply IH; [|lia]. split_and!; [done|done| |].
    + intros q Hq. apply Hpend. by right.
    + intros a b Ha Hnp He. destruct (decide (a = p)) as [->|Hne].
      * destruct He as (e & He & _). by rewrite Hpk in He.
      * eapply Hclosed; [exact Ha| |exact He]. rewrite not_elem_of_cons. done.
Qed.

Lemma size_list_to_set_le (ps : list string) : size (list_to_set ps : gset string) ≤ length ps.
Proof.
  induction ps as [|p ps IH]; [done|]. cbn [list_to_set length].
  rewrite size_union_alt, size_singleton.
  pose proof (subseteq_size (list_to_set ps ∖ {[p]}) (list_to_set ps : gset string) ltac:(set_solver)). lia.
Qed.

Lemma size_all_paths l : size (all_paths l) ≤ length (lf_packages l).
Proof. unfold all_paths. rewrite size_list_to_set_le. by rewrite length_fmap. Qed.

(** As many steps as packages suffice. *)
Definition omit_fuel (l : Lockfile) : nat := length (lf_packages l).

Lemma retain_needed l fuel :
  omit_fuel l ≤ fuel →
  ∃ r, retain_loop l fuel (not_dev l) (bs_list (not_dev l)) = Some r ∧ ∀ p, p ∈ r ↔ needed l p.
Proof.
  intros Hfuel. apply retain_loop_spec.
  - split_and!; [done|by apply needed_runtime|intros p; apply elem_of_bs_list|].
    intros p q Hp Hnp. by rewrite elem_of_bs_list in Hnp.
  - unfold bs_list. rewrite length_sort_by. change (length (elements (not_dev l))) with (size (not_dev l)).
    pose proof (size_difference (all_paths l) (not_dev l) (not_dev_paths l)).
    pose proof (subseteq_size (not_dev l) (all_paths l) (not_dev_paths l)).
    pose proof (size_all_paths l). unfold omit_fuel in Hfuel. lia.
Qed.

(** ** The projected lockfile *)

Lemma prune_lookup {A} (target : A → string) (g : gmap string A) n (retained : gset string) name a :
  (if match g !! n with Some d => bool_decide (target d ∈ retained) | None => true end
   then g else delete n g) !! name = Some a ↔
  g !! name = Some a ∧ (name = n → target a ∈ retained).
Proof.
  destruct (g !! n) as [d|] eqn:Hn; [case_bool_decide|]; rewrite ?lookup_delete_Some;
    naive_solver.
Qed.

(** Pruning drops exactly the optional-peer links into omitted packages. *)
Lemma prune_optional_peers_fold retained names m :
  let m' := foldl (prune_optional_peer retained) m names in
  pres_source m' = pres_source m ∧ pres_dependencies m' = pres_dependencies m ∧
  pres_optional_dependencies m' = pres_optional_dependencies m ∧
  pres_workspace_target m' = pres_workspace_target m ∧
  (∀ name d, pres_peer_dependencies m' !! name = Some d ↔
     pres_peer_dependencies m !! name = Some d ∧ (name ∈ names → ld_target d ∈ retained)) ∧
  (∀ name p, pres_peer_context m' !! name = Some p ↔
     pres_peer_context m !! name = Some p ∧ (name ∈ names → pp_path p ∈ retained)).
Proof.
  revert m. induction names as [|n names IH]; intros m; cbn [foldl].
  { split_and!; try done; intros name d; set_solver. }
  destruct (IH (prune_optional_peer retained m n)) as (Hs & Hd & Ho & Hw & Hp & Hc).
  split_and!; [by rewrite Hs|by rewrite Hd|by rewrite Ho|by rewrite Hw|..].
  - intros name d. rewrite Hp. cbn [prune_optional_peer pres_peer_dependencies].
    rewrite prune_lookup, elem_of_cons. naive_solver.
  - intros name p. rewrite Hc. cbn [prune_optional_peer pres_peer_context].
    rewrite prune_lookup, elem_of_cons. naive_solver.
Qed.

Lemma prune_optional_peers_spec retained m :
  let m' := prune_optional_peers retained m in
  pres_source m' = pres_source m ∧ pres_dependencies m' = pres_dependencies m ∧
  pres_optional_dependencies m' = pres_optional_dependencies m ∧
  pres_workspace_target m' = pres_workspace_target m ∧
  (∀ name d, pres_peer_dependencies m' !! name = Some d ↔
     pres_peer_dependencies m !! name = Some d ∧
     (name ∈ pres_optional_peers m → ld_target d ∈ retained)) ∧
  (∀ name p, pres_peer_context m' !! name = Some p ↔
     pres_peer_context m !! name = Some p ∧ (name ∈ pres_optional_peers m → pp_path p ∈ retained)).
Proof.
  destruct (prune_optional_peers_fold retained (bs_list (pres_optional_peers m)) m)
    as (? & ? & ? & ? & Hp & Hc). unfold prune_optional_peers. split_and!; [done..| |].
  - intros name d. by rewrite Hp, elem_of_bs_list.
  - intros name p. by rewrite Hc, elem_of_bs_list.
Qed.

Lemma lookup_package_by_path l path p :
  NoDup (pe_path <$> lf_packages l) →
  package_by_path l !! path = Some p ↔ p ∈ lf_packages l ∧ pe_path p = path.
Proof.
  intros Hnd. unfold package_by_path.
  assert (∀ ps m, foldl (λ m p, <[pe_path p := p]> m) m ps =
    foldl (λ m kv, <[kv.1 := kv.2]> m) m ((λ p, (pe_path p, p)) <$> ps)) as ->.
  { induction ps as [|q ps IH]; intros m; [done|]. apply IH. }
  rewrite foldl_insert_lookup; rewrite <- list_fmap_compose; [|done]. rewrite lookup_empty.
  rewrite list_elem_of_fmap. naive_solver.
Qed.

Lemma elem_of_all_paths l path : path ∈ all_paths l ↔ placed l path.
Proof.
  unfold all_paths, placed. rewrite elem_of_list_to_set, list_elem_of_fmap. naive_solver.
Qed.

(** Metadata edges are runtime edges, except those of optional peers. *)
Lemma metadata_edge l p m target :
  lock_wf l → p ∈ lf_packages l → rm_packages (lf_resolution l) !! pe_path p = Some m →
  target ∈ metadata_targets m → runtime_edge l (pe_path p) target.
Proof.
  intros Hwf Hp Hm Ht. exists p. split_and!.
  - by apply lookup_package_by_path; [apply str_lt_NoDup, wf_sorted|].
  - apply elem_of_all_paths. destruct (wf_meta _ Hwf _ _ Hm) as [_ Hpt]. apply Hpt.
    unfold metadata_targets in Ht. rewrite !elem_of_app, !list_elem_of_fmap in Ht.
    destruct Ht as [(d & -> & Hd)|[(d & -> & Hd)|[([n d] & -> & [_ Hd]%list_elem_of_filter)|([n d] & -> & [_ Hd]%list_elem_of_filter)]]].
    + apply list_elem_of_fmap in Hd as ([n d'] & -> & Hd%elem_of_bt_list). left. exists n, d'. auto.
    + apply list_elem_of_fmap in Hd as ([n d'] & -> & Hd%elem_of_bt_list). left. exists n, d'. auto.
    + apply elem_of_bt_list in Hd. left. exists n, d. auto.
    + apply elem_of_bt_list in Hd. right. by exists n, d.
  - unfold runtime_dependency_targets. rewrite Hm, elem_of_list_to_set, elem_of_app. by left.
Qed.

Lemma lookup_retain_paths {A} (retained : gset string) (m : gmap string A) path a :
  retain_paths retained m !! path = Some a ↔ m !! path = Some a ∧ path ∈ retained.
Proof. unfold retain_paths. by rewrite map_lookup_filter_Some. Qed.

Lemma projected_packages l retained :
  lock_wf l →
  lf_packages (projected l retained) = filter (λ p, pe_path p ∈ retained) (lf_packages l).
Proof.
  intros Hwf. unfold projected, sort_packages. cbn [with_packages lf_packages].
  apply sort_by_paths. eapply sorted_sublist; [|apply (wf_sorted _ Hwf)].
  apply fmap_sublist, sublist_filter.
Qed.

(** What a retained package points at is retained. *)
Lemma projected_points_to l retained p m target :
  lock_wf l → (∀ q, q ∈ retained ↔ needed l q) → p ∈ lf_packages l → pe_path p ∈ retained →
  rm_packages (lf_resolution l) !! pe_path p = Some m →
  points_to (prune_optional_peers retained m) target → target ∈ retained.
Proof.
  intros Hwf Hret Hp Hpr Hm Hpt.
  destruct (prune_optional_peers_spec retained m) as (_ & Hd & Ho & _ & Hpeers & Hctx).
  assert (target ∈ metadata_targets m → target ∈ retained) as Hedge.
  { intros Ht. apply Hret. eapply needed_by; [by apply Hret|]. by eapply metadata_edge. }
  unfold metadata_targets in Hedge. rewrite !elem_of_app, !list_elem_of_fmap in Hedge.
  destruct Hpt as [(name & d & [Hdd|[Hdd|Hdd]] & <-)|(name & d & Hdd & <-)].
  - rewrite Hd in Hdd. apply Hedge. left. exists d. split; [done|]. apply list_elem_of_fmap.
    exists (name, d). by rewrite elem_of_bt_list.
  - rewrite Ho in Hdd. apply Hedge. right; left. exists d. split; [done|]. apply list_elem_of_fmap.
    exists (name, d). by rewrite elem_of_bt_list.
  - apply Hpeers in Hdd as [Hdd Hopt]. destruct (decide (name ∈ pres_optional_peers m)); [auto|].
    apply Hedge. do 2 right; left. exists (name, d). by rewrite list_elem_of_filter, elem_of_bt_list.
  - apply Hctx in Hdd as [Hdd Hopt]. destruct (decide (name ∈ pres_optional_peers m)); [auto|].
    apply Hedge. do 3 right. exists (name, d). by rewrite list_elem_of_filter, elem_of_bt_list.
Qed.

Lemma projected_lock_wf l retained :
  lock_wf l → (∀ q, q ∈ retained ↔ needed l q) → lock_wf (projected l retained).
Proof.
  intros Hwf Hret. pose proof (projected_packages l retained Hwf) as Hpk.
  assert (∀ p, p ∈ lf_packages (projected l retained) ↔ pe_path p ∈ retained ∧ p ∈ lf_packages l) as Hin
    by (intros p; by rewrite Hpk, list_elem_of_filter).
  split.
  - rewrite Hpk. eapply sorted_sublist; [|apply (wf_sorted _ Hwf)]. apply fmap_sublist, sublist_filter.
  - intros p [_ Hp]%Hin. by apply (wf_paths _ Hwf).
  - intros path n Hn. apply lookup_retain_paths in Hn as [Hn Hr].
    destruct (wf_names _ Hwf _ _ Hn) as (p & Hp & <- & ?). exists p. by rewrite Hin.
  - intros path m' Hm'. cbn [projected sort_packages with_packages lf_resolution rm_packages] in Hm'.
    rewrite lookup_fmap in Hm'.
    destruct (retain_paths retained (rm_packages (lf_resolution l)) !! path) as [m|] eqn:Hm; [|done].
    injection Hm' as <-. apply lookup_retain_paths in Hm as [Hm Hr].
    destruct (wf_meta _ Hwf _ _ Hm) as [(p & Hp & <- & Hsrc) Hpt].
    destruct (prune_optional_peers_spec retained m) as (Hs & Hd & Ho & Hw & Hpeers & Hctx).
    split; [exists p; rewrite Hin; split_and!; [done..|]; unfold source_ok in *; by rewrite Hs, Hw|].
    intros target Ht. pose proof (projected_points_to l retained p m target Hwf Hret Hp Hr Hm Ht) as Htr.
    assert (placed l target) as (q & Hq & <-) by (by apply elem_of_all_paths, needed_paths, Hret).
    exists q. by rewrite Hin.
Qed.

(** C20. Omitting development packages keeps exactly what production needs: with as
    many steps as packages the projection returns; it holds a package of the
    lock if and only if the package is reachable along runtime edges from one
    that is not marked dev; and the projection of a well-formed lock is
    well-formed, so no remaining edge dangles. *)
Theorem omit_dev_projection l fuel :
  lock_wf l → omit_fuel l ≤ fuel →
  ∃ l', project_lockfile_omitting_dev l fuel = Some l' ∧
    (∀ p, p ∈ lf_packages l' ↔ p ∈ lf_packages l ∧ needed l (pe_path p)) ∧ lock_wf l'.
Proof.
  intros Hwf Hfuel. destruct (retain_needed l fuel Hfuel) as (r & Hr & Hneed).
  unfold project_lockfile_omitting_dev. rewrite Hr. exists (projected l r).
  split; [done|]. split; [|by apply projected_lock_wf].
  intros p. rewrite projected_packages, list_elem_of_filter, Hneed by done. tauto.
Qed.

(** ** Optional packages that the platform filter leaves unreachable *)

(** Every package that declares it is skipped or itself unreachable. *)
Inductive unreachable (l : Lockfile) (skipped : gset string) : string → Prop :=
  | unreachable_optional p :
      p ∈ lf_packages l → pe_optional p = true → pe_path p ∉ skipped →
      re_dependencies (lf_root l) !! pe_name p = None → declarers l (pe_name p) ≠ ∅ →
      (∀ d, d ∈ declarers l (pe_name p) → d ∉ skipped → unreachable l skipped d) →
      unreachable l skipped (pe_path p).

Lemma prunable_spec l skipped pruned p :
  prunable l skipped pruned p = true ↔
  pe_optional p = true ∧ pe_path p ∉ pruned ∧ pe_path p ∉ skipped ∧
  re_dependencies (lf_root l) !! pe_name p = None ∧ declarers l (pe_name p) ≠ ∅ ∧
  declarers l (pe_name p) ⊆ skipped ∪ pruned.
Proof.
  unfold prunable, contains_key.
  rewrite !andb_true_iff, !negb_true_iff, !bool_decide_eq_false, !bool_decide_eq_true.
  rewrite <- eq_None_not_Some. tauto.
Qed.

(** One round, over any part of the package list. *)
Definition round_over (l : Lockfile) (skipped pruned : gset string) (ps : list PackageEntry) : gset string :=
  foldl (λ pruned p, if prunable l skipped pruned p then {[ pe_path p ]} ∪ pruned else pruned) pruned ps.

Lemma round_over_grows l skipped pruned ps : pruned ⊆ round_over l skipped pruned ps.
Proof.
  revert pruned. induction ps as [|p ps IH]; intros pruned; [done|]. unfold round_over. cbn [foldl].
  etransitivity; [|apply IH]. destruct (prunable _ _ _ _); set_solver.
Qed.

Lemma round_over_sound l skipped pruned ps (P : string → Prop) :
  (∀ q, q ∈ pruned → P q) →
  (∀ pruned p, (∀ q, q ∈ pruned → P q) → p ∈ ps → prunable l skipped pruned p = true → P (pe_path p)) →
  ∀ q, q ∈ round_over l skipped pruned ps → P q.
Proof.
  revert pruned. induction ps as [|p ps IH]; intros pruned Hpr Hstep; [done|].
  unfold round_over. cbn [foldl]. apply IH.
  - destruct (prunable l skipped pruned p) eqn:Hp; [|done].
    intros q [->%elem_of_singleton|Hq]%elem_of_union; [|auto]. eapply Hstep; [exact Hpr|by left|done].
  - intros pr q Hpr' Hq. apply Hstep; [done|by right].
Qed.

Lemma round_over_complete l skipped pruned ps p :
  p ∈ ps → prunable l skipped pruned p = true → pe_path p ∈ round_over l skipped pruned ps.
Proof.
  revert pruned. induction ps as [|q ps IH]; intros pruned Hin Hp; [by apply not_elem_of_nil in Hin|].
  unfold round_over. cbn [foldl]. apply elem_of_cons in Hin as [->|Hin].
  - rewrite Hp. apply (round_over_grows l skipped _ ps). set_solver.
  - set (next := if prunable l skipped pruned q then {[pe_path q]} ∪ pruned else pruned).
    destruct (decide (pe_path p ∈ next)) as [Hn|Hn]; [by apply (round_over_grows l skipped _ ps)|].
    apply IH; [done|]. revert Hp. rewrite !prunable_spec. subst next.
    destruct (prunable l skipped pruned q); set_solver.
Qed.

Lemma prune_fixpoint l skipped pruned :
  prune_round l skipped pruned = pruned → ∀ path, unreachable l skipped path → path ∈ pruned.
Proof.
  intros Hfix path Hu. induction Hu as [p Hp Ho Hs Hr Hne _ IH].
  destruct (decide (pe_path p ∈ pruned)) as [|Hnp]; [done|]. rewrite <- Hfix.
  apply round_over_complete; [done|]. apply prunable_spec. split_and!; [done..|].
  intros d Hd. destruct (decide (d ∈ skipped)); set_solver.
Qed.

Lemma prune_round_sound l skipped pruned :
  (∀ q, q ∈ pruned → unreachable l skipped q) →
  ∀ q, q ∈ prune_round l skipped pruned → unreachable l skipped q.
Proof.
  intros Hpr. apply round_over_sound; [done|].
  intros pr p Hpr' Hp (Ho & _ & Hs & Hr & Hne & Hsub)%prunable_spec.
  apply unreachable_optional; [done..|]. intros d Hd Hds. apply Hpr'. set_solver.
Qed.

Lemma unreachable_paths l skipped q : unreachable l skipped q → q ∈ all_paths l.
Proof. intros Hu. apply elem_of_all_paths. destruct Hu as [p Hp _ _ _ _ _]. by exists p. Qed.

Lemma prune_loop_spec l skipped fuel pruned :
  (∀ q, q ∈ pruned → unreachable l skipped q) →
  size (all_paths l ∖ pruned) < fuel →
  ∃ r, prune_loop l skipped fuel pruned = Some r ∧ ∀ q, q ∈ r ↔ unreachable l skipped q.
Proof.
  revert pruned. induction fuel as [|fuel IH]; intros pruned Hpr Hfuel; [lia|]. cbn [prune_loop].
  case_bool_decide as Hfix.
  - exists pruned. split; [done|]. intros q. split; [apply Hpr|by apply prune_fixpoint].
  - apply IH; [by apply prune_round_sound|].
    assert (all_paths l ∖ prune_round l skipped pruned ⊂ all_paths l ∖ pruned) as Hlt.
    { pose proof (round_over_grows l skipped pruned (lf_packages l)) as Hg.
      fold (prune_round l skipped pruned) in Hg. split; [set_solver|]. intros Hsub. apply Hfix.
      apply set_eq. intros q. split; [|set_solver]. intros Hq.
      pose proof (unreachable_paths l skipped q (prune_round_sound l skipped pruned Hpr q Hq)).
      destruct (decide (q ∈ pruned)); [done|]. set_solver. }
    apply subset_size in Hlt. lia.
Qed.

(** The pruning is npm's rule and always ends: with one round more than
    packages the loop returns exactly the optional packages, not declared by
    the root, all of whose declarers are skipped by the platform filter or
    themselves unreachable in this sense; a package with a surviving declarer
    or with none recorded is never dropped. *)
Theorem prune_unreachable_exact l skipped fuel :
  length (lf_packages l) < fuel →
  ∃ pruned, prune_unreachable_optionals l skipped fuel = Some pruned ∧
    ∀ path, path ∈ pruned ↔ unreachable l skipped path.
Proof.
  intros Hfuel. apply prune_loop_spec; [set_solver|]. rewrite difference_empty_L.
  pose proof (size_all_paths l). lia.
Qed.

(** ** The work list *)

Section work.
Context `{Codecs}.

Definition runs_here (l : Lockfile) (target : TargetPlatform) (p : PackageEntry) : Prop :=
  supports (platform_constraints_for l p) target.

(** The paths the platform filter skips. *)
Definition skipped_paths (l : Lockfile) (target : TargetPlatform) (ps : list PackageEntry)
    (path : string) : Prop :=
  ∃ p, p ∈ ps ∧ pe_path p = path ∧ downloadable p = true ∧ pe_optional p = true ∧ ¬ runs_here l target p.

Lemma entry_platform_cases l target p :
  (entry_platform l target p = Ok Compatible ∧ runs_here l target p) ∨
  (¬ runs_here l target p ∧
   if pe_optional p then ∃ d, entry_platform l target p = Ok (SkipOptional d)
   else ∃ e, entry_platform l target p = Err (PlatformFailed e)).
Proof using Type.
  unfold entry_platform.
  destruct (check_package_platform_spec (pe_name p +:+ "@" +:+ pe_version p)
    (platform_constraints_for l p) target (if pe_optional p then OptionalOnly else Required)) as [Hc Hs].
  destruct (check_package_platform _ _ _ _) as [[|d]|e] eqn:Hr.
  - left. split; [done|]. by apply Hc.
  - right. split; [intros Hrun%Hc; discriminate|]. destruct (pe_optional p); [by eexists|].
    destruct Hs as [Hs|(e & He & _)]; [by apply Hc in Hs|done].
  - right. split; [intros Hrun%Hc; discriminate|]. destruct (pe_optional p); [|by eexists].
    destruct Hs as [Hs|(d & He & _)]; [by apply Hc in Hs|done].
Qed.

(** A package that must run here and cannot. *)
Definition required_unsupported (l : Lockfile) (target : TargetPlatform) (p : PackageEntry) : Prop :=
  p ∈ lf_packages l ∧ downloadable p = true ∧ pe_optional p = false ∧ ¬ runs_here l target p.

Lemma skipped_paths_snoc l target ps p path :
  skipped_paths l target (ps ++ [p]) path ↔ skipped_paths l target ps path ∨
    pe_path p = path ∧ downloadable p = true ∧ pe_optional p = true ∧ ¬ runs_here l target p.
Proof using Type.
  unfold skipped_paths. split.
  - intros (q & [Hq| ->%list_elem_of_singleton]%elem_of_app & ?); [left; by exists q|by right].
  - intros [(q & Hq & ?)|?]; [exists q|exists p]; rewrite elem_of_app, list_elem_of_singleton; tauto.
Qed.

Lemma platform_skips_spec l target :
  match platform_skips l target with
  | Ok skipped => (∀ path, path ∈ skipped ↔ skipped_paths l target (lf_packages l) path) ∧
                  ∀ p, ¬ required_unsupported l target p
  | Err e => ∃ p, required_unsupported l target p
  end.
Proof using Type.
  destruct (platform_skips l target) as [skipped|e] eqn:Hs; unfold platform_skips in Hs.
  - enough ((∀ path, path ∈ skipped ↔ skipped_paths l target (lf_packages l) path) ∧
      ∀ p, p ∈ lf_packages l → downloadable p = true → pe_optional p = false → runs_here l target p) as [? Hr].
    { split; [done|]. intros p (? & ? & ? & Hn). apply Hn. by apply Hr. }
    revert Hs. apply (fold_res_prefix_inv (λ done s,
      (∀ path, path ∈ s ↔ skipped_paths l target done path) ∧
      ∀ p, p ∈ done → downloadable p = true → pe_optional p = false → runs_here l target p)).
    + split; [|by intros p Hp%not_elem_of_nil]. intros path. split; [set_solver|].
      by intros (p & Hp%not_elem_of_nil & _).
    + clear skipped. intros done s p s' [IHs IHr] _.
      assert (∀ q, (q = p → downloadable q = true → pe_optional q = false → runs_here l target q) →
        q ∈ done ++ [p] → downloadable q = true → pe_optional q = false → runs_here l target q) as Hsnoc.
      { intros q Hq [Hin| ->%list_elem_of_singleton]%elem_of_app; [by apply IHr|by apply Hq]. }
      destruct (downloadable p) eqn:Hd; cbn [negb].
      * destruct (entry_platform_cases l target p) as [[-> Hrun]|[Hrun Hopt]].
        -- intros [= <-]. split; [intros path; rewrite IHs, skipped_paths_snoc; tauto|].
           intros q. apply Hsnoc. by intros ->.
        -- destruct (pe_optional p) eqn:Ho; destruct Hopt as [d ->]; [|done]. intros [= <-]. split.
           ++ intros path. rewrite elem_of_union, IHs, elem_of_singleton, skipped_paths_snoc.
              split; [intros [->|?]; [by right|by left]|intros [?|[? _]]; [by right|by left]].
           ++ intros q. apply Hsnoc. intros ->. congruence.
      * intros [= <-]. split; [|intros q; apply Hsnoc; congruence].
        intros path. rewrite IHs, skipped_paths_snoc. split; [by left|].
        intros [?|(_ & Hd' & _)]; [done|congruence].
  - apply fold_res_Err in Hs as (pre & p & post & s & Hl & _ & Hp). exists p.
    destruct (downloadable p) eqn:Hd; [|done]. cbn [negb] in Hp.
    split_and!; [rewrite Hl; set_solver|done|..];
      (destruct (entry_platform_cases l target p) as [[He Hrun]|[Hrun Hopt]]; [by rewrite He in Hp|]);
      [|done]. destruct (pe_optional p); [destruct Hopt as [d Hd']; by rewrite Hd' in Hp|done].
Qed.

(** The item of a package. *)
Definition work_of (frozen : bool) (p : PackageEntry) (w : InstallWork) : Prop :=
  iw_path w = Some (pe_path p) ∧ iw_name w = pe_name p ∧ iw_url w = pe_resolved p ∧
  (frozen = true → is_Some (iw_integrity w)) ∧
  match pe_integrity p with
  | Some value => ∃ d, Integrity_parse value = Ok d ∧ iw_integrity w = Some d
  | None => iw_integrity w = None
  end.

(** Its integrity does not parse, or is missing where one is required. *)
Definition unverifiable (frozen : bool) (p : PackageEntry) : Prop :=
  match pe_integrity p with
  | Some value => ∃ e, Integrity_parse value = Err e
  | None => frozen = true
  end.

Lemma entry_work_fold l frozen root excluded ps work0 :
  match fold_res (entry_work l frozen root excluded) work0 ps with
  | Ok work => ∃ new, work = work0 ++ new ∧ Forall2 (work_of frozen)
      (filter (λ p, downloadable p = true ∧ pe_path p ∉ excluded) ps) new
  | Err e => ∃ p, p ∈ ps ∧ downloadable p = true ∧ pe_path p ∉ excluded ∧ unverifiable frozen p
  end.
Proof using Type.
  revert work0. induction ps as [|p ps IH]; intros work0; cbn [fold_res].
  { exists []. rewrite app_nil_r. by split. }
  change (entry_work l frozen root excluded work0 p) with
    (if negb (downloadable p) || bool_decide (pe_path p ∈ excluded) then Ok work0
     else (i ← entry_integrity frozen p;
           Ok (work0 ++ [mk_InstallWork (Some (pe_path p)) (pe_name p) (pe_resolved p) i
                           (patch_overlay l root p)]))).
  destruct (negb (downloadable p) || bool_decide (pe_path p ∈ excluded)) eqn:Hskip.
  - cbn [mbind result_bind]. rewrite filter_cons_False.
    2:{ intros [Hd He]. rewrite Hd in Hskip. by rewrite bool_decide_eq_false_2 in Hskip. }
    specialize (IH work0). destruct (fold_res _ _ ps); [done|].
    destruct IH as (q & ? & ?). exists q. split; [by right|done].
  - apply orb_false_iff in Hskip as [Hd%negb_false_iff He%bool_decide_eq_false].
    rewrite filter_cons_True by done.
    assert (match entry_integrity frozen p with
            | Ok i => (frozen = true → is_Some i) ∧ match pe_integrity p with
                      | Some value => ∃ d, Integrity_parse value = Ok d ∧ i = Some d
                      | None => i = None end
            | Err e => unverifiable frozen p end) as Hi.
    { unfold entry_integrity, unverifiable. destruct (pe_integrity p) as [value|].
      - destruct (Integrity_parse value) as [d|e] eqn:Hp; simpl; [|by eexists].
        split; [by eexists|]. by exists d.
      - destruct frozen; simpl; done. }
    destruct (entry_integrity frozen p) as [i|e]; cbn [mbind result_bind].
    + specialize (IH (work0 ++ [mk_InstallWork (Some (pe_path p)) (pe_name p) (pe_resolved p) i
        (patch_overlay l root p)])). destruct (fold_res _ _ ps).
      * destruct IH as (new & -> & Hnew). eexists (_ :: new). rewrite <- app_assoc. split; [done|].
        constructor; [|done]. unfold work_of. cbn. tauto.
      * destruct IH as (q & ? & ?). exists q. split; [by right|done].
    + exists p. split; [by left|done].
Qed.

(** What an install downloads. *)
Definition installs (l : Lockfile) (target : TargetPlatform) (skipped : gset string) (p : PackageEntry) : Prop :=
  downloadable p = true ∧ pe_path p ∉ skipped ∧ ¬ unreachable l skipped (pe_path p).

(** C21. The download list is exact: it fails only for a required package that the
    platform does not support, or for a package it would install whose
    integrity does not parse or, in a frozen install, is absent; otherwise it
    holds, in lock order, one item for every downloadable package that is
    neither skipped by the platform filter nor unreachable without the skipped
    ones, with the lock's URL and its parsed digest. *)
Theorem install_work_exact l frozen root target fuel :
  length (lf_packages l) < fuel →
  match build_install_work l frozen root target fuel with
  | Ok (Some work) =>
      (∀ p, ¬ required_unsupported l target p) ∧
      ∃ skipped kept, (∀ path, path ∈ skipped ↔ skipped_paths l target (lf_packages l) path) ∧
        sublist kept (lf_packages l) ∧ Forall2 (work_of frozen) kept work ∧
        ∀ p, p ∈ kept ↔ p ∈ lf_packages l ∧ installs l target skipped p
  | Ok None => False
  | Err _ =>
      (∃ p, required_unsupported l target p) ∨
      ∃ p, p ∈ lf_packages l ∧ downloadable p = true ∧ ¬ skipped_paths l target (lf_packages l) (pe_path p) ∧
        unverifiable frozen p
  end.
Proof using Type.
  intros Hfuel. unfold build_install_work. pose proof (platform_skips_spec l target) as Hs.
  destruct (platform_skips l target) as [skipped|e]; cbn [mbind result_bind]; [|by left].
  destruct Hs as [Hsk Hreq].
  destruct (prune_loop_spec l skipped fuel ∅) as (pruned & Hp & Hpr).
  { set_solver. }
  { rewrite difference_empty_L. pose proof (size_all_paths l). lia. }
  unfold prune_unreachable_optionals. rewrite Hp.
  pose proof (entry_work_fold l frozen root (skipped ∪ pruned) (lf_packages l) []) as Hw.
  destruct (fold_res _ _ _) as [work|e]; cbn [mbind result_bind].
  - split; [done|]. destruct Hw as (new & -> & Hw). exists skipped, (filter (λ p, downloadable p = true ∧ pe_path p ∉ skipped ∪ pruned) (lf_packages l)).
    split; [done|]. split; [apply sublist_filter|]. split; [exact Hw|].
    intros p. rewrite list_elem_of_filter, not_elem_of_union, Hpr. unfold installs. tauto.
  - right. destruct Hw as (p & Hin & Hd & [Hns _]%not_elem_of_union & Hu). exists p.
    rewrite <- Hsk. done.
Qed.
End work.

(** ** The frozen gate *)

Section frozen.
Context `{Sv : Semver}.

(** The locked root version lies in the range that is declared for it. *)
Definition frozen_version_ok (l : Lockfile) (overrides : gmap string string) (name spec : string) : Prop :=
  let effective := default spec (overrides !! name) in
  is_registry_spec effective = true →
  ∀ range placement v, VersionRange_parse effective = Ok range →
    lock_entry l (installed_path name) = Some placement → version_of (pe_version placement) = Some v →
    range_matches range v = true.

Lemma frozen_root_version_Ok l overrides name spec :
  frozen_root_version l overrides (name, spec) = Ok () ↔ frozen_version_ok l overrides name spec.
Proof.
  unfold frozen_root_version, frozen_version_ok. set (effective := default spec (overrides !! name)).
  destruct (is_registry_spec effective); cbn [negb]; [|done].
  destruct (VersionRange_parse effective) as [range|e]; [|done].
  destruct (lock_entry l (installed_path name)) as [p|]; [|done].
  destruct (version_of (pe_version p)) as [v|] eqn:Hv.
  - destruct (range_matches range v) eqn:Hr; cbn [negb].
    + split; [|done]. intros _ _ r q w [= <-] [= <-] Hw. rewrite Hv in Hw. by injection Hw as <-.
    + split; [done|]. intros H. by rewrite (H eq_refl range p v) in Hr.
  - split; [|done]. intros _ _ r q w [= <-] [= <-] Hw. by rewrite Hv in Hw.
Qed.

Definition frozen_versions_ok (m : PackageManifest) (l : Lockfile) (overrides : gmap string string) : Prop :=
  ∀ name spec, root_dependency_declarations m !! name = Some spec →
    frozen_version_ok l overrides name spec.

Lemma validate_frozen_Ok m l overrides :
  validate_frozen_root_versions l (root_dependency_declarations m) overrides = Ok () ↔
  frozen_versions_ok m l overrides.
Proof.
  unfold validate_frozen_root_versions, frozen_versions_ok. rewrite each_res_Ok. split.
  - intros H name spec Hs. apply frozen_root_version_Ok. apply H. by apply elem_of_bt_list.
  - intros H [name spec] Hs%elem_of_bt_list. by apply frozen_root_version_Ok, H.
Qed.

Lemma enforce_frozen_Ok m l :
  enforce_frozen m l = Ok () ↔
  re_dependencies (lf_root l) = root_dependency_declarations m ∧
  rr_dev_dependencies (rm_root (lf_resolution l)) = mf_dev_dependencies m ∧
  rr_optional_dependencies (rm_root (lf_resolution l)) = mf_optional_dependencies m ∧
  ∃ o, normalize_root_overrides (mf_overrides m) (root_dependency_declarations m) Root = Ok o ∧
    rr_overrides (rm_root (lf_resolution l)) = os_normalized o ∧ frozen_versions_ok m l (os_normalized o).
Proof.
  unfold enforce_frozen.
  destruct (normalize_root_overrides _ _ _) as [o|e]; cbn [map_err mbind result_bind]; [|naive_solver].
  rewrite <- andb_assoc, <- andb_assoc.
  destruct (_ && _) eqn:Hall.
  - apply andb_true_iff in Hall as [H1%bool_decide_eq_true Hall].
    apply andb_true_iff in Hall as [H2%bool_decide_eq_true Hall].
    apply andb_true_iff in Hall as [H3%bool_decide_eq_true H4%bool_decide_eq_true].
    rewrite validate_frozen_Ok. split.
    + intros Hv. split_and!; [done..|]. by exists o.
    + by intros (_ & _ & _ & o' & [= <-] & _ & Hv).
  - split; [done|]. intros (H1 & H2 & H3 & o' & [= <-] & H4 & _).
    by rewrite !bool_decide_eq_true_2 in Hall.
Qed.

(** A name that only development and peer groups declare, with one spec each. *)
Definition dev_peer_agree (m : PackageManifest) : Prop :=
  ∀ name dev peer, mf_dependencies m !! name = None → mf_optional_dependencies m !! name = None →
    mf_dev_dependencies m !! name = Some dev → mf_peer_dependencies m !! name = Some peer → dev = peer.

Lemma npm_root_dependencies_agree m :
  npm_root_dependencies m = root_dependency_declarations m ↔ dev_peer_agree m.
Proof.
  unfold npm_root_dependencies, root_dependency_declarations, fill_missing, replace_all, dev_peer_agree.
  rewrite map_eq_iff. split.
  - intros H name dev peer Hd Ho Hv Hp. specialize (H name). rewrite !lookup_union, Hd, Ho, Hv, Hp in H.
    by injection H.
  - intros H name. specialize (H name). rewrite !lookup_union. revert H.
    destruct (mf_dependencies m !! name), (mf_optional_dependencies m !! name),
      (mf_dev_dependencies m !! name), (mf_peer_dependencies m !! name); simpl; try done.
    intros H. by rewrite (H _ _ eq_refl eq_refl eq_refl eq_refl).
Qed.
End frozen.

Section import_frozen.
Context `{Sv : Semver} `{Codecs} `{NC : NpmCodec}.
Variables (hash_bytes : string → Sha512Digest) (fetch : string → option string).

(** npm's root row for a manifest. *)
Definition root_row_of (m : PackageManifest) (row : RawPkg) : Prop :=
  rp_dependencies row = mf_dependencies m ∧ rp_dev_dependencies row = mf_dev_dependencies m ∧
  rp_optional_dependencies row = mf_optional_dependencies m ∧
  rp_peer_dependencies row = mf_peer_dependencies m.

(** A lock imported from an up-to-date [package-lock.json] and enriched with
    the manifest passes the frozen gate exactly when every name that only the
    development and peer groups declare has the same spec in both and every
    locked root version lies in its declared range: the importer prefers the
    development spec, the gate the peer spec. *)
Theorem import_frozen_exact t raw row report m l :
  npm_from_str t = Ok raw → rl_packages raw !! "" = Some row → root_row_of m row →
  import hash_bytes fetch t = Ok report →
  apply_manifest_root_metadata (ir_lockfile report) m = Ok l →
  ∃ o, normalize_root_overrides (mf_overrides m) (root_dependency_declarations m) Root = Ok o ∧
    (enforce_frozen m l = Ok () ↔ dev_peer_agree m ∧ frozen_versions_ok m l (os_normalized o)).
Proof using Type.
  intros Hraw Hrow (Hd & Hv & Ho & Hp) (raw' & st & Hraw' & _ & ->)%import_inv Happly.
  rewrite Hraw in Hraw'. injection Hraw' as <-. unfold apply_manifest_root_metadata in Happly.
  apply bind_Ok in Happly as (o & Hnorm%map_err_Ok & [= <-]). exists o. split; [done|].
  rewrite enforce_frozen_Ok, <- npm_root_dependencies_agree, Hnorm.
  cbn [lf_root lf_resolution rm_root rr_dev_dependencies rr_optional_dependencies rr_overrides].
  assert (re_dependencies (import_root raw) = npm_root_dependencies m) as Hroot
    by (unfold import_root; rewrite Hrow; cbn [re_dependencies]; by rewrite Hd, Hv, Ho, Hp).
  cbn [import_report ir_lockfile sort_packages with_packages lf_root]. rewrite Hroot.
  split.
  - by intros (Ha & _ & _ & o' & [= <-] & _ & Hver).
  - intros [Ha Hver]. split_and!; [done..|]. by exists o.
Qed.
End import_frozen.

(** ** Outcomes *)

Lemma path_to_index_lookup l path i :
  NoDup (pe_path <$> lf_packages l) →
  path_to_index l !! path = Some i ↔ ∃ p, lf_packages l !! i = Some p ∧ pe_path p = path.
Proof.
  intros Hnd. unfold path_to_index.
  assert (∀ ips m, foldl (λ (m : gmap string nat) (ip : nat * PackageEntry), <[pe_path ip.2 := ip.1]> m) m ips =
    foldl (λ m kv, <[kv.1 := kv.2]> m) m ((λ ip, (pe_path ip.2, ip.1)) <$> ips)) as ->.
  { induction ips as [|ip ips IH]; intros m; [done|]. apply IH. }
  assert (((λ ip : nat * PackageEntry, (pe_path ip.2, ip.1)) <$> imap (λ i p, (i, p)) (lf_packages l)).*1
          = pe_path <$> lf_packages l) as Hkeys.
  { rewrite <- list_fmap_compose. rewrite fmap_imap. apply list_eq. intros j.
    rewrite list_lookup_imap, list_lookup_fmap. done. }
  rewrite foldl_insert_lookup by (by rewrite Hkeys). rewrite lookup_empty, list_elem_of_fmap. split.
  - intros [([j p] & [= -> ->] & (k & q & [= -> ->] & Hk)%elem_of_lookup_imap_1)|[_ ?]]; [|done].
    by exists q.
  - intros (p & Hp & <-). left. exists (i, p). split; [done|]. by apply (elem_of_lookup_imap_2 (λ i p, (i, p))).
Qed.

(** The outcome an artifact slot ends up with. *)
Definition outcome_for (outcomes : list FetchOutcome) (path id : string) : Prop :=
  ∃ o, o ∈ outcomes ∧ fo_path o = path ∧ fo_id o = id.

Lemma outcomes_ids_spec l outcomes ids i p :
  NoDup (pe_path <$> lf_packages l) → length ids = length (lf_packages l) →
  lf_packages l !! i = Some p →
  let ids' := foldl (λ ids o, match path_to_index l !! fo_path o with
                              | Some index => <[index := Some (fo_id o)]> ids
                              | None => ids end) ids outcomes in
  length ids' = length (lf_packages l) ∧
  (∀ id, ids' !! i = Some (Some id) → outcome_for outcomes (pe_path p) id ∨ ids !! i = Some (Some id)) ∧
  (pe_path p ∈ fo_path <$> outcomes → ∃ id, ids' !! i = Some (Some id)) ∧
  (∀ id, ids !! i = Some (Some id) → ∃ id', ids' !! i = Some (Some id')).
Proof.
  intros Hnd Hlen Hp. revert ids Hlen. induction outcomes as [|o outcomes IH]; intros ids Hlen ids'.
  { split_and!; [done|by right|by intros ?%not_elem_of_nil|by eauto]. }
  set (ids1 := match path_to_index l !! fo_path o with
               | Some index => <[index := Some (fo_id o)]> ids | None => ids end).
  assert (length ids1 = length (lf_packages l)) as Hlen1.
  { unfold ids1. destruct (path_to_index l !! fo_path o); [by rewrite length_insert|done]. }
  destruct (IH ids1 Hlen1) as (IHl & IHs & IHc & IHk).
  change (foldl _ ids1 outcomes) with ids' in IHl, IHs, IHc, IHk.
  assert (Hi : i < length ids) by (rewrite Hlen; by eapply lookup_lt_Some).
  destruct (decide (fo_path o = pe_path p)) as [Heq|Hne].
  - assert (path_to_index l !! fo_path o = Some i) as Hidx
      by (apply path_to_index_lookup; [done|]; by exists p).
    assert (ids1 !! i = Some (Some (fo_id o))) as Hslot
      by (unfold ids1; rewrite Hidx; by apply list_lookup_insert_eq).
    split_and!; [done| |by intros _; eapply IHk|by intros; eapply IHk].
    intros id [(o' & Ho' & ?)|Hid]%IHs.
    + left. exists o'. split; [by right|done].
    + left. exists o. rewrite Hslot in Hid. injection Hid as <-. split; [by left|done].
  - assert (ids1 !! i = ids !! i) as Hslot.
    { unfold ids1. destruct (path_to_index l !! fo_path o) as [j|] eqn:Hj; [|done].
      apply path_to_index_lookup in Hj as (q & Hq & Hqp); [|done].
      apply list_lookup_insert_ne. intros ->. rewrite Hp in Hq. injection Hq as <-. done. }
    rewrite Hslot in IHs, IHk. split_and!; [done| | |exact IHk].
    + intros id [(o' & Ho' & ?)|Hid]%IHs; [|by right]. left. exists o'. split; [by right|done].
    + intros [Heq|Hin]%elem_of_cons; [done|by apply IHc].
Qed.

(** When the completeness check passes, every downloadable package of the
    lock has an artifact, and it is one that was fetched for its own path. *)
Theorem outcomes_complete l outcomes i p :
  NoDup (pe_path <$> lf_packages l) → assert_outcomes_complete l outcomes = Ok () →
  lf_packages l !! i = Some p → downloadable p = true →
  ∃ id, outcomes_to_artifact_ids outcomes l !! i = Some (Some id) ∧ outcome_for outcomes (pe_path p) id.
Proof.
  intros Hnd Hok Hp Hd. unfold assert_outcomes_complete in Hok. case_bool_decide as Hm; [|done].
  destruct (outcomes_ids_spec l outcomes (replicate (length (lf_packages l)) None) i p)
    as (_ & Hs & Hc & _); [done|by rewrite length_replicate|done|].
  fold (outcomes_to_artifact_ids outcomes l) in Hs, Hc.
  destruct (decide (pe_path p ∈ fo_path <$> outcomes)) as [Hin|Hnin].
  - destruct (Hc Hin) as [id Hid]. exists id. split; [done|]. destruct (Hs id Hid) as [|Hr]; [done|].
    by apply lookup_replicate in Hr as [? _].
  - exfalso. unfold missing_outcomes in Hm. apply fmap_nil_inv in Hm.
    assert (p ∈ filter (λ p, downloadable p = true ∧ pe_path p ∉ fo_path <$> outcomes) (lf_packages l)) as Hf.
    { rewrite list_elem_of_filter. split; [done|]. by eapply list_elem_of_lookup_2. }
    rewrite Hm in Hf. by apply not_elem_of_nil in Hf.
Qed.
