(* ===== verification/Yarn.v ===== *)
(** * [src/yarn_lock.rs]: importing a Yarn v1 lockfile

    The parser of [yarn.lock], the resolution of ranges through its keys, and
    the breadth-first walk that places every reachable package with the hoisting
    placer.  Reading the two files is an argument. *)

From S2P Require Export Hoist Peer Lockfile Manifest Diagnostic NpmLock.
From Stdlib Require Import Ascii.

Record YarnEntry := mk_YarnEntry {
  ye_specs : list string; ye_name : string; ye_version : string; ye_resolved : string;
  ye_integrity : option string;
  ye_dependencies : gmap string string; ye_optional_dependencies : gmap string string;
  ye_peer_dependencies : gmap string string;
  ye_os : list string; ye_cpu : list string }.
Definition YarnEntry_default : YarnEntry := mk_YarnEntry [] "" "" "" None ∅ ∅ ∅ [] [].

Inductive YarnParseError := ExpectedHeader (body : string) | OutsideEntry (body : string).

(** [YarnEntry::key]. *)
Definition entry_key (e : YarnEntry) (name range : string) : bool :=
  existsb (λ spec, bool_decide (spec = name +:+ "@" +:+ range)) (ye_specs e).

(** ** Tokens *)

Definition quote : string := String dquote "".

Definition unquote (token : string) : string :=
  let trimmed := trim token in
  default trimmed (rest ← strip_prefix quote trimmed; strip_suffix quote rest).

Definition field_value (line field : string) : option string :=
  rest ← strip_prefix field line;
  rest ← strip_prefix quote (trim_start rest);
  fst <$> rsplit_once quote rest.

Definition spec_name (spec : string) : option string :=
  match strip_prefix "@" spec with
  | Some rest => (λ p, String "@" p.1) <$> split_once "@" rest
  | None => fst <$> split_once "@" spec
  end.

(** ** The parser *)

Inductive YarnBlock := BOs | BCpu | BDependencies | BOptional | BPeer.

Record yarn_state := mk_yarn_state {
  ys_entries : list YarnEntry; ys_current : option YarnEntry; ys_block : option YarnBlock }.

Definition header_entry (header : string) : YarnEntry :=
  let specs := unquote <$> split_str ", " header in
  let name := foldl (λ name spec, match spec_name spec with
                                  | Some n => if is_empty name then n else name
                                  | None => name
                                  end) "" specs in
  mk_YarnEntry specs name "" "" None ∅ ∅ ∅ [] [].

Definition block_of (body : string) : option YarnBlock :=
  match body with
  | "os" | "os:" => Some BOs
  | "cpu" | "cpu:" => Some BCpu
  | "dependencies" | "dependencies:" => Some BDependencies
  | "optionalDependencies" | "optionalDependencies:" => Some BOptional
  | "peerDependencies" | "peerDependencies:" => Some BPeer
  | _ => None
  end.

Definition with_version (e : YarnEntry) (v : string) : YarnEntry :=
  mk_YarnEntry (ye_specs e) (ye_name e) v (ye_resolved e) (ye_integrity e) (ye_dependencies e)
    (ye_optional_dependencies e) (ye_peer_dependencies e) (ye_os e) (ye_cpu e).
Definition with_resolved (e : YarnEntry) (r : string) : YarnEntry :=
  mk_YarnEntry (ye_specs e) (ye_name e) (ye_version e) r (ye_integrity e) (ye_dependencies e)
    (ye_optional_dependencies e) (ye_peer_dependencies e) (ye_os e) (ye_cpu e).
Definition with_integrity (e : YarnEntry) (i : string) : YarnEntry :=
  mk_YarnEntry (ye_specs e) (ye_name e) (ye_version e) (ye_resolved e) (Some i) (ye_dependencies e)
    (ye_optional_dependencies e) (ye_peer_dependencies e) (ye_os e) (ye_cpu e).

(** A line at indent 2: the entry and the block it opens. *)
Definition field_line (e : YarnEntry) (body : string) : YarnEntry * option YarnBlock :=
  match field_value body "version" with
  | Some version => (with_version e version, None)
  | None =>
      match field_value body "resolved" with
      | Some resolved => (with_resolved e resolved, None)
      | None =>
          match (rest ← strip_prefix "integrity" body;
                 let value := trim_start rest in if is_empty value then None else Some value) with
          | Some integrity => (with_integrity e integrity, None)
          | None => (e, block_of body)
          end
      end
  end.

(** [body.splitn(2, ' ')]. *)
Definition dependency_row (body : string) : string * string :=
  match split_once " " body with
  | Some (name, range) => (unquote name, unquote range)
  | None => (unquote body, "")
  end.

(** A row inside the open block. *)
Definition block_row (e : YarnEntry) (kind : YarnBlock) (body : string) : YarnEntry :=
  let value := unquote body in
  let '(name, range) := dependency_row body in
  match kind with
  | BOs => if is_empty value then e else
      mk_YarnEntry (ye_specs e) (ye_name e) (ye_version e) (ye_resolved e) (ye_integrity e)
        (ye_dependencies e) (ye_optional_dependencies e) (ye_peer_dependencies e)
        (ye_os e ++ [value]) (ye_cpu e)
  | BCpu => if is_empty value then e else
      mk_YarnEntry (ye_specs e) (ye_name e) (ye_version e) (ye_resolved e) (ye_integrity e)
        (ye_dependencies e) (ye_optional_dependencies e) (ye_peer_dependencies e)
        (ye_os e) (ye_cpu e ++ [value])
  | BDependencies =>
      mk_YarnEntry (ye_specs e) (ye_name e) (ye_version e) (ye_resolved e) (ye_integrity e)
        (<[name := range]> (ye_dependencies e)) (ye_optional_dependencies e)
        (ye_peer_dependencies e) (ye_os e) (ye_cpu e)
  | BOptional =>
      mk_YarnEntry (ye_specs e) (ye_name e) (ye_version e) (ye_resolved e) (ye_integrity e)
        (ye_dependencies e) (<[name := range]> (ye_optional_dependencies e))
        (ye_peer_dependencies e) (ye_os e) (ye_cpu e)
  | BPeer =>
      mk_YarnEntry (ye_specs e) (ye_name e) (ye_version e) (ye_resolved e) (ye_integrity e)
        (ye_dependencies e) (ye_optional_dependencies e)
        (<[name := range]> (ye_peer_dependencies e)) (ye_os e) (ye_cpu e)
  end.

Definition yarn_line (st : yarn_state) (raw : string) : result YarnParseError yarn_state :=
  let line := trim_end raw in
  if is_empty (trim line) || starts_with_char "#" (trim_start line) then Ok st
  else
    let body := trim_start line in
    let indent := strlen line - strlen body in
    if (indent =? 0)%nat then
      header ← ok_or (ExpectedHeader body) (strip_suffix ":" body);
      Ok (mk_yarn_state (ys_entries st ++ option_list (ys_current st)) (Some (header_entry header))
            None)
    else
      entry ← ok_or (OutsideEntry body) (ys_current st);
      if (indent =? 2)%nat then
        let '(entry, block) := field_line entry body in
        Ok (mk_yarn_state (ys_entries st) (Some entry) block)
      else
        Ok (match ys_block st with
            | Some kind =>
                mk_yarn_state (ys_entries st) (Some (block_row entry kind body)) (ys_block st)
            | None => st
            end).

Definition parse_yarn_v1 (text : string) : result YarnParseError (list YarnEntry) :=
  st ← fold_res yarn_line (mk_yarn_state [] None None) (lines text);
  Ok (ys_entries st ++ option_list (ys_current st)).

(** ** The import *)


Record Reach := mk_Reach { r_prod : bool; r_optional_only : bool }.

Definition workspace_message `{DebugFormat} (e : YarnEntry) : string :=
  "workspace entry " +:+ str_debug (default "" (head (ye_specs e))) +:+
  " cannot be imported yet; convert workspaces to plain paths first".

Section yarn.
Context `{Sv : Semver} `{Dbg : DebugFormat}.
Variable entries : list YarnEntry.

(** Indices come from the table of [index_entries], which lists positions of
    [entries] only. *)
Definition entry_at (index : nat) : YarnEntry := default YarnEntry_default (entries !! index).

Definition index_step (st : gmap string (list nat) * list Diagnostic) (ie : nat * YarnEntry)
    : gmap string (list nat) * list Diagnostic :=
  let '(by_name, diagnostics) := st in
  let '(index, entry) := ie in
  if existsb (contains_str "workspace:") (ye_specs entry) then
    (by_name, diagnostics ++ [Diagnostic_new Warning "YARN_WORKSPACE_UNSUPPORTED" (workspace_message entry)])
  else if is_empty (ye_resolved entry) then st
  else (<[ye_name entry := default [] (by_name !! ye_name entry) ++ [index]]> by_name, diagnostics).
Definition index_entries : gmap string (list nat) * list Diagnostic :=
  foldl index_step (∅, []) (imap pair entries).

(** The closure [resolve]: an exact key first, then a semver match. *)
Definition yarn_resolve (name range : string) : option nat :=
  candidates ← fst index_entries !! name;
  match find (λ index, entry_key (entry_at index) name range) candidates with
  | Some index => Some index
  | None =>
      find (λ index,
        match version_parse (ye_version (entry_at index)), req_parse range with
        | Ok v, Ok r => req_matches r v
        | _, _ => false
        end) candidates
  end.

(** The closure [merged_deps]: the first declaration of a name wins. *)
Definition merged_deps (index : nat) : gmap string string :=
  let entry := entry_at index in
  ye_dependencies entry ∪ (ye_optional_dependencies entry ∪ ye_peer_dependencies entry).

Definition yarn_root_dependencies (m : PackageManifest) : gmap string string :=
  mf_dependencies m ∪ (mf_dev_dependencies m ∪ mf_optional_dependencies m).

Definition queued := (nat * string * Reach)%type.

Definition seed_step (m : PackageManifest) (st : list queued * list Diagnostic)
    (dep : string * string) : list queued * list Diagnostic :=
  let '(queue, diagnostics) := st in
  let '(name, range) := dep in
  match yarn_resolve name range with
  | Some index =>
      let optional := contains_key name (mf_optional_dependencies m) in
      (queue ++ [(index, "",
         mk_Reach (negb (contains_key name (mf_dev_dependencies m)) ||
                   contains_key name (mf_dependencies m))
                  (optional && negb (contains_key name (mf_dependencies m))))], diagnostics)
  | None =>
      (queue, diagnostics ++ [Diagnostic_new Warning "YARN_MISSING_RESOLUTION"
                                ("no yarn.lock entry satisfies " +:+ name +:+ "@" +:+ range)])
  end.

Record walk := mk_walk {
  w_queue : list queued; w_visited : gset (nat * string); w_reach : gmap string Reach;
  w_placer : Placer; w_placed : list (nat * string); w_emitted : gset string }.

Definition identity (e : YarnEntry) : string := ye_name e +:+ "@" +:+ ye_version e.

(** [existing.prod |= kind.prod; existing.optional_only &= kind.optional_only]. *)
Definition merge_reach (existing kind : Reach) : Reach :=
  mk_Reach (r_prod existing || r_prod kind) (r_optional_only existing && r_optional_only kind).

Definition child_of (index : nat) (path : string) (kind : Reach) (dep : string * string)
    : list queued :=
  match yarn_resolve dep.1 dep.2 with
  | Some dep_index =>
      [(dep_index, path,
        mk_Reach (r_prod kind)
          (r_optional_only kind && contains_key dep.1 (ye_optional_dependencies (entry_at index))))]
  | None => []
  end.

(** One turn of the [while let] loop. *)
Definition yarn_step (w : walk) (item : queued) (queue : list queued) : walk :=
  let '(index, dependent, kind) := item in
  let entry := entry_at index in
  let id := identity entry in
  if bool_decide ((index, dependent) ∈ w_visited w) then
    mk_walk queue (w_visited w) (alter (λ e, merge_reach e kind) id (w_reach w)) (w_placer w)
      (w_placed w) (w_emitted w)
  else
    let visited := {[ (index, dependent) ]} ∪ w_visited w in
    let reach := <[id := merge_reach (default kind (w_reach w !! id)) kind]> (w_reach w) in
    let '(placer, path) := place (w_placer w) (ye_name entry) (ye_version entry) dependent in
    mk_walk (queue ++ (bt_list (merged_deps index) ≫= child_of index path kind)) visited reach placer
      (if bool_decide (path ∈ w_emitted w) then w_placed w else w_placed w ++ [(index, path)])
      ({[ path ]} ∪ w_emitted w).

(** [None] is running out of fuel; see [yarn_walk_returns]. *)
Fixpoint yarn_walk (fuel : nat) (w : walk) : option walk :=
  match w_queue w with
  | [] => Some w
  | item :: queue =>
      match fuel with
      | 0 => None
      | S fuel => yarn_walk fuel (yarn_step w item queue)
      end
  end.

Definition placed_package (reach : gmap string Reach) (placed : nat * string) : PackageEntry :=
  let '(index, path) := placed in
  let entry := entry_at index in
  let kind := default (mk_Reach true false) (reach !! identity entry) in
  mk_PackageEntry path (ye_name entry) (ye_version entry) (ye_resolved entry) None
    (value ← ye_integrity entry; if starts_with "sha512-" value then Some value else None)
    false (negb (r_prod kind)) (r_optional_only kind) (ye_os entry) (ye_cpu entry) ∅
    (merged_deps index).

Definition yarn_seeds (m : PackageManifest) : list queued * list Diagnostic :=
  foldl (seed_step m) ([], snd index_entries) (bt_list (yarn_root_dependencies m)).

Definition yarn_start (m : PackageManifest) : walk :=
  mk_walk (fst (yarn_seeds m)) ∅ ∅ Placer_default [] ∅.

Definition yarn_report (m : PackageManifest) (w : walk) : ImportReport :=
  let lock := Lockfile_new "bpm" in
  let root := RootResolution_default in
  mk_ImportReport
    (sort_packages
       (mk_Lockfile (lf_lockfile_version lock) (lf_generator lock)
          (mk_RootEntry (Some (default "root" (mf_name m))) (mf_version m) (yarn_root_dependencies m))
          (placed_package (w_reach w) <$> w_placed w)
          (mk_ResolutionMetadata
             (mk_RootResolution (mf_dev_dependencies m) (mf_optional_dependencies m)
                (rr_overrides root) (rr_workspace_patterns root) (rr_workspace_index_digest root)
                (rr_target root) (rr_peer_mode root))
             ∅ ∅)))
    (sort_diagnostics (snd (yarn_seeds m))).
End yarn.

Definition import_yarn_v1 `{Sv : Semver} `{Dbg : DebugFormat} (fuel : nat) (text : string) (m : PackageManifest)
    : result YarnParseError (option ImportReport) :=
  entries ← parse_yarn_v1 text;
  Ok (yarn_report entries m <$> yarn_walk entries fuel (yarn_start entries m)).
