(* ===== verification/YarnTheory.v ===== *)
(** * The Yarn import: termination and correctness of the walk

    Over an acyclic lockfile the walk returns; and whenever it returns, every
    dependency of every placed package resolves, by Node's lookup on the final
    tree, to the version its range selects in the lockfile. *)

From S2P Require Export Worklist Yarn.
From Stdlib Require Import Ascii.

Section theory.
Context `{Sv : Semver} `{Dbg : DebugFormat}.
Variable entries : list YarnEntry.

Notation entry_at := (entry_at entries).
Notation resolve := (yarn_resolve entries).
Notation name_at i := (ye_name (entry_at i)).
Notation version_at i := (ye_version (entry_at i)).

(** ** Resolution *)

Definition table_ok (by_name : gmap string (list nat)) : Prop :=
  ∀ name l i, by_name !! name = Some l → i ∈ l → ∃ e, entries !! i = Some e ∧ ye_name e = name.

Lemma index_entries_ok : table_ok (fst (index_entries entries)).
Proof.
  unfold index_entries.
  assert (∀ l st, (∀ i e, (i, e) ∈ l → entries !! i = Some e) → table_ok (fst st) →
    table_ok (fst (foldl index_step st l))) as H.
  { induction l as [|[i e] l IH]; intros [m d] Hl Hm; [done|]. simpl. apply IH.
    { intros j f Hf. apply Hl. by right. }
    unfold index_step. destruct (existsb _ _); [done|]. destruct (is_empty _); [done|].
    intros name l' j. simpl. destruct (decide (name = ye_name e)) as [->|Hne].
    - rewrite lookup_insert_eq. intros [= <-] [Hj|Hj%list_elem_of_singleton]%elem_of_app.
      + destruct (m !! ye_name e) as [l'|] eqn:He; [|by apply not_elem_of_nil in Hj].
        by eapply Hm.
      + subst j. exists e. split; [apply Hl; by left|done].
    - rewrite lookup_insert_ne by done. apply Hm. }
  apply H.
  - intros i e (j & x & [= -> ->] & Hx)%elem_of_lookup_imap. done.
  - intros name l i. simpl. by rewrite lookup_empty.
Qed.

(** A resolved index is an entry of the requested name. *)
Lemma yarn_resolve_name name range i :
  resolve name range = Some i → is_Some (entries !! i) ∧ name_at i = name.
Proof.
  unfold yarn_resolve. intros (l & Hl & Hf)%bind_Some.
  assert (i ∈ l) as Hi.
  { destruct (find _ l) eqn:H1 in Hf.
    - injection Hf as ->. apply find_some in H1 as [H1 _]. by apply list_elem_of_In.
    - apply find_some in Hf as [Hf _]. by apply list_elem_of_In. }
  destruct (index_entries_ok name l i Hl Hi) as (e & He & Hn).
  unfold Yarn.entry_at. rewrite He. by split; [eexists|].
Qed.

(** ** The children of an entry and the roots *)

Definition targets (deps : gmap string string) : list nat :=
  omap (λ d : string * string, resolve d.1 d.2) (bt_list deps).

Lemma elem_of_targets deps i :
  i ∈ targets deps ↔ ∃ name range, deps !! name = Some range ∧ resolve name range = Some i.
Proof.
  unfold targets. rewrite list_elem_of_omap. split.
  - intros ([name range] & Hd%elem_of_bt_list & Hr). eauto.
  - intros (name & range & Hd%elem_of_bt_list & Hr). by exists (name, range).
Qed.

(** Two different targets have different names. *)
Lemma targets_names deps i j : i ∈ targets deps → j ∈ targets deps → name_at i = name_at j → i = j.
Proof.
  rewrite !elem_of_targets. intros (n & r & Hd & Hr) (n' & r' & Hd' & Hr') Heq.
  apply yarn_resolve_name in Hr as Hn. apply yarn_resolve_name in Hr' as Hn'.
  destruct Hn as [_ Hn], Hn' as [_ Hn']. assert (n = n') as -> by congruence.
  rewrite Hd in Hd'. injection Hd' as <-. congruence.
Qed.

Definition children (i : nat) : list nat := targets (merged_deps entries i).
Definition roots (m : PackageManifest) : list nat := targets (yarn_root_dependencies m).

(** A queue entry without its reachability. *)
Definition edge (q : queued) : nat * string := q.1.

Lemma child_edges i path kind :
  edge <$> (bt_list (merged_deps entries i) ≫= child_of entries i path kind) =
  (λ j, (j, path)) <$> children i.
Proof.
  unfold children, targets. induction (bt_list (merged_deps entries i)) as [|d l IH]; [done|].
  rewrite bind_cons, fmap_app, IH. simpl. unfold child_of.
  by destruct (resolve d.1 d.2).
Qed.

Lemma seed_edges m :
  edge <$> fst (yarn_seeds entries m) = (λ j, (j, "")) <$> roots m.
Proof.
  unfold yarn_seeds, roots, targets.
  assert (∀ l st, edge <$> fst (foldl (seed_step entries m) st l) =
    (edge <$> fst st) ++ ((λ j, (j, "")) <$> omap (λ d : string * string, resolve d.1 d.2) l)) as H.
  { induction l as [|[n r] l IH]; intros [q d]; [by rewrite app_nil_r|]. cbn [foldl].
    rewrite IH. simpl. destruct (resolve n r); [|done]. simpl.
    by rewrite fmap_app, <- (assoc_L (++)). }
  by rewrite H.
Qed.

(** ** Termination over an acyclic lockfile *)

Context (rank : nat → nat) (Hrank : ∀ i j, j ∈ children i → rank j < rank i).
Notation price := (price children rank).

Definition entry_of (x : nat * string) : nat := x.1.
Definition turns (queue : list queued) : nat := weight_sum price (entry_of <$> (edge <$> queue)).

Lemma entries_of_edges (path : string) (l : list nat) : entry_of <$> ((λ j, (j, path)) <$> l) = l.
Proof using.
  rewrite <- list_fmap_compose. change (entry_of ∘ (λ j : nat, (j, path))) with (λ j : nat, j).
  by rewrite list_fmap_id.
Qed.

Lemma turns_step w item queue :
  turns (w_queue (yarn_step entries w item queue)) < turns (item :: queue).
Proof using Hrank.
  destruct item as [[i d] kind]. unfold yarn_step, turns. rewrite !fmap_cons.
  cbn [edge entry_of fst weight_sum foldr]. fold (weight_sum price (entry_of <$> (edge <$> queue))).
  pose proof (price_pos children rank i).
  case_bool_decide; cbn [w_queue]; [lia|].
  destruct (place _ _ _ _) as [pl path]. cbn [w_queue].
  rewrite !fmap_app, weight_sum_app, child_edges, entries_of_edges.
  pose proof (price_children children rank Hrank i). lia.
Qed.

Lemma walk_returns fuel w : turns (w_queue w) ≤ fuel → ∃ w', yarn_walk entries fuel w = Some w'.
Proof using Hrank.
  revert w. induction fuel as [|fuel IH]; intros w Hf; simpl;
    destruct (w_queue w) as [|item queue] eqn:Hq; [by eexists| |by eexists|].
  - exfalso. pose proof (turns_step w item queue). lia.
  - apply IH. pose proof (turns_step w item queue). lia.
Qed.
End theory.

Section correct.
Context `{Sv : Semver} `{Dbg : DebugFormat}.
Variable entries : list YarnEntry.

Notation entry_at := (entry_at entries).
Notation resolve := (yarn_resolve entries).
Notation name_at i := (ye_name (entry_at i)).
Notation version_at i := (ye_version (entry_at i)).
Notation targets := (targets entries).
Notation children := (children entries).
Notation roots := (roots entries).

(** ** The history of the walk

    The placements made so far, in order; the queue is what remains of the same
    agenda. *)

Definition req_of (x : nat * string) : request := mk_request (name_at x.1) (version_at x.1) x.2.
Definition places (hist : list (nat * string)) : Placer * list string :=
  place_all Placer_default (req_of <$> hist).

(** [p] is where an entry [i] of the history was placed. *)
Definition owner (hist : list (nat * string)) (p : string) (i : nat) : Prop :=
  ∃ k d, hist !! k = Some (i, d) ∧ (places hist).2 !! k = Some p.

(** The edges that must be on the agenda. *)
Definition wanted (rts : list nat) (hist : list (nat * string)) (x : nat * string) : Prop :=
  (x.2 = "" ∧ x.1 ∈ rts) ∨ ∃ i, owner hist x.2 i ∧ x.1 ∈ children i.

Definition above (d e : string) : Prop := (d = "" ∧ e ≠ "") ∨ (d ≠ e ∧ d ∈ ancestors e).

Record walk_inv (rts : list nat) (hist : list (nat * string)) (w : walk) : Prop := mk_walk_inv {
  wi_visited : ∀ x, x ∈ w_visited w ↔ x ∈ hist;
  wi_placer : w_placer w = (places hist).1;
  wi_ordered : StronglySorted earlier_compatible (req_of <$> hist);
  wi_from : ∀ x, x ∈ hist ++ (edge <$> w_queue w) → wanted rts hist x;
  wi_complete : ∀ x, wanted rts hist x → x ∈ hist ++ (edge <$> w_queue w);
  wi_before : ∀ pre x post y, hist ++ (edge <$> w_queue w) = pre ++ x :: post →
    wanted rts hist y → above y.2 x.2 → y ∈ pre;
  wi_closed : ∀ e i a, owner hist e i → a ∈ ancestors e → ∃ i', owner hist a i';
  wi_emitted : ∀ p, p ∈ w_emitted w ↔ ∃ i, owner hist p i;
  wi_placed : ∀ i p, (i, p) ∈ w_placed w ↔ owner hist p i }.

Lemma places_snoc hist x :
  places (hist ++ [x]) =
    let '(p, path) := place_req (places hist).1 (req_of x) in (p, (places hist).2 ++ [path]).
Proof using.
  unfold places. rewrite fmap_app, place_all_app. simpl.
  destruct (place_all Placer_default (req_of <$> hist)) as [p paths]. simpl.
  by destruct (place_req p (req_of x)).
Qed.

Lemma length_places hist : length (places hist).2 = length hist.
Proof using. unfold places. by rewrite length_place_all, length_fmap. Qed.

Lemma owner_snoc hist i d p i' :
  owner (hist ++ [(i, d)]) p i' ↔
  owner hist p i' ∨ (i' = i ∧ p = (place_req (places hist).1 (req_of (i, d))).2).
Proof using.
  unfold owner. rewrite places_snoc.
  destruct (place_req (places hist).1 (req_of (i, d))) as [pl path] eqn:Hp. simpl. split.
  - intros (k & e & Hk & Hpk). apply lookup_app_Some in Hk as [Hk|[Hlen Hk]].
    + left. exists k, e. split; [done|]. rewrite lookup_app_l in Hpk; [done|].
      rewrite length_places. by eapply lookup_lt_Some.
    + right. apply list_lookup_singleton_Some in Hk as [Hz [= -> ->]]. split; [done|].
      rewrite lookup_app_r in Hpk by (rewrite length_places; lia).
      rewrite length_places, Hz in Hpk. by injection Hpk.
  - intros [(k & e & Hk & Hpk)|[-> ->]].
    + exists k, e. split; by apply lookup_app_l_Some.
    + exists (length hist), d. split; [by apply list_lookup_middle|].
      rewrite <- length_places. by apply list_lookup_middle.
Qed.

Lemma wanted_snoc rts hist i d x :
  wanted rts (hist ++ [(i, d)]) x ↔
  wanted rts hist x ∨
  (x.2 = (place_req (places hist).1 (req_of (i, d))).2 ∧ x.1 ∈ children i).
Proof using.
  unfold wanted. setoid_rewrite owner_snoc. split.
  - intros [?|(i' & [Ho|[-> ->]] & Hc)]; [by do 2 left|left; right; by exists i'|by right].
  - intros [[?|(i' & Ho & Hc)]|[Hp Hc]]; [by left|right; exists i'; auto|right; exists i; auto].
Qed.

Lemma targets_valid deps i : i ∈ targets deps → is_Some (entries !! i).
Proof using. rewrite elem_of_targets. intros (n & r & _ & Hr). by apply yarn_resolve_name in Hr as [? _]. Qed.

Lemma wanted_valid m hist x : wanted (roots m) hist x → is_Some (entries !! x.1).
Proof using. intros [[_ H]|(i & _ & H)]; by eapply targets_valid. Qed.

(** ** Unique owners *)

Context (Hplain : Forall (λ e, plain_name (ye_name e)) entries).
Context (Hdistinct : NoDup ((λ e, (ye_name e, ye_version e)) <$> entries)).

Lemma name_plain i : is_Some (entries !! i) → plain_name (name_at i).
Proof using Hplain.
  intros [e He]. unfold Yarn.entry_at. rewrite He. simpl.
  rewrite Forall_forall in Hplain. by eapply Hplain, list_elem_of_lookup_2.
Qed.

Lemma identity_unique i j :
  is_Some (entries !! i) → is_Some (entries !! j) →
  name_at i = name_at j → version_at i = version_at j → i = j.
Proof using Hdistinct.
  intros [e He] [f Hf]. unfold Yarn.entry_at. rewrite He, Hf. simpl. intros Hn Hv.
  eapply (NoDup_lookup _ i j); [exact Hdistinct|by rewrite list_lookup_fmap, He|].
  rewrite list_lookup_fmap, Hf. simpl. by rewrite Hn, Hv.
Qed.

(** Where an owned path sits in the tree. *)
Lemma owner_slot hist p i :
  StronglySorted earlier_compatible (req_of <$> hist) → owner hist p i →
  ∃ d dir, (i, d) ∈ hist ∧ dir ∈ place_chain d ∧ p = in_dir dir (name_at i) ∧
           slot (places hist).1 dir (name_at i) = Some (version_at i).
Proof using.
  intros Hs (k & d & Hk & Hp).
  destruct (places hist) as [pl paths] eqn:Hpl.
  assert (resolves pl (req_of (i, d)) p) as Hr.
  { eapply place_all_resolves_at; [exact Hs|exact Hpl| |exact Hp].
    by rewrite list_lookup_fmap, Hk. }
  unfold resolves in Hr. apply node_lookup_slot in Hr as (dir & Hdir & -> & Hslot). simpl in *.
  exists d, dir. split; [by eapply list_elem_of_lookup_2|done].
Qed.

Lemma owner_unique hist p i i' :
  (∀ x, x ∈ hist → is_Some (entries !! x.1)) →
  StronglySorted earlier_compatible (req_of <$> hist) →
  owner hist p i → owner hist p i' → i = i'.
Proof using Hplain Hdistinct.
  intros Hv Hs Ho Ho'.
  apply owner_slot in Ho as (d & dir & Hi & Hd & Hp & Hslot); [|done].
  apply owner_slot in Ho' as (d' & dir' & Hi' & Hd' & Hp' & Hslot'); [|done].
  apply Hv in Hi, Hi'. simpl in *.
  destruct (in_dir_inj dir dir' (name_at i) (name_at i')) as [-> Hn].
  - by eapply place_chain_shape.
  - by eapply place_chain_shape.
  - by apply name_plain.
  - by apply name_plain.
  - congruence.
  - apply identity_unique; [done..|]. rewrite Hn in Hslot. congruence.
Qed.

(** ** One turn *)

Context (m : PackageManifest).
Notation inv := (walk_inv (roots m)).

Lemma inv_valid hist w x : inv hist w → x ∈ hist → is_Some (entries !! x.1).
Proof using. intros Hi Hx. eapply wanted_valid, (wi_from _ _ _ Hi), elem_of_app. by left. Qed.

(** Two wanted edges of one dependent with the same name are the same. *)
Lemma wanted_name hist w i j d :
  inv hist w → wanted (roots m) hist (i, d) → wanted (roots m) hist (j, d) →
  name_at i = name_at j → i = j.
Proof using Hplain Hdistinct.
  intros Hi Hwi Hwj Hn.
  assert (∀ e k, owner hist e k → e ≠ "") as Hne.
  { intros e k Ho. apply owner_slot in Ho as (d' & dir & _ & _ & -> & _); [|apply Hi].
    unfold in_dir. intros [_ H]%app_eq_nil_s. by apply app_eq_nil_s in H as [? _]. }
  destruct Hwi as [[Hd H1]|(k & Ho & H1)], Hwj as [[Hd' H2]|(k' & Ho' & H2)]; simpl in *.
  - by eapply targets_names.
  - subst. by apply Hne in Ho'.
  - subst. by apply Hne in Ho.
  - assert (k = k') as ->.
    { eapply owner_unique; [|apply Hi|done|done]. intros x. by apply (inv_valid _ w). }
    by eapply targets_names.
Qed.

(** The next edge comes in an order the placer can serve. *)
Lemma next_compatible hist w i d kind queue :
  inv hist w → w_queue w = (i, d, kind) :: queue → (i, d) ∉ hist →
  Forall (λ r, earlier_compatible r (req_of (i, d))) (req_of <$> hist).
Proof using Hplain Hdistinct.
  intros Hi Hq Hnew. rewrite Forall_fmap, Forall_forall. intros [j e] Hj Hn Hw. exfalso.
  cbn [req_of req_name req_dependent fst snd] in *.
  assert (wanted (roots m) hist (i, d)) as Hwi.
  { apply (wi_from _ _ _ Hi). rewrite Hq, elem_of_app. right. by left. }
  destruct (decide (e = d)) as [->|Hne].
  - apply Hnew. replace i with j; [done|].
    eapply wanted_name; [done| |done|done].
    apply (wi_from _ _ _ Hi), elem_of_app. by left.
  - apply list_elem_of_split in Hj as (l1 & l2 & Hh). apply Hnew. rewrite Hh.
    apply elem_of_app. left. eapply (wi_before _ _ _ Hi l1 (j, e)); [|done|].
    + rewrite Hh, <- (assoc_L (++)). done.
    + unfold above. simpl. destruct Hw as [->|Hw]; [by left|by right].
Qed.

Lemma StronglySorted_snoc {A} (R : A → A → Prop) l x :
  StronglySorted R l → Forall (λ y, R y x) l → StronglySorted R (l ++ [x]).
Proof using.
  induction 1 as [|y l Hl IH Hy]; intros Hf; simpl; [by repeat constructor|].
  apply Forall_cons in Hf as [Hyx Hf]. constructor; [by apply IH|].
  apply Forall_app. by repeat constructor.
Qed.

(** A revisited edge changes no placement. *)
Lemma inv_revisit hist w i d kind queue :
  inv hist w → w_queue w = (i, d, kind) :: queue → (i, d) ∈ hist →
  inv hist (yarn_step entries w (i, d, kind) queue).
Proof using Hplain Hdistinct.
  intros Hi Hq Hin. unfold yarn_step.
  rewrite bool_decide_eq_true_2 by by apply (wi_visited _ _ _ Hi).
  destruct Hi as [H1 H2 H3 H4 H5 H6 H7 H8 H9]. rewrite Hq, fmap_cons in H4, H5, H6.
  change (edge (i, d, kind)) with (i, d) in *.
  constructor; cbn [w_queue w_visited w_placer w_placed w_emitted]; try done.
  - intros x Hx. apply H4. set_solver.
  - intros x Hx%H5. set_solver.
  - intros pre x post y Heq Hw Ha.
    assert ((∃ q1, pre = hist ++ q1 ∧ edge <$> queue = q1 ++ x :: post) ∨
            (∃ h2, hist = pre ++ x :: h2)) as [(q1 & -> & Hqq)|[h2 Hh]].
    { apply app_eq_inv in Heq as [(k & -> & Hk)|(k & -> & Hk)].
      - destruct k as [|x' k]; simpl in Hk.
        + left. exists []. by rewrite !app_nil_r.
        + injection Hk as -> _. right. by exists k.
      - left. exists k. done. }
    + assert (y ∈ hist ++ (i, d) :: q1) as Hy.
      { eapply H6; [|done|done]. rewrite Hqq, <- (assoc_L (++)). done. }
      set_solver.
    + eapply H6; [|done|done]. rewrite Hh, <- (assoc_L (++)). done.
Qed.

Lemma agenda_step hist w i d kind queue path :
  w_queue w = (i, d, kind) :: queue →
  (hist ++ [(i, d)]) ++
    (edge <$> (queue ++ (bt_list (merged_deps entries i) ≫= child_of entries i path kind))) =
  (hist ++ (edge <$> w_queue w)) ++ ((λ j, (j, path)) <$> children i).
Proof using.
  intros ->. rewrite fmap_app, child_edges, fmap_cons, <- !(assoc_L (++)). done.
Qed.

(** The ancestors of a newly placed path have owners. *)
Lemma new_path_closed hist w i d kind queue a :
  let path := (place_req (places hist).1 (req_of (i, d))).2 in
  inv hist w → w_queue w = (i, d, kind) :: queue →
  a ∈ ancestors path → a = path ∨ ∃ i', owner hist a i'.
Proof using Hplain.
  intros path Hi Hq Ha.
  assert (wanted (roots m) hist (i, d)) as Hwi.
  { apply (wi_from _ _ _ Hi). rewrite Hq, elem_of_app. right. by left. }
  assert (plain_name (name_at i)) as Hpn by by eapply name_plain, (wanted_valid m hist (i, d)).
  destruct (place_req (places hist).1 (req_of (i, d))) as [pl q] eqn:Hp. subst path. simpl in Ha.
  apply place_lookup_self, node_lookup_slot in Hp as (dir & Hdir & -> & _).
  cbn [req_of req_name req_dependent fst snd] in *.
  unfold place_chain in Hdir. destruct (is_empty d) eqn:Hd.
  - apply list_elem_of_singleton in Hdir as ->. rewrite ancestors_in_dir_root in Ha by done.
    apply list_elem_of_singleton in Ha. by left.
  - apply is_empty_false in Hd. destruct Hwi as [[? _]|(k & Ho & _)]; [done|]. simpl in Ho.
    rewrite elem_of_app, list_elem_of_fmap, list_elem_of_singleton in Hdir.
    destruct Hdir as [(b & -> & Hb)| ->].
    + apply ancestors_in_dir_nm in Ha as [->|Ha]; [by left| |done]. right.
      eapply (wi_closed _ _ _ Hi); [done|]. by eapply ancestors_trans.
    + rewrite ancestors_in_dir_root in Ha by done.
      apply list_elem_of_singleton in Ha. by left.
Qed.

(** The placement order stays right when the agenda grows. *)
Lemma before_step hist w i d kind queue :
  let path := (place_req (places hist).1 (req_of (i, d))).2 in
  inv hist w → w_queue w = (i, d, kind) :: queue → (i, d) ∉ hist →
  ∀ pre x post y,
    (hist ++ (edge <$> w_queue w)) ++ ((λ j, (j, path)) <$> children i) = pre ++ x :: post →
    wanted (roots m) (hist ++ [(i, d)]) y → above y.2 x.2 → y ∈ pre.
Proof using Hplain Hdistinct.
  intros path Hi Hq Hnew pre x post y Heq Hw Ha.
  assert (StronglySorted earlier_compatible (req_of <$> (hist ++ [(i, d)]))) as Hs.
  { rewrite fmap_app. apply StronglySorted_snoc; [apply Hi|]. by eapply next_compatible. }
  assert ((∃ k, hist ++ (edge <$> w_queue w) = pre ++ x :: k) ∨
          ∃ k, pre = (hist ++ (edge <$> w_queue w)) ++ k ∧
               (λ j, (j, path)) <$> children i = k ++ x :: post) as [[k Hk]|(k & -> & Hk)].
  { apply app_eq_inv in Heq as [(k & Hl & Hk)|(k & -> & Hk)].
    - destruct k as [|x' k]; simpl in Hk.
      + right. exists []. rewrite app_nil_r in *. by rewrite <- Hk.
      + injection Hk as -> _. left. by exists k.
    - right. by exists k. }
  - apply wanted_snoc in Hw as [Hw|[Hy Hc]]; [by eapply (wi_before _ _ _ Hi)|].
    (* the new path is above an agenda entry, so it had an owner already *)
    assert (wanted (roots m) hist x) as Hx.
    { apply (wi_from _ _ _ Hi). rewrite Hk, elem_of_app. right. by left. }
    fold path in Hy.
    assert (∃ i', owner hist path i') as [i' Ho'].
    { destruct Ha as [[Hz _]|[Hne Hin]].
      - exfalso. rewrite Hy in Hz. unfold path in Hz.
        destruct (place_req (places hist).1 (req_of (i, d))) as [pl q] eqn:Hp.
        apply place_lookup_self, node_lookup_slot in Hp as (dir & _ & -> & _). simpl in Hz.
        unfold in_dir in Hz. apply app_eq_nil_s in Hz as [_ Hz].
        by apply app_eq_nil_s in Hz as [? _].
      - destruct Hx as [[Hx _]|(i1 & Ho & _)].
        + rewrite Hx, ancestors_unfold in Hin. simpl in Hin.
          apply list_elem_of_singleton in Hin. congruence.
        + rewrite <- Hy. by eapply (wi_closed _ _ _ Hi). }
    assert (i' = i) as ->.
    { eapply (owner_unique (hist ++ [(i, d)])); [|exact Hs|..].
      - intros z Hz. apply (wanted_valid m hist), (wi_from _ _ _ Hi). rewrite Hq. set_solver.
      - apply owner_snoc. by left.
      - apply owner_snoc. by right. }
    eapply (wi_before _ _ _ Hi); [done| |done]. right. exists i. by rewrite Hy.
  - assert (x.2 = path) as Hxp.
    { assert (x ∈ (λ j, (j, path)) <$> children i) as Hx by (rewrite Hk; set_solver).
      by apply list_elem_of_fmap in Hx as (j & -> & _). }
    apply elem_of_app. left. apply (wi_complete _ _ _ Hi).
    apply wanted_snoc in Hw as [Hw|[Hy _]]; [done|]. exfalso. fold path in Hy.
    rewrite Hxp, Hy in Ha. by destruct Ha as [[-> ?]|[? _]].
Qed.

Lemma inv_visit hist w i d kind queue :
  inv hist w → w_queue w = (i, d, kind) :: queue → (i, d) ∉ hist →
  inv (hist ++ [(i, d)]) (yarn_step entries w (i, d, kind) queue).
Proof using Hplain Hdistinct.
  intros Hi Hq Hnew. unfold yarn_step.
  rewrite bool_decide_eq_false_2 by by rewrite (wi_visited _ _ _ Hi).
  pose proof (places_snoc hist (i, d)) as Hpl. rewrite (wi_placer _ _ _ Hi).
  pose proof (before_step _ _ _ _ _ _ Hi Hq Hnew) as Hbefore.
  pose proof (λ a, new_path_closed _ _ _ _ _ _ a Hi Hq) as Hclosed. simpl in Hclosed, Hbefore.
  pose proof (owner_snoc hist i d) as Hos. pose proof (wanted_snoc (roots m) hist i d) as Hws.
  unfold place_req at 1 in Hpl. cbn [req_of req_name req_version req_dependent fst snd] in Hpl.
  unfold place_req in Hbefore, Hclosed, Hos, Hws.
  cbn [req_of req_name req_version req_dependent fst snd] in Hbefore, Hclosed, Hos, Hws.
  destruct (place (places hist).1 (name_at i) (version_at i) d) as [pl path] eqn:Hp.
  simpl in Hclosed, Hbefore, Hos, Hws.
  assert (StronglySorted earlier_compatible (req_of <$> (hist ++ [(i, d)]))) as Hs.
  { rewrite fmap_app. apply StronglySorted_snoc; [apply Hi|]. by eapply next_compatible. }
  pose proof (agenda_step hist w i d kind queue path Hq) as Hag.
  constructor; cbn [w_queue w_visited w_placer w_placed w_emitted];
    try match goal with
    | |- context [(hist ++ [(i, d)]) ++ ?q] =>
        replace ((hist ++ [(i, d)]) ++ q) with
          ((hist ++ (edge <$> w_queue w)) ++ ((λ j, (j, path)) <$> children i))
          by (symmetry; exact Hag)
    end.
  - intros x. pose proof (wi_visited _ _ _ Hi x). set_solver.
  - by rewrite Hpl.
  - done.
  - intros x [Hx|Hx]%elem_of_app; apply Hws; [left; by apply (wi_from _ _ _ Hi)|right].
    by apply list_elem_of_fmap in Hx as (j & -> & Hj).
  - intros [j e]. rewrite Hws, elem_of_app, list_elem_of_fmap. simpl.
    intros [Hx|[-> Hc]]; [left; by apply (wi_complete _ _ _ Hi)|right; by exists j].
  - exact Hbefore.
  - intros e i' a [Ho|[-> ->]]%Hos Ha.
    + destruct (wi_closed _ _ _ Hi e i' a Ho Ha) as [k Hk]. exists k. apply Hos. by left.
    + destruct (Hclosed a Ha) as [->|[k Hk]]; [exists i; apply Hos; by right|].
      exists k. apply Hos. by left.
  - intros q. rewrite elem_of_union, elem_of_singleton, (wi_emitted _ _ _ Hi). setoid_rewrite Hos.
    split; [intros [->|[k Hk]]; eauto|]. intros (k & [Hk|[-> ->]]); eauto.
  - intros k q. rewrite Hos. case_bool_decide as He.
    + rewrite (wi_placed _ _ _ Hi). split; [by left|]. intros [?|[-> ->]]; [done|].
      apply (wi_emitted _ _ _ Hi) in He as [i' Ho].
      replace i with i'; [done|]. eapply (owner_unique (hist ++ [(i, d)])); [|exact Hs|..].
      * intros z Hz. apply (wanted_valid m hist), (wi_from _ _ _ Hi). rewrite Hq. set_solver.
      * apply Hos. by left.
      * apply Hos. by right.
    + rewrite elem_of_app, list_elem_of_singleton, (wi_placed _ _ _ Hi). split.
      * intros [?|[= -> ->]]; auto.
      * intros [?|[-> ->]]; auto.
Qed.

Lemma inv_start : inv [] (yarn_start entries m).
Proof using Hplain Hdistinct.
  assert (∀ p i, ¬ owner [] p i) as Hno by (intros p i (k & d & Hk & _); by rewrite lookup_nil in Hk).
  assert (∀ x, wanted (roots m) [] x ↔ x ∈ (λ j, (j, "")) <$> roots m) as Hw.
  { intros [j d]. rewrite list_elem_of_fmap. unfold wanted. simpl. split.
    - intros [[-> Hj]|(i & Ho & _)]; [by exists j|by apply Hno in Ho].
    - intros (j' & [= -> ->] & Hj). by left. }
  constructor; cbn [yarn_start w_queue w_visited w_placer w_placed w_emitted];
    rewrite ?seed_edges, ?app_nil_l.
  - set_solver.
  - done.
  - constructor.
  - intros x. by rewrite Hw.
  - intros x. by rewrite Hw.
  - intros pre x post y Heq Hy Ha.
    assert (x ∈ (λ j, (j, "")) <$> roots m) as Hx by (rewrite Heq; set_solver).
    apply Hw, list_elem_of_fmap in Hy as (j & -> & _).
    apply list_elem_of_fmap in Hx as (j' & -> & _). simpl in Ha.
    destruct Ha as [[_ ?]|[? _]]; done.
  - intros e i a Ho. by apply Hno in Ho.
  - intros p. split; [set_solver|]. intros [i Ho]. by apply Hno in Ho.
  - intros i p. split; [set_solver|]. intros Ho. by apply Hno in Ho.
Qed.

Lemma walk_inv_run fuel hist w w' :
  inv hist w → yarn_walk entries fuel w = Some w' → ∃ hist', inv hist' w' ∧ w_queue w' = [].
Proof using Hplain Hdistinct.
  revert hist w. induction fuel as [|fuel IH]; intros hist w Hi; simpl;
    destruct (w_queue w) as [|[[i d] kind] queue] eqn:Hq.
  - intros [= <-]. by exists hist.
  - done.
  - intros [= <-]. by exists hist.
  - destruct (decide ((i, d) ∈ hist)) as [Hin|Hnew].
    + apply (IH hist). by apply inv_revisit.
    + apply (IH (hist ++ [(i, d)])). by apply inv_visit.
Qed.

(** An edge of the history resolves in the final tree. *)
Lemma history_resolves hist w i d :
  inv hist w → (i, d) ∈ hist →
  ∃ path, (i, path) ∈ w_placed w ∧
          node_lookup (w_placer w) d (name_at i) = Some (path, version_at i).
Proof using Hplain Hdistinct.
  intros Hi [k Hk]%list_elem_of_lookup. rewrite (wi_placer _ _ _ Hi).
  assert (is_Some ((places hist).2 !! k)) as [path Hp].
  { apply lookup_lt_is_Some. rewrite length_places. by eapply lookup_lt_Some. }
  exists path. split; [apply (wi_placed _ _ _ Hi); by exists k, d|].
  destruct (places hist) as [pl paths] eqn:Hpl.
  change (resolves pl (req_of (i, d)) path).
  eapply place_all_resolves_at; [apply Hi|exact Hpl| |exact Hp]. by rewrite list_lookup_fmap, Hk.
Qed.

(** Where the dependencies of the package at [path] must resolve. *)
Definition edges_resolve (w : walk) (path : string) (deps : gmap string string) : Prop :=
  ∀ name range j, deps !! name = Some range → resolve name range = Some j →
  ∃ q, node_lookup (w_placer w) path name = Some (q, version_at j) ∧ (j, q) ∈ w_placed w.

End correct.

(** The import of an acyclic lockfile returns: with a rank that every dependency
    edge between entries lowers, there is a number of turns after which the walk
    is over, for every manifest. *)
Theorem yarn_walk_terminates `{Sv : Semver} `{Dbg : DebugFormat} (entries : list YarnEntry)
    (rank : nat → nat) (m : PackageManifest) :
  (∀ i j, j ∈ children entries i → rank j < rank i) →
  ∃ bound, ∀ fuel, bound ≤ fuel → ∃ w, yarn_walk entries fuel (yarn_start entries m) = Some w.
Proof.
  intros Hrank. exists (turns entries rank (w_queue (yarn_start entries m))). intros fuel Hf.
  by apply (walk_returns entries rank Hrank).
Qed.

(** ** Concrete lockfiles *)
Module YarnSample.
#[export] Instance debug : DebugFormat := { str_debug := λ s, quote +:+ s +:+ quote }.
#[export] Instance semver : Semver := Mini.semver.

Definition manifest (deps dev : gmap string string) : PackageManifest :=
  mk_PackageManifest None (Some "app") None None None None ∅ deps dev ∅ ∅ ∅ None ∅ ∅ [] [] [].
Definition entry (name version : string) (deps : gmap string string) : YarnEntry :=
  mk_YarnEntry [name +:+ "@" +:+ version] name version ("https://r/" +:+ name) None deps ∅ ∅ [] [].

(** The root wants [a@1] and [b], [b] wants [a@2]. *)
Definition conflict : list YarnEntry :=
  [entry "a" "1.0.0" ∅; entry "b" "1.0.0" {[ "a" := "2.0.0" ]}; entry "a" "2.0.0" ∅].
Definition conflict_manifest : PackageManifest := manifest {[ "a" := "1.0.0"; "b" := "1.0.0" ]} ∅.

(** [x] is a dev dependency of the root and a dependency of [z], below the
    production dependency [y]; [x] needs [c], which needs [d]. *)
Definition late : list YarnEntry :=
  [entry "x" "1.0.0" {[ "c" := "1.0.0" ]}; entry "c" "1.0.0" {[ "d" := "1.0.0" ]};
   entry "d" "1.0.0" ∅; entry "y" "1.0.0" {[ "z" := "1.0.0" ]}; entry "z" "1.0.0" {[ "x" := "1.0.0" ]}].
Definition late_manifest : PackageManifest :=
  manifest {[ "y" := "1.0.0" ]} {[ "x" := "1.0.0" ]}.

Definition dev_flags (entries : list YarnEntry) (m : PackageManifest) : option (list (string * bool)) :=
  (λ w, (λ p, (pe_name p, pe_dev p)) <$> lf_packages (ir_lockfile (yarn_report entries m w)))
    <$> yarn_walk entries 50 (yarn_start entries m).

(** Code bug: a package first reached as a development dependency and later from
    production is relabelled together with its direct dependencies only; [d] is
    needed in production and is still imported as a development package. *)
Lemma yarn_dev_flag_not_propagated :
  dev_flags late late_manifest =
  Some [("c", false); ("d", true); ("x", false); ("y", false); ("z", false)].
Proof. vm_compute. reflexivity. Qed.

(** Two versions of one package that depend on each other. *)
Definition mutual : list YarnEntry :=
  [entry "a" "1.0.0" {[ "a" := "2.0.0" ]}; entry "a" "2.0.0" {[ "a" := "1.0.0" ]}].
Definition mutual_manifest : PackageManifest := manifest {[ "a" := "1.0.0" ]} ∅.
Definition version_of_entry (k : bool) : string := if k then "2.0.0" else "1.0.0".
Definition index_of (k : bool) : nat := if k then 1 else 0.

(** The walk is at an entry nested below the other one, deeper than anything it
    has claimed or visited. *)
Definition descending (w : walk) : Prop :=
  ∃ k dir kind, w_queue w = [(index_of k, in_dir dir "a", kind)] ∧ nm_shape dir ∧
    starts_with "node_modules/" (in_dir dir "a") = true ∧
    slot (w_placer w) dir "a" = Some (version_of_entry (negb k)) ∧
    (∀ dir' v, slot (w_placer w) dir' "a" = Some v → strlen dir' ≤ strlen dir) ∧
    ∀ i d, (i, d) ∈ w_visited w → strlen d < strlen (in_dir dir "a").

Lemma mutual_children k path kind :
  ∃ kind', bt_list (merged_deps mutual (index_of k)) ≫= child_of mutual (index_of k) path kind =
           [(index_of (negb k), path, kind')].
Proof. destruct k; eexists; vm_compute; reflexivity. Qed.

Lemma place_chain_below dir rest :
  nm_shape dir → starts_with "node_modules/" (in_dir dir "a") = true →
  rest = tail (place_chain (in_dir dir "a")) →
  place_chain (in_dir dir "a") = nm_dir (in_dir dir "a") :: rest ∧ head rest = Some dir.
Proof.
  intros Hs Hp ->.
  assert (plain_name "a") as Hpl by (vm_compute; reflexivity).
  unfold place_chain. destruct (is_empty (in_dir dir "a")) eqn:He.
  { apply is_empty_true in He. by rewrite He in Hp. }
  rewrite ancestors_unfold. split; [done|]. unfold parent_package. rewrite Hp.
  destruct Hs as [-> | [b ->]].
  - rewrite rsplit_root by done. done.
  - rewrite rsplit_nm_dir by done. change (fst <$> Some (b, "a")) with (Some b).
    cbv iota. by rewrite (ancestors_unfold b).
Qed.

Lemma descending_step w :
  descending w → ∃ item, w_queue w = [item] ∧ descending (yarn_step mutual w item []).
Proof.
  intros (k & dir & kind & Hq & Hs & Hp & Hslot & Hdeep & Hvis).
  exists (index_of k, in_dir dir "a", kind). split; [done|].
  set (d := in_dir dir "a") in *.
  assert (strlen dir < strlen d) as Hlen.
  { unfold d, in_dir, strlen. rewrite !length_app_s. simpl. lia. }
  assert (strlen d < strlen (nm_dir d)) as Hlen2.
  { unfold nm_dir, strlen. rewrite !length_app_s. simpl. lia. }
  unfold yarn_step. rewrite bool_decide_eq_false_2 by (intros Hv%Hvis; lia).
  assert (ye_name (entry_at mutual (index_of k)) = "a") as -> by by destruct k.
  assert (ye_version (entry_at mutual (index_of k)) = version_of_entry k) as -> by by destruct k.
  destruct (place_chain_below dir _ Hs Hp eq_refl) as [Hc Hh].
  assert (place (w_placer w) "a" (version_of_entry k) d =
          (claim (w_placer w) (nm_dir d) "a" (version_of_entry k), in_dir (nm_dir d) "a")) as ->.
  { unfold place. fold d in Hc. rewrite Hc. cbn [head default from_option scan_chain].
    assert (slot (w_placer w) (nm_dir d) "a" = None) as ->.
    { destruct (slot (w_placer w) (nm_dir d) "a") as [v|] eqn:Hv; [|done]. apply Hdeep in Hv. lia. }
    fold d in Hh. destruct (tail (place_chain d)) as [|dir1 rest]; [done|]. injection Hh as ->.
    cbn [scan_chain]. rewrite Hslot, bool_decide_eq_false_2 by by destruct k. done. }
  destruct (mutual_children k (in_dir (nm_dir d) "a") kind) as [kind' Hch].
  exists (negb k), (nm_dir d), kind'. cbn [w_queue w_placer w_visited].
  split; [exact Hch|]. split; [right; by eexists|]. split.
  { apply starts_with_true in Hp as [r Hr]. unfold in_dir, nm_dir. rewrite Hr.
    rewrite <- !app_assoc_s. apply starts_with_app. }
  rewrite negb_involutive. split; [by rewrite slot_claim, bool_decide_eq_true_2|]. split.
  - intros dir' v. rewrite slot_claim. case_bool_decide as Hd; [by destruct Hd as [-> _]|].
    intros Hv%Hdeep. lia.
  - assert (strlen (nm_dir d) < strlen (in_dir (nm_dir d) "a")) as Hlen3.
    { unfold in_dir at 1, strlen. rewrite !length_app_s. simpl. unfold strlen in *. lia. }
    intros i e [[= -> ->]%elem_of_singleton|Hv]%elem_of_union; [lia|]. apply Hvis in Hv. lia.
Qed.

Lemma descending_forever fuel w : descending w → yarn_walk mutual fuel w = None.
Proof.
  revert w. induction fuel as [|fuel IH]; intros w Hd;
    destruct (descending_step w Hd) as (item & Hq & Hd'); simpl; rewrite Hq; [done|].
  by apply IH.
Qed.

(** Code bug: on two versions of a package that depend on each other the import
    nests them in each other without end. *)
Lemma yarn_mutual_versions_diverge fuel :
  yarn_walk mutual fuel (yarn_start mutual mutual_manifest) = None.
Proof.
  set (w0 := yarn_start mutual mutual_manifest).
  assert (∃ kind, w_queue w0 = [(0, "", kind)]) as [kind Hq] by (eexists; vm_compute; reflexivity).
  destruct fuel as [|fuel]; cbn [yarn_walk]; rewrite Hq; [done|]. apply descending_forever.
  destruct (mutual_children false "node_modules/a" kind) as [kind' Hch].
  exists true, root_dir, kind'. change (@nil (nat * string * Reach)) with (@nil queued).
  assert (yarn_step mutual w0 (0, "", kind) [] =
          mk_walk ([] ++ (bt_list (merged_deps mutual 0) ≫= child_of mutual 0 "node_modules/a" kind))
            {[ (0, "") ]} (w_reach (yarn_step mutual w0 (0, "", kind) []))
            (claim Placer_default root_dir "a" "1.0.0") [(0, "node_modules/a")]
            {[ "node_modules/a" ]}) as -> by (vm_compute; reflexivity).
  cbn [w_queue w_placer w_visited].
  split; [exact Hch|]. split; [by left|]. split; [vm_compute; reflexivity|].
  split; [vm_compute; reflexivity|]. split.
  - intros dir v. rewrite slot_claim. case_bool_decide as Hd; [by destruct Hd as [-> _]|].
    unfold slot, Placer_default. simpl. by rewrite lookup_empty.
  - intros i d [= -> ->]%elem_of_singleton. vm_compute. lia.
Qed.
End YarnSample.

#[local] Existing Instance YarnSample.debug.
#[local] Existing Instance YarnSample.semver.


Lemma yarn_walk_terminates_witness :
  ∃ bound, ∀ fuel, bound ≤ fuel → ∃ w, yarn_walk YarnSample.conflict fuel
    (yarn_start YarnSample.conflict YarnSample.conflict_manifest) = Some w.
Proof.
  apply (yarn_walk_terminates YarnSample.conflict (λ i, if (i =? 1)%nat then 1 else 0)).
  intros [|[|[|i]]] j Hj.
  - vm_compute in Hj. inversion Hj.
  - vm_compute in Hj. apply list_elem_of_singleton in Hj as ->. vm_compute. lia.
  - vm_compute in Hj. inversion Hj.
  - vm_compute in Hj. inversion Hj.
Defined.
