(* ===== verification/InstallRuns.v ===== *)
(** * Concrete installs: the witnesses, and where importer and gate disagree *)

From S2P Require Export InstallTheory YarnTheory.
From Stdlib Require Import Ascii.

Module InstallSample.
#[export] Existing Instance NpmSample.codec.
#[export] Existing Instance NpmSample.writer.
#[export] Existing Instance Plain.codecs.
#[export] Instance semver : Semver := Mini.semver.
#[export] Existing Instance YarnSample.debug.

Definition package (name : string) (dev optional : bool) (os : list string) (deps : gmap string string)
    : PackageEntry :=
  mk_PackageEntry ("node_modules/" +:+ name) name "1.0.0" ("https://r/" +:+ name) None
    (Some (to_npm_string sample_digest)) false dev optional os [] ∅ deps.
Definition meta (deps peers : gmap string LockDependency) (optional_peers : gset string)
    : PackageResolution :=
  mk_PackageResolution (LSRegistry "https://r") false false [] deps ∅ peers optional_peers ∅ None false.
Definition edge (name : string) : LockDependency := mk_LockDependency "^1" ("node_modules/" +:+ name).

(** [app] needs [lib] and, optionally, its peer [opt]; [tool] is for development. *)
Definition dev_lock : Lockfile :=
  mk_Lockfile BPM_LOCK_VERSION "bpm" RootEntry_default
    [package "app" false false [] ∅; package "lib" true false [] ∅; package "opt" true false [] ∅;
     package "tool" true false [] ∅]
    (mk_ResolutionMetadata RootResolution_default
       {[ "node_modules/app" := meta {[ "lib" := edge "lib" ]} {[ "opt" := edge "opt" ]} {[ "opt" ]} ]} ∅).

Lemma dev_lock_wf : lock_wf dev_lock.
Proof. apply validate_v2_sound. by vm_compute. Qed.

(** [native] runs on another platform only; [child] is its own optional dependency
    and [shared] is also declared by [app]. *)
Definition platform_lock : Lockfile :=
  mk_Lockfile BPM_LOCK_VERSION "bpm" (mk_RootEntry None None {[ "app" := "^1" ]})
    [package "app" false false [] {[ "native" := "^1"; "shared" := "^1" ]};
     package "child" false true [] ∅;
     package "native" false true ["darwin"] {[ "child" := "^1"; "shared" := "^1" ]};
     package "shared" false true [] ∅] ResolutionMetadata_default.
Definition linux : TargetPlatform := mk_TargetPlatform "linux" "x64" None.

Example platform_lock_work :
  match build_install_work platform_lock true "/app" linux 5 with
  | Ok (Some work) => iw_path <$> work
  | _ => []
  end = [Some "node_modules/app"; Some "node_modules/shared"].
Proof. by vm_compute. Qed.

(** ** Importer against gate *)

(** A library's usual manifest: [react] is a peer, and a development dependency
    with a narrower spec.  The lock that npm wrote for it is imported and the
    frozen install of the unchanged project is refused. *)
Definition library : PackageManifest :=
  NpmSample.manifest ∅ {[ "react" := "^18.0.0" ]} {[ "react" := ">=16.0.0" ]}.
Definition library_table : RawLock :=
  mk_RawLock (Some "app") (Some 3%N) {[ "" := raw_of_package (v3_root library) ]}.

Definition frozen_import (m : PackageManifest) (t : RawLock) : result FrozenError () :=
  match import (NC := NpmSample.codec) NpmSample.no_digest NpmSample.offline t with
  | Ok report =>
      match apply_manifest_root_metadata (ir_lockfile report) m with
      | Ok l => enforce_frozen m l
      | Err _ => Ok ()
      end
  | Err _ => Ok ()
  end.

Example import_dev_peer_drift :
  frozen_import library library_table = Err (FrozenDeclarations [] [] ["react"]).
Proof. by vm_compute. Qed.

(** The Yarn importer records no peer declaration of the root at all. *)
Definition peer_only : PackageManifest := NpmSample.manifest ∅ ∅ {[ "react" := ">=16.0.0" ]}.
Example yarn_peer_drift :
  match yarn_walk [] 1 (yarn_start [] peer_only) with
  | Some w => enforce_frozen peer_only (ir_lockfile (yarn_report [] peer_only w))
  | None => Ok ()
  end = Err (FrozenDeclarations ["react"] [] []).
Proof. by vm_compute. Qed.

Definition agreeing : PackageManifest :=
  NpmSample.manifest ∅ {[ "react" := "^18.0.0" ]} {[ "react" := "^18.0.0" ]}.
End InstallSample.

Section witnesses.
Import InstallSample.

Lemma omit_dev_projection_witness :
  ∃ l', project_lockfile_omitting_dev dev_lock 4 = Some l' ∧ lock_wf l' ∧
    pe_name <$> lf_packages l' = ["app"; "lib"] ∧
    (pres_optional_peers <$> rm_packages (lf_resolution l') !! "node_modules/app") = Some ∅.
Proof.
  destruct (omit_dev_projection dev_lock 4 dev_lock_wf) as (l' & Hl & _ & Hwf); [vm_compute; lia|].
  exists l'. split; [exact Hl|]. split; [exact Hwf|]. vm_compute in Hl. injection Hl as <-.
  split; vm_compute; reflexivity.
Defined.

Lemma prune_unreachable_exact_witness :
  ∃ pruned, prune_unreachable_optionals platform_lock {[ "node_modules/native" ]} 5 = Some pruned ∧
    pruned = {[ "node_modules/child" ]} ∧
    unreachable platform_lock {[ "node_modules/native" ]} "node_modules/child".
Proof.
  destruct (prune_unreachable_exact platform_lock {[ "node_modules/native" ]} 5) as (pruned & Hp & Hu);
    [vm_compute; lia|].
  exists pruned. split; [exact Hp|]. vm_compute in Hp. injection Hp as <-.
  split; [reflexivity|]. apply Hu. vm_compute. reflexivity.
Defined.

Lemma install_work_exact_witness :
  match build_install_work platform_lock true "/app" linux 5 with
  | Ok (Some work) => ∃ skipped kept, sublist kept (lf_packages platform_lock) ∧
      Forall2 (work_of true) kept work ∧
      ∀ p, p ∈ kept ↔ p ∈ lf_packages platform_lock ∧ installs platform_lock linux skipped p
  | _ => False
  end.
Proof.
  pose proof (install_work_exact platform_lock true "/app" linux 5 ltac:(vm_compute; lia)) as H.
  destruct (build_install_work platform_lock true "/app" linux 5) as [[work|]|e] eqn:Hw;
    [|vm_compute in Hw; discriminate Hw..].
  destruct H as (_ & skipped & kept & _ & Hsub & Hwork & Hkept). exists skipped, kept.
  split; [exact Hsub|]. split; [exact Hwork|exact Hkept].
Defined.

Lemma import_frozen_exact_witness :
  ∃ report l, import (NC := NpmSample.codec) NpmSample.no_digest NpmSample.offline library_table = Ok report ∧
    apply_manifest_root_metadata (ir_lockfile report) library = Ok l ∧
    (enforce_frozen library l = Ok () → dev_peer_agree library).
Proof.
  destruct (import (NC := NpmSample.codec) NpmSample.no_digest NpmSample.offline library_table)
    as [report|e] eqn:Hi; [|vm_compute in Hi; discriminate Hi].
  destruct (apply_manifest_root_metadata (ir_lockfile report) library) as [l|e] eqn:Hl.
  - exists report, l. split; [reflexivity|]. split; [exact Hl|].
    destruct (import_frozen_exact (NC := NpmSample.codec) NpmSample.no_digest NpmSample.offline library_table
      library_table (raw_of_package (v3_root library)) report library l eq_refl eq_refl
      (conj eq_refl (conj eq_refl (conj eq_refl eq_refl))) Hi Hl) as (o & _ & Hiff).
    intros Hf. apply Hiff. exact Hf.
  - vm_compute in Hi. injection Hi as <-. vm_compute in Hl. discriminate Hl.
Defined.

Lemma outcomes_complete_witness :
  ∃ id, outcomes_to_artifact_ids
    [mk_FetchOutcome "node_modules/opt" "id-opt" false false; mk_FetchOutcome "node_modules/app" "id-app" false false;
     mk_FetchOutcome "node_modules/tool" "id-tool" true false; mk_FetchOutcome "node_modules/lib" "id-lib" true true]
    dev_lock !! 1 = Some (Some id) ∧ id = "id-lib".
Proof.
  destruct (outcomes_complete dev_lock
    [mk_FetchOutcome "node_modules/opt" "id-opt" false false; mk_FetchOutcome "node_modules/app" "id-app" false false;
     mk_FetchOutcome "node_modules/tool" "id-tool" true false; mk_FetchOutcome "node_modules/lib" "id-lib" true true]
    1 (package "lib" true false [] ∅)) as (id & Hid & _).
  - apply (bool_decide_unpack _). vm_compute. exact I.
  - vm_compute. reflexivity.
  - reflexivity.
  - reflexivity.
  - exists id. split; [exact Hid|]. vm_compute in Hid. injection Hid as <-. reflexivity.
Defined.
End witnesses.
