(* ===== verification/Graph.v ===== *)
(** * [src/graph.rs]: graph identities and the install-plan cache

    The byte encoding that a graph id hashes (with the workspace section of
    [src/workspace.rs]), the closure digest of one package, and the cached plan
    with its validation.  BLAKE3 is the argument [hash]; the file-system checks
    of a plan and workspace discovery are arguments. *)

From S2P Require Export Lockfile Manifest Workspaces Encoding.
From Stdlib Require Import Ascii.

(** ** Length-prefixed encoding *)

Definition write_u64 (v : N) : string := le_bytes 8 v.
Definition write_len (n : nat) : string := write_u64 (N.of_nat n).
Definition write_field (s : string) : string := write_len (strlen s) +:+ s.
Definition write_bool (b : bool) : string := String (chr (if b then 1 else 0)) "".

(** A counted loop: [write_u64(len)] and one encoding per element. *)
Fixpoint write_each {A} (f : A → string) (l : list A) : string :=
  match l with
  | [] => ""
  | x :: l => f x +:+ write_each f l
  end.
Definition write_all {A} (f : A → string) (l : list A) : string :=
  write_len (length l) +:+ write_each f l.
Definition write_pair (kv : string * string) : string := write_field kv.1 +:+ write_field kv.2.
Definition write_map (m : gmap string string) : string := write_all write_pair (bt_list m).

Definition LF : string := String newline "".

(** ** Profiles *)

Record InstallProfile := mk_InstallProfile { omit_dev : bool; lifecycle_production : bool }.
Definition default_profile : InstallProfile := mk_InstallProfile false false.
Definition dev_omitted : InstallProfile := mk_InstallProfile true true.
Definition production_full_tree : InstallProfile := mk_InstallProfile false true.
Definition profile_is_default (p : InstallProfile) : bool :=
  negb (omit_dev p) && negb (lifecycle_production p).

(** ** Plans *)

Definition PLAN_VERSION : N := 5.
Definition MATERIALIZER_VERSION : N := 6.

Record PlanEntry := mk_PlanEntry {
  ple_path : string; ple_name : string; ple_version : string; ple_resolved : string;
  ple_integrity : option string; ple_link : bool; ple_artifact_hex : string;
  ple_bin : gmap string string }.

Record ManagedEntry := mk_ManagedEntry { me_path : string; me_mode : string; me_identity : string }.

Record InstallPlan := mk_InstallPlan {
  ip_plan_version : N; ip_materializer_version : N; ip_graph_id_hex : string;
  ip_lifecycle_paths : list string; ip_owned_entries : list ManagedEntry;
  ip_entries : list PlanEntry }.

(** [ManagedEntry::path_is_valid]. *)
Definition path_is_valid (path : string) : bool :=
  if is_empty path || starts_with_char slash path then false
  else match split_char slash path with
       | first :: components =>
           bool_decide (first = "node_modules") &&
           forallb (λ c, negb (is_empty c || bool_decide (c = "..") || bool_decide (c = ".")))
             components &&
           (1 <=? length components)%nat
       | [] => false
       end.

(** [workspace::WorkspaceLayout]. *)
Record WorkspaceLayout := mk_WorkspaceLayout {
  wl_patterns : list string; wl_packages : list WorkspacePackage }.
Definition WorkspaceLayout_default : WorkspaceLayout := mk_WorkspaceLayout [] [].

Definition write_member (p : WorkspacePackage) : string :=
  write_field (wp_dir p) +:+ write_field (default "" (wp_name p)) +:+
  write_field (default "" (wp_version p)).

Definition canonical_workspace_bytes (layout : WorkspaceLayout) : string :=
  "ws-v1" +:+ LF +:+ "patterns" +:+ LF +:+ write_all write_field (wl_patterns layout) +:+
  "packages" +:+ LF +:+ write_all write_member (wl_packages layout).

Section graph.
Context `{Cd : Codecs}.

(** [std::env::consts::ARCH] and [OS]. *)
Variable platform_descriptor : string.

Definition write_target (target : option LockTarget) : string :=
  match target with
  | Some target => write_bool true +:+ write_field (lt_os target) +:+ write_field (lt_cpu target) +:+
                   write_field (default "" (lt_libc target))
  | None => write_bool false
  end.

Definition write_package (libc : option (list string)) (p : PackageEntry) : string :=
  write_field (pe_path p) +:+ write_field (pe_name p) +:+ write_field (pe_version p) +:+
  write_field (pe_resolved p) +:+ write_field (default "" (pe_integrity p)) +:+
  write_bool (pe_link p) +:+ write_bool (pe_dev p) +:+ write_bool (pe_optional p) +:+
  write_all write_field (pe_os p) +:+ write_all write_field (pe_cpu p) +:+
  match libc with
  | Some libc => write_all write_field libc
  | None => write_u64 0
  end +:+
  write_map (pe_bin p) +:+ write_map (pe_dependencies p).

Definition write_registry_names (names : gmap string string) : string :=
  if is_empty_map names then "" else "registry-names" +:+ LF +:+ write_map names.

Definition canonical_graph_bytes (l : Lockfile) : string :=
  "bpm-graph-v2" +:+ LF +:+ write_field platform_descriptor +:+
  "root" +:+ LF +:+ write_map (re_dependencies (lf_root l)) +:+
  write_map (rr_overrides (rm_root (lf_resolution l))) +:+
  write_target (rr_target (rm_root (lf_resolution l))) +:+
  "packages" +:+ LF +:+
  write_all (λ p, write_package (pres_libc <$> rm_packages (lf_resolution l) !! pe_path p) p)
    (lf_packages l) +:+
  write_registry_names (rm_registry_names (lf_resolution l)).

Definition append_prepared_images (prepared : gmap string string) : string :=
  "prepared-images" +:+ LF +:+
  write_all (λ kv : string * string, write_field kv.1 +:+ kv.2) (bt_list prepared).

Definition append_install_profile (p : InstallProfile) : string :=
  "install-profile-v2" +:+ LF +:+ write_bool (omit_dev p) +:+ write_bool (lifecycle_production p).

(** ** Graph ids *)

(** BLAKE3, as the lowercase hex of the digest. *)
Variable hash : string → string.

Definition graph_id (l : Lockfile) : string := hash (canonical_graph_bytes l).

Definition graph_id_with_profile (l : Lockfile) (p : InstallProfile) : string :=
  if profile_is_default p then graph_id l
  else hash (canonical_graph_bytes l +:+ append_install_profile p).

Definition graph_id_with_prepared (l : Lockfile) (prepared : gmap string string) : string :=
  if is_empty_map prepared then graph_id l
  else hash (canonical_graph_bytes l +:+ append_prepared_images prepared).

Definition graph_id_with_prepared_and_profile (l : Lockfile) (prepared : gmap string string)
    (p : InstallProfile) : string :=
  if profile_is_default p then graph_id_with_prepared l prepared
  else hash (canonical_graph_bytes l +:+
             (if is_empty_map prepared then "" else append_prepared_images prepared) +:+
             append_install_profile p).

Definition no_workspace (w : WorkspaceLayout) : bool :=
  bool_decide (wl_packages w = []) && bool_decide (wl_patterns w = []).

Definition graph_id_with_workspace (l : Lockfile) (w : WorkspaceLayout) : string :=
  if no_workspace w then graph_id l
  else hash (canonical_graph_bytes l +:+ canonical_workspace_bytes w).

(** [w] is what [workspace::discover] found in the project. *)
Definition graph_id_for_project_with_prepared (l : Lockfile) (w : WorkspaceLayout)
    (prepared : gmap string string) : string :=
  if is_empty_map prepared then graph_id_with_workspace l w
  else hash (canonical_graph_bytes l +:+
             (if no_workspace w then "" else canonical_workspace_bytes w) +:+
             append_prepared_images prepared).

Definition graph_id_for_project_with_prepared_and_profile (l : Lockfile) (w : WorkspaceLayout)
    (prepared : gmap string string) (p : InstallProfile) : string :=
  if profile_is_default p then graph_id_for_project_with_prepared l w prepared
  else hash (canonical_graph_bytes l +:+
             (if no_workspace w then "" else canonical_workspace_bytes w) +:+
             (if is_empty_map prepared then "" else append_prepared_images prepared) +:+
             append_install_profile p).

Definition graph_id_for_project_with_profile (l : Lockfile) (w : WorkspaceLayout)
    (p : InstallProfile) : string :=
  graph_id_for_project_with_prepared_and_profile l w ∅ p.

(** ** Building and validating a plan *)

Definition plan_entry (artifact_ids : list (option Sha512Digest)) (i : nat) (p : PackageEntry)
    : PlanEntry :=
  mk_PlanEntry (pe_path p) (pe_name p) (pe_version p) (pe_resolved p) (pe_integrity p) (pe_link p)
    (match artifact_ids !! i with
     | Some (Some id) => to_hex id
     | _ => ""
     end) (pe_bin p).

Definition build_plan_with_profile (l : Lockfile) (artifact_ids : list (option Sha512Digest))
    (lifecycle_paths : list string) (owned : list ManagedEntry) (p : InstallProfile)
    : InstallPlan :=
  mk_InstallPlan PLAN_VERSION MATERIALIZER_VERSION (graph_id_with_profile l p) lifecycle_paths owned
    (imap (plan_entry artifact_ids) (lf_packages l)).

Definition build_plan (l : Lockfile) (artifact_ids : list (option Sha512Digest))
    (lifecycle_paths : list string) (owned : list ManagedEntry) : InstallPlan :=
  build_plan_with_profile l artifact_ids lifecycle_paths owned default_profile.

(** The plan an install writes ([src/cli/install.rs]): the project-level id
    replaces the one [build_plan_with_profile] computed. *)
Definition install_plan (l : Lockfile) (w : WorkspaceLayout) (prepared : gmap string string)
    (artifact_ids : list (option Sha512Digest)) (lifecycle_paths : list string)
    (owned : list ManagedEntry) (p : InstallProfile) : InstallPlan :=
  let plan := build_plan_with_profile l artifact_ids lifecycle_paths owned p in
  mk_InstallPlan (ip_plan_version plan) (ip_materializer_version plan)
    (graph_id_for_project_with_prepared_and_profile l w prepared p)
    (ip_lifecycle_paths plan) (ip_owned_entries plan) (ip_entries plan).

Inductive PlanInvalid := Absent | VersionMismatch | GraphChanged | StateDrift.

(** The checks on the graph volume and on the project's view of it. *)
Record plan_fs := mk_plan_fs {
  pf_volume_exists : string → bool;
  (** [volume_dir/path/package.json] exists, [volume_entry_intact]. *)
  pf_has_manifest : string → string → bool;
  pf_entry_intact : string → string → bool;
  pf_attached : string → bool }.

Definition entry_valid (fs : plan_fs) (id : string) (lifecycle_paths : list string) (e : PlanEntry)
    : result PlanInvalid () :=
  if ple_link e || is_empty (ple_resolved e) || is_empty (ple_artifact_hex e) then Ok ()
  else match from_hex (ple_artifact_hex e) with
       | Err _ => Err StateDrift
       | Ok _ =>
           if bool_decide (ple_path e ∈ lifecycle_paths) then
             if negb (pf_has_manifest fs id (ple_path e)) then Err StateDrift else Ok ()
           else if negb (pf_entry_intact fs id (ple_path e)) then Err StateDrift else Ok ()
       end.

Definition validate_plan_with_profile (plan : InstallPlan) (l : Lockfile) (w : WorkspaceLayout)
    (fs : plan_fs) (p : InstallProfile) : result PlanInvalid () :=
  fail_if (bool_decide (ip_plan_version plan ≠ PLAN_VERSION) ||
           bool_decide (ip_materializer_version plan ≠ MATERIALIZER_VERSION))
    with_err VersionMismatch;
  fail_if (bool_decide (ip_graph_id_hex plan ≠ graph_id_for_project_with_profile l w p))
    with_err GraphChanged;
  fail_if (negb (pf_volume_exists fs (ip_graph_id_hex plan))) with_err StateDrift;
  _ ← each_res (entry_valid fs (ip_graph_id_hex plan) (ip_lifecycle_paths plan)) (ip_entries plan);
  fail_if (negb (pf_attached fs (ip_graph_id_hex plan))) with_err StateDrift;
  Ok ().

(** ** The closure digest *)

(** The bytes fed to a package's hasher before its children. *)
Definition closure_header (packages : gmap string PackageEntry) (path : string) : string :=
  "bpm-package-closure-v1" +:+ String nul ("path" +:+ String nul path) +:+
  match packages !! path with
  | Some entry =>
      "version" +:+ String nul (pe_version entry) +:+ "resolved" +:+ String nul (pe_resolved entry)
      +:+ "integrity" +:+ String nul (default "" (pe_integrity entry))
  | None => ""
  end.

Definition closure_children (resolution : gmap string PackageResolution) (path : string)
    : list string :=
  match resolution !! path with
  | None => []
  | Some r => bs_list (list_to_set (ld_target <$> bt_values (pres_dependencies r) ++
                bt_values (pres_optional_dependencies r) ++ bt_values (pres_peer_dependencies r)))
  end.

Definition cycle_marker (target : string) : string :=
  hash ("bpm-package-closure-cycle" +:+ String nul target).

(** The recursion on [fuel]; [None] is running out, which the code cannot. *)
Fixpoint closure_digest (fuel : nat) (packages : gmap string PackageEntry)
    (resolution : gmap string PackageResolution) (path : string) (memo : gmap string string)
    (stack : gset string) : option (gmap string string * string) :=
  match fuel with
  | 0 => None
  | S fuel =>
      match memo !! path with
      | Some digest => Some (memo, digest)
      | None =>
          let stack := {[ path ]} ∪ stack in
          '(memo, bytes) ←
            foldl (λ st target,
              '(memo, bytes) ← st;
              '(memo, digest) ←
                (if bool_decide (target ∈ stack) then Some (memo, cycle_marker target)
                 else closure_digest fuel packages resolution target memo stack);
              Some (memo, bytes +:+ "child" +:+ String nul digest))
              (Some (memo, closure_header packages path)) (closure_children resolution path);
          let digest := hash bytes in
          Some (<[path := digest]> memo, digest)
      end
  end.

Definition package_index (l : Lockfile) : gmap string PackageEntry :=
  foldl (λ m e, <[pe_path e := e]> m) ∅ (lf_packages l).

Definition package_closure_digest (l : Lockfile) (package_path : string) : option string :=
  snd <$> closure_digest (S (S (size (rm_packages (lf_resolution l))))) (package_index l)
            (rm_packages (lf_resolution l)) package_path ∅ ∅.
End graph.
