(* ===== verification/GraphIdentity.v ===== *)
(** * What a graph id identifies

    The bytes hashed for a project determine the platform, every field of the
    lockfile graph that is encoded, the workspace layout, the prepared images
    and the install profile: the encoding is a prefix code, part by part, and
    the optional sections start with different letters. *)

From S2P Require Export Graph.
From Stdlib Require Import Ascii.

(** ** Inputs within the width of a [u64] *)

Definition fits (n : nat) : bool := (N.of_nat n <? 2 ^ 64)%N.
Definition fits_str (s : string) : bool := fits (strlen s).
Definition fits_list {A} (f : A → bool) (l : list A) : bool := fits (length l) && forallb f l.
Definition fits_pair (kv : string * string) : bool := fits_str kv.1 && fits_str kv.2.
Definition fits_map (m : gmap string string) : bool := fits_list fits_pair (bt_list m).
Definition fits_strs : list string → bool := fits_list fits_str.

Definition fits_target (t : option LockTarget) : bool :=
  match t with
  | Some t => fits_str (lt_os t) && fits_str (lt_cpu t) && fits_str (default "" (lt_libc t))
  | None => true
  end.

Section fits.
Context `{Cd : Codecs}.

(** The [libc] list that is encoded for a package. *)
Definition package_libc (l : Lockfile) (p : PackageEntry) : list string :=
  default [] (pres_libc <$> rm_packages (lf_resolution l) !! pe_path p).

Definition fits_package (l : Lockfile) (p : PackageEntry) : bool :=
  fits_str (pe_path p) && fits_str (pe_name p) && fits_str (pe_version p) &&
  fits_str (pe_resolved p) && fits_str (default "" (pe_integrity p)) &&
  fits_strs (pe_os p) && fits_strs (pe_cpu p) && fits_strs (package_libc l p) &&
  fits_map (pe_bin p) && fits_map (pe_dependencies p).

Definition fits_lock (l : Lockfile) : bool :=
  fits_map (re_dependencies (lf_root l)) &&
  fits_map (rr_overrides (rm_root (lf_resolution l))) &&
  fits_target (rr_target (rm_root (lf_resolution l))) &&
  fits_list (fits_package l) (lf_packages l) &&
  fits_map (rm_registry_names (lf_resolution l)).

Definition fits_member (p : WorkspacePackage) : bool :=
  fits_str (wp_dir p) && fits_str (default "" (wp_name p)) && fits_str (default "" (wp_version p)).
Definition fits_workspace (w : WorkspaceLayout) : bool :=
  fits_strs (wl_patterns w) && fits_list fits_member (wl_packages w).

(** A prepared-image key is a [[u8; 32]]. *)
Definition fits_image (kv : string * string) : bool :=
  fits_str kv.1 && bool_decide (strlen kv.2 = 32).
Definition fits_prepared (m : gmap string string) : bool := fits_list fits_image (bt_list m).

(** ** Equality of what is encoded *)

Definition same_target (t t' : option LockTarget) : Prop :=
  match t, t' with
  | Some t, Some t' =>
      lt_os t = lt_os t' ∧ lt_cpu t = lt_cpu t' ∧ default "" (lt_libc t) = default "" (lt_libc t')
  | None, None => True
  | _, _ => False
  end.

Record same_package (l l' : Lockfile) (p p' : PackageEntry) : Prop := mk_same_package {
  sp_path : pe_path p = pe_path p';
  sp_name : pe_name p = pe_name p';
  sp_version : pe_version p = pe_version p';
  sp_resolved : pe_resolved p = pe_resolved p';
  sp_integrity : default "" (pe_integrity p) = default "" (pe_integrity p');
  sp_link : pe_link p = pe_link p';
  sp_dev : pe_dev p = pe_dev p';
  sp_optional : pe_optional p = pe_optional p';
  sp_os : pe_os p = pe_os p';
  sp_cpu : pe_cpu p = pe_cpu p';
  sp_libc : package_libc l p = package_libc l' p';
  sp_bin : pe_bin p = pe_bin p';
  sp_dependencies : pe_dependencies p = pe_dependencies p' }.

Record same_graph (l l' : Lockfile) : Prop := mk_same_graph {
  sg_root : re_dependencies (lf_root l) = re_dependencies (lf_root l');
  sg_overrides : rr_overrides (rm_root (lf_resolution l)) = rr_overrides (rm_root (lf_resolution l'));
  sg_target : same_target (rr_target (rm_root (lf_resolution l))) (rr_target (rm_root (lf_resolution l')));
  sg_packages : Forall2 (same_package l l') (lf_packages l) (lf_packages l');
  sg_names : rm_registry_names (lf_resolution l) = rm_registry_names (lf_resolution l') }.

Definition same_member (p p' : WorkspacePackage) : Prop :=
  wp_dir p = wp_dir p' ∧ default "" (wp_name p) = default "" (wp_name p') ∧
  default "" (wp_version p) = default "" (wp_version p').
Definition same_workspace (w w' : WorkspaceLayout) : Prop :=
  wl_patterns w = wl_patterns w' ∧ Forall2 same_member (wl_packages w) (wl_packages w').

(** ** The bytes hashed for a project *)

Definition workspace_section (w : WorkspaceLayout) : string :=
  if no_workspace w then "" else canonical_workspace_bytes w.
Definition prepared_section (m : gmap string string) : string :=
  if is_empty_map m then "" else append_prepared_images m.
Definition profile_section (p : InstallProfile) : string :=
  if profile_is_default p then "" else append_install_profile p.

Definition project_bytes (platform : string) (l : Lockfile) (w : WorkspaceLayout)
    (m : gmap string string) (p : InstallProfile) : string :=
  canonical_graph_bytes platform l +:+
  (workspace_section w +:+ (prepared_section m +:+ profile_section p)).

(** The three families of ids agree: whichever helper is called, the bytes
    hashed are [project_bytes]. *)
Lemma graph_id_project platform hash l w m p :
  graph_id_for_project_with_prepared_and_profile platform hash l w m p =
  hash (project_bytes platform l w m p).
Proof.
  unfold graph_id_for_project_with_prepared_and_profile, graph_id_for_project_with_prepared,
    graph_id_with_workspace, graph_id, project_bytes, workspace_section, prepared_section,
    profile_section.
  destruct (profile_is_default p), (is_empty_map m), (no_workspace w);
    rewrite ?app_nil_l_s, ?app_nil_r_s; done.
Qed.

Lemma graph_id_no_workspace platform hash l m p :
  graph_id_with_prepared_and_profile platform hash l m p =
  hash (project_bytes platform l WorkspaceLayout_default m p).
Proof.
  unfold graph_id_with_prepared_and_profile, graph_id_with_prepared, graph_id, project_bytes,
    workspace_section, prepared_section, profile_section.
  change (no_workspace WorkspaceLayout_default) with true.
  destruct (profile_is_default p), (is_empty_map m); rewrite ?app_nil_l_s, ?app_nil_r_s; done.
Qed.
End fits.

(** ** Prefix codes

    [code ok ok' R f g]: from equal encodings followed by anything, the encoded
    values are related and the rests are equal. *)

Definition code {A B} (ok : A → bool) (ok' : B → bool) (R : A → B → Prop)
    (f : A → string) (g : B → string) : Prop :=
  ∀ x y r s, ok x = true → ok' y = true → f x +:+ r = g y +:+ s → R x y ∧ r = s.
Notation code1 ok R f := (code ok ok R f f).

Lemma code_len : code1 fits eq write_len.
Proof.
  unfold fits. intros n m r s Hn%N.ltb_lt Hm%N.ltb_lt Heq.
  apply same_length_app in Heq as [Heq ->]; [|unfold write_len, write_u64; by rewrite !le_bytes_length].
  apply le_bytes_inj in Heq; [split; [lia|done]|..]; (eapply N.lt_le_trans; [eassumption|]);
    vm_compute; discriminate.
Qed.

Lemma code_field : code1 fits_str eq write_field.
Proof.
  intros a b r s Ha Hb Heq. unfold write_field in Heq. rewrite <- !app_assoc_s in Heq.
  apply code_len in Heq as [Hlen Heq]; [|done..]. by apply same_length_app in Heq.
Qed.

Lemma code_bool : code1 (λ _, true) eq write_bool.
Proof.
  intros [] [] r s _ _ Heq; unfold write_bool in Heq; rewrite !app_cons_s in Heq;
    injection Heq; try discriminate; intros; subst; done.
Qed.

Section combinators.
Context {A B : Type} {ok : A → bool} {ok' : B → bool} {R : A → B → Prop}
  {f : A → string} {g : B → string}.

Lemma code_each (Hc : code ok ok' R f g) l l' r s :
  length l = length l' → forallb ok l = true → forallb ok' l' = true →
  write_each f l +:+ r = write_each g l' +:+ s → Forall2 R l l' ∧ r = s.
Proof using.
  revert l'. induction l as [|x l IH]; intros [|y l'] Hlen Hl Hl' Heq; try done.
  cbn [forallb] in Hl, Hl'. apply andb_true_iff in Hl as [Hx Hl], Hl' as [Hy Hl'].
  cbn [write_each] in Heq. rewrite <- !app_assoc_s in Heq. apply Hc in Heq as [HR Heq]; [|done..].
  apply IH in Heq as [HF ->]; [|by injection Hlen|done..]. split; [by constructor|done].
Qed.

Lemma code_all (Hc : code ok ok' R f g) :
  code (fits_list ok) (fits_list ok') (Forall2 R) (write_all f) (write_all g).
Proof using.
  intros l l' r s [Hn Hl]%andb_true_iff [Hn' Hl']%andb_true_iff Heq.
  unfold write_all in Heq. rewrite <- !app_assoc_s in Heq.
  apply code_len in Heq as [Hlen Heq]; [|done..]. by apply (code_each Hc) in Heq.
Qed.
End combinators.

Lemma Forall2_eq_inv {A} (l l' : list A) : Forall2 eq l l' → l = l'.
Proof. apply list_eq_Forall2. Qed.

Lemma code_strs : code1 fits_strs eq (write_all write_field).
Proof.
  intros l l' r s Hl Hl' Heq. apply (code_all code_field) in Heq as [HF ->]; [|done..].
  split; [by apply Forall2_eq_inv|done].
Qed.

Lemma code_pair : code1 fits_pair eq write_pair.
Proof.
  intros [k v] [k' v'] r s [Hk Hv]%andb_true_iff [Hk' Hv']%andb_true_iff Heq.
  unfold write_pair in Heq. rewrite <- !app_assoc_s in Heq.
  apply code_field in Heq as [Hke Heq]; [|done..].
  apply code_field in Heq as [Hve ->]; [|done..]. simpl in *. by subst.
Qed.

Lemma bt_list_inj {A} (m m' : gmap string A) : bt_list m = bt_list m' → m = m'.
Proof.
  intros Heq. apply map_eq. intros k. apply option_eq. intros v.
  by rewrite <- !elem_of_bt_list, Heq.
Qed.

Lemma code_map : code1 fits_map eq write_map.
Proof.
  intros m m' r s Hm Hm' Heq. apply (code_all code_pair) in Heq as [HF ->]; [|done..].
  split; [|done]. by apply bt_list_inj, Forall2_eq_inv.
Qed.

(** Read one encoded part off both sides of [H]. *)
Ltac peel c H :=
  rewrite <- ?app_assoc_s in H; apply c in H as [? H]; [|done..].
Ltac split_fits H := rewrite ?andb_true_iff in H; destruct_and! H.

Section identity.
Context `{Cd : Codecs}.

Lemma code_target : code1 fits_target same_target write_target.
Proof.
  intros [t|] [t'|] r s Ht Ht' Heq; unfold write_target in Heq; rewrite <- ?app_assoc_s in Heq;
    (apply code_bool in Heq as [Hb Heq] || idtac); try done.
  cbn [fits_target] in Ht, Ht'. split_fits Ht. split_fits Ht'.
  do 3 peel code_field Heq. done.
Qed.

Lemma write_package_libc (l : Lockfile) p :
  write_package (pres_libc <$> rm_packages (lf_resolution l) !! pe_path p) p =
  write_package (Some (package_libc l p)) p.
Proof. unfold package_libc. by destruct (rm_packages (lf_resolution l) !! pe_path p). Qed.

Lemma code_package (l l' : Lockfile) :
  code (fits_package l) (fits_package l') (same_package l l')
    (λ p, write_package (pres_libc <$> rm_packages (lf_resolution l) !! pe_path p) p)
    (λ p, write_package (pres_libc <$> rm_packages (lf_resolution l') !! pe_path p) p).
Proof.
  intros p p' r s Hp Hp' Heq. rewrite !write_package_libc in Heq. unfold write_package in Heq.
  unfold fits_package in Hp, Hp'. split_fits Hp. split_fits Hp'.
  do 5 peel code_field Heq. do 3 peel code_bool Heq. do 3 peel code_strs Heq.
  do 2 peel code_map Heq. split; [by constructor|done].
Qed.

Lemma code_member : code1 fits_member same_member write_member.
Proof.
  intros p p' r s Hp Hp' Heq. unfold write_member in Heq. unfold fits_member in Hp, Hp'.
  split_fits Hp. split_fits Hp'. do 3 peel code_field Heq. done.
Qed.

Lemma code_image : code1 fits_image eq (λ kv : string * string, write_field kv.1 +:+ kv.2).
Proof.
  intros [k v] [k' v'] r s Hk Hk' Heq. unfold fits_image in Hk, Hk'.
  split_fits Hk. split_fits Hk'. peel code_field Heq.
  apply same_length_app in Heq as [Heq ->]; [simpl in *; by subst|].
  repeat match goal with H : bool_decide _ = true |- _ => apply bool_decide_eq_true_1 in H end.
  simpl in *. congruence.
Qed.

(** ** Optional sections *)

Definition head (s : string) : option ascii :=
  match s with "" => None | String c _ => Some c end.

Lemma opt_section c t (b b' : bool) (x y r s : string) :
  head r ≠ Some c → head s ≠ Some c →
  (if b then "" else String c t +:+ x) +:+ r = (if b' then "" else String c t +:+ y) +:+ s →
  b = b' ∧ (if b then r = s else x +:+ r = y +:+ s).
Proof using.
  intros Hr Hs Heq. destruct b, b'; rewrite ?app_nil_l_s in Heq; try done.
  - subst r. by rewrite <- app_assoc_s, app_cons_s in Hr.
  - subst s. by rewrite <- app_assoc_s, app_cons_s in Hs.
  - rewrite <- !app_assoc_s in Heq. by apply tag_inj in Heq.
Qed.

Lemma head_opt c t (b : bool) x r :
  head ((if b then "" else String c t +:+ x) +:+ r) = if b then head r else Some c.
Proof using. destruct b; [by rewrite app_nil_l_s|done]. Qed.

Lemma head_profile p : head (profile_section p) ∈ [None; Some "i"%char].
Proof using. unfold profile_section. destruct (profile_is_default p); set_solver. Qed.
Lemma head_prepared m r :
  head (prepared_section m +:+ r) = if is_empty_map m then head r else Some "p"%char.
Proof using. unfold prepared_section, append_prepared_images. rewrite head_opt. done. Qed.
Lemma head_workspace w r :
  head (workspace_section w +:+ r) = if no_workspace w then head r else Some "w"%char.
Proof using. unfold workspace_section, canonical_workspace_bytes. rewrite head_opt. done. Qed.
Lemma head_sections w m p c :
  c ∉ ["i"; "p"; "w"]%char → head (workspace_section w +:+ (prepared_section m +:+ profile_section p)) ≠ Some c.
Proof using.
  intros Hc. rewrite head_workspace, head_prepared. pose proof (head_profile p) as Hp.
  destruct (no_workspace w), (is_empty_map m); set_solver.
Qed.

(** ** Each section *)

Lemma code_workspace w w' (r s : string) :
  fits_workspace w = true → fits_workspace w' = true →
  head r ≠ Some "w"%char → head s ≠ Some "w"%char →
  workspace_section w +:+ r = workspace_section w' +:+ s → same_workspace w w' ∧ r = s.
Proof using.
  intros Hw Hw' Hr Hs Heq. unfold workspace_section, canonical_workspace_bytes in Heq.
  apply opt_section in Heq as [Hb Heq]; [|done..]. unfold no_workspace in *.
  destruct (_ && _) eqn:Hn.
  - symmetry in Hb. apply andb_true_iff in Hn as [Hn1%bool_decide_eq_true_1 Hn2%bool_decide_eq_true_1].
    apply andb_true_iff in Hb as [Hb1%bool_decide_eq_true_1 Hb2%bool_decide_eq_true_1].
    unfold same_workspace. rewrite Hn1, Hn2, Hb1, Hb2. auto.
  - unfold fits_workspace in Hw, Hw'. split_fits Hw. split_fits Hw'.
    rewrite <- ?app_assoc_s in Heq. do 3 apply tag_inj in Heq.
    peel code_strs Heq. do 2 apply tag_inj in Heq. peel (code_all code_member) Heq. done.
Qed.

Lemma code_prepared m m' (r s : string) :
  fits_prepared m = true → fits_prepared m' = true →
  head r ≠ Some "p"%char → head s ≠ Some "p"%char →
  prepared_section m +:+ r = prepared_section m' +:+ s → m = m' ∧ r = s.
Proof using.
  intros Hm Hm' Hr Hs Heq. unfold prepared_section, append_prepared_images in Heq.
  apply opt_section in Heq as [Hb Heq]; [|done..]. unfold is_empty_map in *.
  destruct (bool_decide (m = ∅)) eqn:Hn.
  - symmetry in Hb. apply bool_decide_eq_true_1 in Hn, Hb. by subst.
  - rewrite <- ?app_assoc_s in Heq. apply tag_inj in Heq.
    apply (code_all code_image) in Heq as [HF ->]; [|done..].
    split; [by apply bt_list_inj, Forall2_eq_inv|done].
Qed.

Lemma code_profile p p' : profile_section p = profile_section p' → p = p'.
Proof using. destruct p as [[] []], p' as [[] []]; vm_compute; congruence. Qed.

Lemma code_names m m' (r s : string) :
  fits_map m = true → fits_map m' = true →
  head r ≠ Some "r"%char → head s ≠ Some "r"%char →
  write_registry_names m +:+ r = write_registry_names m' +:+ s → m = m' ∧ r = s.
Proof using.
  intros Hm Hm' Hr Hs Heq. unfold write_registry_names in Heq.
  apply opt_section in Heq as [Hb Heq]; [|done..]. unfold is_empty_map in *.
  destruct (bool_decide (m = ∅)) eqn:Hn.
  - symmetry in Hb. apply bool_decide_eq_true_1 in Hn, Hb. by subst.
  - rewrite <- ?app_assoc_s in Heq. apply tag_inj in Heq. by apply code_map in Heq.
Qed.

Lemma code_graph platform platform' (l l' : Lockfile) (r s : string) :
  fits_str platform = true → fits_str platform' = true →
  fits_lock l = true → fits_lock l' = true →
  head r ≠ Some "r"%char → head s ≠ Some "r"%char →
  canonical_graph_bytes platform l +:+ r = canonical_graph_bytes platform' l' +:+ s →
  (platform = platform' ∧ same_graph l l') ∧ r = s.
Proof using.
  intros Hp Hp' Hl Hl' Hr Hs Heq. unfold canonical_graph_bytes in Heq.
  unfold fits_lock in Hl, Hl'. split_fits Hl. split_fits Hl'.
  rewrite <- ?app_assoc_s in Heq. do 2 apply tag_inj in Heq.
  peel code_field Heq. do 2 apply tag_inj in Heq. do 2 peel code_map Heq.
  peel code_target Heq. do 2 apply tag_inj in Heq.
  peel (code_all (code_package l l')) Heq. apply code_names in Heq as [? ->]; [|done..].
  split; [split; [done|by constructor]|done].
Qed.

(** Everything the bytes of a project determine. *)
Record same_project (platform platform' : string) (l l' : Lockfile) (w w' : WorkspaceLayout)
    (m m' : gmap string string) (p p' : InstallProfile) : Prop := mk_same_project {
  spr_platform : platform = platform';
  spr_graph : same_graph l l';
  spr_workspace : same_workspace w w';
  spr_prepared : m = m';
  spr_profile : p = p' }.

Lemma project_bytes_inj platform platform' l l' w w' m m' p p' :
  fits_str platform = true → fits_str platform' = true →
  fits_lock l = true → fits_lock l' = true →
  fits_workspace w = true → fits_workspace w' = true →
  fits_prepared m = true → fits_prepared m' = true →
  project_bytes platform l w m p = project_bytes platform' l' w' m' p' →
  same_project platform platform' l l' w w' m m' p p'.
Proof using.
  intros Hf Hf' Hl Hl' Hw Hw' Hm Hm' Heq. unfold project_bytes in Heq.
  apply code_graph in Heq as [[Hp Hg] Heq]; [|done|done|done|done|apply head_sections; set_solver..].
  assert (∀ m p c, c ∉ ["i"; "p"]%char → head (prepared_section m +:+ profile_section p) ≠ Some c)
    as Hh.
  { intros m0 p0 c Hc. rewrite head_prepared. pose proof (head_profile p0).
    destruct (is_empty_map m0); set_solver. }
  apply code_workspace in Heq as [Hsw Heq]; [|done|done|apply Hh; set_solver..].
  apply code_prepared in Heq as [Hsm Heq];
    [|done|done|(match goal with |- head (profile_section ?q) ≠ _ => pose proof (head_profile q) end;
                 set_solver)..].
  apply code_profile in Heq. by constructor.
Qed.

(** ** The converse: nothing else is hashed *)

Lemma write_all_ext {A B} (R : A → B → Prop) (f : A → string) (g : B → string) l l' :
  (∀ x y, R x y → f x = g y) → Forall2 R l l' → write_all f l = write_all g l'.
Proof using.
  intros Hfg HF. unfold write_all. rewrite (Forall2_length _ _ _ HF). f_equal.
  induction HF as [|x y l l' HR HF IH]; [done|]. cbn [write_each]. by rewrite (Hfg _ _ HR), IH.
Qed.

Lemma same_target_bytes t t' : same_target t t' → write_target t = write_target t'.
Proof using.
  destruct t as [t|], t' as [t'|]; try done. intros (H1 & H2 & H3).
  unfold write_target. by rewrite H1, H2, H3.
Qed.

Lemma same_package_bytes l l' p p' :
  same_package l l' p p' →
  write_package (pres_libc <$> rm_packages (lf_resolution l) !! pe_path p) p =
  write_package (pres_libc <$> rm_packages (lf_resolution l') !! pe_path p') p'.
Proof using.
  intros Hs. rewrite !write_package_libc. destruct Hs. cbn [write_package].
  unfold write_package. congruence.
Qed.

Lemma same_project_bytes platform platform' l l' w w' m m' p p' :
  same_project platform platform' l l' w w' m m' p p' →
  project_bytes platform l w m p = project_bytes platform' l' w' m' p'.
Proof using.
  intros [-> [H1 H2 H3 H4 H5] [Hw1 Hw2] -> ->]. unfold project_bytes. f_equal; [|f_equal].
  - unfold canonical_graph_bytes. rewrite H1, H2, H5, (same_target_bytes _ _ H3).
    erewrite write_all_ext; [done| |exact H4]. apply same_package_bytes.
  - unfold workspace_section, no_workspace, canonical_workspace_bytes. rewrite Hw1.
    rewrite (write_all_ext same_member write_member write_member _ _) by
      first [exact Hw2 | intros ? ? (E1 & E2 & E3); unfold write_member; by rewrite E1, E2, E3].
    replace (bool_decide (wl_packages w = [])) with (bool_decide (wl_packages w' = [])); [done|].
    apply bool_decide_ext. inversion Hw2; split; congruence.
Qed.
End identity.

(** ** Properties *)

Definition fits_project (platform : string) (l : Lockfile) (w : WorkspaceLayout)
    (m : gmap string string) : bool :=
  fits_str platform && fits_lock l && fits_workspace w && fits_prepared m.

(** [hash] has no collision between the two byte strings. *)
Definition no_collision (hash : string → string) (a b : string) : Prop := hash a = hash b → a = b.

Section reuse.
Context `{Cd : Codecs}.
Context (hash : string → string).

Lemma project_id_iff platform platform' l l' w w' m m' p p' :
  fits_project platform l w m = true → fits_project platform' l' w' m' = true →
  no_collision hash (project_bytes platform l w m p) (project_bytes platform' l' w' m' p') →
  hash (project_bytes platform l w m p) = hash (project_bytes platform' l' w' m' p') ↔
  same_project platform platform' l l' w w' m m' p p'.
Proof using.
  intros Hf Hf' Hh. unfold fits_project in Hf, Hf'. split_fits Hf. split_fits Hf'. split.
  - intros Heq%Hh. by apply project_bytes_inj.
  - intros Hs. f_equal. by apply same_project_bytes.
Qed.

(** C15.  A project's graph id identifies the project: when BLAKE3 does not collide
    on the two encodings, two installs have the same id exactly when they agree
    on the platform, on every encoded field of the lockfile graph, on the
    workspace layout, on the prepared images and on the install profile. *)
Theorem graph_id_identifies_project platform platform' l l' w w' m m' p p' :
  fits_project platform l w m = true → fits_project platform' l' w' m' = true →
  no_collision hash (project_bytes platform l w m p) (project_bytes platform' l' w' m' p') →
  graph_id_for_project_with_prepared_and_profile platform hash l w m p =
  graph_id_for_project_with_prepared_and_profile platform' hash l' w' m' p' ↔
  same_project platform platform' l l' w w' m m' p p'.
Proof using. rewrite !graph_id_project. apply project_id_iff. Qed.

(** What validation requires of the volume [id] for the packages of [l]. *)
Definition volume_holds (fs : plan_fs) (id : string) (l : Lockfile)
    (artifact_ids : list (option Sha512Digest)) (lifecycle_paths : list string) : Prop :=
  pf_volume_exists fs id = true ∧
  (∀ i pkg d, lf_packages l !! i = Some pkg → artifact_ids !! i = Some (Some d) →
     pe_link pkg = false → pe_resolved pkg ≠ "" →
     if bool_decide (pe_path pkg ∈ lifecycle_paths) then pf_has_manifest fs id (pe_path pkg) = true
     else pf_entry_intact fs id (pe_path pkg) = true) ∧
  pf_attached fs id = true.

Lemma entry_valid_plan_entry `{!CodecLaws Cd} fs id artifact_ids lifecycle_paths i pkg :
  (∀ d, artifact_ids !! i = Some (Some d) → digest_ok d) →
  entry_valid fs id lifecycle_paths (plan_entry artifact_ids i pkg) = Ok () ↔
  (∀ d, artifact_ids !! i = Some (Some d) → pe_link pkg = false → pe_resolved pkg ≠ "" →
     if bool_decide (pe_path pkg ∈ lifecycle_paths) then pf_has_manifest fs id (pe_path pkg) = true
     else pf_entry_intact fs id (pe_path pkg) = true).
Proof using.
  intros Hd. unfold entry_valid, plan_entry.
  cbn [ple_link ple_resolved ple_artifact_hex ple_path].
  destruct (pe_link pkg); [by split|]. destruct (is_empty (pe_resolved pkg)) eqn:Hr.
  { split; [|done]. intros _ d _ _ Hne. by destruct (pe_resolved pkg). }
  assert (pe_resolved pkg ≠ "") as Hne by (intros E; by rewrite E in Hr).
  destruct (artifact_ids !! i) as [[d|]|] eqn:Hi; [|by split..].
  rewrite to_hex_not_empty, from_hex_to_hex by by apply Hd.
  change (false || false || false) with false. cbv iota. split.
  - intros Hok d' _ _ _. destruct (bool_decide (_ ∈ _));
      [destruct (pf_has_manifest fs id _)|destruct (pf_entry_intact fs id _)]; done.
  - intros Hok. specialize (Hok d eq_refl eq_refl Hne).
    destruct (bool_decide (_ ∈ _)); by rewrite Hok.
Qed.

Lemma guard_Ok {E A} (b : bool) (e : E) (k : result E A) a :
  (fail_if b with_err e; k) = Ok a ↔ b = false ∧ k = Ok a.
Proof using. destruct b; [split; [done|by intros [? ?]]|by split; [|intros [_ ?]]]. Qed.

(** C16.  A cached plan is reused exactly when it is right to: the plan that an
    install wrote passes validation against a later project state if and only
    if nothing that the id identifies has changed (and no prepared image is
    involved), the graph volume exists, each fetched package's entry is intact
    (or, after lifecycle scripts, has its manifest) and the project is
    attached. *)
Theorem plan_reuse_exact `{!CodecLaws Cd} platform platform' l l' w w' m p p' ids lifecycle owned fs :
  fits_project platform l w m = true → fits_project platform' l' w' ∅ = true →
  no_collision hash (project_bytes platform l w m p) (project_bytes platform' l' w' ∅ p') →
  (∀ i d, ids !! i = Some (Some d) → digest_ok d) →
  validate_plan_with_profile platform' hash (install_plan platform hash l w m ids lifecycle owned p)
    l' w' fs p' = Ok () ↔
  same_project platform platform' l l' w w' m ∅ p p' ∧
  volume_holds fs (graph_id_for_project_with_prepared_and_profile platform hash l w m p) l ids lifecycle.
Proof using.
  intros Hf Hf' Hh Hd. unfold validate_plan_with_profile, install_plan, volume_holds,
    graph_id_for_project_with_profile.
  rewrite !graph_id_project.
  cbn [ip_plan_version ip_materializer_version ip_graph_id_hex ip_lifecycle_paths ip_entries
       build_plan_with_profile].
  rewrite <- (project_id_iff platform platform' l l' w w' m ∅ p p') by done.
  set (id := hash (project_bytes platform l w m p)).
  set (id' := hash (project_bytes platform' l' w' ∅ p')).
  change (bool_decide (PLAN_VERSION ≠ PLAN_VERSION) ||
          bool_decide (MATERIALIZER_VERSION ≠ MATERIALIZER_VERSION)) with false.
  cbv iota. rewrite !guard_Ok, bool_decide_eq_false, negb_false_iff.
  assert (∀ u, each_res (entry_valid fs id lifecycle) (imap (plan_entry ids) (lf_packages l)) = Ok u ↔
    (∀ i pkg d, lf_packages l !! i = Some pkg → ids !! i = Some (Some d) →
     pe_link pkg = false → pe_resolved pkg ≠ "" →
     if bool_decide (pe_path pkg ∈ lifecycle) then pf_has_manifest fs id (pe_path pkg) = true
     else pf_entry_intact fs id (pe_path pkg) = true)) as Hent.
  { intros u. rewrite each_res_Ok_unit. split.
    - intros Hall i pkg d Hi. refine (proj1 (entry_valid_plan_entry _ _ _ _ _ _ (Hd i)) _ d).
      apply Hall, elem_of_lookup_imap. eauto.
    - intros Hall e (i & pkg & -> & Hi)%elem_of_lookup_imap.
      apply entry_valid_plan_entry; [apply Hd|]. intros d. by apply Hall. }
  split.
  - intros (Hid & Hv & Hrest). apply dec_stable in Hid.
    destruct (each_res _ _) as [u|] eqn:Hu; [|done].
    pose proof (proj1 (Hent u) eq_refl) as Hall.
    change ((fail_if negb (pf_attached fs id) with_err StateDrift; Ok ()) = Ok ()) in Hrest.
    apply guard_Ok in Hrest as [Ha%negb_false_iff _]. by split.
  - intros (Hid & Hv & Hall & Ha). split; [by intros ?|]. split; [done|].
    apply (Hent ()) in Hall. rewrite Hall.
    change ((fail_if negb (pf_attached fs id) with_err StateDrift; Ok ()) = Ok ()). by rewrite Ha.
Qed.
End reuse.

(** ** A concrete project for the witnesses *)
Module Sample.
Definition hash (s : string) : string := s.
Definition entry : PackageEntry :=
  mk_PackageEntry "node_modules/left-pad" "left-pad" "1.3.0" "https://reg/left-pad-1.3.0.tgz" None
    (Some "sha512-AA") false false false [] [] {[ "lpad" := "./cli.js" ]} ∅.
Definition lock (generator : string) : Lockfile :=
  mk_Lockfile BPM_LOCK_VERSION generator
    (mk_RootEntry (Some "app") (Some "1.0.0") {[ "left-pad" := "^1.3.0" ]}) [entry]
    ResolutionMetadata_default.
Definition fs (id : string) : plan_fs :=
  mk_plan_fs (λ i, bool_decide (i = id)) (λ _ _, false) (λ _ _, true) (λ _, true).
Definition arch : string := "x86_64/linux".
Notation id g p := (graph_id_for_project_with_prepared_and_profile arch hash (lock g)
                      WorkspaceLayout_default ∅ p).
Notation plan := (install_plan (Cd := Plain.codecs) arch hash (lock "bpm") WorkspaceLayout_default ∅
                    [Some sample_digest] [] [] default_profile).

Lemma same_lock g g' : same_project arch arch (lock g) (lock g') WorkspaceLayout_default
  WorkspaceLayout_default ∅ ∅ default_profile default_profile.
Proof. repeat constructor. Qed.
Lemma hash_free a b : no_collision hash a b.
Proof. by intros H. Qed.
End Sample.

(** The id does not depend on the generator, and separates the profiles. *)
Lemma graph_id_identifies_project_witness :
  Sample.id "bpm" default_profile = Sample.id "other" default_profile ∧
  Sample.id "bpm" default_profile ≠ Sample.id "bpm" dev_omitted.
Proof.
  split.
  - refine (proj2 (graph_id_identifies_project _ _ _ _ _ _ _ _ _ _ _ _ _ (Sample.hash_free _ _)) _);
      [vm_compute; reflexivity..|]. apply Sample.same_lock.
  - intros H. apply (graph_id_identifies_project Sample.hash) in H;
      [|vm_compute; reflexivity|vm_compute; reflexivity|apply Sample.hash_free].
    destruct H as [_ _ _ _ H]. discriminate H.
Defined.

Lemma plan_reuse_exact_witness :
  validate_plan_with_profile (Cd := Plain.codecs) Sample.arch Sample.hash Sample.plan (Sample.lock "other")
    WorkspaceLayout_default (Sample.fs (Sample.id "bpm" default_profile)) default_profile = Ok () ∧
  validate_plan_with_profile (Cd := Plain.codecs) Sample.arch Sample.hash Sample.plan (Sample.lock "other")
    WorkspaceLayout_default (Sample.fs "gone") default_profile ≠ Ok ().
Proof.
  assert (∀ i d, [Some sample_digest] !! i = Some (Some d) → digest_ok d) as Hd.
  { intros [|[|i]] d Hi; [|discriminate..]. injection Hi as <-. vm_compute. reflexivity. }
  split.
  - refine (proj2 (plan_reuse_exact (CodecLaws0 := Plain.laws) _ _ _ _ _ _ _ _ _ _ _ _ _ _ _ _
      (Sample.hash_free _ _) Hd) _); [vm_compute; reflexivity..|].
    split; [apply Sample.same_lock|]. split; [|split; [|reflexivity]].
    + unfold Sample.fs. cbn [pf_volume_exists]. by apply bool_decide_eq_true_2.
    + intros. destruct (bool_decide (pe_path pkg ∈ [])) eqn:Hb; [|reflexivity].
      apply bool_decide_eq_true_1 in Hb. inversion Hb.
  - intros H. apply (plan_reuse_exact (CodecLaws0 := Plain.laws) Sample.hash) in H;
      [|vm_compute; reflexivity|vm_compute; reflexivity|apply Sample.hash_free|exact Hd].
    destruct H as [_ (Hv & _)]. vm_compute in Hv. discriminate Hv.
Defined.
