(* ===== verification/DerivedKey.v ===== *)
(** * [src/derived/key.rs]: the cache key of a lifecycle-derived image

    The canonical bytes of all inputs of a build, the key hashed from them, and
    what the key identifies: the encoding is a prefix code, although the list of
    phases is written without its length. *)

From S2P Require Export GraphIdentity.
From Stdlib Require Import Ascii.

Definition DOMAIN : string := "bpm-derived-v2" +:+ String nul "".

Record TargetDescriptor := mk_TargetDescriptor {
  td_os : string; td_architecture : string; td_family : string; td_abi : string }.
#[global] Instance TargetDescriptor_eq_dec : EqDecision TargetDescriptor.
Proof. solve_decision. Defined.

Record RuntimeIdentity := mk_RuntimeIdentity {
  ri_executable : string; ri_version : string; ri_modules_abi : string;
  ri_napi_version : option string }.
#[global] Instance RuntimeIdentity_eq_dec : EqDecision RuntimeIdentity.
Proof. solve_decision. Defined.

(** Environment names and values are byte strings. *)
Record DerivedInputs := mk_DerivedInputs {
  di_source_artifact : string; di_source_revision : option string; di_dependency_graph : string;
  di_target : TargetDescriptor; di_runtime : RuntimeIdentity; di_phases : list string;
  di_scripts : gmap string string; di_environment : gmap string string;
  di_runner_version : N; di_policy_version : N }.

Definition write_tagged (tag value : string) : string :=
  le_bytes 4 (N.of_nat (strlen tag)) +:+ tag +:+ le_bytes 8 (N.of_nat (strlen value)) +:+ value.
Definition write_optional_field (tag : string) (value : option string) : string :=
  match value with
  | Some value => write_tagged "presence" (String (chr 1) "") +:+ write_tagged tag value
  | None => write_tagged "presence" (String (chr 0) "") +:+ write_tagged tag ""
  end.

Definition target_bytes (t : TargetDescriptor) : string :=
  write_tagged "target.os" (td_os t) +:+ write_tagged "target.architecture" (td_architecture t) +:+
  write_tagged "target.family" (td_family t) +:+ write_tagged "target.abi" (td_abi t).
Definition runtime_bytes (r : RuntimeIdentity) : string :=
  write_tagged "runtime.executable" (ri_executable r) +:+ write_tagged "runtime.version" (ri_version r) +:+
  write_tagged "runtime.modules_abi" (ri_modules_abi r) +:+
  write_optional_field "runtime.napi_version" (ri_napi_version r).
Definition phase_bytes (scripts : gmap string string) (phase : string) : string :=
  write_tagged "script.phase" phase +:+ write_optional_field "script.command" (scripts !! phase).
(** The names of a map are distinct, so sorting pairs sorts by name. *)
Definition sorted_environment (i : DerivedInputs) : list (string * string) := bt_list (di_environment i).
Definition variable_bytes (kv : string * string) : string :=
  write_tagged "environment.name" kv.1 +:+ write_tagged "environment.value" kv.2.
Definition environment_bytes (env : list (string * string)) : string :=
  write_tagged "environment.count" (le_bytes 8 (N.of_nat (length env))) +:+ write_each variable_bytes env.

Definition derived_bytes (i : DerivedInputs) : string :=
  DOMAIN +:+ write_tagged "source" (di_source_artifact i) +:+
  write_optional_field "source.revision" (di_source_revision i) +:+
  write_tagged "dependency_graph" (di_dependency_graph i) +:+
  target_bytes (di_target i) +:+ runtime_bytes (di_runtime i) +:+
  write_each (phase_bytes (di_scripts i)) (di_phases i) +:+
  environment_bytes (sorted_environment i) +:+
  write_tagged "runner_version" (le_bytes 4 (di_runner_version i)) +:+
  write_tagged "policy_version" (le_bytes 4 (di_policy_version i)).

Definition derived_key (hash : string → string) (i : DerivedInputs) : string := hash (derived_bytes i).

(** ** Inputs within the widths *)

Definition fits_option (o : option string) : bool := fits_str (default "" o).
Definition fits_u32 (n : N) : bool := (n <? 2 ^ 32)%N.
Definition fits_TargetDescriptor (t : TargetDescriptor) : bool :=
  fits_str (td_os t) && fits_str (td_architecture t) && fits_str (td_family t) && fits_str (td_abi t).
Definition fits_runtime (r : RuntimeIdentity) : bool :=
  fits_str (ri_executable r) && fits_str (ri_version r) && fits_str (ri_modules_abi r) &&
  fits_option (ri_napi_version r).
Definition fits_phase (p : string * option string) : bool := fits_str p.1 && fits_option p.2.
(** The phases with the commands they run. *)
Definition phase_commands (i : DerivedInputs) : list (string * option string) :=
  (λ p, (p, di_scripts i !! p)) <$> di_phases i.
Definition fits_inputs (i : DerivedInputs) : bool :=
  fits_str (di_source_artifact i) && fits_option (di_source_revision i) &&
  fits_str (di_dependency_graph i) && fits_TargetDescriptor (di_target i) && fits_runtime (di_runtime i) &&
  forallb fits_phase (phase_commands i) && fits_map (di_environment i) &&
  fits_u32 (di_runner_version i) && fits_u32 (di_policy_version i).

(** What the key identifies: a script that no phase runs is not part of it. *)
Record same_inputs (i i' : DerivedInputs) : Prop := mk_same_inputs {
  si_source : di_source_artifact i = di_source_artifact i';
  si_revision : di_source_revision i = di_source_revision i';
  si_graph : di_dependency_graph i = di_dependency_graph i';
  si_target : di_target i = di_target i';
  si_runtime : di_runtime i = di_runtime i';
  si_phases : phase_commands i = phase_commands i';
  si_environment : di_environment i = di_environment i';
  si_runner : di_runner_version i = di_runner_version i';
  si_policy : di_policy_version i = di_policy_version i' }.

(** ** The encoding is a prefix code *)

Lemma code_u32 : code1 fits_u32 eq (le_bytes 4).
Proof.
  intros n m r s Hn%N.ltb_lt Hm%N.ltb_lt Heq.
  apply same_length_app in Heq as [Heq ->]; [|by rewrite !le_bytes_length].
  apply le_bytes_inj in Heq; [done|..]; (eapply N.lt_le_trans; [eassumption|]); by vm_compute.
Qed.

Lemma code_tagged tag : code1 fits_str eq (write_tagged tag).
Proof.
  intros a b r s Ha Hb Heq. unfold write_tagged in Heq. rewrite <- !app_assoc_s in Heq.
  do 2 apply tag_inj in Heq. apply (code_field a b r s Ha Hb). unfold write_field.
  rewrite <- !app_assoc_s. exact Heq.
Qed.

Lemma code_presence : code1 (λ _, true) eq (λ b : bool, write_tagged "presence" (String (chr (if b then 1 else 0)) "")).
Proof.
  intros a b r s _ _ Heq. apply code_tagged in Heq as [Heq ->]; [|by destruct a|by destruct b].
  split; [|done]. by destruct a, b.
Qed.

Lemma write_optional_field_eq tag o :
  write_optional_field tag o =
  write_tagged "presence" (String (chr (if (if o then true else false) : bool then 1 else 0)) "") +:+
  write_tagged tag (default "" o).
Proof. by destruct o. Qed.

Lemma code_optional tag : code1 fits_option eq (write_optional_field tag).
Proof.
  intros a b r s Ha Hb Heq. rewrite !write_optional_field_eq, <- !app_assoc_s in Heq.
  apply code_presence in Heq as [Hp Heq]; [|done..]. apply code_tagged in Heq as [Ht ->]; [|done..].
  split; [|done]. destruct a, b; simpl in *; congruence.
Qed.

Lemma descriptor_code : code1 fits_TargetDescriptor eq target_bytes.
Proof.
  intros [] [] r s Ha Hb Heq. unfold fits_TargetDescriptor in Ha, Hb. split_fits Ha. split_fits Hb.
  unfold target_bytes in Heq. cbn [td_os td_architecture td_family td_abi] in *.
  do 4 (rewrite <- ?app_assoc_s in Heq; apply code_tagged in Heq as [-> Heq]; [|done..]). done.
Qed.

Lemma code_runtime : code1 fits_runtime eq runtime_bytes.
Proof.
  intros [] [] r s Ha Hb Heq. unfold fits_runtime in Ha, Hb. split_fits Ha. split_fits Hb.
  unfold runtime_bytes in Heq. cbn [ri_executable ri_version ri_modules_abi ri_napi_version] in *.
  do 3 (rewrite <- ?app_assoc_s in Heq; apply code_tagged in Heq as [-> Heq]; [|done..]).
  apply code_optional in Heq as [-> ->]; done.
Qed.

Definition pair_bytes (p : string * option string) : string :=
  write_tagged "script.phase" p.1 +:+ write_optional_field "script.command" p.2.
Lemma phases_pairs scripts phases :
  write_each (phase_bytes scripts) phases = write_each pair_bytes ((λ p, (p, scripts !! p)) <$> phases).
Proof. induction phases as [|p l IH]; [done|]. csimpl. by rewrite IH. Qed.

Lemma code_phase : code1 fits_phase eq pair_bytes.
Proof.
  intros [p c] [p' c'] r s Ha Hb Heq. unfold fits_phase in *. split_fits Ha. split_fits Hb.
  unfold pair_bytes in Heq. rewrite <- !app_assoc_s in Heq. simpl in *.
  apply code_tagged in Heq as [-> Heq]; [|done..]. apply code_optional in Heq as [-> ->]; done.
Qed.

(** No count is written; the next section starts with another tag length. *)
Lemma code_phases l l' r s : forallb fits_phase l = true → forallb fits_phase l' = true →
  head r = Some (chr 17) → head s = Some (chr 17) →
  write_each pair_bytes l +:+ r = write_each pair_bytes l' +:+ s → l = l' ∧ r = s.
Proof.
  assert (∀ x l (r : string), head (write_each pair_bytes (x :: l) +:+ r) = Some (chr 12)) as Hh by done.
  revert l'. induction l as [|x l IH]; intros [|y l'] Hl Hl' Hr Hs Heq.
  - done.
  - exfalso. assert (head r = head (write_each pair_bytes (y :: l') +:+ s)) as H by (by rewrite <- Heq).
    rewrite Hh, Hr in H. discriminate H.
  - exfalso. assert (head s = head (write_each pair_bytes (x :: l) +:+ r)) as H by (by rewrite Heq).
    rewrite Hh, Hs in H. discriminate H.
  - cbn [forallb] in Hl, Hl'. apply andb_true_iff in Hl as [Hx Hl], Hl' as [Hy Hl'].
    cbn [write_each] in Heq. rewrite <- !app_assoc_s in Heq.
    apply code_phase in Heq as [-> Heq]; [|done..]. by apply IH in Heq as [-> ->].
Qed.

Lemma code_variable : code1 fits_pair eq variable_bytes.
Proof.
  intros [k v] [k' v'] r s Ha Hb Heq. unfold fits_pair in *. split_fits Ha. split_fits Hb.
  unfold variable_bytes in Heq. simpl in *.
  do 2 (rewrite <- ?app_assoc_s in Heq; apply code_tagged in Heq as [-> Heq]; [|done..]). done.
Qed.

Lemma code_environment : code1 (fits_list fits_pair) eq environment_bytes.
Proof.
  intros l l' r s [Hn Hl]%andb_true_iff [Hn' Hl']%andb_true_iff Heq.
  unfold environment_bytes in Heq. rewrite <- !app_assoc_s in Heq.
  apply code_tagged in Heq as [Hlen Heq]; [|by unfold fits_str; rewrite le_bytes_length..].
  destruct (code_len (length l) (length l') "" "" Hn Hn') as [Hlen' _].
  { rewrite !app_nil_r_s. exact Hlen. }
  apply (code_each code_variable) in Heq as [HF ->]; [|done..].
  split; [by apply Forall2_eq_inv|done].
Qed.

Lemma derived_bytes_inj i i' : fits_inputs i = true → fits_inputs i' = true →
  derived_bytes i = derived_bytes i' → same_inputs i i'.
Proof.
  intros Hf Hf' Heq. unfold fits_inputs in Hf, Hf'. split_fits Hf. split_fits Hf'.
  unfold derived_bytes in Heq. apply tag_inj in Heq.
  apply code_tagged in Heq as [? Heq]; [|done..]. apply code_optional in Heq as [? Heq]; [|done..].
  apply code_tagged in Heq as [? Heq]; [|done..]. apply descriptor_code in Heq as [? Heq]; [|done..].
  apply code_runtime in Heq as [? Heq]; [|done..]. rewrite !phases_pairs in Heq.
  apply code_phases in Heq as [? Heq]; [|done..].
  apply code_environment in Heq as [Henv Heq]; [|done..].
  apply code_tagged in Heq as [Hrun Heq]; [|by unfold fits_str; rewrite le_bytes_length..].
  rewrite <- (app_nil_r_s (write_tagged _ _)) in Heq.
  rewrite <- (app_nil_r_s (write_tagged _ (le_bytes 4 (di_policy_version i')))) in Heq.
  apply code_tagged in Heq as [Hpol _]; [|by unfold fits_str; rewrite le_bytes_length..].
  split; try done.
  - by apply bt_list_inj.
  - by apply (code_u32 _ _ "" ""); rewrite ?app_nil_r_s.
  - by apply (code_u32 _ _ "" ""); rewrite ?app_nil_r_s.
Qed.

Lemma same_inputs_bytes i i' : same_inputs i i' → derived_bytes i = derived_bytes i'.
Proof.
  intros [H1 H2 H3 H4 H5 H6 H7 H8 H9]. unfold derived_bytes, sorted_environment.
  rewrite !phases_pairs. fold (phase_commands i) (phase_commands i').
  by rewrite H1, H2, H3, H4, H5, H6, H7, H8, H9.
Qed.

(** C27. A derived key identifies the inputs of a build: when BLAKE3 does not
    collide on the two encodings, two builds share a key exactly when they agree
    on the artifact and its revision, the dependency graph, the target, the
    runtime, the phases in order with the commands they run, the environment
    and both versions. *)
Theorem derived_key_identifies hash i i' :
  fits_inputs i = true → fits_inputs i' = true →
  no_collision hash (derived_bytes i) (derived_bytes i') →
  derived_key hash i = derived_key hash i' ↔ same_inputs i i'.
Proof.
  intros Hf Hf' Hh. unfold derived_key. split.
  - intros Heq%Hh. by apply derived_bytes_inj.
  - intros Hs. f_equal. by apply same_inputs_bytes.
Qed.

Module KeySample.
Definition inputs (phases : list string) (scripts : gmap string string) : DerivedInputs :=
  mk_DerivedInputs "artifact" None "graph" (mk_TargetDescriptor "linux" "x64" "unix" "gnu")
    (mk_RuntimeIdentity "node" "22" "127" (Some "10")) phases scripts {[ "PATH" := "/bin" ]} 1 1.
Definition scripts : gmap string string := {[ "install" := "make"; "test" := "check" ]}.
End KeySample.

Lemma derived_key_identifies_witness :
  derived_key id (KeySample.inputs ["install"] KeySample.scripts)
    = derived_key id (KeySample.inputs ["install"] {[ "install" := "make" ]}) ∧
  derived_key id (KeySample.inputs ["install"; "test"] KeySample.scripts)
    ≠ derived_key id (KeySample.inputs ["test"; "install"] KeySample.scripts).
Proof.
  split.
  - apply (derived_key_identifies id); [by vm_compute|by vm_compute|by intros H|]. split; by vm_compute.
  - intros H. apply (derived_key_identifies id) in H; [|by vm_compute|by vm_compute|by intros ?].
    destruct H as [_ _ _ _ _ H _ _ _]. by vm_compute in H.
Defined.
