(* ===== verification/DerivedStore.v ===== *)
(** * [src/derived/store.rs]: the store of lifecycle-derived images

    A build is captured in a private staging directory and published by one
    rename; a hit is accepted only after the published object has been checked
    against its own metadata.  Directories are trees whose entries are listed in
    the order [sorted_entries] gives; BLAKE3 and the JSON of the metadata are
    arguments, and any call of the file system may fail. *)

From S2P Require Export DerivedKey FileTree.
From Stdlib Require Import Ascii.

(** ** Images *)

Inductive item :=
  | Dir (entries : list (string * item))
  | File (bytes : string) (mode : N)
  | Symlink (target : string)
  | Special.

Inductive DerivedError :=
  | DIo (path : string)
  | DInvalidImage (reason : string)
  | DMetadata (message : string)
  | DSandbox (package phase : string)
  | DLock (path : string)
  | DJson (message : string).
#[global] Instance DerivedError_eq_dec : EqDecision DerivedError.
Proof. solve_decision. Defined.

Definition METADATA_SCHEMA : N := 1.
Definition MAX_CAPTURE_BYTES : nat := 16384.

(** The walk of a target from a directory [depth] levels below the image root. *)
Fixpoint link_depth (depth : nat) (cs : list component) : result DerivedError () :=
  match cs with
  | [] => Ok ()
  | CurDir :: cs => link_depth depth cs
  | Normal _ :: cs => link_depth (S depth) cs
  | ParentDir :: cs =>
      match depth with
      | O => Err (DInvalidImage "symlink target escapes image root")
      | S depth => link_depth depth cs
      end
  | RootDir :: _ => Err (DInvalidImage "prefixed symlink target is not allowed")
  end.
Definition validate_link_target (depth : nat) (target : string) : result DerivedError () :=
  fail_if (starts_with_char "/" target)
    with_err (DInvalidImage "absolute symlink target is not allowed");
  link_depth depth (components target).

(** [validate_tree]: an entry of a directory at [depth], and a root. *)
Fixpoint validate_entry (depth : nat) (it : item) : result DerivedError () :=
  match it with
  | Dir entries =>
      (fix go (l : list (string * item)) : result DerivedError () :=
        match l with
        | [] => Ok ()
        | (_, child) :: l => _ ← validate_entry (S depth) child; go l
        end) entries
  | Symlink target => validate_link_target (depth - 1) target
  | File _ _ => Ok ()
  | Special => Err (DInvalidImage "special files are not allowed")
  end.
Definition validate_tree (image : item) : result DerivedError () :=
  match image with
  | Dir _ => validate_entry 0 image
  | _ => Err (DInvalidImage "image root is not a directory")
  end.

Section images.
(** [cp --reflink=always]: the mode of the clone, when it succeeds. *)
Variable try_clone_file : string → N → option N.

Fixpoint copy_entry (depth : nat) (it : item) : result DerivedError item :=
  match it with
  | Dir entries =>
      l ← (fix go (l : list (string * item)) : result DerivedError (list (string * item)) :=
        match l with
        | [] => Ok []
        | (name, child) :: l => c ← copy_entry (S depth) child; l ← go l; Ok ((name, c) :: l)
        end) entries;
      Ok (Dir l)
  | File bytes mode => Ok (File bytes (default mode (try_clone_file bytes mode)))
  | Symlink target => _ ← validate_link_target (depth - 1) target; Ok (Symlink target)
  | Special => Err (DInvalidImage "special files are not allowed")
  end.
Definition copy_tree (source : item) : result DerivedError item :=
  match source with
  | Dir _ => copy_entry 0 source
  | _ => Err (DInvalidImage "source image root is not a directory")
  end.

Definition hash_field (kind : ascii) (bytes : string) : string :=
  String kind (le_bytes 8 (N.of_nat (strlen bytes)) +:+ bytes).

(** The bytes fed to the hasher and the running size. *)
Fixpoint hash_entry (rel : list string) (it : item) (acc : string * N) : result DerivedError (string * N) :=
  let path := join "/" rel in
  let '(stream, size) := acc in
  match it with
  | Dir entries =>
      (fix go (l : list (string * item)) (acc : string * N) : result DerivedError (string * N) :=
        match l with
        | [] => Ok acc
        | (name, child) :: l => acc ← hash_entry (rel ++ [name]) child acc; go l acc
        end) entries (if bool_decide (rel = []) then stream else stream +:+ hash_field "d" path, size)
  | File bytes _ =>
      size ← ok_or (DInvalidImage "image size exceeds u64")
               (if is_empty bytes then Some size
                else if (size + N.of_nat (strlen bytes) <? 2 ^ 64)%N then Some (size + N.of_nat (strlen bytes))%N else None);
      Ok (stream +:+ hash_field "f" path +:+ bytes, size)
  | Symlink target => Ok (stream +:+ hash_field "l" path +:+ hash_field "t" target, size)
  | Special => Err (DInvalidImage "special files are not allowed")
  end.
Definition TREE_DOMAIN : string := "bpm-derived-tree-v1" +:+ String nul "".

(** [seal_tree]: files lose their write bits, directories and links keep theirs. *)
Fixpoint seal_tree (it : item) : item :=
  match it with
  | Dir entries => Dir ((fix go (l : list (string * item)) : list (string * item) :=
      match l with [] => [] | (name, child) :: l => (name, seal_tree child) :: go l end) entries)
  | File bytes mode => File bytes (N.ldiff mode 146)
  | it => it
  end.
End images.

(** ** Metadata *)

Record PersistedMetadata := mk_PersistedMetadata {
  pm_schema : N; pm_key : string; pm_source_artifact : string; pm_source_revision : option string;
  pm_dependency_graph : string; pm_target : TargetDescriptor;
  pm_executable_digest : string; pm_version : string; pm_modules_abi : string;
  pm_napi_version : option string; pm_script_digests : gmap string string;
  pm_runner_version : N; pm_policy_version : N;
  pm_size_bytes : N; pm_published_at_ms : N; pm_tree_digest : string }.

Class MetadataCodec := {
  metadata_to_vec : PersistedMetadata → string;
  metadata_from_slice : string → result string PersistedMetadata }.
Class MetadataCodecLaws (C : MetadataCodec) : Prop := {
  metadata_round_trip m :
    metadata_from_slice (metadata_to_vec m +:+ String newline "") = Ok m }.

Record DerivedRecord := mk_DerivedRecord {
  dr_id : string; dr_source_artifact_id : string; dr_rel_path : string; dr_size_bytes : N;
  dr_published_at_ms : N }.
Record DerivedRef := mk_DerivedRef { ref_key : string; ref_image_path : string; ref_metadata_path : string }.
Inductive EnsureDerived := Hit (r : DerivedRef) | Built (r : DerivedRef) | Skipped.

(** ** The store *)

(** A directory [derived/blake3/xx/<key>]: its [metadata.json] and [image]. *)
Record object := mk_object { ob_metadata : option string; ob_image : option item }.
(** [objects] are the published directories by key, [staging] the private ones. *)
Record store := mk_store { objects : gmap string object; staging : gmap string object }.

(** The calls of [ensure] that can fail. *)
Inductive call :=
  | CLock | CReadMetadata | CReadImage | CStaging | CCopy | CReadStaging | CWriteMetadata
  | CSeal | CParent | CRename | CSealDest.
#[global] Instance call_eq_dec : EqDecision call.
Proof. solve_decision. Defined.

Section store.
Context `{Cd : Codecs} `{Mc : MetadataCodec}.
Variable hash : string → string.
Variable try_clone_file : string → N → option N.
Variable fails : call → bool.
(** The database, as far as its adapter shows. *)
Variable publish_derived : DerivedRecord → result string ().
Variable access_derived : DerivedRecord → N → result string ().
(** The clock, and what a publisher that ignored the lock put there meanwhile. *)
Variable now_ms : N.
Variable race : option object.

Notation st := (M store DerivedError).

Definition io (c : call) : st () := λ s, if fails c then (s, Err (DIo "io")) else (s, Ok ()).

Definition tree_identity (image : item) : result DerivedError (string * N) :=
  '(stream, size) ← hash_entry [] image (TREE_DOMAIN, 0%N);
  Ok (hex_encode (hash stream), size).

Definition PersistedMetadata_new (key : string) (i : DerivedInputs) (tree_digest : string)
    (size_bytes published_at_ms : N) : PersistedMetadata :=
  mk_PersistedMetadata METADATA_SCHEMA key (hex_encode (di_source_artifact i)) (di_source_revision i)
    (hex_encode (di_dependency_graph i)) (di_target i)
    (hex_encode (hash (ri_executable (di_runtime i)))) (ri_version (di_runtime i))
    (ri_modules_abi (di_runtime i)) (ri_napi_version (di_runtime i))
    ((λ c, hex_encode (hash c)) <$> di_scripts i)
    (di_runner_version i) (di_policy_version i) size_bytes published_at_ms tree_digest.

Definition derived_path (key : string) : string :=
  "derived/blake3/" +:+ match split_at_s 2 key with Some (shard, _) => shard | None => key end +:+ "/" +:+ key.
Definition derived_ref (key : string) : DerivedRef :=
  mk_DerivedRef key (derived_path key +:+ "/image") (derived_path key +:+ "/metadata.json").
Definition record_for (m : PersistedMetadata) (key : string) : DerivedRecord :=
  mk_DerivedRecord (pm_key m) (pm_source_artifact m) (derived_path key) (pm_size_bytes m) (pm_published_at_ms m).

(** The checks of [validate_published]: of the metadata, then of the image. *)
Definition check_published_metadata (key : string) (o : object) : result DerivedError PersistedMetadata :=
  bytes ← ok_or (DIo "metadata.json") (ob_metadata o);
  persisted ← map_err DJson (metadata_from_slice bytes);
  fail_if (negb (pm_schema persisted =? METADATA_SCHEMA)%N || negb (bool_decide (pm_key persisted = key)))
    with_err (DInvalidImage "metadata schema or key does not match");
  Ok persisted.
Definition check_image (persisted : PersistedMetadata) (o : object) : result DerivedError () :=
  image ← ok_or (DIo "image") (ob_image o);
  _ ← validate_tree image;
  '(tree_digest, size_bytes) ← tree_identity image;
  fail_if (negb (bool_decide (pm_tree_digest persisted = tree_digest)) || negb (pm_size_bytes persisted =? size_bytes)%N)
    with_err (DInvalidImage "image tree identity does not match metadata");
  Ok ().
Definition validate_published (key : string) (o : object) : st (DerivedRef * DerivedRecord) :=
  _ ← io CReadMetadata;
  persisted ← lift (check_published_metadata key o);
  _ ← io CReadImage;
  _ ← lift (check_image persisted o);
  mret (derived_ref key, record_for persisted key).

(** What both hits do. *)
Definition accept_hit (key : string) (o : object) : st EnsureDerived :=
  '(reference, record) ← validate_published key o;
  _ ← lift (map_err DMetadata (access_derived record now_ms));
  mret (Hit reference).

Definition set_staging (name : string) (o : option object) : st () :=
  modify (λ s, mk_store (objects s) (partial_alter (λ _, o) name (staging s))).
(** A scope with an armed [StagingDir]: the directory goes when the scope ends. *)
Definition with_staging {A} (name : string) (m : st A) : st A := λ s,
  let '(s, r) := m s in (mk_store (objects s) (delete name (staging s)), r).

(** The closure up to the sealed staging directory. *)
Definition build_staging (key : string) (i : DerivedInputs) (source_image : item)
    (build : item → result DerivedError item) (name : string) : st PersistedMetadata :=
  _ ← io CCopy;
  copied ← lift (copy_tree try_clone_file source_image);
  _ ← set_staging name (Some (mk_object None (Some copied)));
  image ← lift (build copied);
  _ ← set_staging name (Some (mk_object None (Some image)));
  _ ← io CReadStaging;
  _ ← lift (validate_tree image);
  '(tree_digest, size_bytes) ← lift (tree_identity image);
  let persisted := PersistedMetadata_new key i tree_digest size_bytes now_ms in
  _ ← io CWriteMetadata;
  let bytes := metadata_to_vec persisted +:+ String newline "" in
  _ ← set_staging name (Some (mk_object (Some bytes) (Some image)));
  _ ← io CSeal;
  _ ← set_staging name (Some (mk_object (Some bytes) (Some (seal_tree image))));
  mret persisted.

(** Another publisher's directory, if nothing was there. *)
Definition interfere (key : string) : st () :=
  modify (λ s, match race, objects s !! key with
               | Some o, None => mk_store (<[key := o]> (objects s)) (staging s)
               | _, _ => s
               end).
(** [rename(2)] of a directory replaces an empty one only. *)
Definition occupied (o : option object) : bool :=
  match o with Some (mk_object None None) | None => false | Some _ => true end.
Definition rename_object (name key : string) : st bool := λ s,
  match staging s !! name with
  | Some o => if fails CRename || occupied (objects s !! key) then (s, Ok false)
              else (mk_store (<[key := o]> (objects s)) (delete name (staging s)), Ok true)
  | None => (s, Ok false)
  end.

Definition publish_staging (key : string) (i : DerivedInputs) (source_image : item)
    (build : item → result DerivedError item) (name : string) : st EnsureDerived :=
  persisted ← build_staging key i source_image build name;
  _ ← io CParent;
  _ ← interfere key;
  renamed ← rename_object name key;
  existing ← gets (λ s, objects s !! key);
  match renamed, existing with
  | false, Some o => accept_hit key o
  | false, None => throw (DIo "rename")
  | true, _ =>
      _ ← io CSealDest;
      _ ← lift (map_err DMetadata (publish_derived (record_for persisted key)));
      mret (Built (derived_ref key))
  end.

(** [name] is the unique staging name of this call. *)
Definition ensure (i : DerivedInputs) (source_image : item) (ignore_scripts : bool)
    (build : item → result DerivedError item) (name : string) : st EnsureDerived :=
  if ignore_scripts then mret Skipped
  else
    let key := hex_encode (derived_key hash i) in
    _ ← (if fails CLock then throw (DLock key) else mret ());
    existing ← gets (λ s, objects s !! key);
    match existing with
    | Some o => accept_hit key o
    | None =>
        _ ← io CStaging;
        _ ← set_staging name (Some (mk_object None None));
        with_staging name (publish_staging key i source_image build name)
    end.
End store.

(** [SandboxFailure::new] keeps a bounded prefix of each stream. *)
Definition bounded (bytes : string) : string :=
  match split_at_s MAX_CAPTURE_BYTES bytes with Some (a, _) => a | None => bytes end.
