(* ===== verification/DerivedStoreTheory.v ===== *)
(** * What a derived store holds

    Every call of [ensure], with any pattern of failures and any interfering
    publisher, leaves published objects alone, adds only objects that pass their
    own validation, and leaves no staging directory; what it built is a hit for
    the next call. *)

From S2P Require Export DerivedStore.
From Stdlib Require Import Ascii.

(** ** Trees *)

Section item_ind.
Variable P : item → Prop.
Hypothesis PDir : ∀ l, Forall (λ e, P e.2) l → P (Dir l).
Hypothesis PFile : ∀ b m, P (File b m).
Hypothesis PLink : ∀ t, P (Symlink t).
Hypothesis PSpecial : P Special.
Fixpoint item_nested_ind (it : item) : P it :=
  match it with
  | Dir l => PDir l ((fix go (l : list (string * item)) : Forall (λ e, P e.2) l :=
      match l with
      | [] => List.Forall_nil _
      | e :: l => List.Forall_cons _ _ _ (item_nested_ind e.2) (go l)
      end) l)
  | File b m => PFile b m
  | Symlink t => PLink t
  | Special => PSpecial
  end.
End item_ind.

Definition seal_entries (l : list (string * item)) : list (string * item) :=
  (λ e, (e.1, seal_tree e.2)) <$> l.
Lemma seal_tree_dir l : seal_tree (Dir l) = Dir (seal_entries l).
Proof. simpl. f_equal. induction l as [|[n c] l IH]; [done|]. csimpl. by rewrite IH. Qed.

Lemma validate_entry_seal depth it : validate_entry depth (seal_tree it) = validate_entry depth it.
Proof.
  revert depth. induction it as [l IH| | |] using item_nested_ind; intros depth; try done.
  rewrite seal_tree_dir. simpl. induction IH as [|[n c] l Hc _ IHl]; [done|]. csimpl.
  rewrite Hc. simpl in IHl. by rewrite IHl.
Qed.
Lemma validate_tree_seal it : validate_tree (seal_tree it) = validate_tree it.
Proof. destruct it; try done. apply (validate_entry_seal 0 (Dir entries)). Qed.

Lemma hash_entry_seal rel it acc : hash_entry rel (seal_tree it) acc = hash_entry rel it acc.
Proof.
  revert rel acc. induction it as [l IH| | |] using item_nested_ind; intros rel [stream size]; try done.
  rewrite seal_tree_dir. cbn [hash_entry].
  generalize (if bool_decide (rel = []) then stream else stream +:+ hash_field "d" (join "/" rel), size) as acc.
  clear stream size. induction IH as [|[n c] l Hc _ IHl]; intros acc; [reflexivity|]. csimpl. cbn [snd] in Hc. rewrite Hc.
  destruct (hash_entry (rel ++ [n]) c acc) as [a|e]; [apply IHl|done].
Qed.

Section theory.
Context `{Cd : Codecs} `{Mc : MetadataCodec} `{!MetadataCodecLaws Mc}.
Variable hash : string → string.

Lemma tree_identity_seal it : tree_identity hash (seal_tree it) = tree_identity hash it.
Proof using Type. unfold tree_identity. by rewrite hash_entry_seal. Qed.

(** An object that passes its own validation. *)
Definition valid_object (key : string) (o : object) : Prop :=
  ∃ m, check_published_metadata key o = Ok m ∧ check_image hash m o = Ok ().

Lemma published_valid key i digest size now image :
  validate_tree image = Ok () → tree_identity hash image = Ok (digest, size) →
  valid_object key (mk_object
    (Some (metadata_to_vec (PersistedMetadata_new hash key i digest size now) +:+ String newline ""))
    (Some (seal_tree image))).
Proof using MetadataCodecLaws0.
  intros Hv Ht. eexists. split.
  - unfold check_published_metadata. cbn [ob_metadata ok_or mbind result_bind]. rewrite metadata_round_trip.
    cbn [map_err mbind result_bind PersistedMetadata_new pm_schema pm_key].
    by rewrite N.eqb_refl, bool_decide_eq_true_2.
  - unfold check_image. cbn [ob_image ok_or mbind result_bind].
    rewrite validate_tree_seal, Hv, tree_identity_seal, Ht.
    cbn [mbind result_bind PersistedMetadata_new pm_tree_digest pm_size_bytes].
    by rewrite N.eqb_refl, bool_decide_eq_true_2.
Qed.

Variable try_clone_file : string → N → option N.
Variable fails : call → bool.
Variable publish_derived : DerivedRecord → result string ().
Variable access_derived : DerivedRecord → N → result string ().
Variable now_ms : N.
Variable race : option object.

Notation accept_hit := (accept_hit hash fails access_derived now_ms).
Notation build_staging := (build_staging hash try_clone_file fails now_ms).
Notation publish_staging := (publish_staging hash try_clone_file fails publish_derived access_derived now_ms race).
Notation ensure := (ensure hash try_clone_file fails publish_derived access_derived now_ms race).

Lemma io_run c s : io fails c s = (s, if fails c then Err (DIo "io") else Ok ()).
Proof using Type. unfold io. by destruct (fails c). Qed.
Lemma io_bind {A} c (k : () → M store DerivedError A) s :
  (io fails c ≫= k) s = if fails c then (s, Err (DIo "io")) else k () s.
Proof using Type. unfold mbind, M_bind. rewrite io_run. by destruct (fails c). Qed.

Lemma accept_hit_state key o s : (accept_hit key o s).1 = s.
Proof using Type.
  unfold DerivedStore.accept_hit, validate_published.
  unfold mbind at 1, M_bind at 1. rewrite io_bind. destruct (fails CReadMetadata); [done|].
  rewrite lift_bind. destruct (check_published_metadata key o) as [m|]; [|done].
  rewrite io_bind. destruct (fails CReadImage); [done|].
  rewrite lift_bind. destruct (check_image hash m o); [|done]. cbn [mret M_ret].
  rewrite lift_bind. by destruct (map_err _ _).
Qed.
Lemma accept_hit_Ok key o s s' r : accept_hit key o s = (s', Ok r) →
  r = Hit (derived_ref key) ∧ valid_object key o.
Proof using Type.
  unfold DerivedStore.accept_hit, validate_published.
  unfold mbind at 1, M_bind at 1. rewrite io_bind. destruct (fails CReadMetadata); [done|].
  rewrite lift_bind. destruct (check_published_metadata key o) as [m|] eqn:Hm; [|done].
  rewrite io_bind. destruct (fails CReadImage); [done|].
  rewrite lift_bind. destruct (check_image hash m o) as [[]|] eqn:Hi; [|done]. cbn [mret M_ret].
  rewrite lift_bind. destruct (map_err _ _); [|done]. intros [= _ <-]. split; [done|]. by exists m.
Qed.

(** What a build does to the store, and the staging directory it leaves when it
    succeeds. *)
Definition build_outcome (key : string) (i : DerivedInputs) (source : item)
    (build : item → result DerivedError item) (name : string) (s : store)
    (r : store * result DerivedError PersistedMetadata) : Prop :=
  objects r.1 = objects s ∧ (∀ n, n ≠ name → staging r.1 !! n = staging s !! n) ∧
  (∀ m, r.2 = Ok m → ∃ copied image o, copy_tree try_clone_file source = Ok copied ∧
     build copied = Ok image ∧ staging r.1 !! name = Some o ∧ valid_object key o ∧
     ob_image o = Some (seal_tree image) ∧
     ∃ digest size, m = PersistedMetadata_new hash key i digest size now_ms).

Lemma build_failed key i source build name s s' e :
  objects s' = objects s → (∀ n, n ≠ name → staging s' !! n = staging s !! n) →
  build_outcome key i source build name s (s', Err e).
Proof using Type. by split. Qed.
Lemma staged_other name o n (m : gmap string object) :
  n ≠ name → partial_alter (λ _, o) name m !! n = m !! n.
Proof using Type. intros. by rewrite lookup_partial_alter_ne. Qed.

Lemma build_staging_spec key i source build name s :
  build_outcome key i source build name s (build_staging key i source build name s).
Proof using MetadataCodecLaws0.
  unfold DerivedStore.build_staging. rewrite io_bind. destruct (fails CCopy); [by apply build_failed|].
  rewrite lift_bind. destruct (copy_tree try_clone_file source) as [copied|] eqn:Hc; [|by apply build_failed].
  unfold set_staging. rewrite (bind_run (modify _) _ _ _ () eq_refl), lift_bind.
  destruct (build copied) as [image|] eqn:Hb;
    [|apply build_failed; [done|intros; by apply staged_other]].
  rewrite (bind_run (modify _) _ _ _ () eq_refl), io_bind. cbn [objects staging].
  set (s1 := mk_store _ _).
  assert (∀ n, n ≠ name → staging s1 !! n = staging s !! n) as Hs1
    by (intros; cbn [staging s1]; by rewrite !staged_other).
  destruct (fails CReadStaging); [by apply build_failed|].
  rewrite lift_bind. destruct (validate_tree image) as [[]|e] eqn:Hv; [|by apply build_failed].
  rewrite lift_bind. destruct (tree_identity hash image) as [[digest size]|e] eqn:Ht; [|by apply build_failed].
  rewrite io_bind. destruct (fails CWriteMetadata); [by apply build_failed|].
  rewrite (bind_run (modify _) _ _ _ () eq_refl), io_bind.
  set (s2 := mk_store _ _).
  assert (∀ n, n ≠ name → staging s2 !! n = staging s !! n) as Hs2
    by (intros; cbn [staging s2]; rewrite staged_other by done; by apply Hs1).
  destruct (fails CSeal); [by apply build_failed|].
  rewrite (bind_run (modify _) _ _ _ () eq_refl). split; [done|].
  split; [intros n Hn; etrans; [by apply staged_other|by apply Hs2]|].
  intros m [= <-]. exists copied, image, (mk_object (Some (metadata_to_vec
    (PersistedMetadata_new hash key i digest size now_ms) +:+ String newline "")) (Some (seal_tree image))).
  split; [done|]. split; [done|].
  split; [apply lookup_partial_alter_eq|].
  split; [by apply published_valid|]. split; [done|]. by eexists _, _.
Qed.

(** How the store may change, whatever the result. *)
Definition grows (key : string) (s s' : store) : Prop :=
  (∀ k o, objects s !! k = Some o → objects s' !! k = Some o) ∧
  (∀ k o, objects s' !! k = Some o → objects s !! k = Some o ∨ race = Some o ∨ (k = key ∧ valid_object key o)).
(** A reference that is handed out names a valid object. *)
Definition good_result (key : string) (s' : store) (r : result DerivedError EnsureDerived) : Prop :=
  match r with
  | Ok (Hit ref) | Ok (Built ref) =>
      ref = derived_ref key ∧ ∃ o, objects s' !! key = Some o ∧ valid_object key o
  | _ => True
  end.

Lemma grows_refl key s : grows key s s.
Proof using Type. split; auto. Qed.
Lemma grows_objects key s s1 s2 : objects s2 = objects s1 → grows key s s1 → grows key s s2.
Proof using Type. unfold grows. by intros ->. Qed.

Lemma accept_hit_good key o s : objects s !! key = Some o →
  let r := accept_hit key o s in r.1 = s ∧ good_result key r.1 r.2.
Proof using Type.
  intros Ho. pose proof (accept_hit_state key o s) as Hs. cbn zeta. split; [done|].
  destruct (accept_hit key o s) as [s' [r|e]] eqn:Hr; [|done]. cbn [fst snd] in *. subst s'.
  apply accept_hit_Ok in Hr as [-> Hv]. split; [done|]. by exists o.
Qed.

Lemma publish_staging_grows key i source build name s : objects s !! key = None →
  let r := publish_staging key i source build name s in
  grows key s r.1 ∧ good_result key r.1 r.2 ∧ (∀ n, n ≠ name → staging r.1 !! n = staging s !! n).
Proof using MetadataCodecLaws0.
  intros Hkey. unfold DerivedStore.publish_staging.
  pose proof (build_staging_spec key i source build name s) as (Ho & Hst & Hok).
  destruct (build_staging key i source build name s) as [s1 [m|e]] eqn:Hb; cbn [fst snd] in *.
  2: { rewrite (bind_run_err _ _ _ _ _ Hb). cbn [fst snd]. split; [|split; [done|exact Hst]].
       by apply (grows_objects key s s), grows_refl. }
  destruct (Hok m eq_refl) as (copied & image & o & _ & _ & Hname & Hv & _). clear Hok.
  rewrite (bind_run _ _ _ _ _ Hb), io_bind.
  assert (grows key s s1) as Hg1 by (by apply (grows_objects key s s), grows_refl).
  destruct (fails CParent); [split; [done|]; split; [done|exact Hst]|]. unfold interfere.
  rewrite (bind_run (modify _) _ _ _ () eq_refl).
  set (s2 := match race, objects s1 !! key with
             | Some o', None => mk_store (<[key := o']> (objects s1)) (staging s1) | _, _ => s1 end).
  assert (objects s1 !! key = None) as Hk1 by (by rewrite Ho).
  assert (staging s2 = staging s1) as Hst2 by (unfold s2; by repeat case_match).
  assert (objects s2 = match race with Some o' => <[key := o']> (objects s) | None => objects s end) as Ho2.
  { unfold s2. rewrite Hk1, <- Ho. by destruct race. }
  assert (grows key s s2) as Hg2.
  { split; rewrite Ho2; destruct race as [o'|]; try done; intros k o1.
    - intros H. rewrite lookup_insert_ne; [done|congruence].
    - intros [[-> ->]|[_ H]]%lookup_insert_Some; auto.
    - auto. }
  destruct (fails CRename || occupied (objects s2 !! key)) eqn:Hocc.
  - assert (rename_object fails name key s2 = (s2, Ok false)) as Hren
      by (unfold rename_object; by rewrite Hst2, Hname, Hocc).
    rewrite (bind_run _ _ _ _ _ Hren), (bind_run (gets _) _ _ _ _ eq_refl).
    destruct (objects s2 !! key) as [o'|] eqn:Ho'.
    + destruct (accept_hit_good key o' s2 Ho') as [-> Hgood]. split; [done|]. split; [done|].
      intros n Hn. rewrite Hst2. by apply Hst.
    + cbn. split; [done|]. split; [done|]. intros n Hn. rewrite Hst2. by apply Hst.
  - set (s3 := mk_store (<[key := o]> (objects s2)) (delete name (staging s1))).
    assert (rename_object fails name key s2 = (s3, Ok true)) as Hren
      by (unfold rename_object; by rewrite Hst2, Hname, Hocc).
    rewrite (bind_run _ _ _ _ _ Hren), (bind_run (gets _) _ _ _ _ eq_refl).
    apply orb_false_iff in Hocc as [_ Hocc].
    assert (grows key s s3) as Hg3.
    { split; cbn [objects s3]; intros k o1.
      - intros H. rewrite lookup_insert_ne by congruence. by apply Hg2.
      - intros [[-> ->]|[_ H]]%lookup_insert_Some; [by right; right|]. by apply Hg2. }
    assert (∀ n, n ≠ name → staging s3 !! n = staging s !! n) as Hs3.
    { intros n Hn. cbn [staging s3]. rewrite lookup_delete_ne by done. by apply Hst. }
    rewrite io_bind. destruct (fails CSealDest); [split; [done|]; split; [done|exact Hs3]|].
    rewrite lift_bind. destruct (map_err _ _); [|split; [done|]; split; [done|exact Hs3]].
    split; [done|]. split; [|exact Hs3]. split; [done|].
    exists o. split; [|done]. change (<[key := o]> (objects s2) !! key = Some o).
    by rewrite lookup_insert_eq.
Qed.


(** What was built is found again: when no call fails and the build gives a
    tree that validates, the first [ensure] of a key answers [Built], and from
    then on every [ensure] of the same inputs answers [Hit] with the same
    reference and changes nothing, whatever build it is given. *)
Theorem ensure_then_hit i source copied image digest size build name s :
  let key := hex_encode (derived_key hash i) in
  (∀ c, fails c = false) → race = None →
  (∀ r, publish_derived r = Ok ()) → (∀ r n, access_derived r n = Ok ()) →
  objects s !! key = None → copy_tree try_clone_file source = Ok copied → build copied = Ok image →
  validate_tree image = Ok () → tree_identity hash image = Ok (digest, size) →
  let r := ensure i source false build name s in
  r.2 = Ok (Built (derived_ref key)) ∧
  (∃ o, objects r.1 !! key = Some o ∧ ob_image o = Some (seal_tree image)) ∧
  (∀ source' build' name', ensure i source' false build' name' r.1 = (r.1, Ok (Hit (derived_ref key)))).
Proof using MetadataCodecLaws0.
  cbn zeta. intros Hf Hrace Hpub Hacc Hkey Hc Hb Hv Ht. set (key := hex_encode (derived_key hash i)) in *.
  set (bytes := metadata_to_vec (PersistedMetadata_new hash key i digest size now_ms) +:+ String newline "").
  set (o := mk_object (Some bytes) (Some (seal_tree image))).
  assert (valid_object key o) as Hvalid by (by apply published_valid).
  assert (∀ s', objects s' !! key = Some o → accept_hit key o s' = (s', Ok (Hit (derived_ref key)))) as Hhit.
  { intros s' Ho. unfold DerivedStore.accept_hit, validate_published.
    destruct Hvalid as (m & Hm & Hi).
    unfold mbind at 1, M_bind at 1. rewrite io_bind, Hf, lift_bind, Hm, io_bind, Hf, lift_bind, Hi.
    cbn [mret M_ret]. by rewrite lift_bind, Hacc. }
  assert (∃ s', objects s' = <[key := o]> (objects s) ∧
    ensure i source false build name s = (s', Ok (Built (derived_ref key)))) as (s' & Ho & Hens).
  { unfold DerivedStore.ensure. fold key. rewrite Hf, mret_bind.
    rewrite (bind_run (gets _) _ _ _ _ eq_refl), Hkey, io_bind, Hf.
    unfold set_staging at 1. rewrite (bind_run (modify _) _ _ _ () eq_refl).
    unfold with_staging, DerivedStore.publish_staging, DerivedStore.build_staging, set_staging.
    set (s1 := mk_store (objects s) _).
    unfold mbind at 1, M_bind at 1. rewrite io_bind, Hf, lift_bind, Hc.
    rewrite (bind_run (modify _) _ _ _ () eq_refl), lift_bind, Hb.
    rewrite (bind_run (modify _) _ _ _ () eq_refl), io_bind, Hf, lift_bind, Hv, lift_bind, Ht, io_bind, Hf.
    rewrite (bind_run (modify _) _ _ _ () eq_refl), io_bind, Hf.
    rewrite (bind_run (modify _) _ _ _ () eq_refl). cbn [mret M_ret].
    fold bytes. fold o. set (s2 := mk_store _ (partial_alter (λ _, Some o) name _)).
    rewrite io_bind, Hf. unfold interfere. rewrite Hrace.
    rewrite (bind_run (modify _) _ _ _ () eq_refl).
    assert (rename_object fails name key s2 = (mk_store (<[key := o]> (objects s2)) (delete name (staging s2)), Ok true)) as Hren.
    { unfold rename_object, s2. cbn [staging objects]. rewrite lookup_partial_alter_eq, Hf.
      unfold s1. cbn [objects]. by rewrite Hkey. }
    rewrite (bind_run _ _ _ _ _ Hren), (bind_run (gets _) _ _ _ _ eq_refl), io_bind, Hf, lift_bind, Hpub.
    eexists. split; [|reflexivity]. done. }
  rewrite Hens. cbn [fst snd]. split; [done|]. split; [exists o; by rewrite Ho, lookup_insert_eq|].
  intros source' build' name'. unfold DerivedStore.ensure. fold key. rewrite Hf, mret_bind.
  rewrite (bind_run (gets _) _ _ _ _ eq_refl), Ho, lookup_insert_eq. apply Hhit.
  by rewrite Ho, lookup_insert_eq.
Qed.
End theory.

(** A copy has the contents of its source. *)
Lemma copy_entry_hash clone depth it it' rel acc : copy_entry clone depth it = Ok it' →
  hash_entry rel it' acc = hash_entry rel it acc.
Proof.
  revert depth it' rel acc. induction it as [l IH| | |] using item_nested_ind;
    intros depth it' rel [stream size]; simpl; try (by intros [= <-]).
  - intros (l' & Hl & [= <-])%bind_Ok. simpl.
    generalize (if bool_decide (rel = []) then stream else stream +:+ hash_field "d" (join "/" rel), size) as acc.
    clear stream size. revert l' Hl. induction IH as [|[n c] l Hc _ IHl]; intros l' Hl acc.
    + by injection Hl as <-.
    + apply bind_Ok in Hl as (c' & Hc' & (l'' & Hl'' & [= <-])%bind_Ok). cbn [snd] in Hc.
      rewrite (Hc _ _ _ _ Hc'). destruct (hash_entry (rel ++ [n]) c acc) as [a|e]; [|done]. by apply IHl.
  - by intros ([] & _ & [= <-])%bind_Ok.
Qed.

(** ** Runs *)

Module DerivedRuns.
(** A codec that satisfies the laws: the metadata as one decimal number. *)
Definition target_tuple (t : TargetDescriptor) := (td_os t, td_architecture t, td_family t, td_abi t).
Definition metadata_tuple (m : PersistedMetadata) :=
  (pm_schema m, pm_key m, pm_source_artifact m, pm_source_revision m, pm_dependency_graph m,
   target_tuple (pm_target m), pm_executable_digest m, pm_version m, pm_modules_abi m,
   pm_napi_version m, map_to_list (pm_script_digests m),
   (pm_runner_version m, pm_policy_version m, pm_size_bytes m, pm_published_at_ms m, pm_tree_digest m)).
Definition of_tuple (x : N * string * string * option string * string *
    (string * string * string * string) * string * string * string * option string *
    list (string * string) * (N * N * N * N * string)) : PersistedMetadata :=
  let '(schema, key, source, revision, graph, (os, arch, family, abi), exe, version, modules, napi,
        scripts, (runner, policy, size, published, digest)) := x in
  mk_PersistedMetadata schema key source revision graph (mk_TargetDescriptor os arch family abi)
    exe version modules napi (list_to_map scripts) runner policy size published digest.
#[local] Instance codec : MetadataCodec := {|
  metadata_to_vec m := pretty (N.pos (encode (metadata_tuple m)));
  metadata_from_slice s :=
    match digits_N 0 (default s (strip_suffix (String newline "") s)) with
    | Some (N.pos p) => ok_or "json" (of_tuple <$> decode p)
    | _ => Err "json"
    end |}.
#[local] Instance codec_laws : MetadataCodecLaws codec.
Proof.
  split. intros m. cbn [metadata_from_slice metadata_to_vec codec].
  rewrite (proj2 (strip_suffix_Some _ _ _) eq_refl). cbn [from_option]. unfold id. rewrite digits_pretty, decode_encode.
  destruct m as [? ? ? ? ? [] ? ? ? ? ? ? ? ? ? ?]. simpl. by rewrite list_to_map_to_list.
Qed.

(** The contents of a file are hashed without their length: bytes that look like
    the header of the next file can move between two files. *)
Definition header : string := hash_field "f" "b".
Definition image1 : item := Dir [("a", File "" 420); ("b", File header 420)].
Definition image2 : item := Dir [("a", File header 420); ("b", File "" 420)].

Lemma tree_identity_is_ambiguous `{Cd : Codecs} hash :
  image1 ≠ image2 ∧ tree_identity hash image1 = tree_identity hash image2.
Proof. split; [discriminate|]. reflexivity. Qed.

(** So a published image can be exchanged without being noticed. *)
Lemma exchanged_image_is_a_hit `{Cd : Codecs} hash m bytes :
  check_image hash m (mk_object bytes (Some image1)) = check_image hash m (mk_object bytes (Some image2)).
Proof. reflexivity. Qed.

(** A package whose install script adds one file. *)
Definition source_image : item := Dir [("index.js", File "main" 420); ("self", Symlink "./index.js")].
Definition build (it : item) : result DerivedError item :=
  match it with
  | Dir l => Ok (Dir (("addon.node", File "native" 493) :: l))
  | _ => Err (DSandbox "p" "install")
  end.
Definition empty_store : store := mk_store ∅ ∅.
Notation run fails race := (ensure (Cd := Plain.codecs) (Mc := codec) id (λ _ _, None) fails (λ _, Ok ())
  (λ _ _, Ok ()) 7 race (KeySample.inputs ["install"] KeySample.scripts)).
Definition built_image : item :=
  Dir [("addon.node", File "native" 493); ("index.js", File "main" 420); ("self", Symlink "./index.js")].
Definition built_identity : string * N :=
  match tree_identity (Cd := Plain.codecs) id built_image with Ok x => x | Err _ => ("", 0%N) end.
Notation the_key := (hex_encode (Codecs := Plain.codecs)
  (derived_key id (KeySample.inputs ["install"] KeySample.scripts))).

Lemma ensure_then_hit_witness :
  let r := run (λ _, false) None source_image false build "s1" empty_store in
  r.2 = Ok (Built (derived_ref the_key)) ∧
  run (λ _, false) None source_image false (λ _, Err (DSandbox "p" "install")) "s2" r.1
    = (r.1, Ok (Hit (derived_ref the_key))).
Proof.
  destruct (ensure_then_hit (Cd := Plain.codecs) (Mc := codec) id (λ _ _, None) (λ _, false) (λ _, Ok ())
    (λ _ _, Ok ()) 7 None (KeySample.inputs ["install"] KeySample.scripts) source_image source_image
    built_image built_identity.1 built_identity.2 build "s1" empty_store) as (H1 & _ & H3).
  - intros c. reflexivity.
  - reflexivity.
  - intros r. reflexivity.
  - intros r n. reflexivity.
  - apply lookup_empty.
  - vm_compute. reflexivity.
  - vm_compute. reflexivity.
  - vm_compute. reflexivity.
  - vm_compute. reflexivity.
  - split; [exact H1|]. apply H3.
Defined.

End DerivedRuns.
