(* ===== verification/GraphClosure.v ===== *)
(** * The closure digest: termination and locality

    The recursion of [closure_digest] returns whatever the edges, cycles
    included, and its result depends only on what the package reaches. *)

From S2P Require Export Graph.
From Stdlib Require Import Ascii.

Section closure.
Context `{Cd : Codecs} (hash : string → string).

(** ** One child *)

(** The loop body over the children, for the recursive call [rec]. *)
Definition child_step
    (rec : string → gmap string string → gset string → option (gmap string string * string))
    (stack : gset string) (st : option (gmap string string * string)) (target : string)
    : option (gmap string string * string) :=
  '(memo, bytes) ← st;
  '(memo, digest) ←
    (if bool_decide (target ∈ stack) then Some (memo, cycle_marker hash target)
     else rec target memo stack);
  Some (memo, bytes +:+ "child" +:+ String nul digest).

Lemma closure_digest_S fuel packages resolution path memo stack :
  closure_digest hash (S fuel) packages resolution path memo stack =
  match memo !! path with
  | Some digest => Some (memo, digest)
  | None =>
      '(memo, bytes) ←
        foldl (child_step (closure_digest hash fuel packages resolution) ({[ path ]} ∪ stack))
          (Some (memo, closure_header packages path)) (closure_children resolution path);
      Some (<[path := hash bytes]> memo, hash bytes)
  end.
Proof. done. Qed.

Lemma child_steps_total rec stack l st :
  (∀ t memo, t ∈ l → t ∉ stack → is_Some (rec t memo stack)) →
  is_Some st → is_Some (foldl (child_step rec stack) st l).
Proof.
  revert st. induction l as [|t l IH]; intros st Hrec [[memo bytes] ->]; [by eexists|].
  simpl. apply IH; [intros; apply Hrec; [by right|done]|].
  unfold child_step. simpl. case_bool_decide as Ht; simpl; [by eexists|].
  destruct (Hrec t memo) as [[memo' d] ->]; [by left|done|]. by eexists.
Qed.

Lemma child_steps_ext rec rec' stack l st :
  (∀ t memo, t ∈ l → t ∉ stack → rec t memo stack = rec' t memo stack) →
  foldl (child_step rec stack) st l = foldl (child_step rec' stack) st l.
Proof.
  revert st. induction l as [|t l IH]; intros st Hrec; [done|]. simpl.
  rewrite IH by (intros; apply Hrec; [by right|done]). f_equal.
  unfold child_step. destruct st as [[memo bytes]|]; [|done]. simpl.
  case_bool_decide as Ht; [done|]. by rewrite Hrec by (done || by left).
Qed.

(** ** The measure: resolution entries not on the stack *)

Definition left_over (resolution : gmap string PackageResolution) (stack : gset string) : nat :=
  size (dom resolution ∖ stack).

Lemma left_over_push resolution path stack :
  closure_children resolution path ≠ [] → path ∉ stack →
  S (left_over resolution ({[ path ]} ∪ stack)) ≤ left_over resolution stack.
Proof.
  intros Hc Hp. unfold left_over. apply subset_size. split; [set_solver|].
  assert (path ∈ dom resolution) as Hd; [|set_solver].
  apply elem_of_dom. unfold closure_children in Hc.
  destruct (resolution !! path); [by eexists|done].
Qed.

(** ** Reachability *)

Definition reaches (resolution : gmap string PackageResolution) : string → string → Prop :=
  rtc (λ a b, b ∈ closure_children resolution a).

(** Two lockfile graphs agree on a package. *)
Definition agree_at (packages packages' : gmap string PackageEntry)
    (resolution resolution' : gmap string PackageResolution) (q : string) : Prop :=
  closure_header packages q = closure_header packages' q ∧
  closure_children resolution q = closure_children resolution' q.

Lemma closure_digest_total fuel packages resolution path memo stack :
  path ∉ stack → left_over resolution stack < fuel →
  is_Some (closure_digest hash fuel packages resolution path memo stack).
Proof.
  revert path memo stack. induction fuel as [|fuel IH]; intros path memo stack Hp Hf; [lia|].
  rewrite closure_digest_S. destruct (memo !! path); [by eexists|].
  destruct (child_steps_total (closure_digest hash fuel packages resolution) ({[ path ]} ∪ stack)
              (closure_children resolution path)
              (Some (memo, closure_header packages path))) as [[m b] ->].
  - intros t m Ht Hts. apply IH; [done|].
    pose proof (left_over_push resolution path stack). destruct (closure_children resolution path);
      [by apply not_elem_of_nil in Ht|]. specialize (H ltac:(done) Hp). lia.
  - by eexists.
  - by eexists.
Qed.

Lemma closure_digest_agree n m packages packages' resolution resolution' path memo stack :
  path ∉ stack →
  (∀ q, reaches resolution path q → agree_at packages packages' resolution resolution' q) →
  left_over resolution stack < n → left_over resolution' stack < m →
  closure_digest hash n packages resolution path memo stack =
  closure_digest hash m packages' resolution' path memo stack.
Proof.
  revert m path memo stack. induction n as [|n IH]; intros m path memo stack Hp Ha Hn Hm; [lia|].
  destruct m as [|m]; [lia|]. rewrite !closure_digest_S. destruct (memo !! path); [done|].
  destruct (Ha path) as [<- Hc]; [apply rtc_refl|]. rewrite <- Hc.
  rewrite (child_steps_ext _ (closure_digest hash m packages' resolution')); [done|].
  intros t memo' Ht Hts.
  assert (closure_children resolution path ≠ []) as Hne.
  { intros E. rewrite E in Ht. by apply not_elem_of_nil in Ht. }
  pose proof (left_over_push resolution path stack Hne Hp).
  rewrite Hc in Hne. pose proof (left_over_push resolution' path stack Hne Hp).
  apply IH; [done| |lia..]. intros q Hq. apply Ha. by eapply rtc_l.
Qed.

(** ** Property *)

(** The closure digest of a package always returns, cyclic edges included, and
    is a function of the package's own closure: two lockfiles that agree on the
    identity and the resolved targets of everything the package reaches give it
    the same digest, whatever else they contain. *)
Theorem package_closure_digest_local l l' path :
  (∀ q, reaches (rm_packages (lf_resolution l)) path q →
     agree_at (package_index l) (package_index l') (rm_packages (lf_resolution l))
       (rm_packages (lf_resolution l')) q) →
  is_Some (package_closure_digest hash l path) ∧
  package_closure_digest hash l path = package_closure_digest hash l' path.
Proof.
  intros Ha. unfold package_closure_digest.
  assert (∀ r : gmap string PackageResolution, left_over r ∅ < S (S (size r))) as Hs.
  { intros r. unfold left_over. rewrite difference_empty_L, size_dom. lia. }
  split.
  - apply fmap_is_Some. by apply closure_digest_total; [set_solver|].
  - f_equal. by apply closure_digest_agree; [set_solver|..].
Qed.
End closure.

(** ** A concrete graph for the witness: two packages that depend on each other,
    and a third one that only the second lockfile has. *)
Module ClosureSample.
Definition pkg (path version : string) : PackageEntry :=
  mk_PackageEntry path path version "" None None false false false [] [] ∅ ∅.
Definition res (target : string) : PackageResolution :=
  mk_PackageResolution (LSRegistry "https://reg/") false false []
    {[ "dep" := mk_LockDependency "^1" target ]} ∅ ∅ ∅ ∅ None false.
Definition cycle : gmap string PackageResolution := {[ "a" := res "b"; "b" := res "a" ]}.
Definition lock (packages : list PackageEntry) (resolution : gmap string PackageResolution) : Lockfile :=
  mk_Lockfile BPM_LOCK_VERSION "bpm" RootEntry_default packages
    (mk_ResolutionMetadata RootResolution_default resolution ∅).
Definition small : Lockfile := lock [pkg "a" "1.0.0"; pkg "b" "1.0.0"] cycle.
Definition large : Lockfile :=
  lock [pkg "a" "1.0.0"; pkg "b" "1.0.0"; pkg "c" "2.0.0"] (<["c" := res "a"]> cycle).

Lemma reach_cycle q : reaches cycle "a" q → q = "a" ∨ q = "b".
Proof.
  intros Hr. apply (rtc_ind_r (λ q, q = "a" ∨ q = "b")) with (x := "a") in Hr; [done|by left|].
  intros y z _ Hz [-> | ->]; vm_compute in Hz;
    apply list_elem_of_singleton in Hz as ->; auto.
Qed.
End ClosureSample.

Lemma package_closure_digest_local_witness :
  package_closure_digest id ClosureSample.small "a" = package_closure_digest id ClosureSample.large "a" ∧
  package_closure_digest id ClosureSample.small "a" ≠ None.
Proof.
  destruct (package_closure_digest_local id ClosureSample.small ClosureSample.large "a") as [[d Hd] He].
  - intros q Hq. apply ClosureSample.reach_cycle in Hq as [-> | ->]; split; vm_compute; reflexivity.
  - split; [exact He|]. rewrite Hd. discriminate.
Defined.
