(* ===== verification/Placement.v ===== *)
(** * [src/resolver/placement.rs]: the dependency-graph placement core

    The registry's answers, the file system, Git and the patch tool are arguments;
    the graph is the state of the [M] monad, which keeps what was placed when a
    call fails.  Prefetch hints only warm caches and are left out.  [resolve_dependency]
    recurses on fuel: running out is the error [ROutOfFuel], which the code does
    not have (it would recurse on). *)

From S2P Require Export StateError Peer Overrides Workspaces Sources Platform Lockfile.

Section model.
Context `{Sv : Semver} `{Cd : Codecs} `{Up : UrlParser}.

Record Node := mk_Node {
  n_path : string; n_placement_name : string; n_metadata : VersionMetadata;
  n_resolved : string; n_integrity : string;
  n_dependencies : gmap string string; n_targets : gmap string string;
  n_optional : bool; n_dev : bool; n_peer_context : gmap string PeerProvider;
  n_source : LockSource; n_link : bool; n_workspace_target : option string;
  n_source_dir : option string }.

Record ResolvedDownloadUnit := mk_ResolvedDownloadUnit {
  ru_path : string; ru_name : string; ru_url : string; ru_integrity : option Sha512Digest }.

(** [GraphResolver]'s mutable part: the placed nodes, the diagnostics, and what
    the download sink received. *)
Record graph := mk_graph {
  g_nodes : gmap string Node; g_diagnostics : list string;
  g_emitted : list ResolvedDownloadUnit }.
Definition graph_empty : graph := mk_graph ∅ [] [].

(** Why a source dependency failed. *)
Inductive PatchError :=
  | PSource (e : SourceError)
  | PUnreadablePatch (path message : string)
  | PLinkedDirectory
  | PNested
  | PNoHttpClient
  | PInvalidRegistrySource (registry_name registry_spec : string) (e : RegistryError)
  | PRegistry (e : RegistryError)
  | PApply (message : string).

Inductive ResolveError :=
  | RRegistry (package spec : string) (source : RegistryError)
  | RPlatform (package version : string)
  | ROverride (e : OverrideError)
  | RWorkspace (e : WorkspaceError)
  | RPeer (e : PeerConflict)
  | RPeerInstall (request : PeerRequest) (e : ResolveError)
  | RSource (package spec : string) (reason : PatchError)
  | RPlacementConflict (path package requested selected : string)
  | RPanic (message : string)
  | ROutOfFuel.

(** ** The environment of one resolution *)

Record resolver_env := mk_resolver_env {
  e_packument_for : PackageSpec → result RegistryError Packument;
  e_registry_for_package : string → string;
  e_overrides : OverrideSet;
  e_workspace : option WorkspaceIndex;
  e_root_dir : option string;
  e_target : TargetPlatform;
  e_sink : bool;
  e_io : source_io;
  (** [PackumentSource::http] is present. *)
  e_http : bool;
  e_read_to_string : string → result string string;
  (** [apply_unified_patch_to_tgz] and [write_patched_tarball]. *)
  e_apply_patch : bytes → string → result string bytes;
  e_write_patched_tarball : string → bytes → result string string }.

Variable env : resolver_env.
Abbreviation R := (M graph ResolveError).

Definition with_nodes (g : graph) (nodes : gmap string Node) : graph :=
  mk_graph nodes (g_diagnostics g) (g_emitted g).

(** ** Paths *)

Definition parent_path (path : string) : string :=
  default "" (fst <$> rsplit_once "/node_modules/" path).

(** [node_modules/name], or below a placed package. *)
Definition slot_path (candidate name : string) : string :=
  if is_empty candidate then "node_modules/" +:+ name
  else candidate +:+ "/node_modules/" +:+ name.

(** The loop [candidate = parent, its parent path, .., ""]: each step is shorter. *)
Fixpoint candidate_chain_fuel (fuel : nat) (candidate : string) : list string :=
  match fuel with
  | 0 => [candidate]
  | S fuel =>
      candidate :: if is_empty candidate then []
                   else candidate_chain_fuel fuel (parent_path candidate)
  end.
Definition candidate_chain (parent : string) : list string :=
  candidate_chain_fuel (strlen parent) parent.

Definition node_matches (g : graph) (spec path : string) : bool :=
  match g_nodes g !! path with
  | Some node => request_matches spec (vm_version (n_metadata node))
  | None => false
  end.

Definition find_visible (g : graph) (parent name spec : string) : option string :=
  snd <$> list_find (λ path, node_matches g spec path = true)
    ((λ c, slot_path c name) <$> candidate_chain parent).

Definition find_visible_any (g : graph) (parent name : string) : option string :=
  snd <$> list_find (λ path, is_Some (g_nodes g !! path))
    ((λ c, slot_path c name) <$> candidate_chain parent).

(** Root-most package first. *)
Definition ancestor_chain (g : graph) (parent : string) : list (string * Version) :=
  omap (λ path,
    (λ node, (n_placement_name node, vm_version (n_metadata node))) <$> g_nodes g !! path)
    (reverse (filter (λ c, c ≠ "") (candidate_chain parent))).

Definition base_dir_for (g : graph) (parent : string) : string :=
  let root := default "." (e_root_dir env) in
  if is_empty parent then root
  else default root (node ← g_nodes g !! parent; n_source_dir node).

(** ** Reachability and platform *)

Definition upgrade_node (optional dev : bool) (n : Node) : Node :=
  mk_Node (n_path n) (n_placement_name n) (n_metadata n) (n_resolved n) (n_integrity n)
    (n_dependencies n) (n_targets n) (n_optional n && optional) (n_dev n && dev)
    (n_peer_context n) (n_source n) (n_link n) (n_workspace_target n) (n_source_dir n).

Definition upgrade_reachability (path : string) (optional dev : bool) : R () :=
  modify (λ g, with_nodes g (alter (upgrade_node optional dev) path (g_nodes g))).

Definition push_diagnostic (message : string) : R () :=
  modify (λ g, mk_graph (g_nodes g) (g_diagnostics g ++ [message]) (g_emitted g)).

Definition platform_allows (name : string) (metadata : VersionMetadata) (optional : bool)
    : R bool :=
  let constraints := mk_PlatformConstraints (list_to_set (vm_os metadata))
                       (list_to_set (vm_cpu metadata)) (list_to_set (vm_libc metadata)) in
  match check_package_platform
          (name +:+ "@" +:+ version_to_string (vm_version metadata)) constraints (e_target env)
          (if optional then OptionalOnly else Required) with
  | Ok Compatible => mret true
  | Ok (SkipOptional diagnostic) => _ ← push_diagnostic (rd_message diagnostic); mret false
  | Err _ => throw (RPlatform name (version_to_string (vm_version metadata)))
  end.

(** ** Peers *)

Definition peer_candidate_matches (g : graph) (metadata : VersionMetadata) (parent : string)
    : bool :=
  forallb (λ kv : string * string,
    match find_visible_any g parent kv.1 with
    | None => match vm_peer_dependencies_meta metadata !! kv.1 with
              | Some meta => pm_optional meta
              | None => false
              end
    | Some path =>
        match g_nodes g !! path with
        | Some provider => request_matches kv.2 (vm_version (n_metadata provider))
        | None => false
        end
    end) (bt_list (vm_peer_dependencies metadata)).

Definition package_source_for_node (node : Node) (registry : string) : PackageSource :=
  match n_source node with
  | LSWorkspace relative_path => PSWorkspace relative_path
  | _ => PSRegistry registry
  end.

Definition provider_of (node : Node) : VisibleProvider :=
  mk_VisibleProvider
    (mk_ProviderIdentity (vm_name (n_metadata node))
       (version_to_string (vm_version (n_metadata node)))
       (package_source_for_node node (e_registry_for_package env (vm_name (n_metadata node)))))
    (n_path node) None.

(** The nearest provider of each package name wins ([or_insert_with]). *)
Definition visible_providers (g : graph) (parent : string) : gmap string VisibleProvider :=
  foldl (λ providers candidate,
    foldl (λ providers node,
      if bool_decide (n_path node = slot_path candidate (n_placement_name node)) then
        match providers !! vm_name (n_metadata node) with
        | Some _ => providers
        | None => <[vm_name (n_metadata node) := provider_of node]> providers
        end
      else providers) providers (bt_values (g_nodes g)))
    ∅ (candidate_chain parent).

(** The backtracking loop over published versions, newest first. *)
Fixpoint backtrack (g : graph) (registry_name registry_base parent : string)
    (packument : Packument) (versions : list Version) (resolved : ResolvedArtifact)
    : result RegistryError ResolvedArtifact :=
  match versions with
  | [] => Ok resolved
  | version :: versions =>
      candidate ← resolve_packument (mk_PackageSpec registry_name (Exact version)) packument
                    registry_base;
      if peer_candidate_matches g (ra_metadata candidate) parent then Ok candidate
      else backtrack g registry_name registry_base parent packument versions resolved
  end.

(** ** Placement *)

Definition insert_node (n : Node) : R () :=
  modify (λ g, with_nodes g (<[n_path n := n]> (g_nodes g))).

Definition add_target (parent child target : string) : R () :=
  modify (λ g, with_nodes g
    (alter (λ n, mk_Node (n_path n) (n_placement_name n) (n_metadata n) (n_resolved n)
       (n_integrity n) (n_dependencies n) (<[child := target]> (n_targets n)) (n_optional n)
       (n_dev n) (n_peer_context n) (n_source n) (n_link n) (n_workspace_target n)
       (n_source_dir n)) parent (g_nodes g))).

Definition emit (u : ResolvedDownloadUnit) : R () :=
  modify (λ g, mk_graph (g_nodes g) (g_diagnostics g) (g_emitted g ++ [u])).

Definition announce (path : string) : R () :=
  if negb (e_sink env) then mret ()
  else
    node ← gets (λ g, g_nodes g !! path);
    match node with
    | None => mret ()
    | Some node =>
        if n_link node || is_empty (n_resolved node) then mret ()
        else if is_empty (n_integrity node) then
          emit (mk_ResolvedDownloadUnit (n_path node) (n_placement_name node) (n_resolved node) None)
        else match Integrity_parse (n_integrity node) with
             | Ok d => emit (mk_ResolvedDownloadUnit (n_path node) (n_placement_name node)
                               (n_resolved node) (Some d))
             | Err _ => throw (RPanic "invalid integrity in resolved node")
             end
    end.

Definition child_is_optional (optional : bool) (member child : string) (g : graph) : bool :=
  match g_nodes g !! member with
  | Some node => optional || contains_key child (vm_optional_dependencies (n_metadata node))
  | None => false
  end.

(** The recursive call, one unit of fuel down. *)
Definition resolve_fn : Type := string → string → string → bool → bool → R (option string).

Definition record_target (parent child : string) (target : option string) : R () :=
  match target with
  | Some target => add_target parent child target
  | None => mret ()
  end.

Definition resolve_children (rec : resolve_fn) (parent : string)
    (dependencies : gmap string string) (optional dev : bool) : R () :=
  each_m (λ kv : string * string,
    child_optional ← gets (child_is_optional optional parent kv.1);
    target ← rec parent kv.1 kv.2 child_optional dev;
    record_target parent kv.1 target) (bt_list dependencies).

Definition is_placement_conflict (e : ResolveError) : bool :=
  match e with RPlacementConflict _ _ _ _ => true | _ => false end.

Definition resolve_children_hoisted (rec : resolve_fn) (member : string)
    (dependencies : gmap string string) (optional dev : bool) : R () :=
  each_m (λ kv : string * string,
    child_optional ← gets (child_is_optional optional member kv.1);
    target ← catch (rec "" kv.1 kv.2 child_optional dev) is_placement_conflict
               (rec member kv.1 kv.2 child_optional dev);
    record_target member kv.1 target) (bt_list dependencies).

Definition fresh_node (path name : string) (metadata : VersionMetadata)
    (resolved integrity : string) (optional dev : bool) (source : LockSource) (link : bool)
    (workspace_target source_dir : option string) : Node :=
  mk_Node path name metadata resolved integrity (merged_dependencies metadata) ∅ optional dev ∅
    source link workspace_target source_dir.

Definition workspace_manifest (w : WorkspaceIndex) (name : string) : option PackageManifest :=
  by_name w !! name ≫= iw_manifest.

(** The branch of a dependency that binds to a workspace member. *)
Definition place_workspace (rec : resolve_fn) (w : WorkspaceIndex) (name : string)
    (edge : DependencyEdge) (optional dev : bool) : R (option string) :=
  match id_source (de_target edge) with
  | PSRegistry _ => throw (RPanic "internal error: entered unreachable code")
  | PSWorkspace relative_path =>
      let path := slot_path "" name in
      present ← gets (λ g, contains_key path (g_nodes g));
      if present : bool then
        _ ← upgrade_reachability path optional dev; mret (Some path)
      else
        match workspace_metadata name (id_version (de_target edge)) (workspace_manifest w name) with
        | None => throw (RPanic "workspace versions are validated by the index")
        | Some metadata =>
            allowed ← platform_allows name metadata optional;
            if negb allowed then mret None
            else
              _ ← insert_node (fresh_node path name metadata "" "" optional dev
                    (LSWorkspace relative_path) true (Some relative_path)
                    (workspace_manifest w name ≫= mf_source_dir));
              _ ← resolve_children_hoisted rec path (merged_dependencies metadata) optional dev;
              mret (Some path)
        end
  end.

(** The unpatched package of a [patch:] spec and its archive. *)
Definition resolve_patch_inner (name inner : string)
    : result ResolveError (SourceResolution * bytes) :=
  let fail {A} (e : PatchError) : result ResolveError A :=
    Err (RSource name ("patch:" +:+ inner) e) in
  let wrap {E A} (f : E → PatchError) : result E A → result ResolveError A :=
    map_err (λ e, RSource name ("patch:" +:+ inner) (f e)) in
  match DependencySource_parse inner with
  | Some (DSPatch _ _) => fail PNested
  | Some source =>
      resolution ← wrap PSource (DependencySource_resolve (e_io env) source
                                   (default "." (e_root_dir env)));
      if negb (e_http env) then fail PNoHttpClient
      else
        content ← wrap PSource (read_source_bytes (e_io env) (sres_resolved resolution));
        Ok (resolution, content)
  | None =>
      let requested := if is_empty (trim inner) then "*" else trim inner in
      let aliased : result ResolveError (string * PackageSpec) :=
        let '(registry_name, registry_spec) := registry_request name requested in
        parsed ← wrap (PInvalidRegistrySource registry_name registry_spec)
                   (parse_spec (registry_name +:+ "@" +:+ registry_spec));
        Ok (registry_name, parsed) in
      '(registry_name, parsed) ←
        match parse_spec requested with
        | Ok parsed => if bool_decide (ps_name parsed = name) then Ok (ps_name parsed, parsed)
                       else aliased
        | Err _ => aliased
        end;
      let registry_base := e_registry_for_package env registry_name in
      packument ← wrap PRegistry (e_packument_for env parsed);
      resolved ← wrap PRegistry (resolve_packument parsed packument registry_base);
      if negb (e_http env) then fail PNoHttpClient
      else
        content ← wrap PSource (read_source_bytes (e_io env) (ra_tarball_url resolved));
        Ok (mk_SourceResolution (ra_metadata resolved) (ra_tarball_url resolved)
              (Some (ra_integrity resolved)) (LSRegistry registry_base) false None None, content)
  end.

Definition resolve_patch_dependency (name inner patch : string)
    : result ResolveError SourceResolution :=
  let base_dir := default "." (e_root_dir env) in
  let patch_path := path_join base_dir patch in
  let wrap {E A} (f : E → PatchError) : result E A → result ResolveError A :=
    map_err (λ e, RSource name ("patch:" +:+ inner +:+ "#" +:+ patch_path) (f e)) in
  patch_text ← wrap (PUnreadablePatch patch_path) (e_read_to_string env patch_path);
  '(source_resolution, source_bytes) ← resolve_patch_inner name inner;
  if sres_link source_resolution then
    Err (RSource name ("patch:" +:+ inner +:+ "#" +:+ patch_path) PLinkedDirectory)
  else
    patched ← wrap PApply (e_apply_patch env source_bytes patch_text);
    url ← wrap PApply (e_write_patched_tarball env base_dir patched);
    resolved ← wrap PSource (source_from_tarball_bytes (e_io env) url patched
                               (LSPatch (sres_source source_resolution) patch_path));
    Ok (with_resolved resolved url).

Definition resolve_source_dependency (rec : resolve_fn) (parent name spec : string)
    (source : DependencySource) (optional dev : bool) : R (option string) :=
  let path := slot_path parent name in
  present ← gets (λ g, contains_key path (g_nodes g));
  if present : bool then
    _ ← upgrade_reachability path optional dev; mret (Some path)
  else
    base_dir ← gets (λ g, base_dir_for g parent);
    resolved ←
      lift (match source with
            | DSPatch inner patch => resolve_patch_dependency name inner patch
            | source => map_err (λ e, RSource name spec (PSource e))
                          (DependencySource_resolve (e_io env) source base_dir)
            end);
    let metadata := sres_metadata resolved in
    allowed ← platform_allows name metadata optional;
    if negb allowed then mret None
    else
      _ ← insert_node (fresh_node path name metadata (sres_resolved resolved)
            (default "" (sres_integrity resolved)) optional dev (sres_source resolved)
            (sres_link resolved) (sres_workspace_target resolved) (sres_source_dir resolved));
      _ ← announce path;
      _ ← resolve_children rec path (merged_dependencies metadata) optional dev;
      mret (Some path).

(** Selecting the artifact: the best version for the request, or, when its peers
    clash with what is visible, the newest published version whose peers do not. *)
Definition select_artifact (g : graph) (parent name spec : string)
    : result ResolveError (ResolvedArtifact * string) :=
  let '(registry_name, registry_spec) := registry_request name spec in
  let wrap {A} : result RegistryError A → result ResolveError A := map_err (RRegistry name spec) in
  parsed ← wrap (parse_spec (registry_name +:+ "@" +:+ registry_spec));
  let registry_base := e_registry_for_package env registry_name in
  packument ← wrap (e_packument_for env parsed);
  resolved ← wrap (resolve_packument parsed packument registry_base);
  if peer_candidate_matches g (ra_metadata resolved) parent then Ok (resolved, registry_base)
  else
    let versions := reverse (sort_by version_leb (published packument)) in
    candidate ← wrap (backtrack g registry_name registry_base parent packument versions resolved);
    Ok (candidate, registry_base).

Definition place_registry (rec : resolve_fn) (parent name spec : string) (optional dev : bool)
    : R (option string) :=
  let visible_spec := (registry_request name spec).2 in
  visible ← gets (λ g, find_visible g parent name visible_spec);
  match visible with
  | Some path => _ ← upgrade_reachability path optional dev; mret (Some path)
  | None =>
      let path := slot_path parent name in
      occupant ← gets (λ g, g_nodes g !! path);
      match occupant with
      | Some selected =>
          if request_matches visible_spec (vm_version (n_metadata selected)) then mret (Some path)
          else throw (RPlacementConflict path name spec
                        (version_to_string (vm_version (n_metadata selected))))
      | None =>
          chosen ← gets (λ g, select_artifact g parent name spec);
          '(resolved, registry_base) ← lift chosen;
          allowed ← platform_allows name (ra_metadata resolved) optional;
          if negb allowed then mret None
          else
            _ ← insert_node (fresh_node path name (ra_metadata resolved) (ra_tarball_url resolved)
                  (ra_integrity resolved) optional dev (LSRegistry registry_base) false None None);
            _ ← announce path;
            _ ← resolve_children rec path (merged_dependencies (ra_metadata resolved)) optional dev;
            mret (Some path)
      end
  end.

Definition resolve_step (rec : resolve_fn) : resolve_fn :=
  λ parent name requested optional dev,
    spec ← gets (λ g, effective_spec_for (e_overrides env) name requested (ancestor_chain g parent));
    let elsewhere : R (option string) :=
      match DependencySource_parse spec with
      | Some source => resolve_source_dependency rec parent name spec source optional dev
      | None => place_registry rec parent name spec optional dev
      end in
    match e_workspace env with
    | None => elsewhere
    | Some w =>
        match WorkspaceIndex_resolve w name spec with
        | Err e => throw (RWorkspace e)
        | Ok (WLink edge) => place_workspace rec w name edge optional dev
        | Ok (WRegistry _) => elsewhere
        end
    end.

Fixpoint resolve_dependency (fuel : nat) : resolve_fn :=
  match fuel with
  | 0 => λ _ _ _ _ _, throw ROutOfFuel
  | S fuel => resolve_step (resolve_dependency fuel)
  end.
End model.
