(* ===== verification/PlacementInv.v ===== *)
(** * What every placement step keeps

    The graph invariant of [GraphResolver], the order in which graphs evolve
    (nothing placed is ever removed or changed, only flags drop and edges are
    added), and that [resolve_dependency] keeps both on success and on error. *)

From S2P Require Export Placement.
From Stdlib Require Import Ascii.

(** ** Lookup chains *)

Lemma parent_path_shorter p : p ≠ "" → strlen (parent_path p) < strlen p.
Proof.
  intros Hp. unfold parent_path, strlen. destruct (rsplit_once _ p) as [[a b]|] eqn:Hr; simpl.
  - apply rsplit_once_Some in Hr as ->. rewrite !length_app_s. simpl. lia.
  - destruct p; [done|]. simpl. lia.
Qed.

Lemma candidate_chain_fuel_enough n m p :
  strlen p ≤ n → strlen p ≤ m → candidate_chain_fuel n p = candidate_chain_fuel m p.
Proof.
  revert m p. induction n as [|n IH]; intros [|m] p Hn Hm; simpl; try done;
    destruct (is_empty p) eqn:He; try done; apply is_empty_false in He;
    pose proof (parent_path_shorter p He).
  - destruct p; [done|simpl in *; lia].
  - destruct p; [done|simpl in *; lia].
  - f_equal. apply IH; lia.
Qed.

Lemma candidate_chain_unfold p :
  candidate_chain p = p :: if is_empty p then [] else candidate_chain (parent_path p).
Proof.
  unfold candidate_chain at 1. destruct (is_empty p) eqn:He.
  - apply is_empty_true in He as ->. done.
  - pose proof He as Hne%is_empty_false. pose proof (parent_path_shorter p Hne).
    destruct (strlen p) as [|n] eqn:Hl; [lia|]. simpl. rewrite He. f_equal.
    apply candidate_chain_fuel_enough; lia.
Qed.

Lemma candidate_chain_ind (P : string → Prop) :
  P "" → (∀ p, p ≠ "" → P (parent_path p) → P p) → ∀ p, P p.
Proof.
  intros H0 Hs p. remember (strlen p) as n eqn:Hn. revert p Hn.
  induction (lt_wf n) as [n _ IH]. intros p ->.
  destruct (decide (p = "")) as [->|Hp]; [done|]. apply Hs; [done|].
  eapply IH; [by apply parent_path_shorter|done].
Qed.

Lemma candidate_chain_self p : p ∈ candidate_chain p.
Proof. rewrite candidate_chain_unfold. by left. Qed.

Lemma candidate_chain_root p : "" ∈ candidate_chain p.
Proof.
  induction p as [|p Hp IH] using candidate_chain_ind; rewrite candidate_chain_unfold; [by left|].
  apply is_empty_false in Hp. rewrite Hp. by right.
Qed.

(** Every candidate is the root, the dependent, or a package around it. *)
Lemma candidate_chain_prefix c p :
  c ∈ candidate_chain p → c = "" ∨ c = p ∨ ∃ r, p = c +:+ "/node_modules/" +:+ r.
Proof.
  induction p as [|p Hp IH] using candidate_chain_ind; rewrite candidate_chain_unfold.
  - set_solver.
  - apply is_empty_false in Hp as He. rewrite He. intros [->|Hc]%elem_of_cons; [by right; left|].
    unfold parent_path in *. destruct (rsplit_once _ p) as [[a b]|] eqn:Hr; simpl in *.
    + apply rsplit_once_Some in Hr as ->. destruct (IH Hc) as [->|[->|[r ->]]]; [by left| |].
      * right. right. by exists b.
      * right. right. exists (r +:+ "/node_modules/" +:+ b). by rewrite <- !app_assoc_s.
    + destruct (IH Hc) as [->|[->|[r Hr']]]; [by left|by left|].
      by destruct c.
Qed.

Lemma normalized_prefix c r :
  c ≠ "" → is_normalized_relative (c +:+ String slash r) = true → is_normalized_relative c = true.
Proof.
  intros Hne (_ & _ & Hb & H2 & Hf)%is_normalized_relative_true.
  rewrite split_char_app_sep in Hf. apply Forall_app in Hf as [Hf _].
  rewrite contains_char_app in Hb. apply orb_false_iff in Hb as [Hb _].
  apply normalized_valid; try done.
  destruct c as [|a [|b c]]; try done.
Qed.

Lemma candidate_normalized c p :
  is_normalized_relative p = true → c ∈ candidate_chain p → c = "" ∨ is_normalized_relative c = true.
Proof.
  intros Hp [->|[->|[r ->]]]%candidate_chain_prefix; [by left|by right|].
  destruct (decide (c = "")); [by left|]. right. by eapply normalized_prefix.
Qed.

Lemma slot_path_normalized c name :
  c = "" ∨ is_normalized_relative c = true → is_valid_npm_read_name name = true →
  is_normalized_relative (slot_path c name) = true.
Proof.
  intros Hc Hn. apply valid_name_components in Hn as (Hf & Hb & Hne).
  assert (Forall (λ x, is_valid_component x = true) (split_char slash ("node_modules/" +:+ name)))
    as Hnm.
  { change ("node_modules/" +:+ name) with ("node_modules" +:+ String slash name).
    rewrite split_char_app_sep, (split_char_none slash "node_modules") by done.
    by constructor. }
  unfold slot_path. destruct (is_empty c) eqn:He.
  - apply normalized_valid; try done.
  - apply is_empty_false in He. destruct Hc as [?|Hc]; [done|].
    apply is_normalized_relative_true in Hc as (_ & _ & Hcb & H2 & Hcf).
    change (c +:+ "/node_modules/" +:+ name) with (c +:+ String slash ("node_modules/" +:+ name)).
    apply normalized_valid.
    + by destruct c.
    + destruct c as [|a [|b c]]; try done.
    + rewrite contains_char_app, Hcb. simpl. exact Hb.
    + rewrite split_char_app_sep. by apply Forall_app.
Qed.

(** What the resolver relies on outside its own code: SHA-512 has 64 bytes, an empty
    path is not a readable file, Git has no repository without a URL, a written
    archive has a URL, and a registry is configured for every package. *)
Record env_laws `{Sv : Semver} (env : resolver_env) : Prop := mk_env_laws {
  el_sha512 : ∀ content, strlen (io_sha512 (e_io env) content) = 64;
  el_read_empty : is_ok (e_read_to_string env "") = false;
  el_git_empty : ∀ ref commit, is_ok (io_git_archive (e_io env) "" ref commit) = false;
  el_written : ∀ dir content url, e_write_patched_tarball env dir content = Ok url → url ≠ "";
  el_registry : ∀ package, e_registry_for_package env package ≠ "" }.

Section invariant.
Context `{Sv : Semver} `{Cd : Codecs} `{Up : UrlParser}.
Context `{L : !SemverLaws Sv} `{CL : !CodecLaws Cd}.
Variable env : resolver_env.
Context (Henv : env_laws env).

(** ** Evolution *)

(** What happens to a placed node: it stays where it is, keeps its package, its
    source and its declared dependencies; it can only become less optional and
    less of a development dependency, and only gain edges. *)
Record evolves (n n' : Node) : Prop := mk_evolves {
  ev_path : n_path n' = n_path n;
  ev_name : n_placement_name n' = n_placement_name n;
  ev_metadata : n_metadata n' = n_metadata n;
  ev_resolved : n_resolved n' = n_resolved n;
  ev_integrity : n_integrity n' = n_integrity n;
  ev_dependencies : n_dependencies n' = n_dependencies n;
  ev_peer_context : n_peer_context n' = n_peer_context n;
  ev_source : n_source n' = n_source n;
  ev_link : n_link n' = n_link n;
  ev_workspace_target : n_workspace_target n' = n_workspace_target n;
  ev_source_dir : n_source_dir n' = n_source_dir n;
  ev_optional : n_optional n' = true → n_optional n = true;
  ev_dev : n_dev n' = true → n_dev n = true;
  ev_targets : ∀ d, is_Some (n_targets n !! d) → is_Some (n_targets n' !! d) }.

Record ext (g g' : graph) : Prop := mk_ext {
  ext_nodes : ∀ p n, g_nodes g !! p = Some n →
    ∃ n', g_nodes g' !! p = Some n' ∧ evolves n n';
  ext_diagnostics : g_diagnostics g `prefix_of` g_diagnostics g';
  ext_emitted : g_emitted g `prefix_of` g_emitted g' }.

Lemma evolves_refl n : evolves n n.
Proof using Type. by constructor. Qed.

Lemma evolves_trans a b c : evolves a b → evolves b c → evolves a c.
Proof using Type. intros [] []. constructor; (congruence || auto). Qed.

Lemma ext_refl g : ext g g.
Proof using Type. constructor; [|done..]. intros p n Hn. exists n. split; [done|apply evolves_refl]. Qed.

Lemma ext_trans a b c : ext a b → ext b c → ext a c.
Proof using Type.
  intros [H1 H2 H3] [H1' H2' H3']. constructor; [|by etrans..].
  intros p n Hn. destruct (H1 p n Hn) as (m & Hm & He). destruct (H1' p m Hm) as (k & Hk & He').
  exists k. split; [done|]. by eapply evolves_trans.
Qed.

Lemma ext_placed g g' p : ext g g' → is_Some (g_nodes g !! p) → is_Some (g_nodes g' !! p).
Proof using Type. intros He [n Hn]. destruct (ext_nodes _ _ He p n Hn) as (n' & -> & _). by eexists. Qed.

(** ** The invariant *)

Definition constraints_of (m : VersionMetadata) : PlatformConstraints :=
  mk_PlatformConstraints (list_to_set (vm_os m)) (list_to_set (vm_cpu m)) (list_to_set (vm_libc m)).

Definition has_sha512 (integrity : string) : Prop := ∃ d, Integrity_parse integrity = Ok d.

(** What each kind of source brings along. *)
Definition node_source_ok (n : Node) : Prop :=
  match n_source n with
  | LSRegistry registry =>
      registry ≠ "" ∧ n_link n = false ∧ n_resolved n ≠ "" ∧ has_sha512 (n_integrity n)
  | LSWorkspace relative_path =>
      n_link n = true ∧ n_workspace_target n = Some relative_path ∧
      ∃ w name iw, e_workspace env = Some w ∧ by_name w !! name = Some iw ∧
        iw_relative_path iw = relative_path
  | LSFile path => n_link n = true ∧ n_workspace_target n = Some path
  | LSTarball url => n_link n = false ∧ n_resolved n = url ∧ url ≠ "" ∧ has_sha512 (n_integrity n)
  | LSGit url _ commit =>
      n_link n = false ∧ url ≠ "" ∧ n_resolved n ≠ "" ∧ has_sha512 (n_integrity n) ∧
      pinned_commit commit
  | LSPatch _ patch =>
      n_link n = false ∧ patch ≠ "" ∧ n_resolved n ≠ "" ∧ has_sha512 (n_integrity n)
  end.

Record node_ok (g : graph) (p : string) (n : Node) : Prop := mk_node_ok {
  nk_path : n_path n = p;
  nk_slot : ∃ c, p = slot_path c (n_placement_name n);
  nk_dependencies : n_dependencies n = merged_dependencies (n_metadata n);
  nk_peer_context : n_peer_context n = ∅;
  nk_platform : supports (constraints_of (n_metadata n)) (e_target env);
  nk_source : node_source_ok n;
  nk_targets : ∀ d t, n_targets n !! d = Some t →
    is_Some (n_dependencies n !! d) ∧ is_Some (g_nodes g !! t) ∧
    ∃ c, c ∈ candidate_chain p ∧ t = slot_path c d }.

(** Every package name used as a directory is acceptable to the registry layer. *)
Definition names_ok (g : graph) : Prop :=
  ∀ p n, g_nodes g !! p = Some n → is_valid_npm_read_name (n_placement_name n) = true.

Record graph_inv (g : graph) : Prop := mk_graph_inv {
  gi_nodes : ∀ p n, g_nodes g !! p = Some n → node_ok g p n;
  gi_paths : names_ok g → ∀ p, is_Some (g_nodes g !! p) → is_normalized_relative p = true }.

(** Where a dependency may be resolved from: the root or a placed package. *)
Definition parent_ok (parent : string) (g : graph) : Prop :=
  names_ok g → parent = "" ∨ is_normalized_relative parent = true.

Lemma names_ok_ext g g' : ext g g' → names_ok g' → names_ok g.
Proof using Type.
  intros He Hn p n Hp. destruct (ext_nodes _ _ He p n Hp) as (n' & Hp' & Hev).
  rewrite <- (ev_name _ _ Hev). by eapply Hn.
Qed.

Lemma parent_ok_ext parent g g' : ext g g' → parent_ok parent g → parent_ok parent g'.
Proof using Type. intros He Hp Hn. apply Hp. by eapply names_ok_ext. Qed.

Lemma node_ok_ext g g' p n : ext g g' → node_ok g p n → node_ok g' p n.
Proof using Type.
  intros He [? ? ? ? ? ? Ht]. constructor; try done. intros d t Hd.
  destruct (Ht d t Hd) as (? & ? & ?). split_and!; try done. by eapply ext_placed.
Qed.

Lemma graph_inv_empty : graph_inv graph_empty.
Proof using Type.
  split; simpl.
  - intros p n H. by rewrite lookup_empty in H.
  - intros _ p [n H]. simpl in H. by rewrite lookup_empty in H.
Qed.

(** ** Steps of the graph *)

Abbreviation Steps := (steps graph_inv ext).

(** Changing one node along [evolves] with an acceptable result. *)
Lemma alter_step (f : Node → Node) path g :
  graph_inv g → (∀ n, evolves n (f n)) →
  (∀ n g', g_nodes g !! path = Some n → node_ok g path n → ext g g' → node_ok g' path (f n)) →
  graph_inv (with_nodes g (alter f path (g_nodes g))) ∧
  ext g (with_nodes g (alter f path (g_nodes g))).
Proof using Type.
  intros [Hn Hp] Hev Hok.
  assert (ext g (with_nodes g (alter f path (g_nodes g)))) as He.
  { constructor; [|done..]. intros p n Hpn. simpl. destruct (decide (p = path)) as [->|Hne].
    - exists (f n). rewrite lookup_alter_eq, Hpn. split; [done|apply Hev].
    - exists n. rewrite lookup_alter_ne by done. split; [done|apply evolves_refl]. }
  split; [|done]. split.
  - intros p n. simpl. destruct (decide (p = path)) as [->|Hne].
    + rewrite lookup_alter_eq. intros (n0 & Hn0 & ->)%fmap_Some. by apply Hok; [| |]; auto.
    + rewrite lookup_alter_ne by done. intros Hpn. eapply node_ok_ext; [done|]. auto.
  - intros Hnames p. simpl. rewrite lookup_alter_is_Some. intros Hsome. apply Hp; [|done].
    by eapply names_ok_ext.
Qed.

Lemma upgrade_step path optional dev P :
  (∀ g g', ext g g' → P g → P g') →
  Steps P (upgrade_reachability path optional dev) (λ g r, match r with Ok _ => P g | Err _ => False end).
Proof using Type.
  intros HP. apply steps_modify. intros g Hi Hg.
  assert (∀ n, evolves n (upgrade_node optional dev n)) as Hev.
  { intros n. constructor; simpl; try done; by intros [? _]%andb_true_iff. }
  destruct (alter_step (upgrade_node optional dev) path g Hi Hev) as [Hi' He].
  - intros n g' _ [? ? ? ? ? ? Ht] He. constructor; try done. simpl. intros d t Hd.
    destruct (Ht d t Hd) as (? & ? & ?). split_and!; try done. by eapply ext_placed.
  - split_and!; try done. by eapply HP.
Qed.

Lemma add_target_step parent child target P :
  (∀ g g', ext g g' → P g → P g') →
  Steps (λ g, P g ∧ is_Some (g_nodes g !! target) ∧
              (∃ c, c ∈ candidate_chain parent ∧ target = slot_path c child) ∧
              ∀ n, g_nodes g !! parent = Some n → is_Some (n_dependencies n !! child))
    (add_target parent child target) (λ g r, match r with Ok _ => P g | Err _ => False end).
Proof using Type.
  intros HP. apply steps_modify. intros g Hi (Hg & Ht & Hc & Hd).
  destruct (alter_step (λ n, mk_Node (n_path n) (n_placement_name n) (n_metadata n) (n_resolved n)
       (n_integrity n) (n_dependencies n) (<[child := target]> (n_targets n)) (n_optional n)
       (n_dev n) (n_peer_context n) (n_source n) (n_link n) (n_workspace_target n)
       (n_source_dir n)) parent g Hi) as [Hi' He].
  - intros n. constructor; simpl; try done. intros d Hs. by apply lookup_insert_is_Some'; right.
  - intros n g' Hn [? ? ? ? ? ? Hts] He. constructor; try done. simpl. intros d t.
    destruct (decide (d = child)) as [->|Hne].
    + rewrite lookup_insert_eq. intros [= <-]. split_and!; [by eapply Hd|by eapply ext_placed|done].
    + rewrite lookup_insert_ne by done. intros Hdt. destruct (Hts d t Hdt) as (? & ? & ?).
      split_and!; try done. by eapply ext_placed.
  - split_and!; try done. by eapply HP.
Qed.

Lemma insert_step n parent P :
  (∀ g g', ext g g' → P g → P g') →
  n_path n = slot_path parent (n_placement_name n) →
  n_dependencies n = merged_dependencies (n_metadata n) → n_peer_context n = ∅ →
  n_targets n = ∅ →
  supports (constraints_of (n_metadata n)) (e_target env) → node_source_ok n →
  Steps (λ g, P g ∧ parent_ok parent g ∧ g_nodes g !! n_path n = None) (insert_node n)
    (λ g r, match r with
            | Ok _ => P g ∧ g_nodes g !! n_path n = Some n
            | Err _ => False
            end).
Proof using Type.
  intros HP Hpath Hdeps Hpc Hts Hplat Hsrc. apply steps_modify. intros g Hi (Hg & Hpar & Hfresh).
  set (g' := with_nodes g (<[n_path n := n]> (g_nodes g))).
  assert (ext g g') as He.
  { constructor; [|done..]. intros p m Hm. exists m. subst g'. simpl.
    rewrite lookup_insert_ne by (intros Heq; rewrite Heq, Hm in Hfresh; discriminate Hfresh).
    split; [done|apply evolves_refl]. }
  destruct Hi as [Hn Hp]. split_and!; [|done|by eapply HP|by simpl; rewrite lookup_insert_eq].
  split.
  - intros p m. subst g'. simpl. destruct (decide (p = n_path n)) as [->|Hne].
    + rewrite lookup_insert_eq. intros [= <-]. constructor; try done; [by exists parent|].
      intros d t. rewrite Hts, lookup_empty. done.
    + rewrite lookup_insert_ne by done. intros Hm. eapply node_ok_ext; [done|auto].
  - intros Hnames p. subst g'. simpl. destruct (decide (p = n_path n)) as [->|Hne].
    + intros _. rewrite Hpath. apply slot_path_normalized.
      * apply Hpar. by eapply names_ok_ext.
      * eapply (Hnames (n_path n)). simpl. by rewrite lookup_insert_eq.
    + rewrite lookup_insert_ne by done. intros Hs. apply Hp; [|done]. by eapply names_ok_ext.
Qed.

(** Only the nodes matter to the invariant. *)
Lemma same_nodes_inv g g' : g_nodes g' = g_nodes g → graph_inv g → graph_inv g'.
Proof using Type.
  intros Heq [Hn Hp]. unfold names_ok in *. split.
  - intros p n. rewrite Heq. intros Hpn. destruct (Hn p n Hpn) as [? ? ? ? ? ? Ht].
    constructor; try done. intros d t. rewrite Heq. apply Ht.
  - unfold names_ok. rewrite Heq. exact Hp.
Qed.

Lemma same_nodes_ext g g' :
  g_nodes g' = g_nodes g → g_diagnostics g `prefix_of` g_diagnostics g' →
  g_emitted g `prefix_of` g_emitted g' → ext g g'.
Proof using Type.
  intros Heq ? ?. constructor; [|done..]. intros p n Hn. exists n. rewrite Heq.
  split; [done|apply evolves_refl].
Qed.

Definition not_panic (e : ResolveError) : Prop := ∀ m, e ≠ RPanic m.

(** The result of resolving [name] for a dependent at [parent]. *)
Definition found (parent name : string) (optional : bool) (g : graph)
    (r : result ResolveError (option string)) : Prop :=
  match r with
  | Ok (Some path) => is_Some (g_nodes g !! path) ∧
      ∃ c, c ∈ candidate_chain parent ∧ path = slot_path c name
  | Ok None => optional = true
  | Err e => not_panic e
  end.

Lemma found_root parent name optional g r :
  found "" name optional g r → found parent name optional g r.
Proof using Type.
  destruct r as [[path|]|e]; simpl; [|done..]. intros (Hp & c & Hc & ->). split; [done|].
  exists c. split; [|done]. apply candidate_chain_prefix in Hc as [->|[->|[r Hr]]].
  - apply candidate_chain_root.
  - apply candidate_chain_root.
  - by destruct c.
Qed.

Lemma platform_allows_cases name metadata optional g :
  (platform_allows env name metadata optional g = (g, Ok true) ∧
     supports (constraints_of metadata) (e_target env)) ∨
  (∃ message, platform_allows env name metadata optional g =
     (mk_graph (g_nodes g) (g_diagnostics g ++ [message]) (g_emitted g), Ok false)) ∨
  ∃ p v, platform_allows env name metadata optional g = (g, Err (RPlatform p v)).
Proof using Type.
  unfold platform_allows. cbv zeta. unfold check_package_platform. fold (constraints_of metadata).
  destruct (decide (mismatched_dimensions (constraints_of metadata) (e_target env) = [])) as [Hm|Hm].
  - rewrite bool_decide_eq_true_2 by done. left. split; [done|]. by apply mismatched_dimensions_nil.
  - rewrite bool_decide_eq_false_2 by done. right.
    destruct optional; [left; by eexists|right; by eexists _, _].
Qed.

Lemma platform_step name metadata optional P :
  (∀ g g', g_nodes g' = g_nodes g → P g → P g') →
  Steps P (platform_allows env name metadata optional)
    (λ g r, match r with
            | Ok true => P g ∧ supports (constraints_of metadata) (e_target env)
            | Ok false => P g ∧ optional = true
            | Err e => not_panic e
            end).
Proof using Type.
  intros HP. unfold platform_allows. cbv zeta. unfold check_package_platform.
  fold (constraints_of metadata).
  destruct (decide (mismatched_dimensions (constraints_of metadata) (e_target env) = [])) as [Hm|Hm].
  - rewrite bool_decide_eq_true_2 by done. apply mismatched_dimensions_nil in Hm.
    apply steps_ret; [apply ext_refl|done].
  - rewrite bool_decide_eq_false_2 by done. destruct optional; simpl.
    + intros g Hi Hg. simpl.
      set (g' := mk_graph _ _ _). assert (ext g g') as He.
      { apply same_nodes_ext; try done. simpl. by apply prefix_app_r. }
      split_and!; try done; [by eapply same_nodes_inv, Hi|].
      by apply (HP g).
    + apply steps_throw; [apply ext_refl|]. by intros g _ _ m.
Qed.

Lemma announce_step path P :
  (∀ g g', ext g g' → P g → P g') →
  Steps P (announce env path) (λ g r, match r with Ok _ => P g | Err e => False end).
Proof using Type.
  intros HP. unfold announce. destruct (negb (e_sink env)).
  { apply steps_ret; [apply ext_refl|done]. }
  apply steps_read. intros [node|]; [|apply steps_ret; [apply ext_refl|by intros ? ? []]].
  destruct (n_link node || is_empty (n_resolved node)) eqn:Hl.
  { apply steps_ret; [apply ext_refl|by intros ? ? []]. }
  assert (∀ u, Steps (λ g, P g ∧ g_nodes g !! path = Some node) (emit u)
            (λ g r, match r with Ok _ => P g | Err e => False end)) as Hemit.
  { intros u. apply steps_modify. intros g Hi [Hg _]. set (g' := mk_graph _ _ _).
    assert (ext g g') as He.
    { apply same_nodes_ext; try done. simpl. by apply prefix_app_r. }
    split_and!; try done; [by eapply same_nodes_inv, Hi|by eapply HP]. }
  destruct (is_empty (n_integrity node)); [apply Hemit|].
  destruct (Integrity_parse (n_integrity node)) as [d|e] eqn:Hint; [apply Hemit|].
  apply steps_throw; [apply ext_refl|]. intros g Hi [_ Hn].
  pose proof (nk_source _ _ _ (gi_nodes _ Hi _ _ Hn)) as Hs.
  apply orb_false_iff in Hl as [Hl _].
  assert (n_link node = true ∨ has_sha512 (n_integrity node)) as [?|[d Hd]]; [|congruence..].
  unfold node_source_ok in Hs. destruct (n_source node); tauto.
Qed.

(** ** The recursion *)

Definition rec_ok (rec : resolve_fn) : Prop :=
  ∀ parent name requested optional dev,
    Steps (parent_ok parent) (rec parent name requested optional dev)
      (found parent name optional).

(** While the children of [path] are resolved. *)
Definition expanding (path : string) (dependencies : gmap string string) (g : graph) : Prop :=
  parent_ok path g ∧ ∃ n, g_nodes g !! path = Some n ∧ n_dependencies n = dependencies.

Lemma expanding_ext path dependencies g g' :
  ext g g' → expanding path dependencies g → expanding path dependencies g'.
Proof using Type.
  intros He (Hp & n & Hn & Hd). split; [by eapply parent_ok_ext|].
  destruct (ext_nodes _ _ He path n Hn) as (n' & Hn' & Hev). exists n'. split; [done|].
  by rewrite (ev_dependencies _ _ Hev).
Qed.

Definition children_done (path : string) (dependencies : gmap string string) (g : graph)
    (r : result ResolveError ()) : Prop :=
  match r with Ok _ => expanding path dependencies g | Err e => not_panic e end.

(** Recording the edge to a child that was found. *)
Lemma record_step path dependencies child spec optional target :
  dependencies !! child = Some spec →
  Steps (λ g, found path child optional g (Ok target) ∧ expanding path dependencies g)
    (record_target path child target)
    (λ g r, match r with Ok _ => True | Err e => not_panic e end).
Proof using Type.
  intros Hc. destruct target as [target|]; simpl; [|by apply steps_ret; [apply ext_refl|]].
  eapply steps_weaken; [apply (add_target_step path child target (λ _, True)); done| |].
  - intros g Hi ((Ht & Hslot) & _ & n & Hn & Hd). split_and!; try done.
    intros n' Hn'. rewrite Hn in Hn'. injection Hn' as <-. by rewrite Hd, Hc.
  - intros g [[]|e] _ H; done.
Qed.

Lemma each_child path dependencies (f : string * string → M graph ResolveError ()) :
  (∀ kv, dependencies !! kv.1 = Some kv.2 →
     Steps (expanding path dependencies) (f kv)
       (λ g r, match r with Ok _ => True | Err e => not_panic e end)) →
  Steps (expanding path dependencies) (each_m f (bt_list dependencies))
    (children_done path dependencies).
Proof using Type.
  intros Hf. eapply steps_weaken.
  - apply (steps_each graph_inv ext ext_refl ext_trans (expanding path dependencies) f _
             (λ g r, match r with Ok _ => True | Err e => not_panic e end)).
    + intros. by eapply expanding_ext.
    + intros [child spec] Hin%elem_of_bt_list. eapply steps_weaken; [by apply Hf|done|].
      by intros g [] _ H.
  - done.
  - by intros g [] _ H.
Qed.

Lemma resolve_children_step rec path dependencies optional dev :
  rec_ok rec →
  Steps (expanding path dependencies) (resolve_children rec path dependencies optional dev)
    (children_done path dependencies).
Proof using Type.
  intros Hrec. apply each_child.
  intros [child spec] Hin. apply steps_read. intros child_optional. simpl.
  eapply (steps_bind _ _ ext_trans).
  - eapply steps_weaken.
    + apply (steps_frame graph_inv ext (parent_ok path) (expanding path dependencies)
               (rec path child spec child_optional dev)); [intros; by eapply expanding_ext|].
      apply Hrec.
    + intros g _ [[? ?] _]. by split; [|split].
    + intros g r _ H. exact H.
  - intros target. eapply steps_weaken; [by eapply (record_step _ _ _ _ child_optional)| |].
    + intros g _ H. exact H.
    + by intros g [[]|e] _ H.
  - by intros g e _ [? _].
Qed.

Lemma resolve_children_hoisted_step rec path dependencies optional dev :
  rec_ok rec →
  Steps (expanding path dependencies) (resolve_children_hoisted rec path dependencies optional dev)
    (children_done path dependencies).
Proof using Type.
  intros Hrec. apply each_child.
  intros [child spec] Hin. apply steps_read. intros child_optional. simpl.
  assert (∀ parent, parent = "" ∨ parent = path →
    Steps (expanding path dependencies) (rec parent child spec child_optional dev)
      (λ g r, found path child child_optional g r ∧ expanding path dependencies g)) as Hcall.
  { intros parent Hparent. eapply steps_weaken.
    - apply (steps_frame graph_inv ext (parent_ok parent) (expanding path dependencies)
               (rec parent child spec child_optional dev)); [intros; by eapply expanding_ext|].
      apply Hrec.
    - intros g _ Hx. split; [|done]. destruct Hparent as [-> | ->]; [intros _; by left|apply Hx].
    - intros g r _ [Hf Hx]. split; [|done]. destruct Hparent as [Hp|Hp]; subst; [by apply found_root|done]. }
  eapply (steps_bind _ _ ext_trans _ _ _
            (λ g r, found path child child_optional g r ∧ expanding path dependencies g)).
  - eapply (steps_catch _ _ ext_trans _ (expanding path dependencies)).
    + eapply steps_weaken; [apply Hcall; by left|by intros g _ [? _]|].
      intros g [t|e] _ [Hf Hx]; [done|]. by destruct (is_placement_conflict e).
    + apply Hcall. by right.
  - intros target. eapply steps_weaken; [by eapply (record_step _ _ _ _ child_optional)| |].
    + intros g _ H. exact H.
    + by intros g [[]|e] _ H.
  - by intros g e _ [? _].
Qed.

(** ** The three ways to place a dependency *)

Lemma workspace_link_inv w name spec edge :
  WorkspaceIndex_resolve w name spec = Ok (WLink edge) →
  ∃ iw text, by_name w !! name = Some iw ∧ edge = link_edge iw text.
Proof using Type.
  unfold WorkspaceIndex_resolve. destruct (WorkspaceSpec_parse spec) as [ws|].
  - unfold resolve_explicit. intros (iw & Hiw & H)%bind_Ok. apply ok_or_Ok in Hiw.
    apply bind_Ok in H as (text & _ & H). injection H as <-. by eexists _, _.
  - destruct (by_name w !! name) as [iw|]; [|done].
    destruct (VersionRange_parse spec) as [r|]; [|done].
    destruct (range_matches r _); [|done]. intros [= <-]. by eexists _, _.
Qed.

Lemma workspace_metadata_total name v m :
  is_Some (workspace_metadata name (version_to_string v) m).
Proof using L.
  unfold workspace_metadata, version_of. rewrite version_parse_display. by eexists.
Qed.

Lemma contains_key_false {A} p (m : gmap string A) : contains_key p m = false → m !! p = None.
Proof using Type. unfold contains_key. rewrite bool_decide_eq_false, <- eq_None_not_Some. done. Qed.

Lemma contains_key_true {A} p (m : gmap string A) : contains_key p m = true → is_Some (m !! p).
Proof using Type. unfold contains_key. by rewrite bool_decide_eq_true. Qed.

(** Reusing a placed package. *)
Lemma reuse_step parent name path optional dev P :
  (∀ g, P g → is_Some (g_nodes g !! path) ∧ ∃ c, c ∈ candidate_chain parent ∧ path = slot_path c name) →
  Steps P (_ ← upgrade_reachability path optional dev; mret (Some path)) (found parent name optional).
Proof using Type.
  intros HP.
  eapply (steps_bind _ _ ext_trans).
  - eapply steps_weaken.
    + apply (upgrade_step path optional dev (λ g, is_Some (g_nodes g !! path) ∧
               ∃ c, c ∈ candidate_chain parent ∧ path = slot_path c name)).
      intros g g' He [? ?]. split; [by eapply ext_placed|done].
    + intros g _ Hg. by apply HP.
    + intros g r _ H. exact H.
  - intros []. apply steps_ret; [apply ext_refl|]. intros g _ H. exact H.
  - by intros g e _ [].
Qed.

(** Placing a node and resolving its children with [children]. *)
Lemma place_step parent n path optional (announcing : bool)
    (children : M graph ResolveError ()) P :
  n_path n = path → n_path n = slot_path parent (n_placement_name n) →
  n_dependencies n = merged_dependencies (n_metadata n) →
  n_peer_context n = ∅ → n_targets n = ∅ →
  supports (constraints_of (n_metadata n)) (e_target env) → node_source_ok n →
  (∀ g, P g → parent_ok parent g ∧ g_nodes g !! path = None) →
  Steps (expanding path (n_dependencies n)) children (children_done path (n_dependencies n)) →
  Steps P
    (_ ← insert_node n;
     _ ← (if announcing then announce env path else mret ());
     _ ← children; mret (Some path))
    (found parent (n_placement_name n) optional).
Proof using Type.
  intros <- Hslot Hd Hpc Ht Hplat Hsrc HP Hch.
  assert (∀ g, graph_inv g → g_nodes g !! n_path n = Some n →
            expanding (n_path n) (n_dependencies n) g) as Hexp.
  { intros g Hi Hn. split; [|by eexists]. intros Hnames. right. apply (gi_paths _ Hi Hnames).
    by eexists. }
  eapply (steps_bind _ _ ext_trans).
  - eapply steps_weaken.
    + by apply (insert_step n parent (λ _, True)).
    + intros g _ Hg. destruct (HP g Hg). done.
    + intros g r _ H. exact H.
  - intros []. eapply (steps_bind _ _ ext_trans _ _ _
      (λ g r, match r with Ok _ => expanding (n_path n) (n_dependencies n) g | Err _ => False end)).
    + eapply steps_weaken with (P := expanding (n_path n) (n_dependencies n)).
      * destruct announcing.
        -- apply announce_step. intros. by eapply expanding_ext.
        -- by apply steps_ret; [apply ext_refl|].
      * intros g Hi [_ Hn]. by apply Hexp.
      * by intros g [] _ H.
    + intros []. eapply (steps_bind _ _ ext_trans).
      * apply Hch.
      * intros []. apply steps_ret; [apply ext_refl|]. intros g _ (_ & m & Hm & _). simpl.
        split; [by eexists|]. exists parent. split; [apply candidate_chain_self|done].
      * by intros g e _ H.
    + by intros g e _ [].
  - by intros g e _ [].
Qed.

(** After the platform check: place the node, or skip it. *)
Lemma allowed_step parent n path optional announcing children P name :
  n_path n = path → n_path n = slot_path parent (n_placement_name n) →
  n_placement_name n = name →
  n_dependencies n = merged_dependencies (n_metadata n) →
  n_peer_context n = ∅ → n_targets n = ∅ → node_source_ok n →
  (∀ g g', g_nodes g' = g_nodes g → P g → P g') →
  (∀ g, P g → parent_ok parent g ∧ g_nodes g !! path = None) →
  Steps (expanding path (n_dependencies n)) children (children_done path (n_dependencies n)) →
  Steps P
    (allowed ← platform_allows env name (n_metadata n) optional;
     if negb allowed then mret None
     else _ ← insert_node n;
          _ ← (if announcing : bool then announce env path else mret ());
          _ ← children; mret (Some path))
    (found parent name optional).
Proof using Type.
  intros Hpath Hslot <- Hd Hpc Ht Hsrc HP HP' Hch.
  eapply (steps_bind _ _ ext_trans); [by apply (platform_step _ _ _ P)| |done].
  intros []; simpl.
  - intros s Hi [Hs Hsup]. by apply (place_step parent n path optional announcing children P).
  - apply steps_ret; [apply ext_refl|]. by intros g _ [_ ?].
Qed.

Lemma place_workspace_step rec w parent name edge spec optional dev :
  rec_ok rec → e_workspace env = Some w → WorkspaceIndex_resolve w name spec = Ok (WLink edge) →
  Steps (λ _, True) (place_workspace env rec w name edge optional dev) (found parent name optional).
Proof using L Henv.
  intros Hrec Hw Hlink. apply workspace_link_inv in Hlink as (iw & text & Hiw & ->).
  eapply steps_weaken with (P := λ _, True) (Q := found "" name optional); [|done|].
  2:{ intros g r _. apply found_root. }
  unfold place_workspace. cbn [id_source de_target link_edge id_version].
  apply steps_read. intros [].
  - apply reuse_step. intros g [_ Hp%contains_key_true]. split; [done|].
    exists "". split; [apply candidate_chain_root|done].
  - destruct (workspace_metadata_total name (iw_version iw) (workspace_manifest w name)) as [md ->].
    apply (allowed_step "" (fresh_node (slot_path "" name) name md "" "" optional dev
             (LSWorkspace (iw_relative_path iw)) true (Some (iw_relative_path iw))
             (workspace_manifest w name ≫= mf_source_dir)) (slot_path "" name) optional false);
      try done.
    + simpl. split_and!; try done. by exists w, name, iw.
    + intros g g' Heq [_ H]. by rewrite Heq.
    + intros g [_ Hp%contains_key_false]. split; [|done]. intros _. by left.
    + by apply resolve_children_hoisted_step.
Qed.

(** The node a resolved source becomes. *)
Definition source_node (path name : string) (r : SourceResolution) (optional dev : bool) : Node :=
  fresh_node path name (sres_metadata r) (sres_resolved r) (default "" (sres_integrity r))
    optional dev (sres_source r) (sres_link r) (sres_workspace_target r) (sres_source_dir r).

Lemma archived_node path name r optional dev :
  archived (e_io env) r →
  sres_link r = false ∧ sres_resolved r ≠ "" ∧
  has_sha512 (n_integrity (source_node path name r optional dev)).
Proof using CL Henv.
  intros Ha. pose proof Ha as (Hl & _ & Hne & _). split_and!; try done. simpl.
  apply archived_sha512 in Ha as (i & d & -> & Hd); [by exists d|done|apply (el_sha512 _ Henv)].
Qed.

Lemma source_node_ok path name optional dev spec source base_dir r :
  DependencySource_parse spec = Some source →
  DependencySource_resolve (e_io env) source base_dir = Ok r →
  node_source_ok (source_node path name r optional dev).
Proof using CL Henv.
  intros Hp Hr. pose proof (DependencySource_resolve_ok _ _ _ _ _ Hp Hr) as Hok.
  pose proof (archived_node path name r optional dev) as Ha.
  unfold resolution_ok in Hok. unfold node_source_ok. cbn [n_source source_node fresh_node] in *.
  destruct (sres_source r) as [| | |url|url reference commit|] eqn:Hs; try done; simpl in *.
  - tauto.
  - destruct Hok as [Hok Hu]. destruct (Ha Hok) as (? & ? & ?). split_and!; congruence || done.
  - destruct Hok as (Hok & Hpin & Hsplit & _). destruct (Ha Hok) as (? & ? & ?).
    split_and!; try done.
    destruct source as [p|u|u re|? ?]; simpl in Hr.
    + unfold resolve_file_source, resolve_tarball_file in Hr.
      apply bind_Ok in Hr as (a & _ & Hr). destruct (io_is_dir _ a).
      * apply bind_Ok in Hr as (m & _ & Hr). cbv zeta in Hr. apply bind_Ok in Hr as (? & _ & Hr).
        by injection Hr as <-.
      * apply bind_Ok in Hr as (c & Hc & Hr). apply read_file_bounded_bound in Hc.
        apply source_from_tarball_bytes_spec in Hr as (_ & Hs' & _); [congruence|done..].
    + apply bind_Ok in Hr as (c & Hc & Hr). apply read_source_bytes_bound in Hc.
      apply DependencySource_parse_shape in Hp.
      apply source_from_tarball_bytes_spec in Hr as (_ & Hs' & _); [congruence|done..].
    + apply DependencySource_parse_shape in Hp. rewrite Hp in Hsplit. injection Hsplit as <- <-.
      eapply resolve_git_source_url; [apply (el_git_empty _ Henv)|done].
    + done.
Qed.

Lemma patch_node_ok path name inner patch r optional dev :
  resolve_patch_dependency env name inner patch = Ok r →
  node_source_ok (source_node path name r optional dev).
Proof using CL Henv.
  unfold resolve_patch_dependency. cbv zeta. intros H.
  apply bind_Ok in H as (text & Htext & H). apply map_err_Ok in Htext.
  apply bind_Ok in H as ([inner_r content] & _ & H). destruct (sres_link inner_r); [done|].
  apply bind_Ok in H as (patched & _ & H). apply bind_Ok in H as (url & Hurl & H).
  apply map_err_Ok, (el_written _ Henv) in Hurl.
  apply bind_Ok in H as (res & Hres & H). apply map_err_Ok in Hres. injection H as <-.
  unfold source_from_tarball_bytes in Hres. apply bind_Ok in Hres as (m & _ & Hres).
  apply bind_Ok in Hres as (n & _ & Hres). apply bind_Ok in Hres as (v & _ & Hres).
  apply bind_Ok in Hres as (md & _ & Hres). injection Hres as <-.
  unfold node_source_ok. simpl. split_and!; try done.
  - intros Heq. pose proof (el_read_empty _ Henv) as He. rewrite <- Heq, Htext in He. done.
  - eexists. apply (Integrity_parse_canonical (mk_digest (io_sha512 (e_io env) patched))).
    apply (el_sha512 _ Henv).
Qed.

Lemma map_err_RSource {E A} name spec (f : E → PatchError) (r : result E A) e :
  map_err (λ x, RSource name spec (f x)) r = Err e → not_panic e.
Proof using Type. destruct r; [done|]. by intros [= <-] m. Qed.

Lemma resolve_patch_inner_error name inner e :
  resolve_patch_inner env name inner = Err e → not_panic e.
Proof using Type.
  unfold resolve_patch_inner. cbv zeta.
  assert (∀ A s x (e' : ResolveError), (Err (RSource name s x) : result ResolveError A) = Err e' →
            not_panic e') as Hf by by intros A s x e' [= <-] m.
  destruct (DependencySource_parse inner) as [[p|u|u r|i pa]|].
  1-3: intros [H%map_err_RSource|(res & _ & H)]%bind_Err; [done|];
    destruct (negb _); [by eapply Hf, H|];
    apply bind_Err in H as [H%map_err_RSource|(c & _ & H)]; done.
  - by apply Hf.
  - destruct (registry_request _ _) as [rn rs]. intros [H|([rn' ps] & _ & H)]%bind_Err.
    { destruct (parse_spec _) as [ps|]; [destruct (bool_decide _); [done|]|];
        apply bind_Err in H as [H%map_err_RSource|(c & _ & H)]; done. }
    apply bind_Err in H as [H%map_err_RSource|(pk & _ & H)]; [done|].
    apply bind_Err in H as [H%map_err_RSource|(a & _ & H)]; [done|].
    destruct (negb _); [by eapply Hf, H|].
    apply bind_Err in H as [H%map_err_RSource|(c & _ & H)]; done.
Qed.

Lemma resolve_patch_dependency_error name inner patch e :
  resolve_patch_dependency env name inner patch = Err e → not_panic e.
Proof using Type.
  unfold resolve_patch_dependency. cbv zeta.
  intros [H%map_err_RSource|(text & _ & H)]%bind_Err; [done|].
  apply bind_Err in H as [H%resolve_patch_inner_error|([r c] & _ & H)]; [done|].
  destruct (sres_link r); [by injection H as <-; intros m|].
  apply bind_Err in H as [H%map_err_RSource|(a & _ & H)]; [done|].
  apply bind_Err in H as [H%map_err_RSource|(b & _ & H)]; [done|].
  apply bind_Err in H as [H%map_err_RSource|(d & _ & H)]; done.
Qed.

Lemma place_source_step rec parent name spec source optional dev :
  rec_ok rec → DependencySource_parse spec = Some source →
  Steps (parent_ok parent) (resolve_source_dependency env rec parent name spec source optional dev)
    (found parent name optional).
Proof using CL Henv.
  intros Hrec Hp. unfold resolve_source_dependency. cbv zeta. apply steps_read. intros [].
  - apply reuse_step. intros g [_ Hk%contains_key_true]. split; [done|].
    exists parent. split; [apply candidate_chain_self|done].
  - apply steps_read. intros base_dir.
    destruct (match source with
              | DSPatch inner patch => _
              | _ => _ end) as [r|e] eqn:Hr.
    + assert (node_source_ok (source_node (slot_path parent name) name r optional dev)) as Hsrc.
      { destruct source; try (eapply source_node_ok; [done|by apply map_err_Ok in Hr]).
        by eapply patch_node_ok. }
      apply (allowed_step parent (source_node (slot_path parent name) name r optional dev)
               (slot_path parent name) optional true); try done.
      * intros g g' Heq [[H1 H2] H3]. unfold parent_ok, names_ok, base_dir_for in *.
        by rewrite Heq.
      * intros g [[Hpar Hk%contains_key_false] _]. done.
      * by apply resolve_children_step.
    + apply steps_throw; [apply ext_refl|]. intros g _ _. simpl.
      destruct source; try (by eapply map_err_RSource in Hr).
      by apply resolve_patch_dependency_error in Hr.
Qed.

Lemma find_visible_Some g parent name spec path :
  find_visible g parent name spec = Some path →
  (∃ n, g_nodes g !! path = Some n ∧ request_matches spec (vm_version (n_metadata n)) = true) ∧
  ∃ c, c ∈ candidate_chain parent ∧ path = slot_path c name.
Proof using Type.
  unfold find_visible. intros ([i x] & Hf & Hx)%fmap_Some. simpl in Hx. subst x.
  apply list_find_Some in Hf as (Hi & Hm & _). split.
  - unfold node_matches in Hm. destruct (g_nodes g !! path) as [n|]; [|done]. by exists n.
  - apply list_elem_of_lookup_2, list_elem_of_fmap in Hi as (c & -> & Hc). by exists c.
Qed.

Lemma resolved_artifact_ok spec packument registry a :
  resolve_packument spec packument registry = Ok a →
  ra_tarball_url a ≠ "" ∧ has_sha512 (ra_integrity a).
Proof using Type.
  intros (_ & m & _ & _ & _ & _ & Hd & Hurl & Hne)%resolve_packument_inv. split; [|done].
  unfold resolve_tarball_url in Hurl. destruct (url_scheme _) as [scheme|].
  - destruct (_ || _); [|done]. by injection Hurl as <-.
  - injection Hurl as <-. by intros [_ ?]%app_eq_nil_s.
Qed.

Lemma backtrack_inv g rn base parent packument versions resolved a :
  backtrack g rn base parent packument versions resolved = Ok a →
  a = resolved ∨ ∃ v, resolve_packument (mk_PackageSpec rn (Exact v)) packument base = Ok a.
Proof using Type.
  induction versions as [|v versions IH]; simpl; [intros [= <-]; by left|].
  intros (c & Hc & H)%bind_Ok. destruct (peer_candidate_matches _ _ _); [|by apply IH].
  injection H as <-. right. by exists v.
Qed.

Lemma select_artifact_inv g parent name spec a base :
  select_artifact env g parent name spec = Ok (a, base) →
  base = e_registry_for_package env (registry_request name spec).1 ∧
  ∃ ps packument, resolve_packument ps packument base = Ok a.
Proof using Type.
  unfold select_artifact. destruct (registry_request name spec) as [rn rs]. cbv zeta. simpl.
  intros (parsed & _ & H)%bind_Ok. apply bind_Ok in H as (packument & _ & H).
  apply bind_Ok in H as (resolved & Hr & H). apply map_err_Ok in Hr.
  destruct (peer_candidate_matches _ _ _).
  - injection H as <- <-. split; [done|]. by eexists _, _.
  - apply bind_Ok in H as (c & Hc & H). injection H as <- <-. split; [done|].
    apply map_err_Ok, backtrack_inv in Hc as [->|[v Hv]]; by eexists _, _.
Qed.

Lemma select_artifact_error g parent name spec e :
  select_artifact env g parent name spec = Err e → ∃ x, e = RRegistry name spec x.
Proof using Type.
  assert (∀ A (r : result RegistryError A) e', map_err (RRegistry name spec) r = Err e' →
            ∃ x, e' = RRegistry name spec x) as Hw.
  { intros A [a|x] e'; [done|]. intros [= <-]. by exists x. }
  unfold select_artifact. destruct (registry_request name spec) as [rn rs]. cbv zeta.
  intros [H%Hw|(parsed & _ & H)]%bind_Err; [done|].
  apply bind_Err in H as [H%Hw|(packument & _ & H)]; [done|].
  apply bind_Err in H as [H%Hw|(resolved & _ & H)]; [done|].
  destruct (peer_candidate_matches _ _ _); [done|].
  apply bind_Err in H as [H%Hw|(c & _ & H)]; done.
Qed.

Lemma place_registry_step rec parent name spec optional dev :
  rec_ok rec →
  Steps (parent_ok parent) (place_registry env rec parent name spec optional dev)
    (found parent name optional).
Proof using Henv.
  intros Hrec. unfold place_registry. cbv zeta. apply steps_read. intros [path|].
  - apply reuse_step. intros g [_ ((n & Hn & _) & Hslot)%find_visible_Some]. by split; [eexists|].
  - apply steps_read. intros [selected|].
    + destruct (request_matches _ _).
      * apply steps_ret; [apply ext_refl|]. intros g _ [_ Hs]. split; [by eexists|].
        exists parent. split; [apply candidate_chain_self|done].
      * apply steps_throw; [apply ext_refl|]. by intros g _ _ m.
    + apply steps_read. intros [[a base]|e].
      2:{ apply steps_throw; [apply ext_refl|].
          intros g _ [_ He]. by apply select_artifact_error in He as [x ->]. }
      intros s Hi Hs. pose proof (proj2 Hs) as Ha. apply select_artifact_inv in Ha as (-> & ps & pk & Ha).
      apply resolved_artifact_ok in Ha as [Hurl Hsha].
      apply (allowed_step parent (fresh_node (slot_path parent name) name (ra_metadata a)
               (ra_tarball_url a) (ra_integrity a) optional dev
               (LSRegistry (e_registry_for_package env (registry_request name spec).1))
               false None None) (slot_path parent name) optional true
               (resolve_children rec (slot_path parent name) (merged_dependencies (ra_metadata a))
                  optional dev)
               (λ g, parent_ok parent g ∧ g_nodes g !! slot_path parent name = None)); try done.
      * simpl. split_and!; try done. apply (el_registry _ Henv).
      * intros g g' Heq [H1 H2]. unfold parent_ok, names_ok in *. by rewrite Heq.
      * by apply resolve_children_step.
      * by destruct Hs as [[[? _] ?] _].
Qed.

Lemma resolve_step_ok rec : rec_ok rec → rec_ok (resolve_step env rec).
Proof using L CL Henv.
  intros Hrec parent name requested optional dev. unfold resolve_step. apply steps_read.
  intros spec. cbv zeta.
  assert (Steps (parent_ok parent)
            match DependencySource_parse spec with
            | Some source => resolve_source_dependency env rec parent name spec source optional dev
            | None => place_registry env rec parent name spec optional dev
            end (found parent name optional)) as Helse.
  { destruct (DependencySource_parse spec) eqn:Hp;
      [by apply place_source_step|by apply place_registry_step]. }
  eapply steps_weaken with (P := parent_ok parent); [|by intros g _ [? _]|done].
  destruct (e_workspace env) as [w|] eqn:Hw; [|done].
  destruct (WorkspaceIndex_resolve w name spec) as [[edge|s']|e] eqn:Hl; [|done|].
  - eapply steps_weaken; [by eapply place_workspace_step|done..].
  - apply steps_throw; [apply ext_refl|]. by intros g _ _ m.
Qed.

Lemma resolve_dependency_steps fuel : rec_ok (resolve_dependency env fuel).
Proof using L CL Henv.
  induction fuel as [|fuel IH]; simpl.
  - intros parent name requested optional dev. apply steps_throw; [apply ext_refl|].
    by intros g _ _ m.
  - by apply resolve_step_ok.
Qed.

(** ** Properties *)

(** C2.  Placement is safe and monotone, whatever the registry, the file system or
    Git answer and whether the call succeeds or fails half-way: every node stays
    at the path made of a lookup directory and its name, supports the target
    platform, has the integrity, link and commit data its source needs, and has
    edges only for its declared dependencies, to packages that are placed in a
    directory on its own lookup chain; nothing placed is removed or replaced,
    flags only drop and edges are only added.  A success returns a placed path
    on the dependent's lookup chain, nothing is skipped unless it was optional,
    and none of the resolver's own panics is reached. *)
Theorem resolve_dependency_sound fuel parent name requested optional dev g g' r :
  graph_inv g → parent_ok parent g →
  resolve_dependency env fuel parent name requested optional dev g = (g', r) →
  graph_inv g' ∧ ext g g' ∧ found parent name optional g' r.
Proof using L CL Henv.
  intros Hi Hp Hr.
  pose proof (resolve_dependency_steps fuel parent name requested optional dev g Hi Hp) as H.
  by rewrite Hr in H.
Qed.
End invariant.
