(* ===== verification/PlacementRuns.v ===== *)
(** * Concrete resolutions

    A small registry on which the placement core runs: the witnesses of the
    placement theorems, and runs that show where the code departs from what it
    promises. *)

From S2P Require Export PlacementInv.
From Stdlib Require Import Ascii.

Module SampleRegistry.
Export Sample SampleIo.

Definition package (name : string) (v : N) (deps peers : gmap string string) (os : list string)
    : VersionMetadata :=
  mk_VersionMetadata name (version v 0 0) None deps ∅ peers ∅ ∅
    (mk_Dist ("/" +:+ name +:+ "/-/" +:+ name +:+ ".tgz") (to_npm_string sample_digest) None)
    ∅ os [] [] false false.

Definition published_as (name : string) (packages : list VersionMetadata) : Packument :=
  mk_Packument name
    (match last packages with
     | Some m => {[ "latest" := version_to_string (vm_version m) ]}
     | None => ∅
     end)
    (list_to_map ((λ m, (version_to_string (vm_version m), m)) <$> packages)).

Definition env_of (registry : string → list VersionMetadata) : resolver_env :=
  mk_resolver_env
    (λ spec, match registry (ps_name spec) with
             | [] => Err (NoVersions (ps_name spec))
             | packages => Ok (published_as (ps_name spec) packages)
             end)
    (λ _, "https://registry.example") (mk_OverrideSet [] ∅) None None
    (mk_TargetPlatform "linux" "x64" (Some "glibc")) true io true
    (λ _, Err "no patches") (λ _ _, Err "no patches") (λ _ _, Err "no patches").
End SampleRegistry.

Section runs.
Import SampleRegistry.

(** Root requests, in order. *)
Definition run (registry : string → list VersionMetadata)
    (requests : list (string * string * bool * bool)) : graph * result ResolveError () :=
  each_m (λ '(name, spec, optional, dev),
    _ ← resolve_dependency (env_of registry) 10 "" name spec optional dev; mret ())
    requests graph_empty.

Definition target_of (g : graph) (path child : string) : option string :=
  g_nodes g !! path ≫= λ n, n_targets n !! child.
Definition version_at (g : graph) (path : string) : option string :=
  (λ n, version_to_string (vm_version (n_metadata n))) <$> g_nodes g !! path.

Definition shadow_registry (name : string) : list VersionMetadata :=
  if bool_decide (name = "a") then [package "a" 1 ∅ ∅ []; package "a" 2 ∅ ∅ []]
  else if bool_decide (name = "b") then [package "b" 1 {["a" := "1.0.0"; "c" := "*"]} ∅ []]
  else if bool_decide (name = "c") then [package "c" 1 {["a" := "^2.0.0"]} ∅ []]
  else [].
Definition shadow_run : graph * result ResolveError () :=
  run shadow_registry [("a", "^2.0.0", false, false); ("b", "*", false, false)].

Definition node_flag (f : Node → bool) (g : graph) (path : string) : option bool :=
  f <$> g_nodes g !! path.

(** An edge that Node does not follow: [c] below [b] asks for [a ^2.0.0]; the search
    skips [b]'s own [a 1.0.0], which does not match, and records the root's
    [a 2.0.0], but from [c] the nearest [a] is the one below [b]. *)
Lemma shadowed_edge :
  is_ok shadow_run.2 = true ∧
  target_of shadow_run.1 "node_modules/b/node_modules/c" "a" = Some "node_modules/a" ∧
  version_at shadow_run.1 "node_modules/a" = Some "2.0.0" ∧
  find_visible_any shadow_run.1 "node_modules/b/node_modules/c" "a"
    = Some "node_modules/b/node_modules/a" ∧
  version_at shadow_run.1 "node_modules/b/node_modules/a" = Some "1.0.0".
Proof. vm_compute. done. Qed.

Definition dev_registry (name : string) : list VersionMetadata :=
  if bool_decide (name = "d") then [package "d" 1 {["e" := "*"]} ∅ []]
  else if bool_decide (name = "e") then [package "e" 1 ∅ ∅ []]
  else if bool_decide (name = "p") then [package "p" 1 {["d" := "*"]} ∅ []]
  else [].
Definition dev_run : graph * result ResolveError () :=
  run dev_registry [("d", "*", false, true); ("p", "*", false, false)].

(** The development flag is dropped from the package a production edge reaches, but
    not from what that package needs: [d] is shared with the production
    dependency [p], yet its dependency [e] stays marked as development only. *)
Lemma dev_flag_not_propagated :
  is_ok dev_run.2 = true ∧
  target_of dev_run.1 "node_modules/p" "d" = Some "node_modules/d" ∧
  target_of dev_run.1 "node_modules/d" "e" = Some "node_modules/d/node_modules/e" ∧
  node_flag n_dev dev_run.1 "node_modules/p" = Some false ∧
  node_flag n_dev dev_run.1 "node_modules/d" = Some false ∧
  node_flag n_dev dev_run.1 "node_modules/d/node_modules/e" = Some true.
Proof. vm_compute. done. Qed.

Definition platform_registry (name : string) : list VersionMetadata :=
  if bool_decide (name = "o") then [package "o" 1 {["w" := "*"]} ∅ []]
  else if bool_decide (name = "p") then [package "p" 1 {["o" := "*"]} ∅ []]
  else if bool_decide (name = "w") then [package "w" 1 ∅ ∅ ["win32"]]
  else [].
Definition platform_run : graph * result ResolveError () :=
  run platform_registry [("o", "*", true, false); ("p", "*", false, false)].

(** A package first reached as optional skips its unsupported dependency; when a
    required edge reaches it later it becomes required without it, although
    resolving the required edge alone is a platform error. *)
Lemma required_after_optional_skip :
  is_ok platform_run.2 = true ∧
  node_flag n_optional platform_run.1 "node_modules/o" = Some false ∧
  target_of platform_run.1 "node_modules/o" "w" = None ∧
  is_ok (run platform_registry [("p", "*", false, false)]).2 = false.
Proof. vm_compute. done. Qed.

Definition peer_registry (name : string) : list VersionMetadata :=
  if bool_decide (name = "plugin")
  then [package "plugin" 1 ∅ ∅ []; package "plugin" 2 ∅ {["react" := "^1.0.0"]} []]
  else if bool_decide (name = "react") then [package "react" 3 ∅ ∅ []]
  else [].
Definition peer_run : graph * result ResolveError () :=
  run peer_registry [("react", "*", false, false); ("plugin", "^2.0.0", false, false)].

(** Backtracking for a peer leaves the requested range: [plugin ^2.0.0] is placed at
    [1.0.0]. *)
Lemma peer_backtrack_leaves_range :
  is_ok peer_run.2 = true ∧
  version_at peer_run.1 "node_modules/plugin" = Some "1.0.0" ∧
  request_matches "^2.0.0" (version 1 0 0) = false.
Proof. vm_compute. done. Qed.

Lemma env_of_laws registry : env_laws (env_of registry).
Proof. by split. Qed.

Lemma resolve_dependency_sound_witness :
  let g := (resolve_dependency (env_of shadow_registry) 10 "" "b" "*" false false graph_empty).1 in
  graph_inv (env_of shadow_registry) g ∧
  target_of g "node_modules/b" "a" = Some "node_modules/b/node_modules/a".
Proof.
  destruct (resolve_dependency (env_of shadow_registry) 10 "" "b" "*" false false graph_empty)
    as [g r] eqn:Hr.
  split.
  - apply (resolve_dependency_sound (env_of shadow_registry) (env_of_laws _) 10 "" "b" "*" false
             false graph_empty g r).
    + apply graph_inv_empty.
    + intros _. left. reflexivity.
    + exact Hr.
  - replace g with (resolve_dependency (env_of shadow_registry) 10 "" "b" "*" false false
                      graph_empty).1 by (rewrite Hr; reflexivity).
    vm_compute. reflexivity.
Defined.
End runs.

(** ** Source cycles *)

Section cycle.
Import SampleRegistry.

(** Two directories that depend on each other through [file:] specs. *)
Definition cycle_io : source_io := mk_source_io
  (λ p, Ok p) (λ p, bool_decide (p = "/work/a") || bool_decide (p = "/work/b"))
  (λ p, if bool_decide (p = "/work/a/package.json")
        then Ok (manifest "a" "1.0.0" {["b" := "file:/work/b"]})
        else if bool_decide (p = "/work/b/package.json")
        then Ok (manifest "b" "1.0.0" {["a" := "file:/work/a"]})
        else Err "not found")
  (λ _, None) (λ _, Err "not found") (λ _, Err "offline") (λ _, digest_bytes sample_digest)
  (λ _, Err "not an archive") (λ _ _, Err "no git") (λ _ _ _, Err "no git") (λ _ _ _, Err "no git").

Definition cycle_env : resolver_env :=
  mk_resolver_env (λ spec, Err (NoVersions (ps_name spec))) (λ _, "https://registry.example")
    (mk_OverrideSet [] ∅) None None (mk_TargetPlatform "linux" "x64" None) true cycle_io true
    (λ _, Err "no patches") (λ _ _, Err "no patches") (λ _ _, Err "no patches").

Definition cycle_spec (name : string) : string := "file:/work/" +:+ name.

Definition cycle_resolution (me other : string) : SourceResolution :=
  mk_SourceResolution
    (mk_VersionMetadata me (version 1 0 0) None {[other := cycle_spec other]} ∅ ∅ ∅ ∅ Dist_default
       ∅ [] [] [] false false)
    "" None (LSFile ("/work/" +:+ me)) true (Some ("/work/" +:+ me)) (Some ("/work/" +:+ me)).

Lemma cycle_resolve base_dir :
  DependencySource_resolve cycle_io (DSFile "/work/a") base_dir = Ok (cycle_resolution "a" "b") ∧
  DependencySource_resolve cycle_io (DSFile "/work/b") base_dir = Ok (cycle_resolution "b" "a").
Proof. split; reflexivity. Qed.

Definition cycle_node (path me other : string) : Node :=
  source_node path me (cycle_resolution me other) false false.

(** One level: the slot is free, the directory is linked there, and its only
    dependency is resolved below it. *)
Lemma cycle_level (rec : resolve_fn) parent me other g e :
  (me = "a" ∧ other = "b" ∨ me = "b" ∧ other = "a") →
  g_nodes g !! slot_path parent me = None →
  let path := slot_path parent me in
  (rec path other (cycle_spec other) false false
     (with_nodes g (<[path := cycle_node path me other]> (g_nodes g)))).2 = Err e →
  (resolve_step cycle_env rec parent me (cycle_spec me) false false g).2 = Err e.
Proof.
  intros Hme Hfree path Hrec.
  assert (contains_key path (g_nodes g) = false) as Hkey.
  { unfold contains_key. apply bool_decide_eq_false_2. unfold path. rewrite Hfree.
    by intros [? ?]. }
  assert (resolve_step cycle_env rec parent me (cycle_spec me) false false g =
          resolve_source_dependency cycle_env rec parent me (cycle_spec me)
            (DSFile ("/work/" +:+ me)) false false g) as ->.
  { by destruct Hme as [[-> ->] | [-> ->]]. }
  unfold resolve_source_dependency. fold path. cbv zeta.
  unfold mbind at 1, M_bind at 1, gets at 1. rewrite Hkey.
  unfold mbind at 1, M_bind at 1, gets at 1.
  assert (DependencySource_resolve (e_io cycle_env) (DSFile ("/work/" +:+ me))
            (base_dir_for cycle_env g parent) = Ok (cycle_resolution me other)) as ->.
  { destruct Hme as [[-> ->] | [-> ->]]; apply cycle_resolve. }
  cbn [map_err]. unfold mbind at 1, M_bind at 1, lift at 1.
  unfold mbind at 1, M_bind at 1.
  change (platform_allows cycle_env me (sres_metadata (cycle_resolution me other)) false g)
    with (g, Ok true : result ResolveError bool). cbn [negb].
  unfold mbind at 1, M_bind at 1, insert_node at 1, modify at 1.
  fold (source_node path me (cycle_resolution me other) false false).
  fold (cycle_node path me other).
  change (n_path (cycle_node path me other)) with path.
  set (g1 := with_nodes g (<[path := cycle_node path me other]> (g_nodes g))) in *.
  unfold mbind at 1, M_bind at 1.
  assert (announce cycle_env path g1 = (g1, Ok ())) as ->.
  { unfold announce. simpl. unfold mbind, M_bind, gets. simpl. by rewrite lookup_insert_eq. }
  unfold mbind at 1, M_bind at 1, resolve_children.
  assert (bt_list (merged_dependencies (sres_metadata (cycle_resolution me other)))
          = [(other, cycle_spec other)]) as ->.
  { destruct Hme as [[-> ->] | [-> ->]]; reflexivity. }
  cbn [each_m]. unfold mbind at 1, M_bind at 1. unfold mbind at 1, M_bind at 1, gets at 1.
  assert (child_is_optional false path other g1 = false) as Hco.
  { unfold child_is_optional. simpl. rewrite lookup_insert_eq. simpl.
    unfold contains_key. by rewrite lookup_empty. }
  simpl fst. simpl snd. rewrite Hco. unfold mbind at 1, M_bind at 1.
  destruct (rec path other (cycle_spec other) false false g1) as [g2 [t|e']]; [done|].
  simpl in *. done.
Qed.

Definition below (parent : string) (g : graph) : Prop :=
  ∀ p, is_Some (g_nodes g !! p) → strlen p ≤ strlen parent.

Lemma slot_path_longer parent name : strlen parent < strlen (slot_path parent name).
Proof.
  unfold slot_path, strlen. destruct (is_empty parent) eqn:He.
  - apply is_empty_true in He as ->. simpl. lia.
  - rewrite !length_app_s. simpl. lia.
Qed.

(** Unlike registry packages, which reuse any matching ancestor, a source dependency
    looks only at its own slot: two directories that depend on each other are
    placed below each other without end, so no amount of recursion suffices. *)
Lemma source_cycle_diverges fuel :
  (resolve_dependency cycle_env fuel "" "a" "file:/work/a" false false graph_empty).2
    = Err ROutOfFuel.
Proof.
  assert (∀ parent me other g, me = "a" ∧ other = "b" ∨ me = "b" ∧ other = "a" → below parent g →
    (resolve_dependency cycle_env fuel parent me (cycle_spec me) false false g).2 = Err ROutOfFuel)
    as H.
  { induction fuel as [|fuel IH]; intros parent me other g Hme Hb; [done|].
    pose proof (slot_path_longer parent me) as Hlong.
    apply (cycle_level _ parent me other g); [done| |].
    - apply eq_None_not_Some. intros Hs%Hb. lia.
    - apply (IH _ other me); [tauto|]. intros p. simpl.
      destruct (decide (p = slot_path parent me)) as [->|Hne]; [done|].
      rewrite lookup_insert_ne by done. intros Hp%Hb. lia. }
  apply (H "" "a" "b"); [tauto|]. intros p [n Hn]. simpl in Hn. by rewrite lookup_empty in Hn.
Qed.
End cycle.
