(* ===== verification/Resolve.v ===== *)
(** * [src/resolver/mod.rs]: from a manifest to a lockfile

    The root requests, the workspace links, the peer repair rounds, the peer
    contexts and the lockfile they are written to.  Cache warm-up
    ([prefetch_batch_closure], [prefetch_children]) changes no result and is left
    out. *)

From S2P Require Export PlacementInv.
From Stdlib Require Import Ascii.

Section model.
Context `{Sv : Semver} `{Cd : Codecs} `{Up : UrlParser}.
Variable env : resolver_env.
Variable fuel : nat.
Abbreviation R := (M graph ResolveError).

(** ** Root requests *)

Definition root_is_dev (m : PackageManifest) (name : string) : bool :=
  contains_key name (mf_dev_dependencies m) && negb (contains_key name (mf_dependencies m)) &&
  negb (contains_key name (mf_optional_dependencies m)).

Definition root_target (targets : gmap string (string * string)) (name spec : string)
    (optional dev : bool) : R (gmap string (string * string)) :=
  path ← resolve_dependency env fuel "" name spec optional dev;
  mret (match path with
        | Some path => <[name := (spec, path)]> targets
        | None => targets
        end).

Definition resolve_roots (m : PackageManifest) : R (gmap string (string * string)) :=
  fold_m (λ targets (kv : string * string),
    root_target targets kv.1 kv.2 (contains_key kv.1 (mf_optional_dependencies m))
      (root_is_dev m kv.1)) ∅ (bt_list (root_dependency_declarations m)).

(** Every member is linked at the root, requested or not. *)
Definition link_members (targets : gmap string (string * string))
    : R (gmap string (string * string)) :=
  match e_workspace env with
  | None => mret targets
  | Some w =>
      fold_m (λ targets edge,
        if contains_key (de_name edge) targets then mret targets
        else root_target targets (de_name edge) (de_spec edge) false false)
        targets (top_level_links w)
  end.

(** ** Peers *)

Definition peers_of (g : graph) (mode : PeerMode) (path : string) (n : Node)
    : result PeerConflict PeerContext :=
  bind_peer_context (n_metadata n)
    (VisibleProviders_new [path] (bt_list (visible_providers env g (parent_path path)))) mode.

(** One scan: the missing peers to install, or the first conflict that installing
    cannot repair. *)
Definition scan_peers (g : graph) (mode : PeerMode)
    : result ResolveError (list (string * PeerRequest)) :=
  fold_res (λ repairs (kv : string * Node),
    match peers_of g mode kv.1 kv.2 with
    | Ok _ => Ok repairs
    | Err error =>
        match required_request error with
        | Some request => Ok (repairs ++ [(parent_path kv.1, request)])
        | None => Err (RPeer error)
        end
    end) [] (bt_list (g_nodes g)).

Definition install_peer (repair : string * PeerRequest) : R () :=
  let '(parent, request) := repair in
  recover (_ ← resolve_dependency env fuel parent (pr_peer request) (pr_range request) false false;
           mret ()) (RPeerInstall request).

Definition PEER_ROUNDS : nat := 16.

Fixpoint repair_peers (rounds : nat) (mode : PeerMode) : R () :=
  match rounds with
  | 0 => mret ()
  | S rounds =>
      scanned ← gets (λ g, scan_peers g mode);
      repairs ← lift scanned;
      if bool_decide (repairs = []) then mret ()
      else
        _ ← each_m install_peer repairs;
        repair_peers rounds mode
  end.

Definition set_peer_context (context : gmap string PeerProvider) (n : Node) : Node :=
  mk_Node (n_path n) (n_placement_name n) (n_metadata n) (n_resolved n) (n_integrity n)
    (n_dependencies n) (n_targets n) (n_optional n) (n_dev n) context (n_source n) (n_link n)
    (n_workspace_target n) (n_source_dir n).

(** The placement a bound peer is recorded with. *)
Definition lock_provider (g : graph) (parent : string) (provider : ProviderIdentity)
    : PeerProvider :=
  let provider_path := default "" (find_visible_any g parent (pi_name provider)) in
  mk_PeerProvider (pi_name provider) (pi_version provider)
    (match g_nodes g !! provider_path with
     | Some node => n_source node
     | None => LSRegistry (e_registry_for_package env (pi_name provider))
     end) provider_path.

Definition bind_node (mode : PeerMode) (path : string) : R () :=
  g ← gets id;
  match g_nodes g !! path with
  | None => throw (RPanic "node path exists")
  | Some n =>
      context ← lift (map_err RPeer (peers_of g mode path n));
      modify (λ g', with_nodes g'
        (alter (set_peer_context (lock_provider g (parent_path path) <$> context)) path (g_nodes g')))
  end.

Definition bind_contexts (mode : PeerMode) : R () :=
  paths ← gets (λ g, bt_keys (g_nodes g));
  each_m (bind_node mode) paths.

(** ** The lockfile *)

Definition is_registry_source (s : LockSource) : bool :=
  match s with LSRegistry _ => true | _ => false end.

(** [filter_map] over a group of declarations whose targets are known. *)
Definition locked (targets : gmap string string) (declared : gmap string string)
    : gmap string LockDependency :=
  map_imap (λ name spec, mk_LockDependency spec <$> targets !! name) declared.

Definition package_entry (n : Node) : PackageEntry :=
  mk_PackageEntry (n_path n) (n_placement_name n) (version_to_string (vm_version (n_metadata n)))
    (n_resolved n) (n_workspace_target n) (Some (n_integrity n)) (n_link n) (n_dev n)
    (n_optional n) (vm_os (n_metadata n)) (vm_cpu (n_metadata n)) (vm_bin (n_metadata n))
    (n_dependencies n).

Definition package_resolution (n : Node) : PackageResolution :=
  mk_PackageResolution (n_source n) (n_dev n || n_optional n)
    (negb (is_empty_map (vm_peer_dependencies (n_metadata n)))) []
    (locked (n_targets n) (n_dependencies n))
    (locked (n_targets n) (vm_optional_dependencies (n_metadata n)))
    (locked (pp_path <$> n_peer_context n) (vm_peer_dependencies (n_metadata n)))
    (dom (filter (λ kv : string * PeerMeta, pm_optional kv.2 = true)
            (vm_peer_dependencies_meta (n_metadata n))))
    (n_peer_context n) (n_workspace_target n) (vm_has_install_script (n_metadata n)).

(** [insert] for every node, in path order. *)
Definition by_path_of {A} (f : Node → option A) (nodes : list Node) : gmap string A :=
  foldl (λ m n, match f n with Some a => <[n_path n := a]> m | None => m end) ∅ nodes.

Definition registry_name_of (n : Node) : option string :=
  if is_registry_source (n_source n) && bool_decide (vm_name (n_metadata n) ≠ n_placement_name n)
  then Some (vm_name (n_metadata n)) else None.

Definition lock_peer_mode (mode : PeerMode) : LockPeerMode :=
  match mode with Strict => LockStrict | LegacyIgnore => LockLegacyIgnore end.

Definition build_lock (m : PackageManifest) (generator : string) (overrides : gmap string string)
    (mode : PeerMode) (g : graph) : Lockfile :=
  let nodes := bt_values (g_nodes g) in
  sort_packages
    (mk_Lockfile BPM_LOCK_VERSION generator
       (mk_RootEntry (mf_name m) (mf_version m) (root_dependency_declarations m))
       (package_entry <$> nodes)
       (mk_ResolutionMetadata
          (mk_RootResolution (mf_dev_dependencies m) (mf_optional_dependencies m) overrides [] None
             (Some (mk_LockTarget (tp_os (e_target env)) (tp_cpu (e_target env))
                      (tp_libc (e_target env))))
             (lock_peer_mode mode))
          (by_path_of (λ n, Some (package_resolution n)) nodes)
          (by_path_of registry_name_of nodes))).

Definition resolve_graph (m : PackageManifest) (mode : PeerMode) : R () :=
  targets ← resolve_roots m;
  _ ← link_members targets;
  _ ← repair_peers PEER_ROUNDS mode;
  bind_contexts mode.
End model.

Definition with_overrides `{Sv : Semver} (env : resolver_env) (overrides : OverrideSet)
    (root_dir : option string) : resolver_env :=
  mk_resolver_env (e_packument_for env) (e_registry_for_package env) overrides (e_workspace env)
    root_dir (e_target env) (e_sink env) (e_io env) (e_http env) (e_read_to_string env)
    (e_apply_patch env) (e_write_patched_tarball env).

Definition resolve_manifest `{Sv : Semver} `{Cd : Codecs} `{Up : UrlParser} (env : resolver_env)
    (fuel : nat) (m : PackageManifest) (generator : string) (mode : PeerMode)
    : result ResolveError Lockfile :=
  overrides ← map_err ROverride
    (normalize_root_overrides (mf_overrides m) (root_dependency_declarations m) Root);
  let env := with_overrides env overrides (mf_source_dir m) in
  match resolve_graph env fuel m mode graph_empty with
  | (g, Ok _) => Ok (build_lock env m generator (os_normalized overrides) mode g)
  | (_, Err e) => Err e
  end.
