(* ===== verification/ResolveInv.v ===== *)
(** * What a resolved lockfile guarantees

    The phases of [resolve_manifest] keep the graph invariant; the lockfile built
    from the final graph passes the lockfile's own v2 gate. *)

From S2P Require Export Resolve PlacementRuns.
From Stdlib Require Import Ascii.

Section phases.
Context `{Sv : Semver} `{Cd : Codecs} `{Up : UrlParser}.
Context `{L : !SemverLaws Sv} `{CL : !CodecLaws Cd}.
Variable env : resolver_env.
Variable fuel : nat.
Context (Henv : env_laws env).
Abbreviation Steps := (steps (graph_inv env) ext).

(** ** Before the peer contexts *)

Definition kept {A} : graph → result ResolveError A → Prop :=
  λ _ _, True.

Lemma kept_weaken {A} P (m : M graph ResolveError A) Q :
  Steps P m Q → Steps P m kept.
Proof using Type. intros H. eapply steps_weaken; [done..|]. by intros g [] _ _. Qed.

Lemma resolve_dependency_kept parent name spec optional dev :
  Steps (parent_ok parent) (resolve_dependency env fuel parent name spec optional dev) kept.
Proof using L CL Henv. eapply kept_weaken. by apply resolve_dependency_steps. Qed.

Lemma root_target_kept targets name spec optional dev :
  Steps (λ _, True) (root_target env fuel targets name spec optional dev) kept.
Proof using L CL Henv.
  eapply (steps_bind _ _ ext_trans).
  - eapply steps_weaken; [apply resolve_dependency_kept| |done]. intros g _ _ _. by left.
  - intros path. by apply steps_ret; [apply ext_refl|].
  - done.
Qed.

Lemma fold_kept {A B} (f : B → A → M graph ResolveError B) l b :
  (∀ b a, Steps (λ _, True) (f b a) kept) → Steps (λ _, True) (fold_m f b l) kept.
Proof using Type.
  intros Hf. eapply kept_weaken, (steps_fold _ _ ext_refl ext_trans _ _ _ _ (λ _, True)).
  intros b' a _. eapply steps_weaken; [apply Hf|done|by intros g [] _ _].
Qed.

Lemma resolve_roots_kept m : Steps (λ _, True) (resolve_roots env fuel m) kept.
Proof using L CL Henv. apply fold_kept. intros. apply root_target_kept. Qed.

Lemma link_members_kept targets : Steps (λ _, True) (link_members env fuel targets) kept.
Proof using L CL Henv.
  unfold link_members. destruct (e_workspace env); [|by apply steps_ret; [apply ext_refl|]].
  apply fold_kept. intros targets' edge. destruct (contains_key _ _).
  - by apply steps_ret; [apply ext_refl|].
  - apply root_target_kept.
Qed.

Definition repairs_ok (repairs : list (string * PeerRequest)) (g : graph) : Prop :=
  ∀ parent request, (parent, request) ∈ repairs → parent_ok parent g.

Lemma scan_peers_repairs g mode repairs :
  graph_inv env g → scan_peers env g mode = Ok repairs → repairs_ok repairs g.
Proof using Type.
  intros Hi Hs. unfold scan_peers in Hs.
  assert (∀ l acc out, repairs_ok acc g → (∀ p n, (p, n) ∈ l → g_nodes g !! p = Some n) →
    fold_res (λ repairs (kv : string * Node),
      match peers_of env g mode kv.1 kv.2 with
      | Ok _ => Ok repairs
      | Err error =>
          match required_request error with
          | Some request => Ok (repairs ++ [(parent_path kv.1, request)])
          | None => Err (RPeer error)
          end
      end) acc l = Ok out → repairs_ok out g) as H.
  { induction l as [|[p n] l IH]; intros acc out Hacc Hl; simpl; [by intros [= <-]|].
    assert (parent_ok (parent_path p) g) as Hp.
    { intros Hnames. assert (g_nodes g !! p = Some n) as Hpn by (apply Hl; by left).
      destruct (decide (p = "")) as [->|Hne]; [by left|].
      apply (candidate_normalized _ p); [apply (gi_paths _ _ Hi Hnames); by eexists|].
      rewrite candidate_chain_unfold. apply is_empty_false in Hne. rewrite Hne. right.
      apply candidate_chain_self. }
    destruct (peers_of env g mode p n) as [c|e]; simpl.
    - apply IH; [done|]. intros. apply Hl. by right.
    - destruct (required_request e) as [req|]; simpl; [|done].
      apply IH; [|intros; apply Hl; by right].
      intros parent request [Hin|Hin%list_elem_of_singleton]%elem_of_app; [by eapply Hacc|].
      by injection Hin as -> ->. }
  apply (H _ _ _ ltac:(by intros ? ? ?%elem_of_nil) ltac:(by intros p n ?%elem_of_bt_list) Hs).
Qed.

Lemma recover_kept {A} P (m : M graph ResolveError A) f : Steps P m kept → Steps P (recover m f) kept.
Proof using Type.
  intros H g Hi Hp. destruct (H g Hi Hp) as (? & ? & _). unfold recover.
  by destruct (m g) as [g' []].
Qed.

Lemma install_peer_kept repair : Steps (parent_ok repair.1) (install_peer env fuel repair) kept.
Proof using L CL Henv.
  destruct repair as [parent request]. unfold install_peer.
  assert (Steps (parent_ok parent)
            (_ ← resolve_dependency env fuel parent (pr_peer request) (pr_range request) false false;
             mret ()) kept) as H.
  { eapply (steps_bind _ _ ext_trans); [apply resolve_dependency_kept| |done].
    intros path. by apply steps_ret; [apply ext_refl|]. }
  by apply recover_kept.
Qed.

Lemma install_all_kept repairs :
  Steps (repairs_ok repairs) (each_m (install_peer env fuel) repairs) kept.
Proof using L CL Henv.
  eapply kept_weaken, (steps_each _ _ ext_refl ext_trans (repairs_ok repairs) _ _ kept).
  - intros g g' He Hr parent request Hin. eapply parent_ok_ext; [done|by eapply Hr].
  - intros [parent request] Hin. eapply steps_weaken; [apply install_peer_kept| |].
    + intros g _ Hr. by eapply Hr.
    + by intros g [] _ _.
Qed.

Lemma repair_peers_kept rounds mode : Steps (λ _, True) (repair_peers env fuel rounds mode) kept.
Proof using L CL Henv.
  induction rounds as [|rounds IH]; simpl; [by apply steps_ret; [apply ext_refl|]|].
  apply steps_read. intros [repairs|e]; [|by apply steps_throw; [apply ext_refl|]].
  unfold lift. intros g Hi [_ Hs]. unfold mbind at 1 2 3 4 5 6, M_bind. simpl.
  destruct (bool_decide (repairs = [])); [split_and!; [done|apply ext_refl|done]|].
  pose proof (scan_peers_repairs g mode repairs Hi Hs) as Hr.
  destruct (install_all_kept repairs g Hi Hr) as (Hi' & He & _).
  destruct (each_m _ _ g) as [g' [[]|e]]; [|done]. simpl in *.
  destruct (IH g' Hi' I) as (? & ? & _). split_and!; [done|by eapply ext_trans|done].
Qed.

(** ** Peer contexts *)

(** What the recorded context of a node says about its peers: a provider recorded
    for a declared peer has a version in the declared range, a declared peer
    without one is optional (or peers are ignored altogether), and nothing else
    is recorded. *)
Definition peers_bound (mode : PeerMode) (n : Node) : Prop :=
  (∀ peer, is_Some (n_peer_context n !! peer) →
     is_Some (vm_peer_dependencies (n_metadata n) !! peer)) ∧
  ∀ peer range, vm_peer_dependencies (n_metadata n) !! peer = Some range →
    match n_peer_context n !! peer with
    | Some provider => ∃ req v, VersionRange_parse range = Ok req ∧
        version_of (pp_version provider) = Some v ∧ range_matches req v = true
    | None => mode = LegacyIgnore ∨ peer_is_optional (n_metadata n) peer = true
    end.

(** Recorded provider paths are placed, or empty when the provider was not found. *)
Definition providers_placed (g : graph) (n : Node) : Prop :=
  ∀ peer provider, n_peer_context n !! peer = Some provider →
    pp_path provider = "" ∨ is_Some (g_nodes g !! pp_path provider).

(** The graph while contexts are filled in for [paths]; [done] are bound already. *)
Record binding (mode : PeerMode) (paths done : list string) (g : graph) : Prop := mk_binding {
  bd_nodes : ∀ p n, g_nodes g !! p = Some n → node_ok env g p (set_peer_context ∅ n);
  bd_paths : names_ok g → ∀ p, is_Some (g_nodes g !! p) → is_normalized_relative p = true;
  bd_providers : ∀ p n, g_nodes g !! p = Some n → providers_placed g n;
  bd_domain : ∀ p, is_Some (g_nodes g !! p) → p ∈ paths;
  bd_done : ∀ p n, p ∈ done → g_nodes g !! p = Some n → peers_bound mode n }.

Lemma binding_start mode g : graph_inv env g → binding mode (bt_keys (g_nodes g)) [] g.
Proof using Type.
  intros [Hn Hp]. constructor; try done.
  - intros p n Hpn. destruct (Hn p n Hpn) as []. by constructor.
  - intros p n Hpn peer provider. by rewrite (nk_peer_context _ _ _ _ (Hn p n Hpn)), lookup_empty.
  - intros p. by rewrite elem_of_bt_keys.
  - by intros p n ?%elem_of_nil.
Qed.

Lemma find_visible_any_Some g parent name path :
  find_visible_any g parent name = Some path →
  is_Some (g_nodes g !! path) ∧ ∃ c, c ∈ candidate_chain parent ∧ path = slot_path c name.
Proof using Type.
  unfold find_visible_any. intros ([i x] & Hf & Hx)%fmap_Some. simpl in Hx. subst x.
  apply list_find_Some in Hf as (Hi & Hm & _). split; [done|].
  apply list_elem_of_lookup_2, list_elem_of_fmap in Hi as (c & -> & Hc). by exists c.
Qed.

Lemma lock_provider_placed g parent provider :
  pp_path (lock_provider env g parent provider) = "" ∨
  is_Some (g_nodes g !! pp_path (lock_provider env g parent provider)).
Proof using Type.
  simpl. destruct (find_visible_any g parent (pi_name provider)) as [path|] eqn:Hf; [|by left].
  right. by apply find_visible_any_Some in Hf as [? _].
Qed.

Lemma peers_of_bound g mode path n context :
  peers_of env g mode path n = Ok context →
  peers_bound mode (set_peer_context (lock_provider env g (parent_path path) <$> context) n).
Proof using Type.
  unfold peers_of, bind_peer_context, peers_bound. simpl. intros H.
  destruct (decide (mode = LegacyIgnore)) as [Hm|Hm].
  - injection H as <-. rewrite fmap_empty. split.
    + intros peer [? Hp]. by rewrite lookup_empty in Hp.
    + intros peer range _. rewrite lookup_empty. by left.
  - apply bind_peers_Ok in H as [Hall Hlook]; [|apply peers_NoDup]. split.
    + intros peer [provider Hp]. rewrite lookup_fmap, Hlook in Hp.
      apply elem_of_bt_keys. unfold bt_keys.
      destruct (decide (peer ∈ _)) as [|Hnin]; [done|]. by rewrite lookup_empty in Hp.
    + intros peer range Hr. rewrite lookup_fmap, Hlook.
      rewrite decide_True by (apply elem_of_bt_keys; by eexists).
      specialize (Hall peer range (proj2 (elem_of_bt_list _ _ _) Hr)). unfold peer_ok in Hall.
      destruct (VisibleProviders_get _ peer) as [p|]; simpl; [done|].
      rewrite lookup_empty. simpl. by right.
Qed.

Lemma bind_node_step mode path paths done g g' :
  binding mode paths done g → bind_node env mode path g = (g', Ok ()) →
  binding mode paths (path :: done) g'.
Proof using Type.
  intros [Hn Hp Hpr Hdm Hd]. unfold bind_node, gets, id. unfold mbind at 1, M_bind at 1.
  destruct (g_nodes g !! path) as [n|] eqn:Hpath; [|done].
  unfold lift. unfold mbind at 1, M_bind at 1.
  destruct (peers_of env g mode path n) as [context|] eqn:Hc; [|done].
  cbn [map_err]. unfold modify. intros [= <-].
  set (ctx := lock_provider env g (parent_path path) <$> context).
  set (nodes' := alter (set_peer_context ctx) path (g_nodes g)).
  assert (∀ p, is_Some (nodes' !! p) ↔ is_Some (g_nodes g !! p)) as Hdom
    by (intros p; apply lookup_alter_is_Some).
  assert (∀ p m, nodes' !! p = Some m → ∃ m0, g_nodes g !! p = Some m0 ∧
            set_peer_context ∅ m = set_peer_context ∅ m0 ∧
            (m = m0 ∧ p ≠ path ∨ p = path ∧ m0 = n ∧ m = set_peer_context ctx n)) as Hinv.
  { intros p m. unfold nodes'. destruct (decide (p = path)) as [->|Hne].
    - rewrite lookup_alter_eq, Hpath. intros [= <-]. exists n. split_and!; try done. by right.
    - rewrite lookup_alter_ne by done. intros Hm. exists m. split_and!; try done. by left. }
  constructor; simpl.
  - intros p m (m0 & Hm0 & -> & _)%Hinv. destruct (Hn p m0 Hm0) as [? ? ? ? ? ? Ht].
    constructor; try done. intros d t Hdt. destruct (Ht d t Hdt) as (? & ? & ?).
    split_and!; try done. by apply Hdom.
  - intros Hnames p Hsome. apply Hp; [|by apply Hdom]. intros q m Hq.
    destruct (decide (q = path)) as [->|Hne].
    + rewrite Hpath in Hq. injection Hq as <-. specialize (Hnames path (set_peer_context ctx n)).
      apply Hnames. simpl. unfold nodes'. by rewrite lookup_alter_eq, Hpath.
    + apply (Hnames q). simpl. unfold nodes'. by rewrite lookup_alter_ne.
  - intros p m (m0 & Hm0 & _ & Hcase)%Hinv peer provider Hprov.
    destruct Hcase as [[-> _]|(-> & -> & ->)].
    + destruct (Hpr p m0 Hm0 peer provider Hprov) as [?|?]; [by left|]. right. by apply Hdom.
    + simpl in Hprov. unfold ctx in Hprov. rewrite lookup_fmap in Hprov.
      apply fmap_Some in Hprov as (id & _ & ->).
      destruct (lock_provider_placed g (parent_path path) id) as [?|?]; [by left|].
      right. by apply Hdom.
  - intros p Hs. by apply Hdm, Hdom.
  - intros p m Hin (m0 & Hm0 & _ & [[-> Hne]|(-> & -> & ->)])%Hinv.
    + apply elem_of_cons in Hin as [?|Hin]; [done|]. by eapply Hd.
    + by apply peers_of_bound.
Qed.

Lemma bind_contexts_step mode g g' :
  graph_inv env g → bind_contexts env mode g = (g', Ok ()) →
  binding mode (bt_keys (g_nodes g)) (bt_keys (g_nodes g)) g'.
Proof using Type.
  intros Hi. unfold bind_contexts, gets. unfold mbind at 1, M_bind at 1.
  set (paths := bt_keys (g_nodes g)).
  assert (∀ l done g0, binding mode paths done g0 → each_m (bind_node env mode) l g0 = (g', Ok ()) →
            binding mode paths (reverse l ++ done) g') as H.
  { induction l as [|path l IH]; intros done g0 Hb; simpl; [by intros [= <-]|].
    unfold mbind, M_bind. destruct (bind_node env mode path g0) as [g1 [[]|e]] eqn:H1; [|done].
    intros Hl. apply (bind_node_step _ _ _ _ _ _ Hb) in H1. apply (IH _ _ H1) in Hl.
    by rewrite reverse_cons, <- (assoc_L (++)). }
  intros Hl. apply (H _ [] g (binding_start mode g Hi)) in Hl. destruct Hl as [? ? ? ? Hd].
  constructor; try done. intros p n Hin. apply Hd. rewrite app_nil_r. by rewrite elem_of_reverse.
Qed.

(** The final graph: every node keeps its placement facts and has its peers bound. *)
Record resolved_graph (mode : PeerMode) (g : graph) : Prop := mk_resolved_graph {
  rg_nodes : ∀ p n, g_nodes g !! p = Some n → node_ok env g p (set_peer_context ∅ n);
  rg_paths : names_ok g → ∀ p, is_Some (g_nodes g !! p) → is_normalized_relative p = true;
  rg_providers : ∀ p n, g_nodes g !! p = Some n → providers_placed g n;
  rg_peers : ∀ p n, g_nodes g !! p = Some n → peers_bound mode n }.

Lemma resolve_graph_ok m mode g :
  resolve_graph env fuel m mode graph_empty = (g, Ok ()) → resolved_graph mode g.
Proof using L CL Henv.
  unfold resolve_graph. unfold mbind at 1, M_bind at 1.
  destruct (resolve_roots_kept m graph_empty (graph_inv_empty env) I) as (H1 & _ & _).
  destruct (resolve_roots env fuel m graph_empty) as [g1 [targets|]]; [|done]. simpl in H1.
  unfold mbind at 1, M_bind at 1.
  destruct (link_members_kept targets g1 H1 I) as (H2 & _ & _).
  destruct (link_members env fuel targets g1) as [g2 [t2|]]; [|done]. simpl in H2.
  unfold mbind at 1, M_bind at 1.
  destruct (repair_peers_kept PEER_ROUNDS mode g2 H2 I) as (H3 & _ & _).
  destruct (repair_peers env fuel PEER_ROUNDS mode g2) as [g3 [[]|]]; [|done]. simpl in H3.
  intros [? ? ? Hdm Hd]%bind_contexts_step; [|done]. constructor; try done.
  intros p n Hp. apply (Hd p n); [|done]. apply Hdm. by eexists.
Qed.
End phases.

(** ** The lockfile *)

Section lock.
Context `{Sv : Semver} `{Cd : Codecs} `{Up : UrlParser}.
Context `{L : !SemverLaws Sv} `{CL : !CodecLaws Cd}.

Definition keyed (g : graph) : Prop := ∀ p n, g_nodes g !! p = Some n → n_path n = p.

Lemma elem_of_bt_values {A} (m : gmap string A) a : a ∈ bt_values m ↔ ∃ k, m !! k = Some a.
Proof using Type.
  unfold bt_values. rewrite list_elem_of_fmap. split.
  - intros ([k v] & -> & Hkv). exists k. by apply elem_of_bt_list.
  - intros [k Hk]. exists (k, a). by rewrite elem_of_bt_list.
Qed.

Lemma keyed_paths g : keyed g → n_path <$> bt_values (g_nodes g) = bt_keys (g_nodes g).
Proof using Type.
  intros Hk. unfold bt_values, bt_keys. rewrite <- list_fmap_compose.
  apply list_fmap_ext. intros i [k n] Hi. simpl. apply Hk.
  apply elem_of_bt_list. by eapply list_elem_of_lookup_2.
Qed.

Lemma by_path_of_lookup {A} (f : Node → option A) l p a :
  NoDup (n_path <$> l) →
  by_path_of f l !! p = Some a ↔ ∃ n, n ∈ l ∧ n_path n = p ∧ f n = Some a.
Proof using Type.
  unfold by_path_of. induction l as [|n l IH] using rev_ind; intros Hnd.
  - simpl. rewrite lookup_empty. split; [done|]. by intros (n & ?%elem_of_nil & _).
  - rewrite fmap_app in Hnd. apply NoDup_app in Hnd as (Hl & Hdisj & _). rewrite foldl_snoc.
    specialize (IH Hl). simpl in Hdisj.
    assert (n_path n ∉ n_path <$> l) as Hnin by (intros Hin; apply (Hdisj _ Hin); by left).
    assert (∀ b, (∃ m, m ∈ l ++ [n] ∧ n_path m = p ∧ f m = Some b) ↔
              (∃ m, m ∈ l ∧ n_path m = p ∧ f m = Some b) ∨ n_path n = p ∧ f n = Some b) as Hsplit.
    { intros b. split.
      - intros (m & [Hm|Hm%list_elem_of_singleton]%elem_of_app & ? & ?); [left; by exists m|].
        subst m. by right.
      - intros [(m & ? & ? & ?)|[? ?]]; [exists m|exists n];
          rewrite elem_of_app, list_elem_of_singleton; auto. }
    rewrite Hsplit. destruct (f n) as [b|] eqn:Hf.
    + destruct (decide (n_path n = p)) as [Heq|Hne].
      * subst p. rewrite lookup_insert_eq. split; [intros [= ->]; by right|].
        intros [(m & Hm & Hp & _)|[_ ?]]; [|done]. destruct Hnin.
        apply list_elem_of_fmap. by exists m.
      * rewrite lookup_insert_ne by done. rewrite IH. split; [by left|]. by intros [?|[? _]].
    + rewrite IH. split; [by left|]. by intros [?|[_ ?]].
Qed.

Lemma locked_target targets declared name d :
  locked targets declared !! name = Some d → targets !! name = Some (ld_target d).
Proof using Type.
  unfold locked. rewrite map_lookup_imap. intros (spec & _ & H)%bind_Some.
  apply fmap_Some in H as (t & Ht & ->). done.
Qed.

(** The parts of a lockfile that come from outside: package names used as directories
    and as registry names, workspace directories, and that each recorded peer
    provider was found under its name. *)
Record lock_inputs_ok (l : Lockfile) : Prop := mk_lock_inputs_ok {
  li_names : ∀ p, p ∈ lf_packages l → is_valid_npm_read_name (pe_name p) = true;
  li_registry_names : ∀ path name, rm_registry_names (lf_resolution l) !! path = Some name →
    is_valid_npm_read_name name = true;
  li_workspaces : ∀ path m relative_path, rm_packages (lf_resolution l) !! path = Some m →
    pres_source m = LSWorkspace relative_path → is_normalized_relative relative_path = true;
  li_providers : ∀ path m peer provider, rm_packages (lf_resolution l) !! path = Some m →
    pres_peer_context m !! peer = Some provider → pp_path provider ≠ "" }.

Section build.
Variables (env : resolver_env) (m : PackageManifest) (generator : string)
  (overrides : gmap string string) (mode : PeerMode) (g : graph).
Context (Hg : resolved_graph env mode g).
Abbreviation lock := (build_lock env m generator overrides mode g).

Lemma graph_keyed : keyed g.
Proof using Hg. intros p n Hp. apply (nk_path _ _ _ _ (rg_nodes _ _ _ Hg p n Hp)). Qed.

Lemma nodes_NoDup : NoDup (n_path <$> bt_values (g_nodes g)).
Proof using Hg. rewrite keyed_paths by apply graph_keyed. apply bt_keys_NoDup. Qed.

Lemma lock_paths : pe_path <$> (package_entry <$> bt_values (g_nodes g)) = bt_keys (g_nodes g).
Proof using Hg.
  rewrite <- list_fmap_compose, <- keyed_paths by apply graph_keyed. apply list_fmap_ext. done.
Qed.

Lemma lock_packages : lf_packages lock = package_entry <$> bt_values (g_nodes g).
Proof using Hg.
  simpl. apply sort_by_id. unfold path_leb.
  apply (StronglySorted_map pe_path (λ a b, String.leb a b = true)). rewrite lock_paths.
  eapply StronglySorted_impl; [|apply bt_keys_sorted]. intros a b Hab. by apply ltb_leb in Hab as [? _].
Qed.

Lemma elem_of_lock_packages e :
  e ∈ lf_packages lock ↔ ∃ p n, g_nodes g !! p = Some n ∧ e = package_entry n.
Proof using Hg.
  rewrite lock_packages, list_elem_of_fmap. setoid_rewrite elem_of_bt_values. split.
  - intros (n & -> & p & Hp). by exists p, n.
  - intros (p & n & Hp & ->). exists n. split; [done|by exists p].
Qed.

Lemma lock_placed p : is_Some (g_nodes g !! p) → placed lock p.
Proof using Hg.
  intros [n Hn]. exists (package_entry n). rewrite elem_of_lock_packages.
  split; [by exists p, n|]. by apply graph_keyed.
Qed.

Lemma lock_metadata p r :
  rm_packages (lf_resolution lock) !! p = Some r ↔
  ∃ n, g_nodes g !! p = Some n ∧ r = package_resolution n.
Proof using Hg.
  simpl. rewrite by_path_of_lookup by apply nodes_NoDup. setoid_rewrite elem_of_bt_values. split.
  - intros (n & (q & Hq) & <- & [= <-]). exists n. rewrite (graph_keyed q n Hq). done.
  - intros (n & Hn & ->). exists n. split_and!; [by exists p|by apply graph_keyed|done].
Qed.

Lemma lock_registry_name p name :
  rm_registry_names (lf_resolution lock) !! p = Some name ↔
  ∃ n, g_nodes g !! p = Some n ∧ registry_name_of n = Some name.
Proof using Hg.
  simpl. rewrite by_path_of_lookup by apply nodes_NoDup. setoid_rewrite elem_of_bt_values. split.
  - intros (n & (q & Hq) & <- & Hn). exists n. rewrite (graph_keyed q n Hq). done.
  - intros (n & Hn & Hr). exists n. split_and!; [by exists p|by apply graph_keyed|done].
Qed.

Lemma lock_names : lock_inputs_ok lock → names_ok g.
Proof using Hg.
  intros Hin p n Hn. apply (li_names _ Hin (package_entry n)).
  apply elem_of_lock_packages. by exists p, n.
Qed.

(** A node's source data in the form the lockfile gate asks for. *)
Lemma lock_source_ok p n :
  g_nodes g !! p = Some n → lock_inputs_ok lock → source_ok (package_entry n) (package_resolution n).
Proof using Hg.
  intros Hn Hin. pose proof (nk_source _ _ _ _ (rg_nodes _ _ _ Hg p n Hn)) as Hs.
  assert (rm_packages (lf_resolution lock) !! p = Some (package_resolution n)) as Hm
    by (apply lock_metadata; by exists n).
  assert (has_sha512 (n_integrity n) → ∃ i, Some (n_integrity n) = Some i ∧ i ≠ "") as Hsha.
  { intros [d Hd]. eexists. split; [done|]. intros He. rewrite He in Hd. discriminate Hd. }
  unfold source_ok, node_source_ok in *. simpl in *.
  destruct (n_source n) as [registry|rel|path|url|url reference commit|inner patch] eqn:Hsrc.
  - destruct Hs as (? & _ & ? & ?). split_and!; auto.
  - destruct Hs as (? & ? & _). split_and!; try done. by eapply (li_workspaces _ Hin p).
  - done.
  - destruct Hs as (_ & -> & ? & _). done.
  - destruct Hs as (_ & ? & ? & _ & Hlen & Hhex). split_and!; try done.
    eapply all_chars_impl; [|done]. intros c. unfold lower_hex, is_ascii_hexdigit.
    rewrite !orb_true_iff. unfold is_ascii_digit. rewrite !in_range_true. lia.
  - destruct Hs as (_ & ? & ? & ?). split_and!; auto.
Qed.

Lemma lock_points_placed p n target :
  g_nodes g !! p = Some n → lock_inputs_ok lock → points_to (package_resolution n) target →
  placed lock target.
Proof using Hg.
  intros Hn Hin Hp. apply lock_placed.
  pose proof (nk_targets _ _ _ _ (rg_nodes _ _ _ Hg p n Hn)) as Ht. simpl in Ht.
  assert (∀ peer provider, n_peer_context n !! peer = Some provider →
            is_Some (g_nodes g !! pp_path provider)) as Hprov.
  { intros peer provider Hpp. destruct (rg_providers _ _ _ Hg p n Hn peer provider Hpp) as [He|]; [|done].
    exfalso. revert He. eapply (li_providers _ Hin p (package_resolution n)); [|done].
    apply lock_metadata. by exists n. }
  destruct Hp as [(name & d & Hd & <-)|(peer & provider & Hpp & <-)]; simpl in *; [|by eapply Hprov].
  destruct Hd as [Hd|[Hd|Hd]]; apply locked_target in Hd.
  - by apply Ht in Hd as (_ & ? & _).
  - by apply Ht in Hd as (_ & ? & _).
  - rewrite lookup_fmap in Hd. apply fmap_Some in Hd as (provider & Hpp & ->). by eapply Hprov.
Qed.

Lemma build_lock_wf : lock_inputs_ok lock → lock_wf lock.
Proof using Hg.
  intros Hin. constructor.
  - rewrite lock_packages, lock_paths. apply bt_keys_sorted.
  - intros e (p & n & Hn & ->)%elem_of_lock_packages. simpl. rewrite (graph_keyed p n Hn).
    apply (rg_paths _ _ _ Hg (lock_names Hin)). by eexists.
  - intros p name Hname. pose proof (li_registry_names _ Hin p name Hname) as Hv.
    apply lock_registry_name in Hname as (n & Hn & Hr). exists (package_entry n).
    split_and!; [apply elem_of_lock_packages; by exists p, n|by apply graph_keyed| |done].
    unfold registry_name_of in Hr. destruct (_ && bool_decide _) eqn:Hb; [|done].
    injection Hr as <-. apply andb_true_iff in Hb as [_ Hb]. by apply bool_decide_eq_true in Hb.
  - intros p r (n & Hn & ->)%lock_metadata. split.
    + exists (package_entry n). split_and!; [apply elem_of_lock_packages; by exists p, n| |].
      * by apply graph_keyed.
      * by eapply lock_source_ok.
    + intros target. by eapply lock_points_placed.
Qed.

(** What the lockfile says about peers. *)
Lemma build_lock_peers path r peer d :
  rm_packages (lf_resolution lock) !! path = Some r →
  pres_peer_dependencies r !! peer = Some d →
  ∃ provider req v, pres_peer_context r !! peer = Some provider ∧
    ld_target d = pp_path provider ∧ VersionRange_parse (ld_spec d) = Ok req ∧
    version_of (pp_version provider) = Some v ∧ range_matches req v = true.
Proof using Hg.
  intros (n & Hn & ->)%lock_metadata. simpl. intros Hd.
  pose proof Hd as Ht. apply locked_target in Ht. rewrite lookup_fmap in Ht.
  apply fmap_Some in Ht as (provider & Hp & Ht).
  unfold locked in Hd. rewrite map_lookup_imap in Hd. apply bind_Some in Hd as (range & Hr & Hd).
  apply fmap_Some in Hd as (t & _ & ->). simpl in *.
  destruct (rg_peers _ _ _ Hg path n Hn) as [_ Hb]. specialize (Hb peer range Hr).
  rewrite Hp in Hb. destruct Hb as (req & v & ? & ? & ?). by exists provider, req, v.
Qed.
End build.

Lemma with_overrides_laws env overrides dir : env_laws env → env_laws (with_overrides env overrides dir).
Proof using Type. intros []. by constructor. Qed.

Lemma resolve_manifest_inv env fuel m generator mode l :
  env_laws env → resolve_manifest env fuel m generator mode = Ok l →
  ∃ overrides g, let env' := with_overrides env overrides (mf_source_dir m) in
    normalize_root_overrides (mf_overrides m) (root_dependency_declarations m) Root = Ok overrides ∧
    resolve_graph env' fuel m mode graph_empty = (g, Ok ()) ∧ resolved_graph env' mode g ∧
    l = build_lock env' m generator (os_normalized overrides) mode g.
Proof using L CL.
  intros Henv. unfold resolve_manifest. intros (overrides & Ho & H)%bind_Ok.
  apply map_err_Ok in Ho. cbv zeta in H.
  destruct (resolve_graph _ fuel m mode graph_empty) as [g [[]|]] eqn:Hg; [|done].
  injection H as <-. exists overrides, g. cbv zeta. split_and!; try done.
  eapply resolve_graph_ok; [|done]. by apply with_overrides_laws.
Qed.

(** C1.  A resolved lockfile is one the program accepts: whatever the registry, the
    file system and Git answered, the lockfile that [resolve_manifest] returns
    passes the v2 gate (sorted, unique, normalised paths; complete source data;
    every dependency, optional, peer and provider target placed in the same
    file), provided the names that came from outside are acceptable and each
    bound peer was found under its own name. *)
Theorem resolve_manifest_lock_wf env fuel m generator mode l :
  env_laws env → resolve_manifest env fuel m generator mode = Ok l →
  lock_inputs_ok l → lock_wf l ∧ validate_v2 l = Ok ().
Proof using L CL.
  intros Henv Hr Hin. apply resolve_manifest_inv in Hr as (o & g & _ & _ & Hg & ->); [|done].
  assert (lock_wf (build_lock (with_overrides env o (mf_source_dir m)) m generator
            (os_normalized o) mode g)) as Hwf by by apply build_lock_wf.
  split; [done|]. by apply validate_v2_complete.
Qed.

End lock.

(** ** Witnesses and a lockfile the gate refuses *)

Definition lock_inputs_okb (l : Lockfile) : bool :=
  forallb (λ p, is_valid_npm_read_name (pe_name p)) (lf_packages l) &&
  forallb (λ kv : string * string, is_valid_npm_read_name kv.2)
    (bt_list (rm_registry_names (lf_resolution l))) &&
  forallb (λ kv : string * PackageResolution,
    match pres_source kv.2 with
    | LSWorkspace relative_path => is_normalized_relative relative_path
    | _ => true
    end &&
    forallb (λ q : string * PeerProvider, negb (is_empty (pp_path q.2)))
      (bt_list (pres_peer_context kv.2)))
    (bt_list (rm_packages (lf_resolution l))).

Lemma lock_inputs_okb_true l : lock_inputs_okb l = true → lock_inputs_ok l.
Proof.
  unfold lock_inputs_okb. rewrite !andb_true_iff, !forallb_forall. intros [[H1 H2] H3].
  constructor.
  - intros p Hp. by apply H1, list_elem_of_In.
  - intros path name Hn. apply (H2 (path, name)), list_elem_of_In. by apply elem_of_bt_list.
  - intros path m rel Hm Hs. specialize (H3 (path, m)). simpl in H3. rewrite Hs in H3.
    apply andb_true_iff in H3 as [? _]; [done|]. by apply list_elem_of_In, elem_of_bt_list.
  - intros path m peer provider Hm Hp. specialize (H3 (path, m)). simpl in H3.
    apply andb_true_iff in H3 as [_ H3]; [|by apply list_elem_of_In, elem_of_bt_list].
    rewrite forallb_forall in H3. specialize (H3 (peer, provider)). simpl in H3.
    rewrite negb_true_iff, is_empty_false in H3. by apply H3, list_elem_of_In, elem_of_bt_list.
Qed.

Section witnesses.
Import SampleRegistry.

Definition app_registry (name : string) : list VersionMetadata :=
  if bool_decide (name = "plugin") then [package "plugin" 1 ∅ {["react" := "^3.0.0"]} []]
  else if bool_decide (name = "react") then [package "react" 3 {["a" := "^2.0.0"]} ∅ []]
  else shadow_registry name.

(** [react] is not declared: the peer of [plugin] installs it. *)
Definition app_lock : result ResolveError Lockfile :=
  resolve_manifest (env_of app_registry) 10
    (manifest "app" "1.0.0" {["plugin" := "*"; "b" := "*"]}) "bpm" Strict.

Lemma app_lock_paths :
  match app_lock with Ok l => pe_path <$> lf_packages l | Err _ => [] end =
  ["node_modules/b"; "node_modules/b/node_modules/a"; "node_modules/b/node_modules/c";
   "node_modules/b/node_modules/c/node_modules/a"; "node_modules/plugin"; "node_modules/react";
   "node_modules/react/node_modules/a"].
Proof. vm_compute. reflexivity. Qed.

Lemma resolve_manifest_lock_wf_witness :
  match app_lock with Ok l => lock_wf l | Err _ => False end.
Proof.
  assert (match app_lock with Ok l => lock_inputs_okb l | Err _ => false end = true) as Hin
    by (vm_compute; reflexivity).
  destruct app_lock as [l|e] eqn:Hl; [|discriminate Hin].
  refine (proj1 (resolve_manifest_lock_wf (env_of app_registry) 10 _ _ _ l (env_of_laws _) Hl _)).
  apply lock_inputs_okb_true. exact Hin.
Defined.


(** A provider installed under an alias: the peer [react] is bound to the package
    [react] placed as [ui], its path is searched under [react] and not found, and
    the lockfile that the resolver returns is refused by its own reader. *)
Definition alias_lock : result ResolveError Lockfile :=
  resolve_manifest (env_of app_registry) 10
    (manifest "app" "1.0.0" {["plugin" := "*"; "ui" := "npm:react@^3.0.0"]}) "bpm" Strict.

Lemma alias_peer_lock_refused :
  match alias_lock with
  | Ok l => match validate_v2 l with
            | Err (Invalid reason) => Some reason
            | _ => None
            end
  | Err _ => None
  end = Some (TargetMissing "peerDependencies" "react" "node_modules/plugin" "").
Proof. vm_compute. reflexivity. Qed.
End witnesses.

