(* ===== verification/Termination.v ===== *)
(** * Placement of registry packages terminates

    A registry dependency is placed only when no package on the dependent's lookup
    chain satisfies it, so no name and version repeats along a chain: over
    finitely many names and versions the recursion is bounded by their number. *)

From S2P Require Export PlacementRuns.
From Stdlib Require Import Ascii.

(** ** Paths *)

Lemma slot_suffix_no_split name :
  is_valid_npm_read_name name = true → rsplit_once "/node_modules/" ("node_modules/" +:+ name) = None.
Proof.
  intros Hn. destruct (rsplit_once _ _) as [[a b]|] eqn:Hr; [|done]. exfalso.
  apply rsplit_once_Some in Hr. apply (f_equal (split_char slash)) in Hr.
  change ("node_modules/" +:+ name) with ("node_modules" +:+ String slash name) in Hr.
  change (a +:+ "/node_modules/" +:+ b)
    with (a +:+ String slash ("node_modules" +:+ String slash b)) in Hr.
  rewrite !split_char_app_sep, !(split_char_none slash "node_modules") in Hr by done.
  pose proof (split_char_nonempty slash a). pose proof (split_char_nonempty slash b).
  apply valid_npm_name_shape in Hn as [Hs|(scope & pkg & -> & Hs & Hp)].
  - rewrite (split_char_none slash name) in Hr by (by eapply segment_no_char).
    destruct (split_char slash a) as [|x [|y xs]]; [done| |]; simpl in Hr; injection Hr as ? Hr.
    + by destruct (split_char slash b).
    + by destruct xs.
  - change ("@" +:+ scope +:+ String "/" pkg) with (("@" +:+ scope) +:+ String slash pkg) in Hr.
    assert (contains_char slash ("@" +:+ scope) = false) as Hsc
      by (change (contains_char slash scope = false); by eapply segment_no_char).
    assert (contains_char slash pkg = false) as Hpk by by eapply segment_no_char.
    rewrite split_char_app_sep, (split_char_none slash ("@" +:+ scope)),
      (split_char_none slash pkg) in Hr by done.
    destruct (split_char slash a) as [|x [|y [|z zs]]]; [done| | |]; cbn [app] in Hr;
      apply (f_equal tail) in Hr; cbn [tail] in Hr.
    + discriminate Hr.
    + apply (f_equal (drop 2)) in Hr. cbn [drop] in Hr. rewrite drop_0 in Hr. congruence.
    + apply (f_equal length) in Hr. simpl in Hr. rewrite length_app in Hr. simpl in Hr. lia.
Qed.

Lemma parent_path_slot parent name :
  is_valid_npm_read_name name = true → parent_path (slot_path parent name) = parent.
Proof.
  intros Hn%slot_suffix_no_split. unfold parent_path, slot_path.
  destruct (is_empty parent) eqn:He.
  - apply is_empty_true in He as ->. by rewrite Hn.
  - rewrite (rsplit_once_app _ parent _ "" name); [simpl; by rewrite app_nil_r_s|].
    change ("/node_modules/" +:+ name) with (String "/" ("node_modules/" +:+ name)).
    cbn [rsplit_once]. by rewrite Hn.
Qed.

(** ** Counting *)

Lemma length_filter_le {A} (p q : A → bool) l :
  (∀ x, q x = true → p x = true) →
  length (filter (λ x, q x = true) l) ≤ length (filter (λ x, p x = true) l).
Proof.
  intros H. induction l as [|x l IH]; [done|]. rewrite !filter_cons.
  destruct (q x) eqn:Hq; simpl.
  - rewrite (H x Hq). simpl. lia.
  - destruct (p x); simpl; lia.
Qed.

Lemma length_filter_lt {A} (p q : A → bool) l y :
  (∀ x, q x = true → p x = true) → y ∈ l → p y = true → q y = false →
  length (filter (λ x, q x = true) l) < length (filter (λ x, p x = true) l).
Proof.
  intros H Hy Hpy Hqy. induction l as [|x l IH]; [by apply elem_of_nil in Hy|]. rewrite !filter_cons.
  apply elem_of_cons in Hy as [->|Hy].
  - rewrite Hpy, Hqy. simpl. pose proof (length_filter_le p q l H). lia.
  - specialize (IH Hy). destruct (q x) eqn:Hq; simpl.
    + rewrite (H x Hq). simpl. lia.
    + destruct (p x); simpl; lia.
Qed.

(** ** Termination *)

Section termination.
Context `{Sv : Semver} `{Cd : Codecs} `{Up : UrlParser}.
Context `{L : !SemverLaws Sv} `{CL : !CodecLaws Cd}.
Variable env : resolver_env.
Context (Henv : env_laws env).

(** The requests that can come up, closed under the dependencies of everything
    published for them: finitely many names and versions, registry specs only,
    packuments filed under the versions they describe, no peers. *)
Record registry_closed (names : list string) (versions : list Version)
    (requests : string → string → Prop) : Prop := mk_registry_closed {
  rc_workspace : e_workspace env = None;
  rc_overrides : os_rules (e_overrides env) = [];
  rc_name : ∀ name spec, requests name spec →
    name ∈ names ∧ is_valid_npm_read_name name = true ∧
    is_valid_npm_read_name (registry_request name spec).1 = true;
  rc_spec : ∀ name spec, requests name spec → DependencySource_parse spec = None;
  rc_published : ∀ name spec parsed packument key m, requests name spec →
    parse_spec ((registry_request name spec).1 +:+ "@" +:+ (registry_request name spec).2)
      = Ok parsed →
    e_packument_for env parsed = Ok packument → pk_versions packument !! key = Some m →
    version_to_string (vm_version m) = key ∧ vm_version m ∈ versions ∧
    vm_peer_dependencies m = ∅ ∧
    ∀ d s, merged_dependencies m !! d = Some s → requests d s }.

Context (names : list string) (versions : list Version) (requests : string → string → Prop).
Context (Hclosed : registry_closed names versions requests).

(** Is some version of [name] visible from [parent] exactly [v]? *)
Definition usedb (g : graph) (parent : string) (pair : string * Version) : bool :=
  existsb (λ c, match g_nodes g !! slot_path c pair.1 with
                | Some n => bool_decide (vm_version (n_metadata n) = pair.2)
                | None => false
                end) (candidate_chain parent).

Definition unused (g : graph) (parent : string) : nat :=
  length (filter (λ pair, negb (usedb g parent pair) = true) (list_prod names versions)).

Lemma usedb_ext g g' parent pair : ext g g' → usedb g parent pair = true → usedb g' parent pair = true.
Proof using Type.
  intros He. unfold usedb. rewrite !existsb_exists. intros (c & Hc & Hm). exists c. split; [done|].
  destruct (g_nodes g !! _) as [n|] eqn:Hn; [|done].
  destruct (ext_nodes _ _ He _ _ Hn) as (n' & -> & Hev). by rewrite (ev_metadata _ _ Hev).
Qed.

Lemma unused_ext g g' parent : ext g g' → unused g' parent ≤ unused g parent.
Proof using Type.
  intros He. apply (length_filter_le (λ p, negb (usedb g parent p)) (λ p, negb (usedb g' parent p))).
  intros pair. rewrite !negb_true_iff. intros Hu. apply not_true_is_false. intros Hu'.
  by rewrite (usedb_ext _ _ _ _ He Hu') in Hu.
Qed.

Lemma select_version_name n n' req p v :
  select_version n req p = Ok v → select_version n' req p = Ok v.
Proof using Type.
  unfold select_version. destruct (is_empty_map _); [done|]. destruct req as [|v'|r].
  - intros (tag & Ht & H)%bind_Ok. apply ok_or_Ok in Ht. apply map_err_Ok in H. rewrite Ht. simpl.
    by rewrite H.
  - by destruct (contains_key _ _).
  - intros H%ok_or_Ok. by rewrite H.
Qed.

Lemma select_closed g parent name spec a base :
  requests name spec → select_artifact env g parent name spec = Ok (a, base) →
  request_matches (registry_request name spec).2 (vm_version (ra_metadata a)) = true ∧
  vm_version (ra_metadata a) ∈ versions ∧
  ∀ d s, merged_dependencies (ra_metadata a) !! d = Some s → requests d s.
Proof using L Hclosed.
  intros Hreq. unfold select_artifact.
  pose proof (rc_published _ _ _ Hclosed name spec) as Hpub.
  destruct (rc_name _ _ _ Hclosed name spec Hreq) as (_ & _ & Hrn).
  destruct (registry_request name spec) as [rn rs]. cbv zeta. simpl in *.
  intros (parsed & Hparse%map_err_Ok & H)%bind_Ok.
  apply bind_Ok in H as (packument & Hpk%map_err_Ok & H).
  apply bind_Ok in H as (resolved & Hr%map_err_Ok & H).
  apply resolve_packument_inv in Hr as (Hsel & m & Hm & Hmeta & _).
  destruct (Hpub parsed packument _ m Hreq Hparse Hpk Hm) as (Hv & Hin & Hpeer & Hdeps).
  assert (vm_version (ra_metadata resolved) = vm_version m ∧
          vm_peer_dependencies (ra_metadata resolved) = ∅ ∧
          merged_dependencies (ra_metadata resolved) = merged_dependencies m) as (E1 & E2 & E3).
  { rewrite Hmeta. by destruct (is_empty (vm_name m)). }
  assert (peer_candidate_matches g (ra_metadata resolved) parent = true) as Hp.
  { unfold peer_candidate_matches. by rewrite E2, bt_list_empty. }
  rewrite Hp in H. injection H as <- <-. rewrite E1, E3. split_and!; try done.
  assert (vm_version m = ra_version resolved) as ->.
  { assert (Ok (vm_version m) = (Ok (ra_version resolved) : result string Version)) as Heq
      by (rewrite <- !version_parse_display, Hv; done).
    by injection Heq. }
  eapply select_version_matches; [done|exact Hparse|]. by eapply select_version_name.
Qed.

Lemma find_visible_None g parent name spec c n :
  find_visible g parent name spec = None → c ∈ candidate_chain parent →
  g_nodes g !! slot_path c name = Some n → request_matches spec (vm_version (n_metadata n)) = false.
Proof using Type.
  unfold find_visible. rewrite fmap_None, list_find_None, Forall_fmap, Forall_forall.
  intros Hf Hc Hn. specialize (Hf c Hc). simpl in Hf. unfold node_matches in Hf. rewrite Hn in Hf.
  by apply not_true_is_false.
Qed.

(** A fresh placement uses up a pair that no package around it had used. *)
Lemma unused_placed g g' parent name rs n :
  ext g g' → find_visible g parent name rs = None →
  g_nodes g' !! slot_path parent name = Some n →
  request_matches rs (vm_version (n_metadata n)) = true →
  name ∈ names → is_valid_npm_read_name name = true → vm_version (n_metadata n) ∈ versions →
  unused g' (slot_path parent name) < unused g parent.
Proof using Type.
  intros He Hvis Hn Hm Hname Hvalid Hver. set (path := slot_path parent name).
  assert (candidate_chain path = path :: candidate_chain parent) as Hchain.
  { rewrite candidate_chain_unfold. unfold path at 2 3.
    assert (is_empty (slot_path parent name) = false) as ->.
    { unfold slot_path. by destruct parent. }
    by rewrite parent_path_slot. }
  apply (length_filter_lt (λ p, negb (usedb g parent p)) (λ p, negb (usedb g' path p)) _
           (name, vm_version (n_metadata n))).
  - intros pair. rewrite !negb_true_iff. intros Hu. apply not_true_is_false. intros Hu'.
    apply (usedb_ext _ _ _ _ He) in Hu'. revert Hu. unfold usedb in *. rewrite Hchain. simpl.
    rewrite Hu'. by rewrite orb_true_r.
  - apply list_elem_of_In, in_prod; by apply list_elem_of_In.
  - rewrite negb_true_iff. apply not_true_is_false. unfold usedb. rewrite existsb_exists.
    intros (c & Hc%list_elem_of_In & Hmc). simpl in Hmc.
    destruct (g_nodes g !! slot_path c name) as [m|] eqn:Hcm; [|done].
    apply bool_decide_eq_true in Hmc.
    pose proof (find_visible_None _ _ _ _ _ _ Hvis Hc Hcm) as Hno. by rewrite Hmc, Hm in Hno.
  - rewrite negb_false_iff. unfold usedb. rewrite existsb_exists. exists parent. split.
    + apply list_elem_of_In. rewrite Hchain. right. apply candidate_chain_self.
    + simpl. rewrite Hn. by apply bool_decide_eq_true.
Qed.

Definition returns {A} (r : result ResolveError A) : Prop := r ≠ Err ROutOfFuel.

Definition rec_returns (rec : resolve_fn) (bound : nat) : Prop :=
  ∀ parent name spec optional dev g, graph_inv env g → parent_ok parent g → requests name spec →
    unused g parent < bound → returns (rec parent name spec optional dev g).2.

(** The loop over the children of a placed package. *)
Lemma children_return rec bound path deps l optional dev g :
  rec_ok env rec → rec_returns rec bound →
  (∀ d s, (d, s) ∈ l → deps !! d = Some s ∧ requests d s) →
  graph_inv env g → expanding path deps g → unused g path < bound →
  returns (each_m (λ kv : string * string,
    child_optional ← gets (child_is_optional optional path kv.1);
    target ← rec path kv.1 kv.2 child_optional dev;
    record_target path kv.1 target) l g).2.
Proof using Type.
  intros Hok Hret. revert g. induction l as [|[child spec] l IH]; intros g Hl Hi Hx Hb; [by intros ?|].
  destruct (Hl child spec) as [Hd Hr]; [by left|].
  cbn [each_m]. unfold mbind at 1, M_bind at 1. unfold mbind at 1, M_bind at 1, gets at 1.
  cbn [fst snd]. set (co := child_is_optional optional path child g).
  unfold mbind at 1, M_bind at 1.
  pose proof (Hret path child spec co dev g Hi (proj1 Hx) Hr Hb) as Hrr.
  destruct (Hok path child spec co dev g Hi (proj1 Hx)) as (Hi1 & He1 & Hf1).
  destruct (rec path child spec co dev g) as [g1 [target|e]];
    [|intros [= ->]; by apply Hrr]. simpl in *.
  destruct (record_step env path deps child spec co target Hd g1 Hi1
              (conj Hf1 (expanding_ext _ _ _ _ He1 Hx))) as (Hi2 & He2 & _).
  assert (∃ g2, record_target path child target g1 = (g2, Ok ())) as [g2 Hg2]
    by (destruct target; by eexists).
  rewrite Hg2 in *. simpl in *. apply IH; try done.
  - intros d s Hin. apply Hl. by right.
  - by eapply expanding_ext, expanding_ext.
  - pose proof (unused_ext _ _ path He1). pose proof (unused_ext _ _ path He2). lia.
Qed.

Lemma place_registry_returns rec bound parent name spec optional dev g :
  rec_ok env rec → rec_returns rec bound → graph_inv env g → parent_ok parent g →
  requests name spec → unused g parent < S bound →
  returns (place_registry env rec parent name spec optional dev g).2.
Proof using L Henv Hclosed.
  intros Hok Hret Hi Hp Hreq Hb. unfold place_registry. cbv zeta.
  unfold mbind at 1, M_bind at 1, gets at 1.
  destruct (find_visible g parent name _) as [path|] eqn:Hvis; [by intros ?|].
  unfold mbind at 1, M_bind at 1, gets at 1. set (path := slot_path parent name).
  destruct (g_nodes g !! path) as [selected|] eqn:Hfree.
  { destruct (request_matches _ _); by intros ?. }
  unfold mbind at 1, M_bind at 1, gets at 1. unfold mbind at 1, M_bind at 1, lift at 1.
  destruct (select_artifact env g parent name spec) as [[a base]|e] eqn:Hsel.
  2:{ apply select_artifact_error in Hsel as [x ->]. by intros ?. }
  destruct (select_closed _ _ _ _ _ _ Hreq Hsel) as (Hm & Hver & Hdeps).
  destruct (rc_name _ _ _ Hclosed name spec Hreq) as (Hname & Hvalid & _).
  apply select_artifact_inv in Hsel as (-> & ps & pk & [Hurl Hsha]%resolved_artifact_ok).
  unfold mbind at 1, M_bind at 1.
  destruct (platform_allows_cases env name (ra_metadata a) optional g)
    as [[-> Hsup]|[(? & ->)|(? & ? & ->)]]; [|by intros ?|by intros ?]. cbn [negb].
  set (n := fresh_node path name (ra_metadata a) _ _ _ _ _ _ _ _).
  assert (node_source_ok env n) as Hsrc.
  { simpl. split_and!; try done. apply (el_registry _ Henv). }
  destruct (insert_step env n parent (λ _, True) ltac:(done) eq_refl eq_refl eq_refl eq_refl Hsup Hsrc
              g Hi (conj I (conj Hp Hfree))) as (Hi1 & He1 & _ & Hn1).
  unfold mbind at 1, M_bind at 1. destruct (insert_node n g) as [g1 r1] eqn:Hins.
  injection Hins as <- <-. set (g1 := with_nodes g _) in *. simpl in Hi1, He1, Hn1.
  unfold mbind at 1, M_bind at 1.
  destruct (announce_step env path (λ g, ∃ n', g_nodes g !! path = Some n' ∧ evolves n n')
              ltac:(intros ? ? He (n' & Hn' & Hev);
                    destruct (ext_nodes _ _ He _ _ Hn') as (n'' & ? & ?); exists n'';
                    split; [done|by eapply evolves_trans])
              g1 Hi1 (ex_intro _ n (conj Hn1 (evolves_refl n)))) as (Hi2 & He2 & Hann).
  destruct (announce env path g1) as [g2 [[]|e]]; [|done]. simpl in *.
  destruct Hann as (n2 & Hn2 & Hev2).
  assert (unused g2 path < unused g parent) as Hlt.
  { eapply (unused_placed g g2 parent name); [by eapply ext_trans|done|exact Hn2| |done..|];
      by rewrite (ev_metadata _ _ Hev2). }
  assert (expanding path (merged_dependencies (ra_metadata a)) g2) as Hx.
  { split; [|exists n2; by rewrite (ev_dependencies _ _ Hev2)]. intros Hnames. right.
    apply (gi_paths _ _ Hi2 Hnames). by eexists. }
  unfold mbind at 1, M_bind at 1, resolve_children.
  pose proof (children_return rec bound path (merged_dependencies (ra_metadata a))
                (bt_list (merged_dependencies (ra_metadata a)))
                optional dev g2 Hok Hret) as Hch.
  destruct (each_m _ _ g2) as [g3 [[]|e]]; [by intros ?|]. intros [= ->]. apply Hch; try done; [|lia].
  intros d s Hds%elem_of_bt_list. auto.
Qed.

Lemma unused_bound g parent : unused g parent ≤ length names * length versions.
Proof using Type.
  unfold unused. rewrite length_filter. unfold list_prod. by rewrite length_prod.
Qed.

End termination.

Section witnesses.
Import SampleRegistry.

(** Two packages that depend on each other. *)
Definition loop_registry (name : string) : list VersionMetadata :=
  if bool_decide (name = "x") then [package "x" 1 {["y" := "*"]} ∅ []]
  else if bool_decide (name = "y") then [package "y" 1 {["x" := "*"]} ∅ []]
  else [].
Definition loop_requests (name spec : string) : Prop := name ∈ ["x"; "y"] ∧ spec = "*".

Lemma published_as_lookup name l key m :
  pk_versions (published_as name l) !! key = Some m →
  m ∈ l ∧ key = version_to_string (vm_version m).
Proof.
  simpl. intros H%elem_of_list_to_map_2%list_elem_of_fmap. destruct H as (m' & [= -> ->] & Hm).
  done.
Qed.

Lemma loop_closed : registry_closed (env_of loop_registry) ["x"; "y"] [version 1 0 0] loop_requests.
Proof.
  assert (∀ name, name ∈ ["x"; "y"] → name = "x" ∨ name = "y") as Hxy by set_solver.
  split; try done.
  - intros name spec [Hn ->]. split; [done|].
    destruct (Hxy name Hn) as [-> | ->]; vm_compute; done.
  - by intros name spec [_ ->].
  - intros name spec parsed packument key m [Hn ->] Hp Hpk Hm.
    assert (ps_name parsed = name) as Hname.
    { assert (ps_name <$> ok (parse_spec ((registry_request name "*").1 +:+ "@" +:+
                (registry_request name "*").2)) = Some name) as Hc
        by (destruct (Hxy name Hn) as [-> | ->]; vm_compute; reflexivity).
      rewrite Hp in Hc. by injection Hc. }
    assert (m ∈ loop_registry name ∧ key = version_to_string (vm_version m)) as [Hin ->].
    { unfold env_of in Hpk. simpl in Hpk. rewrite Hname in Hpk.
      destruct (loop_registry name) as [|m0 ms] eqn:Hl; [done|]. injection Hpk as <-.
      by apply published_as_lookup in Hm. }
    destruct (Hxy name Hn) as [-> | ->]; apply list_elem_of_singleton in Hin as ->;
      split_and!; try done; [by left| |by left|];
      intros d s Hd; unfold merged_dependencies in Hd; simpl in Hd;
      rewrite (left_id_L ∅ (∪)) in Hd; apply lookup_singleton_Some in Hd as [<- <-];
      (split; [set_solver|done]).
Qed.

End witnesses.
