(* ===== verification/Completeness.v ===== *)
(** * A successful resolution leaves no dependency unresolved

    Without workspaces (whose fallback keeps what a failed attempt placed), every
    package placed by a successful call has an edge for each of its
    dependencies, unless an optional one was skipped with a diagnostic. *)

From S2P Require Export PlacementRuns.
From Stdlib Require Import Ascii.

Section completeness.
Context `{Sv : Semver} `{Cd : Codecs} `{Up : UrlParser}.
Context `{L : !SemverLaws Sv} `{CL : !CodecLaws Cd}.
Variable env : resolver_env.
Context (Henv : env_laws env) (Hws : e_workspace env = None).

(** Every declared dependency has an edge. *)
Definition complete (n : Node) : Prop :=
  ∀ d, is_Some (n_dependencies n !! d) → is_Some (n_targets n !! d).

Definition news_complete (g g' : graph) : Prop :=
  ∀ p n, g_nodes g !! p = None → g_nodes g' !! p = Some n → complete n.

(** No optional package was skipped in between. *)
Definition quiet (g g' : graph) : Prop := g_diagnostics g' = g_diagnostics g.

Lemma complete_evolves n n' : evolves n n' → complete n → complete n'.
Proof using Type.
  intros Hev Hc d. rewrite (ev_dependencies _ _ Hev). intros Hd.
  by apply (ev_targets _ _ Hev), Hc.
Qed.

Lemma quiet_split a b c : ext a b → ext b c → quiet a c → quiet a b ∧ quiet b c.
Proof using Type.
  intros [_ [x Hx] _] [_ [y Hy] _] Hq. unfold quiet in *. rewrite Hy, Hx, <- (assoc_L (++)) in Hq.
  rewrite <- (app_nil_r (g_diagnostics a)) in Hq at 2. apply app_inv_head in Hq.
  apply app_eq_nil in Hq as [-> ->]. by rewrite Hy, Hx, !app_nil_r.
Qed.

Lemma news_complete_refl g : news_complete g g.
Proof using Type. intros p n Hnone Hsome. congruence. Qed.

Lemma news_complete_trans a b c :
  news_complete a b → ext b c → news_complete b c → news_complete a c.
Proof using Type.
  intros Hab Hbc Hbc' p n Ha Hc. destruct (g_nodes b !! p) as [m|] eqn:Hb; [|by eapply Hbc'].
  destruct (ext_nodes _ _ Hbc p m Hb) as (m' & Hm' & Hev). rewrite Hc in Hm'. injection Hm' as <-.
  eapply complete_evolves; [done|]. by eapply Hab.
Qed.

(** A step that adds no node. *)
Lemma news_complete_dom a b :
  (∀ p, is_Some (g_nodes b !! p) → is_Some (g_nodes a !! p)) → news_complete a b.
Proof using Type.
  intros Hd p n Ha Hb. destruct (Hd p) as [m Hm]; [by eexists|]. congruence.
Qed.

Definition outcome (g g' : graph) (r : option string) : Prop := is_Some r ∧ news_complete g g'.

Definition rec_complete (rec : resolve_fn) : Prop :=
  ∀ parent name spec optional dev g g' r, graph_inv env g → parent_ok parent g →
    rec parent name spec optional dev g = (g', Ok r) → quiet g g' → outcome g g' r.

Lemma record_target_run path child target g :
  ∃ g', record_target path child (Some target) g = (g', Ok ()) ∧
    (∀ p, is_Some (g_nodes g' !! p) → is_Some (g_nodes g !! p)) ∧
    (is_Some (g_nodes g !! path) →
       ∃ n', g_nodes g' !! path = Some n' ∧ is_Some (n_targets n' !! child)).
Proof using Type.
  eexists. split; [done|]. simpl. split.
  - intros p. by rewrite lookup_alter_is_Some.
  - intros [n Hn]. rewrite lookup_alter_eq, Hn. eexists. split; [done|]. simpl.
    by rewrite lookup_insert_eq.
Qed.

(** The loop over the children: every child gets its edge. *)
Lemma children_complete rec path deps l optional dev g g' :
  rec_ok env rec → rec_complete rec → (∀ d s, (d, s) ∈ l → deps !! d = Some s) →
  graph_inv env g → expanding path deps g →
  each_m (λ kv : string * string,
    child_optional ← gets (child_is_optional optional path kv.1);
    target ← rec path kv.1 kv.2 child_optional dev;
    record_target path kv.1 target) l g = (g', Ok ()) →
  ext g g' ∧ (quiet g g' → news_complete g g' ∧
    ∀ n d, d ∈ l.*1 → g_nodes g' !! path = Some n → is_Some (n_targets n !! d)).
Proof using Type.
  intros Hok Hcomp. revert g. induction l as [|[child spec] l IH]; intros g Hl Hi Hx.
  { intros [= <-]. split; [apply ext_refl|]. intros _. split; [apply news_complete_refl|].
    by intros n d ?%elem_of_nil. }
  cbn [each_m]. unfold mbind at 1, M_bind at 1. unfold mbind at 1, M_bind at 1, gets at 1.
  cbn [fst snd]. set (co := child_is_optional optional path child g). unfold mbind at 1, M_bind at 1.
  pose proof (Hcomp path child spec co dev g) as Hc.
  destruct (Hok path child spec co dev g Hi (proj1 Hx)) as (Hi1 & He1 & Hf1).
  destruct (rec path child spec co dev g) as [g1 [target|e]]; [|done]. simpl in *.
  pose proof (expanding_ext _ _ _ _ He1 Hx) as Hx1.
  destruct (record_step env path deps child spec co target (Hl child spec ltac:(by left)) g1 Hi1
              (conj Hf1 Hx1)) as (Hi2 & He2 & _).
  destruct (record_target path child target g1) as [g2 [[]|e]] eqn:Hrec; [|done]. simpl in *.
  intros Hrest. pose proof (expanding_ext _ _ _ _ He2 Hx1) as Hx2.
  destruct (IH g2) as [He3 Hq3]; [intros; apply Hl; by right|done..|].
  split; [by eapply ext_trans, ext_trans|]. intros Hquiet.
  apply (quiet_split g g2) in Hquiet as [Hq12 Hq]; [|by eapply ext_trans|done].
  apply (quiet_split g g1) in Hq12 as [Hq1 _]; [|done..].
  destruct (Hc g1 target Hi (proj1 Hx) eq_refl Hq1) as [[t ->] Hn1]. destruct (Hq3 Hq) as [Hn3 Ht3].
  destruct (record_target_run path child t g1) as (g2' & Hrun & Hdom & Htgt).
  rewrite Hrec in Hrun. injection Hrun as <-. split.
  - eapply news_complete_trans; [|done|exact Hn3].
    eapply news_complete_trans; [exact Hn1|done|]. by apply news_complete_dom.
  - intros n d [->|Hd]%elem_of_cons Hn; [|by eapply Ht3]. simpl.
    destruct Hx1 as (_ & m & Hm & _). destruct Htgt as (n2 & Hn2 & Hs); [by eexists|].
    destruct (ext_nodes _ _ He3 path n2 Hn2) as (n3 & Hn3' & Hev). rewrite Hn in Hn3'.
    injection Hn3' as <-. by apply (ev_targets _ _ Hev).
Qed.

(** Announcing a download leaves the nodes alone. *)
Lemma announce_nodes path g : g_nodes (announce env path g).1 = g_nodes g.
Proof using Type.
  unfold announce. destruct (negb _); [done|]. unfold mbind at 1, M_bind at 1, gets at 1.
  destruct (g_nodes g !! path) as [node|]; [|done]. destruct (_ || _); [done|].
  destruct (is_empty _); [done|]. by destruct (Integrity_parse _).
Qed.

(** Placing a fresh node and resolving its children. *)
Lemma place_complete rec parent n path optional dev g g' r :
  rec_ok env rec → rec_complete rec → graph_inv env g → parent_ok parent g →
  n_path n = path → n_path n = slot_path parent (n_placement_name n) →
  n_dependencies n = merged_dependencies (n_metadata n) → n_peer_context n = ∅ → n_targets n = ∅ →
  node_source_ok env n → g_nodes g !! path = None →
  (allowed ← platform_allows env (n_placement_name n) (n_metadata n) optional;
   if negb allowed then mret None
   else _ ← insert_node n; _ ← announce env path;
        _ ← resolve_children rec path (n_dependencies n) optional dev;
        mret (Some path)) g = (g', Ok r) →
  quiet g g' → outcome g g' r.
Proof using Type.
  intros Hok Hcomp Hi Hp Hpath Hslot Hd Hpc Ht Hsrc Hfree. unfold mbind at 1, M_bind at 1.
  destruct (platform_allows_cases env (n_placement_name n) (n_metadata n) optional g)
    as [[-> Hsup]|[(message & ->)|(? & ? & ->)]]; [| |done].
  2:{ cbn [negb]. intros [= <- <-] Hq. unfold quiet in Hq. simpl in Hq.
      apply (f_equal length) in Hq. rewrite length_app in Hq. simpl in Hq. lia. }
  cbn [negb]. subst path.
  destruct (insert_step env n parent (λ _, True) ltac:(done) Hslot Hd Hpc Ht Hsup Hsrc
              g Hi (conj I (conj Hp Hfree))) as (Hi1 & He1 & _ & Hn1).
  unfold mbind at 1, M_bind at 1. unfold insert_node at 1, modify at 1.
  set (g1 := with_nodes g (<[n_path n := n]> (g_nodes g))) in *. simpl in Hi1, He1, Hn1.
  unfold mbind at 1, M_bind at 1.
  destruct (announce_step env (n_path n) (λ g, expanding (n_path n) (n_dependencies n) g)
              ltac:(intros; by eapply expanding_ext) g1 Hi1) as (Hi2 & He2 & Hx2).
  { split; [|by exists n]. intros Hnames. right. apply (gi_paths _ _ Hi1 Hnames). by exists n. }
  assert (g_nodes (announce env (n_path n) g1).1 = g_nodes g1) as Hsame by apply announce_nodes.
  destruct (announce env (n_path n) g1) as [g2 [[]|e]]; [|done]. simpl in Hi2, He2, Hx2, Hsame.
  unfold mbind at 1, M_bind at 1. unfold resolve_children.
  destruct (each_m _ _ g2) as [g3 [[]|e]] eqn:Hch; [|done]. intros [= <- <-] Hq.
  apply (children_complete _ _ (n_dependencies n)) in Hch as [He3 Hch]; [|done..| |done|done].
  2:{ intros d s. by rewrite elem_of_bt_list. }
  apply (quiet_split g g2) in Hq as [_ Hq]; [|by eapply ext_trans|done].
  destruct (Hch Hq) as [Hnews Htargets]. split; [by eexists|].
  intros p m Hnone Hm. destruct (decide (p = n_path n)) as [->|Hne].
  - intros d Hdep. eapply Htargets; [|done]. destruct Hx2 as (_ & n2 & Hn2 & Hd2).
    destruct (ext_nodes _ _ He3 _ _ Hn2) as (n3 & Hn3 & Hev3). rewrite Hm in Hn3. injection Hn3 as <-.
    rewrite (ev_dependencies _ _ Hev3), Hd2 in Hdep. by apply elem_of_bt_keys.
  - apply (Hnews p m); [|done]. rewrite Hsame. simpl. by rewrite lookup_insert_ne.
Qed.

(** Reusing a placed package adds nothing. *)
Lemma reuse_outcome path optional dev g g' (r : option string) :
  (_ ← upgrade_reachability path optional dev; mret (Some path)) g = (g', Ok r) → outcome g g' r.
Proof using Type.
  intros [= <- <-]. split; [by eexists|]. apply news_complete_dom. intros p. simpl.
  by rewrite lookup_alter_is_Some.
Qed.

Lemma source_complete rec parent name spec source optional dev g g' r :
  rec_ok env rec → rec_complete rec → graph_inv env g → parent_ok parent g →
  DependencySource_parse spec = Some source →
  resolve_source_dependency env rec parent name spec source optional dev g = (g', Ok r) →
  quiet g g' → outcome g g' r.
Proof using CL Henv.
  intros Hok Hcomp Hi Hp Hparse. unfold resolve_source_dependency. cbv zeta.
  unfold mbind at 1, M_bind at 1, gets at 1.
  destruct (contains_key _ _) eqn:Hk; [intros; by eapply reuse_outcome|].
  apply contains_key_false in Hk.
  unfold mbind at 1, M_bind at 1, gets at 1. unfold mbind at 1, M_bind at 1, lift at 1.
  destruct (match source with DSPatch inner patch => _ | _ => _ end) as [res|e] eqn:Hres; [|done].
  assert (node_source_ok env (source_node (slot_path parent name) name res optional dev)) as Hsrc.
  { destruct source; try (eapply source_node_ok; [done|done|by apply map_err_Ok in Hres]).
    by eapply patch_node_ok. }
  intros Hrun. by apply (place_complete rec parent
    (source_node (slot_path parent name) name res optional dev) (slot_path parent name) optional dev).
Qed.

Lemma registry_complete rec parent name spec optional dev g g' r :
  rec_ok env rec → rec_complete rec → graph_inv env g → parent_ok parent g →
  place_registry env rec parent name spec optional dev g = (g', Ok r) →
  quiet g g' → outcome g g' r.
Proof using Henv.
  intros Hok Hcomp Hi Hp. unfold place_registry. cbv zeta.
  unfold mbind at 1, M_bind at 1, gets at 1.
  destruct (find_visible _ _ _ _); [intros; by eapply reuse_outcome|].
  unfold mbind at 1, M_bind at 1, gets at 1.
  destruct (g_nodes g !! slot_path parent name) as [selected|] eqn:Hfree.
  { destruct (request_matches _ _); [|done]. intros [= <- <-] _.
    split; [by eexists|apply news_complete_refl]. }
  unfold mbind at 1, M_bind at 1, gets at 1. unfold mbind at 1, M_bind at 1, lift at 1.
  destruct (select_artifact env g parent name spec) as [[a base]|e] eqn:Hsel; [|done].
  apply select_artifact_inv in Hsel as (-> & ps & pk & [Hurl Hsha]%resolved_artifact_ok).
  set (registry := e_registry_for_package env _).
  assert (node_source_ok env (fresh_node (slot_path parent name) name (ra_metadata a)
            (ra_tarball_url a) (ra_integrity a) optional dev (LSRegistry registry) false None None))
    as Hsrc.
  { simpl. split_and!; try done. apply (el_registry _ Henv). }
  intros Hrun. by apply (place_complete rec parent (fresh_node (slot_path parent name) name
    (ra_metadata a) (ra_tarball_url a) (ra_integrity a) optional dev (LSRegistry registry) false
    None None) (slot_path parent name) optional dev).
Qed.

Lemma resolve_dependency_news fuel : rec_complete (resolve_dependency env fuel).
Proof using L CL Henv Hws.
  induction fuel as [|fuel IH]; [done|].
  intros parent name spec optional dev g g' r Hi Hp. cbn [resolve_dependency]. unfold resolve_step.
  unfold mbind at 1, M_bind at 1, gets at 1. cbv zeta. rewrite Hws.
  pose proof (resolve_dependency_steps env Henv fuel) as Hok.
  destruct (DependencySource_parse _) as [source|] eqn:Hs; [by eapply source_complete|].
  by eapply registry_complete.
Qed.

End completeness.

Section witnesses.
Import SampleRegistry.

End witnesses.
