(* ===== verification/GcPolicy.v ===== *)
(** * [src/gc/policy.rs]: garbage-collection limits and selection *)

From S2P Require Export Machine.
From Stdlib Require Import Ascii.

Definition SECONDS_PER_MINUTE : N := 60.
Definition SECONDS_PER_HOUR : N := 60 * SECONDS_PER_MINUTE.
Definition SECONDS_PER_DAY : N := 24 * SECONDS_PER_HOUR.
Definition SECONDS_PER_WEEK : N := 7 * SECONDS_PER_DAY.
Definition DEFAULT_GRACE : Duration := from_secs (30 * SECONDS_PER_DAY).

Record PolicyError := mk_PolicyError { perr_input : string; perr_reason : string }.
#[global] Instance PolicyError_eq_dec : EqDecision PolicyError.
Proof. solve_decision. Defined.

Definition PolicyError_to_string (e : PolicyError) : string :=
  "invalid garbage-collection value `" +:+ perr_input e +:+ "`: " +:+ perr_reason e.

(** ** Command-line values *)

(** [take_while(is_ascii_digit)] and the rest. *)
Fixpoint span_digits (s : string) : string * string :=
  match s with
  | "" => ("", "")
  | String c s' =>
      if is_ascii_digit c then let '(a, b) := span_digits s' in (String c a, b) else ("", s)
  end.

Definition split_number_and_suffix (input : string) : result PolicyError (string * string) :=
  fail_if (negb (is_ascii input)) with_err (mk_PolicyError input "only ASCII input is accepted");
  let '(digits, suffix) := span_digits input in
  fail_if (is_empty digits || is_empty suffix) with_err
    (mk_PolicyError input "a positive integer and unit suffix are required");
  Ok (digits, suffix).

Definition parse_positive_integer (input digits : string) : result PolicyError N :=
  value ← ok_or (mk_PolicyError input "numeric value is too large") (parse_uint 64 digits);
  fail_if (value =? 0)%N with_err (mk_PolicyError input "value must be greater than zero");
  Ok value.

Definition duration_unit (suffix : string) : option N :=
  match suffix with
  | "s" => Some 1%N
  | "m" => Some SECONDS_PER_MINUTE
  | "h" => Some SECONDS_PER_HOUR
  | "d" => Some SECONDS_PER_DAY
  | "w" => Some SECONDS_PER_WEEK
  | _ => None
  end.

Definition parse_duration (input : string) : result PolicyError Duration :=
  p ← split_number_and_suffix input;
  let '(digits, suffix) := p in
  unit_seconds ← ok_or (mk_PolicyError input
    "expected a positive integer followed by s, m, h, d, or w (for example `30d`)")
    (duration_unit suffix);
  value ← parse_positive_integer input digits;
  seconds ← ok_or (mk_PolicyError input "duration is too large to represent safely")
              (checked_mul U64_MAX value unit_seconds);
  Ok (from_secs seconds).

Definition byte_unit (suffix : string) : option N :=
  match suffix with
  | "B" => Some 1%N
  | "KB" => Some 1000%N
  | "MB" => Some 1000000%N
  | "GB" => Some 1000000000%N
  | "TB" => Some 1000000000000%N
  | _ => None
  end.

Definition parse_byte_size (input : string) : result PolicyError N :=
  p ← split_number_and_suffix input;
  let '(digits, suffix) := p in
  multiplier ← ok_or (mk_PolicyError input
    "expected a positive integer followed by B, KB, MB, GB, or TB (for example `50GB`)")
    (byte_unit suffix);
  value ← parse_positive_integer input digits;
  bytes ← ok_or (mk_PolicyError input "size is too large to represent safely")
            (checked_mul U64_MAX value multiplier);
  fail_if (Z.to_N I64_MAX <? bytes)%N with_err (mk_PolicyError input
    "size exceeds the metadata database limit of 9223372036854775807 bytes");
  Ok bytes.

(** ** Selection *)

Inductive DeletionRank := RankPlan | RankGraph | RankDerived | RankImage | RankArtifact.

(** The derived [Ord] follows the declaration order. *)
Definition rank_index (r : DeletionRank) : N :=
  match r with
  | RankPlan => 0 | RankGraph => 1 | RankDerived => 2 | RankImage => 3 | RankArtifact => 4
  end.

Record PolicyCandidate := mk_PolicyCandidate {
  effective_access_ms : Z; deletion_rank : DeletionRank; object_id : string;
  size_bytes : N; protected : bool }.

Record GcPolicy := mk_GcPolicy { grace : Duration; max_size_bytes : option N }.
Definition GcPolicy_default : GcPolicy := mk_GcPolicy DEFAULT_GRACE None.

Record PolicyEvaluation := mk_PolicyEvaluation {
  selected : list PolicyCandidate; selected_bytes : N; remaining_bytes : N;
  cap_reachable : bool }.

(** Tuple comparison of access time, rank and identifier. *)
Definition candidate_leb (a b : PolicyCandidate) : bool :=
  if (effective_access_ms a <? effective_access_ms b)%Z then true
  else if (effective_access_ms b <? effective_access_ms a)%Z then false
  else if (rank_index (deletion_rank a) <? rank_index (deletion_rank b))%N then true
  else if (rank_index (deletion_rank b) <? rank_index (deletion_rank a))%N then false
  else String.leb (object_id a) (object_id b).

Definition eligible (cutoff : Z) (c : PolicyCandidate) : Prop :=
  protected c = false ∧ (effective_access_ms c <= cutoff)%Z.
#[global] Instance eligible_dec cutoff c : Decision (eligible cutoff c).
Proof. unfold eligible. apply _. Defined.

(** The selection loop, with the bytes still required. *)
Fixpoint select_loop (required : option N) (acc : list PolicyCandidate) (bytes : N)
    (l : list PolicyCandidate) : result PolicyError (list PolicyCandidate * N) :=
  match l with
  | [] => Ok (acc, bytes)
  | c :: l =>
      if match required with Some r => (r <=? bytes)%N | None => false end then Ok (acc, bytes)
      else
        bytes' ← ok_or (mk_PolicyError (object_id c)
                   "selected object sizes overflow the supported byte count")
                   (checked_add U64_MAX bytes (size_bytes c));
        select_loop required (acc ++ [c]) bytes' l
  end.

Definition evaluate (policy : GcPolicy) (now_ms : Z) (total_managed_bytes : N)
    (candidates : list PolicyCandidate) : result PolicyError PolicyEvaluation :=
  grace_ms ← ok_or (mk_PolicyError (pretty (as_millis (grace policy)) +:+ "ms")
               "grace period is too large to compare with timestamps")
               (i64_try_from (as_millis (grace policy)));
  cutoff ← ok_or (mk_PolicyError (pretty now_ms)
             "current time is earlier than the configured grace period")
             (i64_checked_sub now_ms grace_ms);
  let eligibles := sort_by candidate_leb (filter (eligible cutoff) candidates) in
  let required := (λ cap, saturating_sub total_managed_bytes cap) <$> max_size_bytes policy in
  st ← select_loop required [] 0 eligibles;
  let remaining := saturating_sub total_managed_bytes st.2 in
  Ok (mk_PolicyEvaluation st.1 st.2 remaining
        (match max_size_bytes policy with Some cap => (remaining <=? cap)%N | None => true end)).

(** ** Specification *)

Definition total_bytes (l : list PolicyCandidate) : N := foldr (λ c n, (size_bytes c + n)%N) 0%N l.

(** The instant before which an unprotected object may go. *)
Definition cutoff_of (policy : GcPolicy) (now_ms : Z) : Z :=
  now_ms - Z.of_N (as_millis (grace policy)).

(** ** Lemmas *)

Lemma candidate_leb_iff a b :
  candidate_leb a b = true ↔
  (effective_access_ms a < effective_access_ms b)%Z ∨
  (effective_access_ms a = effective_access_ms b ∧
   ((rank_index (deletion_rank a) < rank_index (deletion_rank b))%N ∨
    (rank_index (deletion_rank a) = rank_index (deletion_rank b) ∧
     String.leb (object_id a) (object_id b) = true))).
Proof.
  unfold candidate_leb.
  destruct (Z.ltb_spec (effective_access_ms a) (effective_access_ms b)); [split; [by left|done]|].
  destruct (Z.ltb_spec (effective_access_ms b) (effective_access_ms a)); [split; [done|lia]|].
  destruct (N.ltb_spec (rank_index (deletion_rank a)) (rank_index (deletion_rank b))).
  { split; [|done]. right. split; [lia|by left]. }
  destruct (N.ltb_spec (rank_index (deletion_rank b)) (rank_index (deletion_rank a))).
  { split; [done|lia]. }
  split.
  - intros H3. right. split; [lia|]. right. split; [lia|done].
  - intros [?|[_ [?|[_ ?]]]]; [lia|lia|done].
Qed.

Lemma candidate_leb_total a b : candidate_leb a b = true ∨ candidate_leb b a = true.
Proof.
  rewrite !candidate_leb_iff.
  destruct (Z.lt_trichotomy (effective_access_ms a) (effective_access_ms b)) as [|[He|]];
    [by left; left| |by right; left].
  destruct (N.lt_trichotomy (rank_index (deletion_rank a)) (rank_index (deletion_rank b)))
    as [|[Hr|]]; [by left; right; split; [|left]| |by right; right; split; [|left]].
  destruct (leb_total_s (object_id a) (object_id b)); [left|right]; right; split; try done; right;
    by split.
Qed.

Lemma candidate_leb_trans a b c :
  candidate_leb a b = true → candidate_leb b c = true → candidate_leb a c = true.
Proof.
  rewrite !candidate_leb_iff.
  intros [?|[? [?|[? H1]]]] [?|[? [?|[? H2]]]]; try (left; lia);
    right; (split; [lia|]); try (left; lia).
  right. split; [lia|]. by eapply leb_trans_s.
Qed.

Lemma candidate_leb_antisym a b :
  candidate_leb a b = true → candidate_leb b a = true → object_id a = object_id b.
Proof.
  rewrite !candidate_leb_iff.
  intros [?|[? [?|[? H1]]]] [?|[? [?|[? H2]]]]; try lia. by apply leb_antisym_s.
Qed.

Lemma total_bytes_app l1 l2 : total_bytes (l1 ++ l2) = (total_bytes l1 + total_bytes l2)%N.
Proof. induction l1 as [|c l1 IH]; simpl; [done|]. unfold total_bytes in *. simpl. lia. Qed.

(** What the loop returns: a prefix whose bytes are exact; every shorter prefix
    was below the requirement; and it stops early only when the requirement is
    met. *)
Lemma select_loop_spec required acc bytes l sel n :
  select_loop required acc bytes l = Ok (sel, n) →
  ∃ pre post, l = pre ++ post ∧ sel = acc ++ pre ∧ n = (bytes + total_bytes pre)%N ∧
    (bytes <= U64_MAX → n <= U64_MAX)%N ∧
    (∀ p c q, pre = p ++ c :: q →
       ∀ r, required = Some r → (bytes + total_bytes p < r)%N) ∧
    (post = [] ∨ ∃ r, required = Some r ∧ (r <= n)%N).
Proof.
  revert acc bytes. induction l as [|c l IH]; intros acc bytes; simpl.
  - intros [= <- <-]. exists [], []. unfold total_bytes. simpl.
    split_and!; [done|by rewrite app_nil_r|lia|lia|by intros [] ? ?|by left].
  - destruct (match required with Some r => (r <=? bytes)%N | None => false end) eqn:Hstop.
    + intros [= <- <-]. exists [], (c :: l). unfold total_bytes. simpl.
      split_and!; [done|by rewrite app_nil_r|lia|lia|by intros [] ? ?|].
      right. destruct required as [r|]; [|done]. exists r. split; [done|]. by apply N.leb_le.
    + intros (b & [-> Hb]%ok_or_Ok%checked_add_Some & Hl)%bind_Ok.
      destruct (IH _ _ Hl) as (pre & post & -> & -> & -> & Hmax & Hmin & Hend).
      exists (c :: pre), post. split_and!; [done|by rewrite <- app_assoc| | | |done].
      * unfold total_bytes. simpl. lia.
      * intros _. by apply Hmax.
      * intros p d q Heq r Hr. destruct p as [|e p]; simpl in Heq; injection Heq as <- Heq.
        -- rewrite Hr in Hstop. apply N.leb_gt in Hstop. unfold total_bytes. simpl. lia.
        -- specialize (Hmin p d q Heq r Hr). unfold total_bytes in *. simpl. lia.
Qed.

Lemma select_loop_Err required acc bytes l e :
  select_loop required acc bytes l = Err e → (U64_MAX < bytes + total_bytes l)%N.
Proof.
  revert acc bytes. induction l as [|c l IH]; intros acc bytes; simpl; [done|].
  destruct (match required with Some r => (r <=? bytes)%N | None => false end); [done|].
  intros [[Hn _]%ok_or_Err|(b & [-> Hb]%ok_or_Ok%checked_add_Some & Hl)]%bind_Err.
  - unfold checked_add in Hn. destruct (N.leb_spec (bytes + size_bytes c) U64_MAX); [done|].
    unfold total_bytes. simpl. lia.
  - apply IH in Hl. unfold total_bytes in *. simpl. lia.
Qed.

Lemma evaluate_inv policy now total candidates r :
  evaluate policy now total candidates = Ok r →
  (Z.of_N (as_millis (grace policy)) <= I64_MAX)%Z ∧
  (I64_MIN <= cutoff_of policy now <= I64_MAX)%Z ∧
  select_loop ((λ cap, saturating_sub total cap) <$> max_size_bytes policy) [] 0
    (sort_by candidate_leb (filter (eligible (cutoff_of policy now)) candidates))
    = Ok (selected r, selected_bytes r) ∧
  remaining_bytes r = (total - selected_bytes r)%N ∧
  cap_reachable r = match max_size_bytes policy with
                    | Some cap => (remaining_bytes r <=? cap)%N
                    | None => true
                    end.
Proof.
  unfold evaluate, cutoff_of. intros (g & Hg%ok_or_Ok & H)%bind_Ok.
  unfold i64_try_from in Hg.
  destruct (Z.leb_spec (Z.of_N (as_millis (grace policy))) I64_MAX); [|done]. injection Hg as <-.
  apply bind_Ok in H as (cutoff & [-> Hc]%ok_or_Ok%i64_checked_sub_Some & H).
  cbv zeta in H. apply bind_Ok in H as ([sel n] & Hl & [= <-]). split_and!; simpl; [done|lia|lia|exact Hl|done|done].
Qed.

(** Numerals with a unit. *)
Lemma span_digits_spec s :
  s = (span_digits s).1 +:+ (span_digits s).2 ∧
  all_chars is_ascii_digit (span_digits s).1 = true ∧
  match (span_digits s).2 with "" => True | String c _ => is_ascii_digit c = false end.
Proof.
  induction s as [|c s (IH1 & IH2 & IH3)]; [done|]. simpl.
  destruct (is_ascii_digit c) eqn:Hc; [|done].
  destruct (span_digits s) as [a b]. simpl in *. rewrite app_cons_s, <- IH1, Hc. done.
Qed.

Lemma span_digits_app a b :
  all_chars is_ascii_digit a = true →
  match b with "" => True | String c _ => is_ascii_digit c = false end →
  span_digits (a +:+ b) = (a, b).
Proof.
  induction a as [|c a IH]; intros Ha Hb.
  - rewrite app_nil_l_s. destruct b as [|c b]; [done|]. simpl. by rewrite Hb.
  - simpl in Ha. apply andb_true_iff in Ha as [Hc Ha]. rewrite app_cons_s. simpl.
    by rewrite Hc, IH.
Qed.

Lemma is_ascii_digits a : all_chars is_ascii_digit a = true → is_ascii a = true.
Proof.
  apply all_chars_impl. intros c Hc. unfold is_ascii_digit in Hc. apply in_range_true in Hc.
  apply N.ltb_lt. lia.
Qed.

Lemma U64_bits n : (n < 2 ^ 64)%N ↔ (n <= U64_MAX)%N.
Proof. change (2 ^ 64)%N with 18446744073709551616%N. unfold U64_MAX. lia. Qed.

Lemma parse_positive_integer_bound input digits v :
  parse_positive_integer input digits = Ok v → (0 < v <= U64_MAX)%N.
Proof.
  unfold parse_positive_integer. intros (w & Hw%ok_or_Ok & H)%bind_Ok.
  destruct (N.eqb_spec w 0); [done|]. injection H as <-. apply parse_uint_bound, U64_bits in Hw.
  lia.
Qed.

Lemma split_unit (n : N) unit :
  is_ascii unit = true →
  match unit with "" => False | String c _ => is_ascii_digit c = false end →
  split_number_and_suffix (pretty n +:+ unit) = Ok (pretty n, unit).
Proof.
  intros Ha Hu. unfold split_number_and_suffix.
  assert (is_ascii (pretty n +:+ unit) = true) as ->.
  { unfold is_ascii in *. rewrite all_chars_app, Ha, andb_true_r.
    apply (is_ascii_digits (pretty n)), pretty_N_digits. }
  rewrite span_digits_app; [|apply pretty_N_digits|by destruct unit].
  pose proof (pretty_N_nonempty n) as Hne%is_empty_false. cbn [negb]. rewrite Hne.
  by destruct unit.
Qed.

Lemma byte_unit_text unit m :
  byte_unit unit = Some m →
  (0 < m)%N ∧ is_ascii unit = true ∧
  match unit with "" => False | String c _ => is_ascii_digit c = false end.
Proof.
  unfold byte_unit. intros H. repeat case_match; try done; by injection H as <-.
Qed.

Lemma duration_unit_text unit m :
  duration_unit unit = Some m →
  (0 < m)%N ∧ is_ascii unit = true ∧
  match unit with "" => False | String c _ => is_ascii_digit c = false end.
Proof.
  unfold duration_unit. intros H. repeat case_match; try done; by injection H as <-.
Qed.

Lemma parse_positive_pretty input (n : N) :
  (0 < n <= U64_MAX)%N → parse_positive_integer input (pretty n) = Ok n.
Proof.
  intros Hn. unfold parse_positive_integer. rewrite parse_uint_pretty by (apply U64_bits; lia).
  simpl. destruct (N.eqb_spec n 0); [lia|done].
Qed.

(** ** Properties *)

(** Garbage collection never deletes what it must keep: every selected object
    is unprotected and was last used at or before the grace cutoff, whatever
    the size cap; the selection is a prefix of the eligible objects in
    (age, rank, id) order, with the exact byte count; with a cap no proper
    prefix of it would already have reached the cap, and it leaves an eligible
    object behind only once the cap is met, so an unreachable cap means that
    every eligible object was selected. *)
Theorem evaluate_selection policy now total candidates r :
  evaluate policy now total candidates = Ok r →
  (∀ c, c ∈ selected r → c ∈ candidates ∧ protected c = false ∧
     (effective_access_ms c + Z.of_N (as_millis (grace policy)) <= now)%Z) ∧
  (∃ rest, sort_by candidate_leb (filter (eligible (cutoff_of policy now)) candidates)
             = selected r ++ rest ∧
     (rest = [] ∨ ∃ cap, max_size_bytes policy = Some cap ∧
                    (total - selected_bytes r <= cap)%N)) ∧
  selected_bytes r = total_bytes (selected r) ∧ (selected_bytes r <= U64_MAX)%N ∧
  (∀ p c q cap, selected r = p ++ c :: q → max_size_bytes policy = Some cap →
     (cap < total - total_bytes p)%N) ∧
  (cap_reachable r = false → ∀ c, c ∈ candidates → eligible (cutoff_of policy now) c →
     c ∈ selected r).
Proof.
  intros (_ & _ & Hl & Hrem & Hcap)%evaluate_inv.
  destruct (select_loop_spec _ _ _ _ _ _ Hl)
    as (pre & rest & Heq & Hpre & Hn & Hmax & Hmin & Hend).
  simpl in Hpre. subst pre.
  assert (∀ c, c ∈ selected r ++ rest ↔ eligible (cutoff_of policy now) c ∧ c ∈ candidates)
    as Hin by (intros c; rewrite <- Heq, elem_of_sort_by; apply list_elem_of_filter).
  assert (rest = [] ∨ ∃ cap, max_size_bytes policy = Some cap ∧
            (total - selected_bytes r <= cap)%N) as Hrest.
  { destruct Hend as [->|(req & Hreq & Hle)]; [by left|right].
    destruct (max_size_bytes policy) as [cap|]; [|done]. exists cap. split; [done|].
    injection Hreq as <-. unfold saturating_sub in Hle. lia. }
  split_and!.
  - intros c Hc. destruct (proj1 (Hin c)) as [[Hp Ha] Hcand]; [set_solver|].
    unfold cutoff_of in Ha. split_and!; [done|done|lia].
  - by exists rest.
  - rewrite Hn. lia.
  - apply Hmax. unfold U64_MAX. lia.
  - intros p c q cap Hsel Hc. specialize (Hmin p c q Hsel).
    rewrite Hc in Hmin. specialize (Hmin _ eq_refl). unfold saturating_sub in Hmin. lia.
  - intros Hno c Hc He. destruct Hrest as [->|(cap & Hc' & Hle)].
    + rewrite app_nil_r in Hin. by apply Hin.
    + rewrite Hcap, Hc', Hrem in Hno. apply N.leb_gt in Hno. lia.
Qed.

(** The selection does not depend on the order in which the store reports its
    objects: permuting candidates with distinct identifiers gives the same
    result, and evaluation fails only when the grace period or the cutoff does
    not fit a signed 64-bit timestamp or the eligible bytes overflow. *)
Theorem evaluate_order_independent policy now total c1 c2 :
  c1 ≡ₚ c2 → NoDup (object_id <$> c1) →
  evaluate policy now total c1 = evaluate policy now total c2 ∧
  match evaluate policy now total c1 with
  | Ok _ => True
  | Err _ =>
      (I64_MAX < Z.of_N (as_millis (grace policy)))%Z ∨
      (cutoff_of policy now < I64_MIN)%Z ∨ (I64_MAX < cutoff_of policy now)%Z ∨
      (U64_MAX < total_bytes (filter (eligible (cutoff_of policy now)) c1))%N
  end.
Proof.
  intros Hp Hnd. split.
  - unfold evaluate. destruct (ok_or _ (i64_try_from _)) as [g|]; [|done]. simpl.
    destruct (ok_or _ (i64_checked_sub now g)) as [cutoff|]; [|done]. simpl.
    assert (sort_by candidate_leb (filter (eligible cutoff) c1)
            = sort_by candidate_leb (filter (eligible cutoff) c2)) as ->; [|done].
    apply (sort_by_unique candidate_leb candidate_leb_total candidate_leb_trans object_id).
    + intros x y H1 H2. by apply candidate_leb_antisym.
    + by rewrite Hp.
    + eapply sublist_NoDup; [exact Hnd|]. apply fmap_sublist, sublist_filter.
  - destruct (evaluate policy now total c1) as [|e] eqn:He; [done|]. unfold evaluate in He.
    apply bind_Err in He as [[Hg _]%ok_or_Err|(g & Hg%ok_or_Ok & He)].
    { unfold i64_try_from in Hg.
      destruct (Z.leb_spec (Z.of_N (as_millis (grace policy))) I64_MAX); [done|by left]. }
    unfold i64_try_from in Hg.
    destruct (Z.leb_spec (Z.of_N (as_millis (grace policy))) I64_MAX); [|done]. injection Hg as <-.
    apply bind_Err in He as [[Hc _]%ok_or_Err|(cutoff & [-> _]%ok_or_Ok%i64_checked_sub_Some & He)].
    { unfold i64_checked_sub in Hc. unfold cutoff_of.
      destruct (Z.leb_spec I64_MIN (now - Z.of_N (as_millis (grace policy))));
        [|by right; left]. simpl in Hc.
      destruct (Z.leb_spec (now - Z.of_N (as_millis (grace policy))) I64_MAX); [done|].
      by right; right; left. }
    cbv zeta in He. apply bind_Err in He as [He|(? & _ & ?)]; [|done].
    apply select_loop_Err in He. right; right; right.
    fold (cutoff_of policy now) in He.
    assert (∀ l1 l2, l1 ≡ₚ l2 → total_bytes l1 = total_bytes l2) as Htot.
    { induction 1; unfold total_bytes in *; simpl; lia. }
    rewrite (Htot _ _ (sort_by_perm candidate_leb _)) in He. lia.
Qed.

(** Size and age limits are parsed exactly: a printed positive number with a
    known unit yields that many bytes (or seconds) when it fits and an error
    when it does not, and no text at all yields a size of zero or one above the
    signed 64-bit limit of the metadata database. *)
Theorem limits_parse_exact (n : N) unit m :
  (0 < n <= U64_MAX)%N →
  (byte_unit unit = Some m →
     ok (parse_byte_size (pretty n +:+ unit)) =
       if (n * m <=? Z.to_N I64_MAX)%N then Some (n * m)%N else None) ∧
  (duration_unit unit = Some m →
     ok (parse_duration (pretty n +:+ unit)) =
       if (n * m <=? U64_MAX)%N then Some (from_secs (n * m)) else None) ∧
  ∀ s b, parse_byte_size s = Ok b → (0 < b <= Z.to_N I64_MAX)%N.
Proof.
  intros Hn. split_and!.
  - intros Hm. pose proof (byte_unit_text _ _ Hm) as (Hpos & Ha & Hu).
    unfold parse_byte_size. rewrite split_unit by done. cbn [mbind result_bind].
    rewrite Hm. cbn [ok_or mbind result_bind]. rewrite parse_positive_pretty by done.
    cbn [mbind result_bind]. unfold checked_mul.
    destruct (N.leb_spec (n * m) U64_MAX); cbn [ok_or mbind result_bind].
    + destruct (N.ltb_spec (Z.to_N I64_MAX) (n * m)), (N.leb_spec (n * m) (Z.to_N I64_MAX));
        try lia; done.
    + destruct (N.leb_spec (n * m) (Z.to_N I64_MAX)) as [Hle|]; [|done].
      unfold U64_MAX, I64_MAX in *. lia.
  - intros Hm. pose proof (duration_unit_text _ _ Hm) as (Hpos & Ha & Hu).
    unfold parse_duration. rewrite split_unit by done. cbn [mbind result_bind].
    rewrite Hm. cbn [ok_or mbind result_bind]. rewrite parse_positive_pretty by done.
    cbn [mbind result_bind]. unfold checked_mul.
    by destruct (n * m <=? U64_MAX)%N.
  - intros s b. unfold parse_byte_size. intros ([d u] & _ & H)%bind_Ok.
    apply bind_Ok in H as (k & Hk%ok_or_Ok & H). apply byte_unit_text in Hk as [Hk _].
    apply bind_Ok in H as (v & Hv%parse_positive_integer_bound & H).
    apply bind_Ok in H as (p & [-> _]%ok_or_Ok%checked_mul_Some & H).
    destruct (N.ltb_spec (Z.to_N I64_MAX) (v * k)); [done|]. injection H as <-. nia.
Qed.

(** ** Witnesses *)

Definition sample_candidates : list PolicyCandidate :=
  [mk_PolicyCandidate 50 RankArtifact "new" 10 false;
   mk_PolicyCandidate 1 RankArtifact "old" 10 false;
   mk_PolicyCandidate 1 RankPlan "plan" 5 false;
   mk_PolicyCandidate 0 RankPlan "leased" 7 true].
Definition sample_policy : GcPolicy := mk_GcPolicy (from_millis 10) (Some 30%N).

Lemma evaluate_selection_witness :
  match evaluate sample_policy 40 35 sample_candidates with
  | Ok r => (object_id <$> selected r) = ["plan"] ∧ selected_bytes r = total_bytes (selected r)
  | Err _ => False
  end.
Proof.
  assert ((λ r, object_id <$> selected r) <$> ok (evaluate sample_policy 40 35 sample_candidates)
          = Some ["plan"]) as Hs by (vm_compute; reflexivity).
  destruct (evaluate sample_policy 40 35 sample_candidates) as [r|e] eqn:He; [|discriminate Hs].
  split; [injection Hs as Hs; exact Hs|].
  exact (proj1 (proj2 (proj2 (evaluate_selection _ _ _ _ _ He)))).
Defined.

Lemma evaluate_order_independent_witness :
  evaluate sample_policy 40 35 sample_candidates
    = evaluate sample_policy 40 35 (reverse sample_candidates).
Proof.
  refine (proj1 (evaluate_order_independent _ _ _ _ _ _ _)).
  - symmetry. apply reverse_Permutation.
  - decided.
Defined.

Lemma limits_parse_exact_witness :
  ok (parse_byte_size (pretty 50%N +:+ "GB")) = Some 50000000000%N.
Proof.
  assert (0 < 50 <= U64_MAX)%N as Hn by (split; [reflexivity|discriminate]).
  pose proof (proj1 (limits_parse_exact 50 "GB" 1000000000 Hn) eq_refl) as H.
  rewrite H. vm_compute. reflexivity.
Defined.
