(* ===== verification/Metadata.v ===== *)
(** * [src/metadata/repository.rs]: the rebuildable index of the store

    The SQLite tables as maps, with the foreign keys, the uniqueness and check
    constraints of [src/metadata/schema.rs] enforced by every statement; the
    transactions of the repository over them; leases, the reconciliation with
    the files, and garbage collection.  The five object tables have the same
    key and columns and are one map by [ObjectKey]; the columns [complete] (of
    graphs) and [graph_id] (of plans) are [None] elsewhere.  A project's integer
    id is its path key.  The store's files are the objects at their canonical
    paths; the clock, the lease nonces and what other processes do between two
    steps are arguments. *)

From S2P Require Export StateError Machine FileTree DerivedStore GcPolicy.
From Stdlib Require Import Ascii.

(** ** Keys *)

Inductive ObjectKind := KArtifact | KImage | KDerived | KGraph | KPlan.
#[global] Instance ObjectKind_eq_dec : EqDecision ObjectKind.
Proof. solve_decision. Defined.

Definition kind_str (k : ObjectKind) : string :=
  match k with
  | KArtifact => "artifact" | KImage => "image" | KDerived => "derived"
  | KGraph => "graph" | KPlan => "plan"
  end.
(** The derived [Ord]. *)
Definition kind_rank (k : ObjectKind) : nat :=
  match k with KArtifact => 0 | KImage => 1 | KDerived => 2 | KGraph => 3 | KPlan => 4 end.

Inductive ObjectKey :=
  | OArtifact (id : string) | OImage (id : string) | ODerived (id : string)
  | OGraph (id : string) | OPlan (id : string).
#[global] Instance ObjectKey_eq_dec : EqDecision ObjectKey.
Proof. solve_decision. Defined.

Definition key_of (k : ObjectKind) (id : string) : ObjectKey :=
  match k with
  | KArtifact => OArtifact id | KImage => OImage id | KDerived => ODerived id
  | KGraph => OGraph id | KPlan => OPlan id
  end.
Definition key_kind (k : ObjectKey) : ObjectKind :=
  match k with
  | OArtifact _ => KArtifact | OImage _ => KImage | ODerived _ => KDerived
  | OGraph _ => KGraph | OPlan _ => KPlan
  end.
Definition key_id (k : ObjectKey) : string :=
  match k with OArtifact id | OImage id | ODerived id | OGraph id | OPlan id => id end.

Definition kind_of_rank (n : nat) : ObjectKind :=
  match n with 0 => KArtifact | 1 => KImage | 2 => KDerived | 3 => KGraph | _ => KPlan end.
#[global] Instance ObjectKey_countable : Countable ObjectKey.
Proof.
  apply (inj_countable' (λ k, (kind_rank (key_kind k), key_id k))
           (λ p, key_of (kind_of_rank p.1) p.2)).
  intros []; reflexivity.
Defined.

Definition key_leb (a b : ObjectKey) : bool :=
  if (kind_rank (key_kind a) <? kind_rank (key_kind b))%nat then true
  else (kind_rank (key_kind a) =? kind_rank (key_kind b))%nat && String.leb (key_id a) (key_id b).

(** Violations of the schema's constraints. *)
Inductive sql_violation := ForeignKey | Unique | CheckFailed.
#[global] Instance sql_violation_eq_dec : EqDecision sql_violation.
Proof. solve_decision. Defined.
Inductive MetadataError :=
  | InvalidId (kind id : string)
  | MissingObject (kind id : string)
  | InvalidProjectRoot (root : string)
  | InvalidLeaseOptions
  | LeaseLost
  | Clock
  | TimeOverflow
  | Io
  | Sql (v : sql_violation).
#[global] Instance MetadataError_eq_dec : EqDecision MetadataError.
Proof. solve_decision. Defined.

Definition id_length (k : ObjectKind) : nat :=
  match k with KArtifact | KImage => 128 | KDerived | KGraph | KPlan => 64 end.
Definition is_lower_hex (c : ascii) : bool := is_ascii_digit c || in_range 97 102 c.
Definition validate_id (k : ObjectKind) (id : string) : result MetadataError () :=
  if (strlen id =? id_length k)%nat && all_chars is_lower_hex id then Ok ()
  else Err (InvalidId (kind_str k) id).

(** [ObjectKey::new]. *)
Definition ObjectKey_new (k : ObjectKind) (id : string) : result MetadataError ObjectKey :=
  _ ← validate_id k id; Ok (key_of k id).

Definition namespace (k : ObjectKind) : string :=
  match k with
  | KArtifact => "artifacts/sha512" | KImage => "images/sha512" | KDerived => "derived/blake3"
  | KGraph => "graphs/blake3" | KPlan => "plans/blake3"
  end.
Definition key_suffix (k : ObjectKind) : string :=
  match k with KArtifact => ".tgz" | KPlan => ".json" | _ => "" end.
Definition relative_path (k : ObjectKey) : string :=
  namespace (key_kind k) +:+ "/" +:+ String.substring 0 2 (key_id k) +:+ "/" +:+ key_id k
  +:+ key_suffix (key_kind k).

(** [store_lock::lock_stem]. *)
Definition lock_stem (k : ObjectKey) : string :=
  match k with
  | OArtifact id => id | OImage id => "img-" +:+ id | ODerived id => "derived-" +:+ id
  | OGraph id => "graph-" +:+ id | OPlan id => "plan-" +:+ id
  end.

(** [canonical_keys]: sorted, without duplicates. *)
Definition canonical_keys (keys : list ObjectKey) : list ObjectKey := sort_by key_leb (remove_dups keys).

Definition canonical_ids (k : ObjectKind) (ids : list string) : result MetadataError (list string) :=
  _ ← each_res (validate_id k) ids;
  Ok (bs_list (list_to_set ids)).

(** Flags of equal ids are joined. *)
Definition canonical_artifact (m : gmap string bool) (v : string * bool)
    : result MetadataError (gmap string bool) :=
  _ ← validate_id KArtifact v.1;
  Ok (<[v.1 := default false (m !! v.1) || v.2]> m).
Definition canonical_artifacts (values : list (string * bool)) : result MetadataError (list (string * bool)) :=
  m ← fold_res canonical_artifact ∅ values; Ok (bt_list m).

(** ** Numbers *)

Definition sqlite_u64 (v : N) : result MetadataError Z := ok_or TimeOverflow (i64_try_from v).

Definition checked_add_duration (at_ : N) (d : Duration) : result MetadataError N :=
  millis ← ok_or TimeOverflow (if (as_millis d <=? U64_MAX)%N then Some (as_millis d) else None);
  ok_or TimeOverflow (checked_add U64_MAX at_ millis).

Record LeaseOptions := mk_LeaseOptions { ttl : Duration; renew_every : Duration }.
Definition DEFAULT_LEASE_TTL : Duration := from_secs 120.
Definition DEFAULT_RENEW_INTERVAL : Duration := from_secs 30.
Definition LeaseOptions_default : LeaseOptions := mk_LeaseOptions DEFAULT_LEASE_TTL DEFAULT_RENEW_INTERVAL.
Definition validate_lease_options (o : LeaseOptions) : result MetadataError () :=
  minimum ← ok_or InvalidLeaseOptions (duration_checked_mul (renew_every o) 3);
  if (renew_every o =? 0)%N || (ttl o <? minimum)%N then Err InvalidLeaseOptions else Ok ().

(** ** Tables *)

Record object_row := mk_object_row {
  or_rel_path : string; or_size : Z; or_published : Z;
  or_complete : option bool; or_graph : option string }.
Record project_row := mk_project_row { pj_display : string; pj_last_seen : Z }.
Record ref_row := mk_ref_row { rf_graph : string; rf_observed : Z }.
Record lease_row := mk_lease_row {
  ls_owner : string; ls_pid : N; ls_acquired : Z; ls_renewed : Z; ls_expires : Z }.

Record tables := mk_tables {
  t_objects : gmap ObjectKey object_row;
  t_graph_artifacts : gmap (string * string) bool;
  t_graph_derived : gset (string * string);
  t_projects : gmap string project_row;
  t_refs : gmap string ref_row;
  t_leases : gmap (string * ObjectKey) lease_row;
  t_access : gmap ObjectKey Z }.
Definition empty_tables : tables := mk_tables ∅ ∅ ∅ ∅ ∅ ∅ ∅.

Definition with_objects (t : tables) o : tables :=
  mk_tables o (t_graph_artifacts t) (t_graph_derived t) (t_projects t) (t_refs t) (t_leases t) (t_access t).
Definition with_graph_edges (t : tables) a d : tables :=
  mk_tables (t_objects t) a d (t_projects t) (t_refs t) (t_leases t) (t_access t).
Definition with_projects (t : tables) p r : tables :=
  mk_tables (t_objects t) (t_graph_artifacts t) (t_graph_derived t) p r (t_leases t) (t_access t).
Definition with_leases (t : tables) l : tables :=
  mk_tables (t_objects t) (t_graph_artifacts t) (t_graph_derived t) (t_projects t) (t_refs t) l (t_access t).
Definition with_access (t : tables) a : tables :=
  mk_tables (t_objects t) (t_graph_artifacts t) (t_graph_derived t) (t_projects t) (t_refs t) (t_leases t) a.

Definition has_object (t : tables) (k : ObjectKey) : bool := bool_decide (is_Some (t_objects t !! k)).

(** Some row satisfies a test. *)
Definition exists_row {K A} `{Countable K} (f : K → A → bool) (m : gmap K A) : bool :=
  existsb (λ kv, f kv.1 kv.2) (map_to_list m).

(** [rel_path] is unique in its table. *)
Definition rel_path_taken (t : tables) (k : ObjectKey) (rel : string) : bool :=
  exists_row (λ k' row, bool_decide (key_kind k' = key_kind k) && negb (bool_decide (k' = k))
                        && bool_decide (or_rel_path row = rel)) (t_objects t).

(** [INSERT ... ON CONFLICT(id) DO UPDATE]: the older publication time and the
    completeness of an existing row are kept.  The checks come before the
    uniqueness, the foreign key at the end of the statement. *)
Definition put_object (t : tables) (k : ObjectKey) (row : object_row) (foreign_key : bool)
    : result MetadataError tables :=
  fail_if negb (is_ok (validate_id (key_kind k) (key_id k))) with_err Sql CheckFailed;
  fail_if rel_path_taken t k (or_rel_path row) with_err Sql Unique;
  fail_if negb foreign_key with_err Sql ForeignKey;
  Ok (with_objects t
        (<[k := match t_objects t !! k with
                | None => row
                | Some old => mk_object_row (or_rel_path row) (or_size row)
                                (Z.min (or_published old) (or_published row)) (or_complete old)
                                (or_graph row)
                end]> (t_objects t))).

(** ** Objects and their statements *)

Record ObjectRecord := mk_ObjectRecord { rec_key : ObjectKey; rec_size : N; rec_published_at : N }.
Record GraphInventory := mk_GraphInventory { gi_artifacts : list (string * bool); gi_derived : list string }.
#[global] Instance GraphInventory_eq_dec : EqDecision GraphInventory.
Proof. solve_decision. Defined.
Record GraphRecord := mk_GraphRecord {
  grec_graph : ObjectRecord; grec_artifacts : list (string * bool); grec_derived : list string }.

Definition upsert_object (t : tables) (r : ObjectRecord) (plan_graph_id : option string)
    (graph_complete : option bool) : result MetadataError tables :=
  size ← sqlite_u64 (rec_size r);
  published ← sqlite_u64 (rec_published_at r);
  let k := rec_key r in
  let row := mk_object_row (relative_path k) size published in
  match k with
  | OArtifact _ | ODerived _ => put_object t k (row None None) true
  | OImage id => put_object t k (row None None) (has_object t k || has_object t (OArtifact id))
  | OGraph _ => put_object t k (row (Some (default false graph_complete)) None) true
  | OPlan id =>
      graph ← ok_or (InvalidId "plan graph" id) plan_graph_id;
      _ ← validate_id KGraph graph;
      put_object t k (row None (Some graph)) (has_object t (OGraph graph))
  end.

Definition set_graph_complete (t : tables) (graph : string) (complete : bool) : tables :=
  with_objects t
    (alter (λ row, mk_object_row (or_rel_path row) (or_size row) (or_published row) (Some complete)
                     (or_graph row)) (OGraph graph) (t_objects t)).

Definition delete_edges (t : tables) (graph : string) : tables :=
  with_graph_edges t (filter (λ e : string * string * bool, e.1.1 ≠ graph) (t_graph_artifacts t))
    (filter (λ e : string * string, e.1 ≠ graph) (t_graph_derived t)).

Definition insert_artifact_edge (graph : string) (t : tables) (a : string * bool)
    : result MetadataError tables :=
  fail_if bool_decide (is_Some (t_graph_artifacts t !! (graph, a.1))) with_err Sql Unique;
  fail_if negb (has_object t (OGraph graph) && has_object t (OArtifact a.1)) with_err Sql ForeignKey;
  Ok (with_graph_edges t (<[(graph, a.1) := a.2]> (t_graph_artifacts t)) (t_graph_derived t)).

Definition insert_derived_edge (graph : string) (t : tables) (id : string) : result MetadataError tables :=
  fail_if bool_decide ((graph, id) ∈ t_graph_derived t) with_err Sql Unique;
  fail_if negb (has_object t (OGraph graph) && has_object t (ODerived id)) with_err Sql ForeignKey;
  Ok (with_graph_edges t (t_graph_artifacts t) ({[ (graph, id) ]} ∪ t_graph_derived t)).

(** [upsert_graph_edges]: the edges of a graph are replaced. *)
Definition upsert_graph_edges (t : tables) (graph : string) (artifacts : list (string * bool))
    (derived : list string) : result MetadataError tables :=
  t ← fold_res (insert_artifact_edge graph) (delete_edges t graph) artifacts;
  fold_res (insert_derived_edge graph) t derived.

Definition upsert_access (t : tables) (k : ObjectKey) (at_ : N) : result MetadataError tables :=
  ms ← sqlite_u64 at_;
  Ok (with_access t (<[k := match t_access t !! k with Some old => Z.max old ms | None => ms end]>
                       (t_access t))).

Definition upsert_project_ref (t : tables) (path_key display graph : string) (at_ : N)
    : result MetadataError tables :=
  ms ← sqlite_u64 at_;
  let project := match t_projects t !! path_key with
                 | Some old => mk_project_row display (Z.max (pj_last_seen old) ms)
                 | None => mk_project_row display ms
                 end in
  let ref := match t_refs t !! path_key with
             | Some old => mk_ref_row (if (rf_observed old <? ms)%Z then graph else rf_graph old)
                             (Z.max (rf_observed old) ms)
             | None => mk_ref_row graph ms
             end in
  fail_if negb (has_object t (OGraph (rf_graph ref))) with_err Sql ForeignKey;
  Ok (with_projects t (<[path_key := project]> (t_projects t)) (<[path_key := ref]> (t_refs t))).

(** [DELETE FROM <table> WHERE id=?], with the actions of the foreign keys: an
    artifact takes its image along and is held by the edges of graphs, a graph
    takes its edges and plans along and is held by the projects at it. *)
Definition delete_object (t : tables) (k : ObjectKey) : result MetadataError tables :=
  if negb (has_object t k) then Ok t
  else
    match k with
    | OArtifact id =>
        fail_if exists_row (λ e _, bool_decide (e.2 = id)) (t_graph_artifacts t) with_err Sql ForeignKey;
        Ok (with_objects t (delete (OImage id) (delete k (t_objects t))))
    | ODerived id =>
        fail_if bool_decide (Exists (λ e : string * string, e.2 = id) (elements (t_graph_derived t)))
          with_err Sql ForeignKey;
        Ok (with_objects t (delete k (t_objects t)))
    | OGraph id =>
        fail_if exists_row (λ _ r, bool_decide (rf_graph r = id)) (t_refs t) with_err Sql ForeignKey;
        Ok (delete_edges
              (with_objects t (filter (λ kv : ObjectKey * object_row, or_graph kv.2 ≠ Some id)
                                 (delete k (t_objects t)))) id)
    | OImage _ | OPlan _ => Ok (with_objects t (delete k (t_objects t)))
    end.

(** ** Files *)

(** [VolumeMeta] of [src/volume.rs], as far as the inventory goes. *)
Record VolumeMeta := mk_VolumeMeta {
  vm_inventory_version : N; vm_artifacts : list (string * bool); vm_derived : list string }.
Definition INVENTORY_VERSION : N := 1.
Definition valid_hex (value : string) (expected_len : nat) : bool :=
  (strlen value =? expected_len)%nat && all_chars is_lower_hex value.
(** [Ord] of pairs of an identifier and a flag. *)
Definition inventory_leb (a b : string * bool) : bool :=
  if bool_decide (a.1 = b.1) then implb a.2 b.2 else String.leb a.1 b.1.
Definition parse_graph_inventory (meta : VolumeMeta) : option GraphInventory :=
  if negb (forallb (λ e, valid_hex e.1 128) (vm_artifacts meta)) then None
  else if negb (bool_decide (NoDup (vm_artifacts meta).*1)) then None
  else if negb (forallb (λ id, valid_hex id 64) (vm_derived meta)) then None
  else if negb (bool_decide (NoDup (vm_derived meta))) then None
  else Some (mk_GraphInventory (sort_by inventory_leb (vm_artifacts meta)) (sort_by String.leb (vm_derived meta))).

(** An object at its canonical path: its size and modification time, the graph
    a plan names when it is a JSON file that names one, and the marker of a
    graph with its length and what it parses to. *)
Record fs_object := mk_fs_object {
  fo_size : N; fo_modified : N; fo_plan_graph : option string; fo_marker : option (N * option VolumeMeta) }.

Definition read_graph_inventory (o : fs_object) : option GraphInventory :=
  '(_, parsed) ← fo_marker o;
  meta ← parsed;
  if (vm_inventory_version meta <? INVENTORY_VERSION)%N then None else parse_graph_inventory meta.

Definition plan_graph_id (o : fs_object) : option string :=
  graph ← fo_plan_graph o; if is_ok (validate_id KGraph graph) then Some graph else None.

Record RegistrationFile := mk_RegistrationFile {
  reg_version : N; reg_root : string; reg_graph : string; reg_updated : N }.

Record repo := mk_repo {
  rp_tables : tables; rp_files : gmap ObjectKey fs_object; rp_regs : gmap string RegistrationFile }.

Definition with_tables (s : repo) (t : tables) : repo := mk_repo t (rp_files s) (rp_regs s).
Definition with_files (s : repo) (f : gmap ObjectKey fs_object) : repo := mk_repo (rp_tables s) f (rp_regs s).

(** An image counts as published only beside its artifact. *)
Definition is_published (files : gmap ObjectKey fs_object) (k : ObjectKey) : bool :=
  bool_decide (is_Some (files !! k)) &&
  match k with OImage id => bool_decide (is_Some (files !! OArtifact id)) | _ => true end.

Definition ensure_published (k : ObjectKey) : M repo MetadataError () := λ s,
  if is_published (rp_files s) k then (s, Ok ())
  else (s, Err (MissingObject (kind_str (key_kind k)) (key_id k))).

(** A transaction commits what it computed or nothing. *)
Definition transact {A} (f : tables → result MetadataError (tables * A)) : M repo MetadataError A := λ s,
  match f (rp_tables s) with
  | Ok (t, a) => (with_tables s t, Ok a)
  | Err e => (s, Err e)
  end.
Definition transact_ (f : tables → result MetadataError tables) : M repo MetadataError () :=
  transact (λ t, (λ t, (t, ())) <$> f t).
