(* ===== verification/MetadataRepo.v ===== *)
(** * [src/metadata/repository.rs], [src/metadata/install.rs]: the operations

    Publications, project references, leases, reconciliation with the files
    and collection, each a function of the repository's state.  The clock, the
    lease nonces and the process id are arguments, as are the BLAKE3 key of a
    registration and the current directory; failures of the file system are
    modelled where the collector meets them. *)

From S2P Require Export Metadata.
From Stdlib Require Import Ascii.

Notation io A := (M repo MetadataError A).

(** ** Publications *)

Definition publish_object (r : ObjectRecord) (graph : option string) (complete : option bool) (at_ : N)
    (t : tables) : result MetadataError tables :=
  t ← upsert_object t r graph complete; upsert_access t (rec_key r) at_.

Definition record_publication (r : ObjectRecord) : io () :=
  _ ← ensure_published (rec_key r);
  transact_ (publish_object r None None (rec_published_at r)).

Definition record_plan_publication (r : ObjectRecord) (graph_id : string) : io () :=
  match rec_key r with
  | OPlan _ =>
      graph ← lift (ObjectKey_new KGraph graph_id);
      _ ← ensure_published (rec_key r);
      _ ← ensure_published graph;
      transact_ (publish_object r (Some graph_id) None (rec_published_at r))
  | k => throw (InvalidId "plan" (key_id k))
  end.

Definition record_graph_publication (r : GraphRecord) : io () :=
  match rec_key (grec_graph r) with
  | OGraph id =>
      _ ← ensure_published (OGraph id);
      artifacts ← lift (canonical_artifacts (grec_artifacts r));
      derived ← lift (canonical_ids KDerived (grec_derived r));
      _ ← each_m (λ a : string * bool, k ← lift (ObjectKey_new KArtifact a.1); ensure_published k) artifacts;
      _ ← each_m (λ d : string, k ← lift (ObjectKey_new KDerived d); ensure_published k) derived;
      transact_ (λ t,
        t ← upsert_object t (grec_graph r) None (Some true);
        t ← upsert_graph_edges (set_graph_complete t id true) id artifacts derived;
        upsert_access t (OGraph id) (rec_published_at (grec_graph r)))
  | k => throw (InvalidId "graph" (key_id k))
  end.

Definition record_access (keys : list ObjectKey) (at_ : N) : io () :=
  let keys := canonical_keys keys in
  _ ← each_m ensure_published keys;
  transact_ (λ t, fold_res (λ t k, upsert_access t k at_) t keys).

(** The file an operation has just seen published. *)
Definition file_of (k : ObjectKey) : io fs_object :=
  files ← gets rp_files; lift (ok_or Io (files !! k)).

Definition record_published_object (k : ObjectKey) (now : N) : io () :=
  _ ← ensure_published k;
  file ← file_of k;
  transact_ (publish_object (mk_ObjectRecord k (fo_size file) (fo_modified file)) None None now).

(** The record of an indexed object; plans are not looked up. *)
Definition existing_object_record (t : tables) (k : ObjectKey) : option ObjectRecord :=
  match k with
  | OPlan _ => None
  | _ => row ← t_objects t !! k;
         Some (mk_ObjectRecord k (Z.to_N (or_size row)) (Z.to_N (or_published row)))
  end.

Definition record_to_publish (k : ObjectKey) : io ObjectRecord :=
  t ← gets rp_tables;
  match existing_object_record t k with
  | Some r => mret r
  | None => file ← file_of k; mret (mk_ObjectRecord k (fo_size file) (fo_modified file))
  end.

Definition record_published_objects_batch (keys : list ObjectKey) (now : N) : io () :=
  match keys with
  | [] => mret ()
  | _ =>
      let keys := canonical_keys keys in
      _ ← each_m ensure_published keys;
      records ← fold_m (λ rs k, r ← record_to_publish k; mret (rs ++ [r])) [] keys;
      transact_ (λ t, fold_res (λ t r, publish_object r None None now t) t records)
  end.

Definition graph_already_complete (t : tables) (graph : string) : bool :=
  bool_decide ((t_objects t !! OGraph graph) ≫= or_complete = Some true).

Definition record_graph_with_inventory_and_size (graph : string) (inventory : GraphInventory)
    (contents_size_hint : option N) : io () :=
  k ← lift (ObjectKey_new KGraph graph);
  _ ← ensure_published k;
  t ← gets rp_tables;
  if graph_already_complete t graph then mret ()
  else
    file ← file_of k;
    size ← lift (match contents_size_hint with
                 | Some contents =>
                     marker ← ok_or Io (fo_marker file);
                     ok_or TimeOverflow (checked_add U64_MAX contents marker.1)
                 | None => Ok (fo_size file)
                 end);
    record_graph_publication
      (mk_GraphRecord (mk_ObjectRecord k size (fo_modified file)) (gi_artifacts inventory) (gi_derived inventory)).

(** Duplicates count; a key that is not indexed makes the sum unknown. *)
Fixpoint sum_recorded (t : tables) (total : N) (keys : list ObjectKey) : result MetadataError (option N) :=
  match keys with
  | [] => Ok (Some total)
  | k :: keys =>
      match existing_object_record t k with
      | None => Ok None
      | Some r =>
          total ← ok_or TimeOverflow (checked_add U64_MAX total (rec_size r));
          sum_recorded t total keys
      end
  end.
Definition recorded_logical_size_sum (t : tables) (keys : list ObjectKey) : result MetadataError (option N) :=
  sum_recorded t 0 keys.

(** [DerivedMetadata]: the row of a derived image, upserted from its record. *)
Definition upsert_derived (t : tables) (r : DerivedRecord) : result MetadataError tables :=
  _ ← validate_id KDerived (dr_id r);
  size ← sqlite_u64 (dr_size_bytes r);
  published ← sqlite_u64 (dr_published_at_ms r);
  put_object t (ODerived (dr_id r)) (mk_object_row (dr_rel_path r) size published None None) true.
Definition publish_derived (r : DerivedRecord) : io () := transact_ (λ t, upsert_derived t r).
Definition access_derived (r : DerivedRecord) (accessed_at : N) : io () :=
  transact_ (λ t, t ← upsert_derived t r; upsert_access t (ODerived (dr_id r)) accessed_at).

(** ** Project references *)

Section projects.
Variable cwd : string.
Variable registration_key : string → string.

(** The normalized path as its names. *)
Fixpoint lexical (acc : list string) (l : list component) : option (list string) :=
  match l with
  | [] => Some (rev acc)
  | Normal name :: l => lexical (name :: acc) l
  | RootDir :: l | CurDir :: l => lexical acc l
  | ParentDir :: l => match acc with [] => None | _ :: acc => lexical acc l end
  end.
Definition path_string (names : list string) : string := "/" +:+ join "/" names.
Definition is_absolute (path : string) : bool := starts_with_char "/" path.
Definition absolute_lexical (path : string) : result MetadataError (list string) :=
  ok_or (InvalidProjectRoot path)
    (lexical [] (components (if is_absolute path then path else cwd +:+ "/" +:+ path))).

(** Paths are compared by their components. *)
Definition is_normal (path : string) (names : list string) : bool :=
  bool_decide (components path = RootDir :: map Normal names).
Definition canonical_root (root : string) : result MetadataError string :=
  names ← absolute_lexical root;
  if is_normal root names then Ok (path_string names) else Err (InvalidProjectRoot root).

(** [path_key] tags the bytes of the path. *)
Definition path_key (path : string) : string := String "001" path.

Definition replace_project_graph_ref (root graph_id : string) (at_ : N) : io () :=
  canonical ← lift (canonical_root root);
  graph ← lift (ObjectKey_new KGraph graph_id);
  _ ← ensure_published graph;
  transact_ (λ t, upsert_project_ref t (path_key canonical) canonical graph_id at_).

Definition REGISTRATION_VERSION : N := 1.

Definition write_durable_registration (root graph_id : string) (now : N) : io () :=
  canonical ← lift (canonical_root root);
  _ ← lift (validate_id KGraph graph_id);
  modify (λ s, mk_repo (rp_tables s) (rp_files s)
    (<[registration_key canonical := mk_RegistrationFile REGISTRATION_VERSION canonical graph_id now]> (rp_regs s))).

(** A registration file is trusted when it names itself. *)
Definition trusted_registration (name : string) (r : RegistrationFile) : option (string * RegistrationFile) :=
  if negb (reg_version r =? REGISTRATION_VERSION)%N then None
  else
    canonical ← ok (canonical_root (reg_root r));
    if negb (bool_decide (registration_key canonical = name)) then None
    else if negb (is_ok (validate_id KGraph (reg_graph r))) then None
    else Some (canonical, r).

Fixpoint names_leb (a b : list string) : bool :=
  match a, b with
  | [], _ => true
  | _, [] => false
  | x :: a, y :: b => if bool_decide (x = y) then names_leb a b else String.leb x y
  end.
Definition registration_leb (a b : string * RegistrationFile) : bool :=
  if bool_decide (reg_graph a.2 = reg_graph b.2) then names_leb (split_char "/" a.1) (split_char "/" b.1)
  else String.leb (reg_graph a.2) (reg_graph b.2).
Definition scan_registration_files (regs : gmap string RegistrationFile) : list (string * RegistrationFile) :=
  sort_by registration_leb (omap (λ kv, trusted_registration kv.1 kv.2) (bt_list regs)).

Definition cached_graph_protection_current (s : repo) (root graph : string) : bool :=
  match canonical_root root with
  | Err _ => false
  | Ok canonical =>
      graph_already_complete (rp_tables s) graph
      && bool_decide (rf_graph <$> t_refs (rp_tables s) !! path_key canonical = Some graph)
      && bool_decide (reg_graph <$> rp_regs s !! registration_key canonical = Some graph)
  end.
End projects.

(** ** Leases *)

Definition insert_lease_row (lease owner : string) (pid : N) (now expires : N) (t : tables) (k : ObjectKey)
    : result MetadataError tables :=
  acquired ← sqlite_u64 now;
  expires ← sqlite_u64 expires;
  fail_if (expires <=? acquired)%Z with_err Sql CheckFailed;
  fail_if bool_decide (is_Some (t_leases t !! (lease, k))) with_err Sql Unique;
  Ok (with_leases t (<[(lease, k) := mk_lease_row owner pid acquired acquired expires]> (t_leases t))).
Definition insert_lease (lease owner : string) (pid : N) (keys : list ObjectKey) (now expires : N) : io () :=
  transact_ (λ t, fold_res (insert_lease_row lease owner pid now expires) t keys).

(** The rows a guard owns. *)
Definition owned (lease owner : string) (e : (string * ObjectKey) * lease_row) : Prop :=
  e.1.1 = lease ∧ ls_owner e.2 = owner.
#[global] Instance owned_dec lease owner e : Decision (owned lease owner e).
Proof. unfold owned. apply _. Defined.

Definition renew_row (now expires : Z) (r : lease_row) : lease_row :=
  mk_lease_row (ls_owner r) (ls_pid r) (ls_acquired r) now expires.
Definition renewable (lease owner : string) (now : Z) (e : (string * ObjectKey) * lease_row) : Prop :=
  owned lease owner e ∧ (now < ls_expires e.2)%Z.
#[global] Instance renewable_dec lease owner now e : Decision (renewable lease owner now e).
Proof. unfold renewable. apply _. Defined.

(** The checks of the table fail the whole update. *)
Definition renew_lease (lease owner : string) (now expires : N) : io bool :=
  transact (λ t,
    now ← sqlite_u64 now;
    expires ← sqlite_u64 expires;
    let mine := filter (owned lease owner) (t_leases t) in
    let live := filter (renewable lease owner now) (t_leases t) in
    fail_if exists_row (λ _ r, (now <? ls_acquired r) || (expires <=? now))%Z live with_err Sql CheckFailed;
    Ok (with_leases t ((renew_row now expires <$> live) ∪ t_leases t),
        (0 <? size mine)%nat && (size live =? size mine)%nat)).

Definition release_lease (lease owner : string) : io () :=
  transact_ (λ t, Ok (with_leases t (filter (λ e, ¬ owned lease owner e) (t_leases t)))).

Record LeaseGuard := mk_LeaseGuard {
  lg_lease : string; lg_owner : string; lg_pid : N; lg_keys : list ObjectKey; lg_ttl : Duration }.

Definition acquire_lease (lease owner : string) (pid : N) (keys : list ObjectKey) (options : LeaseOptions) (now : N)
    : io LeaseGuard :=
  _ ← lift (validate_lease_options options);
  let keys := canonical_keys keys in
  _ ← each_m ensure_published keys;
  expires ← lift (checked_add_duration now (ttl options));
  _ ← insert_lease lease owner pid keys now expires;
  mret (mk_LeaseGuard lease owner pid keys (ttl options)).

Definition extend (g : LeaseGuard) (keys : list ObjectKey) (now : N) : io LeaseGuard :=
  match filter (λ k, k ∉ lg_keys g) (canonical_keys keys) with
  | [] => mret g
  | new =>
      _ ← each_m ensure_published new;
      expires ← lift (checked_add_duration now (lg_ttl g));
      _ ← insert_lease (lg_lease g) (lg_owner g) (lg_pid g) new now expires;
      mret (mk_LeaseGuard (lg_lease g) (lg_owner g) (lg_pid g) (lg_keys g ++ new) (lg_ttl g))
  end.

(** The heartbeat: the expiry it last wrote, and whether it gave the lease up. *)
Record heartbeat := mk_heartbeat { hb_expiry : N; hb_lost : bool }.
Definition heartbeat_new (ttl : Duration) (now : option N) : heartbeat :=
  mk_heartbeat (match now with
                | Some now => match checked_add_duration now ttl with Ok e => e | Err _ => 0%N end
                | None => 0%N
                end) false.
(** One beat, that never fails: the error of a renewal is looked at, not raised. *)
Definition beat (g : LeaseGuard) (now : option N) (h : heartbeat) (s : repo) : repo * heartbeat :=
  if hb_lost h then (s, h)
  else
    match now with
    | None => (s, mk_heartbeat (hb_expiry h) true)
    | Some now =>
        let '(s, renewed) :=
          match checked_add_duration now (lg_ttl g) with
          | Err _ => (s, None)
          | Ok expires =>
              match renew_lease (lg_lease g) (lg_owner g) now expires s with
              | (s, Ok true) => (s, Some expires)
              | (s, _) => (s, None)
              end
          end in
        match renewed with
        | Some expires => (s, mk_heartbeat expires false)
        | None => (s, mk_heartbeat (hb_expiry h) (hb_expiry h <=? now)%N)
        end
    end.
Definition lease_check (h : heartbeat) : result MetadataError () :=
  if hb_lost h then Err LeaseLost else Ok ().

(** ** Reconciliation *)

Record ScannedObject := mk_ScannedObject {
  so_record : ObjectRecord; so_plan_graph : option string; so_inventory : option GraphInventory }.
Definition so_key (o : ScannedObject) : ObjectKey := rec_key (so_record o).

Definition scan_one (files : gmap ObjectKey fs_object) (k : ObjectKey) : option ScannedObject :=
  file ← files !! k;
  if negb (is_ok (validate_id (key_kind k) (key_id k))) || negb (is_published files k) then None
  else
    let record := mk_ObjectRecord k (fo_size file) (fo_modified file) in
    match k with
    | OPlan _ => graph ← plan_graph_id file; Some (mk_ScannedObject record (Some graph) None)
    | OGraph _ => Some (mk_ScannedObject record None (read_graph_inventory file))
    | _ => Some (mk_ScannedObject record None None)
    end.
Definition scan_namespaces (files : gmap ObjectKey fs_object) : list ScannedObject :=
  omap (scan_one files) (sort_by key_leb (map_to_list files).*1).

(** The kinds in the order their stale rows go. *)
Definition stale_order : list ObjectKind := [KPlan; KGraph; KImage; KDerived; KArtifact].
Definition rows_of (t : tables) (kind : ObjectKind) : list ObjectKey :=
  filter (λ k, key_kind k = kind) (map_to_list (t_objects t)).*1.
Definition stale_rows (s : repo) : list ObjectKey :=
  stale_order ≫= λ kind, filter (λ k, ¬ is_published (rp_files s) k) (rows_of (rp_tables s) kind).

Definition remove_stale_row (st : tables * nat) (k : ObjectKey) : result MetadataError (tables * nat) :=
  let '(t, removed) := st in
  let t := match k with
           | OGraph id => with_projects t (t_projects t) (filter (λ e : string * ref_row, rf_graph e.2 ≠ id) (t_refs t))
           | _ => t
           end in
  let present := has_object t k in
  t ← delete_object t k;
  let t := with_access t (delete k (t_access t)) in
  let t := with_leases t (filter (λ e : (string * ObjectKey) * lease_row, e.1.2 ≠ k) (t_leases t)) in
  Ok (t, if present then S removed else removed).
Definition remove_stale_rows (t : tables) (stale : list ObjectKey) : result MetadataError (tables * nat) :=
  fold_res remove_stale_row (t, 0) stale.

(** The inventory of a graph all of whose objects were seen. *)
Definition complete_inventory (observed : list ObjectKey) (inventory : option GraphInventory)
    : option GraphInventory :=
  i ← inventory;
  if forallb (λ a : string * bool, bool_decide (OArtifact a.1 ∈ observed)) (gi_artifacts i)
     && forallb (λ d, bool_decide (ODerived d ∈ observed)) (gi_derived i)
  then Some i else None.

Definition repair_object (observed : list ObjectKey) (t : tables) (o : ScannedObject)
    : result MetadataError tables :=
  t ← upsert_object t (so_record o) (so_plan_graph o) None;
  match so_key o with
  | OGraph id =>
      match complete_inventory observed (so_inventory o) with
      | Some i => upsert_graph_edges (set_graph_complete t id true) id (gi_artifacts i) (gi_derived i)
      | None => Ok (delete_edges (set_graph_complete t id false) id)
      end
  | _ => Ok t
  end.

Record RepairReport := mk_RepairReport { rr_observed : nat; rr_upserted : nat; rr_removed_stale : nat }.

Definition restore_ref (observed : list ObjectKey) (t : tables) (r : string * RegistrationFile)
    : result MetadataError tables :=
  if bool_decide (OGraph (reg_graph r.2) ∈ observed)
  then upsert_project_ref t (path_key r.1) r.1 (reg_graph r.2) (reg_updated r.2)
  else Ok t.

(** The write transaction, from what was seen before it began. *)
Definition repair_commit (observed : list ScannedObject) (stale : list ObjectKey)
    (registrations : list (string * RegistrationFile)) (t : tables) : result MetadataError (tables * RepairReport) :=
  let keys := so_key <$> observed in
  t ← fold_res (repair_object keys) t observed;
  '(t, removed) ← remove_stale_rows t stale;
  t ← fold_res (restore_ref keys) t registrations;
  Ok (t, mk_RepairReport (length observed) (length observed) removed).

Section collection.
Variable cwd : string.
Variable registration_key : string → string.

Definition repair_index : io RepairReport := λ s,
  transact (repair_commit (scan_namespaces (rp_files s)) (stale_rows s)
              (scan_registration_files cwd registration_key (rp_regs s))) s.

(** ** Collection *)

(** The joins of the protection query. *)
Definition attached (t : tables) (graph : string) : bool :=
  exists_row (λ _ r, bool_decide (rf_graph r = graph)) (t_refs t).
Definition has_lease (t : tables) (k : ObjectKey) (now : Z) : bool :=
  exists_row (λ e l, bool_decide (e.2 = k) && (now <? ls_expires l)%Z) (t_leases t).
Definition incomplete_graph (t : tables) : bool :=
  exists_row (λ k row, bool_decide (key_kind k = KGraph) && bool_decide (or_complete row = Some false)) (t_objects t).
Definition by_artifact_edge (t : tables) (artifact : string) (needs : bool → bool) : bool :=
  exists_row (λ e image, bool_decide (e.2 = artifact) && needs image && attached t e.1
                         && graph_already_complete t e.1) (t_graph_artifacts t).
Definition by_derived_edge (t : tables) (derived : string) : bool :=
  existsb (λ e : string * string, bool_decide (e.2 = derived) && attached t e.1 && graph_already_complete t e.1)
    (elements (t_graph_derived t)).

Definition protection (t : tables) (k : ObjectKey) (now : Z) : bool :=
  has_lease t k now ||
  match k with
  | OGraph id => attached t id || bool_decide ((t_objects t !! k) ≫= or_complete = Some false)
  | OArtifact id => by_artifact_edge t id (λ _, true) || incomplete_graph t
  | ODerived id => by_derived_edge t id || incomplete_graph t
  | OImage id => by_artifact_edge t id (λ image, image) || incomplete_graph t
  | OPlan _ => false
  end.

(** The [CASE] of the candidate query, branch by branch. *)
Definition candidate_protected (t : tables) (k : ObjectKey) (now : Z) : bool :=
  let kind := key_kind k in let id := key_id k in
  if has_lease t k now then true
  else if bool_decide (kind = KGraph) && attached t id then true
  else if bool_decide (kind = KGraph) && bool_decide ((t_objects t !! OGraph id) ≫= or_complete = Some false) then true
  else if bool_decide (kind = KArtifact) && by_artifact_edge t id (λ _, true) then true
  else if bool_decide (kind = KDerived) && by_derived_edge t id then true
  else if bool_decide (kind = KImage) && by_artifact_edge t id (λ image, image) then true
  else bool_decide (kind ∈ [KArtifact; KImage; KDerived]) && incomplete_graph t.

Definition rank_of (k : ObjectKey) : DeletionRank :=
  match k with
  | OPlan _ => RankPlan | OGraph _ => RankGraph | ODerived _ => RankDerived
  | OImage _ => RankImage | OArtifact _ => RankArtifact
  end.
Definition object_name (k : ObjectKey) : string := kind_str (key_kind k) +:+ ":" +:+ key_id k.
Definition candidate (t : tables) (now : Z) (kr : ObjectKey * object_row) : PolicyCandidate :=
  mk_PolicyCandidate (default (or_published kr.2) (t_access t !! kr.1)) (rank_of kr.1) (object_name kr.1)
    (Z.to_N (or_size kr.2)) (candidate_protected t kr.1 now).

Record GcReport := mk_GcReport {
  gr_repaired : RepairReport; gr_evaluation : option PolicyEvaluation;
  gr_deleted : nat; gr_deleted_bytes : N; gr_preserved : nat }.

(** Around the collector: whether an object's lock could be taken and its files
    removed, what other processes did before the candidates were read and
    before each deletion, and the snapshots swept at the end. *)
Record gc_env := mk_gc_env {
  ge_lock : ObjectKey → bool; ge_unlink : ObjectKey → bool;
  ge_start : repo → repo; ge_others : ObjectKey → repo → repo; ge_snapshots : N }.

Inductive outcome := Deleted | Preserved | Gone.

(** One deletion, under the object's lock and within one transaction: the
    files go before the row does. *)
Definition delete_one (env : gc_env) (now : Z) (k : ObjectKey) : io outcome :=
  _ ← modify (ge_others env k);
  if negb (ge_lock env k) then mret Preserved
  else
    files ← gets rp_files;
    if negb (is_published files k) then mret Gone
    else
      t ← gets rp_tables;
      if protection t k now then mret Preserved
      else if negb (ge_unlink env k) then throw Io
      else
        _ ← modify (λ s, with_files s (delete k (rp_files s)));
        _ ← transact_ (λ t, delete_object t k);
        mret Deleted.

Definition tally (r : GcReport) (size : N) (o : outcome) : GcReport :=
  match o with
  | Deleted => mk_GcReport (gr_repaired r) (gr_evaluation r) (S (gr_deleted r)) (gr_deleted_bytes r + size) (gr_preserved r)
  | Preserved => mk_GcReport (gr_repaired r) (gr_evaluation r) (gr_deleted r) (gr_deleted_bytes r) (S (gr_preserved r))
  | Gone => r
  end.

Definition collect_one (env : gc_env) (now : Z) (rows : list (ObjectKey * object_row)) (r : GcReport)
    (c : PolicyCandidate) : io GcReport :=
  match find (λ kr : ObjectKey * object_row, bool_decide (object_name kr.1 = object_id c)) rows with
  | None => mret r
  | Some (k, row) =>
      k ← lift (ObjectKey_new (key_kind k) (key_id k));
      o ← delete_one env now k;
      mret (tally r (Z.to_N (or_size row)) o)
  end.

Definition rank_leb (a b : PolicyCandidate) : bool :=
  (rank_index (deletion_rank a) <=? rank_index (deletion_rank b))%N.
Definition add_size (total : N) (c : PolicyCandidate) : result MetadataError N :=
  ok_or TimeOverflow (checked_add U64_MAX total (size_bytes c)).

Definition collect (env : gc_env) (policy : GcPolicy) (now : N) : io GcReport :=
  repaired ← repair_index;
  _ ← modify (ge_start env);
  t ← gets rp_tables;
  now ← lift (sqlite_u64 now);
  let rows := map_to_list (t_objects t) in
  let candidates := candidate t now <$> rows in
  total ← lift (fold_res add_size 0%N candidates);
  evaluation ← lift (map_err (λ _, TimeOverflow) (evaluate policy now total candidates));
  report ← fold_m (collect_one env now rows) (mk_GcReport repaired (Some evaluation) 0 0 0)
             (sort_by rank_leb (selected evaluation));
  mret (mk_GcReport (gr_repaired report) (gr_evaluation report) (gr_deleted report)
          (saturating_add U64_MAX (gr_deleted_bytes report) (ge_snapshots env)) (gr_preserved report)).
End collection.

(** ** [InstallSession] *)

Section session.
Variable cwd : string.
Variable registration_key : string → string.
(** The nonces of the next lease, and the process. *)
Variables (lease owner : string) (pid : N).

(** The keys of the artifacts, their images and the derived images. *)
Definition object_keys (artifacts derived : list string) : result MetadataError (list ObjectKey) :=
  ks ← traverse_res (λ hex, a ← ObjectKey_new KArtifact hex; i ← ObjectKey_new KImage hex; Ok [a; i]) artifacts;
  ds ← traverse_res (ObjectKey_new KDerived) derived;
  Ok (mjoin ks ++ ds).

(** Assigning a new guard drops the held one, which releases its rows. *)
Definition drop_guard (held : option LeaseGuard) : io () := λ s,
  match held with
  | Some g => ((release_lease (lg_lease g) (lg_owner g) s).1, Ok ())
  | None => (s, Ok ())
  end.
Definition take_lease (held : option LeaseGuard) (keys : list ObjectKey) (now : N) : io (option LeaseGuard) :=
  g ← acquire_lease lease owner pid keys LeaseOptions_default now;
  _ ← drop_guard held;
  mret (Some g).

(** The session's lease; [None] before the first. *)
Definition lease_objects (held : option LeaseGuard) (artifacts derived : list string) (now : N)
    : io (option LeaseGuard) :=
  keys ← lift (object_keys artifacts derived);
  match keys with
  | [] => mret held
  | _ =>
      _ ← record_published_objects_batch keys now;
      _ ← record_access keys now;
      take_lease held keys now
  end.

Definition lease_graph_object (held : option LeaseGuard) (graph : string) (now : N) : io (option LeaseGuard) :=
  k ← lift (ObjectKey_new KGraph graph);
  take_lease held [k] now.

Definition record_graph (held : option LeaseGuard) (graph : string) (inventory : option GraphInventory)
    (contents_size_hint : option N) (now : N) : io (option LeaseGuard) :=
  k ← lift (ObjectKey_new KGraph graph);
  _ ← match inventory with
      | Some i => record_graph_with_inventory_and_size graph i contents_size_hint
      | None => record_published_object k now
      end;
  derived ← lift (traverse_res (ObjectKey_new KDerived)
                    (match inventory with Some i => gi_derived i | None => [] end));
  match held with
  | Some g => g ← extend g (k :: derived) now; mret (Some g)
  | None => take_lease None (k :: derived) now
  end.

Definition recorded_image_size_sum (t : tables) (artifacts : list string) : result MetadataError (option N) :=
  keys ← traverse_res (ObjectKey_new KImage) artifacts; recorded_logical_size_sum t keys.

Definition session_check (h : option heartbeat) : result MetadataError () :=
  match h with Some h => lease_check h | None => Ok () end.

(** The heartbeat is looked at before and after the registration. *)
Definition finalize_project (before after : option heartbeat) (root graph : string) (now : N) : io () :=
  s ← gets id;
  if cached_graph_protection_current cwd registration_key s root graph then mret ()
  else
    _ ← lift (session_check before);
    _ ← write_durable_registration cwd registration_key root graph now;
    _ ← replace_project_graph_ref cwd root graph now;
    lift (session_check after).

(** A cache hit on a graph: without an inventory it is refused. *)
Definition refresh_cached_graph (held : option LeaseGuard) (before after : option heartbeat)
    (root graph : string) (now : N) : io (option LeaseGuard) :=
  s ← gets id;
  match rp_files s !! OGraph graph ≫= read_graph_inventory with
  | None => throw (MissingObject "graph inventory" graph)
  | Some inventory =>
      if cached_graph_protection_current cwd registration_key s root graph then mret held
      else
        let artifacts := filter (λ hex, is_ok (validate_id KArtifact hex) = true) (gi_artifacts inventory).*1 in
        held ← lease_objects held artifacts (gi_derived inventory) now;
        held ← record_graph held graph (Some inventory) None now;
        _ ← finalize_project before after root graph now;
        mret held
  end.
End session.
