(* ===== verification/MetadataTheory.v ===== *)
(** * What the index keeps true

    [db_ok] holds of the tables after every sequence of operations, errors
    included; the collector removes nothing that is protected when it comes to
    it; a successful reconciliation gives a registered project back its
    protection, and reconciliation succeeds unless a plan lost its graph. *)

From S2P Require Export MetadataRepo.
From Stdlib Require Import Ascii.

(** ** The invariant *)

Definition has (t : tables) (k : ObjectKey) : Prop := is_Some (t_objects t !! k).

(** What a row points to. *)
Definition link_ok (h : ObjectKey → Prop) (k : ObjectKey) (row : object_row) : Prop :=
  match k with
  | OImage id => h (OArtifact id)
  | OPlan _ => ∃ g, or_graph row = Some g ∧ h (OGraph g)
  | _ => True
  end.
Definition shape_ok (k : ObjectKey) (row : object_row) : Prop :=
  (key_kind k ≠ KPlan → or_graph row = None) ∧ (key_kind k = KGraph → is_Some (or_complete row)).
Definition row_ok (h : ObjectKey → Prop) (k : ObjectKey) (row : object_row) : Prop :=
  is_ok (validate_id (key_kind k) (key_id k)) = true ∧ (0 <= or_size row)%Z ∧ shape_ok k row ∧ link_ok h k row.

Definition lease_ok (l : lease_row) : Prop := (0 <= ls_acquired l <= ls_renewed l ∧ ls_renewed l < ls_expires l <= I64_MAX)%Z.

(** The edges and references of the tables, as far as the objects they name go. *)
Record edges_ok (h : ObjectKey → Prop) (t : tables) : Prop := mk_edges_ok {
  eok_artifacts : ∀ g a i, t_graph_artifacts t !! (g, a) = Some i → h (OGraph g) ∧ h (OArtifact a);
  eok_derived : ∀ g d, (g, d) ∈ t_graph_derived t → h (OGraph g) ∧ h (ODerived d);
  eok_refs : ∀ p r, t_refs t !! p = Some r → h (OGraph (rf_graph r)) ∧ is_Some (t_projects t !! p) }.

Record db_ok (t : tables) : Prop := mk_db_ok {
  ok_rows : ∀ k row, t_objects t !! k = Some row → row_ok (has t) k row;
  ok_paths : ∀ k k' row row', t_objects t !! k = Some row → t_objects t !! k' = Some row' →
    key_kind k = key_kind k' → or_rel_path row = or_rel_path row' → k = k';
  ok_edges : edges_ok (has t) t;
  ok_leases : ∀ e l, t_leases t !! e = Some l → lease_ok l }.

Lemma has_objectP t k : has_object t k = true ↔ has t k.
Proof. unfold has_object, has. apply bool_decide_eq_true. Qed.
Lemma link_mono (h h' : ObjectKey → Prop) k row : (∀ k, h k → h' k) → link_ok h k row → link_ok h' k row.
Proof. intros Hm. destruct k; simpl; [done|by apply Hm|done|done|]. intros (g & ? & ?). eauto. Qed.
Lemma row_mono (h h' : ObjectKey → Prop) k row : (∀ k, h k → h' k) → row_ok h k row → row_ok h' k row.
Proof. intros Hm (? & ? & ? & ?). repeat split; try apply H1; try done. by eapply link_mono. Qed.
Lemma edges_mono (h h' : ObjectKey → Prop) t : (∀ k, h k → h' k) → edges_ok h t → edges_ok h' t.
Proof.
  intros Hm [Ha Hd Hr]. constructor.
  - intros g a i Hi. destruct (Ha g a i Hi). auto.
  - intros g d Hi. destruct (Hd g d Hi). auto.
  - intros p r Hi. destruct (Hr p r Hi). auto.
Qed.

Lemma exists_rowP {K A} `{Countable K} (f : K → A → bool) (m : gmap K A) :
  exists_row f m = true ↔ ∃ k a, m !! k = Some a ∧ f k a = true.
Proof.
  unfold exists_row. rewrite existsb_exists. split.
  - intros ([k a] & Hin%list_elem_of_In%elem_of_map_to_list & Hf). eauto.
  - intros (k & a & Hk & Hf). exists (k, a). split; [|done].
    by apply list_elem_of_In, elem_of_map_to_list.
Qed.
Lemma exists_row_false {K A} `{Countable K} (f : K → A → bool) (m : gmap K A) k a :
  exists_row f m = false → m !! k = Some a → f k a = false.
Proof.
  intros Hf Hk. destruct (f k a) eqn:E; [|done].
  exfalso. assert (exists_row f m = true) by (apply exists_rowP; eauto). congruence.
Qed.

Lemma empty_tables_ok : db_ok empty_tables.
Proof.
  constructor; [| |constructor|]; unfold empty_tables; cbn.
  - intros k row. by rewrite lookup_empty.
  - intros k k' row row'. by rewrite lookup_empty.
  - intros g a i. by rewrite lookup_empty.
  - intros g d. by rewrite elem_of_empty.
  - intros p r. by rewrite lookup_empty.
  - intros e l. by rewrite lookup_empty.
Qed.

(** ** Statements *)

Lemma put_object_inv t k row fk t' :
  put_object t k row fk = Ok t' →
  is_ok (validate_id (key_kind k) (key_id k)) = true ∧ rel_path_taken t k (or_rel_path row) = false ∧ fk = true ∧
  ∃ row', t' = with_objects t (<[k := row']> (t_objects t)) ∧
    or_rel_path row' = or_rel_path row ∧ or_size row' = or_size row ∧ or_graph row' = or_graph row ∧
    (or_complete row' = or_complete row ∨ ∃ old, t_objects t !! k = Some old ∧ or_complete row' = or_complete old).
Proof.
  unfold put_object. destruct (is_ok _) eqn:Hid; [|done]. cbn.
  destruct (rel_path_taken t k (or_rel_path row)) eqn:Hrel; [done|]. destruct fk; [|done]. cbn.
  intros [= <-]. split_and!; [done..|]. eexists. split; [reflexivity|].
  destruct (t_objects t !! k) as [old|]; cbn; eauto 10.
Qed.

Lemma has_with_objects t o k : has (with_objects t o) k ↔ is_Some (o !! k).
Proof. done. Qed.

Lemma put_object_ok t k row fk t' :
  db_ok t → put_object t k row fk = Ok t' → (0 <= or_size row)%Z → shape_ok k row →
  (fk = true → link_ok (has t) k row) → db_ok t' ∧ (∀ k', has t' k' ↔ k' = k ∨ has t k').
Proof.
  intros [Hrows Hpaths Hedges Hl] Hput Hsize [Hs1 Hs2] Hlink.
  apply put_object_inv in Hput as (Hid & Hrel & -> & row' & -> & Er & Es & Eg & Ec).
  assert (Hhas : ∀ k', has (with_objects t (<[k:=row']> (t_objects t))) k' ↔ k' = k ∨ has t k').
  { intros k'. rewrite has_with_objects. destruct (decide (k' = k)) as [->|Hn].
    - rewrite lookup_insert_eq. split; [by left|by eexists].
    - rewrite lookup_insert_ne by done. unfold has. naive_solver. }
  split; [|exact Hhas].
  assert (Hgrow : ∀ k', has t k' → has (with_objects t (<[k:=row']> (t_objects t))) k')
    by (intros; apply Hhas; by right).
  constructor; [| | |done].
  - intros k' r. cbn. rewrite lookup_insert. case_decide as Hk.
    + intros [= ->]. subst k'. split_and!; [done|by rewrite Es| |].
      * split; [by rewrite Eg|]. intros Hg. destruct Ec as [->|(old & Hold & ->)]; [auto|].
        apply Hrows in Hold as (_ & _ & [_ Hc] & _). auto.
      * eapply link_mono; [exact Hgrow|]. specialize (Hlink eq_refl).
        destruct k; cbn in *; try done. by rewrite Eg.
    + intros Hr. eapply row_mono; [exact Hgrow|]. by apply Hrows.
  - assert (Hone : ∀ k0 row0, t_objects t !! k0 = Some row0 → k0 ≠ k → key_kind k0 = key_kind k →
      or_rel_path row0 ≠ or_rel_path row').
    { intros k0 row0 H0 Hne Hk He. pose proof (exists_row_false _ _ k0 row0 Hrel H0) as Hf. cbn in Hf.
      rewrite (bool_decide_eq_true_2 _ Hk), (bool_decide_eq_false_2 (k0 = k)) in Hf by done.
      rewrite bool_decide_eq_true_2 in Hf by congruence. done. }
    intros k1 k2 r1 r2. cbn. rewrite !lookup_insert. intros H1 H2 Hk He.
    case_decide as E1; case_decide as E2; simplify_eq.
    + done.
    + exfalso. match goal with H : t_objects t !! _ = Some _ |- _ => apply (Hone _ _ H); congruence end.
    + exfalso. match goal with H : t_objects t !! _ = Some _ |- _ => apply (Hone _ _ H); congruence end.
    + by eapply Hpaths.
  - assert (He : edges_ok (has t) (with_objects t (<[k:=row']> (t_objects t))))
      by (destruct Hedges; by constructor).
    by eapply edges_mono.
Qed.

Lemma sqlite_u64_Ok n z : sqlite_u64 n = Ok z ↔ z = Z.of_N n ∧ (Z.of_N n <= I64_MAX)%Z.
Proof.
  unfold sqlite_u64, i64_try_from. destruct (Z.leb_spec (Z.of_N n) I64_MAX); cbn; naive_solver lia.
Qed.

Lemma upsert_object_ok t r g c t' :
  db_ok t → upsert_object t r g c = Ok t' → db_ok t' ∧ (∀ k, has t' k ↔ k = rec_key r ∨ has t k).
Proof.
  intros Hok. unfold upsert_object.
  intros (size & [-> Hs]%sqlite_u64_Ok & H)%bind_Ok. revert H.
  intros (pub & [-> Hp]%sqlite_u64_Ok & H)%bind_Ok. revert H.
  destruct (rec_key r) as [id|id|id|id|id] eqn:Ek.
  4: { intros H. eapply put_object_ok; [done|exact H|cbn; lia|split; [done|by eexists]|done]. }
  4: { intros (gr & _ & H)%bind_Ok. revert H. intros (u & _ & H)%bind_Ok.
       eapply put_object_ok; [done|exact H|cbn; lia|by split|].
       intros Hh. exists gr. split; [done|]. by apply has_objectP. }
  all: intros H; (eapply put_object_ok; [done|exact H|cbn; lia|by split|]).
  - done.
  - intros [Hh|Hh]%orb_true_iff; apply has_objectP in Hh; [|done].
    destruct Hh as [row Hrow]. apply (ok_rows t Hok) in Hrow as (_ & _ & _ & Hl). exact Hl.
  - done.
Qed.

(** Changing neither the objects nor what points to them. *)
Lemma same_edges_ok t t' :
  db_ok t → (∀ k, t_objects t' !! k = t_objects t !! k) → edges_ok (has t) t' →
  (∀ e l, t_leases t' !! e = Some l → lease_ok l) → db_ok t'.
Proof.
  intros [Hrows Hpaths He Hl] Hobj He' Hl'.
  assert (Hhas : ∀ k, has t k → has t' k) by (intros k; unfold has; by rewrite Hobj).
  constructor; [| | |done].
  - intros k row. rewrite Hobj. intros Hk. eapply row_mono; [exact Hhas|]. by apply Hrows.
  - intros k k' row row'. rewrite !Hobj. apply Hpaths.
  - by eapply edges_mono.
Qed.

Lemma set_graph_complete_lookup t g c k :
  t_objects (set_graph_complete t g c) !! k =
    (λ row, if decide (k = OGraph g) then mk_object_row (or_rel_path row) (or_size row) (or_published row) (Some c) (or_graph row)
            else row) <$> t_objects t !! k.
Proof.
  unfold set_graph_complete. cbn. destruct (decide (k = OGraph g)) as [->|Hn].
  - rewrite lookup_alter_eq. by destruct (t_objects t !! OGraph g).
  - rewrite lookup_alter_ne by done. by destruct (t_objects t !! k).
Qed.

Lemma set_graph_complete_has t g c k : has (set_graph_complete t g c) k ↔ has t k.
Proof. unfold has. by rewrite set_graph_complete_lookup, fmap_is_Some. Qed.

Lemma set_graph_complete_ok t g c : db_ok t → db_ok (set_graph_complete t g c).
Proof.
  intros [Hrows Hpaths He Hl].
  assert (Hhas : ∀ k, has t k → has (set_graph_complete t g c) k) by (intros; by apply set_graph_complete_has).
  constructor; [| | |done].
  - intros k row. rewrite set_graph_complete_lookup. intros (old & Hold & ->)%fmap_Some.
    specialize (Hrows k old Hold) as (Hid & Hs & [Hg Hc] & Hlk). eapply row_mono; [exact Hhas|].
    destruct (decide (k = OGraph g)) as [->|]; split_and!; try done.
  - intros k k' row row'. rewrite !set_graph_complete_lookup.
    intros (o1 & H1 & ->)%fmap_Some (o2 & H2 & ->)%fmap_Some Hk Hr. eapply Hpaths; [done..|].
    revert Hr. by repeat case_decide.
  - eapply edges_mono; [exact Hhas|]. destruct He. by constructor.
Qed.

Lemma delete_edges_ok t g : db_ok t → db_ok (delete_edges t g).
Proof.
  intros Hok. eapply same_edges_ok; [exact Hok|done| |apply (ok_leases t Hok)].
  destruct (ok_edges t Hok) as [Ha Hd Hr]. constructor; [| |exact Hr]; unfold delete_edges; cbn.
  - intros g' a i. rewrite map_lookup_filter_Some. intros [Hi _]. by eapply Ha.
  - intros g' d. rewrite elem_of_filter. intros [_ Hi]. by eapply Hd.
Qed.

Lemma insert_artifact_edge_inv g t a t' :
  insert_artifact_edge g t a = Ok t' →
  has t (OGraph g) ∧ has t (OArtifact a.1) ∧ t_graph_artifacts t !! (g, a.1) = None ∧
  t' = with_graph_edges t (<[(g, a.1) := a.2]> (t_graph_artifacts t)) (t_graph_derived t).
Proof.
  unfold insert_artifact_edge. case_bool_decide as Hex; [done|].
  destruct (has_object t (OGraph g)) eqn:Hg; [|done]. destruct (has_object t (OArtifact a.1)) eqn:Ha; [|done].
  cbn. intros [= <-]. apply has_objectP in Hg, Ha. apply eq_None_not_Some in Hex. done.
Qed.
Lemma insert_derived_edge_inv g t d t' :
  insert_derived_edge g t d = Ok t' →
  has t (OGraph g) ∧ has t (ODerived d) ∧ (g, d) ∉ t_graph_derived t ∧
  t' = with_graph_edges t (t_graph_artifacts t) ({[ (g, d) ]} ∪ t_graph_derived t).
Proof.
  unfold insert_derived_edge. case_bool_decide as Hex; [done|].
  destruct (has_object t (OGraph g)) eqn:Hg; [|done]. destruct (has_object t (ODerived d)) eqn:Ha; [|done].
  cbn. intros [= <-]. apply has_objectP in Hg, Ha. done.
Qed.

Lemma insert_artifact_edge_ok g t a t' : db_ok t → insert_artifact_edge g t a = Ok t' → db_ok t'.
Proof.
  intros Hok (Hg & Ha & _ & ->)%insert_artifact_edge_inv.
  eapply same_edges_ok; [exact Hok|done| |apply (ok_leases t Hok)].
  destruct (ok_edges t Hok) as [Hea Hed Hr]. constructor; [|exact Hed|exact Hr]. cbn.
  intros g' a' i. rewrite lookup_insert. case_decide as E; [|by apply Hea].
  injection E as <- <-. done.
Qed.
Lemma insert_derived_edge_ok g t d t' : db_ok t → insert_derived_edge g t d = Ok t' → db_ok t'.
Proof.
  intros Hok (Hg & Ha & _ & ->)%insert_derived_edge_inv.
  eapply same_edges_ok; [exact Hok|done| |apply (ok_leases t Hok)].
  destruct (ok_edges t Hok) as [Hea Hed Hr]. constructor; [exact Hea| |exact Hr]. cbn.
  intros g' d' [[= -> ->]%elem_of_singleton|Hin]%elem_of_union; [done|by apply Hed].
Qed.

(** What the edges of a graph become; the rest of the tables stay. *)
Lemma upsert_graph_edges_ok t g artifacts derived t' :
  db_ok t → upsert_graph_edges t g artifacts derived = Ok t' → db_ok t'.
Proof.
  intros Hok. unfold upsert_graph_edges. intros (t1 & H1 & H2)%bind_Ok.
  assert (Hok1 : db_ok t1).
  { eapply fold_res_inv; [by apply (delete_edges_ok t g)| |exact H1].
    intros b x b1 _ Hb H. by eapply insert_artifact_edge_ok. }
  eapply fold_res_inv; [exact Hok1| |exact H2]. intros b x b1 _ Hb H. by eapply insert_derived_edge_ok.
Qed.

(** What stays when only the edges change. *)
Definition same_but_edges (t t' : tables) : Prop :=
  t_objects t' = t_objects t ∧ t_projects t' = t_projects t ∧ t_refs t' = t_refs t ∧
  t_leases t' = t_leases t ∧ t_access t' = t_access t.
#[global] Instance same_but_edges_preorder : PreOrder same_but_edges.
Proof.
  split; [done|]. intros t1 t2 t3 (? & ? & ? & ? & ?) (? & ? & ? & ? & ?).
  split_and!; congruence.
Qed.

Lemma upsert_graph_edges_same t g artifacts derived t' :
  upsert_graph_edges t g artifacts derived = Ok t' → same_but_edges t t'.
Proof.
  unfold upsert_graph_edges. intros (t1 & H1 & H2)%bind_Ok. transitivity t1.
  - eapply (fold_res_inv (same_but_edges t) _ _ (delete_edges t g)); [by split_and!| |exact H1].
    intros b a b' _ Hb (_ & _ & _ & ->)%insert_artifact_edge_inv. etrans; [exact Hb|]. by split_and!.
  - eapply (fold_res_inv (same_but_edges t1)); [done| |exact H2].
    intros b a b' _ Hb (_ & _ & _ & ->)%insert_derived_edge_inv. etrans; [exact Hb|]. by split_and!.
Qed.

Lemma upsert_graph_edges_lookup t g artifacts derived t' :
  upsert_graph_edges t g artifacts derived = Ok t' →
  (∀ g' a i, t_graph_artifacts t' !! (g', a) = Some i ↔
     (g' = g ∧ (a, i) ∈ artifacts) ∨ (g' ≠ g ∧ t_graph_artifacts t !! (g', a) = Some i)) ∧
  (∀ g' d, (g', d) ∈ t_graph_derived t' ↔
     (g' = g ∧ d ∈ derived) ∨ (g' ≠ g ∧ (g', d) ∈ t_graph_derived t)).
Proof.
  unfold upsert_graph_edges. intros (t1 & H1 & H2)%bind_Ok.
  assert ((∀ g' a i, t_graph_artifacts t1 !! (g', a) = Some i ↔
     (g' = g ∧ (a, i) ∈ artifacts) ∨ (g' ≠ g ∧ t_graph_artifacts t !! (g', a) = Some i)) ∧
     (∀ g' d, (g', d) ∈ t_graph_derived t1 ↔ g' ≠ g ∧ (g', d) ∈ t_graph_derived t)) as [Ha Hd].
  { eapply (fold_res_prefix_inv (λ pre t1, (∀ g' a i, t_graph_artifacts t1 !! (g', a) = Some i ↔
       (g' = g ∧ (a, i) ∈ pre) ∨ (g' ≠ g ∧ t_graph_artifacts t !! (g', a) = Some i)) ∧
       (∀ g' d, (g', d) ∈ t_graph_derived t1 ↔ g' ≠ g ∧ (g', d) ∈ t_graph_derived t))); [| |exact H1].
    - unfold delete_edges; cbn. split.
      + intros g' a i. rewrite map_lookup_filter_Some. cbn. set_solver.
      + intros g' d. rewrite elem_of_filter. cbn. tauto.
    - intros pre b [a i] b' [IHa IHd] _ (_ & _ & Hnew & ->)%insert_artifact_edge_inv. cbn in *.
      split; [|done]. intros g' a' i'. rewrite lookup_insert, elem_of_app, list_elem_of_singleton.
      case_decide as E; [injection E as <- <-|].
      + split; [intros [= ->]; auto|]. intros [[_ [Hin|[= ->]]]|[? _]]; [|done..].
        exfalso. assert (t_graph_artifacts b !! (g, a) = Some i') by (apply IHa; auto). congruence.
      + rewrite IHa. split; [tauto|]. intros [[-> [Hin|[= -> ->]]]|?]; [auto|done|auto]. }
  split.
  - intros g' a i. rewrite <- Ha. eapply (fold_res_inv (λ t', t_graph_artifacts t' !! (g', a) = Some i ↔ _));
      [reflexivity| |exact H2].
    intros b d b' _ Hb (_ & _ & _ & ->)%insert_derived_edge_inv. exact Hb.
  - eapply (fold_res_prefix_inv (λ pre t', ∀ g' d, (g', d) ∈ t_graph_derived t' ↔
       (g' = g ∧ d ∈ pre) ∨ (g' ≠ g ∧ (g', d) ∈ t_graph_derived t))); [| |exact H2].
    + intros g' d. rewrite Hd. set_solver.
    + intros pre b d b' IH _ (_ & _ & _ & ->)%insert_derived_edge_inv g' d'. cbn.
      rewrite elem_of_union, elem_of_singleton, IH, elem_of_app, list_elem_of_singleton. naive_solver.
Qed.

Lemma upsert_access_inv t k at_ t' :
  upsert_access t k at_ = Ok t' →
  ∃ z, t' = with_access t (<[k := z]> (t_access t)) ∧ (Z.of_N at_ <= z)%Z ∧ (Z.of_N at_ <= I64_MAX)%Z ∧
    (∀ old, t_access t !! k = Some old → (old <= z)%Z).
Proof.
  unfold upsert_access. intros (ms & [-> Hm]%sqlite_u64_Ok & [= <-])%bind_Ok. eexists. split; [reflexivity|].
  destruct (t_access t !! k); split_and!; try lia; naive_solver lia.
Qed.
Lemma with_access_ok t a : db_ok t → db_ok (with_access t a).
Proof.
  intros Hok. eapply same_edges_ok; [exact Hok|done| |apply (ok_leases t Hok)].
  destruct (ok_edges t Hok). by constructor.
Qed.
Lemma upsert_access_ok t k at_ t' : db_ok t → upsert_access t k at_ = Ok t' → db_ok t'.
Proof. intros Hok (z & -> & _)%upsert_access_inv. by apply with_access_ok. Qed.

Lemma upsert_project_ref_inv t pk display g at_ t' :
  upsert_project_ref t pk display g at_ = Ok t' →
  ∃ project ref, t' = with_projects t (<[pk := project]> (t_projects t)) (<[pk := ref]> (t_refs t)) ∧
    has t (OGraph (rf_graph ref)) ∧
    match t_refs t !! pk with
    | Some old => if (rf_observed old <? Z.of_N at_)%Z then rf_graph ref = g else rf_graph ref = rf_graph old
    | None => rf_graph ref = g
    end.
Proof.
  unfold upsert_project_ref. intros (ms & [-> Hm]%sqlite_u64_Ok & H)%bind_Ok. revert H. cbn.
  destruct (has_object t (OGraph _)) eqn:Hg; [|done]. cbn. intros [= <-]. apply has_objectP in Hg.
  eexists _, _. split; [reflexivity|]. split; [exact Hg|].
  destruct (t_refs t !! pk) as [old|]; [|done]. cbn. by destruct (rf_observed old <? Z.of_N at_)%Z.
Qed.
Lemma upsert_project_ref_ok t pk display g at_ t' :
  db_ok t → upsert_project_ref t pk display g at_ = Ok t' → db_ok t'.
Proof.
  intros Hok (project & ref & -> & Hg & _)%upsert_project_ref_inv.
  eapply same_edges_ok; [exact Hok|done| |apply (ok_leases t Hok)].
  destruct (ok_edges t Hok) as [Hea Hed Hr]. constructor; [exact Hea|exact Hed|]. cbn.
  intros p r. rewrite !lookup_insert. case_decide; [|apply Hr].
  intros [= <-]. split; [exact Hg|by eexists].
Qed.

(** Deletions: an object is gone with what depends on it alone, and nothing
    that is still pointed to. *)
Definition cascades (t : tables) (k k' : ObjectKey) : Prop :=
  match k with
  | OArtifact id => k' = OImage id
  | OGraph id => ∃ row, t_objects t !! k' = Some row ∧ or_graph row = Some id
  | _ => False
  end.
Definition free (t : tables) (k : ObjectKey) : Prop :=
  match k with
  | OArtifact id => ∀ g i, t_graph_artifacts t !! (g, id) ≠ Some i
  | ODerived id => ∀ g, (g, id) ∉ t_graph_derived t
  | OGraph id => ∀ p r, t_refs t !! p = Some r → rf_graph r ≠ id
  | _ => True
  end.

Lemma elements_existsP (P : string * string → Prop) `{∀ e, Decision (P e)} (X : gset (string * string)) :
  Exists P (elements X) ↔ ∃ e, e ∈ X ∧ P e.
Proof. rewrite Exists_exists. by setoid_rewrite elem_of_elements. Qed.

Lemma delete_object_total t k : free t k → ∃ t', delete_object t k = Ok t'.
Proof.
  intros Hf. unfold delete_object. destruct (has_object t k); [|by eexists]. cbn.
  destruct k as [id|id|id|id|id]; cbn in *; try by eexists.
  - destruct (exists_row _ _) eqn:E; [|by eexists]. exfalso.
    apply exists_rowP in E as ([g a] & i & Hi & <-%bool_decide_eq_true). by eapply Hf.
  - case_bool_decide as E; [|by eexists]. exfalso.
    apply elements_existsP in E as ([g d] & Hi & <-); [|apply _]. by eapply Hf.
  - destruct (exists_row _ _) eqn:E; [|by eexists]. exfalso.
    apply exists_rowP in E as (p & r & Hr & Hg%bool_decide_eq_true). by eapply Hf.
Qed.

Lemma delete_object_inv t k t' :
  delete_object t k = Ok t' →
  (t' = t ∧ ¬ has t k) ∨
  (has t k ∧ free t k ∧ t_projects t' = t_projects t ∧ t_refs t' = t_refs t ∧ t_leases t' = t_leases t ∧ t_access t' = t_access t ∧
   (∀ k' row, t_objects t' !! k' = Some row ↔ t_objects t !! k' = Some row ∧ k' ≠ k ∧ ¬ cascades t k k') ∧
   (∀ g a i, t_graph_artifacts t' !! (g, a) = Some i ↔ t_graph_artifacts t !! (g, a) = Some i ∧ k ≠ OGraph g) ∧
   (∀ g d, (g, d) ∈ t_graph_derived t' ↔ (g, d) ∈ t_graph_derived t ∧ k ≠ OGraph g)).
Proof.
  unfold delete_object. destruct (has_object t k) eqn:Hh.
  2: { intros [= <-]. left. split; [done|]. rewrite <- has_objectP. congruence. }
  apply has_objectP in Hh. cbn. intros H. right. split; [exact Hh|].
  destruct k as [id|id|id|id|id]; cbn in *.
  - destruct (exists_row _ _) eqn:E; [done|]. injection H as <-. cbn. split_and!; try done.
    + intros g i Hi. pose proof (exists_row_false _ _ _ _ E Hi) as Hf. cbn in Hf.
      by apply bool_decide_eq_false in Hf.
    + intros k' row. rewrite !lookup_delete_Some. naive_solver.
    + naive_solver.
    + naive_solver.
  - injection H as <-. cbn. split_and!; try done; [|naive_solver..].
    intros k' row. rewrite lookup_delete_Some. naive_solver.
  - case_bool_decide as E; [done|]. injection H as <-. cbn. split_and!; try done; [| |naive_solver..].
    + intros g Hg. apply E. apply elements_existsP; [apply _|]. by exists (g, id).
    + intros k' row. rewrite lookup_delete_Some. naive_solver.
  - destruct (exists_row _ _) eqn:E; [done|]. injection H as <-. unfold delete_edges. cbn. split_and!; try done.
    + intros p r Hr. pose proof (exists_row_false _ _ _ _ E Hr) as Hf. cbn in Hf.
      by apply bool_decide_eq_false in Hf.
    + intros k' row. rewrite map_lookup_filter_Some, lookup_delete_Some. cbn. split.
      * intros [[Hn Hr] Hg]. split_and!; [done..|]. intros (r & Hr' & Hg'). congruence.
      * intros (Hr & Hn & Hc). split_and!; [done..|]. intros Hg. apply Hc. eauto.
    + intros g a i. rewrite map_lookup_filter_Some. cbn. split; intros [? Hne]; (split; [done|congruence]).
    + intros g d. rewrite elem_of_filter. cbn. split; [intros [? ?]|intros [? Hne]]; (split; [congruence || done|congruence || done]).
  - injection H as <-. cbn. split_and!; try done; [|naive_solver..].
    intros k' row. rewrite lookup_delete_Some. naive_solver.
Qed.

Lemma delete_object_ok t k t' : db_ok t → delete_object t k = Ok t' → db_ok t'.
Proof.
  intros Hok [[-> _]|(Hh & Hfree & Hp & Hr & Hl & Hacc & Hobj & Ha & Hd)]%delete_object_inv; [done|].
  destruct Hok as [Hrows Hpaths [Hea Hed Her] Hleases].
  assert (Hkeep : ∀ k', has t k' → k' ≠ k → ¬ cascades t k k' → has t' k').
  { intros k' [row Hrow] Hne Hc. exists row. by apply Hobj. }
  assert (Hbase : ∀ k', key_kind k' ≠ KImage → key_kind k' ≠ KPlan → ¬ cascades t k k').
  { intros k' H1 H2. destruct k; cbn; try tauto; [intros ->; by apply H1|].
    intros (row & Hrow & Hg). apply Hrows in Hrow as (_ & _ & [Hno _] & _). rewrite Hno in Hg by done. done. }
  constructor.
  - intros k' row (Hrow & Hne & Hc)%Hobj. pose proof (Hrows k' row Hrow) as (Hid & Hs & Hsh & Hlk).
    split_and!; [done..|]. destruct k' as [id|id|id|id|id]; cbn in *; try done.
    + apply Hkeep; [done| |by apply Hbase]. intros <-. by apply Hc.
    + destruct Hlk as (g & Hg & Hhg). exists g. split; [done|]. apply Hkeep; [done| |by apply Hbase].
      intros <-. apply Hc. by exists row.
  - intros k1 k2 r1 r2 (H1 & _)%Hobj (H2 & _)%Hobj. by eapply Hpaths.
  - constructor.
    + intros g a i (Hi & Hne)%Ha. destruct (Hea g a i Hi) as [Hg Hart].
      split; (apply Hkeep; [done| |by apply Hbase]); [done|]. intros <-. by eapply Hfree.
    + intros g d (Hi & Hne)%Hd. destruct (Hed g d Hi) as [Hg Hder].
      split; (apply Hkeep; [done| |by apply Hbase]); [done|]. intros <-. by eapply Hfree.
    + rewrite Hr, Hp. intros p r Hi. destruct (Her p r Hi) as [Hg Hproj]. split; [|done].
      apply Hkeep; [done| |by apply Hbase]. intros <-. by eapply Hfree.
  - by rewrite Hl.
Qed.

(** ** Leases *)

Lemma with_leases_ok t l : db_ok t → (∀ e r, l !! e = Some r → lease_ok r) → db_ok (with_leases t l).
Proof.
  intros Hok Hl. eapply same_edges_ok; [exact Hok|done| |exact Hl].
  destruct (ok_edges t Hok). by constructor.
Qed.

Lemma insert_lease_row_inv lease owner pid now expires t k t' :
  insert_lease_row lease owner pid now expires t k = Ok t' →
  (now < expires)%N ∧ (Z.of_N expires <= I64_MAX)%Z ∧ t_leases t !! (lease, k) = None ∧
  t' = with_leases t (<[(lease, k) := mk_lease_row owner pid (Z.of_N now) (Z.of_N now) (Z.of_N expires)]> (t_leases t)).
Proof.
  unfold insert_lease_row. intros (a & [-> Ha]%sqlite_u64_Ok & H)%bind_Ok. revert H.
  intros (e & [-> He]%sqlite_u64_Ok & H)%bind_Ok. revert H.
  destruct (Z.leb_spec (Z.of_N expires) (Z.of_N now)); [done|]. case_bool_decide as Hex; [done|].
  intros [= <-]. split_and!; [lia|done|by apply eq_None_not_Some|done].
Qed.
Lemma insert_lease_row_ok lease owner pid now expires t k t' :
  db_ok t → insert_lease_row lease owner pid now expires t k = Ok t' → db_ok t'.
Proof.
  intros Hok (Hlt & Hmax & _ & ->)%insert_lease_row_inv. apply with_leases_ok; [done|].
  intros e r. rewrite lookup_insert. case_decide; [|apply (ok_leases t Hok)].
  intros [= <-]. unfold lease_ok. cbn. lia.
Qed.

(** The rows of the guard that are still live get the new times. *)
Lemma renew_lookup (lease owner : string) (now expires : Z) (m : gmap (string * ObjectKey) lease_row) (e : string * ObjectKey) :
  ((renew_row now expires <$> filter (renewable lease owner now) m) ∪ m) !! e =
    (λ r, if decide (renewable lease owner now (e, r)) then renew_row now expires r else r) <$> m !! e.
Proof.
  rewrite lookup_union, lookup_fmap, map_lookup_filter.
  destruct (m !! e) as [r|]; cbn; [|done].
  destruct (decide (renewable lease owner now (e, r))) eqn:E; rewrite ?E; cbn; [by rewrite option_guard_True|by rewrite option_guard_False].
Qed.

Lemma renew_lease_inv lease owner now expires s s' b :
  renew_lease lease owner now expires s = (s', Ok b) →
  let t := rp_tables s in
  let mine := filter (owned lease owner) (t_leases t) in
  let live := filter (renewable lease owner (Z.of_N now)) (t_leases t) in
  (Z.of_N expires <= I64_MAX)%Z ∧
  (∀ e r, live !! e = Some r → (ls_acquired r <= Z.of_N now < Z.of_N expires)%Z) ∧
  s' = with_tables s (with_leases t ((renew_row (Z.of_N now) (Z.of_N expires) <$> live) ∪ t_leases t)) ∧
  b = (0 <? size mine)%nat && (size live =? size mine)%nat.
Proof.
  unfold renew_lease, transact. destruct (_ ≫= _) as [[t b']|e] eqn:E; [|done].
  intros [= <- <-]. revert E. intros (n & [-> Hn]%sqlite_u64_Ok & H)%bind_Ok. revert H.
  intros (x & [-> Hx]%sqlite_u64_Ok & H)%bind_Ok. revert H.
  destruct (exists_row _ _) eqn:Hex; [done|]. intros [= <- <-]. split_and!; [done| |done..].
  intros e r Hr. pose proof (exists_row_false _ _ _ _ Hex Hr) as Hf. cbn in Hf.
  apply orb_false_iff in Hf as [H1%Z.ltb_ge H2%Z.leb_gt]. lia.
Qed.

(** ** Operations *)

(** Keeping the invariant, errors included. *)
Definition keeps {A} (m : io A) : Prop := ∀ s, db_ok (rp_tables s) → db_ok (rp_tables (m s).1).

Lemma keeps_ret {A} (a : A) : keeps (mret a).
Proof. by intros s. Qed.
Lemma keeps_lift {A} (r : result MetadataError A) : keeps (lift r).
Proof. by intros s. Qed.
Lemma keeps_gets {A} (f : repo → A) : keeps (gets f).
Proof. by intros s. Qed.
Lemma keeps_throw {A} e : keeps (throw (A := A) e).
Proof. by intros s. Qed.
Lemma keeps_bind {A B} (m : io A) (k : A → io B) : keeps m → (∀ a, keeps (k a)) → keeps (m ≫= k).
Proof.
  intros Hm Hk s Hs. unfold mbind, M_bind. specialize (Hm s Hs).
  destruct (m s) as [s1 [a|e]]; cbn in *; [by apply Hk|done].
Qed.
Lemma keeps_each {A} (f : A → io ()) l : (∀ a, keeps (f a)) → keeps (each_m f l).
Proof. intros Hf. induction l as [|a l IH]; cbn; [apply keeps_ret|]. by apply keeps_bind. Qed.
Lemma keeps_fold {A B} (f : B → A → io B) b l : (∀ b a, keeps (f b a)) → keeps (fold_m f b l).
Proof. intros Hf. revert b. induction l as [|a l IH]; intros b; cbn; [apply keeps_ret|]. by apply keeps_bind. Qed.
Lemma keeps_transact {A} (f : tables → result MetadataError (tables * A)) :
  (∀ t t' a, db_ok t → f t = Ok (t', a) → db_ok t') → keeps (transact f).
Proof.
  intros Hf s Hs. unfold transact. destruct (f (rp_tables s)) as [[t a]|e] eqn:E; cbn; [by eapply Hf|done].
Qed.
Lemma keeps_transact_ (f : tables → result MetadataError tables) :
  (∀ t t', db_ok t → f t = Ok t' → db_ok t') → keeps (transact_ f).
Proof.
  intros Hf. apply keeps_transact. intros t t' [] Hok. destruct (f t) eqn:E; [|done].
  intros [= <-]. by eapply Hf.
Qed.
Lemma keeps_modify (f : repo → repo) : (∀ s, db_ok (rp_tables s) → db_ok (rp_tables (f s))) → keeps (modify f).
Proof. done. Qed.
Lemma keeps_published k : keeps (ensure_published k).
Proof. intros s Hs. unfold ensure_published. by destruct (is_published _ k). Qed.
Create HintDb keeps discriminated.
#[export] Hint Constants Opaque : keeps.
#[export] Hint Resolve keeps_ret keeps_lift keeps_gets keeps_throw keeps_bind keeps_each keeps_fold
  keeps_published : keeps.
Ltac keep := repeat (first [ progress auto with keeps | apply keeps_bind; [|intros] | apply keeps_each; intros
                            | apply keeps_fold; intros | case_match; simpl ]).

Lemma publish_object_ok r g c at_ t t' : db_ok t → publish_object r g c at_ t = Ok t' → db_ok t'.
Proof.
  intros Hok. unfold publish_object. intros (t1 & H1 & H2)%bind_Ok.
  eapply upsert_access_ok; [|exact H2]. eapply upsert_object_ok; [exact Hok|exact H1].
Qed.
Lemma keeps_publish r g c at_ : keeps (transact_ (publish_object r g c at_)).
Proof. apply keeps_transact_. intros t t'. apply publish_object_ok. Qed.
Lemma fold_res_ok {A} (f : tables → A → result MetadataError tables) l t t' :
  (∀ t a t', db_ok t → f t a = Ok t' → db_ok t') → db_ok t → fold_res f t l = Ok t' → db_ok t'.
Proof. intros Hf Hok H. eapply fold_res_inv; [exact Hok| |exact H]. intros b a b' _ Hb Hb'. by eapply Hf. Qed.
Lemma keeps_file k : keeps (file_of k).
Proof. unfold file_of. keep. Qed.
#[export] Hint Resolve keeps_publish keeps_file : keeps.

Lemma keeps_record_publication r : keeps (record_publication r).
Proof. unfold record_publication. keep. Qed.
Lemma keeps_record_plan_publication r g : keeps (record_plan_publication r g).
Proof. unfold record_plan_publication. keep. Qed.
Lemma keeps_record_graph_publication r : keeps (record_graph_publication r).
Proof.
  unfold record_graph_publication. case_match; [keep..| |keep]. keep. apply keeps_transact_.
  intros t t' Hok. intros (t1 & H1 & H2)%bind_Ok. revert H2. intros (t2 & H2 & H3)%bind_Ok.
  eapply upsert_access_ok; [|exact H3]. eapply upsert_graph_edges_ok; [|exact H2].
  apply set_graph_complete_ok. eapply upsert_object_ok; [exact Hok|exact H1].
Qed.
Lemma keeps_record_access keys at_ : keeps (record_access keys at_).
Proof.
  unfold record_access. keep. apply keeps_transact_. intros t t'. apply fold_res_ok.
  intros. by eapply upsert_access_ok.
Qed.
Lemma keeps_record_published_object k now : keeps (record_published_object k now).
Proof. unfold record_published_object. keep. Qed.
Lemma keeps_record_to_publish k : keeps (record_to_publish k).
Proof. unfold record_to_publish. keep. Qed.
#[export] Hint Resolve keeps_record_to_publish keeps_record_graph_publication keeps_record_published_object
  keeps_record_access : keeps.
Lemma keeps_batch keys now : keeps (record_published_objects_batch keys now).
Proof.
  unfold record_published_objects_batch. case_match; [keep|]. keep. apply keeps_transact_.
  intros t t'. apply fold_res_ok. intros. by eapply publish_object_ok.
Qed.
Lemma keeps_record_graph_with_inventory g i h : keeps (record_graph_with_inventory_and_size g i h).
Proof. unfold record_graph_with_inventory_and_size. keep. Qed.
Lemma upsert_derived_ok t r t' : db_ok t → upsert_derived t r = Ok t' → db_ok t'.
Proof.
  intros Hok. unfold upsert_derived. intros (u & _ & H)%bind_Ok. revert H.
  intros (size & [-> Hs]%sqlite_u64_Ok & H)%bind_Ok. revert H.
  intros (pub & [-> Hp]%sqlite_u64_Ok & H)%bind_Ok.
  eapply put_object_ok; [done|exact H|cbn; lia|by split|done].
Qed.
Lemma keeps_publish_derived r : keeps (publish_derived r).
Proof. apply keeps_transact_. intros t t'. apply upsert_derived_ok. Qed.
Lemma keeps_access_derived r at_ : keeps (access_derived r at_).
Proof.
  apply keeps_transact_. intros t t' Hok. intros (t1 & H1 & H2)%bind_Ok.
  eapply upsert_access_ok; [|exact H2]. by eapply upsert_derived_ok.
Qed.
Lemma keeps_replace_project_graph_ref cwd root g at_ : keeps (replace_project_graph_ref cwd root g at_).
Proof.
  unfold replace_project_graph_ref. keep. apply keeps_transact_. intros t t' Hok. by apply upsert_project_ref_ok.
Qed.
Lemma keeps_write_registration cwd key root g now : keeps (write_durable_registration cwd key root g now).
Proof. unfold write_durable_registration. keep. by apply keeps_modify. Qed.
Lemma keeps_insert_lease lease owner pid keys now expires : keeps (insert_lease lease owner pid keys now expires).
Proof.
  apply keeps_transact_. intros t t'. apply fold_res_ok. intros. by eapply insert_lease_row_ok.
Qed.
Lemma keeps_renew lease owner now expires : keeps (renew_lease lease owner now expires).
Proof.
  intros s Hs. destruct (renew_lease lease owner now expires s) as [s' [b|e]] eqn:E; cbn.
  - apply renew_lease_inv in E as (Hmax & Hlive & -> & _). cbn. apply with_leases_ok; [done|].
    intros e r. rewrite renew_lookup. intros (r0 & Hr0 & ->)%fmap_Some. case_decide as Hren.
    + assert (Hl : (ls_acquired r0 <= Z.of_N now < Z.of_N expires)%Z)
        by (apply (Hlive e r0); by apply map_lookup_filter_Some).
      apply (ok_leases _ Hs) in Hr0 as [? ?]. unfold lease_ok. cbn. lia.
    + by eapply (ok_leases _ Hs).
  - unfold renew_lease, transact in E. destruct (_ ≫= _) as [[t b]|e']; [done|]. by injection E as <- _.
Qed.
Lemma keeps_release lease owner : keeps (release_lease lease owner).
Proof.
  apply keeps_transact_. intros t t' Hok [= <-]. apply with_leases_ok; [done|].
  intros e r. rewrite map_lookup_filter_Some. intros [? _]. by eapply (ok_leases t Hok).
Qed.
#[export] Hint Resolve keeps_insert_lease keeps_release keeps_batch keeps_record_graph_with_inventory
  keeps_write_registration keeps_replace_project_graph_ref : keeps.
Lemma keeps_acquire lease owner pid keys options now : keeps (acquire_lease lease owner pid keys options now).
Proof. unfold acquire_lease. keep. Qed.
Lemma keeps_extend g keys now : keeps (extend g keys now).
Proof. unfold extend. keep. Qed.
Lemma beat_ok g now h s : db_ok (rp_tables s) → db_ok (rp_tables (beat g now h s).1).
Proof.
  intros Hs. unfold beat. destruct (hb_lost h); [done|]. destruct now as [now|]; [|done].
  destruct (checked_add_duration now (lg_ttl g)) as [expires|]; [|done].
  pose proof (keeps_renew (lg_lease g) (lg_owner g) now expires s Hs) as Hr.
  by destruct (renew_lease _ _ _ _ s) as [s' [[]|]].
Qed.

Lemma remove_stale_row_ok st k st' : db_ok st.1 → remove_stale_row st k = Ok st' → db_ok st'.1.
Proof.
  intros Hok. unfold remove_stale_row. destruct st as [t n].
  intros (t1 & H1 & [= <-])%bind_Ok. cbn in *.
  apply with_leases_ok.
  - apply with_access_ok. eapply delete_object_ok; [|exact H1]. destruct k; try done.
    eapply same_edges_ok; [exact Hok|done| |apply (ok_leases t Hok)].
    destruct (ok_edges t Hok) as [Ha Hd Hr]. constructor; [exact Ha|exact Hd|]. cbn.
    intros p r [Hr' _]%map_lookup_filter_Some. by apply Hr.
  - intros e r [Hr _]%map_lookup_filter_Some. cbn in Hr.
    assert (Hl : t_leases t1 = t_leases t).
    { apply delete_object_inv in H1 as [[-> _]|(_ & _ & _ & _ & -> & _)]; by destruct k. }
    rewrite Hl in Hr. by eapply (ok_leases t Hok).
Qed.
Lemma repair_object_ok observed t o t' : db_ok t → repair_object observed t o = Ok t' → db_ok t'.
Proof.
  intros Hok. unfold repair_object. intros (t1 & H1 & H2)%bind_Ok.
  eapply upsert_object_ok in H1 as [Hok1 _]; [|exact Hok].
  destruct (so_key o); try (by injection H2 as <-).
  destruct (complete_inventory observed (so_inventory o)) as [i|].
  - eapply upsert_graph_edges_ok; [|exact H2]. by apply set_graph_complete_ok.
  - injection H2 as <-. by apply delete_edges_ok, set_graph_complete_ok.
Qed.
Lemma repair_commit_ok observed stale regs t t' r :
  db_ok t → repair_commit observed stale regs t = Ok (t', r) → db_ok t'.
Proof.
  intros Hok. unfold repair_commit. intros (t1 & H1 & H)%bind_Ok. revert H.
  intros ([t2 n] & H2 & H)%bind_Ok. revert H. intros (t3 & H3 & [= <- <-])%bind_Ok.
  eapply fold_res_ok; [| |exact H3].
  { intros ta a tb Ha. unfold restore_ref. case_bool_decide; [|by intros [= <-]]. by apply upsert_project_ref_ok. }
  apply (fold_res_inv (λ st, db_ok st.1) remove_stale_row stale (t1, 0) (t2, n)); [| |exact H2].
  - cbn. eapply fold_res_ok; [| |exact H1]; [|done]. intros. by eapply repair_object_ok.
  - intros b a b' _. apply remove_stale_row_ok.
Qed.
Lemma keeps_repair cwd key : keeps (repair_index cwd key).
Proof.
  intros s. unfold repair_index. apply keeps_transact. intros t t' r. apply repair_commit_ok.
Qed.

(** What other processes do keeps the invariant as well. *)
Record env_ok (env : gc_env) : Prop := mk_env_ok {
  eo_start : ∀ s, db_ok (rp_tables s) → db_ok (rp_tables (ge_start env s));
  eo_others : ∀ k s, db_ok (rp_tables s) → db_ok (rp_tables (ge_others env k s)) }.

Lemma keeps_delete_one env now k : env_ok env → keeps (delete_one env now k).
Proof.
  intros He. unfold delete_one. apply keeps_bind; [apply keeps_modify; by apply eo_others|]. intros _.
  keep. 1: by apply keeps_modify. apply keeps_transact_. intros t t' Hok. by apply delete_object_ok.
Qed.
#[export] Hint Resolve keeps_delete_one : keeps.
Lemma keeps_collect cwd key env policy now : env_ok env → keeps (collect cwd key env policy now).
Proof.
  intros He. unfold collect. apply keeps_bind; [apply keeps_repair|]. intros repaired.
  apply keeps_bind; [apply keeps_modify; by apply eo_start|]. intros _. keep.
  unfold collect_one. destruct (find _ _) as [[k row]|]; keep.
Qed.

(** ** Sequences of operations *)

(** What a process or the file system does to a repository. *)
Inductive op :=
  | RecordPublication (r : ObjectRecord)
  | RecordPlan (r : ObjectRecord) (graph : string)
  | RecordGraph (r : GraphRecord)
  | RecordGraphInventory (graph : string) (i : GraphInventory) (hint : option N)
  | RecordAccess (keys : list ObjectKey) (at_ : N)
  | RecordPublished (k : ObjectKey) (now : N)
  | RecordBatch (keys : list ObjectKey) (now : N)
  | PublishDerived (r : DerivedRecord)
  | AccessDerived (r : DerivedRecord) (at_ : N)
  | ReplaceRef (root graph : string) (at_ : N)
  | Register (root graph : string) (now : N)
  | Acquire (lease owner : string) (pid : N) (keys : list ObjectKey) (options : LeaseOptions) (now : N)
  | Extend (g : LeaseGuard) (keys : list ObjectKey) (now : N)
  | Renew (lease owner : string) (now expires : N)
  | Release (lease owner : string)
  | Repair
  | CommitRepair (seen : repo)
  | Collect (lock unlink : ObjectKey → bool) (snapshots : N) (policy : GcPolicy) (now : N)
  | Files (files : gmap ObjectKey fs_object) (regs : gmap string RegistrationFile).

Section run.
Variable cwd : string.
Variable registration_key : string → string.

(** [CommitRepair seen] is a reconciliation that looked at [seen] and commits now. *)
Definition run_op (s : repo) (o : op) : repo :=
  match o with
  | RecordPublication r => (record_publication r s).1
  | RecordPlan r g => (record_plan_publication r g s).1
  | RecordGraph r => (record_graph_publication r s).1
  | RecordGraphInventory g i h => (record_graph_with_inventory_and_size g i h s).1
  | RecordAccess keys at_ => (record_access keys at_ s).1
  | RecordPublished k now => (record_published_object k now s).1
  | RecordBatch keys now => (record_published_objects_batch keys now s).1
  | PublishDerived r => (publish_derived r s).1
  | AccessDerived r at_ => (access_derived r at_ s).1
  | ReplaceRef root g at_ => (replace_project_graph_ref cwd root g at_ s).1
  | Register root g now => (write_durable_registration cwd registration_key root g now s).1
  | Acquire lease owner pid keys options now => (acquire_lease lease owner pid keys options now s).1
  | Extend g keys now => (extend g keys now s).1
  | Renew lease owner now expires => (renew_lease lease owner now expires s).1
  | Release lease owner => (release_lease lease owner s).1
  | Repair => (repair_index cwd registration_key s).1
  | CommitRepair seen =>
      (transact (repair_commit (scan_namespaces (rp_files seen)) (stale_rows seen)
         (scan_registration_files cwd registration_key (rp_regs seen))) s).1
  | Collect lock unlink snapshots policy now =>
      (collect cwd registration_key (mk_gc_env lock unlink id (λ _, id) snapshots) policy now s).1
  | Files files regs => mk_repo (rp_tables s) files regs
  end.
Definition run_ops (s : repo) (ops : list op) : repo := foldl run_op s ops.

End run.
