(* ===== verification/MetadataSafety.v ===== *)
(** * What the collector leaves alone

    A protected object keeps its files through a collection, whatever is
    deleted around it; the files of a registered project's graph are protected
    by any reconciliation that succeeds, even from an empty database; and
    reconciliation succeeds unless a plan lost its graph. *)

From S2P Require Export MetadataTheory.
From Stdlib Require Import Ascii.

(** ** Protection *)

Lemma attachedP t g : attached t g = true ↔ ∃ p r, t_refs t !! p = Some r ∧ rf_graph r = g.
Proof. unfold attached. rewrite exists_rowP. by setoid_rewrite bool_decide_eq_true. Qed.

Definition complete (t : tables) (g : string) : Prop :=
  ∃ row, t_objects t !! OGraph g = Some row ∧ or_complete row = Some true.
Lemma completeP t g : graph_already_complete t g = true ↔ complete t g.
Proof.
  unfold graph_already_complete, complete. rewrite bool_decide_eq_true.
  destruct (t_objects t !! OGraph g); cbn; naive_solver.
Qed.

(** The objects a complete graph stands for. *)
Definition member (t : tables) (g : string) (k : ObjectKey) : Prop :=
  match k with
  | OGraph g' => g' = g
  | OArtifact a => ∃ image, t_graph_artifacts t !! (g, a) = Some image
  | OImage a => t_graph_artifacts t !! (g, a) = Some true
  | ODerived d => (g, d) ∈ t_graph_derived t
  | OPlan _ => False
  end.

Lemma by_artifact_edgeP t a needs :
  by_artifact_edge t a needs = true ↔
  ∃ g image, t_graph_artifacts t !! (g, a) = Some image ∧ needs image = true ∧ attached t g = true ∧ complete t g.
Proof.
  unfold by_artifact_edge. rewrite exists_rowP. split.
  - intros ([g a'] & image & Hi & [[[<-%bool_decide_eq_true Hn]%andb_true_iff Hat]%andb_true_iff Hc%completeP]%andb_true_iff).
    cbn in *. eauto 6.
  - intros (g & image & Hi & Hn & Hat & Hc%completeP). exists (g, a), image. split; [done|]. cbn.
    by rewrite bool_decide_eq_true_2, Hn, Hat, Hc by done.
Qed.
Lemma by_derived_edgeP t d :
  by_derived_edge t d = true ↔ ∃ g, (g, d) ∈ t_graph_derived t ∧ attached t g = true ∧ complete t g.
Proof.
  unfold by_derived_edge. rewrite existsb_exists. split.
  - intros ([g d'] & Hi%list_elem_of_In%elem_of_elements & [[<-%bool_decide_eq_true Hat]%andb_true_iff Hc%completeP]%andb_true_iff).
    cbn in *. eauto.
  - intros (g & Hi & Hat & Hc%completeP). exists (g, d). split; [by apply list_elem_of_In, elem_of_elements|]. cbn.
    by rewrite bool_decide_eq_true_2, Hat, Hc by done.
Qed.

Lemma member_protected t g k now :
  attached t g = true → complete t g → member t g k → protection t k now = true.
Proof.
  intros Hat Hc Hm. unfold protection. apply orb_true_iff. right.
  destruct k as [a|a|d|g'|p]; cbn in *; [| | | |done]; apply orb_true_iff; left.
  - destruct Hm as [image Hi]. apply by_artifact_edgeP. eauto 6.
  - apply by_artifact_edgeP. eauto 6.
  - apply by_derived_edgeP. eauto.
  - by rewrite Hm.
Qed.

(** The recheck at deletion time and the candidate query decide alike,
    branch by branch. *)
Theorem protection_in_sync t k now : candidate_protected t k now = protection t k now.
Proof.
  unfold candidate_protected, protection. destruct (has_lease t k now); [done|].
  destruct k as [id|id|id|id|id]; cbn.
  - by destruct (by_artifact_edge t id (λ _, true)).
  - by destruct (by_artifact_edge t id (λ image, image)).
  - by destruct (by_derived_edge t id).
  - by destruct (attached t id), (bool_decide ((t_objects t !! OGraph id) ≫= or_complete = Some false)).
  - done.
Qed.

Lemma not_cascaded t k k' :
  db_ok t → key_kind k' ≠ KImage → key_kind k' ≠ KPlan → ¬ cascades t k k'.
Proof.
  intros Hok H1 H2. destruct k; cbn; try tauto; [intros ->; by apply H1|].
  intros (row & Hrow & Hg). apply (ok_rows t Hok) in Hrow as (_ & _ & [Hno _] & _).
  rewrite Hno in Hg by done. done.
Qed.

(** Deleting an unprotected object takes no protection from another. *)
Lemma protection_delete t k t' k' now :
  db_ok t → delete_object t k = Ok t' → protection t k now = false →
  protection t k' now = true → protection t' k' now = true.
Proof.
  intros Hok [[-> _]|(Hh & Hfree & Hp & Hr & Hl & Hacc & Hobj & Ha & Hd)]%delete_object_inv Hk; [done|].
  assert (Hat : ∀ g, attached t' g = attached t g) by (intros g; unfold attached; by rewrite Hr).
  unfold protection in Hk. apply orb_false_iff in Hk as [_ Hk].
  assert (Hgraph : ∀ g, attached t g = true → complete t g → k ≠ OGraph g ∧ complete t' g).
  { intros g Hg (row & Hrow & Hc).
    assert (k ≠ OGraph g) by (intros ->; by rewrite Hg in Hk).
    split; [done|]. exists row. split; [|done]. apply Hobj. split_and!; [done..|]. by apply not_cascaded. }
  assert (Hinc : ∀ k0 row, t_objects t !! k0 = Some row → key_kind k0 = KGraph → or_complete row = Some false →
    t_objects t' !! k0 = Some row).
  { intros k0 row Hrow Hkind Hc. apply Hobj. split_and!; [done| |apply not_cascaded; [done|congruence..]].
    intros <-. destruct k0; try done. cbn in Hk. rewrite Hrow in Hk. cbn in Hk.
    rewrite (bool_decide_eq_true_2 _ Hc), orb_true_r in Hk. done. }
  assert (Hincomplete : incomplete_graph t = true → incomplete_graph t' = true).
  { unfold incomplete_graph. rewrite !exists_rowP.
    intros (k0 & row & Hrow & [Hkind%bool_decide_eq_true Hc%bool_decide_eq_true]%andb_true_iff).
    exists k0, row. split; [by apply Hinc|]. by rewrite !bool_decide_eq_true_2. }
  assert (Hae : ∀ a needs, by_artifact_edge t a needs = true → by_artifact_edge t' a needs = true).
  { intros a needs (g & image & Hi & Hn & Hg & Hc)%by_artifact_edgeP.
    destruct (Hgraph g Hg Hc) as [Hne Hc']. apply by_artifact_edgeP. exists g, image.
    split_and!; [by apply Ha|done|by rewrite Hat|done]. }
  unfold protection. rewrite !orb_true_iff. unfold has_lease. rewrite Hl. intros [Hlease|Hrest]; [by left|right].
  destruct k' as [a|a|d|g|p]; cbn in *; [| | | |done]; apply orb_true_iff in Hrest; apply orb_true_iff.
  - destruct Hrest; auto.
  - destruct Hrest; auto.
  - destruct Hrest as [(g & Hi & Hg & Hc)%by_derived_edgeP|]; [left|by right; apply Hincomplete].
    destruct (Hgraph g Hg Hc) as [Hne Hc']. apply by_derived_edgeP. exists g.
    split_and!; [by apply Hd|by rewrite Hat|done].
  - destruct Hrest as [Hg|Hc%bool_decide_eq_true]; [left; by rewrite Hat|right]. apply bool_decide_eq_true.
    destruct (t_objects t !! OGraph g) as [row|] eqn:Hrow; [|done]. by rewrite (Hinc _ row Hrow).
Qed.

(** ** Collection *)

(** An object in place and protected. *)
Definition held (now : Z) (k : ObjectKey) (f : fs_object) (s : repo) : Prop :=
  db_ok (rp_tables s) ∧ protection (rp_tables s) k now = true ∧ rp_files s !! k = Some f.

Lemma delete_one_held env now k0 k f s :
  (∀ k0 s, held now k f s → held now k f (ge_others env k0 s)) →
  held now k f s → held now k f (delete_one env now k0 s).1.
Proof.
  intros Hothers (Hok & Hp & Hf)%(Hothers k0). unfold delete_one.
  rewrite (bind_run _ _ _ (ge_others env k0 s) ()) by done.
  set (s1 := ge_others env k0 s) in *. destruct (ge_lock env k0); [|done]. cbn [negb].
  rewrite (bind_run _ _ _ s1 (rp_files s1)) by done.
  destruct (is_published _ k0); [|done]. cbn [negb]. rewrite (bind_run _ _ _ s1 (rp_tables s1)) by done.
  destruct (protection (rp_tables s1) k0 now) eqn:Hp0; [done|]. destruct (ge_unlink env k0); [|done]. cbn [negb].
  set (s2 := with_files s1 (delete k0 (rp_files s1))). rewrite (bind_run _ _ _ s2 ()) by done.
  assert (Hf2 : rp_files s2 !! k = Some f).
  { cbn. rewrite lookup_delete_ne; [done|]. intros ->. congruence. }
  unfold transact_, transact, mbind, M_bind. cbn [rp_tables s2 with_files].
  destruct (delete_object (rp_tables s1) k0) as [t'|e] eqn:Hd; cbn; [|done].
  split_and!; [by eapply delete_object_ok|by eapply protection_delete|exact Hf2].
Qed.

Lemma fold_m_inv {A B} (P : repo → Prop) (f : B → A → io B) b l s :
  (∀ b a s, P s → P (f b a s).1) → P s → P (fold_m f b l s).1.
Proof.
  intros Hf. revert b s. induction l as [|a l IH]; intros b s Hs; cbn; [done|].
  unfold mbind, M_bind. specialize (Hf b a s Hs). destruct (f b a s) as [s1 [b1|e]]; [by apply IH|done].
Qed.


(** ** Reconciliation *)

Lemma parse_graph_inventory_valid meta i :
  parse_graph_inventory meta = Some i →
  (∀ a, a ∈ gi_artifacts i → is_ok (validate_id KArtifact a.1) = true) ∧ NoDup (gi_artifacts i).*1 ∧
  (∀ d, d ∈ gi_derived i → is_ok (validate_id KDerived d) = true) ∧ NoDup (gi_derived i).
Proof.
  unfold parse_graph_inventory. destruct (forallb _ (vm_artifacts meta)) eqn:Ha; [|done].
  case_bool_decide as Hna; [|done]. destruct (forallb _ (vm_derived meta)) eqn:Hd; [|done].
  case_bool_decide as Hnd; [|done]. cbn. intros [= <-]. cbn.
  rewrite forallb_forall in Ha, Hd. split_and!.
  - intros a Hin%elem_of_sort_by%list_elem_of_In. apply Ha in Hin. unfold validate_id. cbn [id_length].
    unfold valid_hex in Hin. by rewrite Hin.
  - by rewrite (sort_by_perm inventory_leb (vm_artifacts meta)).
  - intros d Hin%elem_of_sort_by%list_elem_of_In. apply Hd in Hin. unfold validate_id. cbn [id_length].
    unfold valid_hex in Hin. by rewrite Hin.
  - by rewrite (sort_by_perm String.leb (vm_derived meta)).
Qed.
Lemma read_graph_inventory_valid f i :
  read_graph_inventory f = Some i →
  (∀ a, a ∈ gi_artifacts i → is_ok (validate_id KArtifact a.1) = true) ∧ NoDup (gi_artifacts i).*1 ∧
  (∀ d, d ∈ gi_derived i → is_ok (validate_id KDerived d) = true) ∧ NoDup (gi_derived i).
Proof.
  unfold read_graph_inventory. intros ([len parsed] & _ & H)%bind_Some. revert H.
  intros (meta & _ & H)%bind_Some. destruct (vm_inventory_version meta <? INVENTORY_VERSION)%N; [done|].
  by apply parse_graph_inventory_valid in H.
Qed.

(** What a scan sees. *)
Lemma scan_one_key files k o :
  scan_one files k = Some o →
  so_key o = k ∧ is_published files k = true ∧ is_ok (validate_id (key_kind k) (key_id k)) = true ∧
  ∃ file, files !! k = Some file ∧ rec_size (so_record o) = fo_size file ∧ rec_published_at (so_record o) = fo_modified file ∧
    match k with
    | OPlan _ => is_Some (so_plan_graph o) ∧ so_plan_graph o = plan_graph_id file
    | OGraph _ => so_inventory o = read_graph_inventory file
    | _ => True
    end.
Proof.
  unfold scan_one. intros (file & Hf & H)%bind_Some. revert H.
  destruct (is_ok _) eqn:Hid; [|done]. destruct (is_published files k) eqn:Hp; [|done]. cbn.
  destruct k as [id|id|id|id|id]; cbn; try (intros [= <-]; split_and!; [done..|]; exists file; by split_and!).
  intros (g & Hg & [= <-])%bind_Some. split_and!; [done..|]. exists file. split_and!; [done..|by eexists|done].
Qed.
Lemma elem_of_scan files o :
  o ∈ scan_namespaces files ↔ scan_one files (so_key o) = Some o.
Proof.
  unfold scan_namespaces. rewrite list_elem_of_omap. split.
  - intros (k & _ & Ho). destruct (scan_one_key _ _ _ Ho) as [-> _]. exact Ho.
  - intros Ho. exists (so_key o). split; [|done]. apply elem_of_sort_by.
    destruct (scan_one_key _ _ _ Ho) as (_ & _ & _ & file & Hf & _).
    apply list_elem_of_fmap. exists (so_key o, file). split; [done|]. by apply elem_of_map_to_list.
Qed.
Lemma scanned files k :
  k ∈ so_key <$> scan_namespaces files ↔ is_Some (scan_one files k).
Proof.
  rewrite list_elem_of_fmap. split.
  - intros (o & -> & Ho%elem_of_scan). by eexists.
  - intros [o Ho]. exists o. destruct (scan_one_key _ _ _ Ho) as [<- _]. split; [done|]. by apply elem_of_scan.
Qed.
Lemma scanned_published files k : k ∈ so_key <$> scan_namespaces files → is_published files k = true.
Proof. rewrite scanned. intros [o (_ & Hp & _)%scan_one_key]. exact Hp. Qed.
Lemma published_scanned files k file :
  files !! k = Some file → is_published files k = true → is_ok (validate_id (key_kind k) (key_id k)) = true →
  match k with OPlan _ => is_Some (plan_graph_id file) | _ => True end →
  k ∈ so_key <$> scan_namespaces files.
Proof.
  intros Hf Hp Hid Hplan. rewrite scanned. unfold scan_one. rewrite Hf. cbn. rewrite Hid, Hp. cbn.
  destruct k; cbn; try by eexists. destruct Hplan as [g ->]. by eexists.
Qed.

(** The rows and edges of a graph as its inventory says. *)
Definition graph_is (g : string) (i : GraphInventory) (t : tables) : Prop :=
  complete t g ∧
  (∀ a image, t_graph_artifacts t !! (g, a) = Some image ↔ (a, image) ∈ gi_artifacts i) ∧
  (∀ d, (g, d) ∈ t_graph_derived t ↔ d ∈ gi_derived i).

Lemma put_object_lookup t k row fk t' :
  put_object t k row fk = Ok t' →
  (∀ k', k' ≠ k → t_objects t' !! k' = t_objects t !! k') ∧
  t_graph_artifacts t' = t_graph_artifacts t ∧ t_graph_derived t' = t_graph_derived t ∧ t_refs t' = t_refs t ∧
  t_leases t' = t_leases t ∧ t_projects t' = t_projects t.
Proof.
  intros (_ & _ & _ & row' & -> & _)%put_object_inv. split; [|done].
  intros k' Hn. cbn. by rewrite lookup_insert_ne by done.
Qed.
Lemma upsert_object_put t r g c t' :
  upsert_object t r g c = Ok t' → ∃ row fk, put_object t (rec_key r) row fk = Ok t'.
Proof.
  unfold upsert_object. intros (size & _ & H)%bind_Ok. revert H.
  intros (pub & _ & H)%bind_Ok. revert H. destruct (rec_key r) as [id|id|id|id|id]; [eauto..|].
  intros (gr & _ & H)%bind_Ok. revert H. intros (u & _ & H)%bind_Ok. eauto.
Qed.

(** What a step of reconciliation does to the graphs. *)
Lemma repair_object_graph observed t o t' g i :
  repair_object observed t o = Ok t' →
  (so_key o = OGraph g → complete_inventory observed (so_inventory o) = Some i) →
  (so_key o ≠ OGraph g → graph_is g i t) → has t' (so_key o) → graph_is g i t'.
Proof.
  unfold repair_object. intros (t1 & H1 & H2)%bind_Ok Hinv Hkeep Hhas.
  destruct (upsert_object_put _ _ _ _ _ H1) as (row & fk & Hput).
  destruct (put_object_lookup _ _ _ _ _ Hput) as (Hobj & Ha & Hd & _).
  destruct (decide (so_key o = OGraph g)) as [Hk|Hk].
  - rewrite Hk, (Hinv Hk) in H2. pose proof (upsert_graph_edges_lookup _ _ _ _ _ H2) as [Hea Hed].
    pose proof (upsert_graph_edges_same _ _ _ _ _ H2) as (Ho & _).
    split_and!.
    + destruct Hhas as [r0 Hr0]. rewrite Hk in Hr0. unfold complete. rewrite Hr0. exists r0. split; [done|].
      rewrite Ho, set_graph_complete_lookup in Hr0. apply fmap_Some in Hr0 as (r1 & _ & ->).
      by rewrite decide_True.
    + intros a image. rewrite Hea. naive_solver.
    + intros d. rewrite Hed. naive_solver.
  - destruct (Hkeep Hk) as ((r0 & Hr0 & Hc) & Hga & Hgd).
    assert (Hsame : graph_is g i t1).
    { split_and!; [|by setoid_rewrite Ha|by setoid_rewrite Hd]. exists r0. split; [|done]. rewrite Hobj; [done|by intros E; apply Hk]. }
    clear r0 Hr0 Hc. destruct (so_key o) as [id|id|id|id|id] eqn:Ek; try (by injection H2 as <-).
    assert (Hne : g ≠ id) by congruence. clear Hga Hgd. destruct Hsame as ((r0 & Hr0 & Hc) & Hga & Hgd).
    destruct (complete_inventory observed (so_inventory o)) as [i'|].
    + pose proof (upsert_graph_edges_lookup _ _ _ _ _ H2) as [Hea Hed].
      pose proof (upsert_graph_edges_same _ _ _ _ _ H2) as (Ho & _). split_and!.
      * exists r0. split; [|done]. rewrite Ho, set_graph_complete_lookup, Hr0. simpl. destruct (decide (OGraph g = OGraph id)); [congruence|done].
      * intros a image. rewrite Hea, <- Hga. cbn. naive_solver.
      * intros d. rewrite Hed, <- Hgd. cbn. naive_solver.
    + injection H2 as <-. split_and!.
      * exists r0. split; [|done]. change (t_objects (delete_edges (set_graph_complete t1 id false) id))
          with (t_objects (set_graph_complete t1 id false)).
        rewrite set_graph_complete_lookup, Hr0. simpl. destruct (decide (OGraph g = OGraph id)); [congruence|done].
      * intros a image. rewrite <- Hga. cbn. rewrite map_lookup_filter_Some. cbn. naive_solver.
      * intros d. rewrite <- Hgd. cbn. rewrite elem_of_filter. cbn. naive_solver.
Qed.

(** Rows of published graphs outlive the removal of stale rows. *)
Lemma remove_stale_row_inv t n k t' n' :
  remove_stale_row (t, n) k = Ok (t', n') →
  ∃ t1, delete_object
      (match k with
       | OGraph id => with_projects t (t_projects t) (filter (λ e : string * ref_row, rf_graph e.2 ≠ id) (t_refs t))
       | _ => t
       end) k = Ok t1 ∧
    t_objects t' = t_objects t1 ∧ t_graph_artifacts t' = t_graph_artifacts t1 ∧
    t_graph_derived t' = t_graph_derived t1 ∧ t_projects t' = t_projects t1 ∧ t_refs t' = t_refs t1.
Proof.
  unfold remove_stale_row. intros (t1 & H1 & [= <- _])%bind_Ok. exists t1. split; [exact H1|done].
Qed.

(** What the removal of a stale row leaves, whatever the row. *)
Lemma remove_stale_row_spec t n k t' n' :
  remove_stale_row (t, n) k = Ok (t', n') →
  (∀ k' row, t_objects t' !! k' = Some row ↔ t_objects t !! k' = Some row ∧ k' ≠ k ∧ ¬ (has t k ∧ cascades t k k')) ∧
  (∀ g a image, t_graph_artifacts t' !! (g, a) = Some image → t_graph_artifacts t !! (g, a) = Some image) ∧
  (∀ g a image, k ≠ OGraph g → t_graph_artifacts t !! (g, a) = Some image → t_graph_artifacts t' !! (g, a) = Some image) ∧
  (∀ g d, (g, d) ∈ t_graph_derived t' → (g, d) ∈ t_graph_derived t) ∧
  (∀ g d, k ≠ OGraph g → (g, d) ∈ t_graph_derived t → (g, d) ∈ t_graph_derived t') ∧
  (∀ p r, t_refs t' !! p = Some r → t_refs t !! p = Some r) ∧ t_projects t' = t_projects t.
Proof.
  intros (t1 & Hdel & Eo & Ea & Ed & Ep & Er)%remove_stale_row_inv. rewrite Eo, Ea, Ed, Er, Ep.
  set (t0 := match k with OGraph id => _ | _ => t end) in Hdel.
  assert (H0 : t_objects t0 = t_objects t ∧ t_graph_artifacts t0 = t_graph_artifacts t ∧
    t_graph_derived t0 = t_graph_derived t ∧ t_projects t0 = t_projects t ∧
    (∀ p r, t_refs t0 !! p = Some r → t_refs t !! p = Some r)).
  { destruct k; subst t0; cbn; split_and!; try done. intros p r. rewrite map_lookup_filter_Some. tauto. }
  destruct H0 as (Ho & Ha & Hd & Hp & Hr).
  assert (Hhas : has t0 k ↔ has t k) by (unfold has; by rewrite Ho).
  assert (Hcas : ∀ k', cascades t0 k k' ↔ cascades t k k')
    by (intros k'; unfold cascades; destruct k; try done; by rewrite Ho).
  apply delete_object_inv in Hdel as [[-> Hno]|(Hh & Hfree & Hp' & Hr' & _ & _ & Hobj & Hea & Hed)].
  - rewrite Ho, Ha, Hd, Hp. split_and!; try done. intros k' row. split; [|tauto]. intros Hk.
    split_and!; [done| |tauto]. intros ->. apply Hno, Hhas. by eexists.
  - rewrite Hr', Hp', Hp. rewrite Hhas in Hh. split_and!; try done.
    + intros k' row. rewrite Hobj, Ho, Hcas. tauto.
    + intros g a image. rewrite Hea, Ha. tauto.
    + intros g a image. rewrite Hea, Ha. tauto.
    + intros g d. rewrite Hed, Hd. tauto.
    + intros g d. rewrite Hed, Hd. tauto.
Qed.

Lemma remove_stale_row_graph t n k t' n' g i :
  db_ok t → remove_stale_row (t, n) k = Ok (t', n') → k ≠ OGraph g → graph_is g i t → graph_is g i t'.
Proof.
  intros Hok (Hobj & Ha & Ha' & Hd & Hd' & _)%remove_stale_row_spec Hne ((row & Hrow & Hc) & Hga & Hgd). split_and!.
  - exists row. split; [|done]. apply Hobj. split_and!; [done|congruence|].
    intros [_ Hcas]. by eapply not_cascaded in Hcas.
  - intros a image. rewrite <- Hga. split; [apply Ha|by apply Ha'].
  - intros d. rewrite <- Hgd. split; [apply Hd|by apply Hd'].
Qed.

Lemma stale_rows_spec s k :
  k ∈ stale_rows s ↔ has (rp_tables s) k ∧ is_published (rp_files s) k = false.
Proof.
  unfold stale_rows, rows_of. rewrite list_elem_of_bind. split.
  - intros (kind & [Hp [Hk Hin]%list_elem_of_filter]%list_elem_of_filter & _).
    split; [|by destruct (is_published _ k)]. apply list_elem_of_fmap in Hin as ([k' row] & -> & Hrow%elem_of_map_to_list).
    by eexists.
  - intros [[row Hrow] Hp]. exists (key_kind k). split.
    + apply list_elem_of_filter. split; [rewrite Hp; by intros []|]. apply list_elem_of_filter. split; [done|].
      apply list_elem_of_fmap. exists (k, row). split; [done|]. by apply elem_of_map_to_list.
    + unfold stale_order. destruct (key_kind k); set_solver.
Qed.

(** ** Registered projects *)

Section registered.
Variable cwd : string.
Variable registration_key : string → string.

Notation regs s := (scan_registration_files cwd registration_key (rp_regs s)).

Lemma scan_registrations s p r :
  (p, r) ∈ regs s ↔ rp_regs s !! registration_key p = Some r ∧
    trusted_registration cwd registration_key (registration_key p) r = Some (p, r).
Proof.
  unfold scan_registration_files. rewrite elem_of_sort_by, list_elem_of_omap. split.
  - intros ([name r'] & Hin & Ht). cbn in Ht. revert Hin. rewrite elem_of_bt_list. intros Hr.
    assert (Hn : registration_key p = name ∧ r' = r).
    { unfold trusted_registration in Ht. destruct (negb _); [done|].
      destruct (ok _) as [c|]; [|done]. cbn in Ht. case_bool_decide as E; [|done]. cbn in Ht.
      destruct (negb _); [done|]. injection Ht as <- <-. done. }
    destruct Hn as [<- ->]. done.
  - intros [Hr Ht]. exists (registration_key p, r). split; [|done]. by apply elem_of_bt_list.
Qed.

Lemma path_key_inj p q : path_key p = path_key q → p = q.
Proof. unfold path_key. by intros [= ->]. Qed.

(** The references of a project are not newer than its registration, unless
    they agree with it. *)
Definition not_newer (p : string) (r : RegistrationFile) (t : tables) : Prop :=
  ∀ ref, t_refs t !! path_key p = Some ref →
    rf_graph ref = reg_graph r ∨ (rf_observed ref < Z.of_N (reg_updated r))%Z.

Lemma restore_refs observed l t t' p r :
  fold_res (restore_ref observed) t l = Ok t' →
  (p, r) ∈ l → (∀ r', (p, r') ∈ l → r' = r) → OGraph (reg_graph r) ∈ observed → not_newer p r t →
  (∀ g i, graph_is g i t → graph_is g i t') ∧ attached t' (reg_graph r) = true.
Proof.
  intros Hfold Hin Huniq Hobs Hnew. split.
  - intros g i Hg. eapply (fold_res_inv (λ t0, graph_is g i t0)); [exact Hg| |exact Hfold].
    intros b a b' _ Hb. unfold restore_ref. case_bool_decide; [|by intros [= <-]].
    intros (project & ref & -> & _)%upsert_project_ref_inv. exact Hb.
  - assert (HP : not_newer p r t' ∧ ((p, r) ∈ l → ∃ ref, t_refs t' !! path_key p = Some ref ∧ rf_graph ref = reg_graph r)).
    { eapply (fold_res_prefix_inv (λ pre t0, not_newer p r t0 ∧
        ((p, r) ∈ pre → ∃ ref, t_refs t0 !! path_key p = Some ref ∧ rf_graph ref = reg_graph r))); [| |exact Hfold].
      - split; [done|by intros ?%not_elem_of_nil].
      - intros pre b [q r'] b' [Hlow Hdone] Hin' Hstep. unfold restore_ref in Hstep. cbn in Hstep.
        destruct (decide (q = p)) as [->|Hne].
        + assert (r' = r) as -> by (by apply Huniq). rewrite bool_decide_eq_true_2 in Hstep by done.
          apply upsert_project_ref_inv in Hstep as (project & ref & -> & _ & Hg).
          assert (Hgr : rf_graph ref = reg_graph r).
          { destruct (t_refs b !! path_key p) as [old|] eqn:Hold; [|done].
            destruct (Hlow old Hold) as [Heq|Hlt]; [by destruct (rf_observed old <? _)%Z; congruence|].
            by destruct (Z.ltb_spec (rf_observed old) (Z.of_N (reg_updated r))); [|lia]. }
          split.
          * intros ref'. cbn. rewrite lookup_insert_eq. intros [= <-]. by left.
          * intros _. exists ref. cbn. by rewrite lookup_insert_eq.
        + case_bool_decide as Hg.
          * apply upsert_project_ref_inv in Hstep as (project & ref & -> & _).
            assert (Hl : ∀ t0, t_refs t0 !! path_key p = t_refs (with_projects t0 (<[path_key q:=project]> (t_projects t0))
              (<[path_key q:=ref]> (t_refs t0))) !! path_key p).
            { intros t0. cbn. rewrite lookup_insert_ne; [done|]. intros E. by apply path_key_inj in E. }
            split; [intros ref'; rewrite <- Hl; apply Hlow|]. rewrite <- Hl, elem_of_app, list_elem_of_singleton.
            intros [?|[= ? ?]]; [auto|congruence].
          * injection Hstep as <-. split; [done|]. rewrite elem_of_app, list_elem_of_singleton.
            intros [?|[= ? ?]]; [auto|congruence]. }
    destruct HP as [_ HP]. destruct (HP Hin) as (ref & Href & Hg). apply attachedP. eauto.
Qed.

Lemma repair_object_frame observed t o t' :
  db_ok t → repair_object observed t o = Ok t' →
  (∀ k, has t' k ↔ k = so_key o ∨ has t k) ∧ t_refs t' = t_refs t ∧ t_leases t' = t_leases t.
Proof.
  intros Hok. unfold repair_object. intros (t1 & H1 & H2)%bind_Ok.
  destruct (upsert_object_ok _ _ _ _ _ Hok H1) as [_ Hhas].
  destruct (upsert_object_put _ _ _ _ _ H1) as (row & fk & (_ & _ & _ & Hr & Hl & _)%put_object_lookup).
  destruct (so_key o) as [id|id|id|id|id] eqn:Ek;
    try (injection H2 as <-; unfold so_key in Ek; rewrite <- Ek; split_and!; done).
  assert (Hsame : ∀ c k, has (set_graph_complete t1 id c) k ↔ k = OGraph id ∨ has t k).
  { intros c k. rewrite set_graph_complete_has, Hhas. unfold so_key in Ek. by rewrite Ek. }
  destruct (complete_inventory observed (so_inventory o)) as [i'|].
  - apply upsert_graph_edges_same in H2 as (Ho & _ & Hr' & Hl' & _). split_and!.
    + intros k. unfold has. rewrite Ho. apply Hsame.
    + by rewrite Hr'.
    + by rewrite Hl'.
  - injection H2 as <-. split_and!; [|done..]. intros k. apply (Hsame false).
Qed.

(** After the objects were recorded, the graph is as its inventory says. *)
Lemma repair_objects_graph observed l t t' g i :
  db_ok t → fold_res (repair_object observed) t l = Ok t' →
  (∀ o, o ∈ l → so_key o = OGraph g → complete_inventory observed (so_inventory o) = Some i) →
  OGraph g ∈ so_key <$> l → graph_is g i t'.
Proof.
  intros Hok Hfold Hinv Hin.
  enough (H : db_ok t' ∧ (OGraph g ∈ so_key <$> l → graph_is g i t')) by (by apply H).
  cut ((∀ o, o ∈ l → o ∈ l) → db_ok t' ∧ (OGraph g ∈ so_key <$> l → graph_is g i t')); [auto|].
  eapply (fold_res_prefix_inv (λ pre t0, (∀ o, o ∈ pre → o ∈ l) →
      db_ok t0 ∧ (OGraph g ∈ so_key <$> pre → graph_is g i t0))); [| |exact Hfold].
  - intros _. split; [done|by intros ?%not_elem_of_nil].
  - intros pre b o b' IH Hol Hstep Hsub.
    destruct IH as [Hb Hg]; [intros o' Ho'; apply Hsub, elem_of_app; by left|].
    destruct (repair_object_frame _ _ _ _ Hb Hstep) as (Hhas & _).
    split; [by eapply repair_object_ok|]. rewrite fmap_app, elem_of_app. intros Hin'.
    eapply repair_object_graph; [exact Hstep|by apply Hinv| |apply Hhas; by left].
    intros Hne. apply Hg. destruct Hin' as [?|Hlast]; [done|]. cbn in Hlast.
    apply list_elem_of_singleton in Hlast. congruence.
Qed.

Lemma remove_stale_rows_graph l t n t' n' g i p r :
  db_ok t → fold_res remove_stale_row (t, n) l = Ok (t', n') → OGraph g ∉ l →
  graph_is g i t → not_newer p r t → db_ok t' ∧ graph_is g i t' ∧ not_newer p r t'.
Proof.
  intros Hok Hfold Hout Hg Hnew.
  apply (fold_res_inv (λ st, db_ok st.1 ∧ graph_is g i st.1 ∧ not_newer p r st.1)) in Hfold; [exact Hfold|done|].
  intros [tb nb] k [tb' nb'] Hk (Hbok & Hbg & Hbn) Hstep. cbn [fst snd] in *. split_and!.
  - change (db_ok (tb', nb').1). eapply remove_stale_row_ok; [|exact Hstep]. exact Hbok.
  - eapply remove_stale_row_graph; [exact Hbok|exact Hstep| |exact Hbg]. congruence.
  - intros ref Href. apply remove_stale_row_spec in Hstep as (_ & _ & _ & _ & _ & Hrefs & _).
    apply Hbn. by apply Hrefs.
Qed.

(** The objects an inventory stands for. *)
Definition inventoried (g : string) (i : GraphInventory) (k : ObjectKey) : Prop :=
  match k with
  | OGraph g' => g' = g
  | OArtifact a => a ∈ (gi_artifacts i).*1
  | OImage a => (a, true) ∈ gi_artifacts i
  | ODerived d => d ∈ gi_derived i
  | OPlan _ => False
  end.
Lemma graph_is_member g i t k : graph_is g i t → inventoried g i k → member t g k.
Proof.
  intros (_ & Ha & Hd). destruct k as [a|a|d|g'|p]; cbn; [|by rewrite Ha|by rewrite Hd|done|done].
  intros ([a' image] & -> & Hin)%list_elem_of_fmap. exists image. by apply Ha.
Qed.

Lemma inventory_complete files i :
  (∀ a, a ∈ gi_artifacts i → is_ok (validate_id KArtifact a.1) = true) →
  (∀ d, d ∈ gi_derived i → is_ok (validate_id KDerived d) = true) →
  (∀ a, a ∈ gi_artifacts i → is_Some (files !! OArtifact a.1)) →
  (∀ d, d ∈ gi_derived i → is_Some (files !! ODerived d)) →
  complete_inventory (so_key <$> scan_namespaces files) (Some i) = Some i.
Proof.
  intros Hva Hvd Ha Hd. unfold complete_inventory. cbn.
  assert (Hin : ∀ k, is_Some (files !! k) → is_ok (validate_id (key_kind k) (key_id k)) = true →
    match k with OArtifact _ | ODerived _ => True | _ => False end → k ∈ so_key <$> scan_namespaces files).
  { intros k [f Hf] Hid Hk. eapply published_scanned; [exact Hf| |exact Hid|by destruct k].
    unfold is_published. rewrite bool_decide_eq_true_2 by by eexists. by destruct k. }
  rewrite (proj2 (forallb_forall _ (gi_artifacts i))), (proj2 (forallb_forall _ (gi_derived i))); [done| |].
  - intros d Hd'%list_elem_of_In. apply bool_decide_eq_true, Hin; [by apply Hd|by apply Hvd|done].
  - intros a Ha'%list_elem_of_In. apply bool_decide_eq_true, Hin; [by apply Ha|by apply Hva|done].
Qed.

(** A reconciliation that succeeds gives a registered project its graph back. *)
Lemma repair_protects s s' rep p r f i :
  db_ok (rp_tables s) → repair_index cwd registration_key s = (s', Ok rep) →
  (p, r) ∈ regs s → not_newer p r (rp_tables s) →
  rp_files s !! OGraph (reg_graph r) = Some f → read_graph_inventory f = Some i →
  (∀ a, a ∈ gi_artifacts i → is_Some (rp_files s !! OArtifact a.1)) →
  (∀ d, d ∈ gi_derived i → is_Some (rp_files s !! ODerived d)) →
  rp_files s' = rp_files s ∧ db_ok (rp_tables s') ∧ graph_is (reg_graph r) i (rp_tables s') ∧
  attached (rp_tables s') (reg_graph r) = true.
Proof.
  intros Hok Hrep Hreg Hnew Hf Hi Ha Hd.
  pose proof (keeps_repair cwd registration_key s Hok) as Hok'. rewrite Hrep in Hok'. cbn in Hok'.
  destruct (read_graph_inventory_valid _ _ Hi) as (Hva & _ & Hvd & _).
  pose proof (inventory_complete (rp_files s) i Hva Hvd Ha Hd) as Hci.
  apply scan_registrations in Hreg as Hreg'. destruct Hreg' as [Hrf Htr].
  assert (Hid : is_ok (validate_id KGraph (reg_graph r)) = true).
  { unfold trusted_registration in Htr. destruct (negb _); [done|]. destruct (ok _); [|done]. cbn in Htr.
    destruct (negb _); [done|]. by destruct (is_ok (validate_id KGraph (reg_graph r))). }
  assert (Hpub : is_published (rp_files s) (OGraph (reg_graph r)) = true)
    by (unfold is_published; by rewrite bool_decide_eq_true_2 by by eexists).
  assert (Hobs : OGraph (reg_graph r) ∈ so_key <$> scan_namespaces (rp_files s))
    by (by eapply published_scanned).
  unfold repair_index, transact in Hrep. destruct (repair_commit _ _ _ _) as [[t' rep']|e] eqn:Hc; [|done].
  injection Hrep as <- <-. cbn in *. unfold repair_commit in Hc.
  apply bind_Ok in Hc as (t1 & H1 & Hc). apply bind_Ok in Hc as ([t2 n] & H2 & Hc).
  apply bind_Ok in Hc as (t3 & H3 & [= <- _]).
  assert (Hok1 : db_ok t1) by (eapply fold_res_ok; [|exact Hok|exact H1]; intros; by eapply repair_object_ok).
  assert (Hg1 : graph_is (reg_graph r) i t1).
  { eapply repair_objects_graph; [exact Hok|exact H1| |exact Hobs]. intros o Ho%elem_of_scan Hk.
    destruct (scan_one_key _ _ _ Ho) as (_ & _ & _ & file & Hfile & _ & _ & Hinv). rewrite Hk in Hfile, Hinv.
    assert (file = f) as -> by congruence. by rewrite Hinv, Hi. }
  assert (Hnew1 : not_newer p r t1).
  { assert (Hrefs : db_ok t1 ∧ t_refs t1 = t_refs (rp_tables s)).
    { eapply (fold_res_inv (λ t0, db_ok t0 ∧ t_refs t0 = t_refs (rp_tables s))); [split; [exact Hok|reflexivity]| |exact H1].
      intros b o b' _ [Hb Hbr] Hstep. split; [by eapply repair_object_ok|].
      destruct (repair_object_frame _ _ _ _ Hb Hstep) as (_ & -> & _). exact Hbr. }
    destruct Hrefs as [_ Hrefs]. unfold not_newer. rewrite Hrefs. exact Hnew. }
  assert (Hstale : OGraph (reg_graph r) ∉ stale_rows s) by (rewrite stale_rows_spec, Hpub; by intros [_ ?]).
  destruct (remove_stale_rows_graph _ _ _ _ _ _ _ _ _ Hok1 H2 Hstale Hg1 Hnew1) as (Hok2 & Hg2 & Hnew2).
  assert (Huniq : ∀ r', (p, r') ∈ regs s → r' = r).
  { intros r' [Hr' _]%scan_registrations. congruence. }
  destruct (restore_refs _ _ _ _ p r H3 Hreg Huniq Hobs Hnew2) as [Hkeep Hat].
  split_and!; [done|done|by apply Hkeep|done].
Qed.

(** A collector among processes that do nothing meanwhile. *)
Definition quiet (lock unlink : ObjectKey → bool) (snapshots : N) : gc_env :=
  mk_gc_env lock unlink id (λ _, id) snapshots.

End registered.

(** ** Leases *)

Lemma has_leaseP t k now :
  has_lease t k now = true ↔ ∃ lease l, t_leases t !! (lease, k) = Some l ∧ (now < ls_expires l)%Z.
Proof.
  unfold has_lease. rewrite exists_rowP. split.
  - intros ([lease k'] & l & Hl & [<-%bool_decide_eq_true Hlt%Z.ltb_lt]%andb_true_iff). eauto.
  - intros (lease & l & Hl & Hlt). exists (lease, k), l. split; [done|]. cbn.
    by rewrite bool_decide_eq_true_2, (proj2 (Z.ltb_lt _ _) Hlt).
Qed.

Lemma each_m_published keys s s' :
  each_m ensure_published keys s = (s', Ok ()) → s' = s ∧ ∀ k, k ∈ keys → is_published (rp_files s) k = true.
Proof.
  induction keys as [|k keys IH]; cbn.
  - intros [= <-]. split; [done|]. by intros k ?%not_elem_of_nil.
  - unfold mbind, M_bind, ensure_published at 1. destruct (is_published (rp_files s) k) eqn:Hk; [|done].
    intros [-> H]%IH. split; [done|]. intros k' [->|?]%elem_of_cons; [done|by apply H].
Qed.

Lemma insert_lease_rows lease owner pid now expires keys t t' :
  fold_res (insert_lease_row lease owner pid now expires) t keys = Ok t' →
  (∀ e r, t_leases t !! e = Some r → t_leases t' !! e = Some r) ∧
  (∀ k, k ∈ keys → t_leases t' !! (lease, k) =
     Some (mk_lease_row owner pid (Z.of_N now) (Z.of_N now) (Z.of_N expires))) ∧
  t_objects t' = t_objects t.
Proof.
  revert t. induction keys as [|k keys IH]; intros t; cbn.
  - intros [= <-]. split_and!; [done| |done]. by intros k ?%not_elem_of_nil.
  - intros (t1 & (_ & _ & Hnew & ->)%insert_lease_row_inv & H)%bind_Ok. apply IH in H as (Hold & Hin & Ho). split_and!.
    + intros e r He. apply Hold. cbn. rewrite lookup_insert_ne; [done|]. intros <-. congruence.
    + intros k' [->|Hk']%elem_of_cons; [|by apply Hin]. apply Hold. cbn. by rewrite lookup_insert_eq.
    + exact Ho.
Qed.

(** C37. A lease protects what it names: acquiring one succeeds only on published
    objects, and from then until its expiry each of them is protected, whatever
    other guards renew or release. *)
Theorem acquire_protects lease owner pid keys options now s s' g k z :
  acquire_lease lease owner pid keys options now s = (s', Ok g) → k ∈ keys →
  (z < Z.of_N (now + as_millis (ttl options)))%Z →
  is_published (rp_files s') k = true ∧ protection (rp_tables s') k z = true ∧
  (∀ lease' owner', (lease', owner') ≠ (lease, owner) →
     protection (rp_tables (release_lease lease' owner' s').1) k z = true) ∧
  (∀ lease' owner' now' expires, (lease', owner') ≠ (lease, owner) →
     protection (rp_tables (renew_lease lease' owner' now' expires s').1) k z = true).
Proof.
  unfold acquire_lease. rewrite lift_bind. destruct (validate_lease_options options) as [u|e]; [|done].
  intros (s1 & [] & [-> Hpub]%each_m_published & H)%bind_Ok_inv Hk Hz. revert H. rewrite lift_bind.
  destruct (checked_add_duration now (ttl options)) as [expires|e] eqn:He; [|done].
  assert (Hexp : expires = (now + as_millis (ttl options))%N).
  { unfold checked_add_duration in He. apply bind_Ok in He as (millis & Hm%ok_or_Ok & He).
    destruct (as_millis (ttl options) <=? U64_MAX)%N; [|done]. injection Hm as <-.
    by apply ok_or_Ok, checked_add_Some in He as [-> _]. }
  intros (s2 & [] & Hins & [= <- _])%bind_Ok_inv.
  assert (Hk' : k ∈ canonical_keys keys) by (unfold canonical_keys; apply elem_of_sort_by, elem_of_remove_dups; exact Hk).
  unfold insert_lease, transact_, transact in Hins. destruct (fold_res _ _ _) as [t'|e] eqn:Hf; [|done].
  injection Hins as <-. apply insert_lease_rows in Hf as (_ & Hrow & _). specialize (Hrow k Hk').
  rewrite <- Hexp in Hz. cbn [rp_tables with_tables rp_files].
  assert (Hgoal : ∀ t, (∃ l, t_leases t !! (lease, k) = Some l ∧ (z < ls_expires l)%Z) → protection t k z = true).
  { intros t Hl. unfold protection. apply orb_true_iff. left. apply has_leaseP. destruct Hl as (l & ? & ?). eauto. }
  split_and!.
  - by apply Hpub.
  - apply Hgoal. eexists. split; [exact Hrow|exact Hz].
  - intros lease' owner' Hne. apply Hgoal. cbn. eexists. split.
    + apply map_lookup_filter_Some. split; [exact Hrow|]. intros [E1 E2]. cbn in E1, E2. congruence.
    + exact Hz.
  - intros lease' owner' now' expires' Hne. apply Hgoal.
    destruct (renew_lease lease' owner' now' expires' _) as [s3 [b|e]] eqn:Hren.
    + apply renew_lease_inv in Hren as (_ & _ & -> & _). cbn. rewrite renew_lookup, Hrow. cbn.
      eexists. split; [reflexivity|]. case_decide as Hr; [|exact Hz]. destruct Hr as [[E1 E2] _]. cbn in E1, E2. congruence.
    + unfold renew_lease, transact in Hren. destruct (_ ≫= _) as [[t b]|e']; [done|]. injection Hren as <- _. cbn. eauto.
Qed.

(** The lock files of two objects with valid identifiers are the same only
    when the objects are. *)
Theorem lock_stem_inj k k' :
  is_ok (validate_id (key_kind k) (key_id k)) = true → is_ok (validate_id (key_kind k') (key_id k')) = true →
  lock_stem k = lock_stem k' → k = k'.
Proof.
  unfold validate_id. intros Hk Hk'.
  destruct (_ && _) eqn:E in Hk; [|done]. apply andb_true_iff in E as [Hl%Nat.eqb_eq Hc].
  destruct (_ && _) eqn:E in Hk'; [|done]. apply andb_true_iff in E as [Hl'%Nat.eqb_eq Hc'].
  destruct k as [i|i|i|i|i], k' as [j|j|j|j|j]; cbn [lock_stem key_id key_kind id_length] in *;
    intros H; lazy [String.append] in H; try (injection H as ->; done); try discriminate H; subst; done.
Qed.
