(* ===== verification/MetadataRepair.v ===== *)
(** * Reconciliation succeeds, and then the index mirrors the files

    [repair_index] of sound tables fails only for numbers SQLite cannot hold
    and for a plan whose graph is gone; when it succeeds, every row is of a
    published object and every scanned object has its row. *)

From S2P Require Export MetadataSafety.
From Stdlib Require Import Ascii.

(** A loop that never fails, with the processed prefix in the invariant. *)
Lemma fold_res_total {E A B} (P : list A → B → Prop) (f : B → A → result E B) l b :
  P [] b →
  (∀ pre a post b, l = pre ++ a :: post → P pre b → ∃ b', f b a = Ok b' ∧ P (pre ++ [a]) b') →
  ∃ b', fold_res f b l = Ok b' ∧ P l b'.
Proof.
  intros Hb Hf. cut (∀ l2 pre b, l = pre ++ l2 → P pre b → ∃ b', fold_res f b l2 = Ok b' ∧ P (pre ++ l2) b').
  { intros H. by apply (H l [] b). }
  clear Hb b. induction l2 as [|a l2 IH]; intros pre b Hl Hb; simpl.
  - exists b. by rewrite app_nil_r.
  - destruct (Hf pre a l2 b Hl Hb) as (b1 & Hb1 & HP). rewrite Hb1. simpl.
    destruct (IH (pre ++ [a]) b1) as (b' & ? & ?); [by rewrite Hl, <- app_assoc|done|].
    exists b'. by rewrite cons_middle, (assoc_L (++)).
Qed.

Lemma sorted_before {A} (R : relation A) l pre a post b :
  StronglySorted R l → l = pre ++ a :: post → b ∈ l → b ≠ a → ¬ R a b → b ∈ pre.
Proof.
  intros Hs -> Hb Hne Hn. apply elem_of_app in Hb as [?|[->|Hin]%elem_of_cons]; [done..|].
  apply StronglySorted_app in Hs as (_ & _ & Hs). inversion Hs as [|? ? _ Hall]; subst.
  rewrite Forall_forall in Hall. by destruct (Hn (Hall b Hin)).
Qed.

(** ** The order of a scan *)

Lemma key_leb_rank a b : key_leb a b = true → kind_rank (key_kind a) <= kind_rank (key_kind b).
Proof.
  unfold key_leb. destruct (Nat.ltb_spec (kind_rank (key_kind a)) (kind_rank (key_kind b))); [lia|].
  by intros [->%Nat.eqb_eq _]%andb_true_iff.
Qed.
Lemma key_leb_total a b : key_leb a b = true ∨ key_leb b a = true.
Proof.
  unfold key_leb. destruct (Nat.lt_trichotomy (kind_rank (key_kind a)) (kind_rank (key_kind b))) as [H|[H|H]].
  - left. by rewrite (proj2 (Nat.ltb_lt _ _) H).
  - rewrite H, Nat.ltb_irrefl, Nat.eqb_refl. cbn. apply leb_total_s.
  - right. by rewrite (proj2 (Nat.ltb_lt _ _) H).
Qed.
Lemma key_leb_trans a b c : key_leb a b = true → key_leb b c = true → key_leb a c = true.
Proof.
  intros Hab Hbc. pose proof (key_leb_rank _ _ Hab). pose proof (key_leb_rank _ _ Hbc). revert Hab Hbc.
  unfold key_leb. destruct (Nat.ltb_spec (kind_rank (key_kind a)) (kind_rank (key_kind c))); [done|].
  assert (kind_rank (key_kind a) = kind_rank (key_kind b)) as -> by lia.
  assert (kind_rank (key_kind b) = kind_rank (key_kind c)) as -> by lia.
  rewrite Nat.ltb_irrefl, Nat.eqb_refl. cbn. apply leb_trans_s.
Qed.

Definition rank_before (o o' : ScannedObject) : Prop :=
  kind_rank (key_kind (so_key o)) <= kind_rank (key_kind (so_key o')).

Lemma scan_sorted files : StronglySorted rank_before (scan_namespaces files).
Proof.
  unfold scan_namespaces.
  pose proof (sort_by_sorted key_leb key_leb_total key_leb_trans (map_to_list files).*1) as Hs.
  induction Hs as [|k l Hs IH Hall]; cbn; [constructor|].
  destruct (scan_one files k) as [o|] eqn:Ho; [|exact IH]. constructor; [exact IH|].
  apply Forall_forall. intros o' (k' & Hk' & Ho')%list_elem_of_omap.
  destruct (scan_one_key _ _ _ Ho) as [Hk _]. destruct (scan_one_key _ _ _ Ho') as [Hk2 _].
  unfold rank_before. rewrite Hk, Hk2. apply key_leb_rank.
  exact (proj1 (Forall_forall _ _) Hall k' Hk').
Qed.

Definition stale_position (k : ObjectKey) : nat :=
  match key_kind k with KPlan => 0 | KGraph => 1 | KImage => 2 | KDerived => 3 | KArtifact => 4 end.
Lemma stale_sorted s : StronglySorted (λ k k', stale_position k <= stale_position k') (stale_rows s).
Proof.
  unfold stale_rows, stale_order.
  assert (Hblock : ∀ kind, let l := filter (λ k, ¬ is_published (rp_files s) k) (rows_of (rp_tables s) kind) in
    (∀ k, k ∈ l → key_kind k = kind) ∧ StronglySorted (λ k k', stale_position k <= stale_position k') l).
  { intros kind l. assert (Hkind : ∀ k, k ∈ l → key_kind k = kind).
    { intros k [_ [Hk _]%list_elem_of_filter]%list_elem_of_filter. exact Hk. }
    split; [exact Hkind|]. clearbody l. induction l as [|k l IH]; constructor.
    - apply IH. intros k' Hk'. apply Hkind. by right.
    - rewrite Forall_forall. intros k' Hk'. unfold stale_position.
      by rewrite (Hkind k), (Hkind k') by (left || right; done). }
  cbn [mbind list_bind]. rewrite app_nil_r.
  repeat (apply StronglySorted_app; split_and!; [|apply Hblock|]); [..|apply Hblock].
  all: intros a b Ha Hb; rewrite ?elem_of_app in Hb; apply Hblock in Ha; unfold stale_position; rewrite Ha.
  all: destruct_or? Hb; apply Hblock in Hb; rewrite Hb; lia.
Qed.

(** ** Paths *)

Definition canonical_paths (t : tables) : Prop :=
  ∀ k row, t_objects t !! k = Some row → or_rel_path row = relative_path k.

Lemma app_inj_length (a b c d : string) : strlen a = strlen b → a +:+ c = b +:+ d → a = b ∧ c = d.
Proof.
  revert b. induction a as [|x a IH]; intros [|y b]; simpl; try done.
  intros [= Hl] [= -> H]. destruct (IH b Hl H) as [-> ->]. done.
Qed.

Lemma is_ok_validate k id :
  is_ok (validate_id k id) = (strlen id =? id_length k)%nat && all_chars is_lower_hex id.
Proof. unfold validate_id. by destruct (_ && _). Qed.
Lemma valid_id_length k id : is_ok (validate_id k id) = true → strlen id = id_length k.
Proof.
  unfold validate_id. destruct (Nat.eqb_spec (strlen id) (id_length k)); [done|]. done.
Qed.
Lemma relative_path_inj k k' :
  key_kind k = key_kind k' → is_ok (validate_id (key_kind k) (key_id k)) = true →
  is_ok (validate_id (key_kind k') (key_id k')) = true → relative_path k = relative_path k' → k = k'.
Proof.
  intros Hk Hv%valid_id_length Hv'%valid_id_length. unfold relative_path. rewrite <- Hk in *.
  intros [_ H]%app_inj_length; [|done]. apply app_inj_length in H as [_ H]; [|done].
  assert (Hsub : ∀ s : string, 2 <= strlen s → strlen (String.substring 0 2 s) = 2).
  { intros [|x [|y s]]; simpl; [lia|lia|]. intros _. by destruct s. }
  assert (2 <= id_length (key_kind k)) by (destruct (key_kind k); cbn; lia).
  apply app_inj_length in H as [_ H]; [|rewrite !Hsub by lia; done].
  apply app_inj_length in H as [_ H]; [|done]. apply app_inj_length in H as [H _]; [|congruence].
  destruct k, k'; try done; cbn in H; by subst.
Qed.

Lemma rel_path_free t k :
  db_ok t → canonical_paths t → is_ok (validate_id (key_kind k) (key_id k)) = true →
  rel_path_taken t k (relative_path k) = false.
Proof.
  intros Hok Hcan Hid. destruct (rel_path_taken t k (relative_path k)) eqn:E; [|done]. exfalso.
  apply exists_rowP in E as (k' & row & Hrow & [[Hk%bool_decide_eq_true Hne]%andb_true_iff Hrel%bool_decide_eq_true]%andb_true_iff).
  apply negb_true_iff, bool_decide_eq_false in Hne. apply Hne.
  rewrite (Hcan _ _ Hrow) in Hrel. apply (ok_rows t Hok) in Hrow as (Hid' & _).
  by apply relative_path_inj.
Qed.

(** ** Statements that succeed *)

Lemma put_object_total t k row fk :
  is_ok (validate_id (key_kind k) (key_id k)) = true → rel_path_taken t k (or_rel_path row) = false → fk = true →
  ∃ t', put_object t k row fk = Ok t'.
Proof. intros Hid Hrel ->. unfold put_object. rewrite Hid, Hrel. by eexists. Qed.

Lemma upsert_graph_edges_total t g artifacts derived :
  has t (OGraph g) → NoDup artifacts.*1 → NoDup derived →
  (∀ a, a ∈ artifacts → has t (OArtifact a.1)) → (∀ d, d ∈ derived → has t (ODerived d)) →
  ∃ t', upsert_graph_edges t g artifacts derived = Ok t'.
Proof.
  intros Hg Hna Hnd Ha Hd. unfold upsert_graph_edges.
  destruct (fold_res_total (λ pre t1, t_objects t1 = t_objects t ∧
      (∀ a image, t_graph_artifacts t1 !! (g, a) = Some image → a ∈ pre.*1) ∧ (∀ d, (g, d) ∉ t_graph_derived t1))
    (insert_artifact_edge g) artifacts (delete_edges t g)) as (t1 & H1 & (Ho1 & _ & Hd1)).
  { split_and!; [done| |]; cbn.
    - intros a image. rewrite map_lookup_filter_Some. cbn. tauto.
    - intros d. rewrite elem_of_filter. cbn. tauto. }
  { intros pre a post b -> (Hbo & Hba & Hbd). unfold insert_artifact_edge.
    rewrite bool_decide_eq_false_2.
    2:{ intros [image Hi]. apply Hba in Hi. rewrite fmap_app, fmap_cons in Hna.
        apply NoDup_app in Hna as (_ & Hna & _). by apply (Hna a.1 Hi); left. }
    rewrite !(proj2 (has_objectP b _)); [|unfold has; rewrite Hbo; apply Ha; set_solver|unfold has; by rewrite Hbo].
    cbn. eexists. split; [reflexivity|]. split_and!; [done| |done]. cbn.
    intros a' image. rewrite lookup_insert. case_decide as E; [injection E as <-|].
    - intros _. rewrite fmap_app. set_solver.
    - intros Hi%Hba. rewrite fmap_app. set_solver. }
  rewrite H1. cbn [mbind result_bind].
  destruct (fold_res_total (λ pre t2, t_objects t2 = t_objects t ∧ (∀ d, (g, d) ∈ t_graph_derived t2 → d ∈ pre))
    (insert_derived_edge g) derived t1) as (t2 & H2 & _); [..|by exists t2].
  { split; [done|]. intros d Hd'. by destruct (Hd1 d). }
  intros pre d post b -> (Hbo & Hbd). unfold insert_derived_edge. rewrite bool_decide_eq_false_2.
  2:{ intros Hi%Hbd. apply NoDup_app in Hnd as (_ & Hnd & _). by apply (Hnd d Hi); left. }
  rewrite !(proj2 (has_objectP b _)); [|unfold has; rewrite Hbo; apply Hd; set_solver|unfold has; by rewrite Hbo].
  cbn. eexists. split; [reflexivity|]. split; [done|]. cbn. intros d'. set_solver.
Qed.

(** ** Success *)

Section success.
Variable s : repo.

Notation files := (rp_files s).
Notation t0 := (rp_tables s).
Notation observed := (scan_namespaces files).
Notation seen := (so_key <$> observed).

(** Numbers SQLite holds, canonical paths, and plans beside their graphs. *)
Record repairable : Prop := mk_repairable {
  rb_db : db_ok t0;
  rb_paths : canonical_paths t0;
  rb_files : ∀ k f, files !! k = Some f → (Z.of_N (fo_size f) <= I64_MAX ∧ Z.of_N (fo_modified f) <= I64_MAX)%Z;
  rb_regs : ∀ name r, rp_regs s !! name = Some r → (Z.of_N (reg_updated r) <= I64_MAX)%Z;
  rb_plans : ∀ id f g, files !! OPlan id = Some f → plan_graph_id f = Some g → is_Some (files !! OGraph g) }.
Context (Hr : repairable).

Lemma valid_graph_scanned g :
  is_Some (files !! OGraph g) → is_ok (validate_id KGraph g) = true → OGraph g ∈ seen.
Proof using Type.
  intros [f Hf] Hid. eapply published_scanned; [exact Hf| |exact Hid|done].
  unfold is_published. by rewrite bool_decide_eq_true_2 by by eexists.
Qed.
Lemma scanned_image_artifact id : OImage id ∈ seen → OArtifact id ∈ seen.
Proof using Type.
  intros Hin. pose proof Hin as [o (_ & _ & Hid & _)%scan_one_key]%scanned.
  apply scanned_published in Hin. unfold is_published in Hin.
  apply andb_true_iff in Hin as [_ [f Hf]%bool_decide_eq_true].
  eapply published_scanned; [exact Hf| |by rewrite is_ok_validate in Hid |- *|done].
  unfold is_published. by rewrite bool_decide_eq_true_2 by by eexists.
Qed.

(** What holds while the scanned objects are recorded. *)
Record recorded (pre : list ScannedObject) (t : tables) : Prop := mk_recorded {
  rc_db : db_ok t;
  rc_paths : canonical_paths t;
  rc_has : ∀ k, has t k ↔ has t0 k ∨ k ∈ so_key <$> pre;
  rc_refs : t_refs t = t_refs t0;
  rc_edges : ∀ g, OGraph g ∈ so_key <$> pre →
    (∀ a image, t_graph_artifacts t !! (g, a) = Some image → OArtifact a ∈ seen) ∧
    (∀ d, (g, d) ∈ t_graph_derived t → ODerived d ∈ seen);
  rc_plans : ∀ id row, OPlan id ∈ so_key <$> pre → t_objects t !! OPlan id = Some row →
    ∃ g, or_graph row = Some g ∧ OGraph g ∈ seen }.

Lemma pre_seen pre o post k :
  observed = pre ++ o :: post → k ∈ seen →
  kind_rank (key_kind k) < kind_rank (key_kind (so_key o)) → k ∈ so_key <$> pre.
Proof using Type.
  intros Hl (o' & -> & Ho')%list_elem_of_fmap Hrank. apply list_elem_of_fmap_2.
  eapply (sorted_before rank_before); [apply scan_sorted|exact Hl|exact Ho'| |unfold rank_before; lia].
  intros ->. lia.
Qed.

Lemma upsert_scanned_total pre o post t :
  observed = pre ++ o :: post → recorded pre t →
  ∃ t', upsert_object t (so_record o) (so_plan_graph o) None = Ok t'.
Proof using Hr.
  intros Hl Hrec. assert (Hin : o ∈ observed) by (rewrite Hl; set_solver).
  apply elem_of_scan in Hin as Ho. destruct (scan_one_key _ _ _ Ho) as (_ & Hp & Hid & file & Hf & Hs & Hm & Hk).
  destruct (rb_files Hr _ _ Hf) as [Hsz Hmod].
  unfold upsert_object. rewrite Hs, Hm.
  rewrite (proj2 (sqlite_u64_Ok _ _) (conj eq_refl Hsz)), (proj2 (sqlite_u64_Ok _ _) (conj eq_refl Hmod)). cbn [mbind result_bind].
  assert (Hfree : rel_path_taken t (so_key o) (relative_path (so_key o)) = false)
    by (apply rel_path_free; [apply Hrec|apply Hrec|exact Hid]).
  assert (Hseen : so_key o ∈ seen) by (by apply list_elem_of_fmap_2).
  change (rec_key (so_record o)) with (so_key o). destruct (so_key o) as [id|id|id|id|id] eqn:Ek.
  - by apply put_object_total.
  - apply put_object_total; [done..|]. apply orb_true_iff. right. apply has_objectP, (rc_has _ _ Hrec). right.
    eapply pre_seen; [exact Hl|by apply scanned_image_artifact|rewrite Ek; cbn; lia].
  - by apply put_object_total.
  - by apply put_object_total.
  - destruct Hk as [[g Hg] Hplan]. rewrite Hg. cbn [ok_or mbind result_bind].
    rewrite Hg in Hplan. symmetry in Hplan.
    assert (Hgv : is_ok (validate_id KGraph g) = true).
    { unfold plan_graph_id in Hplan. apply bind_Some in Hplan as (g' & _ & Hg').
      destruct (is_ok (validate_id KGraph g')) eqn:E; [|done]. by injection Hg' as <-. }
    apply is_ok_true in Hgv as Hgv'. destruct Hgv' as [u Hgv']. rewrite Hgv'. cbn [mbind result_bind].
    apply put_object_total; [done..|]. apply has_objectP, (rc_has _ _ Hrec). right.
    eapply pre_seen; [exact Hl| |rewrite Ek; cbn; lia].
    apply valid_graph_scanned; [by eapply (rb_plans Hr)|done].
Qed.


Lemma complete_inventory_seen inv i :
  complete_inventory seen inv = Some i → inv = Some i ∧
  (∀ a, a ∈ gi_artifacts i → OArtifact a.1 ∈ seen) ∧ (∀ d, d ∈ gi_derived i → ODerived d ∈ seen).
Proof using Type.
  unfold complete_inventory. intros (i' & -> & H)%bind_Some. revert H.
  destruct (forallb _ (gi_artifacts i')) eqn:Ha; [|done]. destruct (forallb _ (gi_derived i')) eqn:Hd; [|done].
  cbn. intros [= <-]. rewrite forallb_forall in Ha, Hd. split_and!; [done| |].
  - intros a Hin%list_elem_of_In. by apply Ha, bool_decide_eq_true in Hin.
  - intros d Hin%list_elem_of_In. by apply Hd, bool_decide_eq_true in Hin.
Qed.

(** The columns a reconciliation does not look at again. *)
Lemma repair_object_rows t o t' k row :
  repair_object seen t o = Ok t' → t_objects t' !! k = Some row →
  (k ≠ so_key o ∧ ∃ row0, t_objects t !! k = Some row0 ∧ or_rel_path row = or_rel_path row0 ∧ or_graph row = or_graph row0) ∨
  (k = so_key o ∧ or_rel_path row = relative_path k ∧ (∀ id, k = OPlan id → or_graph row = so_plan_graph o)).
Proof using Type.
  unfold repair_object. intros (t1 & H1 & H2)%bind_Ok Hrow.
  assert (Hrow1 : ∃ row1, t_objects t1 !! k = Some row1 ∧ or_rel_path row = or_rel_path row1 ∧ or_graph row = or_graph row1).
  { destruct (so_key o) as [id|id|id|id|id]; try (injection H2 as <-; eauto; fail).
    assert (Hc : ∃ c, t_objects t' = t_objects (set_graph_complete t1 id c)).
    { destruct (complete_inventory seen (so_inventory o)) as [i|].
      - apply upsert_graph_edges_same in H2 as (-> & _). eauto.
      - injection H2 as <-. by exists false. }
    destruct Hc as [c Hc]. rewrite Hc, set_graph_complete_lookup in Hrow.
    apply fmap_Some in Hrow as (row1 & Hrow1 & ->). exists row1. by case_decide. }
  destruct Hrow1 as (row1 & Hrow1 & -> & ->). clear H2 Hrow row.
  unfold upsert_object in H1. apply bind_Ok in H1 as (size & _ & H1). apply bind_Ok in H1 as (pub & _ & H1).
  change (rec_key (so_record o)) with (so_key o) in H1.
  assert (Hput : ∃ row fk, put_object t (so_key o) row fk = Ok t1 ∧ or_rel_path row = relative_path (so_key o) ∧
    (∀ id, so_key o = OPlan id → or_graph row = so_plan_graph o)).
  { destruct (so_key o) as [id|id|id|id|id]; try (eexists _, _; split; [exact H1|done]).
    apply bind_Ok in H1 as (g & Hg%ok_or_Ok & H1). apply bind_Ok in H1 as (u & _ & H1).
    eexists _, _. split; [exact H1|]. split; [done|]. intros id' _. cbn. by rewrite Hg. }
  destruct Hput as (row & fk & (_ & _ & _ & row' & -> & Hrel & _ & Hg & _)%put_object_inv & Hrow & Hplan).
  cbn in Hrow1. rewrite lookup_insert in Hrow1. case_decide as E.
  - right. injection Hrow1 as <-. subst k. split_and!; [done|by rewrite Hrel|]. intros id Hid. rewrite Hg. by eapply Hplan.
  - left. split; [done|]. eauto.
Qed.

Lemma repair_step_total pre o post t :
  observed = pre ++ o :: post → recorded pre t →
  ∃ t', repair_object seen t o = Ok t' ∧ recorded (pre ++ [o]) t'.
Proof using Hr.
  intros Hl Hrec. assert (Hin : o ∈ observed) by (rewrite Hl; set_solver).
  apply elem_of_scan in Hin as Ho. destruct (scan_one_key _ _ _ Ho) as (_ & _ & _ & file & Hf & _ & _ & Hk).
  destruct (upsert_scanned_total _ _ _ _ Hl Hrec) as [t1 H1].
  destruct (upsert_object_ok _ _ _ _ _ (rc_db _ _ Hrec) H1) as [Hok1 Hhas1].
  change (rec_key (so_record o)) with (so_key o) in Hhas1.
  assert (Htot : ∃ t', repair_object seen t o = Ok t').
  { unfold repair_object. rewrite H1. cbn [mbind result_bind].
    destruct (so_key o) as [id|id|id|id|id] eqn:Ek; try by eexists.
    destruct (complete_inventory seen (so_inventory o)) as [i|] eqn:Hci; [|by eexists].
    apply complete_inventory_seen in Hci as (Hinv & Ha & Hd).
    rewrite Hk in Hinv. apply read_graph_inventory_valid in Hinv as (_ & Hna & _ & Hnd).
    assert (Hearlier : ∀ k, k ∈ seen → kind_rank (key_kind k) < 3 → has (set_graph_complete t1 id true) k).
    { intros k Hs Hrank. apply set_graph_complete_has, Hhas1. right. apply (rc_has _ _ Hrec). right.
      eapply pre_seen; [exact Hl|exact Hs|]. by rewrite Ek. }
    apply upsert_graph_edges_total; [apply set_graph_complete_has, Hhas1; by left|done|done| |].
    - intros a Hin'. apply Hearlier; [by apply Ha|cbn; lia].
    - intros d Hin'. apply Hearlier; [by apply Hd|cbn; lia]. }
  destruct Htot as [t' Ht']. exists t'. split; [exact Ht'|].
  destruct (repair_object_frame _ _ _ _ (rc_db _ _ Hrec) Ht') as (Hhas & Hrefs & _).
  assert (Hsnoc : ∀ k, k ∈ so_key <$> pre ++ [o] ↔ k ∈ so_key <$> pre ∨ k = so_key o).
  { intros k. rewrite fmap_app, elem_of_app. cbn. by rewrite list_elem_of_singleton. }
  constructor.
  - eapply repair_object_ok; [apply Hrec|exact Ht'].
  - intros k row Hrow. destruct (repair_object_rows _ _ _ _ _ Ht' Hrow) as [(Hne & row0 & Hrow0 & -> & _)|(-> & ? & _)]; [|done].
    by apply (rc_paths _ _ Hrec).
  - intros k. rewrite Hhas, (rc_has _ _ Hrec), Hsnoc. tauto.
  - by rewrite Hrefs, (rc_refs _ _ Hrec).
  - intros g Hg. destruct (decide (so_key o = OGraph g)) as [Hog|Hog].
    + unfold repair_object in Ht'. rewrite H1 in Ht'. cbn [mbind result_bind] in Ht'. rewrite Hog in Ht'.
      destruct (complete_inventory seen (so_inventory o)) as [i|] eqn:Hci.
      * apply complete_inventory_seen in Hci as (_ & Ha & Hd).
        apply upsert_graph_edges_lookup in Ht' as [Hea Hed]. split.
        -- intros a image [[_ Hi]|[? _]]%Hea; [|done]. by apply (Ha (a, image)).
        -- intros d [[_ Hi]|[? _]]%Hed; [|done]. by apply Hd.
      * injection Ht' as <-. cbn. split.
        -- intros a image. rewrite map_lookup_filter_Some. cbn. tauto.
        -- intros d. rewrite elem_of_filter. cbn. tauto.
    + apply Hsnoc in Hg as [Hg|?]; [|congruence]. destruct (rc_edges _ _ Hrec g Hg) as [Ha Hd].
      destruct (upsert_object_put _ _ _ _ _ H1) as (row & fk & (_ & Ea & Ed & _)%put_object_lookup).
      unfold repair_object in Ht'. rewrite H1 in Ht'. cbn [mbind result_bind] in Ht'.
      destruct (so_key o) as [id|id|id|id|id] eqn:Ek; try (injection Ht' as <-; rewrite Ea, Ed; done).
      assert (g ≠ id) by congruence. destruct (complete_inventory seen (so_inventory o)) as [i|].
      * apply upsert_graph_edges_lookup in Ht' as [Hea Hed]. cbn in Hea, Hed. split.
        -- intros a image [[? _]|[_ Hi]]%Hea; [done|]. rewrite Ea in Hi. by eapply Ha.
        -- intros d [[? _]|[_ Hi]]%Hed; [done|]. rewrite Ed in Hi. by eapply Hd.
      * injection Ht' as <-. cbn. rewrite Ea, Ed. split.
        -- intros a image [Hi _]%map_lookup_filter_Some. by eapply Ha.
        -- intros d [_ Hi]%elem_of_filter. by eapply Hd.
  - intros id row Hp Hrow. destruct (repair_object_rows _ _ _ _ _ Ht' Hrow) as [(Hne & row0 & Hrow0 & _ & ->)|(Hk' & _ & Hg)].
    + apply Hsnoc in Hp as [Hp|?]; [|done]. by eapply (rc_plans _ _ Hrec).
    + rewrite (Hg id eq_refl). rewrite <- Hk' in Hk. destruct Hk as [[g Hpg] Hpl]. exists g. split; [done|].
      rewrite Hpg in Hpl. symmetry in Hpl. apply valid_graph_scanned.
      * rewrite <- Hk' in Hf. by eapply (rb_plans Hr).
      * unfold plan_graph_id in Hpl. apply bind_Some in Hpl as (g' & _ & Hg').
        destruct (is_ok (validate_id KGraph g')) eqn:E; [|done]. by injection Hg' as <-.
Qed.

(** What holds while stale rows go. *)
Record pruned (t1 : tables) (pre : list ObjectKey) (t : tables) : Prop := mk_pruned {
  pn_db : db_ok t;
  pn_gone : ∀ k, k ∈ pre → ¬ has t k;
  pn_rows : ∀ k row, t_objects t !! k = Some row → t_objects t1 !! k = Some row;
  pn_seen : ∀ k, k ∈ seen → has t k;
  pn_artifacts : ∀ g a image, t_graph_artifacts t !! (g, a) = Some image → t_graph_artifacts t1 !! (g, a) = Some image;
  pn_derived : ∀ g d, (g, d) ∈ t_graph_derived t → (g, d) ∈ t_graph_derived t1 }.

(** A graph that still has edges was seen, since stale graphs go first. *)
Lemma edge_graph_seen t1 pre k post t g :
  recorded observed t1 → stale_rows s = pre ++ k :: post → pruned t1 pre t → 1 < stale_position k →
  has t (OGraph g) → OGraph g ∈ seen.
Proof using Hr.
  intros Hrec Hl Hp Hpos [row Hrow]. apply (pn_rows _ _ _ Hp) in Hrow as Hrow1.
  assert (Hh : has t1 (OGraph g)) by (by eexists). apply (rc_has _ _ Hrec) in Hh as [Hh0|?]; [|done].
  destruct (is_published files (OGraph g)) eqn:Hpub.
  - apply valid_graph_scanned.
    + unfold is_published in Hpub. by apply andb_true_iff in Hpub as [H%bool_decide_eq_true _].
    + by apply (ok_rows _ (rc_db _ _ Hrec)) in Hrow1 as (? & _).
  - exfalso. apply (pn_gone _ _ _ Hp (OGraph g)); [|by eexists].
    assert (Hst : OGraph g ∈ stale_rows s) by (by apply stale_rows_spec).
    eapply (sorted_before _ _ pre k post); [apply stale_sorted|exact Hl|exact Hst| |cbn; lia].
    intros <-. cbn in Hpos. lia.
Qed.

Lemma not_published_not_seen k : is_published files k = false → k ∉ seen.
Proof using Type. intros Hp Hin%scanned_published. congruence. Qed.

Lemma stale_step_total t1 pre k post t n :
  recorded observed t1 → stale_rows s = pre ++ k :: post → pruned t1 pre t →
  ∃ t' n', remove_stale_row (t, n) k = Ok (t', n') ∧ pruned t1 (pre ++ [k]) t'.
Proof using Hr.
  intros Hrec Hl Hp.
  assert (Hst : k ∈ stale_rows s) by (rewrite Hl; set_solver). apply stale_rows_spec in Hst as [_ Hpub].
  apply not_published_not_seen in Hpub as Hns.
  assert (Htot : ∃ st, remove_stale_row (t, n) k = Ok st).
  { unfold remove_stale_row. set (t2 := match k with OGraph id => _ | _ => t end).
    destruct (delete_object_total t2 k) as [t3 H3]; [|rewrite H3; by eexists].
    destruct (ok_edges t (pn_db _ _ _ Hp)) as [Hea Hed _].
    destruct k as [id|id|id|id|id]; cbn; try done; subst t2; cbn.
    - intros g image Hi. destruct (Hea _ _ _ Hi) as [Hg _].
      assert (Hgs : OGraph g ∈ seen) by (by eapply edge_graph_seen; [exact Hrec|exact Hl|exact Hp|cbn; lia|]).
      apply Hns. destruct (rc_edges _ _ Hrec g Hgs) as [Ha _]. by eapply Ha, (pn_artifacts _ _ _ Hp).
    - intros g Hi. destruct (Hed _ _ Hi) as [Hg _].
      assert (Hgs : OGraph g ∈ seen) by (by eapply edge_graph_seen; [exact Hrec|exact Hl|exact Hp|cbn; lia|]).
      apply Hns. destruct (rc_edges _ _ Hrec g Hgs) as [_ Hd]. by eapply Hd, (pn_derived _ _ _ Hp).
    - intros p r. rewrite map_lookup_filter_Some. cbn. tauto. }
  destruct Htot as [[t' n'] Ht']. exists t', n'. split; [exact Ht'|].
  pose proof (remove_stale_row_ok (t, n) k (t', n') (pn_db _ _ _ Hp) Ht') as Hok'.
  apply remove_stale_row_spec in Ht' as (Hobj & Ha & _ & Hd & _).
  constructor.
  - exact Hok'.
  - intros k' [Hin| ->%list_elem_of_singleton]%elem_of_app [row (Hrow & ? & _)%Hobj]; [|done].
    by apply (pn_gone _ _ _ Hp k' Hin); eexists.
  - intros k' row (Hrow & _)%Hobj. by apply (pn_rows _ _ _ Hp).
  - intros k' Hk'. destruct (pn_seen _ _ _ Hp k' Hk') as [row Hrow]. exists row. apply Hobj.
    split_and!; [done|by intros ->|]. intros [_ Hc]. destruct k as [id|id|id|id|id]; cbn in Hc; try done.
    + subst k'. by apply Hns, scanned_image_artifact.
    + destruct Hc as (row' & Hrow' & Hg). assert (row' = row) as -> by congruence.
      apply (pn_rows _ _ _ Hp) in Hrow as Hrow1. destruct (key_kind k') eqn:Ek;
        try (apply (ok_rows _ (pn_db _ _ _ Hp)) in Hrow as (_ & _ & [Hno _] & _); rewrite Hno in Hg by congruence; done).
      destruct k' as [| | | |pid]; try done.
      destruct (rc_plans _ _ Hrec pid row Hk' Hrow1) as (g & Hg' & Hgs).
      assert (g = id) as -> by congruence. done.
  - intros g a image Hi. by eapply (pn_artifacts _ _ _ Hp), Ha.
  - intros g d Hi. by eapply (pn_derived _ _ _ Hp), Hd.
Qed.

Lemma restore_step_total cwd registration_key t q :
  q ∈ scan_registration_files cwd registration_key (rp_regs s) → db_ok t → (∀ k, k ∈ seen → has t k) →
  ∃ t', restore_ref seen t q = Ok t' ∧ db_ok t' ∧ t_objects t' = t_objects t.
Proof using Hr.
  intros Hq Hok Hseen. unfold restore_ref. case_bool_decide as Hg; [|by exists t].
  assert (Htot : ∃ t', upsert_project_ref t (path_key q.1) q.1 (reg_graph q.2) (reg_updated q.2) = Ok t').
  { destruct q as [p r]. apply scan_registrations in Hq as [Hq _]. apply (rb_regs Hr) in Hq. cbn in *.
    unfold upsert_project_ref. rewrite (proj2 (sqlite_u64_Ok _ _) (conj eq_refl Hq)). cbn [mbind result_bind].
    set (ref := match t_refs t !! _ with Some old => _ | None => _ end).
    assert (Hh : has t (OGraph (rf_graph ref))).
    { subst ref. destruct (t_refs t !! path_key p) as [old|] eqn:Hold; [|by apply Hseen]. cbn.
      destruct (rf_observed old <? _)%Z; [by apply Hseen|].
      by apply (eok_refs _ _ (ok_edges t Hok)) in Hold as [? _]. }
    apply has_objectP in Hh. rewrite Hh. by eexists. }
  destruct Htot as [t' Ht']. exists t'. split; [exact Ht'|]. split; [by eapply upsert_project_ref_ok|].
  by apply upsert_project_ref_inv in Ht' as (project & ref & -> & _).
Qed.
End success.

