(* ===== verification/MetadataRuns.v ===== *)
(** * The index at work

    A store with one registered project, collected and reconciled; and the
    sequences after which a collection destroys what a graph still needs or
    can no longer run at all. *)

From S2P Require Export MetadataRepair.
From Stdlib Require Import Ascii.

Fixpoint repeat_char (n : nat) (c : ascii) : string :=
  match n with 0 => "" | S n => String c (repeat_char n c) end.
Definition art : string := repeat_char 128 "a".
Definition gra : string := repeat_char 64 "b".
Definition pla : string := repeat_char 64 "c".

Definition plain_file (modified : N) : fs_object := mk_fs_object 10 modified None None.
Definition meta_of (artifacts : list (string * bool)) : VolumeMeta := mk_VolumeMeta 1 artifacts [].
Definition graph_dir (modified : N) (artifacts : list (string * bool)) : fs_object :=
  mk_fs_object 20 modified None (Some (5%N, Some (meta_of artifacts))).
Definition inventory : GraphInventory := mk_GraphInventory [(art, true)] [].

Definition store_files : gmap ObjectKey fs_object :=
  {[ OArtifact art := plain_file 1; OImage art := plain_file 2; OGraph gra := graph_dir 3 [(art, true)] ]}.
Definition registration : RegistrationFile := mk_RegistrationFile 1 "/p" gra 5.
Definition name_key (root : string) : string := root.

(** The store of an installed project whose database was deleted. *)
Definition lost_db : repo := mk_repo empty_tables store_files {[ "/p" := registration ]}.
(** Everything older than the present may go. *)
Definition strict : GcPolicy := mk_GcPolicy 0%N None.
Definition always (_ : ObjectKey) : bool := true.

Lemma installed_in_lost_db : ("/p", registration) ∈ scan_registration_files "/" name_key (rp_regs lost_db).
Proof. apply scan_registrations. split; vm_compute; reflexivity. Qed.
Lemma inventory_members (P : string * bool → Prop) : P (art, true) → ∀ a, a ∈ gi_artifacts inventory → P a.
Proof. intros H a ->%list_elem_of_singleton. exact H. Qed.


(** Of the same store without the registration nothing is left. *)
Example unregistered_is_collected :
  rp_files (collect "/" name_key (quiet always always 0) strict 1000 (mk_repo empty_tables store_files ∅)).1 = ∅.
Proof. vm_compute. reflexivity. Qed.

Lemma lost_db_repairable : repairable lost_db.
Proof.
  constructor.
  - apply empty_tables_ok.
  - by intros k row [=].
  - assert (Hall : map_Forall (λ _ f, (Z.of_N (fo_size f) <= I64_MAX ∧ Z.of_N (fo_modified f) <= I64_MAX)%Z) store_files)
      by (refine (bool_decide_unpack _ _); vm_compute; exact I).
    intros k f Hf. by apply (Hall k).
  - intros name r Hr. cbn in Hr. apply lookup_singleton_Some in Hr as [_ <-]. vm_compute. done.
  - intros id f g Hf. exfalso. revert Hf. cbn. unfold store_files.
    rewrite !lookup_insert_ne, lookup_singleton_ne by done. done.
Qed.


(** The repaired store, and a lease on its artifact. *)
Definition repaired : repo := (repair_index "/" name_key lost_db).1.
Definition leased : repo := (acquire_lease "lease-1" "owner-1" 7 [OArtifact art] LeaseOptions_default 1000 repaired).1.

Lemma acquired : acquire_lease "lease-1" "owner-1" 7 [OArtifact art] LeaseOptions_default 1000 repaired =
  (leased, Ok (mk_LeaseGuard "lease-1" "owner-1" 7 [OArtifact art] DEFAULT_LEASE_TTL)).
Proof.
  unfold leased. destruct (acquire_lease "lease-1" "owner-1" 7 [OArtifact art] LeaseOptions_default 1000 repaired) as [s r] eqn:E.
  cbn [fst]. f_equal. change r with (s, r).2. rewrite <- E. vm_compute. reflexivity.
Qed.

Lemma acquire_protects_witness :
  is_published (rp_files leased) (OArtifact art) = true ∧
  protection (rp_tables leased) (OArtifact art) 120999 = true ∧
  (∀ lease' owner', (lease', owner') ≠ ("lease-1", "owner-1") →
     protection (rp_tables (release_lease lease' owner' leased).1) (OArtifact art) 120999 = true) ∧
  (∀ lease' owner' now' expires, (lease', owner') ≠ ("lease-1", "owner-1") →
     protection (rp_tables (renew_lease lease' owner' now' expires leased).1) (OArtifact art) 120999 = true).
Proof.
  apply (acquire_protects "lease-1" "owner-1" 7 [OArtifact art] LeaseOptions_default 1000 repaired leased
           (mk_LeaseGuard "lease-1" "owner-1" 7 [OArtifact art] DEFAULT_LEASE_TTL)).
  - exact acquired.
  - by left.
  - vm_compute. reflexivity.
Defined.


Lemma lock_stem_inj_witness :
  is_ok (validate_id KGraph gra) = true ∧ (lock_stem (OGraph gra) = lock_stem (OGraph gra) → OGraph gra = OGraph gra).
Proof. split; [vm_compute; reflexivity|]. apply (lock_stem_inj (OGraph gra) (OGraph gra)); vm_compute; reflexivity. Defined.

(** ** Collections that break the store *)

Definition files_of (s : repo) : list (ObjectKey * fs_object) := map_to_list (rp_files s).

(** A graph goes and takes the row of its younger plan along, but not the
    plan's file: from then on every reconciliation, and so every collection,
    fails on the plan's foreign key. *)
Definition half_day : GcPolicy := mk_GcPolicy (500 * 1000000)%N None.
Definition with_plan : repo :=
  mk_repo empty_tables (<[OPlan pla := mk_fs_object 30 900 (Some gra) None]> store_files) ∅.
Definition collect_quietly (policy : GcPolicy) (now : N) : M repo MetadataError GcReport :=
  collect "/" name_key (quiet always always 0) policy now.

Example orphan_plan_blocks_collection :
  let s := (collect_quietly half_day 1000 with_plan).1 in
  is_ok (collect_quietly half_day 1000 with_plan).2 = true ∧
  files_of s = [(OPlan pla, mk_fs_object 30 900 (Some gra) None)] ∧ map_to_list (t_objects (rp_tables s)) = [] ∧
  (repair_index "/" name_key s).2 = Err (Sql ForeignKey) ∧
  (collect_quietly strict 1000000 s).2 = Err (Sql ForeignKey).
Proof. vm_compute. repeat split. Qed.

(** A lease on a graph alone, as a reattached volume takes it: the collector
    removes the artifact's file before the graph's edge refuses the deletion of
    its row.  The collection fails, the artifact is lost, and the graph, no
    longer complete, is never collected afterwards. *)
Definition unregistered : repo := (repair_index "/" name_key (mk_repo empty_tables store_files ∅)).1.
Definition reattached : repo := (acquire_lease "lease-1" "owner-1" 7 [OGraph gra] LeaseOptions_default 1000 unregistered).1.

Example restrict_after_unlink :
  let s := (collect_quietly strict 1000 reattached).1 in
  (collect_quietly strict 1000 reattached).2 = Err (Sql ForeignKey) ∧
  files_of s = [(OGraph gra, graph_dir 3 [(art, true)])] ∧
  has_object (rp_tables s) (OArtifact art) = true ∧
  let late := collect_quietly strict 1000000000 s in
  is_ok late.2 = true ∧ files_of late.1 = [(OGraph gra, graph_dir 3 [(art, true)])] ∧
  has_lease (rp_tables late.1) (OGraph gra) 1000000000 = false ∧
  incomplete_graph (rp_tables late.1) = true.
Proof. vm_compute. repeat split. Qed.

(** The rows to remove are chosen before the write transaction: an artifact
    published again and leased in between loses its row and its lease, and the
    next collection removes it although its guard has not expired. *)
Definition only_artifact : gmap ObjectKey fs_object := {[ OArtifact art := plain_file 1 ]}.
Definition vanished : repo :=
  mk_repo (rp_tables (repair_index "/" name_key (mk_repo empty_tables only_artifact ∅)).1) ∅ ∅.
Definition republished : repo :=
  run_ops "/" name_key vanished
    [Files only_artifact ∅; RecordPublished (OArtifact art) 999;
     Acquire "lease-1" "owner-1" 7 [OArtifact art] LeaseOptions_default 1000].

Example stale_commit_drops_lease :
  has_lease (rp_tables republished) (OArtifact art) 2000 = true ∧
  let s := run_op "/" name_key republished (CommitRepair vanished) in
  files_of s = [(OArtifact art, plain_file 1)] ∧ has_lease (rp_tables s) (OArtifact art) 2000 = false ∧
  files_of (collect_quietly strict 2000 s).1 = [].
Proof. vm_compute. repeat split. Qed.

(** Renewals of the lost lease answer [false], and the guard notices only when
    the expiry it last wrote has passed. *)
Example lost_lease_noticed_late :
  let s := run_op "/" name_key republished (CommitRepair vanished) in
  let g := mk_LeaseGuard "lease-1" "owner-1" 7 [OArtifact art] DEFAULT_LEASE_TTL in
  let h := heartbeat_new DEFAULT_LEASE_TTL (Some 1000%N) in
  (beat g (Some 31000%N) h s).2 = mk_heartbeat 121000 false ∧
  (beat g (Some 121000%N) h s).2 = mk_heartbeat 121000 true.
Proof. vm_compute. repeat split. Qed.
