(* ===== verification/Materialize.v ===== *)
(** * [src/materializer.rs]: package images into [node_modules]

    Cloning, copying and linking package trees, the [.bin] links and their
    relative targets, the checks made beforehand, and the two passes of a
    materialization, over the file tree of FileTree.v on Linux.  A tree has no
    inodes, so the hard-link backend and modification times are not modelled;
    a reflink and its fallback copy leave the same tree.  [parse_manifest] is
    the JSON decoder of a manifest. *)

From S2P Require Import PackageImage.
From S2P Require Export FileOps PathSafety Lockfile Manifest.
From Stdlib Require Import Ascii.

Inductive MaterializeError :=
  | MIo (p : path) (source : errno)
  | MInvalidData (p : path) (message : string)
  | UnsafePackagePath (path : string) (detail : PathSafetyError)
  | UnsafeBinName (package name : string) (detail : PathSafetyError)
  | UnsafeBinTarget (package target : string) (detail : PathSafetyError).
#[global] Instance MaterializeError_eq_dec : EqDecision MaterializeError.
Proof. solve_decision. Defined.

Notation mat := (M tree MaterializeError).
(** A call with the path its error carries. *)
Definition at_path {A} (p : path) (m : fs A) : mat A := λ t,
  let '(t, r) := m t in (t, map_err (MIo p) r).
Definition look {A} (p : path) (f : tree → result errno A) : mat A := at_path p (λ t, (t, f t)).

(** ** Paths *)

(** The names of a relative path, [None] when it has another component than
    names and dots. *)
Definition clean_components (p : string) : option (list string) :=
  mapM (λ c, match c with Normal s => Some [s] | CurDir => Some [] | _ => None end) (components p) ≫= λ l, Some (concat l).
Definition strip_dot_slash (p : string) : string := default p (strip_prefix "./" p).

Fixpoint common_prefix (a b : list string) : nat :=
  match a, b with
  | x :: a, y :: b => if bool_decide (x = y) then S (common_prefix a b) else 0
  | _, _ => 0
  end.
Definition relative_path (from to : string) : option string :=
  from_comps ← clean_components from;
  to_comps ← clean_components to;
  let common := common_prefix from_comps to_comps in
  match (replicate (length from_comps - common) ".." ++ drop common to_comps)%list with
  | [] => Some "."
  | parts => Some (join "/" parts)
  end.
Definition relative_bin_target (pkg_path relpath : string) : string :=
  let to := path_join pkg_path (strip_dot_slash relpath) in
  default to (relative_path "node_modules/.bin" to).

Definition safe_relative_join (root : path) (relative : string) : result MaterializeError path :=
  match clean_components relative with
  | Some names => Ok (root ++ names)
  | None => Err (MInvalidData root relative)
  end.

(** [Path::with_extension] of the last name. *)
Definition with_extension (p : path) (ext : string) : path :=
  match last p with
  | None => p
  | Some name =>
      let stem := match rsplit_once "." name with
                  | Some (before, _) => if is_empty before then name else before
                  | None => name
                  end in
      parent_of p ++ [stem +:+ "." +:+ ext]
  end.

(** ** Trees *)

Section trees.
Variable umask : N.

Definition make_symlink (target : string) (link : path) : mat () := at_path link (symlink target link).
Definition remove_any_m (p : path) : mat () := at_path p (remove_any p).
Definition create_dirs (p : path) : mat () := at_path p (create_dir_all umask p).

(** [FICLONE] into a file that is created exclusively, with the mode of the
    source; where the file system has no clones, the copy that replaces it. *)
Definition reflink_or_fallback_file (from to : path) : mat () := at_path to (λ t,
  match lookup_path t true from with
  | Err e => (t, Err e)
  | Ok q =>
      match node_at t q, lookup_path t false to with
      | None, _ => (t, Err ENOENT)
      | _, Err e => (t, Err e)
      | Some n, Ok q' =>
          match node_at t q' with
          | Some _ => (t, Err EEXIST)
          | None => match n with
                    | NFile bytes mode => (<[q' := NFile bytes mode]> t, Ok ())
                    | _ => (t, Err EISDIR)
                    end
          end
      end
  end).

(** [link_tree_by_walking_directory]; [fuel] bounds the nesting of the source. *)
Fixpoint link_walk (fuel : nat) (source target : path) : mat () :=
  match fuel with
  | O => throw (MIo source ELOOP)
  | S fuel =>
      _ ← create_dirs target;
      names ← look source (λ t, FileOps.read_dir t source);
      each_m (λ name,
        let from := source ++ [name] in
        let to := target ++ [name] in
        n ← look from (λ t, lstat t from);
        match n with
        | NDir _ => link_walk fuel from to
        | NFile _ _ => reflink_or_fallback_file from to
        | NLink link => make_symlink link to
        end) names
  end.
(** Deeper than every path of the tree. *)
Definition tree_depth (t : tree) : nat := S (foldr max 0 (length <$> (map_to_list t).*1)).

Definition index_entry (source target : path) (created : gset path) (e : IndexEntry) : mat (gset path) :=
  match e with
  | IFile p =>
      from ← lift (safe_relative_join source p);
      to ← lift (safe_relative_join target p);
      _ ← (if bool_decide (parent_of to ∈ created) then mret () else create_dirs (parent_of to));
      _ ← reflink_or_fallback_file from to;
      mret ({[ parent_of to ]} ∪ created)
  | ISymlink p link =>
      to ← lift (safe_relative_join target p);
      _ ← (if bool_decide (parent_of to ∈ created) then mret () else create_dirs (parent_of to));
      _ ← make_symlink link to;
      mret ({[ parent_of to ]} ∪ created)
  end.
Definition link_entries_from_index (source target : path) (entries : list IndexEntry) : mat () :=
  _ ← create_dirs target;
  _ ← fold_m (index_entry source target) ∅ entries;
  mret ().

Definition parse_image_index (index_path : path) : mat (list IndexEntry) :=
  bytes ← look index_path (λ t, read_file t index_path);
  match (decode_index bytes 0%N).2 with
  | Ok entries => mret entries
  | Err _ => throw (MInvalidData index_path "index")
  end.

(** [link_tree] with clones: the index is read before the target is touched. *)
Definition link_tree (source target : path) : mat () :=
  let index_path := with_extension source "bpi" in
  indexed ← gets (λ t, is_file t index_path);
  index ← (if indexed : bool then entries ← parse_image_index index_path; mret (Some entries) else mret None);
  _ ← remove_any_m target;
  match index with
  | Some entries => link_entries_from_index source target entries
  | None => depth ← gets tree_depth; link_walk depth source target
  end.
Definition reflink_tree : path → path → mat () := link_tree.

(** [copy_tree_inner]. *)
Definition keep_executable (from to : path) : mat () := λ t,
  match mode_at t from with
  | None => (t, Err (MIo from ENOENT))
  | Some mode => if bool_decide (N.land mode 73 = 0%N) then (t, Ok ()) else at_path to (chmod to mode) t
  end.
Fixpoint copy_tree_inner (fuel : nat) (source target : path) : mat () :=
  match fuel with
  | O => throw (MIo source ELOOP)
  | S fuel =>
      names ← look source (λ t, FileOps.read_dir t source);
      each_m (λ name,
        let from := source ++ [name] in
        let to := target ++ [name] in
        n ← look from (λ t, lstat t from);
        match n with
        | NDir _ => _ ← create_dirs to; copy_tree_inner fuel from to
        | NLink link => make_symlink link to
        | NFile _ _ => _ ← at_path to (copy_file from to); keep_executable from to
        end) names
  end.
Definition copy_tree (source target : path) : mat () :=
  _ ← remove_any_m target;
  _ ← create_dirs target;
  depth ← gets tree_depth;
  copy_tree_inner depth source target.

(** ** Store paths *)

Definition store_path (root : path) (kind : list string) (hex ext : string) : path :=
  root ++ kind ++ [String.substring 0 2 hex; hex +:+ ext].
Definition image_path (root : path) (hex : string) : path := store_path root ["images"; "sha512"] hex "".
Definition artifact_path (root : path) (hex : string) : path := store_path root ["artifacts"; "sha512"] hex ".tgz".
Definition graph_volume_path (root : path) (hex : string) : path := store_path root ["graphs"; "blake3"] hex "".

(** ** Bin links *)

Record MaterializeStats := mk_MaterializeStats {
  packages_materialized : nat; bins_linked : nat; bins_collisions : nat; links_skipped : nat }.
Definition no_stats : MaterializeStats := mk_MaterializeStats 0 0 0 0.
Definition count_package (s : MaterializeStats) : MaterializeStats :=
  mk_MaterializeStats (S (packages_materialized s)) (bins_linked s) (bins_collisions s) (links_skipped s).
Definition count_bin (s : MaterializeStats) : MaterializeStats :=
  mk_MaterializeStats (packages_materialized s) (S (bins_linked s)) (bins_collisions s) (links_skipped s).
Definition count_collision (s : MaterializeStats) : MaterializeStats :=
  mk_MaterializeStats (packages_materialized s) (bins_linked s) (S (bins_collisions s)) (links_skipped s).
Definition with_skipped (n : nat) (s : MaterializeStats) : MaterializeStats :=
  mk_MaterializeStats (packages_materialized s) (bins_linked s) (bins_collisions s) n.

(** [read_link_if_points_to]: component-wise equality of the targets. *)
Definition points_to (t : tree) (link : path) (expected : string) : bool :=
  match read_link t link with
  | Some actual => bool_decide (components actual = components expected)
  | None => false
  end.
Definition entry_exists (t : tree) (p : path) : bool := is_ok (lstat t p).
Definition path_exists (t : tree) (p : path) : bool := exists_at t p || entry_exists t p.

(** Failures to make the file of the image executable are ignored. *)
Definition ensure_executable (image_dir : path) (relpath : string) : mat () := λ t,
  let file := image_dir ++ split_char "/" (strip_dot_slash relpath) in
  match mode_at t file with
  | Some mode => if bool_decide (N.land mode 73 = 73%N) then (t, Ok ()) else ((chmod file 493 t).1, Ok ())
  | None => (t, Ok ())
  end.

Notation bins_state := (gset string * MaterializeStats)%type.
Definition link_bin (project : path) (pkg_path : string) (image_dir : path) (s : bins_state) (bin : string * string) : mat bins_state :=
  let '(name, relpath) := bin in
  if bool_decide (name ∈ s.1) then mret (s.1, count_collision s.2)
  else
    let link := project ++ ["node_modules"; ".bin"; name] in
    let rel_target := relative_bin_target pkg_path relpath in
    confirmed ← gets (λ t, points_to t link rel_target);
    if confirmed : bool then mret ({[ name ]} ∪ s.1, count_bin s.2)
    else
      occupied ← gets (λ t, path_exists t link);
      if occupied : bool then mret ({[ name ]} ∪ s.1, count_collision s.2)
      else
        _ ← ensure_executable image_dir relpath;
        _ ← make_symlink rel_target link;
        mret ({[ name ]} ∪ s.1, count_bin s.2).
Definition link_bins (project : path) (pkg_path : string) (image_dir : path) (bins : gmap string string)
    (s : bins_state) : mat bins_state :=
  _ ← create_dirs (project ++ ["node_modules"; ".bin"]);
  fold_m (link_bin project pkg_path image_dir) s (bt_list bins).

(** [rsplit('/').next()]. *)
Definition last_segment (name : string) : string := default name (last (split_char "/" name)).

Variable parse_manifest : string → option PackageManifest.
(** [PackageManifest::from_path(..).ok()]. *)
Definition manifest_at (t : tree) (dir : path) : option PackageManifest :=
  bytes ← ok (read_file t (dir ++ ["package.json"])); parse_manifest bytes.
Definition declared_bins (t : tree) (dir : path) (package_name : string) : gmap string string :=
  match manifest_at t dir ≫= mf_bin with
  | Some (BFOne p) => {[ package_name := p ]}
  | Some (BFMap m) => m
  | None => ∅
  end.
Definition image_declared_bins (t : tree) (image_dir : path) (package_name : string) : gmap string string :=
  foldl (λ bins kv, let name := last_segment kv.1 in
           if is_ok (validate_bin_name name) && is_ok (validate_bin_target kv.2) then <[name := kv.2]> bins else bins)
    ∅ (bt_list (declared_bins t image_dir package_name)).

(** ** The checks made beforehand *)

Definition preflight_entry (e : PackageEntry) : result MaterializeError () :=
  _ ← (if pe_link e then Ok "" else map_err (UnsafePackagePath (pe_path e)) (validate_package_path (pe_path e)));
  _ ← (match pe_workspace_target e with
       | Some target => map_err (UnsafePackagePath (pe_path e)) (validate_workspace_target target)
       | None => Ok ""
       end);
  foldl (λ r bin, _ ← r;
    _ ← map_err (UnsafeBinName (pe_path e) bin.1) (validate_bin_name bin.1);
    _ ← map_err (UnsafeBinTarget (pe_path e) bin.2) (validate_bin_target bin.2); Ok ()) (Ok ()) (bt_list (pe_bin e)).
Definition preflight_resolved (resolved : list (PackageEntry * string)) : result MaterializeError () :=
  foldl (λ r e, _ ← r; preflight_entry e.1) (Ok ()) resolved.

(** ** The two passes *)

Inductive MaterializeBackend := BSymlink | BIsolatedCopy | BReflink | BAuto.
(** [FsCapabilities::preferred_backend]. *)
Record FsCapabilities := mk_FsCapabilities { cap_symlink : bool; cap_hardlink : bool; cap_reflink : bool }.
Definition preferred_backend (c : FsCapabilities) : MaterializeBackend := if cap_reflink c then BReflink else BIsolatedCopy.

Definition link_path (link : path) (target : string) : mat () :=
  _ ← create_dirs (parent_of link);
  right ← gets (λ t, points_to t link target);
  if right : bool then mret () else (_ ← remove_any_m link; make_symlink target link).

(** On Unix every backend reports that bins are links. *)
Definition link_one_backend (backend : MaterializeBackend) (image_dir target : path) : mat () :=
  match backend with
  | BSymlink | BAuto => link_path target (path_display image_dir)
  | BIsolatedCopy => copy_tree image_dir target
  | BReflink => reflink_tree image_dir target
  end.

Definition skipped (e : PackageEntry) : bool := pe_link e || is_empty (pe_resolved e).
Definition work_of (resolved : list (PackageEntry * string)) : list (PackageEntry * string) :=
  filter (λ e : PackageEntry * string, skipped e.1 = false) resolved.
(** The number of [node_modules] on a path: the wave of a placement. *)
Definition nm_depth (p : string) : nat := length (filter (λ c, c = "node_modules") (split_char "/" p)).
(** The waves one after the other, each in the order of the work list. *)
Definition by_depth (work : list (PackageEntry * string)) : list (PackageEntry * string) :=
  sort_by (λ a b, (nm_depth (pe_path a.1) <=? nm_depth (pe_path b.1))%nat) work.

Definition place (backend : MaterializeBackend) (project root : path) (stats : MaterializeStats)
    (e : PackageEntry * string) : mat MaterializeStats :=
  _ ← link_one_backend backend (image_path root e.2) (full_path project (pe_path e.1));
  mret (count_package stats).

Definition bins_of (t : tree) (root : path) (e : PackageEntry * string) : gmap string string :=
  if bool_decide (pe_bin e.1 = ∅) then image_declared_bins t (image_path root e.2) (pe_name e.1) else pe_bin e.1.
Definition link_entry_bins (project root : path) (s : bins_state) (e : PackageEntry * string) : mat bins_state :=
  bins ← gets (λ t, bins_of t root e);
  if bool_decide (bins = ∅) then mret s
  else link_bins project (pe_path e.1) (image_path root e.2) bins s.

(** [order] is the order in which the trees of the work list are linked:
    itself for the serial strategy, [by_depth] for the waves. *)
Definition materialize_with_order (order : list (PackageEntry * string) → list (PackageEntry * string))
    (project root : path) (resolved : list (PackageEntry * string)) (backend : MaterializeBackend) : mat MaterializeStats :=
  _ ← lift (preflight_resolved resolved);
  let work := work_of resolved in
  stats ← fold_m (place backend project root) (with_skipped (length resolved - length work) no_stats) (order work);
  s ← fold_m (link_entry_bins project root) (∅, stats) work;
  mret s.2.
Definition materialize_with_backend_serial := materialize_with_order id.
Definition materialize_with_backend_by_depth := materialize_with_order by_depth.

(** [link_bins_for_staged]: the second pass alone. *)
Definition link_staged_entry (project root : path) (s : bins_state) (e : PackageEntry * string) : mat bins_state :=
  if skipped e.1
  then mret (s.1, with_skipped (S (links_skipped s.2)) s.2)
  else link_entry_bins project root (s.1, count_package s.2) e.
Definition link_bins_for_staged (project root : path) (resolved : list (PackageEntry * string)) : mat MaterializeStats :=
  _ ← lift (preflight_resolved resolved);
  s ← fold_m (link_staged_entry project root) (∅, no_stats) resolved;
  mret s.2.
End trees.

(** ** The strict layout *)

Inductive strict_error :=
  | InvalidRootPlacement (name p : string)
  | HoistedWithoutRoot (p : string)
  | MissingParent (p parent : string)
  | NotDeclared (p parent : string)
  | WrongTarget (name parent target p : string)
  | InvalidStrictTarget (p : string).
Definition strict_entry (l : Lockfile) (p : PackageEntry) : result strict_error () :=
  match rsplit_once "/node_modules/" (pe_path p) with
  | None =>
      fail_if (negb (bool_decide (pe_path p = "node_modules/" +:+ pe_name p)))
        with_err (InvalidRootPlacement (pe_name p) (pe_path p));
      fail_if (negb (bool_decide (is_Some (re_dependencies (lf_root l) !! pe_name p)))) with_err (HoistedWithoutRoot (pe_path p));
      Ok ()
  | Some (parent, name) =>
      parent_entry ← ok_or (MissingParent (pe_path p) parent) (find (λ c, bool_decide (pe_path c = parent)) (lf_packages l));
      dependency ← ok_or (NotDeclared (pe_path p) parent)
        (r ← rm_packages (lf_resolution l) !! parent; pres_dependencies r !! name);
      fail_if (negb (bool_decide (ld_target dependency = pe_path p)))
        with_err (WrongTarget name parent (ld_target dependency) (pe_path p));
      fail_if (negb (bool_decide (ld_target dependency ∈ pe_path <$> lf_packages l)) || is_empty (pe_name parent_entry))
        with_err (InvalidStrictTarget (pe_path p));
      Ok ()
  end.
Definition validate_strict_layout (l : Lockfile) : result strict_error () :=
  foldl (λ r p, _ ← r; strict_entry l p) (Ok ()) (lf_packages l).
