(* ===== verification/MaterializeTheory.v ===== *)
(** * What a materialization leaves

    A linked tree is a copy of the image, placements that come after their
    ancestors keep every file, the waves are such an order, and the [.bin]
    targets lead to the files they name. *)

From S2P Require Import PackageImage.
From S2P Require Export Materialize.
From Stdlib Require Import Ascii.

Lemma prefix_app_split (a b k : path) : a `prefix_of` b ++ k → a `prefix_of` b ∨ ∃ s, a = b ++ s ∧ s ≠ [] ∧ s `prefix_of` k.
Proof.
  revert b. induction a as [|x a IH]; intros [|y b] H.
  - left. done.
  - left. by eexists.
  - right. exists (x :: a). by split_and!.
  - pose proof (prefix_cons_inv_1 _ _ _ _ H) as ->. apply prefix_cons_inv_2 in H. destruct (IH b H) as [H'|(s & -> & ? & ?)].
    + left. by apply prefix_cons.
    + right. by exists s.
Qed.
Lemma not_prefix_of_shorter (p s : path) : s ≠ [] → ¬ p ++ s `prefix_of` p.
Proof. intros Hs H%prefix_length. rewrite length_app in H. destruct s; [done|]. cbn in H. lia. Qed.

Section clone.
Variable umask : N.

(** What a clone makes of a node: directories get fresh permissions. *)
Definition cloned (n : node) : node := match n with NDir _ => NDir (N.ldiff 511 umask) | _ => n end.

(** Below [p] every entry has a proper name and lies in a directory, and no
    link is empty: what a file system guarantees. *)
Definition tree_ok (t : tree) (p : path) : Prop :=
  ∀ s c n, t !! (p ++ s ++ [c]) = Some n →
    plain c ∧ is_dir_node (node_at t (p ++ s)) = true ∧ n ≠ NLink "".

Lemma tree_ok_child t p c : tree_ok t p → tree_ok t (p ++ [c]).
Proof using Type. intros H s d n Hn. rewrite <- (assoc_L (++)) in *. by apply (H ([c] ++ s) d n). Qed.
Lemma tree_ok_frame t t' p : tree_ok t p → (∀ s, node_at t' (p ++ s) = node_at t (p ++ s)) → tree_ok t' p.
Proof using Type.
  intros H Hf s c n Hn. rewrite Hf. apply (H s c n). specialize (Hf (s ++ [c])).
  rewrite !(assoc_L (++)) in *. rewrite !node_at_snoc in Hf. by rewrite <- Hf.
Qed.
Lemma tree_ok_leaf t p s : tree_ok t p → is_dir_node (node_at t p) = false → s ≠ [] → t !! (p ++ s) = None.
Proof using Type.
  intros H Hd Hs. destruct (t !! (p ++ s)) as [n|] eqn:Hn; [|done]. exfalso. revert n Hn.
  induction s as [|c s IH] using rev_ind; [done|]. intros n Hn. destruct (H s c n Hn) as (_ & Hp & _).
  destruct s as [|d s]; [by rewrite app_nil_r, Hd in Hp|].
  rewrite node_at_app in Hp by done.
  destruct (t !! (p ++ d :: s)) as [m|] eqn:Hm; [|done]. by apply (IH ltac:(done) m).
Qed.

(** [t'] is [t] with a clone of the tree at [source] at [target]. *)
Definition grafted (source target : path) (t t' : tree) : Prop :=
  (∀ s, t' !! (target ++ s) = cloned <$> node_at t (source ++ s)) ∧
  ∀ k, ¬ target `prefix_of` k → t' !! k = t !! k.

Definition absent (t : tree) (p : path) : Prop := ∀ s, t !! (p ++ s) = None.

Lemma reflink_child source target name t bytes mode :
  real_dir t source → real_dir t target → plain name →
  t !! (source ++ [name]) = Some (NFile bytes mode) → t !! (target ++ [name]) = None →
  reflink_or_fallback_file (source ++ [name]) (target ++ [name]) t =
    (<[target ++ [name] := NFile bytes mode]> t, Ok ()).
Proof using Type.
  intros Hs Ht Hn Hf Ha. unfold reflink_or_fallback_file, at_path.
  rewrite (lookup_child t true), namei_last by (done || intros _ target'; by rewrite Hf).
  rewrite node_at_snoc, Hf, lookup_child_plain, node_at_snoc, Ha by done. done.
Qed.

Lemma create_child t p c : real_dir t p → plain c → t !! (p ++ [c]) = None →
  create_dir_all umask (p ++ [c]) t = (<[p ++ [c] := NDir (N.ldiff 511 umask)]> t, Ok ()).
Proof using Type.
  intros Hp Hc Hn. rewrite (create_fresh_dirs umask p [c]); [done|done|by repeat constructor; apply Hc|].
  intros k [s ->] Hne H. apply prefix_app_inv in H. destruct H as [s' Hs]. destruct s as [|x [|y s]]; [by rewrite app_nil_r in Hne| |done].
  by injection Hs as <- _.
Qed.

Lemma make_symlink_child t p c target :
  real_dir t p → plain c → target ≠ "" → t !! (p ++ [c]) = None →
  make_symlink target (p ++ [c]) t = (<[p ++ [c] := NLink target]> t, Ok ()).
Proof using Type.
  intros Hp Hc Ht Hn. unfold make_symlink, at_path. by rewrite symlink_child by (done || by apply is_empty_false).
Qed.

(** One leaf of the source. *)
Lemma graft_leaf source target n t :
  target ≠ [] → absent t target → tree_ok t source → node_at t source = Some n → is_dir_node (Some n) = false →
  grafted source target t (<[target := n]> t).
Proof using Type.
  intros Hne Ha Hok Hn Hd. split.
  - intros s. destruct s as [|c s].
    + rewrite !app_nil_r, lookup_insert_eq, Hn. by destruct n.
    + rewrite lookup_insert_ne by (intros Heq; apply (f_equal length) in Heq; rewrite length_app in Heq; cbn in Heq; lia).
      rewrite Ha, node_at_app, (tree_ok_leaf t source) by (done || by rewrite Hn). done.
  - intros k Hk. apply lookup_insert_ne. intros <-. by apply Hk.
Qed.

(** The entries of a directory one after the other. *)
Lemma walk_entries (body : string → mat ()) source target names t :
  NoDup names →
  (∀ name, name ∈ names → absent t (target ++ [name])) →
  (∀ name t1, name ∈ names → (∀ s, node_at t1 (source ++ s) = node_at t (source ++ s)) → 
     (∀ k, (∀ n, n ∈ names → ¬ target ++ [n] `prefix_of` k) → t1 !! k = t !! k) → absent t1 (target ++ [name]) →
     ∃ t2, body name t1 = (t2, Ok ()) ∧ grafted (source ++ [name]) (target ++ [name]) t1 t2) →
  (∀ name s, name ∈ names → ¬ target ++ [name] `prefix_of` source ++ s) →
  ∃ t', each_m body names t = (t', Ok ()) ∧
    (∀ name s, name ∈ names → t' !! (target ++ name :: s) = cloned <$> node_at t (source ++ name :: s)) ∧
    ∀ k, (∀ name, name ∈ names → ¬ target ++ [name] `prefix_of` k) → t' !! k = t !! k.
Proof using Type.
  intros Hnd Ha Hb Hdis. revert t Ha Hb. induction names as [|name names IH]; intros t Ha Hb.
  { exists t. split; [done|]. split; [|done]. by intros name s ?%elem_of_nil. }
  apply NoDup_cons in Hnd as [Hni Hnd].
  destruct (Hb name t) as (t1 & Hrun & Hg1 & Hf1); [left|done|done|apply Ha; left|].
  assert (∀ s, node_at t1 (source ++ s) = node_at t (source ++ s)) as Hsrc.
  { intros s. destruct (source ++ s) as [|x l] eqn:Hl; [done|]. cbn [node_at]. rewrite <- Hl. apply Hf1, Hdis. left. }
  assert (∀ n, n ∈ names → absent t1 (target ++ [n])) as Ha1.
  { intros n Hn s. rewrite Hf1; [apply Ha; by right|]. intros H. rewrite <- (assoc_L (++)) in H.
    apply prefix_app_inv in H. apply prefix_cons_inv_1 in H as ->. done. }
  destruct (IH Hnd ltac:(intros; apply Hdis; by right) t1 Ha1) as (t' & Hrest & Hall & Hf).
  { intros n t2 Hn Hs2 Hk2 Ha2. apply Hb; [by right| | |done].
    - intros s. by rewrite Hs2.
    - intros k Hk. rewrite Hk2 by (intros m Hm; apply Hk; by right). apply Hf1, Hk. left. }
  exists t'. cbn [each_m]. rewrite (bind_run (body name) _ t t1 () Hrun). split; [done|]. split.
  - intros n s [->|Hn]%elem_of_cons; [|by rewrite Hall, Hsrc].
    rewrite Hf.
    + specialize (Hg1 s). by rewrite <- !(assoc_L (++)) in Hg1.
    + intros m Hm H. apply prefix_app_inv in H. apply prefix_cons_inv_1 in H as ->. done.
  - intros k Hk. rewrite Hf by (intros n Hn; apply Hk; by right). apply Hf1, Hk. left.
Qed.

Lemma link_walk_spec fuel source target c t :
  source ≠ [] → real_dir t source → real_dir t target → plain c → absent t (target ++ [c]) → tree_ok t source →
  ¬ source `prefix_of` target ++ [c] → (∀ s n, node_at t (source ++ s) = Some n → length s < fuel) →
  ∃ t', link_walk umask fuel source (target ++ [c]) t = (t', Ok ()) ∧ grafted source (target ++ [c]) t t'.
Proof using Type.
  revert source target c t. induction fuel as [|fuel IH]; intros source target c t Hne Hs Ht Hc Ha Hok Hdis Hfuel.
  { assert (node_at t source = node_at t (source ++ [])) as Heq by (by rewrite app_nil_r).
    destruct Hs as [_ Hd]. specialize (Hd source [] ltac:(by rewrite app_nil_r)).
    destruct (node_at t source) as [n|] eqn:Hn; [|done]. specialize (Hfuel [] n ltac:(by rewrite app_nil_r)). lia. }
  set (tgt := target ++ [c]) in *. set (t1 := <[tgt := NDir (N.ldiff 511 umask)]> t).
  assert (∀ s, node_at t1 (source ++ s) = node_at t (source ++ s)) as Hsrc.
  { intros s. destruct (source ++ s) as [|x l] eqn:Hl; [done|]. cbn [node_at]. unfold t1. apply lookup_insert_ne.
    intros Heq. apply Hdis. rewrite Heq, <- Hl. by eexists. }
  assert (create_dirs umask tgt t = (t1, Ok ())) as Hmk.
  { unfold create_dirs, at_path. unfold tgt at 1. rewrite create_child; [done..|]. specialize (Ha []). by rewrite app_nil_r in Ha. }
  assert (real_dir t1 source) as Hs1.
  { destruct Hs as [Hp Hd]. split; [done|]. intros pre post Heq. destruct pre as [|x pre]; [done|]. cbn [node_at].
    unfold t1. destruct (decide (tgt = x :: pre)) as [<-|Hn]; [by rewrite lookup_insert_eq|].
    rewrite lookup_insert_ne by done. by apply (Hd (x :: pre) post). }
  assert (real_dir t1 tgt) as Ht1 by (apply (fresh_dirs_real umask target [c]); [done|by repeat constructor; apply Hc]).
  assert (children t1 source ≡ₚ children t source) as Hch.
  { apply NoDup_Permutation; [apply children_NoDup..|]. intros m. rewrite !elem_of_children, <- !node_at_snoc. by rewrite Hsrc. }
  cbn [link_walk]. rewrite (bind_run (create_dirs umask tgt) _ t t1 () Hmk).
  unfold look, at_path, mbind at 1, M_bind at 1. rewrite read_dir_real by done. cbn [map_err].
  destruct (walk_entries (λ name,
        n ← look (source ++ [name]) (λ t0, lstat t0 (source ++ [name]));
        match n with
        | NDir _ => link_walk umask fuel (source ++ [name]) (tgt ++ [name])
        | NFile _ _ => reflink_or_fallback_file (source ++ [name]) (tgt ++ [name])
        | NLink link => make_symlink link (tgt ++ [name])
        end) source tgt (children t1 source) t1) as (t' & Hrun & Hall & Hf).
  - apply children_NoDup.
  - intros name _ s. unfold t1. rewrite lookup_insert_ne.
    + rewrite <- (assoc_L (++)). apply Ha.
    + intros Heq. apply (f_equal length) in Heq. rewrite !length_app in Heq. cbn in Heq. lia.
  - intros name t2 Hname Hs2 Hk2 Ha2. rewrite Hch in Hname. apply elem_of_children in Hname as [n Hn].
    assert (plain name ∧ n ≠ NLink "") as [Hpl Hnl].
    { destruct (Hok [] name n) as (? & _ & ?); [done|done]. }
    assert (node_at t2 (source ++ [name]) = Some n) as Hn2 by (by rewrite Hs2, Hsrc, node_at_snoc).
    assert (real_dir t2 tgt) as Ht2.
    { eapply real_dir_frame; [exact Ht1|]. intros pre post Heq _. apply Hk2. intros m _ H.
      apply prefix_length in H. rewrite Heq, !length_app in H. cbn in H. lia. }
    assert (real_dir t2 source) as Hsr2.
    { eapply real_dir_frame; [exact Hs1|]. intros pre post Heq Hpre.
      apply Hk2. intros m Hm [l Hl].
      assert (t1 !! (tgt ++ [m]) = None) as Hno.
      { unfold t1. rewrite lookup_insert_ne by (intros E; apply (f_equal length) in E; rewrite !length_app in E; cbn in E; lia). apply (Ha [m]). }
      destruct Hs1 as [_ Hd1]. specialize (Hd1 (tgt ++ [m]) (l ++ post)).
      rewrite node_at_snoc, Hno in Hd1. by specialize (Hd1 ltac:(by rewrite Heq, Hl, (assoc_L (++)))). }
    assert (tree_ok t2 (source ++ [name])) as Hok2.
    { apply tree_ok_child. eapply tree_ok_frame; [exact Hok|]. intros s. by rewrite Hs2. }
    unfold mbind, M_bind, look, at_path. rewrite lstat_child, <- node_at_snoc, Hn2 by done. cbn [ok_or map_err].
    assert (t2 !! (tgt ++ [name]) = None) as Habs by (specialize (Ha2 []); by rewrite app_nil_r in Ha2).
    rewrite node_at_snoc in Hn2. destruct n as [bytes mode|mode|link].
    + rewrite (reflink_child _ _ _ _ bytes mode) by done. eexists. split; [done|].
      apply graft_leaf; [by destruct tgt|done|done|by rewrite node_at_snoc|done].
    + apply IH; [by destruct source|..]; try done.
      * apply real_dir_snoc; [done|done|by rewrite Hn2].
      * intros H. apply Hdis. unfold tgt. destruct H as [l Hl].
        destruct (prefix_app_split source tgt [name]) as [H|(s & Heq & Hse & Hs')]; [exists (name :: l); by rewrite Hl, <- (assoc_L (++))|done|].
        exfalso. rewrite Heq in Hl. apply (f_equal length) in Hl. rewrite !length_app in Hl.
        apply prefix_length in Hs'. destruct s; [done|]. cbn in *. lia.
      * intros s m Hm. rewrite <- (assoc_L (++)), Hs2, Hsrc in Hm. apply Hfuel in Hm. cbn in Hm. lia.
    + rewrite make_symlink_child; [|done|done|by intros ->|done]. eexists. split; [done|].
      apply graft_leaf; [by destruct tgt|done|done|by rewrite node_at_snoc|done].
  - intros name s _ H. destruct (prefix_app_split _ _ _ H) as [H'|(s' & Heq & Hse & _)].
    + assert (is_dir_node (t !! (tgt ++ [name])) = true) as Hd.
      { destruct Hs as [_ Hd]. rewrite <- node_at_snoc. destruct H' as [l Hl]. by apply (Hd _ l). }
      by rewrite (Ha [name]) in Hd.
    + apply Hdis. destruct s' as [|x s' _] using rev_ind; [done|]. rewrite (assoc_L (++)) in Heq.
      apply app_inj_tail in Heq as [Heq _]. by exists s'.
  - exists t'. split; [exact Hrun|]. split.
    + intros [|name s].
      * rewrite !app_nil_r. rewrite Hf by (intros m _ H; by eapply not_prefix_of_shorter; [|exact H]).
        unfold t1. rewrite lookup_insert_eq. destruct Hs as [_ Hd]. specialize (Hd source [] ltac:(by rewrite app_nil_r)).
        by destruct (node_at t source) as [[]|].
      * rewrite <- Hsrc. destruct (decide (name ∈ children t1 source)) as [Hin|Hni]; [by apply Hall|].
        assert (node_at t1 (source ++ name :: s) = None) as ->.
        { rewrite node_at_app by done. assert (t1 !! (source ++ [name]) = None) as Hno.
          { apply eq_None_not_Some. intros Hsome. by apply Hni, elem_of_children. }
          destruct s as [|d s]; [done|]. change (name :: d :: s) with ([name] ++ d :: s). rewrite (assoc_L (++)).
          apply tree_ok_leaf; [|by rewrite node_at_snoc, Hno|done].
          apply tree_ok_child. by eapply tree_ok_frame. }
        rewrite Hf.
        -- unfold t1. rewrite lookup_insert_ne by (intros E; apply (f_equal length) in E; rewrite !length_app in E; cbn in E; lia).
           apply Ha.
        -- intros m Hm H. apply prefix_app_inv in H. apply prefix_cons_inv_1 in H as ->. done.
    + intros k Hk. rewrite Hf.
      * unfold t1. apply lookup_insert_ne. intros <-. by apply Hk.
      * intros m _ H. apply Hk. etrans; [|exact H]. by eexists.
Qed.

(** ** Trees from an index *)

(** The files and links of [source], and directories to hold them. *)
Record cloned_files (source target : path) (t t' : tree) : Prop := {
  cf_leaf : ∀ s n, is_dir_node (Some n) = false → t' !! (target ++ s) = Some n ↔ node_at t (source ++ s) = Some n;
  cf_dir : ∀ s, is_dir_node (t' !! (target ++ s)) = true → is_dir_node (node_at t (source ++ s)) = true;
  cf_root : is_dir_node (t' !! target) = true;
  cf_closed : ∀ s c, is_Some (t' !! (target ++ s ++ [c])) → plain c ∧ is_dir_node (t' !! (target ++ s)) = true;
  cf_frame : ∀ k, ¬ target `prefix_of` k → t' !! k = t !! k }.

Lemma grafted_files source target t t' :
  tree_ok t source → is_dir_node (node_at t source) = true → grafted source target t t' → cloned_files source target t t'.
Proof using Type.
  intros Hok Hd [Hg Hf]. split; [| | | |done].
  - intros s n Hn. rewrite Hg. destruct (node_at t (source ++ s)) as [m|]; [|done]. cbn. destruct m; cbn; [done| |done].
    split; intros [= <-]; done.
  - intros s. rewrite Hg. by destruct (node_at t (source ++ s)) as [[]|].
  - rewrite <- (app_nil_r target), Hg, app_nil_r. by destruct (node_at t source) as [[]|].
  - intros s c [n Hn]. rewrite Hg in Hn. rewrite node_at_app in Hn by (by destruct s).
    destruct (t !! (source ++ s ++ [c])) as [m|] eqn:Hm; [|done]. destruct (Hok s c m Hm) as (Hc & Hs & _).
    split; [done|]. rewrite Hg. by destruct (node_at t (source ++ s)) as [[]|].
Qed.

(** The index lists the files and links of the tree at [source]. *)
Definition entry_path (e : IndexEntry) : string := match e with IFile p | ISymlink p _ => p end.
Definition indexed (t : tree) (source : path) (e : IndexEntry) (d : path) : Prop :=
  clean_components (entry_path e) = Some d ∧ d ≠ [] ∧
  match e, t !! (source ++ d) with
  | IFile _, Some (NFile _ _) => True
  | ISymlink _ link, Some (NLink l) => l = link
  | _, _ => False
  end.

Lemma tree_ok_dirs t p s c n : real_dir t p → tree_ok t p → t !! (p ++ s ++ [c]) = Some n → real_dir t (p ++ s) ∧ plain c.
Proof using Type.
  intros Hp Hok Hn. destruct (Hok s c n Hn) as (Hc & Hs & _). split; [|done]. clear n c Hn Hc.
  induction s as [|c s IH] using rev_ind; [by rewrite app_nil_r|].
  rewrite (assoc_L (++)) in *. rewrite node_at_snoc in Hs. destruct (t !! ((p ++ s) ++ [c])) as [n|] eqn:Hn; [|done].
  destruct (Hok s c n) as (Hc & Hds & _); [by rewrite (assoc_L (++))|].
  apply real_dir_snoc; [by apply IH|done|by rewrite Hn].
Qed.

(** Directories stay directories. *)
Definition keeps_dirs (t t' : tree) : Prop := ∀ k, is_dir_node (t !! k) = true → is_dir_node (t' !! k) = true.
Lemma keeps_dirs_real t t' p : keeps_dirs t t' → real_dir t p → real_dir t' p.
Proof using Type.
  intros Hk [Hp Hd]. split; [done|]. intros [|c pre] post Heq; [done|]. apply Hk. by apply (Hd (c :: pre) post).
Qed.

Section index.
Context (source target : path) (t0 : tree).
Context (Hne : source ≠ []) (Hsrc : real_dir t0 source) (Hok : tree_ok t0 source).
Context (Hapart : ∀ s s', target ++ s ≠ source ++ s').

(** The entries [done] are in place, with the directories above them. *)
Record placed_entries (ds : list path) (t : tree) : Prop := {
  px_real : real_dir t target;
  px_done : ∀ d, d ∈ ds → t !! (target ++ d) = t0 !! (source ++ d);
  px_only : ∀ s n, t !! (target ++ s) = Some n → s = [] ∨ s ∈ ds ∨
    (is_dir_node (Some n) = true ∧ Forall plain s ∧ is_dir_node (node_at t0 (source ++ s)) = true);
  px_above : ∀ s c, is_Some (t !! (target ++ s ++ [c])) → is_dir_node (t !! (target ++ s)) = true;
  px_frame : ∀ k, ¬ target `prefix_of` k → t !! k = t0 !! k }.

Lemma placed_source ds t s : placed_entries ds t → node_at t (source ++ s) = node_at t0 (source ++ s).
Proof using Hne Hapart.
  intros [_ _ _ _ Hf]. destruct (source ++ s) as [|x l] eqn:Hl; [done|]. cbn [node_at]. rewrite <- Hl. apply Hf.
  intros [s' H]. by apply (Hapart s' s).
Qed.
Lemma placed_real_source ds t s : placed_entries ds t → real_dir t0 (source ++ s) → real_dir t (source ++ s).
Proof using Hne Hapart Hsrc.
  intros Hpl [Hp Hd]. split; [done|]. intros pre post Heq. destruct pre as [|x pre]; [done|]. cbn [node_at].
  destruct (decide (target `prefix_of` x :: pre)) as [[l Hl]|Hn].
  - destruct (prefix_weak_total (x :: pre) source (source ++ s)) as [[l' H]|[l' H]]; [by eexists|by eexists| |].
    + exfalso. apply (Hapart (l ++ l') []). rewrite app_nil_r, H, Hl. by rewrite (assoc_L (++)).
    + exfalso. apply (Hapart l l'). by rewrite <- H, <- Hl.
  - rewrite (px_frame _ _ Hpl) by done. by apply (Hd (x :: pre) post).
Qed.

(** The directories on the way to an entry. *)
Lemma placed_dirs ds t s c n :
  placed_entries ds t → t0 !! (source ++ s ++ [c]) = Some n → (∀ d, d ∈ ds → is_dir_node (t0 !! (source ++ d)) = false) →
  ∃ t1, create_dirs umask (target ++ s) t = (t1, Ok ()) ∧ real_dir t1 (target ++ s) ∧ placed_entries ds t1 ∧
    keeps_dirs t t1 ∧ ∀ k, t !! k = None → ¬ k `prefix_of` target ++ s → t1 !! k = None.
Proof using Hne Hapart Hsrc Hok.
  intros Hpl Hn Hleaf. pose proof Hpl as [Hr Hd Ho Ha Hf].
  destruct (tree_ok_dirs t0 source s c n Hsrc Hok Hn) as [[Hps Hds] _]. apply Forall_app in Hps as [_ Hps].
  assert (∀ pre post, s = pre ++ post → is_dir_node (node_at t0 (source ++ pre)) = true) as Hdir.
  { intros pre post ->. apply (Hds _ post). by rewrite (assoc_L (++)). }
  destruct (missing_dirs target s t Hr Hps) as (i & Hri & Hmiss).
  { intros pre m [post Hpre] Hm Hne'. destruct (Ho pre m Hm) as [->|[Hin|[? _]]]; [done| |done].
    specialize (Hleaf pre Hin). rewrite <- (node_at_app _ source), (Hdir pre post Hpre) in Hleaf by done. done. }
  { intros pre d Hm Hpre. apply eq_None_not_Some. intros Hs%Ha. by rewrite Hm in Hs. }
  pose proof (create_missing_dirs umask target s i t Hri Hps Hmiss) as Hi.
  set (t1 := fresh_dirs umask (target ++ take i s) (drop i s) t) in *.
  assert (real_dir t1 (target ++ s)) as Hr1.
  { rewrite <- (take_drop i s) at 1. rewrite (assoc_L (++)). apply fresh_dirs_real; [done|]. by apply Forall_drop. }
  assert (∀ k, t1 !! k = t !! k ∨ (k `prefix_of` target ++ s ∧ target `prefix_of` k ∧ k ≠ target ∧ is_dir_node (t1 !! k) = true)) as Hk1.
  { intros k. unfold t1. rewrite fresh_dirs_lookup. case_bool_decide as Hb; [right|by left].
    destruct Hb as (Hb1 & Hb2 & Hb3). rewrite <- (assoc_L (++)), take_drop in Hb3. split_and!; [done| | |done].
    - etrans; [|exact Hb1]. by eexists.
    - intros ->. apply Hb2. destruct Hb1 as [l Hl]. rewrite <- (assoc_L (++)) in Hl.
      apply (f_equal length) in Hl. rewrite !length_app in Hl. destruct (take i s) as [|y r]; [by rewrite app_nil_r|cbn in Hl; lia]. }
  exists t1. split; [unfold create_dirs, at_path; by rewrite Hi|]. split; [done|]. split.
  - split.
    + destruct Hr1 as [Hp1 Hd1]. split; [by apply Forall_app in Hp1 as [? _]|]. intros pre post ->. apply (Hd1 pre (post ++ s)).
      by rewrite (assoc_L (++)).
    + intros d Hin. destruct (Hk1 (target ++ d)) as [->|(Hpre & _ & Hnt & _)]; [by apply Hd|]. exfalso.
      apply prefix_app_inv in Hpre as [post Hpost]. specialize (Hleaf d Hin).
      destruct d as [|y d]; [by rewrite app_nil_r in Hnt|].
      by rewrite <- (node_at_app _ source), (Hdir _ post Hpost) in Hleaf by done.
    + intros s' m Hm. destruct (Hk1 (target ++ s')) as [Heq|(Hpre & _ & _ & Hdn)].
      * rewrite Heq in Hm. by apply Ho.
      * apply prefix_app_inv in Hpre as [post Hpost]. right. right. rewrite Hm in Hdn. split; [done|]. split.
        -- rewrite Hpost in Hps. by apply Forall_app in Hps as [? _].
        -- by apply (Hdir s' post).
    + intros s' d Hsome. destruct (Hk1 (target ++ s' ++ [d])) as [Heq|(Hpre & _ & _ & _)].
      * rewrite Heq in Hsome. apply Ha in Hsome. destruct (Hk1 (target ++ s')) as [->|(_ & _ & _ & ?)]; done.
      * apply prefix_app_inv in Hpre as [post Hpost]. destruct Hr1 as [_ Hd1].
        destruct s' as [|y s']; [rewrite app_nil_r; destruct Hr as [_ Hd']|].
        { destruct (Hk1 target) as [->|(_ & _ & ? & _)]; [|done]. specialize (Hd' target []). rewrite app_nil_r in Hd'.
          specialize (Hd' eq_refl). destruct target as [|z l] eqn:Htg; [|done].
          exfalso. apply (Hapart source []). by rewrite app_nil_r. }
        rewrite <- node_at_app by done. apply (Hd1 _ ([d] ++ post)). by rewrite Hpost, <- !(assoc_L (++)).
    + intros k Hk. destruct (Hk1 k) as [->|(_ & ? & _)]; [by apply Hf|done].
  - split; [intros k Hdk; destruct (Hk1 k) as [->|(_ & _ & _ & ?)]; done|].
    intros k Hn' Hk. destruct (Hk1 k) as [->|(? & _)]; done.
Qed.

Lemma safe_join_ok root p d : clean_components p = Some d → safe_relative_join root p = Ok (root ++ d).
Proof using Type. intros H. unfold safe_relative_join. by rewrite H. Qed.

(** Putting one leaf at its place, once its directory is there. *)
Lemma placed_leaf ds t s c n :
  placed_entries ds t → real_dir t (target ++ s) → t0 !! (source ++ s ++ [c]) = Some n → is_dir_node (Some n) = false →
  t !! (target ++ s ++ [c]) = None → placed_entries (ds ++ [s ++ [c]]) (<[target ++ s ++ [c] := n]> t).
Proof using Hne Hapart.
  intros Hpl Hr Hn Hleaf Habs. pose proof Hpl as [Hrt Hd Ho Ha Hf].
  assert (∀ k, k ≠ target ++ s ++ [c] → <[target ++ s ++ [c] := n]> t !! k = t !! k) as Hk by (intros k ?; by apply lookup_insert_ne).
  split.
  - eapply real_dir_frame; [exact Hrt|]. intros pre post -> _. apply Hk. intros E. apply (f_equal length) in E.
    rewrite !length_app in E. cbn in E. lia.
  - intros d [Hin|Hin%list_elem_of_singleton]%elem_of_app.
    + rewrite Hk; [by apply Hd|]. intros E%app_inv_head. subst d. rewrite Hd in Habs by done. by rewrite Hn in Habs.
    + subst. by rewrite lookup_insert_eq.
  - intros s' m Hm. destruct (decide (s' = s ++ [c])) as [->|Hs'].
    + right. left. apply elem_of_app. right. by apply list_elem_of_singleton.
    + rewrite Hk in Hm by (by intros ?%app_inv_head). destruct (Ho s' m Hm) as [?|[?|?]]; [by left|right; left; apply elem_of_app; by left|by right; right].
  - intros s' d Hsome. destruct (decide (s' ++ [d] = s ++ [c])) as [E|E].
    + apply app_inj_tail in E as [-> ->].
      assert (s ++ [c] ≠ s) as Hsc by (intros E; apply (f_equal length) in E; rewrite length_app in E; cbn in E; lia).
      rewrite Hk by (by intros E%app_inv_head). destruct s as [|y s].
      * rewrite app_nil_r. destruct Hr as [_ Hr']. specialize (Hr' target []). rewrite !app_nil_r in Hr'. specialize (Hr' eq_refl).
        destruct target as [|z l]; [|done]. exfalso. apply (Hapart source []). by rewrite app_nil_r.
      * rewrite <- node_at_app by done. destruct Hr as [_ Hr']. apply (Hr' _ []). by rewrite app_nil_r.
    + rewrite Hk in Hsome by (by intros ?%app_inv_head).
      destruct (decide (s' = s ++ [c])) as [->|Hs']; [|rewrite Hk by (by intros ?%app_inv_head); by apply (Ha s' d)].
      apply Ha in Hsome. by rewrite Habs in Hsome.
  - intros k Hkt. rewrite Hk; [by apply Hf|]. intros ->. apply Hkt. by eexists.
Qed.

Lemma leaf_absent ds t d n :
  placed_entries ds t → t0 !! (source ++ d) = Some n → d ≠ [] → is_dir_node (Some n) = false → d ∉ ds →
  t !! (target ++ d) = None.
Proof using Type.
  intros [_ _ Ho _ _] Hn Hd Hleaf Hni. destruct (t !! (target ++ d)) as [m|] eqn:Hm; [|done].
  destruct (Ho d m Hm) as [?|[?|(_ & _ & Hdir)]]; [done..|].
  by rewrite node_at_app, Hn, Hleaf in Hdir.
Qed.

Lemma place_indexed ds t created e d :
  placed_entries ds t → (∀ p, p ∈ created → real_dir t p) → (∀ d, d ∈ ds → is_dir_node (t0 !! (source ++ d)) = false) →
  indexed t0 source e d → d ∉ ds →
  ∃ t' created', index_entry umask source target created e t = (t', Ok created') ∧
    placed_entries (ds ++ [d]) t' ∧ (∀ p, p ∈ created' → real_dir t' p).
Proof using Hne Hapart Hsrc Hok.
  intros Hpl Hcr Hleaf (Hcl & Hdne & Hkind) Hni.
  destruct d as [|c s _] using rev_ind; [done|]. clear Hdne.
  assert (∃ n, t0 !! (source ++ s ++ [c]) = Some n ∧ is_dir_node (Some n) = false) as (n & Hn & Hnl).
  { destruct e, (t0 !! (source ++ s ++ [c])) as [[]|] eqn:E; try done; eauto. }
  destruct (tree_ok_dirs t0 source s c n Hsrc Hok Hn) as [Hrs Hc].
  pose proof (leaf_absent ds t (s ++ [c]) n Hpl Hn ltac:(by destruct s) Hnl Hni) as Hno.
  assert (∃ t1, (if bool_decide (target ++ s ∈ created) then mret () else create_dirs umask (target ++ s)) t
      = (t1, Ok ()) ∧ real_dir t1 (target ++ s) ∧ placed_entries ds t1 ∧ keeps_dirs t t1 ∧
      t1 !! (target ++ s ++ [c]) = None) as (t1 & Hdirs & Hr1 & Hpl1 & Hkd & Habs).
  { case_bool_decide as Hin.
    - exists t. split_and!; [done|by apply Hcr|done|by intros k|done].
    - destruct (placed_dirs ds t s c n Hpl Hn Hleaf) as (t1 & H1 & H2 & H3 & H4 & H5). exists t1. split_and!; [done..|].
      apply H5; [done|]. intros H%prefix_length. rewrite !length_app in H. cbn in H. lia. }
  assert (real_dir t1 (source ++ s)) as Hrs1 by (by eapply placed_real_source).
  assert (t1 !! ((source ++ s) ++ [c]) = Some n) as Hn1.
  { rewrite <- node_at_snoc, <- (assoc_L (++)), (placed_source ds t1 (s ++ [c]) Hpl1). by rewrite node_at_app by (by destruct s). }
  set (t2 := <[target ++ s ++ [c] := n]> t1).
  assert (keeps_dirs t1 t2) as Hk2.
  { intros k Hk. unfold t2. rewrite lookup_insert_ne; [done|]. intros <-. by rewrite Habs in Hk. }
  exists t2, ({[ target ++ s ]} ∪ created). split; [|split; [by apply placed_leaf|]].
  - rewrite (assoc_L (++)) in Habs.
    assert (parent_of ((target ++ s) ++ [c]) = target ++ s) as Hpar by apply parent_snoc.
    unfold index_entry. destruct e as [p|p link]; cbn [entry_path] in Hcl;
      rewrite ?(safe_join_ok source p _ Hcl), ?(safe_join_ok target p _ Hcl), ?(assoc_L (++));
      rewrite !lift_bind; unfold t2; rewrite (assoc_L (++)), Hpar.
    + rewrite Hn in Hkind. destruct n as [bytes mode| |]; [|done..].
      rewrite (bind_run _ _ t t1 () Hdirs).
      by rewrite (bind_run _ _ _ _ _ (reflink_child _ _ c t1 bytes mode Hrs1 Hr1 Hc Hn1 Habs)).
    + rewrite Hn in Hkind. destruct n as [| |l]; [done..|]. subst l.
      assert (link ≠ "") as Hl by (intros ->; by destruct (Hok s c (NLink "") Hn) as (_ & _ & ?)).
      rewrite (bind_run _ _ t t1 () Hdirs).
      by rewrite (bind_run _ _ _ _ _ (make_symlink_child t1 _ c link Hr1 Hc Hl Habs)).
  - intros p [->%elem_of_singleton|Hp]%elem_of_union; [by eapply keeps_dirs_real|].
    eapply keeps_dirs_real; [exact Hk2|]. eapply keeps_dirs_real; [exact Hkd|]. by apply Hcr.
Qed.

Lemma place_all_indexed entries paths ds t created :
  placed_entries ds t → (∀ p, p ∈ created → real_dir t p) → (∀ d, d ∈ ds → is_dir_node (t0 !! (source ++ d)) = false) →
  Forall2 (indexed t0 source) entries paths → NoDup (ds ++ paths) →
  ∃ t' created', fold_m (index_entry umask source target) created entries t = (t', Ok created') ∧
    placed_entries (ds ++ paths) t'.
Proof using Hne Hapart Hsrc Hok.
  intros Hpl Hcr Hleaf Hf. revert ds t created Hpl Hcr Hleaf.
  induction Hf as [|e d entries paths He Hf IH]; intros ds t created Hpl Hcr Hleaf Hnd.
  { exists t, created. by rewrite app_nil_r. }
  assert (d ∉ ds) as Hni.
  { apply NoDup_app in Hnd as (_ & H & _). intros Hin. apply (H d Hin). left. }
  destruct (place_indexed ds t created e d Hpl Hcr Hleaf He Hni) as (t1 & created1 & Hrun & Hpl1 & Hcr1).
  destruct (IH (ds ++ [d]) t1 created1 Hpl1 Hcr1) as (t' & created' & Hrest & Hpl').
  - intros d' [Hin|Hin%list_elem_of_singleton]%elem_of_app; [by apply Hleaf|]. subst d'.
    destruct He as (_ & _ & Hk). by destruct e, (t0 !! (source ++ d)) as [[]|].
  - by rewrite <- (assoc_L (++)).
  - exists t', created'. rewrite <- (assoc_L (++)) in Hpl'. split; [|done]. cbn [fold_m].
    by rewrite (bind_run _ _ t t1 created1 Hrun).
Qed.
End index.

(** ** One package *)

(** Every entry below [base] lies in a directory and has a proper name. *)
Definition closed (t : tree) (base : path) : Prop :=
  ∀ s c, is_Some (t !! (base ++ s ++ [c])) → plain c ∧ is_dir_node (node_at t (base ++ s)) = true.
(** Nothing but directories on the way from [base] to the last name of [rel]. *)
Definition way (t : tree) (base rel : path) : Prop :=
  ∀ pre post n, rel = pre ++ post → pre ≠ [] → post ≠ [] → t !! (base ++ pre) = Some n → is_dir_node (Some n) = true.

Lemma closed_none t base pre c : closed t base → pre ≠ [] → t !! (base ++ pre) = None → t !! (base ++ pre ++ [c]) = None.
Proof using Type.
  intros Hc Hpre Hn. apply eq_None_not_Some. intros [_ Hd]%Hc. by rewrite node_at_app, Hn in Hd.
Qed.
Lemma closed_absent t base s : closed t base → s ≠ [] → t !! (base ++ s) = None → absent t (base ++ s).
Proof using Type.
  intros Hc Hs Hn l. induction l as [|c l IH] using rev_ind; [by rewrite app_nil_r|].
  rewrite <- (assoc_L (++)) in *. rewrite (assoc_L (++) s l). apply closed_none; [done|by destruct s|done].
Qed.

Lemma closed_leaf t base s0 s :
  closed t base → s0 ≠ [] → is_dir_node (t !! (base ++ s0)) = false → s ≠ [] → t !! (base ++ s0 ++ s) = None.
Proof using Type.
  intros Hc Hs0 Hd. induction s as [|c s IH] using rev_ind; [done|]. intros _.
  rewrite (assoc_L (++) s0). destruct s as [|e s].
  - rewrite app_nil_r. apply eq_None_not_Some. intros [_ Hd']%Hc. by rewrite node_at_app, Hd in Hd'.
  - apply closed_none; [done|by destruct s0|]. by apply IH.
Qed.

(** The directories above a target: [tp] is [t] with those that were missing. *)
Definition dirs_made (base rel : path) (t tp : tree) : Prop :=
  ∀ k, tp !! k = t !! k ∨
    (t !! k = None ∧ (∃ pre post, rel = pre ++ post ∧ pre ≠ [] ∧ post ≠ [] ∧ k = base ++ pre) ∧
     tp !! k = Some (NDir (N.ldiff 511 umask))).

Lemma parents_made base rel c t :
  real_dir t base → Forall plain (rel ++ [c]) → closed t base → way t base (rel ++ [c]) → absent t (base ++ rel ++ [c]) →
  ∃ tp, real_dir tp (base ++ rel) ∧ absent tp (base ++ rel ++ [c]) ∧ dirs_made base (rel ++ [c]) t tp ∧
    create_dir_all umask (base ++ rel ++ [c]) t = create_dir_all umask (base ++ rel ++ [c]) tp.
Proof using Type.
  intros Hb [Hp [Hpc _]%Forall_cons]%Forall_app Hc Hw Ha.
  destruct (missing_dirs base rel t Hb Hp) as (i & Hri & Hmiss).
  { intros pre n [post ->] Hn Hne. eapply (Hw pre (post ++ [c])); [by rewrite (assoc_L (++))|done|by destruct post|done]. }
  { intros pre d Hn Hne. by apply closed_none. }
  set (tp := fresh_dirs umask (base ++ take i rel) (drop i rel) t).
  assert (real_dir tp (base ++ rel)) as Hrp.
  { rewrite <- (take_drop i rel) at 1. rewrite (assoc_L (++)). apply fresh_dirs_real; [done|by apply Forall_drop]. }
  assert (∀ k, tp !! k = if bool_decide (base ++ take i rel `prefix_of` k ∧ k ≠ base ++ take i rel ∧ k `prefix_of` base ++ rel)
            then Some (NDir (N.ldiff 511 umask)) else t !! k) as Hk.
  { intros k. unfold tp. by rewrite fresh_dirs_lookup, <- (assoc_L (++)), take_drop. }
  assert (absent tp (base ++ rel ++ [c])) as Hap.
  { intros s. rewrite Hk, bool_decide_eq_false_2; [apply Ha|]. intros (_ & _ & H%prefix_length).
    rewrite !length_app in H. cbn in H. lia. }
  exists tp. split_and!; [done|done| |].
  - intros k. rewrite Hk. case_bool_decide as Hb1; [|by left]. right. destruct Hb1 as (H1 & H2 & H3).
    destruct H3 as [post Hpost]. destruct (prefix_weak_total base k (base ++ rel)) as [[s ->]|H]; [by eexists|by exists post| |].
    + rewrite <- (assoc_L (++)) in Hpost. apply app_inv_head in Hpost.
      assert (s ≠ []) as Hs.
      { intros ->. destruct H1 as [l Hl]. rewrite <- (assoc_L (++)) in Hl. apply app_inv_head in Hl.
        apply H2. f_equal. by apply symmetry, app_eq_nil in Hl as [-> _]. }
      split; [|split; [|done]].
      * destruct H1 as [l Hl]. rewrite <- (assoc_L (++)) in Hl. apply app_inv_head in Hl. subst s.
        destruct l as [|d l]; [by rewrite app_nil_r in H2|].
        assert (drop i rel = (d :: l) ++ post) as Hdr.
        { rewrite <- (take_drop i rel) in Hpost at 1. rewrite <- (assoc_L (++)) in Hpost. by apply app_inv_head in Hpost. }
        apply Hmiss; [by rewrite Hdr|done|by rewrite Hdr].
      * exists s, (post ++ [c]). split; [by rewrite Hpost, (assoc_L (++))|]. split; [done|]. split; [by destruct post|done].
    + exfalso. apply H2. destruct H1 as [l Hl]. destruct H as [l' Hl'].
      apply (f_equal length) in Hl as Hlen. apply (f_equal length) in Hl' as Hlen'. rewrite !length_app in Hlen, Hlen'.
      rewrite length_app in Hlen. destruct l as [|y l]; [by rewrite app_nil_r in Hl|cbn in Hlen; lia].
  - assert (create_dir_all umask ((base ++ rel) ++ [c]) tp = (<[(base ++ rel) ++ [c] := NDir (N.ldiff 511 umask)]> tp, Ok ())) as Hlast.
    { apply create_child; [done|done|]. rewrite <- (assoc_L (++)). specialize (Hap []). by rewrite app_nil_r in Hap. }
    rewrite (assoc_L (++) base rel [c]), Hlast. rewrite <- (take_drop i rel) at 1.
    rewrite (assoc_L (++)), <- (assoc_L (++) (base ++ take i rel)).
    rewrite (create_fresh_dirs umask (base ++ take i rel) (drop i rel ++ [c]) t); [|done| |].
    + rewrite fresh_dirs_snoc. fold tp. by rewrite <- (assoc_L (++) base), (assoc_L (++) (take i rel)), take_drop, (assoc_L (++) base).
    + apply Forall_app. split; [by apply Forall_drop|by repeat constructor; apply Hpc].
    + intros k [s ->] Hne Hpre. apply prefix_app_inv in Hpre. rewrite <- (assoc_L (++)).
      destruct s as [|d s]; [by rewrite app_nil_r in Hne|]. destruct (drop i rel) as [|y l] eqn:Hdr.
      * destruct Hpre as [l Hl]. destruct s; [|done]. injection Hl as <- _. specialize (Ha []). rewrite app_nil_r in Ha.
        rewrite <- Ha. f_equal. f_equal. rewrite <- (take_drop i rel) at 2. by rewrite Hdr, app_nil_r.
      * pose proof (prefix_cons_inv_1 _ _ _ _ Hpre) as ->. by apply Hmiss.
Qed.

(** Whatever is at the target goes. *)
Lemma remove_target base rel c t :
  real_dir t base → Forall plain (rel ++ [c]) → closed t base → way t base (rel ++ [c]) →
  ∃ t1, remove_any (base ++ rel ++ [c]) t = (t1, Ok ()) ∧ absent t1 (base ++ rel ++ [c]) ∧
    ∀ k, ¬ base ++ rel ++ [c] `prefix_of` k → t1 !! k = t !! k.
Proof using Type.
  intros Hb [Hp [Hpc _]%Forall_cons]%Forall_app Hc Hw. unfold remove_any.
  destruct (missing_dirs base rel t Hb Hp) as (i & Hri & Hmiss).
  { intros pre n [post ->] Hn Hne. eapply (Hw pre (post ++ [c])); [by rewrite (assoc_L (++))|done|by destruct post|done]. }
  { intros pre d Hn Hne. by apply closed_none. }
  destruct (drop i rel) as [|d l] eqn:Hdr.
  - assert (take i rel = rel) as Htk by (rewrite <- (take_drop i rel) at 2; by rewrite Hdr, app_nil_r).
    rewrite Htk in Hri. rewrite (assoc_L (++)), lstat_child by done.
    destruct (t !! ((base ++ rel) ++ [c])) as [n|] eqn:Hn; cbn [ok_or].
    + apply remove_node_frame; [done..|]. intros s Hs Hl. rewrite <- (assoc_L (++) base) in *. rewrite <- (assoc_L (++) base).
      apply closed_leaf; [done|by destruct rel|by rewrite Hn|done].
    + exists t. split; [done|]. split; [|done]. rewrite <- (assoc_L (++)) in *.
      by apply closed_absent; [|destruct rel|].
  - assert (base ++ rel ++ [c] = (base ++ take i rel) ++ d :: (l ++ [c])) as Heq.
    { rewrite <- (take_drop i rel) at 1. by rewrite Hdr, <- !(assoc_L (++)). }
    assert (plain d) as Hpd.
    { rewrite <- (take_drop i rel), Hdr in Hp. by apply Forall_app in Hp as [_ [? _]%Forall_cons]. }
    assert (∀ s, t !! ((base ++ take i rel) ++ d :: s) = None) as Hno.
    { intros s. rewrite <- (assoc_L (++)). by apply Hmiss. }
    assert (lstat t (base ++ rel ++ [c]) = Err ENOENT) as ->.
    { unfold lstat. rewrite Heq, lookup_missing; [done|done|done|by apply Hno|by destruct l]. }
    exists t. split; [done|]. split; [|done]. intros s. rewrite Heq, <- (assoc_L (++)). cbn [app]. apply Hno.
Qed.
End clone.
