(* ===== verification/View.v ===== *)
(** * [src/volume.rs]: the project's view of a graph volume

    The relays and links that attach a project to a volume, the test whether a
    project is attached, the fingerprint of a directory tree, and the removal
    of entries an earlier install owned, over the file tree of FileTree.v.
    Paths are absolute, as their names; BLAKE3 of a stream in hexadecimal is
    the argument [hash].  Permissions of new directories come from [umask]. *)

From S2P Require Export FileOps Encoding Graph.
From Stdlib Require Import Ascii.

(** ** Fingerprints *)

Definition IDENTITY_RELAY : string := "relay:".
Definition IDENTITY_TREE : string := "tree-blake3-v1:".
Definition IDENTITY_TREE_VOLUME : string := "tree-volume-v1:".

(** [relative_string]: a backslash in a name becomes a separator. *)
Definition relative_string (rel : path) : string := replace_char "\" "/" (join "/" rel).

(** [collect_relative_entries]: what lies below the directory [q], as relative
    paths.  Links are not followed. *)
Definition collect_relative_entries (t : tree) (q : path) : list string :=
  omap (λ k : path, if bool_decide (q `prefix_of` k) && negb (bool_decide (k = q))
                    then Some (relative_string (drop (length q) k)) else None) (map_to_list t).*1.

(** The entries below a directory in sorted order, looked up again by the
    collected strings.  The root may be a link. *)
Definition tree_entries (t : tree) (root : path) : result errno (list (string * node)) :=
  q ← lookup_path t true root;
  match node_at t q with
  | Some (NDir _) =>
      mapM (M:=result errno) (λ rel, n ← lstat t (root ++ split_char "/" rel); Ok (rel, n))
        (sort_names (collect_relative_entries t q))
  | Some _ => Err ENOTDIR
  | None => Err ENOENT
  end.

(** One entry's part of the hashed stream: kind, path, and content. *)
Definition tree_entry_bytes (e : string * node) : string :=
  match e.2 with
  | NLink target => "s" +:+ write_field e.1 +:+ write_field target
  | NDir _ => "d" +:+ write_field e.1
  | NFile content _ => "f" +:+ write_field e.1 +:+ write_field content
  end.

Section fingerprint.
Variable hash : string → string.

Definition tree_fingerprint (t : tree) (root : path) : result errno string :=
  entries ← tree_entries t root;
  Ok (IDENTITY_TREE +:+ hash (write_each tree_entry_bytes entries)).

(** ** Reconciliation *)

Record ReconcileOutcome := mk_ReconcileOutcome { ro_removed : nat; ro_preserved : list string }.

(** The proof that an entry is still as it was attached. *)
Definition owned_tree (t : tree) (project : path) (prior : option path) (e : ManagedEntry) : bool :=
  let live := tree_fingerprint t (full_path project (me_path e)) in
  if starts_with IDENTITY_TREE (me_identity e)
  then bool_decide (ok live = Some (me_identity e))
  else
    match strip_prefix IDENTITY_TREE_VOLUME (me_identity e) with
    | None => false
    | Some name =>
        negb (is_empty name) && negb (contains_char "/" name) && negb (contains_char "\" name)
        && bool_decide (me_path e = "node_modules/" +:+ name)
        && match prior with
           | None => false
           | Some volume =>
               let source := volume ++ ["node_modules"; name] in
               is_dir t source
               && match live, tree_fingerprint t source with
                  | Ok a, Ok b => bool_decide (a = b)
                  | _, _ => false
                  end
           end
    end.
Definition safe_to_remove (t : tree) (project : path) (prior : option path) (e : ManagedEntry) (n : node) : bool :=
  if bool_decide (me_mode e ∈ ["relay"; "direct"]) then
    match strip_prefix IDENTITY_RELAY (me_identity e), n with
    | Some target, NLink live => bool_decide (live = target)
    | _, _ => false
    end
  else if bool_decide (me_mode e ∈ ["local"; "reflink"]) then
    is_dir_node (Some n) && owned_tree t project prior e
  else false.

(** The scope a removed entry may leave empty. *)
Definition tidy_scope (p : path) : fs () := λ t,
  match last (parent_of p) with
  | Some name => if starts_with_char "@" name then ((remove_dir (parent_of p) t).1, Ok ()) else (t, Ok ())
  | None => (t, Ok ())
  end.

Definition preserve (e : ManagedEntry) (o : ReconcileOutcome) : ReconcileOutcome :=
  mk_ReconcileOutcome (ro_removed o) (ro_preserved o ++ [me_path e]).

Definition reconcile_entry (project : path) (desired : gset string) (prior : option path)
    (o : ReconcileOutcome) (e : ManagedEntry) : fs ReconcileOutcome := λ t,
  if bool_decide (me_path e ∈ desired) then (t, Ok o)
  else if negb (path_is_valid (me_path e)) then (t, Ok (preserve e o))
  else
    let p := full_path project (me_path e) in
    if negb (exists_at t p) then (t, Ok o)
    else
      match lstat t p with
      | Err err => (t, Err err)
      | Ok n =>
          if negb (safe_to_remove t project prior e n) then (t, Ok (preserve e o))
          else (_ ← remove_node p n;
                _ ← tidy_scope p;
                mret (mk_ReconcileOutcome (S (ro_removed o)) (ro_preserved o))) t
      end.

(** Deepest paths first. *)
Definition path_desc (a b : ManagedEntry) : bool := String.leb (me_path b) (me_path a).
Definition reconcile_project_view (project : path) (old_owned : list ManagedEntry) (desired : gset string)
    (prior : option path) : fs ReconcileOutcome :=
  fold_m (reconcile_entry project desired prior) (mk_ReconcileOutcome 0 []) (sort_by path_desc old_owned).

(** [infer_prior_ownership]. *)
Definition infer_entry (t : tree) (project volume : path) (name : string) : option ManagedEntry :=
  let source := volume ++ ["node_modules"; name] in
  let live := project ++ ["node_modules"; name] in
  match lstat t live with
  | Ok (NLink target) =>
      if bool_decide (target = path_display source)
      then Some (mk_ManagedEntry ("node_modules/" +:+ name) "relay" (IDENTITY_RELAY +:+ target)) else None
  | Ok (NDir _) =>
      match tree_fingerprint t live, tree_fingerprint t source with
      | Ok a, Ok b =>
          if bool_decide (a = b)
          then Some (mk_ManagedEntry ("node_modules/" +:+ name) "local" (IDENTITY_TREE_VOLUME +:+ name)) else None
      | _, _ => None
      end
  | _ => None
  end.
Definition path_asc (a b : ManagedEntry) : bool := String.leb (me_path a) (me_path b).
Fixpoint dedup_path (l : list ManagedEntry) : list ManagedEntry :=
  match l with
  | a :: (b :: _) as l' =>
      match dedup_path l' with
      | b' :: l'' => if bool_decide (me_path a = me_path b') then a :: l'' else a :: b' :: l''
      | [] => [a]
      end
  | _ => l
  end.
Definition infer_prior_ownership (t : tree) (project volume : path) : list ManagedEntry :=
  match read_dir t (volume ++ ["node_modules"]) with
  | Err _ => []
  | Ok names => dedup_path (sort_by path_asc (omap (infer_entry t project volume) names))
  end.
End fingerprint.

(** ** Attachment by relays *)

Record AttachStats := mk_AttachStats { relays_created : nat; relays_unchanged : nat }.
Record AttachOutcome := mk_AttachOutcome { ao_stats : AttachStats; ao_owned : list ManagedEntry }.
(** [AttachOutcome::new]. *)
Definition attach_outcome (stats : AttachStats) (owned : list ManagedEntry) : AttachOutcome :=
  mk_AttachOutcome stats (dedup_path (sort_by path_asc owned)).

Record ProjectLink := mk_ProjectLink { pl_path : string; pl_source : path; pl_bins : gmap string string }.

Definition split_placement (p : string) : option (string * option string) :=
  rest ← strip_prefix "node_modules/" p;
  match split_char "/" rest with
  | [first] => if starts_with_char "@" first then None else Some (first, None)
  | [first; member] => if starts_with_char "@" first then Some (first, Some member) else None
  | _ => None
  end.

(** [relative_to], of absolute paths. *)
Fixpoint strip_common (a b : path) : path * path :=
  match a, b with
  | x :: a', y :: b' => if bool_decide (x = y) then strip_common a' b' else (a, b)
  | _, _ => (a, b)
  end.
Definition relative_to (base target : path) : string :=
  let '(base, target) := strip_common base target in
  match (replicate (length base) ".." ++ target)%list with
  | [] => "."
  | l => join "/" l
  end.

Definition replace_with_symlink (p : path) (target : string) : fs () :=
  _ ← (λ t, match lstat t p with
            | Ok n => remove_node p n t
            | Err ENOENT => (t, Ok ())
            | Err e => (t, Err e)
            end);
  symlink target p.

Section attach.
Variable umask : N.

Definition ensure_real_dir (p : path) : fs () := λ t,
  match lstat t p with
  | Ok (NDir _) => (t, Ok ())
  | Ok _ => (_ ← remove_file p; create_dir_all umask p) t
  | Err ENOENT => create_dir_all umask p t
  | Err e => (t, Err e)
  end.

(** The [.bin] directory is cleared the other way round: what is not a link is
    removed as a directory. *)
Definition ensure_bin_dir (p : path) : fs () := λ t,
  match lstat t p with
  | Ok (NDir _) => (t, Ok ())
  | Ok (NLink _) => (_ ← remove_file p; create_dir_all umask p) t
  | Ok _ => (_ ← remove_dir_all p; create_dir_all umask p) t
  | Err ENOENT => create_dir_all umask p t
  | Err e => (t, Err e)
  end.

(** [sorted_entry_names], empty when unreadable. *)
Definition sorted_entry_names (t : tree) (p : path) : list string :=
  match read_dir t p with Ok names => sort_names names | Err _ => [] end.

Notation acc := (AttachStats * list ManagedEntry)%type.
Definition created (a : acc) (e : ManagedEntry) : acc :=
  (mk_AttachStats (S (relays_created a.1)) (relays_unchanged a.1), a.2 ++ [e]).
Definition unchanged (a : acc) (e : ManagedEntry) : acc :=
  (mk_AttachStats (relays_created a.1) (S (relays_unchanged a.1)), a.2 ++ [e]).
Definition relay_entry (rel target : string) : ManagedEntry :=
  mk_ManagedEntry rel "relay" (IDENTITY_RELAY +:+ target).

(** One member of a mixed container. *)
Definition place_member (dir : path) (prefix : string) (target_of : string → string) (a : acc) (name : string) : fs acc :=
  _ ← replace_with_symlink (dir ++ [name]) (target_of name);
  mret (created a (relay_entry (prefix +:+ name) (target_of name))).

(** The links by entry name: alone, and by scope and member. *)
Definition direct_links (links : list ProjectLink) : gmap string ProjectLink :=
  foldl (λ m l, match split_placement (pl_path l) with Some (name, None) => <[name := l]> m | _ => m end) ∅ links.
Definition scoped_links (links : list ProjectLink) : gmap string (gmap string ProjectLink) :=
  foldl (λ m l, match split_placement (pl_path l) with
                | Some (name, Some member) => <[name := <[member := l]> (default ∅ (m !! name))]> m
                | _ => m
                end) ∅ links.
(** The first link that declares a bin has it. *)
Definition live_bins (links : list ProjectLink) : gmap string (ProjectLink * string) :=
  foldl (λ m l, foldl (λ m kv, match m !! kv.1 with Some _ => m | None => <[kv.1 := (l, kv.2)]> m end) m
                  (bt_list (pl_bins l))) ∅ links.

Definition bin_target (bins : gmap string (ProjectLink * string)) (vol_bin : path) (name : string) : string :=
  match bins !! name with
  | Some (link, target) =>
      path_join "../" (path_join (default (pl_path link) (strip_prefix "node_modules/" (pl_path link))) target)
  | None => path_display (vol_bin ++ [name])
  end.
Definition member_target (members : gmap string ProjectLink) (proj_scope vol_scope : path) (name : string) : string :=
  match members !! name with
  | Some link => relative_to proj_scope (pl_source link)
  | None => path_display (vol_scope ++ [name])
  end.

(** An entry without links of its own: the relay is confirmed or made. *)
Definition place_relay (proj_nm vol_nm : path) (a : acc) (name : string) : fs acc := λ t,
  let target := path_display (vol_nm ++ [name]) in
  let link := proj_nm ++ [name] in
  let entry := relay_entry ("node_modules/" +:+ name) target in
  match lstat t link with
  | Ok (NLink current) =>
      if bool_decide (current = target) then (t, Ok (unchanged a entry))
      else (_ ← remove_file link; _ ← symlink target link; mret (created a entry)) t
  | Ok (NDir _) => (_ ← remove_dir_all link; _ ← symlink target link; mret (created a entry)) t
  | Ok (NFile _ _) => (_ ← remove_file link; _ ← symlink target link; mret (created a entry)) t
  | Err ENOENT => (_ ← symlink target link; mret (created a entry)) t
  | Err e => (t, Err e)
  end.

Definition attach_entry (proj_nm vol_nm : path) (links : list ProjectLink) (a : acc) (name : string) : fs acc :=
  let bins := live_bins links in
  if bool_decide (name = ".bin") && negb (bool_decide (bins = ∅)) then
    _ ← ensure_bin_dir (proj_nm ++ [".bin"]);
    names ← gets (λ t, sorted_entry_names t (vol_nm ++ [".bin"]));
    fold_m (place_member (proj_nm ++ [".bin"]) "node_modules/.bin/" (bin_target bins (vol_nm ++ [".bin"]))) a names
  else
    match direct_links links !! name with
    | Some link =>
        let target := relative_to proj_nm (pl_source link) in
        _ ← replace_with_symlink (proj_nm ++ [name]) target;
        mret (created a (relay_entry (pl_path link) target))
    | None =>
        match scoped_links links !! name with
        | Some members =>
            _ ← ensure_real_dir (proj_nm ++ [name]);
            names ← gets (λ t, sorted_entry_names t (vol_nm ++ [name]));
            fold_m (place_member (proj_nm ++ [name]) ("node_modules/" +:+ name +:+ "/")
                      (member_target members (proj_nm ++ [name]) (vol_nm ++ [name]))) a names
        | None => place_relay proj_nm vol_nm a name
        end
    end.

Definition attach_project_relay (project volume : path) (links : list ProjectLink) : fs AttachOutcome :=
  let vol_nm := volume ++ ["node_modules"] in
  let proj_nm := project ++ ["node_modules"] in
  _ ← create_dir_all umask proj_nm;
  t ← gets id;
  names ← lift (read_dir t vol_nm);
  a ← fold_m (attach_entry proj_nm vol_nm links) (mk_AttachStats 0 0, []) (sort_names names);
  mret (attach_outcome a.1 a.2).
End attach.

(** [project_attached], of Unix. *)
Definition entry_attached (t : tree) (proj_nm vol_nm : path) (name : string) : bool :=
  match lstat t (proj_nm ++ [name]) with
  | Ok (NLink target) => bool_decide (target = path_display (vol_nm ++ [name]))
  | Ok n => is_dir_node (Some n)
  | Err _ => false
  end.
Definition project_attached (t : tree) (project volume : path) : bool :=
  let proj_nm := project ++ ["node_modules"] in
  let vol_nm := volume ++ ["node_modules"] in
  is_dir t proj_nm && is_dir t vol_nm
  && forallb (entry_attached t proj_nm vol_nm) (match read_dir t vol_nm with Ok names => names | Err _ => [] end).

(** [ancestor_package_paths]. *)
Fixpoint ancestors_loop (fuel : nat) (done rest : list string) : list string :=
  match fuel with
  | O => []
  | S fuel =>
      match rest with
      | first :: rest' =>
          if negb (bool_decide (first = "node_modules")) then []
          else
            let size := match rest' with name :: _ => if starts_with_char "@" name then 3 else 2 | [] => 2 end in
            if (length rest <? size)%nat then []
            else if (size <? length rest)%nat
            then join "/" (done ++ take size rest) :: ancestors_loop fuel (done ++ take size rest) (drop size rest)
            else []
      | [] => []
      end
  end.
Definition ancestor_package_paths (p : string) : list string :=
  let comps := filter (λ c, c ≠ "") (split_char "/" p) in
  ancestors_loop (S (length comps)) [] comps.
