(* ===== verification/ViewTheory.v ===== *)
(** * What the project view promises

    Reconciliation takes away only what an earlier install owned and proved;
    relays attach a project completely, a second attachment changes nothing,
    and reconciling takes exactly the relays away again. *)

From S2P Require Export View GraphIdentity.
From Stdlib Require Import Ascii.

(** ** Reconciliation *)

Section reconcile.
Context (hash : string → string) (project : path) (desired : gset string) (prior : option path).
Context (old : list ManagedEntry).

(** The removal of [k] from the tree [s] is accounted for by an owned entry. *)
Definition accounted (s : tree) (k : path) : Prop :=
  ∃ e, e ∈ old ∧ me_path e ∉ desired ∧ path_is_valid (me_path e) = true ∧
    ((∃ q n, lookup_path s false (full_path project (me_path e)) = Ok q ∧ node_at s q = Some n ∧
        safe_to_remove hash s project prior e n = true ∧ q `prefix_of` k) ∨
     (∃ scope, last (parent_of (full_path project (me_path e))) = Some scope ∧ starts_with_char "@" scope = true ∧
        lookup_path s false (parent_of (full_path project (me_path e))) = Ok k ∧ children s k = [])).

Definition removals (t t' : tree) : Prop :=
  t' ⊆ t ∧ ∀ k n, t !! k = Some n → t' !! k = None → ∃ s, t' ⊆ s ∧ s ⊆ t ∧ accounted s k.

Lemma removals_refl t : removals t t.
Proof. split; [done|]. intros k n Hk Hn. congruence. Qed.
Lemma removals_trans a b c : removals a b → removals b c → removals a c.
Proof.
  intros [Hab H1] [Hbc H2]. split; [by trans b|]. intros k n Hk Hn.
  destruct (b !! k) as [n'|] eqn:Hb.
  - destruct (H2 k n' Hb Hn) as (s & ? & ? & ?). exists s. split; [done|]. split; [by trans b|done].
  - destruct (H1 k n Hk Hb) as (s & ? & ? & ?). exists s. split; [by trans b|]. done.
Qed.

Lemma tidy_removals p e t t' r :
  tidy_scope p t = (t', r) → p = full_path project (me_path e) → e ∈ old → me_path e ∉ desired →
  path_is_valid (me_path e) = true → removals t t'.
Proof using Type.
  intros H -> He Hd Hv. unfold tidy_scope in H.
  destruct (last _) as [name|] eqn:Hl; [|simplify_eq; apply removals_refl].
  destruct (starts_with_char "@" name) eqn:Hat; [|simplify_eq; apply removals_refl].
  destruct (remove_dir _ t) as [t1 r1] eqn:Hr. simplify_eq. simpl.
  destruct (remove_dir_inv _ _ _ _ Hr) as [->|(q & Hq & Hc & ->)]; [apply removals_refl|].
  split; [apply delete_subseteq|]. intros k n Hk Hn. exists t.
  split; [apply delete_subseteq|]. split; [done|].
  assert (k = q) as -> by (apply lookup_delete_None in Hn as [?|?]; [done|congruence]).
  exists e. split_and!; [done..|]. right. by exists name.
Qed.

Lemma reconcile_entry_removals e o t t' r :
  e ∈ old → reconcile_entry hash project desired prior o e t = (t', r) → removals t t'.
Proof using Type.
  unfold reconcile_entry. intros He H. case_bool_decide as Hd; [simplify_eq; apply removals_refl|].
  destruct (path_is_valid _) eqn:Hv; simpl in H; [|simplify_eq; apply removals_refl].
  destruct (exists_at _ _); simpl in H; [|simplify_eq; apply removals_refl].
  destruct (lstat _ _) as [n|] eqn:Hn; [|simplify_eq; apply removals_refl].
  destruct (safe_to_remove _ _ _ _ _ _) eqn:Hs; simpl in H; [|simplify_eq; apply removals_refl].
  unfold lstat in Hn. apply bind_Ok in Hn as (q & Hq & Hn%ok_or_Ok).
  assert (∀ t1, (t1 = t ∨ t1 = delete q t ∨ t1 = delete_below q t) → removals t t1) as Hrm.
  { intros t1 [->|Ht1]; [apply removals_refl|].
    assert (t1 ⊆ t) as Hsub by (destruct Ht1 as [->| ->]; [apply delete_subseteq|apply delete_below_sub]).
    split; [done|]. intros k m Hk Hk1. exists t. split_and!; [done|done|]. exists e.
    split_and!; [done..|]. left. exists q, n. split_and!; [done..|].
    destruct Ht1 as [->| ->].
    - apply lookup_delete_None in Hk1 as [->|?]; [done|congruence].
    - apply delete_below_None in Hk1 as [?|?]; [congruence|done]. }
  unfold mbind, M_bind in H.
  destruct (remove_node _ n t) as [t1 r1] eqn:H1.
  assert (removals t t1) as Hr1.
  { apply Hrm. destruct n as [by' m|m|tg];
      [destruct (remove_file_inv _ _ _ _ H1) as [->|(q' & n' & Hq' & _ & _ & ->)]
      |destruct (remove_dir_all_inv _ _ _ _ H1) as [->|(q' & n' & Hq' & _ & [->| ->])]
      |destruct (remove_file_inv _ _ _ _ H1) as [->|(q' & n' & Hq' & _ & _ & ->)]];
      try (rewrite Hq in Hq'; injection Hq' as <-); auto. }
  destruct r1 as [u|er]; [|by simplify_eq].
  destruct (tidy_scope _ t1) as [t2 r2] eqn:H2.
  assert (removals t t2).
  { eapply removals_trans; [done|]. by eapply tidy_removals. }
  destruct r2; cbn in H; by injection H as <- _.
Qed.
End reconcile.

Lemma fold_m_rel {S E A B} (R : S → S → Prop) (f : B → A → M S E B) (l : list A) :
  (∀ s, R s s) → (∀ a b c, R a b → R b c → R a c) →
  (∀ b a s, a ∈ l → R s (f b a s).1) → ∀ b s, R s (fold_m f b l s).1.
Proof.
  intros Hr Ht. induction l as [|a l IH]; intros Hf b s; cbn; [apply Hr|].
  unfold mbind, M_bind. pose proof (Hf b a s ltac:(left)) as H1.
  destruct (f b a s) as [s1 [b1|e]]; [|done]. eapply Ht; [exact H1|].
  apply IH. intros. apply Hf. by right.
Qed.

Lemma fold_m_ext {S E A B} (f g : B → A → M S E B) (l : list A) b s :
  (∀ b a s, f b a s = g b a s) → fold_m f b l s = fold_m g b l s.
Proof.
  intros H. revert b s. induction l as [|a l IH]; intros b s; [done|]. cbn. unfold mbind, M_bind.
  rewrite H. destruct (g b a s) as [s1 [b1|e]]; [apply IH|done].
Qed.


(** ** Attachment *)

Lemma dedup_path_id l : NoDup (me_path <$> l) → dedup_path l = l.
Proof.
  induction l as [|a l IH]; [done|]. cbn [fmap list_fmap]. intros [Ha Hl]%NoDup_cons.
  destruct l as [|b l]; [done|].
  change (dedup_path (a :: b :: l)) with (match dedup_path (b :: l) with
    | b' :: l'' => if bool_decide (me_path a = me_path b') then a :: l'' else a :: b' :: l'' | [] => [a] end).
  rewrite (IH Hl).
  rewrite bool_decide_eq_false_2; [done|]. intros Heq. apply Ha. rewrite Heq. cbn. left.
Qed.

Definition relay_target (vol_nm : path) (name : string) : string := path_display (vol_nm ++ [name]).
Definition relay_for (vol_nm : path) (name : string) : ManagedEntry :=
  relay_entry ("node_modules/" +:+ name) (relay_target vol_nm name).
Definition linked (t : tree) (proj_nm vol_nm : path) (name : string) : Prop :=
  t !! (proj_nm ++ [name]) = Some (NLink (relay_target vol_nm name)).
#[global] Instance linked_dec t p v name : Decision (linked t p v name).
Proof. unfold linked. apply _. Defined.

(** What one entry of the volume adds to the project. *)
Lemma place_relay_ok proj_nm vol_nm a name t :
  real_dir t proj_nm → plain name →
  (linked t proj_nm vol_nm name →
    place_relay proj_nm vol_nm a name t = (t, Ok (unchanged a (relay_for vol_nm name)))) ∧
  (¬ linked t proj_nm vol_nm name →
    ∃ t', place_relay proj_nm vol_nm a name t = (t', Ok (created a (relay_for vol_nm name))) ∧
      linked t' proj_nm vol_nm name ∧ ∀ k, ¬ below proj_nm name k → t' !! k = t !! k).
Proof.
  intros Hp Hc. unfold place_relay. rewrite lstat_child by done. split.
  { intros Hl. unfold linked in Hl. rewrite Hl. cbn. by rewrite bool_decide_eq_true_2. }
  intros Hl. assert (∀ t1, t1 !! (proj_nm ++ [name]) = None → (∀ k, ¬ below proj_nm name k → t1 !! k = t !! k) →
    ∃ t', (_ ← symlink (relay_target vol_nm name) (proj_nm ++ [name]); mret (created a (relay_for vol_nm name))) t1
          = (t', Ok (created a (relay_for vol_nm name))) ∧
      linked t' proj_nm vol_nm name ∧ ∀ k, ¬ below proj_nm name k → t' !! k = t !! k) as Hmk.
  { intros t1 Hn Hf. unfold mbind, M_bind. rewrite symlink_child; [|eapply real_dir_frame; [exact Hp|]; intros; apply Hf; by eapply below_dir|done..].
    eexists. split; [done|]. split; [apply lookup_insert_eq|].
    intros k Hk. rewrite lookup_insert_ne; [by apply Hf|]. intros <-. apply Hk, below_app. }
  destruct (t !! (proj_nm ++ [name])) as [n|] eqn:Hn.
  - cbn [ok_or]. destruct (remove_node_child t proj_nm name n Hp Hc Hn) as (t1 & Hr & Hn1 & Hf).
    destruct (Hmk t1 Hn1 Hf) as (t' & Hm & Hrest). exists t'. split; [|done]. rewrite <- Hm.
    destruct n as [b m|m|current]; cbn [remove_node] in Hr.
    + by rewrite (bind_run _ _ _ _ _ Hr).
    + by rewrite (bind_run _ _ _ _ _ Hr).
    + rewrite bool_decide_eq_false_2 by (intros ->; by apply Hl). by rewrite (bind_run _ _ _ _ _ Hr).
  - cbn [ok_or]. by apply Hmk.
Qed.

Lemma attach_entry_nil umask proj_nm vol_nm a name :
  attach_entry umask proj_nm vol_nm [] a name = place_relay proj_nm vol_nm a name.
Proof. unfold attach_entry. by rewrite (bool_decide_eq_true_2 (live_bins [] = ∅)), andb_false_r by done. Qed.

Section relays.
Context (proj_nm vol_nm : path).
Implicit Types (t : tree) (names : list string) (a : AttachStats * list ManagedEntry).

Lemma real_dir_below t t' names :
  real_dir t proj_nm → (∀ k, (∀ n, n ∈ names → ¬ below proj_nm n k) → t' !! k = t !! k) → real_dir t' proj_nm.
Proof using Type. intros Hp Hf. eapply real_dir_frame; [done|]. intros. apply Hf. intros n _. by eapply below_dir. Qed.

Lemma place_relays_ok names a t :
  real_dir t proj_nm → Forall plain names → NoDup names →
  ∃ t' stats, fold_m (place_relay proj_nm vol_nm) a names t = (t', Ok (stats, a.2 ++ (relay_for vol_nm <$> names))) ∧
    (∀ n, n ∈ names → linked t' proj_nm vol_nm n) ∧
    (∀ k, (∀ n, n ∈ names → ¬ below proj_nm n k) → t' !! k = t !! k) ∧
    ((∀ n, n ∈ names → linked t proj_nm vol_nm n) →
      t' = t ∧ stats = mk_AttachStats (relays_created a.1) (relays_unchanged a.1 + length names)).
Proof using Type.
  revert a t. induction names as [|n names IH]; intros a t Hp Hpl Hnd.
  { exists t, a.1. cbn. rewrite app_nil_r, Nat.add_0_r. destruct a as [[] l]. split_and!; try done.
    intros n Hn. by apply elem_of_nil in Hn. }
  apply Forall_cons in Hpl as [Hn Hpl]. apply NoDup_cons in Hnd as [Hni Hnd].
  destruct (place_relay_ok proj_nm vol_nm a n t Hp Hn) as [Hyes Hno].
  assert (∃ t1 a1, place_relay proj_nm vol_nm a n t = (t1, Ok a1) ∧ a1.2 = a.2 ++ [relay_for vol_nm n] ∧
    linked t1 proj_nm vol_nm n ∧ (∀ k, ¬ below proj_nm n k → t1 !! k = t !! k) ∧
    (linked t proj_nm vol_nm n → t1 = t ∧ a1 = unchanged a (relay_for vol_nm n)))
    as (t1 & a1 & Hr & Ha1 & Hl1 & Hf1 & Hsame).
  { destruct (decide (linked t proj_nm vol_nm n)) as [Hl|Hl].
    - eexists _, _. split; [by apply Hyes|]. by split_and!.
    - destruct (Hno Hl) as (t' & ? & ? & ?). eexists _, _. split; [done|]. by split_and!. }
  assert (real_dir t1 proj_nm) as Hp1.
  { eapply real_dir_frame; [exact Hp|]. intros. apply Hf1. by eapply below_dir. }
  destruct (IH a1 t1 Hp1 Hpl Hnd) as (t' & stats & Hrun & Hall & Hf & Hid).
  exists t', stats. cbn [fold_m]. rewrite (bind_run _ _ _ _ _ Hr), Hrun, Ha1, <- (assoc_L (++)).
  split; [done|]. split; [|split].
  - intros m [->|Hm]%elem_of_cons; [|by apply Hall]. unfold linked. rewrite Hf; [done|].
    intros m Hm Hb. apply below_self in Hb as ->. done.
  - intros k Hk. rewrite Hf by (intros m Hm; apply Hk; by right). apply Hf1, Hk. by left.
  - intros Hlk. destruct (Hsame ltac:(apply Hlk; left)) as [-> ->]. destruct Hid as [-> ->].
    { intros m Hm. apply Hlk. by right. }
    split; [done|]. cbn. f_equal; lia.
Qed.
End relays.

Lemma relay_for_inj vol_nm n m : me_path (relay_for vol_nm n) = me_path (relay_for vol_nm m) → n = m.
Proof.
  intros H. assert (Some n = Some m) as [= ->]; [|done].
  rewrite <- !(strip_prefix_app "node_modules/"). by f_equal.
Qed.
Lemma relays_NoDup vol_nm names : NoDup names → NoDup (me_path <$> (relay_for vol_nm <$> names)).
Proof.
  intros H. rewrite <- list_fmap_compose. apply NoDup_fmap_2_strong; [|done].
  intros x y _ _. apply relay_for_inj.
Qed.

(** The situation of a project and a volume before an attachment. *)
Record attachable (t : tree) (project volume : path) : Prop := {
  at_project : real_dir t project;
  at_node_modules : t !! (project ++ ["node_modules"]) = None ∨
    is_dir_node (t !! (project ++ ["node_modules"])) = true;
  at_volume : real_dir t (volume ++ ["node_modules"]);
  at_apart : ¬ (project ++ ["node_modules"]) `prefix_of` (volume ++ ["node_modules"]) ∧
             ¬ (volume ++ ["node_modules"]) `prefix_of` (project ++ ["node_modules"]);
  at_names : Forall plain (children t (volume ++ ["node_modules"])) }.

Lemma plain_node_modules : plain "node_modules".
Proof. by split_and!. Qed.

Lemma make_node_modules umask t project :
  real_dir t project →
  (t !! (project ++ ["node_modules"]) = None ∨ is_dir_node (t !! (project ++ ["node_modules"])) = true) →
  ∃ t', create_dir_all umask (project ++ ["node_modules"]) t = (t', Ok ()) ∧
    real_dir t' (project ++ ["node_modules"]) ∧
    (∀ k, k ≠ project ++ ["node_modules"] → t' !! k = t !! k) ∧
    (is_dir_node (t !! (project ++ ["node_modules"])) = true → t' = t).
Proof.
  intros Hp Hn. pose proof plain_node_modules as Hpl. unfold create_dir_all. rewrite reverse_snoc. cbn [create_dir_all_rev].
  rewrite reverse_cons, reverse_involutive.
  unfold mkdir at 1. rewrite lookup_child_plain, node_at_snoc by done. destruct Hn as [Hn|Hn].
  - rewrite Hn. eexists. split; [done|]. split; [|split; [|done]].
    + apply real_dir_snoc; [|done|by rewrite lookup_insert_eq].
      eapply real_dir_frame; [exact Hp|]. intros pre post -> _. apply lookup_insert_ne. intros Heq.
      apply (f_equal length) in Heq. rewrite !length_app in Heq. cbn in Heq. lia.
    + intros k Hk. by apply lookup_insert_ne.
  - exists t. assert (real_dir t (project ++ ["node_modules"])) as Hr by by apply real_dir_snoc.
    destruct (t !! (project ++ ["node_modules"])) as [n|]; [|done]. rewrite is_dir_real by done. by split_and!.
Qed.

Section attach_run.
Context (umask : N) (project volume : path).
Let proj_nm := project ++ ["node_modules"].
Let vol_nm := volume ++ ["node_modules"].

(** What the project owns once it is attached to the entries [names]. *)
Definition owned_relays (names : list string) : list ManagedEntry :=
  sort_by path_asc (relay_for vol_nm <$> names).
Lemma owned_relays_perm names : owned_relays names ≡ₚ relay_for vol_nm <$> names.
Proof using Type. apply sort_by_perm. Qed.

Lemma sort_names_perm l1 l2 : l1 ≡ₚ l2 → NoDup l1 → sort_names l1 = sort_names l2.
Proof using Type.
  intros Hp Hnd. apply (sort_by_unique String.leb leb_total_s leb_trans_s id); [apply leb_antisym_s|done|].
  by rewrite list_fmap_id.
Qed.

(** Outside the project's directory nothing changes. *)
Definition touches_only (t t' : tree) (names : list string) : Prop :=
  ∀ k, k ≠ proj_nm → (∀ n, n ∈ names → ¬ below proj_nm n k) → t' !! k = t !! k.

Lemma vol_apart t n pre post : attachable t project volume → vol_nm = pre ++ post → ¬ below proj_nm n pre.
Proof using Type.
  intros [_ _ _ [Hap _] _] Heq [l Hb]. apply Hap. fold proj_nm vol_nm. rewrite Heq, Hb.
  exists ([n] ++ l ++ post). by rewrite !(assoc_L (++)).
Qed.
Lemma vol_child_apart t n m : attachable t project volume → ¬ below proj_nm n (vol_nm ++ [m]).
Proof using Type.
  intros Hat [l Hb]. destruct l as [|x l _] using rev_ind.
  - rewrite app_nil_r in Hb. apply app_inj_tail in Hb as [Hb _]. destruct Hat as [_ _ _ [Hap _] _].
    apply Hap. fold proj_nm vol_nm. by rewrite Hb.
  - rewrite (assoc_L (++)) in Hb. apply app_inj_tail in Hb as [Hb _].
    eapply (vol_apart t n vol_nm []); [done|by rewrite app_nil_r|]. exists l. done.
Qed.
Lemma vol_child_not_proj t m : attachable t project volume → vol_nm ++ [m] ≠ proj_nm.
Proof using Type. intros [_ _ _ [_ Hap] _] Heq. apply Hap. fold proj_nm vol_nm. rewrite <- Heq. by exists [m]. Qed.
Lemma vol_prefix_not_proj t pre post : attachable t project volume → vol_nm = pre ++ post → pre ≠ proj_nm.
Proof using Type. intros [_ _ _ [Hap _] _] Heq ->. apply Hap. fold vol_nm. rewrite Heq. by exists post. Qed.

Lemma children_kept t t' names :
  attachable t project volume → touches_only t t' names → children t' vol_nm ≡ₚ children t vol_nm.
Proof using Type.
  intros Hat Ht. apply NoDup_Permutation; [apply children_NoDup..|]. intros m. rewrite !elem_of_children.
  rewrite Ht; [done|by eapply vol_child_not_proj|]. intros n _. by eapply vol_child_apart.
Qed.
Lemma attachable_kept t t' names :
  attachable t project volume → touches_only t t' names → real_dir t' proj_nm → attachable t' project volume.
Proof using Type.
  intros Hat Ht Hp. pose proof Hat as [H1 H2 H3 H4 H5]. split; [| | |done|].
  - split; [by destruct H1|]. intros pre post Heq. destruct Hp as [_ Hp].
    apply (Hp pre (post ++ ["node_modules"])). unfold proj_nm. by rewrite Heq, (assoc_L (++)).
  - right. rewrite <- node_at_snoc. destruct Hp as [_ Hp]. apply (Hp _ []). by rewrite app_nil_r.
  - eapply real_dir_frame; [done|]. intros pre post Heq _. apply Ht; [by eapply vol_prefix_not_proj|].
    intros n _. by eapply vol_apart.
  - fold vol_nm. by rewrite (children_kept t t' names).
Qed.

Lemma attach_run t :
  attachable t project volume →
  ∃ t' stats, attach_project_relay umask project volume [] t =
      (t', Ok (mk_AttachOutcome stats (owned_relays (sort_names (children t vol_nm))))) ∧
    (∀ n, n ∈ children t vol_nm → linked t' proj_nm vol_nm n) ∧
    touches_only t t' (children t vol_nm) ∧ real_dir t' proj_nm ∧
    (real_dir t proj_nm → (∀ n, n ∈ children t vol_nm → linked t proj_nm vol_nm n) →
      t' = t ∧ stats = mk_AttachStats 0 (length (children t vol_nm))).
Proof using Type.
  intros Hat. pose proof Hat as [H1 H2 H3 H4 H5]. set (names := sort_names (children t vol_nm)).
  assert (∀ n, n ∈ names ↔ n ∈ children t vol_nm) as Hin by (intros n; apply elem_of_sort_by).
  assert (NoDup names) as Hnd by (unfold names, sort_names; rewrite sort_by_perm; apply children_NoDup).
  assert (Forall plain names) as Hpl.
  { apply Forall_forall. intros n Hn%Hin. rewrite Forall_forall in H5. by apply H5. }
  destruct (make_node_modules umask t project H1 H2) as (t1 & Hmk & Hp1 & Hf1 & Hsame1). fold proj_nm in Hmk, Hp1, Hf1, Hsame1.
  assert (touches_only t t1 []) as Ht1 by (intros k Hk _; by apply Hf1).
  destruct (attachable_kept _ _ _ Hat Ht1 Hp1) as [_ _ Hv1 _ _]. fold vol_nm in Hv1.
  destruct (place_relays_ok proj_nm vol_nm names (mk_AttachStats 0 0, []) t1 Hp1 Hpl Hnd)
    as (t' & stats & Hrun & Hall & Hf & Hid).
  exists t', stats. split_and!.
  - unfold attach_project_relay. fold proj_nm vol_nm. rewrite (bind_run _ _ _ _ _ Hmk). unfold mbind at 1, M_bind at 1, gets.
    cbn [id]. change (id t1) with t1. rewrite (read_dir_real t1 vol_nm Hv1). unfold mbind at 1, M_bind at 1, lift.
    assert (sort_names (children t1 vol_nm) = names) as ->.
    { apply sort_names_perm; [|apply children_NoDup]. by apply (children_kept t t1 []). }
    rewrite (bind_run _ _ _ t' (stats, relay_for vol_nm <$> names)).
    + cbn. unfold attach_outcome. rewrite dedup_path_id; [done|]. rewrite sort_by_perm. by apply relays_NoDup.
    + cbn in Hrun. rewrite <- Hrun. apply fold_m_ext. intros. by rewrite attach_entry_nil.
  - intros n Hn%Hin. by apply Hall.
  - intros k Hk Hb. rewrite Hf by (intros n Hn%Hin; by apply Hb). by apply Hf1.
  - eapply real_dir_below; [exact Hp1|exact Hf].
  - intros Hpd Hl. assert (is_dir_node (t !! proj_nm) = true) as Hd.
    { unfold proj_nm. rewrite <- node_at_snoc. destruct Hpd as [_ Hpd]. apply (Hpd _ []). by rewrite app_nil_r. }
    rewrite (Hsame1 Hd) in *. destruct Hid as [-> ->]; [intros n Hn%Hin; by apply Hl|].
    split; [done|]. cbn. f_equal. unfold names, sort_names. by rewrite length_sort_by.
Qed.
End attach_run.


(** ** Taking the relays away *)

Section undo.
Context (hash : string → string) (project volume : path) (prior : option path).
Let proj_nm := project ++ ["node_modules"].
Let vol_nm := volume ++ ["node_modules"].

Definition segment (c : string) : Prop := plain c ∧ contains_char "/" c = false.

Lemma full_path_relay name :
  contains_char "/" name = false → full_path project ("node_modules/" +:+ name) = proj_nm ++ [name].
Proof using Type.
  intros Hn. unfold full_path. change ("node_modules/" +:+ name) with ("node_modules" +:+ String "/" name).
  rewrite split_char_app, split_char_none by done. unfold proj_nm. by rewrite <- (assoc_L (++)).
Qed.
Lemma relay_path_valid name : segment name → path_is_valid ("node_modules/" +:+ name) = true.
Proof using Type.
  intros [(H1 & H2 & H3) Hn]. unfold path_is_valid. change ("node_modules/" +:+ name) with ("node_modules" +:+ String "/" name).
  cbn [is_empty orb]. rewrite split_char_app, split_char_none by done. cbn.
  rewrite (bool_decide_eq_false_2 (name = "..")), (bool_decide_eq_false_2 (name = ".")) by done.
  rewrite (proj2 (is_empty_false name)) by done. done.
Qed.

Lemma reconcile_relay t o name n :
  real_dir t proj_nm → segment name → linked t proj_nm vol_nm name →
  real_dir t vol_nm → Forall (λ c, contains_char "/" c = false) vol_nm →
  t !! (vol_nm ++ [name]) = Some n → (∀ target, n ≠ NLink target) →
  reconcile_entry hash project ∅ prior o (relay_for vol_nm name) t =
    (delete (proj_nm ++ [name]) t, Ok (mk_ReconcileOutcome (S (ro_removed o)) (ro_preserved o))).
Proof using Type.
  intros Hp [Hpl Hsl] Hl Hv Hvs Hn Hnl. unfold reconcile_entry, relay_for, relay_entry. cbn [me_path].
  rewrite bool_decide_eq_false_2 by apply not_elem_of_empty. rewrite relay_path_valid by done. cbn [negb].
  rewrite full_path_relay by done.
  rewrite (exists_link t proj_nm name vol_nm name n); [|done..| |done|done].
  2:{ apply Forall_app. split; [done|]. by apply Forall_singleton. }
  cbn [negb]. rewrite lstat_child by done. unfold linked in Hl. rewrite Hl. cbn [ok_or].
  unfold safe_to_remove. cbn [me_mode me_identity]. rewrite bool_decide_eq_true_2 by (left).
  rewrite strip_prefix_app, bool_decide_eq_true_2 by done. cbn [negb remove_node].
  rewrite (bind_run (remove_file (proj_nm ++ [name])) _ t (delete (proj_nm ++ [name]) t) ()).
  2:{ unfold remove_file. rewrite lookup_child_plain by done. by rewrite node_at_snoc, Hl. }
  rewrite (bind_run (tidy_scope (proj_nm ++ [name])) _ (delete (proj_nm ++ [name]) t) (delete (proj_nm ++ [name]) t) ()); [done|].
  unfold tidy_scope. rewrite parent_snoc. unfold proj_nm at 1. rewrite last_snoc. done.
Qed.

Lemma reconcile_relays names o t :
  real_dir t proj_nm → Forall segment names → NoDup names → (∀ n, n ∈ names → linked t proj_nm vol_nm n) →
  real_dir t vol_nm → Forall (λ c, contains_char "/" c = false) vol_nm →
  ¬ proj_nm `prefix_of` vol_nm →
  (∀ name, name ∈ names → ∃ n, t !! (vol_nm ++ [name]) = Some n ∧ ∀ target, n ≠ NLink target) →
  ∃ t', fold_m (reconcile_entry hash project ∅ prior) o (relay_for vol_nm <$> names) t =
      (t', Ok (mk_ReconcileOutcome (ro_removed o + length names) (ro_preserved o))) ∧
    ∀ k, t' !! k = if bool_decide (k ∈ (λ n, proj_nm ++ [n]) <$> names) then None else t !! k.
Proof using Type.
  revert o t. induction names as [|n names IH]; intros o t Hp Hs Hnd Hl Hv Hvs Hap He.
  { exists t. cbn. rewrite Nat.add_0_r. destruct o. split; [done|]. intros k.
    done. }
  apply Forall_cons in Hs as [Hn Hs]. apply NoDup_cons in Hnd as [Hni Hnd].
  destruct (He n ltac:(left)) as (nd & Hnd1 & Hnd2).
  set (t1 := delete (proj_nm ++ [n]) t).
  assert (∀ k, k ≠ proj_nm ++ [n] → t1 !! k = t !! k) as Hf by (intros k Hk; by apply lookup_delete_ne).
  assert (∀ m, vol_nm ++ [m] ≠ proj_nm ++ [n]) as Hne.
  { intros m [Hc _]%app_inj_tail. apply Hap. by rewrite Hc. }
  destruct (IH (mk_ReconcileOutcome (S (ro_removed o)) (ro_preserved o)) t1) as (t' & Hrun & Hk).
  - eapply real_dir_frame; [exact Hp|]. intros pre post Heq _. apply Hf. intros Hc.
    rewrite Hc in Heq. apply (f_equal length) in Heq. rewrite !length_app in Heq. cbn in Heq. lia.
  - done.
  - done.
  - intros m Hm. unfold linked. rewrite Hf; [by apply Hl; right|]. intros [_ ->]%app_inj_tail. done.
  - eapply real_dir_frame; [exact Hv|]. intros pre post Heq _. apply Hf. intros Hc.
    apply Hap. rewrite Heq, Hc. exists ([n] ++ post). by rewrite (assoc_L (++)).
  - done.
  - done.
  - intros m Hm. destruct (He m ltac:(by right)) as (n' & H1 & H2). exists n'. split; [|done]. by rewrite Hf.
  - exists t'. cbn [fmap list_fmap fold_m]. rewrite (bind_run (reconcile_entry hash project ∅ prior o (relay_for vol_nm n)) _ t t1 (mk_ReconcileOutcome (S (ro_removed o)) (ro_preserved o))).
    2:{ eapply reconcile_relay; [done|done|apply Hl; left|done|done|exact Hnd1|exact Hnd2]. }
    rewrite Hrun. cbn. split; [do 3 f_equal; lia|]. intros k. rewrite Hk.
    destruct (decide (k = proj_nm ++ [n])) as [->|Hkn].
    + rewrite (bool_decide_eq_true_2 (_ ∈ _ :: _)) by (left).
      case_bool_decide; [done|]. apply lookup_delete_eq.
    + rewrite Hf by done. erewrite bool_decide_ext; [done|]. rewrite elem_of_cons. naive_solver.
Qed.
End undo.


(** ** Fingerprints *)

Definition fits_entry (e : string * node) : bool :=
  fits_str e.1 && match e.2 with NFile content _ => fits_str content | NLink target => fits_str target | NDir _ => true end.
(** The same path, kind and content; permissions are not part of it. *)
Definition same_entry (e e' : string * node) : Prop :=
  e.1 = e'.1 ∧
  match e.2, e'.2 with
  | NFile content _, NFile content' _ => content = content'
  | NLink target, NLink target' => target = target'
  | NDir _, NDir _ => True
  | _, _ => False
  end.

Lemma code_entry : code fits_entry fits_entry same_entry tree_entry_bytes tree_entry_bytes.
Proof.
  intros [p n] [p' n'] r s Hn Hn' Heq. unfold fits_entry in Hn, Hn'. cbn [fst snd] in Hn, Hn'. split_fits Hn. split_fits Hn'.
  unfold tree_entry_bytes in Heq. cbn [fst snd] in Heq.
  destruct n, n'; rewrite <- ?app_assoc_s in Heq; try (exfalso; lazy [String.append] in Heq; discriminate Heq);
    apply tag_inj in Heq; repeat (apply code_field in Heq as [-> Heq]; [|done..]); by subst.
Qed.
Lemma entry_bytes_nonempty e r : tree_entry_bytes e +:+ r ≠ "".
Proof. destruct e as [p []]; by cbn. Qed.

Lemma stream_inj es es' :
  forallb fits_entry es = true → forallb fits_entry es' = true →
  write_each tree_entry_bytes es = write_each tree_entry_bytes es' → Forall2 same_entry es es'.
Proof.
  revert es'. induction es as [|e es IH]; intros [|e' es'] Hf Hf' Heq; cbn [write_each] in Heq; [constructor| | |].
  - by apply symmetry, entry_bytes_nonempty in Heq.
  - by apply entry_bytes_nonempty in Heq.
  - cbn [forallb] in Hf, Hf'. apply andb_true_iff in Hf as [He Hf], Hf' as [He' Hf'].
    apply code_entry in Heq as [Hs Heq]; [|done..]. constructor; [done|by apply IH].
Qed.
Lemma same_entry_bytes es es' :
  Forall2 same_entry es es' → write_each tree_entry_bytes es = write_each tree_entry_bytes es'.
Proof.
  induction 1 as [|[p n] [p' n'] es es' [Hp Hn] Hes IH]; [done|]. cbn [write_each]. rewrite IH. f_equal.
  cbn in Hp, Hn. subst. destruct n, n'; try done; unfold tree_entry_bytes; cbn; by subst.
Qed.

(** The fingerprint of a directory stands for what is below it: with a hash
    that does not collide on the two streams, two directories have the same
    fingerprint exactly when they list the same entries, each with the same
    kind and the same bytes or link target. *)
Theorem fingerprint_identifies hash t t' root root' es es' :
  tree_entries t root = Ok es → tree_entries t' root' = Ok es' →
  forallb fits_entry es = true → forallb fits_entry es' = true →
  (hash (write_each tree_entry_bytes es) = hash (write_each tree_entry_bytes es') →
    write_each tree_entry_bytes es = write_each tree_entry_bytes es') →
  tree_fingerprint hash t root = tree_fingerprint hash t' root' ↔ Forall2 same_entry es es'.
Proof.
  intros He He' Hf Hf' Hc. unfold tree_fingerprint. rewrite He, He'. cbn. split.
  - intros Heq. apply stream_inj; [done..|]. apply Hc. injection Heq as Heq. by apply tag_inj in Heq.
  - intros Hs. by rewrite (same_entry_bytes _ _ Hs).
Qed.
