(* ===== verification/ViewRuns.v ===== *)
(** * The project view at work

    Attachments, reconciliations and fingerprints of small trees: the theorems
    of ViewTheory.v at concrete trees, and the behaviours that surprise. *)

From S2P Require Export ViewTheory.
From Stdlib Require Import Ascii.

Definition real_dirb (t : tree) (p : path) : bool :=
  forallb (λ c, bool_decide (plain c)) p && forallb (λ i, is_dir_node (node_at t (take i p))) (seq 0 (S (length p))).
Lemma real_dirb_ok t p : real_dirb t p = true → real_dir t p.
Proof.
  unfold real_dirb. intros [Hp Hd]%andb_true_iff. split.
  - apply Forall_forall. intros c Hc%list_elem_of_In. rewrite forallb_forall in Hp.
    apply Hp in Hc. by apply bool_decide_eq_true_1 in Hc.
  - intros pre post ->. rewrite forallb_forall in Hd. specialize (Hd (length pre)).
    rewrite take_app_length in Hd. apply Hd, in_seq. rewrite length_app. lia.
Qed.

Definition attachableb (t : tree) (project volume : path) : bool :=
  let proj_nm := project ++ ["node_modules"] in
  let vol_nm := volume ++ ["node_modules"] in
  real_dirb t project && (bool_decide (t !! proj_nm = None) || is_dir_node (t !! proj_nm)) && real_dirb t vol_nm
  && negb (bool_decide (proj_nm `prefix_of` vol_nm)) && negb (bool_decide (vol_nm `prefix_of` proj_nm))
  && forallb (λ c, bool_decide (plain c)) (children t vol_nm).
Lemma attachableb_ok t project volume : attachableb t project volume = true → attachable t project volume.
Proof.
  unfold attachableb. rewrite !andb_true_iff, !negb_true_iff, !bool_decide_eq_false.
  intros (((((H1 & H2) & H3) & H4) & H5) & H6). split.
  - by apply real_dirb_ok.
  - apply orb_true_iff in H2 as [H2|H2]; [left; by apply bool_decide_eq_true_1 in H2|by right].
  - by apply real_dirb_ok.
  - done.
  - apply Forall_forall. intros c Hc%list_elem_of_In. rewrite forallb_forall in H6.
    apply H6 in Hc. by apply bool_decide_eq_true_1 in Hc.
Qed.

(** ** A project and a volume *)

Definition dir : node := NDir 493.
Definition app_project : path := ["p"].
Definition lib_volume : path := ["s"; "v"].
Definition volume_tree : tree := {[
  ["s"] := dir; ["s"; "v"] := dir; ["s"; "v"; "node_modules"] := dir;
  ["s"; "v"; "node_modules"; ".bin"] := dir;
  ["s"; "v"; "node_modules"; "lib"] := dir;
  ["s"; "v"; "node_modules"; "lib"; "index.js"] := NFile "x" 420%N ]}.
(** The project holds a directory of its own where [lib] goes. *)
Definition before : tree := <[["p"; "node_modules"; "lib"; "old"] := NFile "y" 420%N]>
  (<[["p"; "node_modules"; "lib"] := dir]> (<[["p"; "node_modules"] := dir]> (<[["p"] := dir]> volume_tree))).

Lemma before_attachable : attachable before app_project lib_volume.
Proof. apply attachableb_ok. vm_compute. reflexivity. Qed.



(** What the attachment of [before] does, counted. *)
Example attach_before :
  ao_stats <$> (ok (attach_project_relay 18 app_project lib_volume [] before).2) = Some (mk_AttachStats 2 0).
Proof. vm_compute. reflexivity. Qed.

Lemma fingerprint_identifies_witness :
  tree_fingerprint id volume_tree ["s"; "v"; "node_modules"; "lib"] =
  tree_fingerprint id (<[["s"; "v"; "node_modules"; "lib"; "index.js"] := NFile "x" 448%N]> volume_tree)
    ["s"; "v"; "node_modules"; "lib"].
Proof.
  refine (proj2 (fingerprint_identifies id volume_tree
    (<[["s"; "v"; "node_modules"; "lib"; "index.js"] := NFile "x" 448%N]> volume_tree) _ _
    [("index.js", NFile "x" 420%N)] [("index.js", NFile "x" 448%N)] _ _ _ _ _) _).
  - vm_compute. reflexivity.
  - vm_compute. reflexivity.
  - vm_compute. reflexivity.
  - vm_compute. reflexivity.
  - exact (λ H, H).
  - by repeat constructor.
Defined.

(** ** Behaviours *)

(** A relay whose volume was collected dangles; [full_path.exists()] follows
    it, so reconciliation takes it for removed: it stays and is not reported. *)
Definition dangling : tree := {[
  ["p"] := dir; ["p"; "node_modules"] := dir;
  ["p"; "node_modules"; "lib"] := NLink "/s/v/node_modules/lib" ]}.
Lemma dangling_relay_stays :
  reconcile_project_view id app_project
    [mk_ManagedEntry "node_modules/lib" "relay" "relay:/s/v/node_modules/lib"] ∅ None dangling =
  (dangling, Ok (mk_ReconcileOutcome 0 [])).
Proof. vm_compute. reflexivity. Qed.

(** A live link to an unscoped workspace: the project just attached does not
    pass for attached, so its plan is never reused. *)
Definition app_link : ProjectLink := mk_ProjectLink "node_modules/lib" ["p"; "packages"; "lib"] ∅.
Lemma linked_project_not_attached :
  let r := attach_project_relay 18 app_project lib_volume [app_link] before in
  is_ok r.2 = true ∧ read_link r.1 ["p"; "node_modules"; "lib"] = Some "../packages/lib" ∧
  project_attached r.1 app_project lib_volume = false.
Proof. vm_compute. split_and!; reflexivity. Qed.
(** A scoped one passes: the scope is a directory. *)
Definition scoped_volume : tree :=
  <[["s"; "v"; "node_modules"; "@a"; "b"] := dir]> (<[["s"; "v"; "node_modules"; "@a"] := dir]> volume_tree).
Definition scoped_link : ProjectLink := mk_ProjectLink "node_modules/@a/b" ["p"; "packages"; "b"] ∅.
Example scoped_project_attached :
  let r := attach_project_relay 18 app_project lib_volume [scoped_link] (<[["p"] := dir]> scoped_volume) in
  is_ok r.2 = true ∧ read_link r.1 ["p"; "node_modules"; "@a"; "b"] = Some "../../packages/b" ∧
  project_attached r.1 app_project lib_volume = true.
Proof. vm_compute. split_and!; reflexivity. Qed.

(** A file where the mixed [.bin] directory goes makes the attachment fail. *)
Definition bin_link : ProjectLink := mk_ProjectLink "node_modules/@a/b" ["p"; "packages"; "b"] {[ "b" := "cli.js" ]}.
Lemma bin_file_blocks_attachment :
  (attach_project_relay 18 app_project lib_volume [bin_link]
     (<[["p"; "node_modules"; ".bin"] := NFile "" 420%N]> before)).2 = Err ENOTDIR.
Proof. vm_compute. reflexivity. Qed.

(** A file name with a backslash is looked up as a path: no fingerprint. *)
Lemma backslash_no_fingerprint :
  tree_fingerprint id {[ ["d"] := dir; ["d"; "a\b"] := NFile "" 420%N ]} ["d"] = Err ENOENT.
Proof. vm_compute. reflexivity. Qed.

(** An entry changed by the user is preserved and reported. *)
Example changed_entry_preserved :
  (reconcile_project_view id app_project
    [mk_ManagedEntry "node_modules/lib" "relay" "relay:/elsewhere"] ∅ None
    (<[["p"; "node_modules"; "lib"] := NLink "/s/v/node_modules/lib"]> before)).2 =
  Ok (mk_ReconcileOutcome 0 ["node_modules/lib"]).
Proof. vm_compute. reflexivity. Qed.

(** Ownership inferred from an older volume is what reconciliation proves. *)
Example inferred_entries :
  infer_prior_ownership id (attach_project_relay 18 app_project lib_volume [] before).1 app_project lib_volume =
  owned_relays lib_volume [".bin"; "lib"].
Proof. vm_compute. reflexivity. Qed.

Example ancestors_of_nested :
  ancestor_package_paths "node_modules/a/node_modules/@s/b/node_modules/c" =
  ["node_modules/a"; "node_modules/a/node_modules/@s/b"].
Proof. vm_compute. reflexivity. Qed.
